(* ===== verification/_CoqProject ===== *)
-Q . S2P
Prelude.v
GoLang.v
GoFloat.v
ErrDetail.v
GoText.v
GoUtf8.v
GoJson.v
GoUrl.v
FtpServer.v
Store.v
Transfer.v
GoSha.v
Streams.v
LocalFS.v
Worker.v
Ftp.v
Invariant.v
Spec.v
WorkerFacts.v
Backoff.v
Hostcap.v
FtpPool.v
FtpConn.v
Jobs.v
Samples.v
WorkerProps.v
Outcomes.v
EndToEnd.v
FtpJob.v
FtpEnd.v
Loop.v
Sweeper.v
Liveness.v
Poison.v
Retention.v
Ticker.v
Health.v
Metrics.v
Settings.v
WorkerCmd.v
BatchSql.v
SourceKeys.v
SnifferQuery.v
FetchSql.v
Sniffer.v
SnifferProps.v
SnifferRuns.v
SnifferSamples.v
SnifferKeys.v
E2e.v
E2eHost.v
Pipeline.v
Cli.v
Migrate.v
MigrateRuns.v
Commands.v
System.v
