(* ===== verification/Prelude.v ===== *)
(** * imgsync: a verification development

    imgsync moves image files from sources to destinations through a job queue in
    PostgreSQL. Clients ([internal/jobs]) and sniffers ([internal/sniffer], which poll
    a source database) insert jobs; the goroutines of worker pods ([internal/worker])
    lease a due job, stream it from a source to a transport, verify it and settle the
    row; a sweeper ([internal/sweeper]) takes back the leases of dead workers; retention
    ([internal/retention]) deletes old settled jobs. FTP transfers go through a
    connection pool per host ([internal/transports/ftp]) and a cluster-wide cap per host
    ([internal/hostcap]). All components meet in the tables of the control database.

    ** How the code is modelled

    Go code is a function in a state monad with panics ([M], this file): a call returns
    or panics, the world survives, [defer] and [recover] are combinators. Components
    keep their state inside a bigger world through lenses ([Lens], [zoom]). Errors are
    values with [errors.Is] and [errors.As] (GoLang.v). Integers have their width where
    it matters ([int64_wrap], [in_int32]); float64 arithmetic (backoff, seconds of a duration) is
    computed with round-to-nearest-even on integers (GoFloat.v). Text functions are in
    GoLang.v, GoText.v and ErrDetail.v.

    The database (Store.v) is a record of tables with the constraints of migrations/0001
    and 0002. A statement is a function of the tables and of what it sees besides them
    (NOW(), rows and advisory locks held by other sessions). Every round trip takes the
    next entry of a script of faults: the request is lost, or it is executed and the
    reply is lost. Transactions work on a copy; rolled back work leaves the sequences
    advanced. [ScanOrder] is the order rows are visited in without ORDER BY: any.

    Concurrency: System.v interleaves the components. Each autocommit statement is a step
    of its own (leases, outcome writes, drains, the three statements of a poll); an
    enqueue, a sweep and a retention cycle, which are transactions, are one step each: the
    isolation of PostgreSQL is taken for granted. The pool, the idle backoff and concurrent
    migrations are step relations over their critical sections; the locks of the host cap
    are changed by other sessions between any two round trips. Context cancellation, timeouts and lost
    connections are faults of the round trip they hit.

    ** Files

    - Prelude, GoLang, GoFloat, GoText: the monad, lenses, tactics, Go's integers,
      strings, numbers as text, errors, float64. GoUrl: [url.Parse], [path.Clean] and
      [path.Dir]. GoSha: SHA-256 and its hexadecimal form. GoUtf8: UTF-8 as Go and
      PostgreSQL read it. GoJson: [json.Marshal], and the reader of a JSONB column.
    - ErrDetail: internal/worker/errdetail.go ([sanitizeErrMsg], [retryBackoff]).
    - Store: tables, SQL clauses, sessions and transactions.
    - Transfer, Streams: internal/transfer: [Source] and [Transport] as records of
      operations, readers as a class, [io.Copy], the cancellable reader.
    - LocalFS: sources/localfs and transports/localfs over a file system with failures.
    - Ftp: transports/ftp/transport.go and sources/ftp/source.go over the interface of
      the FTP library ([ServerConn]) and of the pool ([ConnPool]).
    - FtpPool: the critical sections of transports/ftp/pool.go and the goroutines that
      run them. FtpConn: the whole of [Acquire], [dial] and [Release] on top of them.
      FtpServer: the test server of internal/ftpserver. Hostcap: internal/hostcap.
      Backoff: internal/backoff.
    - Worker: job.go, process.go and the job-level functions of runner.go. WorkerFacts,
      WorkerProps: their lemmas and claims. Outcomes: what a job met, as the code's own
      calls determine it, and the outcome that is written and reported. Loop: [Run] and [loop] of runner.go.
      Liveness: the measure that every fair turn of the loop decreases. Poison: a job
      whose outcome the database refuses.
    - Jobs, Sweeper, Retention: the packages of the same name. Ticker: their [Run] loops.
    - SourceKeys: the primary keys of a source table, BIGINT, TEXT or UUID: their order,
      their text and what the server reads of it. SnifferQuery, Sniffer:
      internal/sniffer; BatchSql: the text and arguments of its
      multi-row INSERT; FetchSql: the text and arguments of its SELECT, with a reader
      and an evaluator for such texts. SnifferProps, SnifferRuns, SnifferSamples: its
      lemmas, claims and sample sources. SnifferKeys: sources whose keys are not numbers.
      Cli: [RunSniffer].
    - Health, Metrics, Settings, Migrate: internal/health, internal/metrics,
      configuration (internal/env, internal/cli, cmd/imgsync/worker.go, internal/db,
      internal/sourcedb), internal/db/migrate.go; MigrateRuns: its sessions at the same
      time. WorkerCmd: the callbacks
      cmd/imgsync/worker.go composes. Commands: the commands of cmd/imgsync from their
      flags to their exit status, and the metric registry.
    - Invariant, Spec: the well-formedness of the tables, the abstract queue, and the
      relation every operation is shown to stay in. EndToEnd, FtpEnd, FtpJob, Pipeline,
      System: compositions. E2e: the helpers of the end-to-end tests on the database.
      E2eHost: the same helpers on their host (commands, files, connections).
    - Samples: concrete states the witnesses evaluate.

    ** What the theorems show

    - System: every run of any number of clients, sniffers, workers, sweepers and
      retention cycles, with crashes and lost messages, keeps the tables well formed
      ([reachable_invariant]), is step by step a run of the abstract queue, each labelled
      step doing only what its operation allows ([system_refines_queue]), and never changes what is settled ([settled_is_final]); a call of the worker is a
      sequence of these steps ([processOne_is_steps]), and so is a poll ([RunOnce_steps]).
    - Worker: [LeaseJob] takes the oldest due job, [ProcessJob] settles the row once, as
      what it met and with that detail ([ProcessJob_settles]), and
      reports success exactly for verified transfers, [processOne] settles the row as what
      the job met and reports that outcome, panics and factory errors included, a worker that lost its lease
      changes nothing, panics are absorbed, bodies are closed once, the loop leaves no
      lease behind, and after a sweep that finds every leftover lease overdue, while the
      database answers, the turns come late enough for due jobs and error texts have no NUL
      byte, the queue drains ([queue_drains]: any workers, one turn after the other in any
      order; that overlapping calls do no harm is the part of System). The detail of an event is what the worker recorded,
      through JSON text and back ([outcome_detail_roundtrip]). The metrics get every lease
      attempt, outcome and retry under the labels of what happened ([worker_counts]).
    - Transfers: local sends are atomic, with a new temporary file beside the destination, FTP connections are released once on every
      path, copies deliver the whole stream or report an error, FTP addresses survive
      the URL ([ftp_address_roundtrip]); end to end a job reported as succeeded has its
      bytes at the destination, locally ([localfs_end_to_end]) and over FTP
      ([ftp_end_to_end]).
    - Queue maintenance: enqueueing is atomic and idempotent, sweeps and retention
      cycles are atomic and touch exactly the expired rows, their loops survive failures.
    - Sniffer: for the keys that survive as the text of a watermark ([key_ok_exact]: any
      BIGINT, any non-empty TEXT), from a fresh source whose writers keep the contract of
      the bias, no row is lost under any failures, and polls drain the source; the batch insert is the row-by-row insert, the text of the SELECT means the query of the model
      ([fetch_sql_means]), trace ids identify rows, the process keeps polling; polls and
      then turns of workers settle every waiting source row that can be rendered, when
      nothing fails ([pipeline_settles]).
    - Concurrency: the limit of the FTP pool holds in every state; at most Cap sessions
      the server knows are inside a transfer to a host, and the wrapper transfers only
      inside ([hostcap_exact]); no wake-up is lost in the pool and in the idle backoff; the calls of the pool are
      runs of its step relation ([Acquire_is_steps]), and a job over FTP gives back the
      slots it took whatever the other goroutines do ([ftp_job_gives_back]).
    - Commands: [imgsync enqueue] can be repeated ([enqueue_main_repeatable]);
      concurrent migrations commit every version at most once, lost replies included, over
      directories whose .up.sql files record themselves ([migrations_run_once]).
    - Bounds: the retry delay, the idle schedule, error details, configuration.
    - Tests: a wait of the end-to-end tests that ends well leaves every job it waited for
      succeeded ([acceptance_sound]); their other waits come to an end
      ([waitReplicasReady_ends], [bootstrap_ends]), the source files are there
      ([seedFixtures_spec]), and the command line of helm does not depend on the order of
      a Go map ([helm_args_deterministic]).
    Some theorems state where the code falls short: [Close_strands_waiter],
    [oversized_page_stalls], [retention_window_overflow], [livez_fails_busy_workers],
    [sanitizeErrMsg_leaks_at_password], [Send_panic_leaks], [same_host_jobs_deadlock],
    [hash_cuts_path], [gauge_stale], [stale_success_reported], [nul_error_never_settles],
    [uuid_source_stalls], [empty_key_hides_rows], [seeded_size_sticks],
    [dropped_session_frees_slot].

    ** Bounds and fuel

    Reading a stream and the loops of [io.Copy] recurse on a measure of the reader (the
    weight every read decreases); the delete loop of retention has the number of rows as
    fuel, and [RetentionSweep_spec] shows that this is enough; [acquireSlot] waits as
    long as the slots are taken, so it is given the number of rounds the environment
    lets it run, and so is [Acquire] of the FTP pool; a call that is still waiting then
    has no result. The loops that never end by themselves (worker, tickers, sniffer) run
    over a list of what their select sees. The reader of JSON texts has twice the length
    of the text as fuel, and [jsonb_in_fuel] shows that more changes nothing; the reader
    of SELECT texts has three units per token, more than its grammar nests. The polling
    loops of the end-to-end helpers have fuel for one turn per interval of their budget,
    which is shown to be enough.

    Strings are byte strings. Event details, the arguments of an enqueue and the
    values of a sniffer batch are checked against what their columns take: UTF-8 without
    NUL, JSON, INT. Worker names and the ids of watermarks are assumed to be valid text, and
    so are the labels of the metrics (the Prometheus library panics on others). The
    payload column keeps the text it was given; JSON numbers are kept as text, so their
    overflow is not modelled. Names in a SELECT are plain lower-case identifiers
    ([plain_query]); the reader of a SELECT knows the keywords in capitals, as the code
    writes them, and no reserved words. [os.CreateTemp] makes its ten thousand attempts.

    ** Parameters

    Not defined here but passed as arguments: PostgreSQL's [hashtext], the FTP client
    library and the servers behind it, the quoting of %q in two error texts, the
    execution of a migration file, pgx pool construction, the text of a time in the zone
    of the process (/healthz), text/template ([TemplateEngine]; SnifferSamples has an
    engine for field references). The laws the theorems need of them are hypotheses or
    class fields, and each has an instance in a witness.

    ** Not modelled

    Log output, the listeners of the HTTP servers, the exposition format of Prometheus,
    the flag parser (cobra), the FTP protocol of the client library and of the test
    server, and what git, helm, kubectl and the start script do when the end-to-end
    helpers run them (their answers are scripted). Keys of other types than BIGINT, TEXT
    and UUID, and keys of several columns, are not modelled: the query takes one column.
    What is left of the Go code is declarations (structs of handles, aliases, accessors
    for tests) and the construction of cobra commands. *)

From Stdlib Require Export ZArith Lia.
From stdpp Require Export gmap strings list.

#[global] Set Default Goal Selector "!".

(** ** Results of Go calls *)

(** A call either returns a value or panics with the printed panic value. *)
Inductive res (A : Type) : Type :=
| Ret (a : A)
| Panic (v : string).
Arguments Ret {A} _.
Arguments Panic {A} _.

(** Stateful Go code over a world [W]: the world survives a panic. *)
Definition M (W A : Type) : Type := W → res A * W.

#[export] Instance M_ret (W : Type) : MRet (M W) := λ A (a : A) w, (Ret a, w).

#[export] Instance M_bind (W : Type) : MBind (M W) := λ A B (f : A → M W B) (m : M W A) w,
  match m w with
  | (Ret a, w') => f a w'
  | (Panic v, w') => (Panic v, w')
  end.

(** A primitive action written as a function on the world. *)
Definition action {W A} (f : W → res A * W) : M W A := f.

Definition get {W} : M W W := λ w, (Ret w, w).
Definition put {W} (w : W) : M W unit := λ _, (Ret tt, w).
Definition panic {W A} (v : string) : M W A := λ w, (Panic v, w).

(** [defer fin m]: run [m], then [fin] whether [m] returned or panicked; a panic
    of [fin] replaces the outcome of [m]. *)
Definition defer {W A} (fin : M W unit) (m : M W A) : M W A := λ w,
  let '(r, w1) := m w in
  match fin w1 with
  | (Ret _, w2) => (r, w2)
  | (Panic v, w2) => (Panic v, w2)
  end.

(** [recover h m]: run [m]; when it panics continue with the handler. *)
Definition recover {W A} (h : string → M W A) (m : M W A) : M W A := λ w,
  match m w with
  | (Ret a, w') => (Ret a, w')
  | (Panic v, w') => h v w'
  end.

(** ** Lenses: where a component keeps its state inside a bigger world *)

Class Lens (W S : Type) := {
  view : W → S;
  over : S → W → W;
  view_over : ∀ s w, view (over s w) = s;
  over_view : ∀ w, over (view w) w = w;
  over_over : ∀ s s' w, over s (over s' w) = over s w;
}.

#[export] Instance lens_id (S : Type) : Lens S S := {|
  view := λ w, w; over := λ s _, s;
  view_over := λ s w, eq_refl; over_view := λ w, eq_refl; over_over := λ s s' w, eq_refl
|}.

(** Run an action of the component state inside the bigger world. *)
Definition zoom {W S A} `{Lens W S} (m : M S A) : M W A := λ w,
  let '(r, s) := m (view w) in (r, over s w).

(** ** Automation *)

Create HintDb imgsync discriminated.

(** Split conjunctions, existentials and pairs of the context. *)
Ltac split_hyps :=
  repeat match goal with
  | H : _ ∧ _ |- _ => destruct H
  | H : ∃ _, _ |- _ => destruct H
  | H : (_, _) = (_, _) |- _ => injection H; clear H; intros; subst
  | H : Ret _ = Ret _ |- _ => injection H; clear H; intros; subst
  | H : Some _ = Some _ |- _ => injection H; clear H; intros; subst
  end.

(** Case analysis on every [match] and [if] the goal is stuck on. *)
Ltac crush_match :=
  repeat (case_match; simplify_eq/=; try done).

(** Turn boolean tests of the code into propositions. *)
Ltac to_prop :=
  repeat match goal with
  | H : _ && _ = true |- _ => apply andb_true_iff in H as [? ?]
  | H : _ && _ = false |- _ => apply andb_false_iff in H
  | H : _ || _ = true |- _ => apply orb_true_iff in H
  | H : _ || _ = false |- _ => apply orb_false_iff in H as [? ?]
  | H : negb _ = true |- _ => apply negb_true_iff in H
  | H : negb _ = false |- _ => apply negb_false_iff in H
  | H : bool_decide _ = true |- _ => apply bool_decide_eq_true in H
  | H : bool_decide _ = false |- _ => apply bool_decide_eq_false in H
  | H : (_ <=? _)%Z = true |- _ => apply Z.leb_le in H
  | H : (_ <=? _)%Z = false |- _ => apply Z.leb_gt in H
  | H : (_ <? _)%Z = true |- _ => apply Z.ltb_lt in H
  | H : (_ <? _)%Z = false |- _ => apply Z.ltb_ge in H
  | H : (_ =? _)%Z = true |- _ => apply Z.eqb_eq in H
  | H : (_ =? _)%Z = false |- _ => apply Z.eqb_neq in H
  end.

(** ** Monad laws the proofs rewrite with *)

Lemma bind_ret {W A B} (a : A) (f : A → M W B) w : (mret a ≫= f) w = f a w.
Proof. done. Qed.

Lemma bind_run {W A B} (m : M W A) (f : A → M W B) w r w' :
  m w = (r, w') →
  (m ≫= f) w = match r with Ret a => f a w' | Panic v => (Panic v, w') end.
Proof. intros H. unfold mbind, M_bind. by rewrite H. Qed.

(** Run the first action of the goal's sequence, given what it does. *)
Ltac run_bind E := rewrite (bind_run _ _ _ _ _ E); simpl.

(** Every way a run in the context may have gone. *)
Ltac run_cases :=
  unfold mret, M_ret, mbind, M_bind in *; repeat (case_match; simplify_eq/=).

Lemma zoom_run {W S A} `{Lens W S} (m : M S A) w r s :
  m (view w) = (r, s) → zoom m w = (r, over s w).
Proof. intros E. unfold zoom. by rewrite E. Qed.

(** ** Generic lemmas on lists and counting *)

(** Number of elements of a list that satisfy a boolean test. *)
Fixpoint countb {A} (p : A → bool) (l : list A) : nat :=
  match l with
  | [] => 0
  | x :: l' => (if p x then 1 else 0) + countb p l'
  end.

Lemma countb_app {A} (p : A → bool) (l1 l2 : list A) :
  countb p (l1 ++ l2) = countb p l1 + countb p l2.
Proof. induction l1 as [|x l1 IH]; simpl; lia. Qed.

Lemma countb_fmap {A B} (p : B → bool) (f : A → B) (l : list A) :
  countb p (f <$> l) = countb (λ x, p (f x)) l.
Proof. induction l as [|x l IH]; [done|]. cbn. by rewrite <- IH. Qed.

Lemma countb_zero {A} (p : A → bool) (l : list A) :
  (∀ x, x ∈ l → p x = false) → countb p l = 0.
Proof.
  induction l as [|x l IH]; intros H; simpl; [done|].
  rewrite (H x), IH; [done| |left].
  intros y Hy. apply H. by right.
Qed.

Lemma countb_ext {A} (p q : A → bool) (l : list A) :
  (∀ x, x ∈ l → p x = q x) → countb p l = countb q l.
Proof.
  induction l as [|x l IH]; intros H; simpl; [done|].
  rewrite (H x), IH; [done| |left].
  intros y Hy. apply H. by right.
Qed.

Lemma countb_filter {A} (p q : A → bool) (l : list A) :
  (∀ x, p x = true → q x = true) →
  countb p (List.filter q l) = countb p l.
Proof.
  intros H. induction l as [|x l IH]; simpl; [done|].
  destruct (q x) eqn:Eq; simpl; rewrite IH; [done|].
  destruct (p x) eqn:Ep; [|done]. apply H in Ep. congruence.
Qed.

Lemma countb_NoDup (l : list Z) i :
  NoDup l → i ∈ l → countb (λ j, bool_decide (j = i)) l = 1.
Proof.
  induction l as [|j l IH]; intros Hd Hin; [by apply not_elem_of_nil in Hin|].
  apply NoDup_cons in Hd as [Hn Hd]. simpl. apply elem_of_cons in Hin as [->|Hin].
  - rewrite bool_decide_true by done. rewrite countb_zero; [done|].
    intros k Hk. apply bool_decide_false. by intros ->.
  - rewrite bool_decide_false by (by intros ->). by rewrite IH.
Qed.

Lemma length_filter_perm {A} (p : A → bool) (l1 l2 : list A) :
  l1 ≡ₚ l2 → length (List.filter p l1) = length (List.filter p l2).
Proof.
  induction 1 as [|x l1 l2 _ IH|x y l|l1 l2 l3 _ IH1 _ IH2]; simpl; [done|..|congruence].
  - destruct (p x); simpl; congruence.
  - by destruct (p x), (p y).
Qed.

Lemma filter_ext_in_list {A} (P Q : A → Prop) `{∀ x, Decision (P x)} `{∀ x, Decision (Q x)}
    (l : list A) :
  (∀ x, x ∈ l → P x ↔ Q x) → filter P l = filter Q l.
Proof.
  induction l as [|x l IH]; intros Hl; [done|]. rewrite !filter_cons.
  rewrite IH by (intros y Hy; apply Hl; by right).
  assert (P x ↔ Q x) as Hx by (apply Hl; left). repeat case_decide; tauto.
Qed.
