(* ===== verification/GoLang.v ===== *)
(** * The parts of Go the program uses

    Machine integers and durations, the functions of [strings] and [strconv] the
    code calls, and Go error values with [errors.Is] and [errors.As]. Strings are
    byte strings, as in Go. *)

From stdpp Require Export pretty.
From S2P Require Import Prelude.

(** ** Integers and durations *)

(** Two's complement wrap-around of [int64] (Go's [int] is 64 bits wide here),
    and the unsigned 32-bit ring. *)
Definition int64_wrap (z : Z) : Z := ((z + 2 ^ 63) mod 2 ^ 64 - 2 ^ 63)%Z.
Definition uint32_wrap (z : Z) : Z := (z mod 2 ^ 32)%Z.

(** The range of PostgreSQL's INT and of Go's [int32]. *)
Definition in_int32 (z : Z) : bool := ((- 2 ^ 31 <=? z) && (z <? 2 ^ 31))%Z.
Definition in_int64 (z : Z) : bool := ((- 2 ^ 63 <=? z) && (z <? 2 ^ 63))%Z.

(** [time.Duration] is an [int64] number of nanoseconds. *)
Definition Microsecond : Z := 1000%Z.
Definition Millisecond : Z := 1000000%Z.
Definition Second : Z := 1000000000%Z.
Definition Minute : Z := (60 * Second)%Z.
Definition Hour : Z := (60 * Minute)%Z.

(** [d.Milliseconds()] truncates toward zero. *)
Definition milliseconds (d : Z) : Z := Z.quot d Millisecond.

(** ** strings and strconv *)

(** [strconv.Itoa] and the [%d] verb. *)
Definition itoa (z : Z) : string := pretty z.

(** [strings.HasPrefix] and [strings.TrimPrefix]. *)
Fixpoint strip_prefix (p s : string) : option string :=
  match p, s with
  | EmptyString, _ => Some s
  | String a p', String b s' => if decide (a = b) then strip_prefix p' s' else None
  | String _ _, EmptyString => None
  end.

Definition has_prefix (s p : string) : bool :=
  match strip_prefix p s with Some _ => true | None => false end.

Definition trim_prefix (s p : string) : string :=
  match strip_prefix p s with Some s' => s' | None => s end.

(** [strings.HasSuffix] and [strings.TrimSuffix]. *)
Fixpoint strip_suffix (suf s : string) : option string :=
  if decide (s = suf) then Some EmptyString else
  match s with
  | EmptyString => None
  | String a s' => String a <$> strip_suffix suf s'
  end.

Definition has_suffix (s suf : string) : bool :=
  match strip_suffix suf s with Some _ => true | None => false end.

Definition trim_suffix (s suf : string) : string :=
  match strip_suffix suf s with Some s' => s' | None => s end.

(** [strings.Contains]. *)
Fixpoint contains (s sub : string) : bool :=
  has_prefix s sub ||
  match s with
  | EmptyString => false
  | String _ s' => contains s' sub
  end.

(** [strings.ToLower] on the ASCII letters. *)
Definition lower_ascii (a : Ascii.ascii) : Ascii.ascii :=
  let n := Ascii.N_of_ascii a in
  if (65 <=? n)%N && (n <=? 90)%N then Ascii.ascii_of_N (n + 32) else a.

Fixpoint to_lower (s : string) : string :=
  match s with
  | EmptyString => EmptyString
  | String a s' => String (lower_ascii a) (to_lower s')
  end.

(** [s[:n]]: the first [n] bytes. *)
Fixpoint take_bytes (n : nat) (s : string) : string :=
  match n, s with
  | S n', String a s' => String a (take_bytes n' s')
  | _, _ => EmptyString
  end.

(** ** Errors *)

(** The error variables compared by identity: those of the repository
    (transfer, worker, ftp pool) and those of the libraries it tests for. *)
Inductive sentinel : Set :=
| ErrSkippable
| ErrPermanent
| ErrUnknownProtocol
| ErrPoolClosed
| ErrNoRows
| OsErrNotExist
| IoEOF
| ContextCanceled
| ContextDeadlineExceeded.

#[export] Instance sentinel_eq_dec : EqDecision sentinel.
Proof. solve_decision. Defined.

(** An error value: a sentinel, a [textproto.Error] (an FTP reply), an opaque
    error that wraps nothing, or the value [fmt.Errorf] builds around the operands
    of its [%w] verbs. [ewrap_msg] is the rendered message. *)
Inductive error : Type :=
| ESentinel (s : sentinel)
| EProto (code : Z) (msg : string)
| EOpaque (msg : string)
| EWrap (msg : string) (wrapped : list error).

Definition sentinel_text (s : sentinel) : string :=
  match s with
  | ErrSkippable => "skippable: job intentionally not transferred, audit only"
  | ErrPermanent => "permanent: do not retry, mark dead"
  | ErrUnknownProtocol => "unknown protocol"
  | ErrPoolClosed => "ftp pool: closed"
  | ErrNoRows => "no rows in result set"
  | OsErrNotExist => "file does not exist"
  | IoEOF => "EOF"
  | ContextCanceled => "context canceled"
  | ContextDeadlineExceeded => "context deadline exceeded"
  end.

(** [err.Error()]. *)
Definition error_text (e : error) : string :=
  match e with
  | ESentinel s => sentinel_text s
  | EProto code msg => itoa code +:+ " " +:+ msg
  | EOpaque msg => msg
  | EWrap msg _ => msg
  end.

(** [errors.Is] against a sentinel: depth-first over the wrapped errors. *)
Fixpoint errors_is (e : error) (target : sentinel) : bool :=
  match e with
  | ESentinel s => bool_decide (s = target)
  | EProto _ _ | EOpaque _ => false
  | EWrap _ es => existsb (λ e', errors_is e' target) es
  end.

(** [errors.As] into a [*textproto.Error]: the first one of the depth-first walk. *)
Fixpoint errors_as_proto (e : error) : option (Z * string) :=
  match e with
  | EProto code msg => Some (code, msg)
  | ESentinel _ | EOpaque _ => None
  | EWrap _ es =>
      (fix first (es : list error) : option (Z * string) :=
         match es with
         | [] => None
         | e' :: es' =>
             match errors_as_proto e' with
             | Some r => Some r
             | None => first es'
             end
         end) es
  end.

(** [fmt.Errorf("<prefix>%w", e)]. *)
Definition wrapf (prefix : string) (e : error) : error :=
  EWrap (prefix +:+ error_text e) [e].

(** [fmt.Errorf("<prefix>%w: %w", e1, e2)]. *)
Definition wrapf2 (prefix : string) (e1 e2 : error) : error :=
  EWrap (prefix +:+ error_text e1 +:+ ": " +:+ error_text e2) [e1; e2].

(** ** Lemmas *)

Lemma errors_is_wrapf prefix e t : errors_is (wrapf prefix e) t = errors_is e t.
Proof. simpl. by rewrite orb_false_r. Qed.

Lemma errors_is_wrapf2 prefix e1 e2 t :
  errors_is (wrapf2 prefix e1 e2) t = errors_is e1 t || errors_is e2 t.
Proof. simpl. by rewrite orb_false_r. Qed.

Create Rewrite HintDb imgsync_rw.
#[export] Hint Rewrite errors_is_wrapf errors_is_wrapf2 : imgsync_rw.

Lemma strip_prefix_app p s : strip_prefix p (p +:+ s) = Some s.
Proof. induction p as [|a p IH]; simpl; [done|]. by rewrite decide_True. Qed.

Lemma strip_prefix_Some p s s' : strip_prefix p s = Some s' → s = p +:+ s'.
Proof.
  revert s. induction p as [|a p IH]; intros [|b s]; simpl; intros H; simplify_eq; [done..|].
  case_decide; simplify_eq. by rewrite (IH _ H).
Qed.

Lemma trim_prefix_app p s : trim_prefix (p +:+ s) p = s.
Proof. unfold trim_prefix. by rewrite strip_prefix_app. Qed.

Lemma strip_suffix_Some suf s s' : strip_suffix suf s = Some s' → s = s' +:+ suf.
Proof.
  revert s'. induction s as [|a s IH]; intros s'; simpl; case_decide; intros Hs; simplify_eq/=; try done.
  apply fmap_Some in Hs as (t & Ht & ->). simpl. by rewrite (IH _ Ht).
Qed.

Lemma string_app_nil_r s : s +:+ EmptyString = s.
Proof. induction s as [|a s IH]; [done|]. by apply (f_equal (String a)). Qed.

Lemma string_app_assoc s1 s2 s3 : s1 +:+ (s2 +:+ s3) = (s1 +:+ s2) +:+ s3.
Proof. induction s1 as [|a s1 IH]; [done|]. by apply (f_equal (String a)). Qed.

Lemma string_length_app s1 s2 :
  String.length (s1 +:+ s2) = String.length s1 + String.length s2.
Proof. induction s1 as [|a s1 IH]; [done|]. by apply (f_equal S). Qed.

(** Cutting a suffix off the string it was appended to gives the stem back. *)
Lemma strip_suffix_app suf s : strip_suffix suf (s +:+ suf) = Some s.
Proof.
  induction s as [|a s IH].
  - destruct suf; simpl; [done|by rewrite decide_True].
  - change (String a s +:+ suf) with (String a (s +:+ suf)). simpl.
    rewrite decide_False.
    + by rewrite IH.
    + intros H. apply (f_equal String.length) in H. simpl in H.
      rewrite string_length_app in H. lia.
Qed.

Lemma trim_suffix_app suf s : trim_suffix (s +:+ suf) suf = s.
Proof. unfold trim_suffix. by rewrite strip_suffix_app. Qed.

Lemma take_bytes_length n s : String.length (take_bytes n s) = Nat.min n (String.length s).
Proof. revert s. induction n as [|n IH]; intros [|a s]; simpl; [done..|]. by rewrite IH. Qed.
