(* ===== verification/GoFloat.v ===== *)
(** * float64 arithmetic

    The jitter computations use [float64]. A value is kept exactly, as an integer
    number of units of 2^-200; every operation computes the exact rational result
    and rounds it to 53 significant bits, to nearest with ties to even, as IEEE 754
    binary64 does. The code's values are zero or of magnitude between 2^-60 and
    2^70, far from the underflow and overflow of binary64. *)

From S2P Require Import Prelude GoLang.

Local Open Scope Z_scope.

Definition f_unit : Z := 2 ^ 200.

(** Nearest integer to [n / d], ties to even ([0 <= n], [0 < d]). *)
Definition rne (n d : Z) : Z :=
  let q := n / d in
  let r := n mod d in
  if 2 * r <? d then q
  else if d <? 2 * r then q + 1
  else if Z.even q then q else q + 1.

(** Number of low bits of [q] below its 53 leading ones. *)
Definition excess_bits (q : Z) : Z := Z.max 0 (Z.log2 q - 52).

(** [n / d] rounded to 53 significant bits. *)
Definition rnd (n d : Z) : Z :=
  let a := Z.abs n in
  let s := excess_bits (a / d) in
  Z.sgn n * (rne a (d * 2 ^ s) * 2 ^ s).

Definition f_of_int (z : Z) : Z := rnd (z * f_unit) 1.
Definition f_add (x y : Z) : Z := rnd (x + y) 1.
Definition f_sub (x y : Z) : Z := rnd (x - y) 1.
Definition f_mul (x y : Z) : Z := rnd (x * y) f_unit.
Definition f_div (x y : Z) : Z := rnd (x * f_unit * Z.sgn y) (Z.abs y).

(** Conversion to an integer type truncates toward zero. *)
Definition f_trunc (x : Z) : Z := Z.quot x f_unit.

(** [int(d.Seconds())], with [func (d Duration) Seconds]: whole seconds and a fraction in
    float64, truncated. *)
Definition whole_seconds (d : Z) : Z :=
  let sec := Z.quot d Second in
  let nsec := Z.rem d Second in
  f_trunc (f_add (f_of_int sec) (f_div (f_of_int nsec) (f_of_int Second))).

(** The constants 0.5 and 0.25. *)
Definition f_half : Z := 2 ^ 199.
Definition f_quarter : Z := 2 ^ 198.

(** [rand.Float64()]: a 53-bit draw divided by 2^53. *)
Definition rand_float64 (k : Z) : Z := k * 2 ^ 147.

(** [B] units fit in 53 significant bits. *)
Definition representable (B : Z) : Prop := (2 ^ excess_bits (Z.abs B) | B).

(** ** Rounding respects representable bounds *)

Lemma rne_le n d c : 0 < d → n <= c * d → rne n d <= c.
Proof.
  intros Hd Hn. unfold rne.
  pose proof (Z.div_mod n d ltac:(lia)). pose proof (Z.mod_pos_bound n d Hd).
  assert (n / d <= c) by (apply Z.div_le_upper_bound; lia).
  destruct (Z.eq_dec (n / d) c) as [He|]; [|repeat case_match; lia].
  assert (n mod d = 0) as Hz by nia. rewrite Hz.
  by rewrite (proj2 (Z.ltb_lt _ _)) by lia.
Qed.

Lemma rne_ge n d c : 0 < d → c * d <= n → c <= rne n d.
Proof.
  intros Hd Hn. unfold rne.
  assert (c <= n / d) by (apply Z.div_le_lower_bound; lia).
  repeat case_match; lia.
Qed.

Lemma excess_bits_nonneg q : 0 <= excess_bits q.
Proof. unfold excess_bits. lia. Qed.

Lemma excess_bits_mono q B : q <= B → excess_bits q <= excess_bits B.
Proof. intros H. unfold excess_bits. pose proof (Z.log2_le_mono q B H). lia. Qed.

Lemma rnd_nonneg_eq n d : 0 <= n → 0 < d →
  rnd n d = rne n (d * 2 ^ excess_bits (n / d)) * 2 ^ excess_bits (n / d).
Proof.
  intros Hn Hd. unfold rnd. rewrite (Z.abs_eq n) by done.
  destruct (Z.eq_dec n 0) as [->|]; [|rewrite Z.sgn_pos by lia; lia].
  rewrite Z.div_0_l by lia. change (excess_bits 0) with 0. unfold rne.
  rewrite Z.div_0_l, Z.mod_0_l by lia. by rewrite (proj2 (Z.ltb_lt _ _)) by lia.
Qed.

Lemma rnd_opp n d : rnd (- n) d = - rnd n d.
Proof. unfold rnd. rewrite Z.abs_opp, Z.sgn_opp. lia. Qed.

Lemma rnd_le n d B : 0 <= n → 0 < d → representable B → n <= B * d → rnd n d <= B.
Proof.
  intros Hn Hd HB Hle. rewrite rnd_nonneg_eq by done.
  assert (0 <= B) by nia.
  set (s := excess_bits (n / d)). pose proof (excess_bits_nonneg (n / d)) as Hs. fold s in Hs.
  assert (n / d <= B) as Hq by (apply Z.div_le_upper_bound; lia).
  apply excess_bits_mono in Hq. fold s in Hq.
  unfold representable in HB. rewrite Z.abs_eq in HB by done.
  assert (2 ^ s | B) as [c Hc].
  { etransitivity; [|exact HB]. exists (2 ^ (excess_bits B - s)).
    rewrite <- Z.pow_add_r by lia. f_equal; lia. }
  pose proof (Z.pow_pos_nonneg 2 s ltac:(lia) Hs).
  rewrite Hc in *. apply Z.mul_le_mono_nonneg_r; [lia|].
  apply rne_le; [nia|]. nia.
Qed.

(** A result with more excess bits than the lower bound [B] exceeds [B] outright. *)
Lemma rnd_ge n d B : 0 <= B → 0 < d → representable B → B * d <= n → B <= rnd n d.
Proof.
  intros HB0 Hd HB Hle. assert (0 <= n) by nia. rewrite rnd_nonneg_eq by done.
  set (s := excess_bits (n / d)). pose proof (excess_bits_nonneg (n / d)) as Hs. fold s in Hs.
  pose proof (Z.pow_pos_nonneg 2 s ltac:(lia) Hs) as Hp.
  assert (B <= n / d) as Hq by (apply Z.div_le_lower_bound; lia).
  pose proof (excess_bits_mono _ _ Hq) as Hm. fold s in Hm.
  unfold representable in HB. rewrite Z.abs_eq in HB by done.
  destruct (Z.eq_dec s (excess_bits B)) as [He|Hne].
  - rewrite <- He in HB. destruct HB as [c Hc]. rewrite Hc in *.
    apply Z.mul_le_mono_nonneg_r; [lia|]. apply rne_ge; nia.
  - assert (0 < s) as Hspos by (pose proof (excess_bits_nonneg B); lia).
    assert (Z.log2 (n / d) = 52 + s) as Hl by (unfold s, excess_bits in *; lia).
    assert (0 < n / d) as Hqp.
    { destruct (Z.lt_trichotomy (n / d) 0) as [|[E|]]; [|rewrite E in Hl; simpl in Hl; lia|done].
      pose proof (Z.div_pos n d ltac:(lia) Hd). lia. }
    pose proof (Z.log2_spec _ Hqp) as [Hlo _]. rewrite Hl in Hlo.
    assert (2 ^ 52 <= rne n (d * 2 ^ s)) as Hr.
    { apply rne_ge; [nia|]. rewrite Z.pow_add_r in Hlo by lia.
      pose proof (Z.mul_div_le n d Hd). nia. }
    assert (B < 2 ^ (52 + s)) as HBlt.
    { destruct (Z.eq_dec B 0) as [->|]; [apply Z.pow_pos_nonneg; lia|].
      apply Z.log2_lt_pow2; [lia|]. unfold excess_bits in *. lia. }
    rewrite Z.pow_add_r in HBlt by lia. nia.
Qed.

Lemma rnd_abs_le n d B :
  0 < d → representable B → Z.abs n <= B * d → - B <= rnd n d <= B.
Proof.
  intros Hd HB Hn. destruct (Z.le_ge_cases 0 n).
  - rewrite Z.abs_eq in Hn by done.
    pose proof (rnd_le n d B ltac:(done) Hd HB Hn).
    enough (0 <= rnd n d) by lia. apply rnd_ge; [done..| |lia].
    unfold representable. apply Z.divide_0_r.
  - rewrite Z.abs_neq in Hn by done.
    rewrite <- (Z.opp_involutive n), rnd_opp.
    pose proof (rnd_le (- n) d B ltac:(lia) Hd HB Hn).
    enough (0 <= rnd (- n) d) by lia. apply rnd_ge; [done..| |lia].
    unfold representable. apply Z.divide_0_r.
Qed.

(** An integer of at most 53 bits, shifted, is representable. *)
Lemma representable_shift c k : 0 <= c < 2 ^ 53 → 0 <= k → representable (c * 2 ^ k).
Proof.
  intros Hc Hk. unfold representable.
  destruct (Z.eq_dec c 0) as [->|]; [simpl; apply Z.divide_0_r|].
  pose proof (Z.pow_pos_nonneg 2 k ltac:(lia) Hk).
  rewrite Z.abs_eq by nia. unfold excess_bits.
  rewrite Z.log2_mul_pow2 by lia.
  assert (Z.log2 c < 53) by (apply Z.log2_lt_pow2; lia).
  apply Z.divide_mul_r. exists (2 ^ (k - Z.max 0 (k + Z.log2 c - 52))).
  rewrite <- Z.pow_add_r by lia. f_equal. lia.
Qed.

(** Representable results are exact. *)
Lemma rnd_exact B : representable B → rnd B 1 = B.
Proof.
  intros HB. destruct (Z.le_ge_cases 0 B).
  - apply Z.le_antisymm; [apply rnd_le|apply rnd_ge]; (done || lia).
  - assert (representable (- B)) as HB'.
    { unfold representable in *. rewrite Z.abs_opp. by apply Z.divide_opp_r. }
    rewrite <- (Z.opp_involutive B) at 1. rewrite rnd_opp.
    enough (rnd (- B) 1 = - B) by lia.
    apply Z.le_antisymm; [apply rnd_le|apply rnd_ge]; (done || lia).
Qed.

(** ** Bounds shared by the jitter computations *)

Lemma f_of_int_exact d : 0 <= d < 2 ^ 53 → f_of_int d = d * f_unit.
Proof. intros Hd. apply rnd_exact, (representable_shift d 200); lia. Qed.

(** A number of seconds is read back; above some months a duration with a fraction next to
    the following second may be read as that second. *)
Lemma whole_seconds_exact n : 0 <= n < 2 ^ 53 → whole_seconds (n * Second) = n.
Proof.
  intros Hn. unfold whole_seconds. rewrite Z.quot_mul, Z.rem_mul by (unfold Second; lia).
  rewrite f_of_int_exact by done. change (f_div (f_of_int 0) (f_of_int Second)) with 0.
  unfold f_add. rewrite Z.add_0_r, rnd_exact by (apply (representable_shift n 200); lia).
  unfold f_trunc. apply Z.quot_mul. unfold f_unit. lia.
Qed.

Example whole_seconds_fraction :
  whole_seconds 1999999999 = 1 ∧ whole_seconds (-1500000000) = -1 ∧
  whole_seconds (2 ^ 24 * Second + 999999999) = 2 ^ 24 + 1.
Proof. vm_compute. split_and!; reflexivity. Qed.

#[global] Opaque whole_seconds.

(** A draw minus one half. *)
Lemma centred_draw k : 0 <= k < 2 ^ 53 → - f_half <= f_sub (rand_float64 k) f_half <= f_half.
Proof.
  intros Hk. apply rnd_abs_le; [lia|apply (representable_shift 1 199); lia|].
  unfold rand_float64, f_half. lia.
Qed.

(** Truncating at most a quarter of [d]. *)
Lemma f_trunc_quarter d y :
  0 <= d → - (d * f_quarter) <= y <= d * f_quarter → - (d / 4) <= f_trunc y <= d / 4.
Proof.
  intros Hd Hy. assert (0 < f_unit) as Hu by (unfold f_unit; lia).
  assert (Z.abs (Z.quot y f_unit) <= d / 4) as Ha; [|unfold f_trunc; lia].
  rewrite <- Z.quot_abs by lia. rewrite (Z.abs_eq f_unit), Z.quot_div_nonneg by lia.
  apply Z.div_le_lower_bound; [lia|].
  pose proof (Z.mul_div_le (Z.abs y) f_unit Hu).
  assert (4 * Z.abs y <= d * f_unit) by (unfold f_quarter, f_unit in *; lia). nia.
Qed.

(** Adding at most a quarter of [d] to [d] does not leave int64. *)
Lemma quarter_offset d o :
  0 < d < 2 ^ 53 → - (d / 4) <= o <= d / 4 → int64_wrap (d + o) = d + o.
Proof.
  intros Hd Ho. assert (d / 4 <= d) by (apply Z.div_le_upper_bound; lia).
  unfold int64_wrap. rewrite Z.mod_small by lia. lia.
Qed.
