(* ===== verification/GoText.v ===== *)
(** * Numbers as text: strconv.Itoa and strconv.Atoi

    What the code relies on: the printed form of a number is made of digits, and
    parsing it gives the number back. *)

From Stdlib Require Import Ascii.
From S2P Require Import Prelude GoLang ErrDetail.

Local Open Scope Z_scope.

Definition is_digit (a : Ascii.ascii) : bool := in_range 48 57 a.

Definition digit_val (a : Ascii.ascii) : Z := Z.of_N (N_of_ascii a) - 48.

(** The value of a string of digits, after [acc]. *)
Fixpoint digits_val (s : string) (acc : Z) : option Z :=
  match s with
  | EmptyString => Some acc
  | String a s' => if is_digit a then digits_val s' (acc * 10 + digit_val a) else None
  end.

(** [strconv.Atoi] (base 10, optional sign, the range of int64). *)
Definition atoi (s : string) : option Z :=
  let unsigned t := match t with EmptyString => None | _ => digits_val t 0 end in
  let v := match s with
           | String a s' =>
               if bool_decide (a = "-"%char) then Z.opp <$> unsigned s'
               else if bool_decide (a = "+"%char) then unsigned s'
               else unsigned s
           | EmptyString => None
           end in
  match v with
  | Some z => if in_int64 z then Some z else None
  | None => None
  end.

(** The [%q] verb on printable ASCII: between double quotes, with the double quote
    and the backslash escaped. *)
Fixpoint escape (s : string) : string :=
  match s with
  | EmptyString => EmptyString
  | String a s' =>
      if bool_decide (a = "034"%char) || bool_decide (a = "\"%char)
      then String "\" (String a (escape s')) else String a (escape s')
  end.

Definition quote (s : string) : string :=
  String "034" (escape s +:+ String "034" EmptyString).

(** ** Digits *)

Lemma pretty_N_char_val x : (x < 10)%N →
  is_digit (pretty_N_char x) = true ∧ digit_val (pretty_N_char x) = Z.of_N x.
Proof.
  intros Hx. assert (x = 0 ∨ x = 1 ∨ x = 2 ∨ x = 3 ∨ x = 4 ∨ x = 5 ∨ x = 6 ∨ x = 7 ∨ x = 8 ∨ x = 9)%N
    as Hc by lia.
  destruct_or!; subst; by split.
Qed.

Lemma pretty_go_digits x s :
  all_chars is_digit s = true → all_chars is_digit (pretty.pretty_N_go x s) = true.
Proof.
  revert s. induction (N.lt_wf_0 x) as [x _ IH]; intros s Hs.
  assert (x = 0 ∨ 0 < x)%N as [->|Hx] by lia; [by rewrite pretty.pretty_N_go_0|].
  rewrite pretty.pretty_N_go_step by done. apply IH; [by apply N.div_lt|].
  simpl. rewrite (proj1 (pretty_N_char_val _ (N.mod_lt x 10 ltac:(lia)))). done.
Qed.

Lemma pretty_go_val x s :
  digits_val (pretty.pretty_N_go x s) 0 = digits_val s (Z.of_N x).
Proof.
  revert s. induction (N.lt_wf_0 x) as [x _ IH]; intros s.
  assert (x = 0 ∨ 0 < x)%N as [->|Hx] by lia; [by rewrite pretty.pretty_N_go_0|].
  rewrite pretty.pretty_N_go_step, IH by (done || by apply N.div_lt). simpl.
  destruct (pretty_N_char_val (x `mod` 10) (N.mod_lt x 10 ltac:(lia))) as [-> ->].
  f_equal. rewrite N2Z.inj_div, N2Z.inj_mod. simpl.
  pose proof (Z.div_mod (Z.of_N x) 10 ltac:(lia)). lia.
Qed.

Lemma pretty_go_nonempty x s : (0 < x)%N ∨ s ≠ EmptyString → pretty.pretty_N_go x s ≠ EmptyString.
Proof.
  revert s. induction (N.lt_wf_0 x) as [x _ IH]; intros s Hs.
  assert (x = 0 ∨ 0 < x)%N as [->|Hx] by lia.
  - rewrite pretty.pretty_N_go_0. by destruct Hs; [lia|].
  - rewrite pretty.pretty_N_go_step by done. apply IH; [by apply N.div_lt|by right].
Qed.

Lemma itoa_digits z : 0 <= z → all_chars is_digit (itoa z) = true.
Proof.
  intros Hz. unfold itoa, pretty, pretty.pretty_Z. destruct z as [|p|p]; [done| |lia].
  by apply pretty_go_digits.
Qed.

Lemma digit_not c a : is_digit c = false → is_digit a = true → not_char c a = true.
Proof. intros Hc Ha. unfold not_char. case_bool_decide; [|done]. subst. congruence. Qed.

(** ** Round trip *)

Lemma itoa_pos p : itoa (Z.pos p) = pretty.pretty_N_go (N.pos p) EmptyString.
Proof. done. Qed.

Lemma itoa_neg p : itoa (Z.neg p) = String "-" (pretty.pretty_N_go (N.pos p) EmptyString).
Proof. done. Qed.

Lemma itoa_nonempty z : itoa z ≠ EmptyString.
Proof. destruct z as [|p|p]; [done|rewrite itoa_pos; apply pretty_go_nonempty; by left|done]. Qed.

Lemma atoi_itoa z : in_int64 z = true → atoi (itoa z) = Some z.
Proof.
  intros Hz. destruct z as [|p|p]; [done|rewrite itoa_pos|rewrite itoa_neg];
    pose proof (pretty_go_digits (N.pos p) EmptyString eq_refl) as Hd;
    pose proof (pretty_go_val (N.pos p) EmptyString) as Hv; simpl in Hv;
    pose proof (pretty_go_nonempty (N.pos p) EmptyString ltac:(lia)) as Hn;
    destruct (pretty.pretty_N_go (N.pos p) EmptyString) as [|a t]; try done; unfold atoi.
  - assert (is_digit a = true) as Ha by (simpl in Hd; by to_prop).
    rewrite !bool_decide_false by (by intros ->). rewrite Hv. by rewrite Hz.
  - rewrite bool_decide_true by done. rewrite Hv.
    change (Z.opp <$> Some (Z.pos p)) with (Some (Z.neg p)). cbv beta iota. by rewrite Hz.
Qed.

(** ** The last occurrence of a byte splits a string *)

Lemma split_last c p1 p2 d1 d2 :
  all_chars (not_char c) d1 = true → all_chars (not_char c) d2 = true →
  p1 +:+ String c d1 = p2 +:+ String c d2 → p1 = p2 ∧ d1 = d2.
Proof.
  intros H1 H2. revert p2.
  assert (∀ p d x, all_chars (not_char c) d = true → p +:+ String c x = d → False) as Hno.
  { induction p as [|b p IH]; intros d x Hd E; subst d.
    - change (EmptyString +:+ ?x) with x in Hd. simpl in Hd. unfold not_char in Hd.
      by rewrite bool_decide_true in Hd.
    - change (String b p +:+ String c x) with (String b (p +:+ String c x)) in Hd.
      simpl in Hd. to_prop. by eapply IH. }
  induction p1 as [|a p1 IH]; intros [|b p2] E.
  - change (EmptyString +:+ ?x) with x in E. by injection E as ->.
  - change (EmptyString +:+ ?x) with x in E.
    change (String b p2 +:+ ?x) with (String b (p2 +:+ x)) in E. injection E as _ E.
    by destruct (Hno p2 d1 d2 H1).
  - change (EmptyString +:+ ?x) with x in E.
    change (String a p1 +:+ ?x) with (String a (p1 +:+ x)) in E. injection E as _ E.
    by destruct (Hno p1 d2 d1 H2).
  - change (String a p1 +:+ ?x) with (String a (p1 +:+ x)) in E.
    change (String b p2 +:+ ?x) with (String b (p2 +:+ x)) in E. injection E as -> E.
    by destruct (IH p2 E) as [-> ->].
Qed.
