(* ===== verification/GoUtf8.v ===== *)
(** * UTF-8 text (unicode/utf8)

    A Go string is a byte string that may or may not be UTF-8: ranging over it gives
    the runes, and a byte that starts no rune gives U+FFFD and is one byte wide.
    [runes] keeps the two apart, [clean] is the text a program that goes over the
    runes writes, [utf8_valid] the check a UTF-8 database makes. *)

From Stdlib Require Import Ascii.
From S2P Require Import Prelude GoLang ErrDetail.

Local Open Scope Z_scope.

(** ** Definitions *)

Definition byte_val (a : ascii) : Z := Z.of_N (N_of_ascii a).
Definition chr (z : Z) : ascii := ascii_of_N (Z.to_N z).

Definition between (lo hi x : Z) : bool := (lo <=? x) && (x <=? hi).

(** The scalar values of Unicode: every code point but the surrogates. *)
Definition scalar (r : Z) : bool := between 0 0xD7FF r || between 0xE000 0x10FFFF r.

(** A continuation byte. *)
Definition cont (x : Z) : bool := between 0x80 0xBF x.

(** The value of a lead byte with its continuation bytes. *)
Definition val2 (x y : Z) : Z := (x - 0xC0) * 64 + (y - 0x80).
Definition val3 (x y z : Z) : Z := ((x - 0xE0) * 64 + (y - 0x80)) * 64 + (z - 0x80).
Definition val4 (x y z u : Z) : Z := (((x - 0xF0) * 64 + (y - 0x80)) * 64 + (z - 0x80)) * 64 + (u - 0x80).

(** The sequences that are a rune: no longer than needed, no surrogate, nothing above
    U+10FFFF. *)
Definition is2 (x y : Z) : bool := between 0xC2 0xDF x && cont y.
Definition is3 (x y z : Z) : bool :=
  between 0xE0 0xEF x && cont y && cont z
  && (0x800 <=? val3 x y z) && scalar (val3 x y z).
Definition is4 (x y z u : Z) : bool :=
  between 0xF0 0xF4 x && cont y && cont z && cont u
  && (0x10000 <=? val4 x y z u) && scalar (val4 x y z u).

(** [for _, r := range s]: the runes, [None] for a byte that starts none. *)
Fixpoint runes (s : string) : list (option Z) :=
  match s with
  | EmptyString => []
  | String a s1 =>
      let x := byte_val a in
      if x <? 0x80 then Some x :: runes s1
      else match s1 with
      | EmptyString => [None]
      | String b s2 =>
          let y := byte_val b in
          if is2 x y then Some (val2 x y) :: runes s2
          else match s2 with
          | EmptyString => None :: runes s1
          | String c s3 =>
              let z := byte_val c in
              if is3 x y z then Some (val3 x y z) :: runes s3
              else match s3 with
              | EmptyString => None :: runes s1
              | String d s4 =>
                  let u := byte_val d in
                  if is4 x y z u then Some (val4 x y z u) :: runes s4
                  else None :: runes s1
              end
          end
      end
  end.

(** [utf8.AppendRune]. *)
Definition encode (r : Z) : string :=
  if r <? 0x80 then String (chr r) EmptyString
  else if r <? 0x800 then
    String (chr (0xC0 + r / 64)) (String (chr (0x80 + r mod 64)) EmptyString)
  else if r <? 0x10000 then
    String (chr (0xE0 + r / 4096)) (String (chr (0x80 + r / 64 mod 64))
      (String (chr (0x80 + r mod 64)) EmptyString))
  else
    String (chr (0xF0 + r / 262144)) (String (chr (0x80 + r / 4096 mod 64))
      (String (chr (0x80 + r / 64 mod 64)) (String (chr (0x80 + r mod 64)) EmptyString))).

(** The pieces of a text, one after the other. *)
Definition joins (l : list string) : string := foldr String.append EmptyString l.

(** The rune a position stands for: U+FFFD for a byte that starts none. *)
Definition rune_of (o : option Z) : Z := default 0xFFFD o.

(** The text of the runes of [s]. *)
Definition clean (s : string) : string := joins ((λ o, encode (rune_of o)) <$> runes s).

(** [utf8.ValidString]. *)
Definition utf8_valid (s : string) : bool := forallb (λ o, bool_decide (is_Some o)) (runes s).

(** No NUL byte. *)
Definition nul_free (s : string) : bool := all_chars (not_char "000") s.

Lemma joins_cons x l : joins (x :: l) = x +:+ joins l.
Proof. done. Qed.

(** ** Bytes *)

Lemma byte_val_range a : 0 <= byte_val a < 256.
Proof. unfold byte_val. pose proof (N_ascii_bounded a). lia. Qed.

Lemma chr_byte_val a : chr (byte_val a) = a.
Proof. unfold chr, byte_val. rewrite N2Z.id. apply ascii_N_embedding. Qed.

Lemma byte_val_chr z : 0 <= z < 256 → byte_val (chr z) = z.
Proof. intros Hz. unfold chr, byte_val. rewrite N_ascii_embedding; lia. Qed.

Lemma between_true lo hi x : between lo hi x = true ↔ lo <= x <= hi.
Proof. unfold between. rewrite andb_true_iff, !Z.leb_le. done. Qed.

Lemma between_false lo hi x : between lo hi x = false ↔ x < lo ∨ hi < x.
Proof. unfold between. rewrite andb_false_iff, !Z.leb_gt. done. Qed.

Lemma scalar_true r : scalar r = true ↔ 0 <= r <= 0xD7FF ∨ 0xE000 <= r <= 0x10FFFF.
Proof. unfold scalar. by rewrite orb_true_iff, !between_true. Qed.

(** A pure division fact. *)
Ltac div_lia := Z.to_euclidean_division_equations; lia.

Lemma encode_val2 a b :
  is2 (byte_val a) (byte_val b) = true →
  encode (val2 (byte_val a) (byte_val b)) = String a (String b EmptyString)
  ∧ 0x80 <= val2 (byte_val a) (byte_val b) <= 0x7FF.
Proof.
  unfold is2, cont, val2. rewrite andb_true_iff, !between_true. intros [Hx Hy].
  split; [|lia]. set (r := _ + _). assert (0x80 <= r < 0x800) as Hr by (unfold r; lia).
  unfold encode. rewrite (proj2 (Z.ltb_ge r 0x80)), (proj2 (Z.ltb_lt r 0x800)) by lia.
  rewrite <- (chr_byte_val a), <- (chr_byte_val b). do 3 f_equal; unfold r; div_lia.
Qed.

Lemma encode_val3 a b c :
  is3 (byte_val a) (byte_val b) (byte_val c) = true →
  encode (val3 (byte_val a) (byte_val b) (byte_val c)) = String a (String b (String c EmptyString))
  ∧ 0x80 <= val3 (byte_val a) (byte_val b) (byte_val c) <= 0xFFFF.
Proof.
  unfold is3, cont. rewrite !andb_true_iff, !between_true, Z.leb_le. intros [[[[Hx Hy] Hz] Hv] _].
  unfold val3 in *. set (r := _ + _) in *. assert (0x800 <= r < 0x10000) as Hr by (unfold r in *; lia).
  split; [|lia]. unfold encode.
  rewrite !(proj2 (Z.ltb_ge r _)), (proj2 (Z.ltb_lt r 0x10000)) by lia.
  rewrite <- (chr_byte_val a), <- (chr_byte_val b), <- (chr_byte_val c).
  do 4 f_equal; [|f_equal|]; unfold r; div_lia.
Qed.

Lemma encode_val4 a b c d :
  is4 (byte_val a) (byte_val b) (byte_val c) (byte_val d) = true →
  encode (val4 (byte_val a) (byte_val b) (byte_val c) (byte_val d))
  = String a (String b (String c (String d EmptyString)))
  ∧ 0x10000 <= val4 (byte_val a) (byte_val b) (byte_val c) (byte_val d).
Proof.
  unfold is4, cont. rewrite !andb_true_iff, !between_true, Z.leb_le.
  intros [[[[[Hx Hy] Hz] Hu] Hv] _].
  unfold val4 in *. set (r := _ + _) in *. split; [|lia]. unfold encode.
  rewrite !(proj2 (Z.ltb_ge r _)) by lia.
  rewrite <- (chr_byte_val a), <- (chr_byte_val b), <- (chr_byte_val c), <- (chr_byte_val d).
  do 5 f_equal; [|f_equal|f_equal|]; unfold r; div_lia.
Qed.

(** ** Steps of [runes] *)

(** A byte of a sequence longer than one. *)
Definition high (a : ascii) : bool := 0x80 <=? byte_val a.

(** What [runes] takes from the front of a non-empty string. *)
Inductive rune_step : string → option Z → string → Prop :=
| step_ascii a s : byte_val a < 0x80 → rune_step (String a s) (Some (byte_val a)) s
| step_bad a s : 0x80 <= byte_val a → rune_step (String a s) None s
| step_rune r s : scalar r = true → 0x80 <= r → all_chars high (encode r) = true →
    rune_step (encode r +:+ s) (Some r) s.

Lemma step_encoded r p s :
  encode r = p → scalar r = true → 0x80 <= r → all_chars high p = true →
  rune_step (p +:+ s) (Some r) s.
Proof. intros <-. apply step_rune. Qed.

Lemma high_true a : high a = true ↔ 0x80 <= byte_val a.
Proof. apply Z.leb_le. Qed.

Lemma runes_front a s1 : ∃ o s', rune_step (String a s1) o s' ∧ runes (String a s1) = o :: runes s'.
Proof.
  simpl. destruct (byte_val a <? 0x80) eqn:Ha; to_prop.
  { eexists _, s1. split; [by constructor|done]. }
  assert (∃ o s', rune_step (String a s1) o s' ∧ None :: runes s1 = o :: runes s') as Hbad
    by (eexists _, s1; split; [by constructor|done]).
  destruct s1 as [|b s2]; [done|].
  destruct (is2 _ _) eqn:E2.
  { destruct (encode_val2 a b E2) as [Ee Hr]. unfold is2, cont in E2.
    rewrite andb_true_iff, !between_true in E2.
    eexists _, s2. split; [|reflexivity]. apply (step_encoded _ _ s2 Ee); [|lia|].
    - apply scalar_true. lia.
    - simpl. rewrite !(proj2 (high_true _)) by lia. done. }
  destruct s2 as [|c s3]; [done|]. destruct (is3 _ _ _) eqn:E3.
  { destruct (encode_val3 a b c E3) as [Ee Hr]. unfold is3, cont in E3.
    rewrite !andb_true_iff, !between_true in E3.
    eexists _, s3. split; [|reflexivity]. apply (step_encoded _ _ s3 Ee); [apply E3|lia|].
    simpl. rewrite !(proj2 (high_true _)) by lia. done. }
  destruct s3 as [|d s4]; [done|]. destruct (is4 _ _ _ _) eqn:E4; [|done].
  destruct (encode_val4 a b c d E4) as [Ee Hr]. unfold is4, cont in E4.
  rewrite !andb_true_iff, !between_true in E4.
  eexists _, s4. split; [|reflexivity]. apply (step_encoded _ _ s4 Ee); [apply E4|lia|].
  simpl. rewrite !(proj2 (high_true _)) by lia. done.
Qed.

Lemma encode_cons r : ∃ a p, encode r = String a p.
Proof. unfold encode. repeat case_match; eauto. Qed.

Lemma step_shorter s o s' : rune_step s o s' → (String.length s' < String.length s)%nat.
Proof.
  intros [a s1 _|a s1 _|r s1 _ _ _]; [simpl; lia..|].
  destruct (encode_cons r) as (a & p & ->). rewrite string_length_app. simpl. lia.
Qed.

(** Induction along the runes of a string. *)
Lemma runes_ind (P : string → list (option Z) → Prop) :
  P EmptyString [] →
  (∀ s o s', rune_step s o s' → P s' (runes s') → P s (o :: runes s')) →
  ∀ s, P s (runes s).
Proof.
  intros H0 Hs s. remember (String.length s) as n eqn:Hn. revert s Hn.
  induction (lt_wf n) as [n _ IH]. intros [|a s] ->; [done|].
  destruct (runes_front a s) as (o & s' & Hst & ->). apply (Hs _ _ _ Hst).
  eapply IH; [|done]. by apply step_shorter in Hst.
Qed.

(** The runes of a string are scalar values. *)
Definition rune_ok (o : option Z) : bool := match o with Some r => scalar r | None => true end.

Lemma runes_ok s : Forall (λ o, rune_ok o = true) (runes s).
Proof.
  apply (runes_ind (λ _ l, Forall (λ o, rune_ok o = true) l)); [constructor|].
  intros s0 o s' Hst IH. constructor; [|done].
  destruct Hst as [a s1 Ha|a s1 Ha|r s1 Hr _ _]; [|done..]. simpl. apply scalar_true.
  pose proof (byte_val_range a). lia.
Qed.

Lemma encode_ascii a : byte_val a < 0x80 → encode (byte_val a) = String a EmptyString.
Proof. intros Ha. unfold encode. by rewrite (proj2 (Z.ltb_lt _ _) Ha), chr_byte_val. Qed.

(** Valid text is the text of its runes. *)
Lemma clean_valid s : utf8_valid s = true → clean s = s.
Proof.
  unfold utf8_valid, clean.
  apply (runes_ind (λ s l, forallb _ l = true → joins ((λ o, encode (rune_of o)) <$> l) = s));
    [done|].
  intros s0 o s' Hst IH Hv. simpl in Hv. apply andb_true_iff in Hv as [Ho%bool_decide_eq_true Hv].
  rewrite fmap_cons, joins_cons, IH by done.
  destruct Hst as [a s1 Ha|a s1 Ha|r s1 _ _ _]; [|by destruct Ho|done].
  simpl. by rewrite encode_ascii.
Qed.

(** ** Decoding what was encoded *)

Lemma cont_mod x : cont (0x80 + x mod 64) = true.
Proof. unfold cont. apply between_true. div_lia. Qed.

Lemma runes2 a b s : is2 (byte_val a) (byte_val b) = true →
  runes (String a (String b s)) = Some (val2 (byte_val a) (byte_val b)) :: runes s.
Proof.
  intros H2. pose proof H2 as Hx. unfold is2 in Hx. rewrite andb_true_iff, between_true in Hx.
  simpl. rewrite H2. by rewrite (proj2 (Z.ltb_ge (byte_val a) 0x80)) by lia.
Qed.

Lemma runes3 a b c s : is3 (byte_val a) (byte_val b) (byte_val c) = true →
  runes (String a (String b (String c s)))
  = Some (val3 (byte_val a) (byte_val b) (byte_val c)) :: runes s.
Proof.
  intros H3. pose proof H3 as Hx. unfold is3 in Hx. rewrite !andb_true_iff, between_true in Hx.
  assert (is2 (byte_val a) (byte_val b) = false) as H2
    by (unfold is2; by rewrite (proj2 (between_false _ _ (byte_val a))) by lia).
  simpl. rewrite H2, H3. by rewrite (proj2 (Z.ltb_ge (byte_val a) 0x80)) by lia.
Qed.

Lemma runes4 a b c d s : is4 (byte_val a) (byte_val b) (byte_val c) (byte_val d) = true →
  runes (String a (String b (String c (String d s))))
  = Some (val4 (byte_val a) (byte_val b) (byte_val c) (byte_val d)) :: runes s.
Proof.
  intros H4. pose proof H4 as Hx. unfold is4 in Hx. rewrite !andb_true_iff, between_true in Hx.
  assert (is2 (byte_val a) (byte_val b) = false) as H2
    by (unfold is2; by rewrite (proj2 (between_false _ _ (byte_val a))) by lia).
  assert (is3 (byte_val a) (byte_val b) (byte_val c) = false) as H3
    by (unfold is3; by rewrite (proj2 (between_false _ _ (byte_val a))) by lia).
  simpl. rewrite H2, H3, H4. by rewrite (proj2 (Z.ltb_ge (byte_val a) 0x80)) by lia.
Qed.

Lemma runes_encode r s : scalar r = true → runes (encode r +:+ s) = Some r :: runes s.
Proof.
  intros Hr. pose proof (proj1 (scalar_true r) Hr) as Hr'. unfold encode.
  destruct (r <? 0x80) eqn:E1; [|destruct (r <? 0x800) eqn:E2; [|destruct (r <? 0x10000) eqn:E3]]; to_prop.
  - change (String (chr r) EmptyString +:+ s) with (String (chr r) s). simpl.
    rewrite byte_val_chr, (proj2 (Z.ltb_lt r _)) by lia. done.
  - change (String ?a (String ?b EmptyString) +:+ s) with (String a (String b s)).
    rewrite runes2; rewrite !byte_val_chr by div_lia; [do 2 f_equal; unfold val2; div_lia|].
    unfold is2. by rewrite cont_mod, (proj2 (between_true _ _ _)) by div_lia.
  - assert (val3 (0xE0 + r / 4096) (0x80 + r / 64 mod 64) (0x80 + r mod 64) = r) as Ev
      by (unfold val3; div_lia).
    change (String ?a (String ?b (String ?c EmptyString)) +:+ s) with (String a (String b (String c s))).
    rewrite runes3; rewrite !byte_val_chr by div_lia; [by rewrite Ev|].
    unfold is3. rewrite Ev, Hr, !cont_mod, (proj2 (Z.leb_le _ _)) by lia.
    by rewrite (proj2 (between_true _ _ _)) by div_lia.
  - assert (val4 (0xF0 + r / 262144) (0x80 + r / 4096 mod 64) (0x80 + r / 64 mod 64) (0x80 + r mod 64) = r)
      as Ev by (unfold val4; div_lia).
    change (String ?a (String ?b (String ?c (String ?d EmptyString))) +:+ s)
      with (String a (String b (String c (String d s)))).
    rewrite runes4; rewrite !byte_val_chr by div_lia; [by rewrite Ev|].
    unfold is4. rewrite Ev, Hr, !cont_mod, (proj2 (Z.leb_le _ _)) by lia.
    by rewrite (proj2 (between_true _ _ _)) by div_lia.
Qed.

Lemma rune_of_ok o : rune_ok o = true → scalar (rune_of o) = true.
Proof. by destruct o. Qed.

Lemma runes_joins l :
  Forall (λ o, rune_ok o = true) l →
  runes (joins ((λ o, encode (rune_of o)) <$> l)) = (λ o, Some (rune_of o)) <$> l.
Proof.
  induction 1 as [|o l Ho _ IH]; [done|].
  by rewrite fmap_cons, joins_cons, runes_encode, IH by (by apply rune_of_ok).
Qed.

(** The text of the runes is valid, and [clean] does nothing to it. *)
Lemma utf8_valid_clean s : utf8_valid (clean s) = true.
Proof.
  unfold utf8_valid, clean. rewrite runes_joins by apply runes_ok.
  induction (runes s) as [|o l IH]; [done|]. exact IH.
Qed.

Lemma clean_idemp s : clean (clean s) = clean s.
Proof. apply clean_valid, utf8_valid_clean. Qed.

(** ** NUL *)

Definition nonzero (o : option Z) : bool := bool_decide (o ≠ Some 0).

Lemma byte_zero a : byte_val a = 0 ↔ a = "000"%char.
Proof. split; [|by intros ->]. intros Ha. by rewrite <- (chr_byte_val a), Ha. Qed.

Lemma nul_free_app s1 s2 : nul_free (s1 +:+ s2) = nul_free s1 && nul_free s2.
Proof. apply all_chars_app. Qed.

Lemma high_nul_free s : all_chars high s = true → nul_free s = true.
Proof.
  unfold nul_free. induction s as [|a s IH]; [done|]. simpl. intros Hs. to_prop.
  rewrite IH by done. unfold not_char. rewrite bool_decide_false; [done|].
  intros ->. match goal with H : high _ = true |- _ => by vm_compute in H end.
Qed.

(** A NUL byte is the rune 0, and nothing else is. *)
Lemma nul_free_runes s : nul_free s = forallb nonzero (runes s).
Proof.
  apply (runes_ind (λ s l, nul_free s = forallb nonzero l)); [done|].
  intros s0 o s' Hst IH. simpl. rewrite <- IH.
  destruct Hst as [a s1 Ha|a s1 Ha|r s1 _ Hr Hh].
  - unfold nul_free at 1. simpl. f_equal. unfold not_char, nonzero.
    destruct (decide (a = "000"%char)) as [->|Hne]; [done|]. rewrite bool_decide_false by done.
    rewrite bool_decide_true; [done|]. intros [= E]. by apply Hne, byte_zero.
  - unfold nul_free at 1. simpl. unfold not_char. rewrite bool_decide_false; [done|].
    intros ->. by vm_compute in Ha.
  - rewrite nul_free_app, high_nul_free by done. unfold nonzero. rewrite bool_decide_true; [done|].
    intros [= ->]. lia.
Qed.
