(* ===== verification/GoJson.v ===== *)
(** * JSON: what the worker marshals and what a JSONB column takes

    [json.Marshal] of the flat maps the worker records, byte by byte (sorted keys, the
    escapes of Go's encoder, U+FFFD for bytes that are no UTF-8), and the input of
    PostgreSQL's [jsonb] type, which reads any JSON text and refuses the code point 0.
    The round trip at the end says what a column holds after a write. *)

From Stdlib Require Import Ascii.
From stdpp Require Import sorting.
From S2P Require Import Prelude GoLang ErrDetail GoText GoUtf8.

Local Open Scope Z_scope.

(** ** Go's side: encoding/json *)

(** The values of the [map[string]any] literals of the worker. *)
Inductive jval := JStr (s : string) | JInt (z : Z).

#[export] Instance jval_eq_dec : EqDecision jval.
Proof. solve_decision. Defined.

Definition dquote : ascii := "034".

(** The bytes below U+0080 that [htmlSafeSet] lets through. *)
Definition html_safe (r : Z) : bool :=
  between 0x20 0x7F r && negb (bool_decide (r ∈ [0x22; 0x26; 0x3C; 0x3E; 0x5C])).

(** [const hex = "0123456789abcdef"]. *)
Definition hex_digit (d : Z) : ascii := chr (if d <? 10 then 48 + d else 87 + d).

Definition u_escape (r : Z) : string :=
  String "\" (String "u" (String (hex_digit (r / 4096)) (String (hex_digit (r / 256 mod 16))
    (String (hex_digit (r / 16 mod 16)) (String (hex_digit (r mod 16)) EmptyString))))).

(** One rune of [appendString]. *)
Definition emit (o : option Z) : string :=
  match o with
  | None => "\ufffd"
  | Some r =>
      if r <? 0x80 then
        if html_safe r then String (chr r) EmptyString
        else if bool_decide (r ∈ [0x22; 0x5C]) then String "\" (String (chr r) EmptyString)
        else if r =? 0x08 then "\b"
        else if r =? 0x0C then "\f"
        else if r =? 0x0A then "\n"
        else if r =? 0x0D then "\r"
        else if r =? 0x09 then "\t"
        else u_escape r
      else if bool_decide (r ∈ [0x2028; 0x2029]) then u_escape r
      else encode r
  end.

Definition json_string (s : string) : string :=
  String dquote (joins (emit <$> runes s) +:+ String dquote EmptyString).

Definition json_value (v : jval) : string :=
  match v with
  | JStr s => json_string s
  | JInt z => itoa z
  end.

(** A member of an object: the key, a colon, the value. *)
Definition json_member (kv : string * jval) : string :=
  json_string kv.1 +:+ String ":" (json_value kv.2).

(** The order of the members: by key, bytewise. *)
Definition key_le (x y : string * jval) : Prop := String.leb x.1 y.1 = true.

#[export] Instance key_le_dec : RelDecision key_le.
Proof. intros x y. unfold key_le. apply _. Defined.

Definition json_members (l : list (string * jval)) : string :=
  String.concat "," (json_member <$> l).

(** [json.Marshal] of a map. *)
Definition json_Marshal (m : gmap string jval) : string :=
  String "{" (json_members (merge_sort key_le (map_to_list m)) +:+ "}").

(** ** PostgreSQL's side: the input of jsonb *)

(** A [jsonb] value; a number keeps its text. *)
Inductive jsonb :=
| BNull
| BBool (b : bool)
| BNum (text : string)
| BText (s : string)
| BArr (l : list jsonb)
| BObj (m : gmap string jsonb).

Definition is_ws (a : ascii) : bool := bool_decide (byte_val a ∈ [0x20; 0x09; 0x0A; 0x0D]).

Definition skip_ws (s : string) : string := (span is_ws s).2.

Definition hex_val (a : ascii) : option Z :=
  let x := byte_val a in
  if between 48 57 x then Some (x - 48)
  else if between 97 102 x then Some (x - 87)
  else if between 65 70 x then Some (x - 55)
  else None.

Definition hex4 (a b c d : ascii) : option Z :=
  x ← hex_val a; y ← hex_val b; z ← hex_val c; u ← hex_val d;
  Some (((x * 16 + y) * 16 + z) * 16 + u).

(** The escapes of one letter. *)
Definition letter_escape (c : ascii) : option Z :=
  let x := byte_val c in
  if bool_decide (x ∈ [0x22; 0x5C; 0x2F]) then Some x
  else if x =? 98 then Some 0x08
  else if x =? 102 then Some 0x0C
  else if x =? 110 then Some 0x0A
  else if x =? 114 then Some 0x0D
  else if x =? 116 then Some 0x09
  else None.

(** Put a piece in front of what was read. *)
Definition push (p : string) (r : option (string * string)) : option (string * string) :=
  '(x, t) ← r; Some (p +:+ x, t).

(** The characters of a string up to its closing quote: control characters are refused,
    surrogates come in pairs, and there is no code point 0 in a database text. *)
Fixpoint read_chars (s : string) : option (string * string) :=
  match s with
  | EmptyString => None
  | String a s1 =>
      if bool_decide (a = dquote) then Some (EmptyString, s1)
      else if bool_decide (a = "\"%char) then
        match s1 with
        | EmptyString => None
        | String c s2 =>
            if bool_decide (c = "u"%char) then
              match s2 with
              | String h1 (String h2 (String h3 (String h4 s3))) =>
                  r ← hex4 h1 h2 h3 h4;
                  if r =? 0 then None
                  else if between 0xD800 0xDBFF r then
                    match s3 with
                    | String b (String v (String k1 (String k2 (String k3 (String k4 s4))))) =>
                        if bool_decide (b = "\"%char) && bool_decide (v = "u"%char) then
                          q ← hex4 k1 k2 k3 k4;
                          if between 0xDC00 0xDFFF q then
                            push (encode (0x10000 + (r - 0xD800) * 1024 + (q - 0xDC00))) (read_chars s4)
                          else None
                        else None
                    | _ => None
                    end
                  else if between 0xDC00 0xDFFF r then None
                  else push (encode r) (read_chars s3)
              | _ => None
              end
            else r ← letter_escape c; push (encode r) (read_chars s2)
        end
      else if byte_val a <? 0x20 then None
      else push (String a EmptyString) (read_chars s1)
  end.

(** [int frac exp] of the grammar of numbers. *)
Definition read_int (s : string) : option (string * string) :=
  match s with
  | EmptyString => None
  | String a s' =>
      if bool_decide (a = "0"%char) then Some ("0", s')
      else if is_digit a then Some (span is_digit s)
      else None
  end.

Definition read_digits (s : string) : option (string * string) :=
  let '(ds, t) := span is_digit s in
  match ds with EmptyString => None | _ => Some (ds, t) end.

Definition read_frac (s : string) : option (string * string) :=
  match s with
  | String a s' => if bool_decide (a = "."%char) then push "." (read_digits s') else Some (EmptyString, s)
  | EmptyString => Some (EmptyString, s)
  end.

Definition is_sign (a : ascii) : bool := bool_decide (a ∈ ["+"%char; "-"%char]).

Definition read_exp (s : string) : option (string * string) :=
  match s with
  | String a s' =>
      if bool_decide (a ∈ ["e"%char; "E"%char]) then
        match s' with
        | String b s2 =>
            if is_sign b then push (String a (String b EmptyString)) (read_digits s2)
            else push (String a EmptyString) (read_digits s')
        | EmptyString => None
        end
      else Some (EmptyString, s)
  | EmptyString => Some (EmptyString, s)
  end.

Definition read_unsigned (s : string) : option (string * string) :=
  '(i, s1) ← read_int s; '(f, s2) ← read_frac s1; '(e, s3) ← read_exp s2;
  Some (i +:+ f +:+ e, s3).

Definition read_num (s : string) : option (string * string) :=
  match s with
  | String a s' => if bool_decide (a = "-"%char) then push "-" (read_unsigned s') else read_unsigned s
  | EmptyString => None
  end.

(** A text without quotes: a literal or a number. *)
Definition read_plain (s : string) : option (jsonb * string) :=
  match strip_prefix "null" s, strip_prefix "true" s, strip_prefix "false" s with
  | Some t, _, _ => Some (BNull, t)
  | _, Some t, _ => Some (BBool true, t)
  | _, _, Some t => Some (BBool false, t)
  | None, None, None => '(x, t) ← read_num s; Some (BNum x, t)
  end.

(** The first character after white space. *)
Definition next_char (s : string) : option (ascii * string) :=
  match skip_ws s with
  | EmptyString => None
  | String a t => Some (a, t)
  end.

(** A value, the members of an object after its brace, the elements of an array after
    its bracket; the last of several members with one key counts. *)
Fixpoint read_value (n : nat) (s : string) : option (jsonb * string) :=
  match n with
  | O => None
  | S n =>
      '(a, s1) ← next_char s;
      if bool_decide (a = "{"%char) then
        '(c, s2) ← next_char s1;
        if bool_decide (c = "}"%char) then Some (BObj ∅, s2)
        else '(ms, t) ← read_members n s1; Some (BObj (list_to_map (reverse ms)), t)
      else if bool_decide (a = "["%char) then
        '(c, s2) ← next_char s1;
        if bool_decide (c = "]"%char) then Some (BArr [], s2)
        else '(vs, t) ← read_elems n s1; Some (BArr vs, t)
      else if bool_decide (a = dquote) then
        '(x, t) ← read_chars s1; Some (BText x, t)
      else read_plain (String a s1)
  end
with read_members (n : nat) (s : string) : option (list (string * jsonb) * string) :=
  match n with
  | O => None
  | S n =>
      '(a, s1) ← next_char s;
      if bool_decide (a = dquote) then
        '(k, s2) ← read_chars s1;
        '(c, s3) ← next_char s2;
        if bool_decide (c = ":"%char) then
          '(v, s4) ← read_value n s3;
          '(d, s5) ← next_char s4;
          if bool_decide (d = ","%char) then
            '(ms, t) ← read_members n s5; Some ((k, v) :: ms, t)
          else if bool_decide (d = "}"%char) then Some ([(k, v)], s5)
          else None
        else None
      else None
  end
with read_elems (n : nat) (s : string) : option (list jsonb * string) :=
  match n with
  | O => None
  | S n =>
      '(v, s1) ← read_value n s;
      '(d, s2) ← next_char s1;
      if bool_decide (d = ","%char) then
        '(vs, t) ← read_elems n s2; Some (v :: vs, t)
      else if bool_decide (d = "]"%char) then Some ([v], s2)
      else None
  end.

(** The input function: one value and nothing but white space after it. *)
Definition jsonb_in (s : string) : option jsonb :=
  '(v, t) ← read_value (S (2 * String.length s)) s;
  match skip_ws t with
  | EmptyString => Some v
  | String _ _ => None
  end.

(** ** What is stored *)

Definition jval_ok (v : jval) : bool :=
  match v with
  | JStr s => nul_free s
  | JInt _ => true
  end.

Definition member_ok (kv : string * jval) : bool := nul_free kv.1 && jval_ok kv.2.

(** No NUL byte in any of the texts of a map. *)
Definition storable (m : gmap string jval) : bool := forallb member_ok (map_to_list m).

(** The value of a column. *)
Definition stored (v : jval) : jsonb :=
  match v with
  | JStr s => BText (clean s)
  | JInt z => BNum (itoa z)
  end.

Definition stored_member (kv : string * jval) : string * jsonb := (clean kv.1, stored kv.2).

Definition stored_object (m : gmap string jval) : jsonb :=
  BObj (list_to_map (reverse (stored_member <$> merge_sort key_le (map_to_list m)))).

(** ** Strings *)

Lemma app_cons a s t : String a s +:+ t = String a (s +:+ t).
Proof. done. Qed.

Lemma push_push p q r : push p (push q r) = push (p +:+ q) r.
Proof. destruct r as [[x t]|]; [|done]. simpl. by rewrite string_app_assoc. Qed.

Lemma push_empty r : push EmptyString r = r.
Proof. by destruct r as [[x t]|]. Qed.

(** A byte that needs no care is copied. *)
Lemma read_chars_copy a t :
  a ≠ dquote → a ≠ "\"%char → 0x20 <= byte_val a →
  read_chars (String a t) = push (String a EmptyString) (read_chars t).
Proof.
  intros H1 H2 H3. simpl. by rewrite !bool_decide_false, (proj2 (Z.ltb_ge _ _) H3) by done.
Qed.

Lemma read_chars_high p t :
  all_chars high p = true → read_chars (p +:+ t) = push p (read_chars t).
Proof.
  induction p as [|a p IH]; intros Hp; [by rewrite push_empty|].
  simpl in Hp. apply andb_true_iff in Hp as [Ha%high_true Hp].
  assert (∀ c, byte_val c < 0x80 → a ≠ c) as Hne by (intros c Hc ->; lia).
  rewrite app_cons, read_chars_copy; [|by apply Hne; vm_compute|by apply Hne; vm_compute|lia].
  by rewrite IH, push_push.
Qed.

Lemma chr_high x : 0x80 <= x < 0x100 → high (chr x) = true.
Proof. intros Hx. apply high_true. rewrite byte_val_chr; lia. Qed.

Lemma encode_high r : 0x80 <= r → scalar r = true → all_chars high (encode r) = true.
Proof.
  intros Hr Hs%scalar_true. unfold encode. rewrite (proj2 (Z.ltb_ge r _)) by lia.
  destruct (r <? 0x800) eqn:E2; [|destruct (r <? 0x10000) eqn:E3]; to_prop;
    cbn [all_chars]; rewrite !chr_high by div_lia; done.
Qed.

(** The runes of one byte Go escapes. *)
Lemma unsafe_cases r : 0 <= r < 0x80 → html_safe r = false →
  r < 0x20 ∨ r ∈ [0x22; 0x26; 0x3C; 0x3E; 0x5C].
Proof.
  intros Hr Hs. unfold html_safe in Hs.
  apply andb_false_iff in Hs as [Hs%between_false|Hs]; [lia|].
  right. by apply negb_false_iff, bool_decide_eq_true in Hs.
Qed.

Lemma below_cases (P : Z → Prop) n : (∀ k, (k < n)%nat → P (Z.of_nat k)) →
  ∀ r, 0 <= r < Z.of_nat n → P r.
Proof. intros HP r Hr. rewrite <- (Z2Nat.id r) by lia. apply HP. lia. Qed.

(** Reading one written rune back. *)
Definition reads_back (o : option Z) : Prop := ∀ t,
  read_chars (emit o +:+ t)
  = if nonzero o then push (encode (rune_of o)) (read_chars t) else None.

Lemma reads_back_control r : 0 <= r < 32 → reads_back (Some r).
Proof.
  apply (below_cases (λ r, reads_back (Some r)) 32). intros k Hk t.
  do 32 (destruct k as [|k]; [reflexivity|]). lia.
Qed.

Lemma reads_back_listed r :
  r ∈ [0x22; 0x26; 0x3C; 0x3E; 0x5C; 0x2028; 0x2029] → reads_back (Some r).
Proof. rewrite !elem_of_cons, elem_of_nil. intros Hr t. destruct_or!; subst; done. Qed.

Lemma reads_back_ok o : rune_ok o = true → reads_back o.
Proof.
  destruct o as [r|]; [|done]. simpl. intros Hs. pose proof (proj1 (scalar_true r) Hs) as Hr.
  destruct (decide (r ∈ [0x22; 0x26; 0x3C; 0x3E; 0x5C; 0x2028; 0x2029])) as [Hl|Hl];
    [by apply reads_back_listed|].
  assert (r < 32 ∨ 32 <= r) as [Hc|Hc] by lia; [apply reads_back_control; lia|].
  intros t. unfold emit, nonzero. rewrite (bool_decide_true (Some r ≠ Some 0)) by (intros [= ->]; lia).
  rewrite !elem_of_cons, elem_of_nil in Hl.
  destruct (r <? 0x80) eqn:E; to_prop.
  - destruct (html_safe r) eqn:Hh.
    + rewrite app_cons. change (EmptyString +:+ t) with t.
      assert (byte_val (chr r) = r) as Hv by (apply byte_val_chr; lia).
      assert (∀ c, r ≠ byte_val c → chr r ≠ c) as Hne by (intros c Hc' <-; lia).
      rewrite read_chars_copy; [|apply Hne; change (r ≠ 0x22)|apply Hne; change (r ≠ 0x5C)|]; [|lia..].
      unfold rune_of, encode. simpl. by rewrite (proj2 (Z.ltb_lt r 0x80)) by lia.
    + apply unsafe_cases in Hh; [|lia]. rewrite !elem_of_cons, elem_of_nil in Hh. lia.
  - rewrite bool_decide_false by (rewrite !elem_of_cons, elem_of_nil; lia).
    change (rune_of (Some r)) with r. by apply read_chars_high, encode_high.
Qed.

(** Reading a written string back: the text of its runes, or nothing when it has a
    NUL. *)
Lemma read_emitted l t :
  Forall (λ o, rune_ok o = true) l →
  read_chars (joins (emit <$> l) +:+ String dquote t)
  = if forallb nonzero l then Some (joins ((λ o, encode (rune_of o)) <$> l), t) else None.
Proof.
  induction 1 as [|o l Ho _ IH]; [done|].
  rewrite !fmap_cons, !joins_cons, <- string_app_assoc, (reads_back_ok o Ho), IH. simpl.
  destruct (nonzero o); [|done]. by destruct (forallb nonzero l).
Qed.

Lemma read_written s t :
  read_chars (joins (emit <$> runes s) +:+ String dquote t)
  = if nul_free s then Some (clean s, t) else None.
Proof. rewrite read_emitted by apply runes_ok. by rewrite nul_free_runes. Qed.

(** ** Numbers *)

Lemma pretty_N_char_nonzero x : (0 < x < 10)%N → pretty_N_char x ≠ "0"%char.
Proof.
  intros Hx. assert (x = 1 ∨ x = 2 ∨ x = 3 ∨ x = 4 ∨ x = 5 ∨ x = 6 ∨ x = 7 ∨ x = 8 ∨ x = 9)%N
    as Hc by lia.
  destruct_or!; by subst.
Qed.

(** No leading zero. *)
Lemma pretty_go_lead x s : (0 < x)%N →
  ∃ a t, pretty.pretty_N_go x s = String a t ∧ a ≠ "0"%char.
Proof.
  revert s. induction (N.lt_wf_0 x) as [x _ IH]; intros s Hx.
  rewrite pretty.pretty_N_go_step by done.
  assert (x < 10 ∨ 10 <= x)%N as [Hs|Hs] by lia.
  - rewrite N.div_small, pretty.pretty_N_go_0, N.mod_small by done.
    eexists _, _. split; [done|]. apply pretty_N_char_nonzero. lia.
  - apply IH; [by apply N.div_lt|]. apply N.div_str_pos. lia.
Qed.

(** What may follow a number. *)
Definition ends_number (c : ascii) : Prop :=
  is_digit c = false ∧ c ≠ "."%char ∧ c ∉ ["e"%char; "E"%char].

Lemma ends_number_sep c : c = ","%char ∨ c = "}"%char → ends_number c.
Proof.
  intros Hc. split_and!; [by destruct Hc; subst|by destruct Hc; subst|].
  rewrite !not_elem_of_cons. destruct Hc as [-> | ->]; (split_and!; [done..|apply not_elem_of_nil]).
Qed.

Lemma read_unsigned_digits ds c t a u :
  ds = String a u → a ≠ "0"%char → all_chars is_digit ds = true → ends_number c →
  read_unsigned (ds +:+ String c t) = Some (ds, String c t).
Proof.
  intros Hds Ha Hd (Hc & Hp & He). pose proof Hd as Hd'. rewrite Hds in Hd'. simpl in Hd'.
  apply andb_true_iff in Hd' as [Hd' _]. unfold read_unsigned, read_int.
  rewrite Hds, app_cons, <- app_cons, <- Hds. rewrite bool_decide_false, Hd' by done.
  rewrite span_app by done. simpl. rewrite bool_decide_false by done. simpl.
  rewrite bool_decide_false by done. simpl. by rewrite string_app_nil_r.
Qed.

Lemma read_num_itoa z c t : ends_number c → read_num (itoa z +:+ String c t) = Some (itoa z, String c t).
Proof.
  intros Hc. destruct z as [|p|p].
  - destruct Hc as (_ & Hp & He). change (itoa 0) with "0". change ("0" +:+ String c t) with (String "0" (String c t)).
    unfold read_num. rewrite bool_decide_false by done. unfold read_unsigned. simpl.
    rewrite bool_decide_false by done. simpl. by rewrite bool_decide_false by done.
  - rewrite itoa_pos. destruct (pretty_go_lead (N.pos p) EmptyString ltac:(lia)) as (a & u & E & Ha).
    pose proof (pretty_go_digits (N.pos p) EmptyString eq_refl) as Hd.
    assert (is_digit a = true) as Hd' by (rewrite E in Hd; simpl in Hd; by to_prop).
    rewrite <- (read_unsigned_digits _ c t a u E Ha Hd Hc) at 1. rewrite E, app_cons.
    unfold read_num. by rewrite bool_decide_false by (by intros ->).
  - rewrite itoa_neg. destruct (pretty_go_lead (N.pos p) EmptyString ltac:(lia)) as (a & u & E & Ha).
    pose proof (pretty_go_digits (N.pos p) EmptyString eq_refl) as Hd.
    rewrite app_cons. unfold read_num. rewrite bool_decide_true by done.
    by rewrite (read_unsigned_digits _ c t a u E Ha Hd Hc).
Qed.

(** ** Objects *)

Lemma next_char_here a t : is_ws a = false → next_char (String a t) = Some (a, t).
Proof. intros Ha. unfold next_char, skip_ws. simpl. by rewrite Ha. Qed.

Lemma json_string_app s t :
  json_string s +:+ t = String dquote (joins (emit <$> runes s) +:+ String dquote t).
Proof. unfold json_string. by rewrite app_cons, <- string_app_assoc. Qed.

(** A number starts with a sign or a digit. *)
Lemma itoa_head z : ∃ a u, itoa z = String a u ∧ (a = "-"%char ∨ is_digit a = true).
Proof.
  destruct z as [|p|p]; [by exists "0"%char, EmptyString; split; [|right]|..].
  - rewrite itoa_pos. destruct (pretty_go_lead (N.pos p) EmptyString ltac:(lia)) as (a & u & E & _).
    pose proof (pretty_go_digits (N.pos p) EmptyString eq_refl) as Hd. rewrite E in *.
    exists a, u. split; [done|right]. simpl in Hd. by to_prop.
  - rewrite itoa_neg. eexists _, _. split; [done|by left].
Qed.

Lemma digit_head a : a = "-"%char ∨ is_digit a = true → ∀ c,
  c ≠ "-"%char → is_digit c = false → a ≠ c.
Proof. intros [Ha|Ha] c H1 H2 E; subst; congruence. Qed.

Lemma is_ws_digit a : a = "-"%char ∨ is_digit a = true → is_ws a = false.
Proof.
  intros Ha. unfold is_ws. apply bool_decide_false. rewrite !elem_of_cons, elem_of_nil. intros Hw.
  pose proof (chr_byte_val a) as E.
  destruct Hw as [Hb|[Hb|[Hb|[Hb|[]]]]]; rewrite Hb in E; subst a; by destruct Ha.
Qed.

Lemma strip_prefix_ne b p a s : a ≠ b → strip_prefix (String b p) (String a s) = None.
Proof. intros Hne. simpl. by rewrite decide_False. Qed.

Lemma read_value_number n z c t : ends_number c →
  read_value (S n) (itoa z +:+ String c t) = Some (BNum (itoa z), String c t).
Proof.
  intros Hc. destruct (itoa_head z) as (a & u & E & Ha).
  pose proof (read_num_itoa z c t Hc) as Hn. rewrite E, app_cons in *.
  pose proof (digit_head a Ha) as Hne. cbn [read_value].
  rewrite next_char_here by (by apply is_ws_digit). cbn.
  rewrite !bool_decide_false by (apply Hne; done). unfold read_plain.
  rewrite !strip_prefix_ne by (apply Hne; done). by rewrite Hn.
Qed.

Lemma read_value_written n v c t : (0 < n)%nat → ends_number c →
  read_value n (json_value v +:+ String c t)
  = if jval_ok v then Some (stored v, String c t) else None.
Proof.
  intros Hn Hc. destruct n as [|n]; [lia|]. destruct v as [s|z]; [|by apply read_value_number].
  cbn [json_value]. rewrite json_string_app. cbn [read_value].
  rewrite next_char_here by done. cbn. rewrite read_written.
  by destruct (nul_free s).
Qed.

Lemma json_members_cons kv l :
  json_members (kv :: l) = json_member kv +:+ match l with [] => EmptyString | _ => String "," (json_members l) end.
Proof. destruct l; [|done]. cbn. by rewrite string_app_nil_r. Qed.

(** Reading the members back: all of them, or nothing when one has a NUL. *)
Lemma read_members_written l n t :
  l ≠ [] → (length l < n)%nat →
  read_members n (json_members l +:+ String "}" t)
  = if forallb member_ok l then Some (stored_member <$> l, t) else None.
Proof.
  intros Hl Hn. revert n Hn. induction l as [|[k v] l IH]; intros n Hn; [done|].
  simpl in Hn. destruct n as [|n]; [lia|].
  rewrite json_members_cons, <- string_app_assoc. unfold json_member.
  cbn [fst snd]. rewrite <- string_app_assoc, json_string_app.
  cbn [read_members]. rewrite next_char_here by done. cbn -[read_members read_value json_members].
  rewrite read_written. unfold member_ok at 1. cbn [fst snd].
  destruct (nul_free k); cbn -[read_members read_value json_members]; [|done].
  rewrite app_cons, next_char_here by done. cbn -[read_members read_value json_members].
  destruct l as [|kv' l].
  - change (EmptyString +:+ ?x) with x. rewrite read_value_written by (lia || apply ends_number_sep; auto).
    destruct (jval_ok v); cbn -[read_members read_value json_members]; [|done].
    by rewrite next_char_here by done.
  - rewrite app_cons, read_value_written by (lia || apply ends_number_sep; auto).
    destruct (jval_ok v); cbn -[read_members read_value json_members]; [|done].
    rewrite next_char_here by done. cbn -[read_members read_value json_members].
    rewrite IH by (simpl in *; (done || lia)).
    change (member_ok kv' && forallb member_ok l) with (forallb member_ok (kv' :: l)).
    by destruct (forallb member_ok (kv' :: l)).
Qed.

Lemma json_member_length kv : (1 < String.length (json_member kv))%nat.
Proof.
  unfold json_member. rewrite string_length_app. unfold json_string. simpl.
  rewrite string_length_app. simpl. lia.
Qed.

Lemma json_members_length l : (length l <= String.length (json_members l))%nat.
Proof.
  induction l as [|kv l IH]; [done|]. rewrite json_members_cons, string_length_app.
  pose proof (json_member_length kv). destruct l; simpl in *; lia.
Qed.

Lemma sorted_members m : merge_sort key_le (map_to_list m) ≡ₚ map_to_list m.
Proof. apply merge_sort_Permutation. Qed.

Lemma forallb_perm {A} (p : A → bool) l1 l2 : l1 ≡ₚ l2 → forallb p l1 = forallb p l2.
Proof.
  induction 1 as [|x l1 l2 _ IH|x y l|l1 l2 l3 _ IH1 _ IH2]; simpl; [done| | |congruence].
  - by rewrite IH.
  - by rewrite !andb_assoc, (andb_comm (p y)).
Qed.

Lemma read_object_written l n t :
  (length l < n)%nat →
  read_value (S n) (String "{" (json_members l +:+ String "}" t))
  = if forallb member_ok l
    then Some (BObj (list_to_map (reverse (stored_member <$> l))), t) else None.
Proof.
  intros Hn. cbn [read_value]. rewrite next_char_here by done.
  cbn -[read_members read_value json_members]. destruct l as [|kv l]; [done|].
  assert (∃ u, json_members (kv :: l) +:+ String "}" t = String dquote u) as [u Eu].
  { rewrite json_members_cons, <- string_app_assoc. unfold json_member.
    rewrite <- string_app_assoc, json_string_app. by eexists. }
  pose proof (read_members_written (kv :: l) n t ltac:(done) Hn) as Hr.
  rewrite Eu in *. rewrite next_char_here by done. cbn -[read_members read_value].
  rewrite Hr. change (member_ok kv && forallb member_ok l) with (forallb member_ok (kv :: l)).
  by destruct (forallb member_ok (kv :: l)).
Qed.

Lemma storable_true m : storable m = true ↔ map_Forall (λ k v, member_ok (k, v) = true) m.
Proof.
  unfold storable. rewrite forallb_forall, map_Forall_to_list, Forall_forall.
  split; intros Hm [k v]; [rewrite list_elem_of_In|rewrite <- list_elem_of_In]; apply Hm.
Qed.

Lemma storable_false m : storable m = false ↔
  ∃ k v, m !! k = Some v ∧ (nul_free k = false ∨ ∃ s, v = JStr s ∧ nul_free s = false).
Proof.
  rewrite <- not_true_iff_false, storable_true. split.
  - intros Hm. apply map_not_Forall in Hm as (k & v & Hk & Hv); [|intros ??; apply _].
    exists k, v. split; [done|]. unfold member_ok in Hv. simpl in Hv.
    destruct (nul_free k); [right|by left]. destruct v as [s|z]; simpl in Hv; [|done].
    exists s. split; [done|]. by destruct (nul_free s).
  - intros (k & v & Hk & Hv) Hall. specialize (Hall k v Hk).
    apply andb_true_iff in Hall as [H1 H2]. cbn [fst snd] in H1, H2.
    destruct Hv as [Hv|(s & -> & Hv)]; [|cbn [jval_ok] in H2]; congruence.
Qed.

(** What a reader makes of a marshalled map with white space after it: nothing when a
    text has a NUL, else the object of its members. *)
Lemma jsonb_in_Marshal_ws m t : skip_ws t = EmptyString →
  jsonb_in (json_Marshal m +:+ t) = if storable m then Some (stored_object m) else None.
Proof.
  intros Ht. unfold jsonb_in, json_Marshal, storable, stored_object.
  rewrite <- (forallb_perm _ _ _ (sorted_members m)).
  set (l := merge_sort key_le (map_to_list m)). clearbody l.
  rewrite app_cons, <- string_app_assoc. change ("}" +:+ t) with (String "}" t).
  rewrite read_object_written.
  - destruct (forallb member_ok l); [|done]. cbn [mbind option_bind]. by rewrite Ht.
  - simpl. rewrite string_length_app. pose proof (json_members_length l). simpl. lia.
Qed.

(** What a column holds after a write of a marshalled map. *)
Lemma jsonb_in_Marshal m :
  jsonb_in (json_Marshal m) = if storable m then Some (stored_object m) else None.
Proof. rewrite <- (string_app_nil_r (json_Marshal m)). by apply jsonb_in_Marshal_ws. Qed.

(** With keys that are text, the column holds the map, value by value. *)
Lemma stored_object_text m :
  (∀ k, k ∈ dom m → utf8_valid k = true) → stored_object m = BObj (stored <$> m).
Proof.
  intros Hk. unfold stored_object. f_equal.
  assert (stored_member <$> merge_sort key_le (map_to_list m)
    = prod_map id stored <$> merge_sort key_le (map_to_list m)) as ->.
  { apply list_fmap_ext. intros i [k v] Hi%list_elem_of_lookup_2. unfold stored_member. simpl.
    rewrite clean_valid; [done|]. apply Hk, elem_of_dom. exists v.
    by rewrite sorted_members, elem_of_map_to_list in Hi. }
  rewrite <- (list_to_map_to_list m) at 2. rewrite <- list_to_map_fmap.
  symmetry. apply list_to_map_proper.
  - rewrite <- list_fmap_compose. erewrite list_fmap_ext; [apply NoDup_fst_map_to_list|].
    by intros i [k v] _.
  - by rewrite reverse_Permutation, sorted_members.
Qed.

(** ** Enough fuel

    Every part of a value takes at least one character, so twice the length of the text
    is fuel enough: with more, the reader answers the same. *)

Lemma push_Some p r x t : push p r = Some (x, t) → ∃ y, r = Some (y, t).
Proof. destruct r as [[y u]|]; [|done]. intros [= _ <-]. by exists y. Qed.

Lemma span_shorter p s : (String.length (span p s).2 <= String.length s)%nat.
Proof.
  destruct (span p s) as [l r] eqn:E. apply span_spec in E. subst s.
  rewrite string_length_app. simpl. lia.
Qed.

Lemma next_char_shorter s a t : next_char s = Some (a, t) → (String.length t < String.length s)%nat.
Proof.
  unfold next_char, skip_ws. pose proof (span_shorter is_ws s). intros E.
  destruct (span is_ws s).2; [done|]. injection E as -> ->. simpl in *. lia.
Qed.

Lemma read_chars_shorter s x t : read_chars s = Some (x, t) → (String.length t < String.length s)%nat.
Proof.
  revert x t. remember (String.length s) as n eqn:Hn. revert s Hn.
  induction (lt_wf n) as [n _ IH]. intros s -> x t E.
  assert (∀ s' p, (String.length s' < String.length s)%nat → push p (read_chars s') = Some (x, t) →
    (String.length t < String.length s)%nat) as Hp.
  { intros s' p Hl (y & Ey)%push_Some. pose proof (IH _ Hl s' eq_refl y t Ey). lia. }
  clear IH. destruct s as [|a s]; [done|]. simpl in E.
  repeat (case_match; simplify_option_eq; try done);
    first [by (eapply Hp; [|eassumption]; simpl; lia)|simpl; lia].
Qed.

Lemma read_int_shorter s x t : read_int s = Some (x, t) → (String.length t < String.length s)%nat.
Proof.
  destruct s as [|a s]; [done|]. unfold read_int. simpl.
  case_bool_decide; [intros [= _ ->]; lia|]. destruct (is_digit a); [|done].
  pose proof (span_shorter is_digit s). destruct (span is_digit s) as [l r].
  intros [= _ <-]. simpl in *. lia.
Qed.

Lemma read_digits_shorter s x t : read_digits s = Some (x, t) → (String.length t <= String.length s)%nat.
Proof.
  unfold read_digits. pose proof (span_shorter is_digit s). destruct (span is_digit s) as [l r].
  intros E. destruct l; [done|]. injection E as _ <-. done.
Qed.

Lemma read_frac_shorter s x t : read_frac s = Some (x, t) → (String.length t <= String.length s)%nat.
Proof.
  unfold read_frac. intros E. repeat case_match; simplify_eq; try lia.
  apply push_Some in E as (y & E%read_digits_shorter). simpl. lia.
Qed.

Lemma read_exp_shorter s x t : read_exp s = Some (x, t) → (String.length t <= String.length s)%nat.
Proof.
  unfold read_exp. intros E. repeat case_match; simplify_eq; try lia;
    apply push_Some in E as (y & E%read_digits_shorter); simpl in *; lia.
Qed.

Lemma read_num_shorter s x t : read_num s = Some (x, t) → (String.length t < String.length s)%nat.
Proof.
  assert (∀ s x t, read_unsigned s = Some (x, t) → (String.length t < String.length s)%nat) as Hu.
  { clear. intros s x t. unfold read_unsigned. intros E.
    apply bind_Some in E as ([i s1] & E1 & E). apply bind_Some in E as ([f s2] & E2 & E).
    apply bind_Some in E as ([e s3] & E3 & E). injection E as _ <-.
    apply read_int_shorter in E1. apply read_frac_shorter in E2. apply read_exp_shorter in E3. lia. }
  destruct s as [|a s]; [done|]. unfold read_num. case_bool_decide; [|apply Hu].
  intros (y & E%Hu)%push_Some. simpl. lia.
Qed.

Lemma read_plain_shorter s x t : read_plain s = Some (x, t) → (String.length t < String.length s)%nat.
Proof.
  assert (∀ a p u, strip_prefix (String a p) s = Some u → (String.length u < String.length s)%nat) as Hp.
  { intros a p u ->%strip_prefix_Some. rewrite string_length_app. simpl. lia. }
  unfold read_plain. intros E. repeat case_match; simplify_eq; try (by eapply Hp).
  apply bind_Some in E as ([y u] & Ey & [= _ <-]). by apply read_num_shorter in Ey.
Qed.

(** What is left after a value, a list of members, a list of elements. *)
Lemma read_shorter n :
  (∀ s v t, read_value n s = Some (v, t) → (String.length t < String.length s)%nat) ∧
  (∀ s v t, read_members n s = Some (v, t) → (String.length t < String.length s)%nat) ∧
  (∀ s v t, read_elems n s = Some (v, t) → (String.length t < String.length s)%nat).
Proof.
  induction n as [|n (IHv & IHm & IHe)]; [done|].
  split_and!; intros s v t E; simpl in E; simplify_option_eq;
    repeat (case_match; simplify_option_eq; try done);
    repeat match goal with
    | H : next_char _ = Some _ |- _ => apply next_char_shorter in H
    | H : read_chars _ = Some _ |- _ => apply read_chars_shorter in H
    | H : read_plain _ = Some _ |- _ => apply read_plain_shorter in H
    | H : read_value _ _ = Some _ |- _ => apply IHv in H
    | H : read_members _ _ = Some _ |- _ => apply IHm in H
    | H : read_elems _ _ = Some _ |- _ => apply IHe in H
    end; simpl in *; lia.
Qed.

(** Two fuels that answer alike on shorter texts answer alike with one more. *)
Definition alike (k m n : nat) : Prop := ∀ s,
  ((2 * String.length s < n)%nat →
     read_value k s = read_value m s ∧ read_members k s = read_members m s) ∧
  ((S (2 * String.length s) < n)%nat → read_elems k s = read_elems m s).

Lemma alike_S k m n : alike k m n → alike (S k) (S m) (S n).
Proof.
  intros Hal s. split; [intros Hs; split|intros Hs]; simpl.
  - destruct (next_char s) as [[a s1]|] eqn:E; [|done]. apply next_char_shorter in E.
    destruct (Hal s1) as (Hm & He). destruct Hm as [_ Hm]; [lia|]. specialize (He ltac:(lia)).
    simpl. by rewrite Hm, He.
  - destruct (next_char s) as [[a s1]|] eqn:E; [|done]. apply next_char_shorter in E. simpl.
    case_bool_decide; [|done].
    destruct (read_chars s1) as [[x s2]|] eqn:E1; [|done]. apply read_chars_shorter in E1. simpl.
    destruct (next_char s2) as [[c s3]|] eqn:E2; [|done]. apply next_char_shorter in E2. simpl.
    case_bool_decide; [|done]. rewrite (proj1 (proj1 (Hal s3) ltac:(lia))).
    destruct (read_value m s3) as [[v s4]|] eqn:E3; [|done]. apply read_shorter in E3. simpl.
    destruct (next_char s4) as [[d s5]|] eqn:E4; [|done]. apply next_char_shorter in E4. simpl.
    case_bool_decide; [|done]. by rewrite (proj2 (proj1 (Hal s5) ltac:(lia))).
  - rewrite (proj1 (proj1 (Hal s) ltac:(lia))).
    destruct (read_value m s) as [[v s1]|] eqn:E3; [|done]. apply read_shorter in E3. simpl.
    destruct (next_char s1) as [[d s2]|] eqn:E4; [|done]. apply next_char_shorter in E4. simpl.
    case_bool_decide; [|done]. by rewrite (proj2 (Hal s2) ltac:(lia)).
Qed.

Lemma alike_more n d : alike (n + d) n n.
Proof.
  induction n as [|n IH]; [intros s; split; intros; lia|]. simpl. by apply alike_S.
Qed.

(** More fuel than [jsonb_in] has changes no answer. *)
Lemma jsonb_in_fuel s d :
  read_value (S (2 * String.length s) + d) s = read_value (S (2 * String.length s)) s.
Proof. apply (alike_more (S (2 * String.length s)) d s). lia. Qed.
