(* ===== verification/GoUrl.v ===== *)
(** * net/url and path (the parts the FTP transport, the FTP source and hostcap use)

    [url.Parse] of Go 1.25 as far as Scheme, Host and Path, and [path.Dir]. The
    callers drop the error, so a failed parse is [None]. *)

From Stdlib Require Import Ascii.
From S2P Require Import Prelude GoLang GoFloat ErrDetail GoText.

(** ** Strings *)

(** [strings.Cut] at a byte. *)
Fixpoint cut (c : ascii) (s : string) : string * option string :=
  match s with
  | EmptyString => (EmptyString, None)
  | String a s' =>
      if decide (a = c) then (EmptyString, Some s')
      else let '(b, r) := cut c s' in (String a b, r)
  end.

(** The text before and after the last occurrence of a byte. *)
Fixpoint cut_last (c : ascii) (s : string) : option (string * string) :=
  match s with
  | EmptyString => None
  | String a s' =>
      match cut_last c s' with
      | Some (b, r) => Some (String a b, r)
      | None => if decide (a = c) then Some (EmptyString, s') else None
      end
  end.

(** ** Escapes *)

Inductive encoding := encodePath | encodeHost | encodeZone | encodeUserPassword | encodeFragment.

Definition is_alnum (a : ascii) : bool := is_alpha a || is_digit a.

Definition one_of (l : list ascii) (a : ascii) : bool := bool_decide (a ∈ l).

(** [func ishex] and [func unhex]. *)
Definition ishex (a : ascii) : bool := is_digit a || in_range 97 102 a || in_range 65 70 a.

Definition unhex (a : ascii) : N :=
  let n := N_of_ascii a in
  if is_digit a then (n - 48)%N else if in_range 97 102 a then (n - 87)%N else (n - 55)%N.

Definition hex_byte (h l : ascii) : ascii := ascii_of_N (16 * unhex h + unhex l)%N.

(** [func shouldEscape] in the modes encodeHost and encodeZone. *)
Definition shouldEscape_host (a : ascii) : bool :=
  negb (is_alnum a
        || one_of ["!"; "$"; "&"; "'"; "("; ")"; "*"; "+"; ","; ";"; "="; ":"; "["; "]"; "<"; ">";
                   "034"]%char a
        || one_of ["-"; "_"; "."; "~"]%char a).

Definition is_ascii (a : ascii) : bool := (N_of_ascii a <? 128)%N.

(** Which escapes [func unescape] accepts in a mode. *)
Definition escape_ok (mode : encoding) (h l : ascii) : bool :=
  let is25 := bool_decide (h = "2"%char) && bool_decide (l = "5"%char) in
  match mode with
  | encodeHost => negb (unhex h <? 8)%N || is25
  | encodeZone =>
      is25 || bool_decide (hex_byte h l = " "%char) || negb (shouldEscape_host (hex_byte h l))
  | _ => true
  end.

Definition byte_ok (mode : encoding) (a : ascii) : bool :=
  match mode with
  | encodeHost | encodeZone => negb (is_ascii a && shouldEscape_host a)
  | _ => true
  end.

(** [func unescape]. *)
Fixpoint unescape (mode : encoding) (s : string) : option string :=
  match s with
  | EmptyString => Some EmptyString
  | String a s1 =>
      if decide (a = "%"%char) then
        match s1 with
        | String h (String l s2) =>
            if ishex h && ishex l && escape_ok mode h l
            then String (hex_byte h l) <$> unescape mode s2 else None
        | _ => None
        end
      else if byte_ok mode a then String a <$> unescape mode s1 else None
  end.

(** ** Parse *)

(** [type URL struct]: what the callers read. *)
Record URL := { u_Scheme : string; u_Host : string; u_Path : string }.

Definition is_ctl (a : ascii) : bool := (N_of_ascii a <? 32)%N || (N_of_ascii a =? 127)%N.

(** [func getScheme]: [None] is the missing protocol scheme. The scan stops at the
    first byte that no scheme has; [pre] is what it has passed. *)
Fixpoint getScheme_from (raw pre s : string) : option (string * string) :=
  match s with
  | EmptyString => Some (EmptyString, raw)
  | String a s' =>
      if is_alpha a then getScheme_from raw (pre +:+ String a EmptyString) s'
      else if is_scheme a then
        if bool_decide (pre = EmptyString) then Some (EmptyString, raw)
        else getScheme_from raw (pre +:+ String a EmptyString) s'
      else if decide (a = ":"%char) then
        if bool_decide (pre = EmptyString) then None else Some (pre, s')
      else Some (EmptyString, raw)
  end.

Definition getScheme (raw : string) : option (string * string) := getScheme_from raw EmptyString raw.

(** [func validOptionalPort]. *)
Definition validOptionalPort (s : string) : bool :=
  match s with
  | EmptyString => true
  | String a s' => bool_decide (a = ":"%char) && all_chars is_digit s'
  end.

(** The text before the first occurrence of [sub], and the text from there on. *)
Fixpoint index_split (sub s : string) : option (string * string) :=
  if has_prefix s sub then Some (EmptyString, s)
  else match s with
       | EmptyString => None
       | String a s' => (λ '(b, r), (String a b, r)) <$> index_split sub s'
       end.

(** [func parseHost]. *)
Definition parseHost (host : string) : option string :=
  if has_prefix host "[" then
    match cut_last "]" host with
    | None => None
    | Some (inside, colonPort) =>
        if validOptionalPort colonPort then
          match index_split "%25" inside with
          | Some (h1, zone) =>
              a ← unescape encodeHost h1;
              b ← unescape encodeZone zone;
              c ← unescape encodeHost (String "]" colonPort);
              Some (a +:+ b +:+ c)
          | None => unescape encodeHost host
          end
        else None
    end
  else
    match cut_last ":" host with
    | Some (_, port) => if all_chars is_digit port then unescape encodeHost host else None
    | None => unescape encodeHost host
    end.

(** [func validUserinfo]. *)
Definition valid_userinfo_byte (a : ascii) : bool :=
  is_alnum a || one_of ["-"; "."; "_"; ":"; "~"; "!"; "$"; "&"; "'"; "("; ")"; "*"; "+"; ","; ";";
                        "="; "%"; "@"]%char a.

(** The user and the password of a valid userinfo unescape. *)
Definition userinfo_ok (ui : string) : bool :=
  all_chars valid_userinfo_byte ui &&
  (let '(user, pass) := cut ":" ui in
   bool_decide (is_Some (unescape encodeUserPassword user)) &&
   match pass with
   | Some p => bool_decide (is_Some (unescape encodeUserPassword p))
   | None => true
   end).

(** [func parseAuthority]: the host. *)
Definition parseAuthority (authority : string) : option string :=
  match cut_last "@" authority with
  | None => parseHost authority
  | Some (userinfo, host) =>
      h ← parseHost host;
      if userinfo_ok userinfo then Some h else None
  end.

(** [func parse]. A single trailing question mark (ForceQuery) is cut like a query. *)
Definition parse (raw : string) : option URL :=
  if negb (all_chars (λ a, negb (is_ctl a)) raw) then None
  else if bool_decide (raw = "*"%string)
  then Some {| u_Scheme := EmptyString; u_Host := EmptyString; u_Path := "*" |}
  else
    '(scheme0, rest0) ← getScheme raw;
    let scheme := to_lower scheme0 in
    let '(rest, _) := cut "?" rest0 in
    if negb (has_prefix rest "/") && negb (bool_decide (scheme = EmptyString))
    then Some {| u_Scheme := scheme; u_Host := EmptyString; u_Path := EmptyString |}
    else if negb (has_prefix rest "/") && contains (cut "/" rest).1 ":" then None
    else
      match strip_prefix "//" rest with
      | Some after =>
          if bool_decide (scheme = EmptyString) && has_prefix rest "///"
          then (λ p, {| u_Scheme := scheme; u_Host := EmptyString; u_Path := p |}) <$> unescape encodePath rest
          else
            let '(authority, p) := cut "/" after in
            h ← parseAuthority authority;
            (λ p, {| u_Scheme := scheme; u_Host := h; u_Path := p |})
              <$> unescape encodePath (match p with Some p => String "/" p | None => EmptyString end)
      | None =>
          (λ p, {| u_Scheme := scheme; u_Host := EmptyString; u_Path := p |}) <$> unescape encodePath rest
      end.

(** [url.Parse]. *)
Definition url_parse (raw : string) : option URL :=
  let '(u, frag) := cut "#" raw in
  url ← parse u;
  match frag with
  | None | Some EmptyString => Some url
  | Some f => _ ← unescape encodeFragment f; Some url
  end.

(** ** path.Dir *)

Fixpoint split_on (c : ascii) (s : string) : list string :=
  match s with
  | EmptyString => [EmptyString]
  | String a s' =>
      if decide (a = c) then EmptyString :: split_on c s'
      else match split_on c s' with
           | [] => [String a EmptyString]
           | x :: l => String a x :: l
           end
  end.

(** One element of the path over the elements kept so far (last first). *)
Definition clean_elem (rooted : bool) (kept : list string) (x : string) : list string :=
  if bool_decide (x = EmptyString) || bool_decide (x = "."%string) then kept
  else if bool_decide (x = ".."%string) then
    match kept with
    | [] => if rooted then [] else [x]
    | y :: kept' => if bool_decide (y = ".."%string) then x :: kept else kept'
    end
  else x :: kept.

(** [path.Clean]. *)
Definition path_clean (p : string) : string :=
  let rooted := has_prefix p "/" in
  let body := String.concat "/" (reverse (foldl (clean_elem rooted) [] (split_on "/" p))) in
  if rooted then String "/" body else if bool_decide (body = EmptyString) then "." else body.

(** [path.Dir]. *)
Definition path_dir (p : string) : string :=
  path_clean (match cut_last "/" p with Some (d, _) => d +:+ "/" | None => EmptyString end).

Example url_parse_1 : url_parse "ftp://u:p%40ss@h:21/a%20b/c.png?x#y"
  = Some {| u_Scheme := "ftp"; u_Host := "h:21"; u_Path := "/a b/c.png" |}.
Proof. vm_compute. reflexivity. Qed.

Example url_parse_2 : url_parse "FTP://[fe80::1%25en0]:2121/x"
  = Some {| u_Scheme := "ftp"; u_Host := "[fe80::1%en0]:2121"; u_Path := "/x" |}.
Proof. vm_compute. reflexivity. Qed.

Example url_parse_3 : url_parse "ftp://h:x/y" = None.
Proof. vm_compute. reflexivity. Qed.

Example path_dir_1 : path_dir "/a/./b/../c/d.png" = "/a/c" ∧ path_dir "/d.png" = "/" ∧ path_dir "d" = "."
  ∧ path_dir "../x/y" = "../x" ∧ path_dir "/../a/b" = "/a".
Proof. vm_compute. split_and!; reflexivity. Qed.

(** ** Addresses *)

Definition hex_digit (n : N) : ascii := ascii_of_N (if n <? 10 then 48 + n else 55 + n)%N.

(** A byte as an escape. *)
Definition pct (a : ascii) (s : string) : string :=
  String "%" (String (hex_digit (N_of_ascii a / 16)) (String (hex_digit (N_of_ascii a mod 16)) s)).

(** A text as it is written into a URL: some bytes as they are, the others escaped. *)
Fixpoint url_encode (keep : ascii → bool) (s : string) : string :=
  match s with
  | EmptyString => EmptyString
  | String a s' => if keep a then String a (url_encode keep s') else pct a (url_encode keep s')
  end.

(** The bytes that may stand for themselves in the path of a URL. *)
Definition plain_byte (a : ascii) : bool := negb (is_ctl a || one_of ["%"; "?"; "#"]%char a).

(** The bytes of a host name. *)
Definition host_byte (a : ascii) : bool :=
  byte_ok encodeHost a && negb (one_of [":"; "["; "]"]%char a).

(** The bytes of a user name or password. *)
Definition user_byte (a : ascii) : bool :=
  valid_userinfo_byte a && negb (one_of ["%"; "@"]%char a).

(** A host with an optional port, and an optional userinfo before it. *)
Record authority_ok (ui host port : string) : Prop := {
  ao_ui : ui = EmptyString ∨ ∃ u, ui = u +:+ "@" ∧ all_chars user_byte u = true;
  ao_host : all_chars host_byte host = true;
  ao_port : port = EmptyString ∨ ∃ n, port = String ":" n ∧ all_chars is_digit n = true;
}.

(** ** Lemmas *)

#[local] Arguments String.append !_ _ / : simpl nomatch.

(** A fact about bytes, by looking at all of them. *)
Ltac each_byte a := destruct a as [[] [] [] [] [] [] [] []]; vm_compute; intuition congruence.

Lemma cut_absent c s : all_chars (not_char c) s = true → cut c s = (s, None).
Proof.
  induction s as [|a s IH]; [done|]. simpl. intros Hs. to_prop. unfold not_char in *.
  destruct (decide (a = c)) as [->|]; [by rewrite bool_decide_true in * by done|]. by rewrite IH.
Qed.

Lemma cut_here c s1 s2 : all_chars (not_char c) s1 = true → cut c (s1 +:+ String c s2) = (s1, Some s2).
Proof.
  induction s1 as [|a s1 IH]; simpl; [by rewrite decide_True|]. intros Hs. to_prop. unfold not_char in *.
  destruct (decide (a = c)) as [->|]; [by rewrite bool_decide_true in * by done|]. by rewrite IH.
Qed.

Lemma cut_last_absent c s : all_chars (not_char c) s = true → cut_last c s = None.
Proof.
  induction s as [|a s IH]; [done|]. simpl. intros Hs. to_prop. unfold not_char in *.
  rewrite IH by done. destruct (decide (a = c)) as [->|]; [by rewrite bool_decide_true in * by done|done].
Qed.

Lemma cut_last_here c s1 s2 :
  all_chars (not_char c) s2 = true → cut_last c (s1 +:+ String c s2) = Some (s1, s2).
Proof.
  intros Hs. induction s1 as [|a s1 IH]; simpl; [|by rewrite IH].
  rewrite cut_last_absent by done. by rewrite decide_True.
Qed.

Lemma unescape_plain mode s :
  all_chars (λ a, byte_ok mode a && not_char "%" a) s = true → unescape mode s = Some s.
Proof.
  induction s as [|a s IH]; [done|]. simpl. intros Hs. to_prop. unfold not_char in *.
  destruct (decide (a = "%"%char)) as [->|]; [done|].
  match goal with H : byte_ok mode a = true |- _ => rewrite H end. by rewrite IH.
Qed.

(** Decoding an encoded path gives the path back. *)
Lemma unescape_encode keep s : (∀ a, keep a = true → plain_byte a = true) →
  unescape encodePath (url_encode keep s) = Some s.
Proof.
  intros Hk. induction s as [|a s IH]; [done|]. simpl. destruct (keep a) eqn:E.
  - apply Hk in E. simpl. destruct (decide (a = "%"%char)) as [->|]; [done|]. by rewrite IH.
  - assert (ishex (hex_digit (N_of_ascii a / 16)) = true ∧ ishex (hex_digit (N_of_ascii a mod 16)) = true ∧
      hex_byte (hex_digit (N_of_ascii a / 16)) (hex_digit (N_of_ascii a mod 16)) = a) as (H1 & H2 & H3)
      by each_byte a.
    unfold pct. cbn [unescape]. rewrite decide_True by done. rewrite H1, H2, H3. simpl. by rewrite IH.
Qed.

(** An encoded text has no byte that ends the path of a URL. *)
Lemma encode_plain keep s : (∀ a, keep a = true → plain_byte a = true) →
  all_chars (λ a, negb (is_ctl a) && not_char "?" a && not_char "#" a) (url_encode keep s) = true.
Proof.
  intros Hk. induction s as [|a s IH]; [done|]. simpl. destruct (keep a) eqn:E; simpl; rewrite IH, andb_true_r.
  - apply Hk in E. revert E. clear. each_byte a.
  - clear. each_byte a.
Qed.

Lemma host_byte_spec a : host_byte a = true →
  byte_ok encodeHost a = true ∧ not_char "%" a = true ∧ not_char ":" a = true ∧ not_char "@" a = true ∧
  not_char "/" a = true ∧ not_char "[" a = true ∧ not_char "?" a = true ∧ not_char "#" a = true ∧
  is_ctl a = false.
Proof. each_byte a. Qed.

Lemma user_byte_spec a : user_byte a = true →
  valid_userinfo_byte a = true ∧ not_char "%" a = true ∧ not_char "@" a = true ∧
  not_char "/" a = true ∧ not_char "?" a = true ∧ not_char "#" a = true ∧ is_ctl a = false.
Proof. each_byte a. Qed.

Lemma digit_spec a : is_digit a = true → host_byte a = true.
Proof. each_byte a. Qed.

Lemma parseHost_plain host port :
  all_chars host_byte host = true →
  (port = EmptyString ∨ ∃ n, port = String ":" n ∧ all_chars is_digit n = true) →
  parseHost (host +:+ port) = Some (host +:+ port).
Proof.
  intros Hh Hp.
  assert (∀ q s, all_chars host_byte s = true → (∀ a, host_byte a = true → q a = true) →
    all_chars q s = true) as Hm by (intros; by eapply all_chars_mono).
  assert (all_chars (λ a, byte_ok encodeHost a && not_char "%" a) (host +:+ port) = true) as Hall.
  { rewrite all_chars_app. apply andb_true_iff. split.
    - apply Hm; [done|]. intros a Ha%host_byte_spec. cbv beta. destruct Ha as (-> & -> & _). done.
    - destruct Hp as [->|(n & -> & Hn)]; [done|]. cbn [all_chars]. apply andb_true_iff.
      split; [done|]. apply (all_chars_mono is_digit); [|done].
      intros a Ha%digit_spec%host_byte_spec. cbv beta. destruct Ha as (-> & -> & _). done. }
  assert (has_prefix (host +:+ port) "[" = false) as Hb.
  { destruct host as [|a host].
    - destruct Hp as [->|(n & -> & _)]; done.
    - cbn in Hh. to_prop. match goal with H : host_byte a = true |- _ => apply host_byte_spec in H end.
      destruct_and!. unfold has_prefix. cbn. case_decide as Ha; [subst; done|done]. }
  unfold parseHost. rewrite Hb.
  destruct Hp as [->|(n & -> & Hn)].
  - rewrite string_app_nil_r in *. rewrite cut_last_absent; [by apply unescape_plain|].
    apply Hm; [done|]. intros a (_ & _ & ? & _)%host_byte_spec. done.
  - rewrite cut_last_here, Hn; [by apply unescape_plain|].
    apply (all_chars_mono is_digit); [|done]. intros a (_ & _ & ? & _)%digit_spec%host_byte_spec. done.
Qed.

Lemma userinfo_plain u : all_chars user_byte u = true → userinfo_ok u = true.
Proof.
  intros Hu. unfold userinfo_ok. apply andb_true_iff. split.
  { eapply all_chars_mono; [|exact Hu]. intros a (? & _)%user_byte_spec. done. }
  assert (∀ s, all_chars user_byte s = true → bool_decide (is_Some (unescape encodeUserPassword s)) = true) as Hs.
  { intros s Hs. apply bool_decide_true. rewrite unescape_plain; [by eexists|].
    eapply all_chars_mono; [|exact Hs]. intros a Ha%user_byte_spec. cbv beta. destruct Ha as (_ & -> & _). done. }
  assert (all_chars user_byte (cut ":" u).1 = true ∧
    ∀ p, (cut ":" u).2 = Some p → all_chars user_byte p = true) as [H1 H2].
  { induction u as [|a u IH]; [done|]. simpl in *. to_prop. destruct (decide (a = ":"%char)); simpl.
    - split; [done|]. by intros p [= <-].
    - destruct (cut ":" u) as [b r]. destruct IH as [IH1 IH2]; [done|]. simpl in *. split; [|done].
      apply andb_true_iff. done. }
  destruct (cut ":" u) as [user [p|]]; simpl in *; rewrite (Hs user) by done; [|done].
  simpl. apply Hs. by apply H2.
Qed.

Lemma parseAuthority_plain ui host port :
  authority_ok ui host port → parseAuthority (ui +:+ host +:+ port) = Some (host +:+ port).
Proof.
  intros [Hui Hh Hp]. unfold parseAuthority.
  assert (all_chars (not_char "@") (host +:+ port) = true) as Hat.
  { rewrite all_chars_app. apply andb_true_iff. split.
    - eapply all_chars_mono; [|exact Hh]. intros a (_ & _ & _ & ? & _)%host_byte_spec. done.
    - destruct Hp as [->|(n & -> & Hn)]; [done|]. cbn [all_chars]. apply andb_true_iff.
      split; [done|]. eapply all_chars_mono; [|exact Hn].
      intros a (_ & _ & _ & ? & _)%digit_spec%host_byte_spec. done. }
  destruct Hui as [->|(u & -> & Hu)].
  - cbn. rewrite cut_last_absent by done. by apply parseHost_plain.
  - rewrite <- string_app_assoc. change ("@" +:+ (host +:+ port)) with (String "@" (host +:+ port)).
    rewrite cut_last_here by done. rewrite parseHost_plain by done. simpl. by rewrite userinfo_plain.
Qed.

(** Every path of bytes, and every host name, survives being written into an ftp URL
    and parsed again; a userinfo does not change where the URL points. *)
Lemma url_parse_ftp keep ui host port p :
  (∀ a, keep a = true → plain_byte a = true) → authority_ok ui host port →
  url_parse ("ftp://" +:+ (ui +:+ host +:+ port) +:+ String "/" (url_encode keep p))
  = Some {| u_Scheme := "ftp"; u_Host := host +:+ port; u_Path := String "/" p |}.
Proof.
  intros Hk Ha. pose proof Ha as [Hui Hh Hp].
  set (auth := ui +:+ host +:+ port). set (e := url_encode keep p).
  pose proof (encode_plain keep p Hk) as He. fold e in He.
  assert (all_chars (λ a, negb (is_ctl a) && not_char "?" a && not_char "#" a && not_char "/" a) auth = true)
    as Hauth.
  { unfold auth. rewrite !all_chars_app. rewrite !andb_true_iff. split_and!.
    - destruct Hui as [->|(u & -> & Hu)]; [done|]. rewrite all_chars_app, andb_true_iff. split; [|done].
      eapply all_chars_mono; [|exact Hu]. intros a Hb%user_byte_spec. cbv beta. destruct Hb as (_ & _ & _ & -> & -> & -> & ->). done.
    - eapply all_chars_mono; [|exact Hh]. intros a Hb%host_byte_spec. cbv beta.
      destruct Hb as (_ & _ & _ & _ & -> & _ & -> & -> & ->). done.
    - destruct Hp as [->|(n & -> & Hn)]; [done|]. cbn [all_chars]. apply andb_true_iff.
      split; [done|]. eapply all_chars_mono; [|exact Hn].
      intros a Hb%digit_spec%host_byte_spec. cbv beta.
      destruct Hb as (_ & _ & _ & _ & -> & _ & -> & -> & ->). done. }
  assert (∀ q, (∀ a, negb (is_ctl a) && not_char "?" a && not_char "#" a = true → q a = true) →
    q "/"%char = true → all_chars q (auth +:+ String "/" e) = true) as Hall.
  { intros q Hq Hs. rewrite all_chars_app. cbn [all_chars]. rewrite Hs. cbn [andb].
    apply andb_true_iff. split.
    - eapply all_chars_mono; [|exact Hauth]. intros a Hb. apply Hq. by apply andb_true_iff in Hb as [-> _].
    - eapply all_chars_mono; [exact Hq|exact He]. }
  unfold url_parse.
  change ("ftp://" +:+ auth +:+ String "/" e) with
    (String "f" (String "t" (String "p" (String ":" (String "/" (String "/" (auth +:+ String "/" e))))))).
  rewrite (cut_absent "#").
  2: { cbn [all_chars]. rewrite !andb_true_iff. split_and!; [done..|].
       apply Hall; [|done]. intros a Hb. by to_prop. }
  unfold parse.
  replace (all_chars _ _) with true.
  2: { symmetry. cbn [all_chars]. rewrite !andb_true_iff. split_and!; [done..|].
       apply Hall; [|done]. by intros a [[Hb _]%andb_true_iff _]%andb_true_iff. }
  cbn [negb]. rewrite bool_decide_false by done.
  set (rest := String "/" (String "/" (auth +:+ String "/" e))).
  assert (getScheme (String "f" (String "t" (String "p" (String ":" rest)))) = Some ("ftp"%string, rest))
    as -> by reflexivity.
  cbn [mbind option_bind]. rewrite (cut_absent "?").
  2: { unfold rest. cbn [all_chars]. rewrite !andb_true_iff. split_and!; [done..|].
       apply Hall; [|done]. intros a Hb. by to_prop. }
  assert (has_prefix rest "/" = true) as -> by reflexivity. cbn [negb andb].
  assert (strip_prefix "//" rest = Some (auth +:+ String "/" e)) as -> by reflexivity.
  rewrite bool_decide_false by done. cbn [andb].
  rewrite (cut_here "/" auth e).
  2: { eapply all_chars_mono; [|exact Hauth]. by intros a [_ Hb]%andb_true_iff. }
  unfold auth. rewrite parseAuthority_plain by done. cbn [mbind option_bind unescape].
  rewrite decide_False by done. cbn [byte_ok]. unfold e. by rewrite unescape_encode.
Qed.

(** A literal file name: without percent, question mark, hash and control bytes it
    needs no escape. *)
Lemma url_encode_plain keep s : all_chars keep s = true → url_encode keep s = s.
Proof.
  induction s as [|a s IH]; [done|]. simpl. intros Hs. to_prop.
  match goal with H : keep a = true |- _ => rewrite H end. by rewrite IH.
Qed.
