(* ===== verification/FtpServer.v ===== *)
(** * The FTP test server (internal/ftpserver/testserver.go)

    The decisions of the embedded server the integration tests run against: who may log
    in, and which path of its root directory a client path stands for. Serving the
    protocol is the library's. *)

From Stdlib Require Import Ascii.
From S2P Require Import Prelude GoLang ErrDetail GoText GoUrl.

Local Open Scope string_scope.

(** [type driver struct]: the root directory and the credentials. *)
Record driver := { d_root : string; d_user : string; d_pass : string }.

(** [Start]: the credentials of every test server. *)
Definition Start_driver (root : string) : driver :=
  {| d_root := root; d_user := "imgsync"; d_pass := "imgsync" |}.

(** [func (d *driver) AuthUser]: the root of the file system the session sees. *)
Definition AuthUser (d : driver) (user pass : string) : error + string :=
  if negb (bool_decide (user = d_user d)) || negb (bool_decide (pass = d_pass d))
  then inl (EOpaque "auth: bad credentials") else inr (d_root d).

(** [GetSettings] without the listener, [ClientConnected] and [GetTLSConfig]. *)
Record settings := { DefaultTransferType_binary : bool; DisableMLSD : bool; DisableMLST : bool }.

Definition GetSettings : settings :=
  {| DefaultTransferType_binary := true; DisableMLSD := true; DisableMLST := true |}.

Definition ClientConnected : string := "imgsync test ftp".

Definition GetTLSConfig : error := EOpaque "tls not configured".

(** [type Server struct], and [Start]: the error of a call that ends the test, or what
    the test gets. [listen] is the address of the socket, [srv_listen] the answer of the
    library. *)
Record Server := { Addr : string; User : string; Pass : string; RootDir : string }.

Definition Start (root : string) (listen : error + string) (srv_listen : option error) : error + Server * driver :=
  match listen with
  | inl err => inl (wrapf "ftpserver: listen: " err)
  | inr addr =>
      let d := Start_driver root in
      match srv_listen with
      | Some err => inl (wrapf "ftpserver: srv.Listen: " err)
      | None => inr ({| Addr := addr; User := d_user d; Pass := d_pass d; RootDir := root |}, d)
      end
  end.

(** [func (c *clientDriver) AbsPath]. *)
Definition AbsPath (p : string) : string := path_clean ("/" +:+ p).

(** ** Paths in normal form *)

Definition no_slash (s : string) : Prop := ∀ l r, s ≠ l +:+ String "/" r.

(** An element of a cleaned path. *)
Definition plain_elem (x : string) : Prop := x ≠ EmptyString ∧ x ≠ "." ∧ x ≠ ".." ∧ no_slash x.

Lemma no_slash_nil : no_slash EmptyString.
Proof. by intros [|a l] r. Qed.

Lemma no_slash_cons a s : no_slash (String a s) ↔ a ≠ "/"%char ∧ no_slash s.
Proof.
  split.
  - intros Hs. split; [intros ->; by apply (Hs EmptyString s)|].
    intros l r ->. by apply (Hs (String a l) r).
  - intros [Ha Hs] [|b l] r E; injection E as -> ->; [done|by apply (Hs l r)].
Qed.

Lemma split_on_elems s : Forall no_slash (split_on "/" s).
Proof.
  induction s as [|a s IH]; simpl; [repeat constructor; apply no_slash_nil|].
  case_decide as Ha; [constructor; [apply no_slash_nil|done]|].
  destruct (split_on "/" s) as [|x l]; [constructor; [|done]; apply no_slash_cons; split; [done|apply no_slash_nil]|].
  inversion_clear IH. constructor; [by apply no_slash_cons|done].
Qed.

Lemma split_on_plain x : no_slash x → split_on "/" x = [x].
Proof.
  induction x as [|a x IH]; [done|]. intros [Ha Hx]%no_slash_cons. simpl.
  rewrite decide_False by done. by rewrite IH.
Qed.

Lemma split_on_root s : split_on "/" (String "/" s) = EmptyString :: split_on "/" s.
Proof. cbn [split_on]. by rewrite decide_True. Qed.

Lemma split_on_app x s : no_slash x → split_on "/" (x +:+ String "/" s) = x :: split_on "/" s.
Proof.
  induction x as [|a x IH]; [intros _; apply split_on_root|].
  intros [Ha Hx]%no_slash_cons. change (String a x +:+ ?t) with (String a (x +:+ t)).
  cbn [split_on]. rewrite decide_False by done. by rewrite IH.
Qed.

(** Splitting undoes joining. *)
Lemma split_on_concat l : l ≠ [] → Forall no_slash l → split_on "/" (String.concat "/" l) = l.
Proof.
  induction l as [|x l IH]; [done|]. intros _ [Hx Hl]%Forall_cons.
  destruct l as [|y l]; [by apply split_on_plain|].
  change (String.concat "/" (x :: y :: l)) with (x +:+ String "/" (String.concat "/" (y :: l))).
  rewrite split_on_app by done. f_equal. by apply IH.
Qed.

(** Cleaning a rooted path keeps plain elements only. *)
Lemma clean_elem_plain kept x : Forall plain_elem kept → no_slash x → Forall plain_elem (clean_elem true kept x).
Proof.
  intros Hk Hx. unfold clean_elem. repeat case_bool_decide; simpl; try done.
  - destruct kept as [|y kept]; [done|]. inversion_clear Hk as [|? ? (? & ? & ? & ?)].
    by rewrite bool_decide_false.
  - constructor; [done|done].
Qed.

Lemma foldl_clean_plain l kept : Forall no_slash l → Forall plain_elem kept →
  Forall plain_elem (foldl (clean_elem true) kept l).
Proof.
  revert kept. induction l as [|x l IH]; intros kept Hl Hk; [done|].
  apply Forall_cons in Hl as [Hx Hl]. by apply IH, clean_elem_plain.
Qed.

Lemma foldl_clean_id l kept : Forall plain_elem l → foldl (clean_elem true) kept l = (reverse l ++ kept)%list.
Proof.
  revert kept. induction l as [|x l IH]; intros kept Hl; [done|].
  apply Forall_cons in Hl as [(H1 & H2 & H3 & _) Hl]. simpl. rewrite IH by done.
  unfold clean_elem. rewrite !bool_decide_false by done. simpl. by rewrite reverse_cons, <- (assoc_L (++)%list).
Qed.

(** The elements of the path a client path stands for. *)
Definition abs_elems (p : string) : list string :=
  reverse (foldl (clean_elem true) [] (split_on "/" p)).

Lemma AbsPath_elems p : AbsPath p = String "/" (String.concat "/" (abs_elems p)).
Proof.
  unfold AbsPath, path_clean. change ("/" +:+ p) with (String "/" p).
  change (has_prefix (String "/" p) "/") with true. cbv iota. by rewrite split_on_root.
Qed.

Lemma abs_elems_plain p : Forall plain_elem (abs_elems p).
Proof. apply Forall_reverse, foldl_clean_plain; [apply split_on_elems|constructor]. Qed.

(** ** Properties *)

(** Clients stay inside the root: the path a client names is resolved to a rooted path
    none of whose elements is empty, "." or "..", and resolving it again changes
    nothing. *)
Theorem AbsPath_confined p :
  (∃ l, AbsPath p = String "/" (String.concat "/" l) ∧ Forall plain_elem l) ∧
  AbsPath (AbsPath p) = AbsPath p.
Proof.
  split; [exists (abs_elems p); split; [apply AbsPath_elems|apply abs_elems_plain]|].
  rewrite !AbsPath_elems. do 2 f_equal. unfold abs_elems at 1. rewrite split_on_root. simpl.
  change (clean_elem true [] EmptyString) with (@nil string).
  destruct (abs_elems p) as [|x l] eqn:E; [done|].
  pose proof (abs_elems_plain p) as Hp. rewrite E in Hp.
  rewrite split_on_concat; [|done|].
  - rewrite foldl_clean_id by done. by rewrite app_nil_r, reverse_involutive.
  - eapply Forall_impl; [exact Hp|]. by intros y (_ & _ & _ & ?).
Qed.

(** Only the credentials of [Start] open a session. *)
Theorem AuthUser_spec root user pass :
  AuthUser (Start_driver root) user pass = inr root ↔ user = "imgsync" ∧ pass = "imgsync".
Proof.
  unfold AuthUser. simpl. repeat case_bool_decide; naive_solver.
Qed.

(** What [Start] hands out works: its credentials open a session on its root. *)
Theorem Start_login root listen srv_listen srv d :
  Start root listen srv_listen = inr (srv, d) → AuthUser d (User srv) (Pass srv) = inr (RootDir srv).
Proof.
  unfold Start. destruct listen as [|addr]; [done|]. destruct srv_listen; [done|]. intros [= <- <-].
  by apply AuthUser_spec.
Qed.
