(* ===== verification/Store.v ===== *)
(** * The control database

    The tables of migrations/0001 and 0002 as a state, the SQL clauses the
    statements of the program are made of, and the session that runs them:
    autocommit statements, transactions with a working copy, and a script of
    failures that may hit any round trip. *)

From S2P Require Import Prelude GoLang GoUtf8 GoJson.

(** ** Rows (migrations/0001_initial.up.sql, migrations/0002_sniffer_state.up.sql) *)

(** The enum [job_status]. *)
Inductive job_status : Set := Pending | Leased | Succeeded | Skipped | Dead.

#[export] Instance job_status_eq_dec : EqDecision job_status.
Proof. solve_decision. Defined.

Definition status_text (s : job_status) : string :=
  match s with
  | Pending => "pending"
  | Leased => "leased"
  | Succeeded => "succeeded"
  | Skipped => "skipped"
  | Dead => "dead"
  end.

Definition terminal (s : job_status) : bool :=
  match s with
  | Succeeded | Skipped | Dead => true
  | Pending | Leased => false
  end.

(** A row of [transfer_jobs]. Timestamps are microseconds (TIMESTAMPTZ). *)
Record transfer_job := {
  id : Z;
  trace_id : string;
  src : string;
  dst : string;
  src_protocol : string;
  dst_protocol : string;
  payload : string;
  status : job_status;
  attempts : Z;
  max_attempts : Z;
  locked_at : option Z;
  locked_by : option string;
  next_run_at : Z;
  created_at : Z;
  updated_at : Z;
}.

(** The values the CHECK on [transfer_events.status] admits. *)
Inductive event_status : Set :=
| EvEnqueue | EvLease | EvSuccess | EvSkip | EvFail | EvExpire | EvDead.

#[export] Instance event_status_eq_dec : EqDecision event_status.
Proof. solve_decision. Defined.

Record transfer_event := {
  ev_id : Z;
  ev_trace_id : string;
  ev_job_id : Z;
  ev_ts : Z;
  ev_status : event_status;
  ev_detail : jsonb;
}.

(** A row of [sniffer_state]. *)
Record sniffer_row := {
  last_run_ts : Z;
  last_run_pk : option string;
  state_updated_at : Z;
}.

(** The tables and the two BIGSERIAL sequences (the next value of each). *)
Record tables := {
  jobs : gmap Z transfer_job;
  jobs_seq : Z;
  events : list transfer_event;
  events_seq : Z;
  sniffer_state : gmap string sniffer_row;
}.

Definition empty_tables : tables := {|
  jobs := ∅; jobs_seq := 1; events := []; events_seq := 1; sniffer_state := ∅
|}.

Definition set_jobs (m : gmap Z transfer_job) (t : tables) : tables := {|
  jobs := m; jobs_seq := jobs_seq t; events := events t; events_seq := events_seq t;
  sniffer_state := sniffer_state t
|}.

Definition set_sniffer_state (m : gmap string sniffer_row) (t : tables) : tables := {|
  jobs := jobs t; jobs_seq := jobs_seq t; events := events t; events_seq := events_seq t;
  sniffer_state := m
|}.

(** ** SQL clauses *)

(** The order in which PostgreSQL visits the rows of a table when a statement has
    no ORDER BY: any order, without repetition. *)
Class ScanOrder := {
  scan : gmap Z transfer_job → list transfer_job;
  scan_perm : ∀ m, scan m ≡ₚ (map_to_list m).*2;
}.

#[export] Instance key_order_scan : ScanOrder | 100 :=
  {| scan := λ m, (map_to_list m).*2; scan_perm := λ m, reflexivity _ |}.

(** [UPDATE transfer_jobs SET f WHERE p]. *)
Definition update_jobs (p : transfer_job → bool) (f : transfer_job → transfer_job)
    (t : tables) : tables :=
  set_jobs ((λ r, if p r then f r else r) <$> jobs t) t.

(** [UPDATE transfer_jobs SET f WHERE id=i AND p RETURNING ...]: the row before
    the update, when it matched. *)
Definition update_one (i : Z) (p : transfer_job → bool) (f : transfer_job → transfer_job)
    (t : tables) : option transfer_job * tables :=
  match jobs t !! i with
  | Some r => if p r then (Some r, set_jobs (<[i := f r]> (jobs t)) t) else (None, t)
  | None => (None, t)
  end.

(** [INSERT INTO transfer_events (trace_id, job_id, status, detail)]. *)
Definition push_event (ts : Z) (tid : string) (jid : Z) (st : event_status) (d : jsonb)
    (t : tables) : tables := {|
  jobs := jobs t; jobs_seq := jobs_seq t;
  events := events t ++ [{| ev_id := events_seq t; ev_trace_id := tid; ev_job_id := jid;
                            ev_ts := ts; ev_status := st; ev_detail := d |}];
  events_seq := events_seq t + 1;
  sniffer_state := sniffer_state t
|}.

(** A new row with the column defaults of the schema. *)
Definition new_job (ts i : Z) (tid s d sp dp pl : string) (ma : Z) : transfer_job := {|
  id := i; trace_id := tid; src := s; dst := d; src_protocol := sp; dst_protocol := dp;
  payload := pl; status := Pending; attempts := 0; max_attempts := ma;
  locked_at := None; locked_by := None; next_run_at := ts; created_at := ts; updated_at := ts
|}.

Definition same_key (tid d : string) (r : transfer_job) : bool :=
  bool_decide (trace_id r = tid) && bool_decide (dst r = d).

(** [SELECT id FROM transfer_jobs WHERE trace_id=tid AND dst=d]: the UNIQUE
    constraint admits at most one row. *)
Definition find_key `{ScanOrder} (tid d : string) (t : tables) : option transfer_job :=
  List.find (same_key tid d) (scan (jobs t)).

(** [INSERT INTO transfer_jobs ... ON CONFLICT (trace_id, dst) DO NOTHING
    RETURNING id]. The sequence advances whether or not the row conflicts. *)
Definition insert_job `{ScanOrder} (ts : Z) (tid s d sp dp pl : string) (ma : Z)
    (t : tables) : option Z * tables :=
  let i := jobs_seq t in
  let t' m := {| jobs := m; jobs_seq := i + 1; events := events t;
                 events_seq := events_seq t; sniffer_state := sniffer_state t |} in
  match find_key tid d t with
  | Some _ => (None, t' (jobs t))
  | None => (Some i, t' (<[i := new_job ts i tid s d sp dp pl ma]> (jobs t)))
  end.

(** [DELETE FROM transfer_jobs WHERE id IN ids], with the ON DELETE CASCADE of
    [transfer_events.job_id]. *)
Definition delete_jobs (ids : list Z) (t : tables) : tables := {|
  jobs := filter (λ '(i, _), i ∉ ids) (jobs t);
  jobs_seq := jobs_seq t;
  events := filter (λ e, ev_job_id e ∉ ids) (events t);
  events_seq := events_seq t;
  sniffer_state := sniffer_state t
|}.

(** ** Sessions *)

(** What a statement sees besides the tables: NOW() (the start of its
    transaction), the rows other transactions hold locked, and the advisory-lock
    keys other sessions hold. *)
Record session_env := {
  now : Z;
  row_locks : gset Z;
  adv_busy : string → bool;
}.

Definition stmt (A : Type) : Type := session_env → tables → (error + A) * tables.

(** What may go wrong on one round trip: nothing, the request is lost before the
    server acts on it, or the server acts on it and the reply is lost. *)
Inductive fault := FOk | FLost (e : error) | FReplyLost (e : error).

Record pg := {
  env : session_env;
  tabs : tables;
  tx : option tables;
  script : list fault;
}.

Definition with_tabs (t : tables) (s : pg) : pg :=
  {| env := env s; tabs := t; tx := tx s; script := script s |}.
Definition with_tx (o : option tables) (s : pg) : pg :=
  {| env := env s; tabs := tabs s; tx := o; script := script s |}.

Definition next_fault : M pg fault := λ s,
  match script s with
  | [] => (Ret FOk, s)
  | f :: fs => (Ret f, {| env := env s; tabs := tabs s; tx := tx s; script := fs |})
  end.

(** Undone work leaves the sequences where they are. *)
Definition rolled_back (before after : tables) : tables := {|
  jobs := jobs before; jobs_seq := jobs_seq after; events := events before;
  events_seq := events_seq after; sniffer_state := sniffer_state before
|}.

(** [pool.Exec] / [pool.QueryRow]: one statement, its own transaction. *)
Definition exec {A} (q : stmt A) : M pg (error + A) :=
  f ← next_fault;
  action (λ s,
    match f with
    | FLost e => (Ret (inl e), s)
    | _ =>
        match q (env s) (tabs s) with
        | (inl e, t') => (Ret (inl e), with_tabs (rolled_back (tabs s) t') s)
        | (inr a, t') =>
            (Ret (match f with FReplyLost e => inl e | _ => inr a end), with_tabs t' s)
        end
    end).

(** [pool.Begin]. *)
Definition begin_tx : M pg (option error) :=
  f ← next_fault;
  action (λ s,
    match f with
    | FOk => (Ret None, with_tx (Some (tabs s)) s)
    | FLost e | FReplyLost e => (Ret (Some e), s)
    end).

(** [tx.Exec] / [tx.QueryRow]: runs on the working copy; a failed statement aborts
    the transaction, so its effect on the copy is dropped. *)
Definition exec_tx {A} (q : stmt A) : M pg (error + A) :=
  f ← next_fault;
  action (λ s,
    match f, tx s with
    | FOk, Some t =>
        match q (env s) t with
        | (inl e, t') => (Ret (inl e), with_tx (Some (rolled_back t t')) s)
        | (inr a, t') => (Ret (inr a), with_tx (Some t') s)
        end
    | FOk, None => (Ret (inl (EOpaque "tx is closed")), s)
    | FLost e, _ | FReplyLost e, _ => (Ret (inl e), s)
    end).

(** [tx.Commit]. *)
Definition commit_tx : M pg (option error) :=
  f ← next_fault;
  action (λ s,
    match tx s with
    | None => (Ret (Some (EOpaque "tx is closed")), s)
    | Some t =>
        match f with
        | FOk => (Ret None, with_tx None (with_tabs t s))
        | FLost e => (Ret (Some e), with_tx None (with_tabs (rolled_back (tabs s) t) s))
        | FReplyLost e => (Ret (Some e), with_tx None (with_tabs t s))
        end
    end).

(** [defer func() { _ = tx.Rollback(ctx) }()]: a no-op once the tx is closed. *)
Definition rollback_tx : M pg unit := λ s,
  match tx s with
  | None => (Ret tt, s)
  | Some t => (Ret tt, with_tx None (with_tabs (rolled_back (tabs s) t) s))
  end.

(** The tables once the deferred rollback has run. *)
Definition settled (s : pg) : tables :=
  match tx s with
  | None => tabs s
  | Some t => rolled_back (tabs s) t
  end.

(** Nothing happened, except that a sequence may have advanced. *)
Definition undone (t t' : tables) : Prop :=
  t' = rolled_back t t' ∧ (jobs_seq t <= jobs_seq t')%Z.

(** [SELECT pg_try_advisory_xact_lock(hashtext(key))]. *)
Definition try_advisory_xact_lock (key : string) : stmt bool :=
  λ e t, (inr (negb (adv_busy e key)), t).

(** What the server says of a text no JSONB column takes. *)
Definition json_refused : error := EOpaque "invalid input syntax for type json".

(** What a TEXT column takes: UTF-8 without NUL. *)
Definition pg_text (s : string) : bool := utf8_valid s && nul_free s.

(** A plain event INSERT: the column [detail] reads the text [txt], and [job_id] has a
    foreign key. *)
Definition insert_event (tid : string) (jid : Z) (st : event_status) (txt : string) : stmt unit :=
  λ e t,
    match jsonb_in txt with
    | None => (inl json_refused, t)
    | Some d =>
        match jobs t !! jid with
        | Some _ => (inr tt, push_event (now e) tid jid st d t)
        | None => (inl (EOpaque "insert violates foreign key constraint"), t)
        end
    end.

(** ** Lemmas on the clauses *)

Lemma elem_of_scan `{ScanOrder} m r : r ∈ scan m ↔ ∃ i, m !! i = Some r.
Proof.
  rewrite scan_perm, list_elem_of_fmap. split.
  - intros ([i r'] & -> & Hin%elem_of_map_to_list). by exists i.
  - intros [i Hi]. exists (i, r). split; [done|]. by apply elem_of_map_to_list.
Qed.

Lemma length_scan `{ScanOrder} m : length (scan m) = size m.
Proof. by rewrite scan_perm, length_fmap, length_map_to_list. Qed.

Lemma same_key_true tid d r : same_key tid d r = true ↔ trace_id r = tid ∧ dst r = d.
Proof. unfold same_key. by rewrite andb_true_iff, !bool_decide_eq_true. Qed.

Lemma length_filter_scan `{ScanOrder} (p : transfer_job → bool) (P : transfer_job → Prop)
    `{!∀ r, Decision (P r)} m :
  (∀ r, p r = true ↔ P r) →
  length (List.filter p (scan m)) = size (filter (λ '(_, r), P r) m).
Proof.
  intros Hp. rewrite (length_filter_perm p _ _ (scan_perm m)).
  induction m as [|i r m Hi IH] using map_ind; [done|].
  rewrite (length_filter_perm p _ _ (fmap_Permutation snd _ _ (map_to_list_insert m i r Hi))). simpl.
  destruct (p r) eqn:E.
  - apply Hp in E. rewrite map_filter_insert_True by done. simpl.
    rewrite map_size_insert_None by (by rewrite map_lookup_filter, Hi). f_equal. exact IH.
  - assert (¬ P r) as Hn by (rewrite <- Hp; by destruct (p r)).
    rewrite map_filter_insert_not'; [exact IH|done|]. intros r' Hr'. congruence.
Qed.

Lemma find_key_Some `{ScanOrder} tid d t r :
  find_key tid d t = Some r → ∃ i, jobs t !! i = Some r ∧ trace_id r = tid ∧ dst r = d.
Proof.
  unfold find_key. intros [Hin Hk]%find_some.
  apply list_elem_of_In, elem_of_scan in Hin as [i Hi].
  apply same_key_true in Hk as [? ?]. eauto.
Qed.

Lemma find_key_None `{ScanOrder} tid d t i r :
  find_key tid d t = None → jobs t !! i = Some r → trace_id r = tid → dst r = d → False.
Proof.
  unfold find_key. intros Hn Hi Ht Hd.
  assert (same_key tid d r = false) as Hk.
  { apply (find_none _ _ Hn). apply list_elem_of_In, elem_of_scan. by exists i. }
  assert (same_key tid d r = true) by (by apply same_key_true). congruence.
Qed.

(** The UNIQUE constraint makes the answer of [find_key] the row of the key. *)
Lemma find_key_is `{ScanOrder} tid d t i r :
  (∀ i1 i2 r1 r2, jobs t !! i1 = Some r1 → jobs t !! i2 = Some r2 →
     trace_id r1 = trace_id r2 → dst r1 = dst r2 → i1 = i2) →
  jobs t !! i = Some r → trace_id r = tid → dst r = d → find_key tid d t = Some r.
Proof.
  intros Hu Hi Ht Hd. destruct (find_key tid d t) as [r'|] eqn:E.
  - apply find_key_Some in E as (i' & Hi' & ? & ?).
    assert (i' = i) by (eapply Hu; eauto; congruence). congruence.
  - by destruct (find_key_None tid d t i r E Hi Ht Hd).
Qed.

Lemma update_one_Some i p f t r t' :
  update_one i p f t = (Some r, t') →
  jobs t !! i = Some r ∧ p r = true ∧ t' = set_jobs (<[i := f r]> (jobs t)) t.
Proof. unfold update_one. intros E. repeat case_match; by simplify_eq. Qed.

Lemma update_one_None i p f t t' :
  update_one i p f t = (None, t') → t' = t ∧ ∀ r, jobs t !! i = Some r → p r = false.
Proof. unfold update_one. intros E. repeat case_match; simplify_eq; naive_solver. Qed.

Lemma update_one_hit i p f t r :
  jobs t !! i = Some r → p r = true →
  update_one i p f t = (Some r, set_jobs (<[i := f r]> (jobs t)) t).
Proof. intros Hi Hp. unfold update_one. by rewrite Hi, Hp. Qed.

Lemma update_one_miss i p f t :
  (∀ r, jobs t !! i = Some r → p r = false) → update_one i p f t = (None, t).
Proof.
  intros Hm. unfold update_one. destruct (jobs t !! i) as [r|] eqn:E; [|done].
  by rewrite (Hm r eq_refl).
Qed.

Lemma jobs_delete ids t i :
  jobs (delete_jobs ids t) !! i = if decide (i ∈ ids) then None else jobs t !! i.
Proof.
  simpl. rewrite map_lookup_filter. destruct (jobs t !! i) as [r|]; simpl; case_decide.
  - by rewrite option_guard_False by naive_solver.
  - by rewrite option_guard_True.
  - done.
  - done.
Qed.

(** ** Sessions: what one round trip does *)

Lemma next_fault_run s : ∃ f s',
  next_fault s = (Ret f, s') ∧ env s' = env s ∧ tabs s' = tabs s ∧ tx s' = tx s ∧
  script s' = tail (script s) ∧ (f = FOk ∨ script s ≠ []).
Proof.
  unfold next_fault. destruct (script s) as [|f fs] eqn:E; eexists _, _; (split; [done|]);
    repeat split; auto.
Qed.

(** An autocommit statement always returns; the tables become what the statement
    makes of them, or stay as they were up to the sequences. *)
Lemma exec_run {A} (q : stmt A) s : ∃ r s',
  exec q s = (Ret r, s') ∧ env s' = env s ∧ tx s' = tx s ∧ script s' = tail (script s) ∧
  ((∃ a, q (env s) (tabs s) = (inr a, tabs s') ∧
         (r = inr a ∨ (script s ≠ [] ∧ ∃ e, r = inl e)))
   ∨ (script s ≠ [] ∧ tabs s' = tabs s ∧ ∃ e, r = inl e)
   ∨ (∃ e t', q (env s) (tabs s) = (inl e, t') ∧ r = inl e ∧ tabs s' = rolled_back (tabs s) t')).
Proof.
  destruct (next_fault_run s) as (f & s1 & Ef & He & Ht & Hx & Hs & Hf).
  unfold exec, mbind, M_bind. rewrite Ef. unfold action. rewrite He, Ht.
  destruct f as [|e|e];
    [|eexists _, _; split; [done|]; naive_solver|];
    destruct (q (env s) (tabs s)) as [[e'|a] t'] eqn:Eq;
    eexists _, _; (split; [done|]); simpl; naive_solver.
Qed.

Lemma begin_tx_run s : ∃ r s',
  begin_tx s = (Ret r, s') ∧ env s' = env s ∧ tabs s' = tabs s ∧ script s' = tail (script s) ∧
  ((r = None ∧ tx s' = Some (tabs s)) ∨ (script s ≠ [] ∧ tx s' = tx s ∧ ∃ e, r = Some e)).
Proof.
  destruct (next_fault_run s) as (f & s1 & Ef & He & Ht & Hx & Hs & Hf).
  unfold begin_tx, mbind, M_bind. rewrite Ef. unfold action.
  destruct f as [|e|e]; eexists _, _; (split; [done|]); simpl;
    [rewrite Ht; by auto 10|destruct Hf as [?|Hf]; [done|]; repeat (split; [done|]); right; by eauto..].
Qed.

(** A statement of an open transaction changes the working copy only. *)
Lemma exec_tx_run {A} (q : stmt A) s t : tx s = Some t → ∃ r s',
  exec_tx q s = (Ret r, s') ∧ env s' = env s ∧ tabs s' = tabs s ∧ script s' = tail (script s) ∧
  ((∃ a t', q (env s) t = (inr a, t') ∧ r = inr a ∧ tx s' = Some t')
   ∨ (script s ≠ [] ∧ tx s' = Some t ∧ ∃ e, r = inl e)
   ∨ (∃ e t', q (env s) t = (inl e, t') ∧ r = inl e ∧ tx s' = Some (rolled_back t t'))).
Proof.
  intros Htx. destruct (next_fault_run s) as (f & s1 & Ef & He & Ht & Hx & Hs & Hf).
  unfold exec_tx, mbind, M_bind. rewrite Ef. unfold action. rewrite Hx, Htx, He.
  destruct f as [|e|e];
    [|eexists _, _; (split; [done|]); destruct Hf as [?|Hf]; [done|]; rewrite Hx, Htx; eauto 10..].
  destruct (q (env s) t) as [[e'|a] t'] eqn:Eq;
    eexists _, _; (split; [done|]); simpl; eauto 15.
Qed.

Lemma commit_tx_run s t : tx s = Some t → ∃ r s',
  commit_tx s = (Ret r, s') ∧ env s' = env s ∧ tx s' = None ∧ script s' = tail (script s) ∧
  ((r = None ∧ tabs s' = t)
   ∨ (script s ≠ [] ∧ (tabs s' = t ∨ tabs s' = rolled_back (tabs s) t) ∧ ∃ e, r = Some e)).
Proof.
  intros Htx. destruct (next_fault_run s) as (f & s1 & Ef & He & Ht & Hx & Hs & Hf).
  unfold commit_tx, mbind, M_bind. rewrite Ef. unfold action. rewrite Hx, Htx, Ht.
  destruct f as [|e|e]; eexists _, _; (split; [done|]); simpl;
    [by auto 10|destruct Hf as [?|Hf]; [done|]; repeat (split; [done|]); right; by eauto 10..].
Qed.

Lemma rollback_tx_run s : ∃ s',
  rollback_tx s = (Ret tt, s') ∧ env s' = env s ∧ tx s' = None ∧ script s' = script s ∧
  tabs s' = settled s.
Proof. unfold rollback_tx, settled. destruct (tx s) eqn:E; eexists; (split; [done|]); done. Qed.

(** Without failures an autocommit statement just runs. *)
Lemma exec_ok {A} (q : stmt A) s r t' :
  script s = [] → q (env s) (tabs s) = (inr r, t') → exec q s = (Ret (inr r), with_tabs t' s).
Proof.
  intros Hs Eq. unfold exec, mbind, M_bind, next_fault. rewrite Hs. unfold action. by rewrite Eq.
Qed.

(** The body of a transaction, then the deferred rollback. *)
Lemma defer_rollback_run {A} (m : M pg A) s r s1 :
  m s = (r, s1) → ∃ s', defer rollback_tx m s = (r, s') ∧ env s' = env s1 ∧ tx s' = None ∧
    script s' = script s1 ∧ tabs s' = settled s1.
Proof.
  intros E. destruct (rollback_tx_run s1) as (s' & Er & He & Hx & Hs & Ht).
  exists s'. unfold defer. rewrite E, Er. auto.
Qed.

Lemma rolled_back_idem t t' : rolled_back t (rolled_back t t') = rolled_back t t'.
Proof. done. Qed.

Lemma rolled_back_refl t : rolled_back t t = t.
Proof. by destruct t. Qed.

#[export] Hint Resolve rolled_back_idem rolled_back_refl : imgsync.

Lemma undone_refl t : undone t t.
Proof. split; [by destruct t|lia]. Qed.

Lemma undone_rolled_back t u : (jobs_seq t <= jobs_seq u)%Z → undone t (rolled_back t u).
Proof. by split. Qed.

Lemma undone_settled s t u :
  tabs s = t → tx s = Some u → (jobs_seq t <= jobs_seq u)%Z → undone t (settled s).
Proof. intros <- Hx Hle. unfold settled. rewrite Hx. by apply undone_rolled_back. Qed.

Lemma undone_jobs t t' : undone t t' → jobs t' = jobs t ∧ events t' = events t.
Proof. intros [-> _]. done. Qed.

#[export] Hint Resolve undone_refl undone_rolled_back undone_settled : imgsync.
