(* ===== verification/Transfer.v ===== *)
(** * Streaming interfaces (internal/transfer/interfaces.go)

    [io.Reader] as a class, the two interfaces [Source] and [Transport] the worker
    drives, and the byte counter of internal/worker/process.go. *)

From Stdlib Require Import Init.Byte.
From S2P Require Import Prelude GoLang.

Definition bytes : Type := list byte.

(** ** io.Reader *)

(** [read n r]: one call [r.Read(p)] with [len(p) = n], the bytes it stored in
    [p[:k]], the error it returned, and the reader afterwards. Streams are finite:
    every call that returns no error brings the stream closer to its end. *)
Class Reader (R : Type) := {
  read : nat → R → bytes * option error * R;
  remaining : R → nat;
  read_bounded : ∀ n r b e r', read n r = (b, e, r') → length b ≤ n;
  read_progress : ∀ n r b r', read n r = (b, None, r') → remaining r' < remaining r;
}.

(** A reader given by the results of its successive calls; a buffer smaller than
    a chunk takes a part of it. After the last chunk it reports EOF for good. *)
Inductive chunk := Chunk (b : bytes) (e : option error).

Definition chunk_read (n : nat) (l : list chunk) : bytes * option error * list chunk :=
  match l with
  | [] => ([], Some (ESentinel IoEOF), [])
  | Chunk b e :: l' =>
      if decide (length b ≤ n) then (b, e, l')
      else match n with
           | 0 => ([], Some (EOpaque "short buffer"), l)
           | _ => (take n b, None, Chunk (drop n b) e :: l')
           end
  end.

Definition chunk_weight (l : list chunk) : nat :=
  sum_list_with (λ '(Chunk b _), S (length b)) l.

#[export, refine] Instance chunk_reader : Reader (list chunk) := {|
  read := chunk_read; remaining := chunk_weight
|}.
Proof.
  - intros n [|[b e] l] b' e' r' H; simpl in H; simplify_eq; [simpl; lia|].
    case_decide; simplify_eq; [done|]. destruct n; simplify_eq; [simpl; lia|].
    rewrite length_take. lia.
  - intros n [|[b e] l] b' r' H; simpl in H; simplify_eq.
    case_decide; simplify_eq; [simpl; lia|]. destruct n; simplify_eq.
    unfold chunk_weight; simpl. rewrite length_drop. lia.
Defined.

(** ** The byte counter of the worker (internal/worker/process.go) *)

(** [type counter struct { r io.Reader; n int64 }]. *)
Record counter (R : Type) := Counter { counter_r : R; counter_n : Z }.
Arguments Counter {R} _ _.
Arguments counter_r {R} _.
Arguments counter_n {R} _.

(** [func (c *counter) Read]. *)
Definition counter_read {R} `{Reader R} (n : nat) (c : counter R)
    : bytes * option error * counter R :=
  let '(b, e, r') := read n (counter_r c) in
  (b, e, Counter r' (counter_n c + Z.of_nat (length b))%Z).

#[export, refine] Instance counter_reader {R} `{Reader R} : Reader (counter R) := {|
  read := counter_read; remaining := λ c, remaining (counter_r c)
|}.
Proof.
  - intros n c b e c' Hr. unfold counter_read in Hr.
    destruct (read n (counter_r c)) as [[b0 e0] r0] eqn:E. simplify_eq.
    by eapply read_bounded.
  - intros n c b c' Hr. unfold counter_read in Hr.
    destruct (read n (counter_r c)) as [[b0 e0] r0] eqn:E. simplify_eq. simpl.
    by eapply read_progress.
Defined.

(** ** Sources and transports (internal/transfer/interfaces.go) *)

(** [Source]: [Open] gives a body and the size the source reports (-1 when it is
    unknown), or an error. The body is an [io.ReadCloser]: [Close] is its method. *)
Record Source (W : Type) := MkSource {
  Body : Type;
  Body_reader : Reader Body;
  Open : string → M W (error + Body * Z);
  Close : Body → M W (option error);
}.
Arguments Body {W} _.
Arguments Body_reader {W} _.
Arguments Open {W} _ _.
Arguments Close {W} _ _.
#[export] Existing Instance Body_reader.

(** [Transport]: [Send] consumes whatever reader it is given and returns the bytes
    written and the hex digest, or an error, or panics; in each case the caller
    keeps the reader in the state [Send] left it in. *)
Record Transport (W : Type) := MkTransport {
  Send_fn : ∀ R, Reader R → string → R → Z → W → (res (error + Z * string) * R) * W;
}.
Arguments MkTransport {W} _.
Arguments Send_fn {W} _ {R} {_} _ _ _ _.

Definition Send {W R} `{Reader R} (t : Transport W) (dst : string) (body : R) (srcSize : Z)
    : M W (res (error + Z * string) * R) :=
  λ w, let '(x, w') := Send_fn t dst body srcSize w in (Ret x, w').
