(* ===== verification/GoSha.v ===== *)
(** * crypto/sha256 and encoding/hex

    SHA-256 (FIPS 180-4) on bytes, with words as integers below 2^32, and the hex
    text of the digest that the transports report. *)

From Stdlib Require Import Ascii Init.Byte.
From S2P Require Import Prelude GoLang Transfer.

Local Open Scope Z_scope.

(** ** Words *)

Definition w32 (z : Z) : Z := Z.land z 0xffffffff.
Definition add32 (a b : Z) : Z := w32 (a + b).
Definition rotr (n x : Z) : Z := Z.lor (Z.shiftr x n) (w32 (Z.shiftl x (32 - n))).
Definition not32 (x : Z) : Z := Z.lxor x 0xffffffff.

Definition Ch (x y z : Z) : Z := Z.lxor (Z.land x y) (Z.land (not32 x) z).
Definition Maj (x y z : Z) : Z := Z.lxor (Z.lxor (Z.land x y) (Z.land x z)) (Z.land y z).
Definition Sigma0 (x : Z) : Z := Z.lxor (Z.lxor (rotr 2 x) (rotr 13 x)) (rotr 22 x).
Definition Sigma1 (x : Z) : Z := Z.lxor (Z.lxor (rotr 6 x) (rotr 11 x)) (rotr 25 x).
Definition sigma0 (x : Z) : Z := Z.lxor (Z.lxor (rotr 7 x) (rotr 18 x)) (Z.shiftr x 3).
Definition sigma1 (x : Z) : Z := Z.lxor (Z.lxor (rotr 17 x) (rotr 19 x)) (Z.shiftr x 10).

(** The constants: the first 32 bits of the fractional parts of the cube roots of the
    first 64 primes, and of the square roots of the first eight. *)
Definition is_prime (n : Z) : bool := forallb (λ d, negb (n mod d =? 0)) (seqZ 2 (n - 2)).

Definition primes_to (m : Z) : list Z := filter (λ n, is_prime n = true) (seqZ 2 (m - 1)).

(** The integer part of the [k]-th root of [n], below [2 ^ bits]. *)
Fixpoint root_bits (k n : Z) (bits : nat) (r : Z) : Z :=
  match bits with
  | O => r
  | S b =>
      let r' := r + 2 ^ Z.of_nat b in
      root_bits k n b (if r' ^ k <=? n then r' else r)
  end.

Definition root_fraction (k p : Z) : Z := w32 (root_bits k (p * 2 ^ (32 * k)) 40 0).

Definition sha_K : list Z := Eval vm_compute in root_fraction 3 <$> primes_to 311.

Definition sha_H0 : list Z := Eval vm_compute in root_fraction 2 <$> primes_to 19.

(** ** Blocks *)

Definition byte_val (b : byte) : Z := Z.of_N (Byte.to_N b).
Definition val_byte (z : Z) : byte := default x00 (Byte.of_N (Z.to_N (z mod 256))).

(** The [n] low bytes of [z], most significant first. *)
Fixpoint be_bytes (n : nat) (z : Z) : bytes :=
  match n with
  | O => []
  | S n' => be_bytes n' (z / 256) ++ [val_byte z]
  end.

Definition be_word (l : bytes) : Z := fold_left (λ z b, 256 * z + byte_val b) l 0.

(** One bit, zeros up to 56 modulo 64, and the length in bits. *)
Definition sha_pad (m : bytes) : bytes :=
  let n := Z.of_nat (length m) in
  m ++ x80 :: repeat x00 (Z.to_nat ((55 - n) mod 64)) ++ be_bytes 8 (8 * n).

(** [n] groups of [k] bytes. *)
Fixpoint groups (k n : nat) (l : bytes) : list bytes :=
  match n with
  | O => []
  | S n' => take k l :: groups k n' (drop k l)
  end.

(** The message schedule, newest word first: [n] more words. *)
Fixpoint schedule (n : nat) (ws : list Z) : list Z :=
  match n with
  | O => ws
  | S n' =>
      let w i := nth i ws 0 in
      schedule n' (add32 (add32 (sigma1 (w 1%nat)) (w 6%nat)) (add32 (sigma0 (w 14%nat)) (w 15%nat)) :: ws)
  end.

Definition sha_round (s : list Z) (kw : Z * Z) : list Z :=
  match s with
  | [a; b; c; d; e; f; g; h] =>
      let t1 := add32 (add32 (add32 h (Sigma1 e)) (add32 (Ch e f g) kw.1)) kw.2 in
      let t2 := add32 (Sigma0 a) (Maj a b c) in
      [add32 t1 t2; a; b; c; add32 d t1; e; f; g]
  | _ => s
  end.

Definition sha_block (hs : list Z) (block : bytes) : list Z :=
  let ws := reverse (schedule 48 (reverse (be_word <$> groups 4 16 block))) in
  zip_with add32 hs (fold_left sha_round (zip sha_K ws) hs).

(** [sha256.Sum256]. *)
Definition sha256 (m : bytes) : bytes :=
  let p := sha_pad m in
  mjoin (be_bytes 4 <$> fold_left sha_block (groups 64 (length p / 64) p) sha_H0).

(** ** Hex *)

Definition hex_char (n : Z) : ascii := ascii_of_N (Z.to_N (if n <? 10 then 48 + n else 87 + n)).

(** [hex.EncodeToString]. *)
Fixpoint hex_encode (b : bytes) : string :=
  match b with
  | [] => EmptyString
  | x :: b' => String (hex_char (byte_val x / 16)) (String (hex_char (byte_val x mod 16)) (hex_encode b'))
  end.

Definition sha256_hex (m : bytes) : string := hex_encode (sha256 m).

(** ** Test vectors of FIPS 180-4 *)

Definition ascii_bytes (s : string) : bytes := byte_of_ascii <$> String.list_ascii_of_string s.

Example sha256_empty :
  sha256_hex [] = "e3b0c44298fc1c149afbf4c8996fb92427ae41e4649b934ca495991b7852b855".
Proof. vm_compute. reflexivity. Qed.

Example sha256_abc : sha256_hex (ascii_bytes "abc")
  = "ba7816bf8f01cfea414140de5dae2223b00361a396177a9cb410ff61f20015ad".
Proof. vm_compute. reflexivity. Qed.

Example sha256_two_blocks :
  sha256_hex (ascii_bytes "abcdbcdecdefdefgefghfghighijhijkijkljklmklmnlmnomnopnopq")
  = "248d6a61d20638b8e5c026930c3e6039a33ce45964ff2167f6ecedd419db06c1".
Proof. vm_compute. reflexivity. Qed.

(** ** The digest is always 64 characters *)

Lemma length_be_bytes n z : length (be_bytes n z) = n.
Proof. revert z. induction n as [|n IH]; intros z; simpl; [done|]. rewrite length_app, IH. simpl. lia. Qed.

Lemma length_sha_round s kw : length s = 8%nat → length (sha_round s kw) = 8%nat.
Proof. by do 9 (destruct s as [|? s]; try done). Qed.

Lemma length_sha_block hs b : length hs = 8%nat → length (sha_block hs b) = 8%nat.
Proof.
  intros Hh. unfold sha_block. rewrite length_zip_with, Hh.
  assert (∀ l s, length s = 8%nat → length (fold_left sha_round l s) = 8%nat) as ->; [|done..].
  induction l as [|kw l IH]; intros s Hs; simpl; [done|]. by apply IH, length_sha_round.
Qed.

Lemma length_hex b : String.length (hex_encode b) = (2 * length b)%nat.
Proof. induction b as [|x b IH]; simpl; [done|]. rewrite IH. lia. Qed.

Lemma sha256_hex_length m : String.length (sha256_hex m) = 64%nat.
Proof.
  unfold sha256_hex. rewrite length_hex. unfold sha256.
  assert (∀ l hs, length hs = 8%nat → length (fold_left sha_block l hs) = 8%nat) as Hf.
  { induction l as [|b l IH]; intros hs Hs; simpl; [done|]. by apply IH, length_sha_block. }
  specialize (Hf (groups 64 (length (sha_pad m) / 64) (sha_pad m)) sha_H0 eq_refl).
  set (hs := fold_left _ _ _) in *.
  assert (∀ l, length (mjoin (be_bytes 4 <$> l)) = (4 * length l)%nat) as ->; [|by rewrite Hf].
  induction l as [|x l IH]; [done|].
  change (mjoin (be_bytes 4 <$> x :: l)) with (be_bytes 4 x ++ mjoin (be_bytes 4 <$> l)).
  rewrite length_app, length_be_bytes, IH. simpl. lia.
Qed.
