(* ===== verification/Streams.v ===== *)
(** * Streams: io.Copy and the cancellable reader (internal/transfer/ctxreader.go)

    [io.Copy] as the loop of the standard library over any reader, and [ctxReader]
    with its in-flight read. Reading a stream to its end is the reference the copies
    are compared with. *)

From Stdlib Require Import Init.Byte.
From S2P Require Import Prelude GoLang Transfer.

(** ** Reading to the end *)

(** All bytes of the stream for calls with [n]-byte buffers, and the error that ended
    it. Every call that returns no error makes progress, so [remaining] calls and one
    more are enough. *)
Fixpoint drain_fuel {R} `{Reader R} (fuel n : nat) (r : R) : bytes * option error * R :=
  match fuel with
  | 0 => ([], None, r)
  | S fuel' =>
      match read n r with
      | (b, Some e, r') => (b, Some e, r')
      | (b, None, r') => let '(b', e, r'') := drain_fuel fuel' n r' in (b ++ b', e, r'')
      end
  end.

Definition drain {R} `{Reader R} (n : nat) (r : R) : bytes * option error * R :=
  drain_fuel (S (remaining r)) n r.

Lemma drain_fuel_enough {R} `{Reader R} f1 f2 n (r : R) :
  remaining r < f1 → remaining r < f2 → drain_fuel f1 n r = drain_fuel f2 n r.
Proof.
  revert f2 r. induction f1 as [|f1 IH]; intros [|f2] r H1 H2; [lia..|]. simpl.
  destruct (read n r) as [[b [e|]] r'] eqn:E; [done|]. apply read_progress in E.
  by rewrite (IH f2) by lia.
Qed.

Lemma drain_eq {R} `{Reader R} n (r : R) : drain n r =
  match read n r with
  | (b, Some e, r') => (b, Some e, r')
  | (b, None, r') => let '(b', e, r'') := drain n r' in (b ++ b', e, r'')
  end.
Proof.
  unfold drain at 1. simpl. destruct (read n r) as [[b [e|]] r'] eqn:E; [done|].
  apply read_progress in E. unfold drain. by rewrite (drain_fuel_enough _ (S (remaining r'))) by lia.
Qed.

(** A stream always ends: [drain] stops at an error (EOF included). *)
Lemma drain_ends {R} `{Reader R} n (r : R) : ∃ b e r', drain n r = (b, Some e, r').
Proof.
  remember (remaining r) as m eqn:Hm. revert r Hm.
  induction (lt_wf m) as [m _ IH]; intros r ->. rewrite drain_eq.
  destruct (read n r) as [[b [e|]] r'] eqn:E; [by eauto|]. apply read_progress in E.
  destruct (IH _ E r' eq_refl) as (b' & e & r'' & ->). eauto.
Qed.

(** ** io.Copy *)

(** [err == io.EOF]: identity, not [errors.Is]. *)
Definition is_EOF (e : error) : bool :=
  match e with ESentinel IoEOF => true | _ => false end.

(** EOF is how a copy ends well. *)
Definition hide_EOF (e : error) : option error := if is_EOF e then None else Some e.

(** The 32 KiB buffer of [io.Copy]. *)
Definition copy_buf : nat := 2 ^ 15.

(** [dst.Write(p)] on a writer with state [S]: bytes taken, error, new state. *)
Definition writer (S : Type) : Type := bytes → S → nat * option error * S.

(** One [Write] of the loop: the new count, the error, the writer afterwards. *)
Definition copy_write {S} (wr : writer S) (b : bytes) (written : Z) (s : S) : Z * option error * S :=
  match b with
  | [] => (written, None, s)
  | _ => let '(nw, ew, s') := wr b s in
         ((written + Z.of_nat nw)%Z,
          match ew with
          | Some e => Some e
          | None => if decide (nw = length b) then None else Some (EOpaque "short write")
          end, s')
  end.

(** The loop of [io.copyBuffer]: bytes written, error, reader and writer afterwards. *)
Fixpoint copy_loop {R S} `{Reader R} (fuel n : nat) (wr : writer S) (written : Z) (r : R) (s : S)
    : Z * option error * R * S :=
  match fuel with
  | 0 => (written, None, r, s)
  | Datatypes.S fuel' =>
      let '(b, er, r') := read n r in
      let '(written', ew, s') := copy_write wr b written s in
      match ew with
      | Some e => (written', Some e, r', s')
      | None =>
          match er with
          | None => copy_loop fuel' n wr written' r' s'
          | Some e =>
              (written', hide_EOF e, r', s')
          end
      end
  end.

(** [io.Copy(dst, src)]. *)
Definition Copy {R S} `{Reader R} (wr : writer S) (r : R) (s : S) : Z * option error * R * S :=
  copy_loop (Datatypes.S (remaining r)) copy_buf wr 0 r s.

(** ** ctxReader *)

(** What the context does at the k-th call of [Read]: [ctx.Err()] on entry, and the
    error when [ctx.Done()] wins the select. *)
Record ctx_env := { ctx_entry : nat → option error; ctx_select : nat → option error }.

(** [type ctxReader struct]: the wrapped reader, the result of an in-flight read that
    has not been collected, and the calls so far. *)
Record ctxReader (R : Type) := CtxReader {
  cr_env : ctx_env;
  cr_r : R;
  cr_pending : option (bytes * option error);
  cr_calls : nat;
}.
Arguments CtxReader {R} _ _ _ _.
Arguments cr_env {R} _.
Arguments cr_r {R} _.
Arguments cr_pending {R} _.
Arguments cr_calls {R} _.

(** [func NewCtxReader]. *)
Definition NewCtxReader {R} (env : ctx_env) (r : R) : ctxReader R := CtxReader env r None 0.

(** [func (c *ctxReader) Read]. The read a call finds or starts completes sooner or
    later: its result is in [cr_pending] unless this call collects it; a smaller
    buffer takes a prefix of it. *)
Definition ctx_read {R} `{Reader R} (n : nat) (c : ctxReader R) : bytes * option error * ctxReader R :=
  let k := cr_calls c in
  match ctx_entry (cr_env c) k with
  | Some e => ([], Some e, CtxReader (cr_env c) (cr_r c) (cr_pending c) (S k))
  | None =>
      let '(res, r') := match cr_pending c with
                        | Some res => (res, cr_r c)
                        | None => let '(b, e, r') := read n (cr_r c) in ((b, e), r')
                        end in
      match ctx_select (cr_env c) k with
      | None => (take n res.1, res.2, CtxReader (cr_env c) r' None (S k))
      | Some e => ([], Some e, CtxReader (cr_env c) r' (Some res) (S k))
      end
  end.

#[export, refine] Instance ctx_reader {R} `{Reader R} : Reader (ctxReader R) := {|
  read := ctx_read;
  remaining := λ c, 2 * remaining (cr_r c) + (if cr_pending c then 1 else 0)
|}.
Proof.
  - intros n c b e c' E. unfold ctx_read in E. destruct (ctx_entry _ _); [simplify_eq; simpl; lia|].
    destruct (match cr_pending c with Some res => (res, cr_r c) | None => _ end) as [res r'].
    destruct (ctx_select _ _); simplify_eq; [simpl; lia|]. rewrite length_take. lia.
  - intros n c b c' E. unfold ctx_read in E. destruct (ctx_entry _ _); [done|].
    destruct (cr_pending c) as [res|] eqn:Ep.
    + destruct (ctx_select _ _); simplify_eq. simpl. lia.
    + destruct (read n (cr_r c)) as [[b0 e0] r0] eqn:Er. destruct (ctx_select _ _); simplify_eq.
      simpl in *. apply read_progress in Er. lia.
Defined.

(** A context that is never done. *)
Definition background : ctx_env := {| ctx_entry := λ _, None; ctx_select := λ _, None |}.

(** ** Lemmas *)

Lemma ctx_read_background {R} `{Reader R} n (r : R) k :
  ctx_read n (CtxReader background r None k) =
  let '(b, e, r') := read n r in (b, e, CtxReader background r' None (S k)).
Proof.
  unfold ctx_read. simpl. destruct (read n r) as [[b e] r'] eqn:E. simpl.
  apply read_bounded in E. by rewrite take_ge.
Qed.

(** A writer that accepts everything it is given and appends it. *)
Definition appends {S} (wr : writer S) (app : bytes → S → S) : Prop :=
  ∀ b s, wr b s = (length b, None, app b s).

Lemma copy_loop_drain {R S} `{Reader R} (wr : writer S) app n fuel z (r : R) s :
  appends wr app → (∀ b1 b2 s, app b2 (app b1 s) = app (b1 ++ b2) s) → (∀ s, app [] s = s) →
  remaining r < fuel →
  copy_loop fuel n wr z r s =
  let '(b, e, r') := drain n r in
  ((z + Z.of_nat (length b))%Z,
   e ≫= hide_EOF, r', app b s).
Proof.
  intros Hwr Happ Hnil. revert z r s. induction fuel as [|fuel IH]; intros z r s Hf; [lia|].
  rewrite drain_eq. simpl.
  destruct (read n r) as [[b er] r'] eqn:E.
  assert (copy_write wr b z s = ((z + Z.of_nat (length b))%Z, None, app b s)) as Ew.
  { unfold copy_write. destruct b as [|x b]; [rewrite Hnil; simpl; by rewrite Z.add_0_r|].
    rewrite Hwr. by rewrite decide_True. }
  rewrite Ew. destruct er as [e|].
  - done.
  - apply read_progress in E. rewrite IH by lia. destruct (drain n r') as [[b' e'] r''].
    rewrite length_app, Happ. do 3 f_equal. lia.
Qed.

(** The rest of the stream behind a [ctxReader], its in-flight read included. *)
Definition behind {R} `{Reader R} (n : nat) (c : ctxReader R) : bytes * option error :=
  match cr_pending c with
  | None => let '(b, e, _) := drain n (cr_r c) in (b, e)
  | Some (b, Some e) => (b, Some e)
  | Some (b, None) => let '(b', e, _) := drain n (cr_r c) in (b ++ b', e)
  end.

(** The errors of a context are not EOF. *)
Definition ctx_errors (env : ctx_env) : Prop := ∀ k e,
  ctx_entry env k = Some e ∨ ctx_select env k = Some e → is_EOF e = false.

(** Through a [ctxReader] one sees a prefix of the stream, all of it unless the
    context cut it short. *)
Lemma ctx_drain_prefix {R} `{Reader R} n (c : ctxReader R) b e c' :
  ctx_errors (cr_env c) → (∀ pb pe, cr_pending c = Some (pb, pe) → length pb ≤ n) →
  drain n c = (b, Some e, c') →
  b `prefix_of` (behind n c).1 ∧ (is_EOF e = true → behind n c = (b, Some e)).
Proof.
  remember (remaining c) as m eqn:Hm. revert c b Hm.
  induction (lt_wf m) as [m _ IH]; intros c b -> Henv Hpend E.
  rewrite drain_eq in E. simpl in E. unfold ctx_read in E.
  destruct (ctx_entry (cr_env c) (cr_calls c)) as [err|] eqn:Een.
  { injection E as <- <- <-. split; [apply prefix_nil|].
    intros Heof. by rewrite (Henv _ err (or_introl Een)) in Heof. }
  destruct (cr_pending c) as [[pb pe]|] eqn:Ep.
  - destruct (ctx_select (cr_env c) (cr_calls c)) as [err|] eqn:Es.
    { injection E as <- <- <-. split; [apply prefix_nil|].
      intros Heof. by rewrite (Henv _ err (or_intror Es)) in Heof. }
    simpl in E. rewrite take_ge in E by eauto. unfold behind. rewrite Ep. destruct pe as [err|].
    { injection E as <- <- <-. done. }
    set (c1 := CtxReader (cr_env c) (cr_r c) None (S (cr_calls c))) in *.
    destruct (drain n c1) as [[b1 e1] c2] eqn:Ed. injection E as <- -> ->.
    destruct (IH (remaining c1)) with (c := c1) (b := b1) as [Hp He]; [simpl; rewrite Ep; lia|done..|].
    unfold behind in Hp, He. simpl in Hp, He. destruct (drain n (cr_r c)) as [[b2 e2] r2]. simpl in *.
    split; [by apply prefix_app|]. intros Heof. specialize (He Heof). by injection He as -> ->.
  - destruct (read n (cr_r c)) as [[rb re] r'] eqn:Er. simpl in E.
    pose proof (read_bounded _ _ _ _ _ Er) as Hb.
    destruct (ctx_select (cr_env c) (cr_calls c)) as [err|] eqn:Es.
    { injection E as <- <- <-. split; [apply prefix_nil|].
      intros Heof. by rewrite (Henv _ err (or_intror Es)) in Heof. }
    rewrite take_ge in E by done. unfold behind. rewrite Ep, drain_eq, Er.
    destruct re as [err|]; [by injection E as <- <- <-|].
    pose proof (read_progress _ _ _ _ Er) as Hpr.
    set (c1 := CtxReader (cr_env c) r' None (S (cr_calls c))) in *.
    destruct (drain n c1) as [[b1 e1] c2] eqn:Ed. injection E as <- -> ->.
    destruct (IH (remaining c1)) with (c := c1) (b := b1) as [Hp He]; [simpl; rewrite Ep; lia|done..|].
    unfold behind in Hp, He. simpl in Hp, He. destruct (drain n r') as [[b2 e2] r2]. simpl in *.
    split; [by apply prefix_app|]. intros Heof. specialize (He Heof). by injection He as -> ->.
Qed.

(** The same for a whole copy. *)
Lemma copy_ctx_prefix {R S} `{Reader R} (wr : writer S) app env (r : R) s z err c' s' :
  appends wr app → (∀ b1 b2 s, app b2 (app b1 s) = app (b1 ++ b2) s) → (∀ s, app [] s = s) →
  ctx_errors env → Copy wr (NewCtxReader env r) s = (z, err, c', s') →
  ∃ b, s' = app b s ∧ z = Z.of_nat (length b) ∧
    b `prefix_of` (drain copy_buf r).1.1 ∧
    (err = None → (drain copy_buf r).1 = (b, Some (ESentinel IoEOF))).
Proof.
  intros Hwr Happ Hnil Henv E. unfold Copy in E.
  rewrite (copy_loop_drain wr app) in E by (done || simpl; lia).
  destruct (drain_ends copy_buf (NewCtxReader env r)) as (b & e & c1 & Ed). rewrite Ed in E.
  injection E as <- <- <- <-. exists b. split; [done|]. split; [lia|].
  assert (behind copy_buf (NewCtxReader env r) = (drain copy_buf r).1) as Hb.
  { unfold behind. simpl. by destruct (drain copy_buf r) as [[? ?] ?]. }
  destruct (ctx_drain_prefix copy_buf (NewCtxReader env r) b e c1 Henv ltac:(done) Ed) as [Hp He].
  rewrite Hb in *. split; [done|]. simpl. unfold hide_EOF. destruct (is_EOF e) eqn:Ee; [|done].
  intros _. rewrite He by done. do 2 f_equal. destruct e as [[]| | |]; by inversion Ee.
Qed.

(** A copy that reports success delivered the whole stream, whatever the writer does
    on failure; [I b s] says that [b] has been written to [s]. *)
Lemma copy_loop_ok {R S} `{Reader R} (wr : writer S) (I : bytes → S → Prop) n fuel z (r : R) b0 s z' r' s' :
  (∀ b0 b s s', I b0 s → wr b s = (length b, None, s') → I (b0 ++ b) s') →
  remaining r < fuel → I b0 s → copy_loop fuel n wr z r s = (z', None, r', s') →
  ∃ b, drain n r = (b, Some (ESentinel IoEOF), r') ∧ I (b0 ++ b) s' ∧ z' = (z + Z.of_nat (length b))%Z.
Proof.
  intros Hwr. revert z r b0 s. induction fuel as [|fuel IH]; intros z r b0 s Hf HI E; [lia|].
  rewrite drain_eq. simpl in E. destruct (read n r) as [[b er] r1] eqn:Er.
  destruct (copy_write wr b z s) as [[z1 [ew|]] s1] eqn:Ew; [done|].
  assert (z1 = (z + Z.of_nat (length b))%Z ∧ I (b0 ++ b) s1) as [-> HI1].
  { unfold copy_write in Ew. destruct b as [|x b].
    - injection Ew as <- <-. rewrite app_nil_r. simpl. split; [lia|done].
    - destruct (wr (x :: b) s) as [[nw [ew|]] s2] eqn:Ex; [done|]. case_decide as Hd; [|done].
      subst nw. injection Ew as <- <-. split; [done|]. by eapply Hwr. }
  destruct er as [e|].
  - injection E as <- Eh <- <-. unfold hide_EOF in Eh. destruct (is_EOF e) eqn:Ee; [|done].
    destruct e as [[]| | |]; try done. by exists b.
  - apply read_progress in Er. eapply IH in E as (b' & -> & HI2 & ->); [|lia|done].
    exists (b ++ b'). rewrite app_assoc, length_app. split; [done|]. split; [done|lia].
Qed.

(** What every write keeps, the copy keeps. *)
Lemma copy_loop_keeps {R S} `{Reader R} (wr : writer S) (P : S → Prop) n fuel z (r : R) s :
  (∀ b s, P s → P (snd (wr b s))) → P s → P (snd (copy_loop fuel n wr z r s)).
Proof.
  intros Hwr. revert z r s. induction fuel as [|fuel IH]; intros z r s Hs; [done|]. simpl.
  destruct (read n r) as [[b er] r1].
  assert (P (snd (copy_write wr b z s))) as Hw.
  { unfold copy_write. destruct b as [|x b]; [done|]. specialize (Hwr (x :: b) s Hs).
    by destruct (wr (x :: b) s) as [[nw ew] s2]. }
  destruct (copy_write wr b z s) as [[z1 [ew|]] s1]; [done|]. destruct er as [e|]; [done|]. by apply IH.
Qed.

(** ** Properties *)

(** A copy through the cancellable reader ([io.Copy(dst, NewCtxReader(ctx, body))])
    always ends, delivers to the destination, in order, a prefix of the stream of the
    body whenever the context is cancelled (before a read, or while one is in
    flight), and reports success only when it delivered the whole stream up to EOF;
    the count it returns is the number of bytes delivered. *)
Theorem Copy_ctxReader {R S} `{Reader R} (wr : writer S) app env (r : R) s :
  appends wr app → (∀ b1 b2 s, app b2 (app b1 s) = app (b1 ++ b2) s) → (∀ s, app [] s = s) →
  ctx_errors env →
  ∃ b err c', Copy wr (NewCtxReader env r) s = (Z.of_nat (length b), err, c', app b s) ∧
    b `prefix_of` (drain copy_buf r).1.1 ∧
    (err = None → (drain copy_buf r).1 = (b, Some (ESentinel IoEOF))).
Proof.
  intros Hwr Happ Hnil Henv.
  destruct (Copy wr (NewCtxReader env r) s) as [[[z err] c'] s'] eqn:E.
  destruct (copy_ctx_prefix wr app env r s z err c' s' Hwr Happ Hnil Henv E) as (b & -> & -> & Hp & He).
  by exists b, err, c'.
Qed.

(** ** Witnesses *)

(** A destination that collects what it is given. *)
Definition collect : writer bytes := λ b s, (length b, None, s ++ b).

Definition sample_stream : list chunk := [Chunk [x00; x01] None; Chunk [x02] None].

(** Cancelled while the second read is in flight. *)
Definition cancel_second : ctx_env := {|
  ctx_entry := λ k, if decide (2 ≤ k) then Some (ESentinel ContextCanceled) else None;
  ctx_select := λ k, if decide (k = 1) then Some (ESentinel ContextCanceled) else None
|}.

Lemma Copy_ctxReader_witness : ∃ b err c',
  Copy collect (NewCtxReader cancel_second sample_stream) []
  = (Z.of_nat (length b), err, c', [] ++ b) ∧ b = [x00; x01].
Proof.
  destruct (Copy_ctxReader collect (λ b s, s ++ b) cancel_second sample_stream [])
    as (b & err & c' & E & _).
  - by intros b s.
  - intros b1 b2 s. by rewrite app_assoc.
  - intros s. apply app_nil_r.
  - intros k e. simpl. repeat case_decide; intros [[= <-]|[= <-]]; done.
  - exists b, err, c'. split; [exact E|]. vm_compute in E. by simplify_eq.
Defined.
