(* ===== verification/LocalFS.v ===== *)
(** * The local filesystem source and transport
    (internal/sources/localfs/source.go, internal/transports/localfs/transport.go)

    A filesystem is a map from paths to nodes. What the operating system may refuse,
    the numbers [os.CreateTemp] draws and the cancellations come from an oracle per call. The digest
    is any function of the bytes. *)

From Stdlib Require Import Init.Byte.
From S2P Require Import Prelude GoLang GoUrl Transfer GoSha Streams.

(** ** The filesystem *)

Inductive node := File (content : bytes) | Dir.

Record fs := { nodes : gmap string node }.

Definition set_node (p : string) (n : node) (f : fs) : fs := {| nodes := <[p := n]> (nodes f) |}.
Definition del_node (p : string) (f : fs) : fs := {| nodes := delete p (nodes f) |}.

(** The bytes of an open file, as its successive reads see them. *)
Definition file_body (content : bytes) : list chunk :=
  match content with [] => [] | _ => [Chunk content None] end.

(** ** Source *)

(** [ctx.Err()] on entry, and errors of [os.Stat] and [os.Open] that the state of the
    filesystem alone does not explain. *)
Record src_oracle := {
  so_ctx : option error;
  so_stat : option error;
  so_open : option error;
}.

(** [func (s *Source) Open]. *)
Definition localfs_Open (o : src_oracle) (src : string) (f : fs) : error + list chunk * Z :=
  match so_ctx o with
  | Some e => inl e
  | None =>
      let stat := match so_stat o with
                  | Some e => inl e
                  | None => match nodes f !! src with
                            | None => inl (ESentinel OsErrNotExist)
                            | Some n => inr n
                            end
                  end in
      match stat with
      | inl err =>
          if errors_is err OsErrNotExist
          then inl (wrapf ("localfs: stat " +:+ src +:+ ": ") (ESentinel ErrSkippable))
          else inl (wrapf ("localfs: stat " +:+ src +:+ ": ") err)
      | inr Dir => inl (wrapf ("localfs: " +:+ src +:+ " is a directory: ") (ESentinel ErrPermanent))
      | inr (File content) =>
          match so_open o with
          | Some err => inl (wrapf ("localfs: open " +:+ src +:+ ": ") err)
          | None => inr (file_body content, Z.of_nat (length content))
          end
      end
  end.

(** ** Transport *)

(** The outcomes of one [Send]: the context on entry and while copying, the numbers
    [os.CreateTemp] draws and what the system says to each of its attempts on a name that
    is free, the writes that fail with how many bytes they took, the errors of fsync, close
    and rename, and whether a removal works. *)
Record dst_oracle := {
  do_ctx : option error;
  do_env : ctx_env;
  do_random : nat → Z;
  do_open : nat → option error;
  do_write : nat → option (nat * error);
  do_sync : option error;
  do_close : option error;
  do_rename : option error;
  do_remove : bool;
}.

(** [joinPath] of package os. *)
Definition join_path (dir name : string) : string :=
  if has_suffix dir "/" then dir +:+ name else dir +:+ "/" +:+ name.

(** The names [os.CreateTemp(dir, ".imgsync-*.tmp")] tries. *)
Definition temp_name (dir : string) (k : Z) : string :=
  join_path dir ".imgsync-" +:+ itoa k +:+ ".tmp".

(** [os.CreateTemp]: [O_CREATE|O_EXCL] on one name after another while the name exists,
    ten thousand at most; any other refusal is returned. *)
Fixpoint create_temp (o : dst_oracle) (dir : string) (i tries : nat) (f : fs) : error + string :=
  match tries with
  | O => inl (EOpaque ("createtemp " +:+ join_path dir ".imgsync-" +:+ "*.tmp: file exists"))
  | S tries' =>
      let name := temp_name dir (do_random o i) in
      match nodes f !! name with
      | Some _ => create_temp o dir (S i) tries' f
      | None => match do_open o i with Some err => inl err | None => inr name end
      end
  end.

Definition create_tries : nat := Nat.pow 10 4.

Definition CreateTemp (o : dst_oracle) (dir : string) (f : fs) : error + string :=
  create_temp o dir 0 create_tries f.

(** The state [io.MultiWriter(tmp, hasher)] writes to: the filesystem, the bytes
    hashed, the writes so far. *)
Record sink := { sk_fs : fs; sk_hashed : bytes; sk_writes : nat }.

Definition append_file (p : string) (b : bytes) (f : fs) : fs :=
  match nodes f !! p with
  | Some (File c) => set_node p (File (c ++ b)) f
  | _ => f
  end.

(** [mw.Write]: the file first, then the hasher; an error of the file stops it. *)
Definition multi_write (o : dst_oracle) (tmp : string) : writer sink := λ b s,
  match do_write o (sk_writes s) with
  | Some (n, e) =>
      (n, Some e, {| sk_fs := append_file tmp (take n b) (sk_fs s); sk_hashed := sk_hashed s;
                     sk_writes := S (sk_writes s) |})
  | None =>
      (length b, None, {| sk_fs := append_file tmp b (sk_fs s); sk_hashed := sk_hashed s ++ b;
                          sk_writes := S (sk_writes s) |})
  end.

(** [os.Rename]: replaces a file, refuses a directory. *)
Definition os_rename (o : dst_oracle) (from to : string) (f : fs) : option error * fs :=
  match do_rename o with
  | Some e => (Some e, f)
  | None =>
      match nodes f !! to, nodes f !! from with
      | Some Dir, _ => (Some (EOpaque "file exists"), f)
      | _, Some n => (None, set_node to n (del_node from f))
      | _, None => (Some (ESentinel OsErrNotExist), f)
      end
  end.

(** [func (t *Transport) Send]. *)
Definition localfs_Send {R} `{Reader R} (o : dst_oracle) (dst : string) (body : R) (f : fs)
    : (error + Z * string) * R * fs :=
  match do_ctx o with
  | Some e => (inl e, body, f)
  | None =>
      match CreateTemp o (path_dir dst) f with
      | inl err =>
          if errors_is err OsErrNotExist
          then (inl (wrapf2 "localfs: create tmp: " err (ESentinel ErrPermanent)), body, f)
          else (inl (wrapf "localfs: create tmp: " err), body, f)
      | inr tmp =>
          let cleanup g := if do_remove o then del_node tmp g else g in
          let '(written, copyErr, cr, sk) :=
            Copy (multi_write o tmp) (NewCtxReader (do_env o) body)
              {| sk_fs := set_node tmp (File []) f; sk_hashed := []; sk_writes := 0 |} in
          let body' := cr_r cr in
          let f1 := sk_fs sk in
          match copyErr with
          | Some err => (inl (wrapf "localfs: copy: " err), body', cleanup f1)
          | None =>
              match do_sync o with
              | Some err => (inl (wrapf "localfs: fsync: " err), body', cleanup f1)
              | None =>
                  match do_close o with
                  | Some err => (inl (wrapf "localfs: close tmp: " err), body', cleanup f1)
                  | None =>
                      match os_rename o tmp dst f1 with
                      | (Some err, f2) => (inl (wrapf "localfs: rename: " err), body', cleanup f2)
                      | (None, f2) => (inr (written, sha256_hex (sk_hashed sk)), body', f2)
                      end
                  end
              end
          end
      end
  end.

(** ** Lemmas *)

(** The temporary file is a new one, in the directory it was asked for. *)
Lemma create_temp_fresh o dir i n f tmp :
  create_temp o dir i n f = inr tmp → nodes f !! tmp = None ∧ ∃ k, tmp = temp_name dir k.
Proof.
  revert i. induction n as [|n IH]; intros i; simpl; [done|].
  destruct (nodes f !! temp_name _ _) eqn:E; [apply IH|]. destruct (do_open o i); [done|]. intros [= <-]. eauto.
Qed.

(** While copying, only the temporary file changes. *)
Definition only_tmp (tmp : string) (f f' : fs) : Prop :=
  ∃ c, nodes f' = <[tmp := File c]> (nodes f).

Lemma multi_write_only o tmp f b s :
  only_tmp tmp f (sk_fs s) → only_tmp tmp f (sk_fs (snd (multi_write o tmp b s))).
Proof.
  intros [c Hc]. unfold multi_write.
  assert (∀ b', only_tmp tmp f (append_file tmp b' (sk_fs s))) as Ha.
  { intros b'. unfold append_file. rewrite Hc, lookup_insert_eq. exists (c ++ b'). simpl.
    by rewrite Hc, insert_insert_eq. }
  destruct (do_write o (sk_writes s)) as [[n e]|]; apply Ha.
Qed.

(** The bytes [b] went to the file and to the hasher. *)
Definition sunk (tmp : string) (f : fs) (b : bytes) (s : sink) : Prop :=
  sk_hashed s = b ∧ nodes (sk_fs s) = <[tmp := File b]> (nodes f).

Lemma multi_write_sunk o tmp f b0 b s s' :
  sunk tmp f b0 s → multi_write o tmp b s = (length b, None, s') → sunk tmp f (b0 ++ b) s'.
Proof.
  intros [Hh Hn] E. unfold multi_write in E. destruct (do_write o (sk_writes s)) as [[n e]|]; [done|].
  injection E as <-. split; simpl; [by rewrite Hh|]. unfold append_file.
  rewrite Hn, lookup_insert_eq. simpl. by rewrite Hn, insert_insert_eq.
Qed.

Lemma copy_sink {R} `{Reader R} o tmp f (r : R) z c' sk :
  ctx_errors (do_env o) →
  Copy (multi_write o tmp) (NewCtxReader (do_env o) r)
    {| sk_fs := set_node tmp (File []) f; sk_hashed := []; sk_writes := 0 |} = (z, None, c', sk) →
  ∃ b, (drain copy_buf r).1 = (b, Some (ESentinel IoEOF)) ∧ z = Z.of_nat (length b) ∧ sunk tmp f b sk.
Proof.
  intros Henv E. unfold Copy in E.
  apply (copy_loop_ok _ (sunk tmp f) _ _ _ _ []) in E as (b & Ed & Hs & ->);
    [|apply multi_write_sunk|simpl; lia|done].
  exists b. split; [|split; [lia|done]].
  destruct (ctx_drain_prefix copy_buf (NewCtxReader (do_env o) r) b _ _ Henv ltac:(done) Ed) as [_ He].
  specialize (He eq_refl). unfold behind in He. simpl in He.
  by destruct (drain copy_buf r) as [[? ?] ?].
Qed.

(** Whatever happened, the temporary file is all that changed, and a working removal
    undoes it. *)
Lemma cleanup_undoes o tmp f g :
  nodes f !! tmp = None → only_tmp tmp f g →
  let f' := if do_remove o then del_node tmp g else g in
  (∀ p, p ≠ tmp → nodes f' !! p = nodes f !! p) ∧ (do_remove o = true → f' = f).
Proof.
  intros Hn [c Hc] f'. unfold f'. destruct (do_remove o).
  - unfold del_node. rewrite Hc, delete_insert_id by done. by destruct f.
  - split; [|done]. intros p Hp. by rewrite Hc, lookup_insert_ne.
Qed.

(** Every way a [Send] may end. *)
Lemma send_atomic {R} `{Reader R} o dst (body : R) f r body' f' :
  ctx_errors (do_env o) →
  localfs_Send o dst body f = (r, body', f') →
  match r with
  | inr (n, sha) => ∃ content,
      (drain copy_buf body).1 = (content, Some (ESentinel IoEOF)) ∧
      n = Z.of_nat (length content) ∧ sha = sha256_hex content ∧
      f' = set_node dst (File content) f
  | inl _ =>
      (∀ p, CreateTemp o (path_dir dst) f ≠ inr p → nodes f' !! p = nodes f !! p) ∧
      (do_remove o = true → f' = f)
  end.
Proof.
  intros Henv E. unfold localfs_Send in E.
  destruct (do_ctx o) as [e|]; [by simplify_eq|].
  destruct (CreateTemp o (path_dir dst) f) as [err|tmp] eqn:Ecr;
    [destruct (errors_is err OsErrNotExist); by simplify_eq|].
  apply create_temp_fresh in Ecr as [Hfresh _].
  assert (∀ g, only_tmp tmp f g → (∀ p, inr (A := error) tmp ≠ inr p →
     nodes (if do_remove o then del_node tmp g else g) !! p = nodes f !! p) ∧
     (do_remove o = true → (if do_remove o then del_node tmp g else g) = f)) as Hclean.
  { intros g Hg. destruct (cleanup_undoes o tmp f g Hfresh Hg) as [H1 H2].
    split; [|done]. intros p Hp. apply H1. congruence. }
  destruct (Copy _ _ _) as [[[z copyErr] cr] sk] eqn:Ec.
  assert (only_tmp tmp f (sk_fs sk)) as Honly.
  { change sk with (snd (z, copyErr, cr, sk)). rewrite <- Ec. unfold Copy.
    apply (copy_loop_keeps _ (λ s, only_tmp tmp f (sk_fs s))); [intros; by apply multi_write_only|].
    by exists []. }
  destruct copyErr as [err|]; [simplify_eq; by apply Hclean|].
  destruct (do_sync o) as [err|]; [simplify_eq; by apply Hclean|].
  destruct (do_close o) as [err|]; [simplify_eq; by apply Hclean|].
  apply copy_sink in Ec as (b & Hd & -> & Hh & Hn); [|done].
  unfold os_rename in E. destruct (do_rename o) as [err|]; [simplify_eq; by apply Hclean|].
  rewrite Hn, lookup_insert_eq in E.
  destruct (<[tmp:=File b]> (nodes f) !! dst) as [[c|]|] eqn:Edst; injection E as <- <- <-;
    try (by apply Hclean); exists b; (split; [done|]); (split; [done|]); (split; [by rewrite Hh|]).
  - unfold set_node, del_node. simpl. by rewrite Hn, delete_insert_id.
  - unfold set_node, del_node. simpl. by rewrite Hn, delete_insert_id.
Qed.

(** ** Properties *)

(** C25: the local transport is atomic. When [Send] reports success, the destination
    holds exactly the stream of the body up to EOF, the count and the digest are
    those of these bytes, and no other path changed (the temporary file is gone).
    When it reports an error (a refused create, a short write, a cancelled context,
    a failed fsync, close or rename), no path but the temporary file changed, so the
    destination is what it was before; and nothing at all changed when the removal
    of the temporary file works. The temporary file is a new [.imgsync-*.tmp] in the
    directory of the destination: it never was a file that existed. *)
Theorem localfs_Send_atomic {R} `{Reader R} o dst (body : R) f r body' f' :
  ctx_errors (do_env o) →
  localfs_Send o dst body f = (r, body', f') →
  (∀ tmp, CreateTemp o (path_dir dst) f = inr tmp →
     nodes f !! tmp = None ∧ ∃ k, tmp = temp_name (path_dir dst) k) ∧
  match r with
  | inr (n, sha) => ∃ content,
      (drain copy_buf body).1 = (content, Some (ESentinel IoEOF)) ∧
      n = Z.of_nat (length content) ∧ sha = sha256_hex content ∧
      f' = set_node dst (File content) f
  | inl _ =>
      (∀ p, CreateTemp o (path_dir dst) f ≠ inr p → nodes f' !! p = nodes f !! p) ∧
      (do_remove o = true → f' = f)
  end.
Proof.
  intros Henv E. split; [intros tmp; apply create_temp_fresh|]. by eapply send_atomic.
Qed.

(** The stream of an open file is its content. *)
Lemma file_body_drain n content :
  (0 < n)%nat → (drain n (file_body content)).1 = (content, Some (ESentinel IoEOF)).
Proof.
  intros Hn. destruct content as [|x content]; [by rewrite drain_eq|].
  remember (x :: content) as l eqn:El. assert (file_body l = [Chunk l None]) as -> by (by rewrite El).
  assert (l ≠ []) as Hne by (by rewrite El). clear El x content.
  remember (length l) as m eqn:Hm. revert l Hm Hne.
  induction (lt_wf m) as [m _ IH]; intros l -> Hne. rewrite drain_eq. simpl.
  case_decide as Hle.
  - rewrite drain_eq. simpl. by rewrite app_nil_r.
  - destruct n as [|n]; [lia|]. specialize (IH (length (drop (S n) l))).
    rewrite length_drop in IH. specialize (IH ltac:(lia) (drop (S n) l)).
    rewrite length_drop in IH. specialize (IH eq_refl).
    destruct (drain (S n) [Chunk (drop (S n) l) None]) as [[b e] r']. simpl in *.
    assert (drop (S n) l ≠ []) as Hd
      by (intros E; apply (f_equal length) in E; rewrite length_drop in E; simpl in E; lia).
    specialize (IH Hd). injection IH as -> ->. by rewrite take_drop.
Qed.

(** A body is only returned for a file, with its size. *)
Lemma open_file o src f body size :
  localfs_Open o src f = inr (body, size) →
  ∃ content, nodes f !! src = Some (File content) ∧ body = file_body content ∧
    size = Z.of_nat (length content).
Proof.
  unfold localfs_Open. destruct (so_ctx o); [done|]. destruct (so_stat o) as [e|].
  - by destruct (errors_is e OsErrNotExist).
  - destruct (nodes f !! src) as [[content|]|]; [|done|by destruct (errors_is _ _)].
    destruct (so_open o); [done|]. intros [= <- <-]. eauto.
Qed.

(** The local source: [Open] never changes the filesystem (it is a function of it),
    and its answer is classified for the worker: a missing file is skippable, a
    directory is permanent, any other stat or open failure is neither, and a file
    gives its size and a body whose stream is exactly its content. *)
Theorem localfs_Open_spec o src f :
  so_ctx o = None → so_stat o = None → so_open o = None →
  match nodes f !! src with
  | None => ∃ e, localfs_Open o src f = inl e ∧ errors_is e ErrSkippable = true ∧
      errors_is e ErrPermanent = false
  | Some Dir => ∃ e, localfs_Open o src f = inl e ∧ errors_is e ErrPermanent = true ∧
      errors_is e ErrSkippable = false
  | Some (File content) => ∃ body, localfs_Open o src f = inr (body, Z.of_nat (length content)) ∧
      ∀ n, (0 < n)%nat → (drain n body).1 = (content, Some (ESentinel IoEOF))
  end.
Proof.
  intros Hc Hs Ho. unfold localfs_Open. rewrite Hc, Hs, Ho.
  destruct (nodes f !! src) as [[content|]|]; simpl; [|by eexists..].
  eexists. split; [done|]. intros n Hn. by apply file_body_drain.
Qed.

(** ** Witnesses *)

Definition sample_fs : fs := {| nodes := {["/src" := File [x00; x01]; "/out" := File [x07]]} |}.

Definition ok_dst (k : Z) : dst_oracle := {|
  do_ctx := None; do_env := background; do_random := λ _, k; do_open := λ _, None; do_write := λ _, None; do_sync := None;
  do_close := None; do_rename := None; do_remove := true
|}.

Lemma localfs_Send_atomic_witness :
  nodes (snd (localfs_Send (ok_dst 7) "/out"
    (file_body [x00; x01]) sample_fs)) !! "/out"%string = Some (File [x00; x01]).
Proof.
  pose proof (localfs_Send_atomic (ok_dst 7) "/out"
    (file_body [x00; x01]) sample_fs (inr (2%Z, sha256_hex [x00; x01])) []
    (set_node "/out" (File [x00; x01]) sample_fs)) as Hs.
  destruct Hs as (_ & content & Hd & _ & _ & _).
  - intros k e. simpl. by intros [|].
  - vm_compute. reflexivity.
  - vm_compute. reflexivity.
Defined.

Definition ok_src : src_oracle := {| so_ctx := None; so_stat := None; so_open := None |}.

Lemma localfs_Open_spec_witness : ∃ body, localfs_Open ok_src "/src" sample_fs = inr (body, 2%Z) ∧
  ∀ n, (0 < n)%nat → (drain n body).1 = ([x00; x01], Some (ESentinel IoEOF)).
Proof. exact (localfs_Open_spec ok_src "/src" sample_fs eq_refl eq_refl eq_refl). Defined.
