(* ===== verification/Worker.v ===== *)
(** * The worker (internal/worker/job.go, process.go, runner.go)

    Leasing a job, driving it through a source and a transport to one guarded
    write of its outcome, recovering panics, and the loop of one worker goroutine
    with its drain. *)

From S2P Require Import Prelude GoLang GoFloat ErrDetail GoJson Store Transfer.

(** ** job.go *)

(** [type Job struct]. *)
Record Job := {
  ID : Z;
  TraceID : string;
  Src : string;
  Dst : string;
  SrcProtocol : string;
  DstProtocol : string;
  Payload : string;
  Status : string;
  Attempts : Z;
  MaxAttempts : Z;
  LockedAt : option Z;
  LockedBy : string;
  NextRunAt : Z;
  CreatedAt : Z;
  UpdatedAt : Z;
}.

(** The [Scan] of the RETURNING list into a [Job]. *)
Definition scan_job (r : transfer_job) : Job := {|
  ID := id r; TraceID := trace_id r; Src := src r; Dst := dst r;
  SrcProtocol := src_protocol r; DstProtocol := dst_protocol r; Payload := payload r;
  Status := status_text (status r); Attempts := attempts r; MaxAttempts := max_attempts r;
  LockedAt := locked_at r; LockedBy := default EmptyString (locked_by r);
  NextRunAt := next_run_at r; CreatedAt := created_at r; UpdatedAt := updated_at r
|}.

(** The WHERE clause of the CTE [next]; SKIP LOCKED leaves out the rows other
    transactions hold. *)
Definition leasable (e : session_env) (r : transfer_job) : bool :=
  bool_decide (status r = Pending) && (next_run_at r <=? now e)%Z
  && bool_decide (id r ∉ row_locks e).

(** [ORDER BY next_run_at, id]. *)
Definition lease_before (r1 r2 : transfer_job) : bool :=
  ((next_run_at r1 <? next_run_at r2)
   || ((next_run_at r1 =? next_run_at r2) && (id r1 <=? id r2)))%Z.

(** [ORDER BY ... LIMIT 1]. *)
Fixpoint first_row (l : list transfer_job) : option transfer_job :=
  match l with
  | [] => None
  | r :: l' =>
      match first_row l' with
      | Some r' => Some (if lease_before r r' then r else r')
      | None => Some r
      end
  end.

(** [SET status='leased', locked_at=NOW(), locked_by=w, updated_at=NOW()]. *)
Definition lease_row (w : string) (ts : Z) (r : transfer_job) : transfer_job := {|
  id := id r; trace_id := trace_id r; src := src r; dst := dst r;
  src_protocol := src_protocol r; dst_protocol := dst_protocol r; payload := payload r;
  status := Leased; attempts := attempts r; max_attempts := max_attempts r;
  locked_at := Some ts; locked_by := Some w;
  next_run_at := next_run_at r; created_at := created_at r; updated_at := ts
|}.

(** The dispatch statement; no row makes [Scan] return [pgx.ErrNoRows]. *)
Definition lease_stmt `{ScanOrder} (w : string) : stmt transfer_job := λ e t,
  match first_row (List.filter (leasable e) (scan (jobs t))) with
  | None => (inl (ESentinel ErrNoRows), t)
  | Some r => (inr (lease_row w (now e) r), set_jobs (<[id r := lease_row w (now e) r]> (jobs t)) t)
  end.

(** [func LeaseJob]. *)
Definition LeaseJob `{ScanOrder} (w : string) : M pg (error + option Job) :=
  r ← exec (lease_stmt w);
  match r with
  | inl e =>
      if errors_is e ErrNoRows then mret (inr None) else mret (inl (wrapf "lease: " e))
  | inr row => mret (inr (Some (scan_job row)))
  end.

(** [func (j *Job) Duration], at the instant [t]; microseconds as in the row. *)
Definition Duration (t : Z) (j : Job) : Z :=
  match LockedAt j with
  | None => 0
  | Some l => t - l
  end%Z.

(** ** process.go *)

(** What one call takes from the machine it runs on: the result of an
    out-of-range float conversion, the draw of [backoffRNG], and
    [time.Since(start).Milliseconds()]. *)
Record host_env := {
  float_oor : Z;
  rng_draw : Z;
  elapsed_ms : Z;
}.

(** [type Deps struct]; the source and the transport are separate arguments of
    [ProcessJob], the only function that uses them. *)
Record Deps (W : Type) := MkDeps {
  d_LockedBy : string;
  d_OnRetry : option (string → M W unit);
}.
Arguments MkDeps {W} _ _.
Arguments d_LockedBy {W} _.
Arguments d_OnRetry {W} _.

(** [WHERE ... status='leased' AND locked_by=w]. *)
Definition lease_guard (w : string) (r : transfer_job) : bool :=
  bool_decide (status r = Leased) && bool_decide (locked_by r = Some w).

(** [SET status=st, attempts=a, next_run_at=nra, locked_at=NULL, locked_by=NULL,
    updated_at=NOW()]. *)
Definition settle_row (st : job_status) (a nra ts : Z) (r : transfer_job) : transfer_job := {|
  id := id r; trace_id := trace_id r; src := src r; dst := dst r;
  src_protocol := src_protocol r; dst_protocol := dst_protocol r; payload := payload r;
  status := st; attempts := a; max_attempts := max_attempts r;
  locked_at := None; locked_by := None;
  next_run_at := nra; created_at := created_at r; updated_at := ts
|}.

(** [WITH u AS (UPDATE transfer_jobs SET f WHERE id=i AND guard RETURNING trace_id)
    INSERT INTO transfer_events SELECT trace_id, i, ev, json.Marshal(dt) FROM u]: the
    server reads the parameter of the JSONB column before it runs anything; the result
    is the number of event rows inserted. *)
Definition guarded_write (i : Z) (w : string) (f : session_env → transfer_job → transfer_job)
    (ev : event_status) (dt : gmap string jval) : stmt Z := λ e t,
  match jsonb_in (json_Marshal dt) with
  | None => (inl json_refused, t)
  | Some d =>
      match update_one i (lease_guard w) (f e) t with
      | (Some r, t') => (inr 1%Z, push_event (now e) (trace_id r) i ev d t')
      | (None, t') => (inr 0%Z, t')
      end
  end.

(** The error of a call that returns only an error. *)
Definition err_of {A} (r : error + A) : option error :=
  match r with inl e => Some e | inr _ => None end.

Section Process.
Context {W : Type} `{Lens W pg}.

(** [func writeSuccess]. *)
Definition writeSuccess (h : host_env) (d : Deps W) (job : Job) (written : Z) (shaHex : string)
    : M W (option error) :=
  r ← zoom (exec (guarded_write (ID job) (d_LockedBy d)
        (λ e r, settle_row Succeeded (attempts r) (next_run_at r) (now e) r) EvSuccess
        {["size" := JInt written; "sha256" := JStr shaHex;
          "duration_ms" := JInt (elapsed_ms h)]}));
  mret (err_of r).

(** [func writeTerminalWithAttempts]. *)
Definition writeTerminalWithAttempts (d : Deps W) (job : Job) (jobStatus : job_status)
    (eventStatus : event_status) (dt : gmap string jval) (a : Z) : M W (option error) :=
  r ← zoom (exec (guarded_write (ID job) (d_LockedBy d)
        (λ e r, settle_row jobStatus a (next_run_at r) (now e) r) eventStatus dt));
  mret (err_of r).

(** [func writeTerminal]. *)
Definition writeTerminal (d : Deps W) (job : Job) (jobStatus : job_status)
    (eventStatus : event_status) (dt : gmap string jval) (bumpAttempts : bool)
    : M W (option error) :=
  writeTerminalWithAttempts d job jobStatus eventStatus dt
    (if bumpAttempts then Attempts job + 1 else Attempts job)%Z.

(** [stage, _ := detail["stage"].(string)]. *)
Definition stage_of (dt : gmap string jval) : string :=
  match dt !! "stage" with
  | Some (JStr s) => s
  | _ => EmptyString
  end.

(** [func writeRetryOrDead]. *)
Definition writeRetryOrDead (h : host_env) (d : Deps W) (job : Job) (dt : gmap string jval)
    : M W (string * option error) :=
  let nextAttempts := (Attempts job + 1)%Z in
  if (MaxAttempts job <=? nextAttempts)%Z then
    e ← writeTerminalWithAttempts d job Dead EvDead dt nextAttempts;
    match e with
    | Some err => mret (EmptyString, Some err)
    | None => mret ("dead", None)
    end
  else
    let backoff := retryBackoff (float_oor h) (rng_draw h) nextAttempts in
    ct ← zoom (exec (guarded_write (ID job) (d_LockedBy d)
           (λ e r, settle_row Pending nextAttempts
                     (now e + 1000 * milliseconds backoff)%Z (now e) r) EvFail dt));
    match ct with
    | inl err => mret (EmptyString, Some err)
    | inr affected =>
        if (affected =? 0)%Z then mret (EmptyString, None)
        else
          _ ← match d_OnRetry d with
              | Some f => f (stage_of dt)
              | None => mret tt
              end;
          mret ("fail", None)
    end.

(** [func classifyAndWrite]. *)
Definition classifyAndWrite (h : host_env) (d : Deps W) (job : Job) (jobErr : error)
    (dt : gmap string jval) : M W (string * option error) :=
  if errors_is jobErr ErrSkippable then
    e ← writeTerminal d job Skipped EvSkip dt false;
    match e with
    | Some err => mret (EmptyString, Some err)
    | None => mret ("skipped", None)
    end
  else if errors_is jobErr ErrPermanent then
    e ← writeTerminal d job Dead EvDead dt true;
    match e with
    | Some err => mret (EmptyString, Some err)
    | None => mret ("dead", None)
    end
  else writeRetryOrDead h d job dt.

(** [func openErrDetails] and [func transportErrDetails]. *)
Definition openErrDetails (e : error) : gmap string jval :=
  let d := {["error" := JStr (sanitizeErrMsg (error_text e)); "stage" := JStr "open"]} in
  if errors_is e ErrSkippable then <["reason" := JStr "source_not_found"]> d else d.

Definition transportErrDetails (e : error) : gmap string jval :=
  {["error" := JStr (sanitizeErrMsg (error_text e)); "stage" := JStr "transport"]}.

(** The error of the size verification of [ProcessJob]. *)
Definition size_mismatch (what : string) (a b : Z) : error :=
  wrapf ("size mismatch: " +:+ what +:+ "=" +:+ itoa a +:+ " written=" +:+ itoa b +:+ ": ")
        (ESentinel ErrPermanent).

(** [func ProcessJob]. [closing] is the deferred close of the body. *)
Definition ProcessJob (h : host_env) (d : Deps W) (source : Source W) (transport : Transport W)
    (job : Job) : M W (string * option error) :=
  o ← Open source (Src job);
  match o with
  | inl openErr => classifyAndWrite h d job openErr (openErrDetails openErr)
  | inr (body, srcSize) =>
      '(sent, cw) ← Send transport (Dst job) (Counter body 0) srcSize;
      let closing := (_ ← Close source (counter_r cw); mret tt) in
      match sent with
      | Panic v => defer closing (panic v)
      | Ret (inl sendErr) =>
          defer closing (classifyAndWrite h d job sendErr (transportErrDetails sendErr))
      | Ret (inr (written, shaHex)) =>
          if (0 <=? srcSize)%Z && negb (written =? srcSize)%Z then
            defer closing (classifyAndWrite h d job (size_mismatch "src" srcSize written)
              {["reason" := JStr "size_mismatch"; "stage" := JStr "verify";
                "src_size" := JInt srcSize; "written" := JInt written]})
          else if (srcSize <? 0)%Z && negb (counter_n cw =? written)%Z then
            defer closing (classifyAndWrite h d job (size_mismatch "read" (counter_n cw) written)
              {["reason" := JStr "size_mismatch_unknown_src"; "stage" := JStr "verify";
                "read" := JInt (counter_n cw); "written" := JInt written]})
          else
            closeErr ← recover (λ v, defer closing (panic v)) (Close source (counter_r cw));
            match closeErr with
            | Some ce =>
                classifyAndWrite h d job (wrapf "source close after send: " ce)
                  {["error" := JStr (error_text ce); "stage" := JStr "source_close"]}
            | None =>
                e ← writeSuccess h d job written shaHex;
                match e with
                | Some err => mret (EmptyString, Some err)
                | None => mret ("succeeded", None)
                end
            end
      end
  end.

(** ** runner.go *)

(** The factories and the callbacks of [type Runner struct]. *)
Record Runner := MkRunner {
  r_PodName : string;
  r_SourceFor : string → error + Source W;
  r_TransportFor : string → error + Transport W;
  r_OnFinish : option (Job → string → M W unit);
  r_OnRetry : option (Job → string → M W unit);
  r_OnLeaseAttempt : option (bool → M W unit);
  r_OnWorkerStart : option (string → M W unit);
  r_OnWorkerStop : option (string → M W unit);
}.

(** [if r.OnX != nil { r.OnX(a) }]. *)
Definition notify {A} (f : option (A → M W unit)) (a : A) : M W unit :=
  match f with
  | Some g => g a
  | None => mret tt
  end.

(** [func (r *Runner) fire]. *)
Definition fire (r : Runner) (job : Job) (result : string) : M W unit :=
  match r_OnFinish r with
  | Some f => f job result
  | None => mret tt
  end.

(** [func (r *Runner) processOne]: the deferred handler turns a panic into a
    retry or a dead letter. *)
Definition processOne (h : host_env) (r : Runner) (lockedBy : string) (job : Job) : M W unit :=
  recover
    (λ v,
       '(result, _) ← writeRetryOrDead h (MkDeps lockedBy None) job
         {["error" := JStr v; "stage" := JStr "panic"]};
       fire r job result)
    (match r_SourceFor r (SrcProtocol job) with
     | inl err =>
         _ ← writeTerminal (MkDeps lockedBy None) job Dead EvDead
           {["error" := JStr (error_text err); "stage" := JStr "source-factory"]} true;
         fire r job "dead"
     | inr source =>
         match r_TransportFor r (DstProtocol job) with
         | inl err =>
             _ ← writeTerminal (MkDeps lockedBy None) job Dead EvDead
               {["error" := JStr (error_text err); "stage" := JStr "transport-factory"]} true;
             fire r job "dead"
         | inr transport =>
             '(result, _) ← ProcessJob h
               (MkDeps lockedBy (Some (λ stage,
                  match r_OnRetry r with
                  | Some f => f job stage
                  | None => mret tt
                  end))) source transport job;
             fire r job result
         end
     end).

(** The UPDATE of [drainLease]. *)
Definition drain_stmt (lockedBy : string) : stmt unit := λ e t,
  (inr tt, update_jobs (lease_guard lockedBy)
             (λ r, settle_row Pending (attempts r) (next_run_at r) (now e) r) t).

(** [func (r *Runner) drainLease]: a failure is only logged. *)
Definition drainLease (lockedBy : string) : M W unit :=
  _ ← zoom (exec (drain_stmt lockedBy));
  mret tt.

(** [fmt.Sprintf("%s-w%d", r.PodName, idx)]. *)
Definition worker_name (r : Runner) (idx : Z) : string := r_PodName r +:+ "-w" +:+ itoa idx.

End Process.
Arguments Runner : clear implicits.
