(* ===== verification/Ftp.v ===== *)
(** * The FTP transport and source
    (internal/transports/ftp/transport.go, internal/sources/ftp/source.go)

    The library connection ([*ftp.ServerConn]) and the pooled checkout are interfaces
    with the documented behaviour the code relies on as laws; the %q verb is an
    arbitrary function. *)

From Stdlib Require Import Ascii Init.Byte.
From S2P Require Import Prelude GoLang GoFloat ErrDetail GoText GoUrl Transfer GoSha Streams Worker.

(** ** Error classification *)

(** [func classify]: 550, 552 and 553 are ftp.StatusFileUnavailable,
    ftp.StatusExceededStorage and ftp.StatusBadFileName. *)
Definition permanent_code (code : Z) : bool := ((code =? 550) || (code =? 552) || (code =? 553))%Z.

Definition classify (err : error) : error :=
  match errors_as_proto err with
  | Some (code, _) =>
      if permanent_code code then wrapf2 EmptyString err (ESentinel ErrPermanent) else err
  | None => err
  end.

(** [func isNotFound]. *)
Definition isNotFound (err : error) : bool :=
  match errors_as_proto err with
  | Some (code, msg) =>
      if (code =? 550)%Z then
        let m := to_lower msg in negb (contains m "permission") && negb (contains m "access denied")
      else false
  | None => false
  end.

(** ** io.TeeReader into the counting hash writer *)

(** [type countingHashWriter struct]: the bytes hashed so far, and their number. *)
Record countingHashWriter := { chw_hashed : bytes; chw_n : Z }.

(** [func (w *countingHashWriter) Write]; a hash never refuses bytes. *)
Definition chw_write (b : bytes) (w : countingHashWriter) : countingHashWriter :=
  {| chw_hashed := chw_hashed w ++ b; chw_n := chw_n w + Z.of_nat (length b) |}.

Record tee (R : Type) := Tee { te_r : R; te_w : countingHashWriter }.
Arguments Tee {R} _ _.
Arguments te_r {R} _.
Arguments te_w {R} _.

Definition tee_read {R} `{Reader R} (n : nat) (t : tee R) : bytes * option error * tee R :=
  let '(b, e, r') := read n (te_r t) in (b, e, Tee r' (chw_write b (te_w t))).

#[export, refine] Instance tee_reader {R} `{Reader R} : Reader (tee R) := {|
  read := tee_read; remaining := λ t, remaining (te_r t)
|}.
Proof.
  - intros n t b e t' E. unfold tee_read in E.
    destruct (read n (te_r t)) as [[b0 e0] r0] eqn:Er. simplify_eq. by eapply read_bounded.
  - intros n t b t' E. unfold tee_read in E.
    destruct (read n (te_r t)) as [[b0 e0] r0] eqn:Er. simplify_eq. by eapply read_progress.
Defined.

(** Draining a tee drains what is behind it and hashes exactly the bytes seen. *)
Lemma tee_drain {R} `{Reader R} n (t : tee R) b e t' :
  drain n t = (b, Some e, t') →
  drain n (te_r t) = (b, Some e, te_r t') ∧ te_w t' = chw_write b (te_w t).
Proof.
  remember (remaining (te_r t)) as m eqn:Hm. revert t b Hm.
  induction (lt_wf m) as [m _ IH]; intros t b -> E.
  rewrite drain_eq in E. rewrite drain_eq. simpl in E. unfold tee_read in E.
  destruct (read n (te_r t)) as [[rb [re|]] r'] eqn:Er; [by injection E as <- <- <-|].
  destruct (drain n (Tee r' (chw_write rb (te_w t)))) as [[b1 e1] t1] eqn:Ed. injection E as <- -> ->.
  apply read_progress in Er. apply (IH (remaining r')) in Ed as [Ed ->]; [|done..]. simpl in *.
  rewrite Ed. split; [done|]. unfold chw_write. simpl. rewrite length_app, app_assoc. f_equal. lia.
Qed.

Section Ftp.
Context {W Resp : Type} `{Reader Resp}.

(** ** Interfaces *)

(** The methods of [*ftp.ServerConn] the code calls. [Stor] reads its body to EOF
    before it reports success. *)
Record ServerConn := {
  MakeDir : string → M W (option error);
  Stor : ∀ R, Reader R → string → R → W → (res (option error) * R) * W;
  Delete : string → M W (option error);
  Rename : string → string → M W (option error);
  FileSize : string → M W (error + Z);
  Retr : string → M W (error + Resp);
  Resp_Close : Resp → M W (option error);
  stor_drains : ∀ R (HR : Reader R) p (r : R) w r' w',
    Stor R HR p r w = ((Ret None, r'), w') →
    ∃ n b, drain n r = (b, Some (ESentinel IoEOF), r');
}.

(** [Pool.Acquire], and the methods [Conn] and [Release] of a [*PooledConn]. *)
Record ConnPool := {
  PooledConn : Type;
  Acquire : string → M W (error + PooledConn);
  pc_Conn : PooledConn → ServerConn;
  pc_Release : PooledConn → bool → M W unit;
}.

Context (fmt_q : string → string).

(** ** Transport *)

(** [func (t *Transport) Send] from the checkout on. Best-effort calls drop their
    error. *)
Definition ftp_Send_to (pool : ConnPool) (env : ctx_env) {R} (HR : Reader R) (host finalPath : string)
    (body : R) (w : W) : (res (error + Z * string) * R) * W :=
  let tmpPath := finalPath +:+ ".imgsync.tmp" in
  let wire p := trim_prefix p "/" in
  match Acquire pool host w with
  | (Panic v, w1) => ((Panic v, body), w1)
  | (Ret (inl err), w1) => ((Ret (inl (wrapf "ftp transport: acquire: " err)), body), w1)
  | (Ret (inr pc), w1) =>
      let conn := pc_Conn pool pc in
      let dir := path_dir finalPath in
      let mkdir := if bool_decide (dir ≠ "/" ∧ dir ≠ "." ∧ dir ≠ EmptyString)
                   then (_ ← MakeDir conn dir; mret tt) else mret tt in
      match mkdir w1 with
      | (Panic v, w2) => ((Panic v, body), w2)
      | (Ret _, w2) =>
          let t0 := Tee (NewCtxReader env body) {| chw_hashed := []; chw_n := 0 |} in
          let '(stored, t1, w3) := Stor conn (tee (ctxReader R)) _ (wire tmpPath) t0 w2 in
          let body' := cr_r (te_r t1) in
          let fail what err :=
            (_ ← Delete conn (wire tmpPath);
             _ ← pc_Release pool pc true;
             mret (inl (wrapf what (classify err)))) : M W (error + Z * string) in
          match stored with
          | Panic v => ((Panic v, body'), w3)
          | Ret (Some err) =>
              let '(r, w4) := fail ("ftp transport: stor " +:+ tmpPath +:+ ": ") err w3 in
              ((r, body'), w4)
          | Ret None =>
              let '(r, w4) :=
                (rn ← Rename conn (wire tmpPath) (wire finalPath);
                 match rn with
                 | Some err =>
                     fail ("ftp transport: rename " +:+ tmpPath +:+ " -> " +:+ finalPath +:+ ": ") err
                 | None =>
                     _ ← pc_Release pool pc false;
                     mret (inr (chw_n (te_w t1), sha256_hex (chw_hashed (te_w t1))))
                 end) w3 in
              ((r, body'), w4)
          end
      end
  end.

(** [func (t *Transport) Send]. *)
Definition ftp_Send (pool : ConnPool) (env : ctx_env) {R} (HR : Reader R) (dst : string) (body : R)
    (w : W) : (res (error + Z * string) * R) * W :=
  let invalid := ((Ret (inl (EOpaque ("ftp transport: invalid dst " +:+ fmt_q dst))), body), w) in
  match url_parse dst with
  | None => invalid
  | Some u =>
      if negb (bool_decide (u_Scheme u = "ftp")) || bool_decide (u_Host u = EmptyString)
         || bool_decide (u_Path u = EmptyString)
      then invalid
      else ftp_Send_to pool env HR (u_Host u) (u_Path u) body w
  end.

(** ** Source *)

(** [type retrReader struct]: the response with its [Close] method, and the [Release]
    method of the checkout [pc], the only one the reader uses. *)
Record retrReader := {
  rr_r : Resp;
  rr_Close : Resp → M W (option error);
  rr_Release : bool → M W unit;
  rr_released : bool;
  rr_ioErr : option error;
}.

(** [func (r *retrReader) Read]. *)
Definition retr_read (n : nat) (r : retrReader) : bytes * option error * retrReader :=
  let '(b, e, r') := read n (rr_r r) in
  (b, e, {| rr_r := r'; rr_Close := rr_Close r; rr_Release := rr_Release r; rr_released := rr_released r;
            rr_ioErr := match e with
                        | Some err => if is_EOF err then rr_ioErr r else Some err
                        | None => rr_ioErr r
                        end |}).

#[export, refine] Instance retr_reader : Reader retrReader := {|
  read := retr_read; remaining := λ r, remaining (rr_r r)
|}.
Proof.
  - intros n t b e t' E. unfold retr_read in E.
    destruct (read n (rr_r t)) as [[b0 e0] r0] eqn:Er. simplify_eq. by eapply read_bounded.
  - intros n t b t' E. unfold retr_read in E.
    destruct (read n (rr_r t)) as [[b0 e0] r0] eqn:Er. simplify_eq. by eapply read_progress.
Defined.

(** [func (r *retrReader) Close]. *)
Definition retr_Close (r : retrReader) : M W (option error) :=
  closeErr ← rr_Close r (rr_r r);
  _ ← (if rr_released r then mret tt
       else rr_Release r
              (match rr_ioErr r, closeErr with None, None => false | _, _ => true end));
  mret closeErr.

(** The struct it leaves: [r.released = true]. *)
Definition retr_closed (r : retrReader) : retrReader := {|
  rr_r := rr_r r; rr_Close := rr_Close r; rr_Release := rr_Release r; rr_released := true;
  rr_ioErr := rr_ioErr r
|}.

(** [func (s *Source) Open] from the checkout on. *)
Definition ftp_Open_at (pool : ConnPool) (host path : string) : M W (error + retrReader * Z) :=
  a ← Acquire pool host;
  match a with
  | inl err => mret (inl (wrapf "ftp source: acquire conn: " err))
  | inr pc =>
      sz ← FileSize (pc_Conn pool pc) path;
      let size := match sz with inr n => n | inl _ => (-1)%Z end in
      r ← Retr (pc_Conn pool pc) path;
      match r with
      | inl err =>
          _ ← pc_Release pool pc true;
          if isNotFound err
          then mret (inl (wrapf ("ftp source: retr " +:+ path +:+ ": ") (ESentinel ErrSkippable)))
          else mret (inl (wrapf ("ftp source: retr " +:+ path +:+ ": ") err))
      | inr resp =>
          mret (inr ({| rr_r := resp; rr_Close := Resp_Close (pc_Conn pool pc); rr_Release := pc_Release pool pc;
                        rr_released := false; rr_ioErr := None |}, size))
      end
  end.

(** [func (s *Source) Open]. *)
Definition ftp_Open (pool : ConnPool) (src : string) : M W (error + retrReader * Z) :=
  let permanent what := mret (inl (wrapf what (ESentinel ErrPermanent))) in
  match url_parse src with
  | None => permanent ("ftp source: parse " +:+ fmt_q src +:+ ": ")
  | Some u =>
      if negb (bool_decide (u_Scheme u = "ftp"))
      then permanent ("ftp source: scheme " +:+ fmt_q (u_Scheme u) +:+ " not supported: ")
      else if bool_decide (u_Host u = EmptyString)
      then permanent ("ftp source: empty host in " +:+ fmt_q src +:+ ": ")
      else if bool_decide (u_Path u = EmptyString)
      then permanent ("ftp source: empty path in " +:+ fmt_q src +:+ ": ")
      else ftp_Open_at pool (u_Host u) (u_Path u)
  end.

(** [NewSource] and [NewTransport]: the two over one pool, as the worker drives them. *)
Definition ftp_source (pool : ConnPool) : Source W := {|
  Body := retrReader; Body_reader := retr_reader; Open := ftp_Open pool; Close := retr_Close
|}.

Definition ftp_transport (pool : ConnPool) (env : ctx_env) : Transport W := {|
  Send_fn := λ R HR dst body _ w, ftp_Send pool env HR dst body w
|}.

(** ** Lemmas *)

(** A part of the world, and the operations that leave it alone. *)
Definition logs_nothing {T A} (log : W → T) (m : M W A) : Prop := ∀ w, log (snd (m w)) = log w.

Record quiet_conn {T} (log : W → T) (c : ServerConn) : Prop := {
  qc_mkdir : ∀ p, logs_nothing log (MakeDir c p);
  qc_stor : ∀ R HR p (r : R) w, log (snd (Stor c R HR p r w)) = log w;
  qc_delete : ∀ p, logs_nothing log (Delete c p);
  qc_rename : ∀ p q, logs_nothing log (Rename c p q);
  qc_size : ∀ p, logs_nothing log (FileSize c p);
  qc_retr : ∀ p, logs_nothing log (Retr c p);
  qc_close : ∀ r, logs_nothing log (Resp_Close c r);
}.

(** The releases a world has seen. *)
Section Releases.
Context (log : W → list bool).

(** A pool whose checkouts record their release. *)
Record logging_pool (p : ConnPool) : Prop := {
  lp_acquire : ∀ h, logs_nothing log (Acquire p h);
  lp_conn : ∀ h w pc w', Acquire p h w = (Ret (inr pc), w') → quiet_conn log (pc_Conn p pc);
  lp_release : ∀ h w pc w', Acquire p h w = (Ret (inr pc), w') →
    ∀ b w0, ∃ w1, pc_Release p pc b w0 = (Ret tt, w1) ∧ log w1 = log w0 ++ [b];
}.

(** The connection calls of the program do not panic. *)
Record steady_conn (c : ServerConn) : Prop := {
  st_mkdir : ∀ p w, ∃ e w', MakeDir c p w = (Ret e, w');
  st_stor : ∀ R HR p (r : R) w, ∃ e r' w', Stor c R HR p r w = ((Ret e, r'), w');
  st_delete : ∀ p w, ∃ e w', Delete c p w = (Ret e, w');
  st_rename : ∀ p q w, ∃ e w', Rename c p q w = (Ret e, w');
  st_size : ∀ p w, ∃ e w', FileSize c p w = (Ret e, w');
  st_retr : ∀ p w, ∃ e w', Retr c p w = (Ret e, w');
}.

(** What the deletion and the release of a failed transfer come to. *)
Lemma fail_run pool (pc : PooledConn pool) (what : string) err tmp w :
  quiet_conn log (pc_Conn pool pc) → steady_conn (pc_Conn pool pc) →
  (∀ b w0, ∃ w1, pc_Release pool pc b w0 = (Ret tt, w1) ∧ log w1 = log w0 ++ [b]) →
  ∃ w', ((_ ← Delete (pc_Conn pool pc) tmp; _ ← pc_Release pool pc true;
          mret (inl (wrapf what (classify err)))) : M W (error + Z * string)) w
        = (Ret (inl (wrapf what (classify err))), w') ∧ log w' = log w ++ [true].
Proof.
  intros Hq Hs Hr. destruct (st_delete _ Hs tmp w) as (e & w1 & E1).
  pose proof (qc_delete _ _ Hq tmp w) as L1. rewrite E1 in L1. simpl in L1. run_bind E1.
  destruct (Hr true w1) as (w2 & E2 & L2). run_bind E2. eexists. split; [done|]. by rewrite L2, L1.
Qed.

End Releases.

(** ** Properties *)

(** The FTP transport and its connection: a [Send] that returns (the connection's
    methods do not panic) releases the connection it acquired exactly once, as broken
    exactly when it reports an error, and releases nothing when it acquired none.
    When it reports success, the server stored the whole stream of the body up to
    EOF: the count and the digest it returns are those of exactly these bytes. *)
Theorem ftp_Send_spec (log : W → list bool) pool env {R} (HR : Reader R) dst (body : R) w :
  ctx_errors env → logging_pool log pool →
  (∀ h w0, ∃ a w1, Acquire pool h w0 = (Ret a, w1)) →
  (∀ h w0 pc w1, Acquire pool h w0 = (Ret (inr pc), w1) → steady_conn (pc_Conn pool pc)) →
  ∃ r body' w', ftp_Send pool env HR dst body w = ((Ret r, body'), w') ∧
    (log w' = log w ∨ log w' = log w ++ [match r with inl _ => true | inr _ => false end]) ∧
    match r with
    | inl _ => True
    | inr (n, sha) => log w' = log w ++ [false] ∧ ∃ k content,
        (drain k body).1 = (content, Some (ESentinel IoEOF)) ∧
        n = Z.of_nat (length content) ∧ sha = sha256_hex content
    end.
Proof.
  intros Henv [La Lc Lr] Ha Hst. unfold ftp_Send.
  destruct (url_parse dst) as [u|]; [|by eauto 10].
  destruct (negb _ || _ || _); [by eauto 10|]. unfold ftp_Send_to.
  destruct (Ha (u_Host u) w) as (a & w1 & Ea). pose proof (La (u_Host u) w) as L1. rewrite Ea in *. simpl in L1.
  destruct a as [err|pc]; [eexists _, _, _; split; [done|]; split; [by left|done]|].
  pose proof (Lc _ _ _ _ Ea) as Hq. pose proof (Hst _ _ _ _ Ea) as Hs. pose proof (Lr _ _ _ _ Ea) as Hr.
  set (mkdir := if bool_decide _ then _ else _).
  assert (∃ w2, mkdir w1 = (Ret tt, w2) ∧ log w2 = log w1) as (w2 & E2 & L2).
  { unfold mkdir. case_bool_decide; [|by exists w1].
    destruct (st_mkdir _ Hs (path_dir (u_Path u)) w1) as (e & w2 & E).
    pose proof (qc_mkdir _ _ Hq (path_dir (u_Path u)) w1) as L. rewrite E in L. simpl in L.
    exists w2. split; [by run_bind E|done]. }
  rewrite E2.
  set (t0 := Tee (NewCtxReader env body) {| chw_hashed := []; chw_n := 0 |}).
  set (tmp := trim_prefix (u_Path u +:+ ".imgsync.tmp") "/").
  destruct (st_stor _ Hs (tee (ctxReader R)) _ tmp t0 w2) as (e & t1 & w3 & E3).
  pose proof (qc_stor _ _ Hq (tee (ctxReader R)) _ tmp t0 w2) as L3. rewrite E3 in L3. simpl in L3.
  rewrite E3. destruct e as [err|].
  { match goal with |- context [wrapf ?s (classify err)] =>
      destruct (fail_run log pool pc s err tmp w3 Hq Hs Hr) as (w4 & E4 & L4) end. rewrite E4.
    eexists _, _, _. split; [done|]. split; [|done]. right. congruence. }
  destruct (st_rename _ Hs tmp (trim_prefix (u_Path u) "/") w3) as (e & w4 & E4).
  pose proof (qc_rename _ _ Hq tmp (trim_prefix (u_Path u) "/") w3) as L4. rewrite E4 in L4. simpl in L4.
  rewrite (bind_run _ _ _ _ _ E4). destruct e as [err|].
  { match goal with |- context [wrapf ?s (classify err)] =>
      destruct (fail_run log pool pc s err tmp w4 Hq Hs Hr) as (w5 & E5 & L5) end. rewrite E5.
    eexists _, _, _. split; [done|]. split; [|done]. right. congruence. }
  destruct (Hr false w4) as (w5 & E5 & L5). rewrite (bind_run _ _ _ _ _ E5).
  eexists _, _, _. split; [done|]. split; [right; congruence|]. split; [congruence|].
  apply stor_drains in E3 as (k & b & Ed). apply tee_drain in Ed as [Ed Ew]. simpl in Ed.
  exists k, b. rewrite Ew. simpl. split; [|split; [lia|done]].
  destruct (ctx_drain_prefix k (NewCtxReader env body) b _ _ Henv ltac:(done) Ed) as [_ He].
  specialize (He eq_refl). unfold behind in He. simpl in He. by destruct (drain k body) as [[? ?] ?].
Qed.

(** C26: addresses survive the URL: for every host name with an optional port, every path
    of arbitrary bytes and any user info, when the path is written into an ftp URL with
    its percent signs, question marks, hashes and control bytes escaped (and any other
    bytes escaped or not), the transport stores under exactly this host and path and
    the source retrieves exactly this file. A path without those bytes needs no
    escaping at all. *)
Theorem ftp_address_roundtrip pool env {R} (HR : Reader R) keep ui host port p (body : R) w :
  (∀ a, keep a = true → plain_byte a = true) → authority_ok ui host port → host ≠ EmptyString →
  let url := "ftp://" +:+ (ui +:+ host +:+ port) +:+ String "/" (url_encode keep p) in
  ftp_Send pool env HR url body w = ftp_Send_to pool env HR (host +:+ port) (String "/" p) body w ∧
  ftp_Open pool url w = ftp_Open_at pool (host +:+ port) (String "/" p) w ∧
  (all_chars plain_byte p = true →
     ftp_Send pool env HR ("ftp://" +:+ (ui +:+ host +:+ port) +:+ String "/" p) body w
     = ftp_Send_to pool env HR (host +:+ port) (String "/" p) body w).
Proof.
  intros Hk Ha Hh url. assert (host +:+ port ≠ EmptyString) as Hne by (by destruct host).
  assert (∀ k, (∀ a, k a = true → plain_byte a = true) →
    ftp_Send pool env HR ("ftp://" +:+ (ui +:+ host +:+ port) +:+ String "/" (url_encode k p)) body w
    = ftp_Send_to pool env HR (host +:+ port) (String "/" p) body w) as Hsend.
  { intros k Hk'. unfold ftp_Send. rewrite url_parse_ftp by done. cbn [u_Scheme u_Host u_Path].
    by rewrite bool_decide_true, !bool_decide_false. }
  split; [by apply Hsend|]. split.
  - unfold ftp_Open, url. rewrite url_parse_ftp by done. cbn [u_Scheme u_Host u_Path].
    by rewrite bool_decide_true, !bool_decide_false.
  - intros Hp. rewrite <- (Hsend plain_byte) by done. by rewrite url_encode_plain.
Qed.

(** Reading a body to its end remembers the error that ended it, EOF apart. *)
Lemma retr_drain k r b e r' :
  drain k r = (b, Some e, r') →
  rr_Close r' = rr_Close r ∧ rr_Release r' = rr_Release r ∧ rr_released r' = rr_released r ∧
  rr_ioErr r' = (if is_EOF e then rr_ioErr r else Some e).
Proof.
  remember (remaining (rr_r r)) as m eqn:Hm. revert r b Hm.
  induction (lt_wf m) as [m _ IH]; intros r b -> E.
  rewrite drain_eq in E. simpl in E. unfold retr_read in E.
  destruct (read k (rr_r r)) as [[rb [re|]] r1] eqn:Er.
  { injection E as <- <- <-. simpl. by destruct (is_EOF re). }
  match type of E with context [drain k ?x] => destruct (drain k x) as [[b1 e1] t1] eqn:Ed end.
  injection E as <- -> ->. apply read_progress in Er. by apply (IH (remaining r1)) in Ed.
Qed.

(** The FTP source and its connection: [Open] keeps the connection checked out
    exactly when it returns a body, and otherwise gave back what it acquired, once, as
    broken; a 550 that is no permission problem is skippable, the other failures of
    RETR keep their class. Whoever reads the body to its end and closes it releases
    the connection exactly once, as broken exactly when the stream did not end in EOF
    or the close failed; closing it again releases nothing. *)
Theorem ftp_Open_spec (log : W → list bool) pool src w :
  logging_pool log pool →
  (∀ h w0, ∃ a w1, Acquire pool h w0 = (Ret a, w1)) →
  (∀ h w0 pc w1, Acquire pool h w0 = (Ret (inr pc), w1) → steady_conn (pc_Conn pool pc)) →
  ∃ r w', ftp_Open pool src w = (Ret r, w') ∧
    match r with
    | inl e => log w' = log w ∨
        (log w' = log w ++ [true] ∧
         ∃ err what, e = wrapf what (if isNotFound err then ESentinel ErrSkippable else err))
    | inr (body, _) => log w' = log w ∧
        ∀ k b e body' w0 ce w1, drain k body = (b, Some e, body') →
          rr_Close body' (rr_r body') w0 = (Ret ce, w1) →
          ∃ w2, retr_Close body' w0 = (Ret ce, w2) ∧
            log w2 = log w0 ++ [negb (is_EOF e) || match ce with Some _ => true | None => false end] ∧
            log (snd (retr_Close (retr_closed body') w2)) = log w2
    end.
Proof.
  intros [La Lc Lr] Ha Hst. unfold ftp_Open.
  destruct (url_parse src) as [u|]; [|eexists _, _; split; [done|by left]].
  destruct (negb _); [eexists _, _; split; [done|by left]|].
  do 2 (case_bool_decide; [eexists _, _; split; [done|by left]|]). unfold ftp_Open_at.
  destruct (Ha (u_Host u) w) as (a & w1 & Ea). pose proof (La (u_Host u) w) as L1.
  rewrite Ea in L1. simpl in L1. rewrite (bind_run _ _ _ _ _ Ea).
  destruct a as [err|pc]; [eexists _, _; split; [done|]; by left|].
  pose proof (Lc _ _ _ _ Ea) as Hq. pose proof (Hst _ _ _ _ Ea) as Hs. pose proof (Lr _ _ _ _ Ea) as Hr.
  destruct (st_size _ Hs (u_Path u) w1) as (sz & w2 & E2).
  pose proof (qc_size _ _ Hq (u_Path u) w1) as L2. rewrite E2 in L2. simpl in L2.
  rewrite (bind_run _ _ _ _ _ E2).
  destruct (st_retr _ Hs (u_Path u) w2) as (r & w3 & E3).
  pose proof (qc_retr _ _ Hq (u_Path u) w2) as L3. rewrite E3 in L3. simpl in L3.
  rewrite (bind_run _ _ _ _ _ E3). destruct r as [err|resp].
  - destruct (Hr true w3) as (w4 & E4 & L4). rewrite (bind_run _ _ _ _ _ E4).
    destruct (isNotFound err) eqn:En; (eexists _, _; split; [done|]; right; split; [congruence|]);
      exists err, ("ftp source: retr " +:+ u_Path u +:+ ": "); by rewrite En.
  - eexists _, _. split; [done|]. split; [congruence|].
    intros k b e body' w0 ce w4 Hd Ec. apply retr_drain in Hd as (Ecl & Erl & Erel & Eio). simpl in *.
    unfold retr_Close. rewrite (bind_run _ _ _ _ _ Ec), Erel, Erl, Eio.
    pose proof (qc_close _ _ Hq (rr_r body') w0) as L5. rewrite Ecl in Ec. rewrite Ec in L5. simpl in L5.
    match goal with |- context [pc_Release pool pc ?x] => destruct (Hr x w4) as (w5 & E5 & L6) end.
    rewrite (bind_run _ _ _ _ _ E5). eexists. split; [done|]. split.
    + rewrite L6, L5. do 2 f_equal. by destruct (is_EOF e), ce.
    + simpl. rewrite Ecl. pose proof (qc_close _ _ Hq (rr_r body') w5) as L7. unfold mbind, M_bind.
      by destruct (Resp_Close (pc_Conn pool pc) (rr_r body') w5) as [[x|v] w6].
Qed.

End Ftp.

(** Which FTP replies are final: [classify] marks an error permanent exactly when it
    already was, or when the first protocol reply it carries is 550, 552 or 553; it
    never makes one skippable; every other error is returned unchanged. *)
Theorem classify_spec err :
  errors_is (classify err) ErrPermanent
  = errors_is err ErrPermanent
    || match errors_as_proto err with Some (code, _) => permanent_code code | None => false end ∧
  errors_is (classify err) ErrSkippable = errors_is err ErrSkippable ∧
  errors_as_proto (classify err) = errors_as_proto err ∧
  (match errors_as_proto err with Some (code, _) => permanent_code code | None => false end = false →
   classify err = err).
Proof.
  unfold classify. destruct (errors_as_proto err) as [[code msg]|] eqn:Ep.
  - destruct (permanent_code code) eqn:Ec.
    + autorewrite with imgsync_rw. simpl. rewrite Ep, orb_false_r. split_and!; [|done..].
      by rewrite orb_true_r.
    + by rewrite orb_false_r.
  - by rewrite orb_false_r.
Qed.

(** ** Witnesses *)

(** A server that accepts everything. *)
#[refine] Definition toy_conn {W} : @ServerConn W (list chunk) := {|
  MakeDir := λ _, mret None;
  Stor := λ R HR _ r w,
    let '(b, e, r') := drain 8 r in
    ((Ret (e ≫= hide_EOF), r'), w);
  Delete := λ _, mret None;
  Rename := λ _ _, mret None;
  FileSize := λ _, mret (inr 3%Z);
  Retr := λ _, mret (inr [Chunk [x00; x01; x02] None]);
  Resp_Close := λ _, mret None
|}.
Proof.
  intros R HR p r w r' w' E. destruct (drain_ends 8 r) as (b & e & r1 & Ed). rewrite Ed in E.
  simpl in E. injection E as He <- <-. exists 8, b. rewrite Ed. unfold hide_EOF in He.
  destruct (is_EOF e) eqn:Ee; [|done]. by destruct e as [[]| | |].
Defined.

(** The world is only the log of releases. *)
Definition toy_connpool : @ConnPool (list bool) (list chunk) := {|
  PooledConn := unit; Acquire := λ _, mret (inr tt); pc_Conn := λ _, toy_conn;
  pc_Release := λ _ b w, (Ret tt, w ++ [b])
|}.

Lemma toy_logging : logging_pool (λ w, w) toy_connpool.
Proof.
  split; [done| |].
  - intros h w pc w' [= <- _]. split; try done. intros R HR p r w0. simpl.
    by destruct (drain 8 r) as [[? ?] ?].
  - intros h w pc w' [= <- _] b w0. by eexists.
Qed.

Lemma toy_steady {W} : steady_conn (W := W) toy_conn.
Proof.
  split; try (by intros; eexists _, _). intros R HR p r w. simpl.
  destruct (drain 8 r) as [[? ?] ?]. by eexists _, _, _.
Qed.

Lemma ftp_Send_spec_witness : ∃ r body' w',
  ftp_Send (λ s, s) toy_connpool background
    chunk_reader "ftp://h/a/b" [Chunk [x00; x01] None] [] = ((Ret r, body'), w') ∧
  r = inr (2%Z, sha256_hex [x00; x01]).
Proof.
  destruct (ftp_Send_spec (λ s, s) (λ w, w)
    toy_connpool background chunk_reader "ftp://h/a/b" [Chunk [x00; x01] None] [])
    as (r & body' & w' & E & _).
  - intros k e. simpl. by intros [|].
  - apply toy_logging.
  - intros h w0. by eexists _, _.
  - intros h w0 pc w1 [= <- _]. apply toy_steady.
  - exists r, body', w'. split; [exact E|]. vm_compute in E. by simplify_eq.
Defined.

Lemma ftp_Open_spec_witness : ∃ r w', ftp_Open (λ s, s) toy_connpool "ftp://h/a/b" [] = (Ret r, w').
Proof.
  destruct (ftp_Open_spec (λ s, s) (λ w, w) toy_connpool "ftp://h/a/b" [])
    as (r & w' & E & _).
  - apply toy_logging.
  - intros h w0. by eexists _, _.
  - intros h w0 pc w1 [= <- _]. apply toy_steady.
  - by exists r, w'.
Defined.

(** A path with a space, a percent sign, a question mark and a hash. *)
Lemma ftp_address_roundtrip_witness :
  url_encode plain_byte "a b%?#.png" = "a b%25%3F%23.png"%string ∧
  ftp_Send (λ s, s) toy_connpool background chunk_reader
    "ftp://u:p@h:21/a b%25%3F%23.png" [Chunk [x00] None] []
  = ftp_Send_to toy_connpool background chunk_reader "h:21" "/a b%?#.png"
      [Chunk [x00] None] [].
Proof.
  split; [vm_compute; reflexivity|].
  refine (proj1 (ftp_address_roundtrip (λ s, s) toy_connpool background chunk_reader
    plain_byte "u:p@" "h" ":21" "a b%?#.png" [Chunk [x00] None] [] _ _ _)).
  - done.
  - split; [right; by exists "u:p"%string|done|right; by exists "21"%string].
  - discriminate.
Defined.

(** Written into the URL as they are, a hash and a question mark cut the path: the file
    is stored under another name, and names that agree up to there collide. *)
Theorem hash_cuts_path {W Resp} `{Reader Resp} fmt_q (pool : @ConnPool W Resp) env
    {R} (HR : Reader R) (body : R) w :
  ftp_Send fmt_q pool env HR "ftp://h:21/in/a#1.png" body w
  = ftp_Send_to pool env HR "h:21" "/in/a" body w ∧
  ftp_Send fmt_q pool env HR "ftp://h:21/in/a#2.png" body w
  = ftp_Send_to pool env HR "h:21" "/in/a" body w.
Proof. split; reflexivity. Qed.
