(* ===== verification/Invariant.v ===== *)
(** * The invariant of the control database

    What every statement of the program preserves: the shape of a row, the UNIQUE
    key, the foreign key of the events, and the audit laws that tie the events of a
    job to its status and to its attempts. One lemma per kind of write; the
    components and the system model reuse them. *)

From S2P Require Import Prelude GoLang Store Worker.

Local Open Scope Z_scope.

(** ** Definitions *)

(** Events of kind [st] recorded for job [i]. *)
Definition is_ev (st : event_status) (i : Z) (e : transfer_event) : bool :=
  bool_decide (ev_job_id e = i) && bool_decide (ev_status e = st).

Definition n_ev (st : event_status) (i : Z) (l : list transfer_event) : Z :=
  Z.of_nat (countb (is_ev st i) l).

Definition b2z (b : bool) : Z := if b then 1 else 0.

(** A row is locked exactly while it is leased; attempts stay in the retry budget,
    strictly below it until the job is settled. *)
Record row_wf (i : Z) (r : transfer_job) : Prop := {
  rw_id : id r = i;
  rw_by : is_Some (locked_by r) ↔ status r = Leased;
  rw_at : is_Some (locked_at r) ↔ status r = Leased;
  rw_attempts : 0 <= attempts r <= max_attempts r;
  rw_max : 0 < max_attempts r < 2 ^ 31;
  rw_budget : terminal (status r) = false → attempts r < max_attempts r;
}.

(** The audit laws: one success, skip or dead event exactly when the job has that
    status, and one fail or dead event per counted attempt. *)
Record audit (r : transfer_job) (l : list transfer_event) : Prop := {
  au_success : n_ev EvSuccess (id r) l = b2z (bool_decide (status r = Succeeded));
  au_skip : n_ev EvSkip (id r) l = b2z (bool_decide (status r = Skipped));
  au_dead : n_ev EvDead (id r) l = b2z (bool_decide (status r = Dead));
  au_attempts : attempts r = n_ev EvFail (id r) l + n_ev EvDead (id r) l;
}.

Record wf (t : tables) : Prop := {
  wf_rows : ∀ i r, jobs t !! i = Some r → row_wf i r;
  wf_seq : ∀ i r, jobs t !! i = Some r → i < jobs_seq t;
  wf_unique : ∀ i1 i2 r1 r2, jobs t !! i1 = Some r1 → jobs t !! i2 = Some r2 →
    trace_id r1 = trace_id r2 → dst r1 = dst r2 → i1 = i2;
  wf_fk : ∀ e, e ∈ events t →
    ∃ r, jobs t !! ev_job_id e = Some r ∧ trace_id r = ev_trace_id e;
  wf_audit : ∀ i r, jobs t !! i = Some r → audit r (events t);
}.

(** The columns no UPDATE of the program touches. *)
Definition same_identity (r r' : transfer_job) : Prop :=
  id r' = id r ∧ trace_id r' = trace_id r ∧ src r' = src r ∧ dst r' = dst r ∧
  src_protocol r' = src_protocol r ∧ dst_protocol r' = dst_protocol r ∧
  payload r' = payload r ∧ max_attempts r' = max_attempts r ∧ created_at r' = created_at r.

(** Worker [w] holds the lease of the row. *)
Definition leased_by (w : string) (r : transfer_job) : Prop :=
  status r = Leased ∧ locked_by r = Some w.

#[export] Instance leased_by_dec w r : Decision (leased_by w r).
Proof. unfold leased_by. apply _. Defined.

(** The row waits for a worker: pending, due, and not locked by another transaction. *)
Definition ready (e : session_env) (r : transfer_job) : Prop :=
  status r = Pending ∧ next_run_at r <= now e ∧ id r ∉ row_locks e.

#[export] Instance ready_dec e r : Decision (ready e r).
Proof. unfold ready. apply _. Defined.

(** Every column of the row [r'] that a lease of [r] by [w] at [ts] leaves. *)
Record leased_as (w : string) (ts : Z) (r r' : transfer_job) : Prop := {
  la_identity : same_identity r r';
  la_status : status r' = Leased;
  la_attempts : attempts r' = attempts r;
  la_next_run_at : next_run_at r' = next_run_at r;
  la_locked_at : locked_at r' = Some ts;
  la_locked_by : locked_by r' = Some w;
  la_updated_at : updated_at r' = ts;
}.

(** Every column of the row [r'] that an outcome written at [ts] over [r] leaves. *)
Record settled_as (st : job_status) (a nra ts : Z) (r r' : transfer_job) : Prop := {
  sa_identity : same_identity r r';
  sa_status : status r' = st;
  sa_attempts : attempts r' = a;
  sa_next_run_at : next_run_at r' = nra;
  sa_locked_at : locked_at r' = None;
  sa_locked_by : locked_by r' = None;
  sa_updated_at : updated_at r' = ts;
}.

Lemma lease_row_as w ts r : leased_as w ts r (lease_row w ts r).
Proof. by repeat split. Qed.

Lemma settle_row_as st a nra ts r : settled_as st a nra ts r (settle_row st a nra ts r).
Proof. by repeat split. Qed.

(** The WHERE clauses of the outcome writes and of the dispatch, as predicates. *)
Lemma lease_guard_true w r : lease_guard w r = true ↔ leased_by w r.
Proof. unfold lease_guard, leased_by. by rewrite andb_true_iff, !bool_decide_eq_true. Qed.

Lemma lease_guard_false w r : lease_guard w r = false ↔ ¬ leased_by w r.
Proof. rewrite <- lease_guard_true. by destruct (lease_guard w r). Qed.

Lemma leasable_true e r : leasable e r = true ↔ ready e r.
Proof.
  unfold leasable, ready. rewrite !andb_true_iff, !bool_decide_eq_true, Z.leb_le. tauto.
Qed.

#[export] Hint Resolve lease_row_as settle_row_as : imgsync.

(** The outcomes a worker may record for a leased row: new status, new attempts,
    event. *)
Inductive settles (r : transfer_job) : job_status → Z → event_status → Prop :=
| settles_success : settles r Succeeded (attempts r) EvSuccess
| settles_skip : settles r Skipped (attempts r) EvSkip
| settles_dead : settles r Dead (attempts r + 1) EvDead
| settles_retry : attempts r + 1 < max_attempts r → settles r Pending (attempts r + 1) EvFail.

(** Events that leave the audit laws alone. *)
Definition neutral (st : event_status) : bool :=
  match st with
  | EvEnqueue | EvLease | EvExpire => true
  | _ => false
  end.

(** ** Counting *)

Lemma n_ev_app st i l1 l2 : n_ev st i (l1 ++ l2) = n_ev st i l1 + n_ev st i l2.
Proof. unfold n_ev. rewrite countb_app. lia. Qed.

Lemma n_ev_snoc st i l e : n_ev st i (l ++ [e]) = n_ev st i l + b2z (is_ev st i e).
Proof. rewrite n_ev_app. unfold n_ev, b2z. simpl. by destruct (is_ev st i e). Qed.

Lemma n_ev_nonneg st i l : 0 <= n_ev st i l.
Proof. unfold n_ev. lia. Qed.

Lemma n_ev_none st i l : (∀ e, e ∈ l → ev_job_id e ≠ i) → n_ev st i l = 0.
Proof.
  intros Hl. unfold n_ev. rewrite countb_zero; [done|].
  intros e He. unfold is_ev. by rewrite bool_decide_false by eauto.
Qed.

Lemma n_ev_delete st i l (ids : list Z) :
  i ∉ ids → n_ev st i (filter (λ e, ev_job_id e ∉ ids) l) = n_ev st i l.
Proof.
  intros Hi. unfold n_ev. f_equal. induction l as [|e l IH]; [done|].
  rewrite filter_cons. case_decide as Hin; simpl; [by rewrite IH|].
  rewrite IH. unfold is_ev at 2. rewrite bool_decide_false; [done|].
  by intros <-.
Qed.

Lemma is_ev_other st i tid j ts ev d k :
  i ≠ j → is_ev st i {| ev_id := k; ev_trace_id := tid; ev_job_id := j; ev_ts := ts;
                        ev_status := ev; ev_detail := d |} = false.
Proof. intros Hne. unfold is_ev. simpl. by rewrite bool_decide_false by auto. Qed.

Lemma is_ev_same st i tid ts ev d k :
  is_ev st i {| ev_id := k; ev_trace_id := tid; ev_job_id := i; ev_ts := ts;
                ev_status := ev; ev_detail := d |} = bool_decide (ev = st).
Proof. unfold is_ev. simpl. by rewrite bool_decide_true. Qed.

(** An audit law only looks at the events of its own job. *)
Lemma audit_snoc_other r l e : ev_job_id e ≠ id r → audit r l → audit r (l ++ [e]).
Proof.
  intros Hne [? ? ? ?]. split; rewrite !n_ev_snoc;
    (unfold is_ev; rewrite (bool_decide_false (ev_job_id e = id r)) by done; simpl; lia).
Qed.

Lemma audit_snoc_neutral r l e : neutral (ev_status e) = true → audit r l → audit r (l ++ [e]).
Proof.
  intros Hn [? ? ? ?]. split; rewrite !n_ev_snoc; unfold is_ev;
    destruct (ev_status e); simplify_eq/=; rewrite andb_false_r; simpl; lia.
Qed.

Lemma audit_settled r l st a ev nra ts d tid k ts' :
  status r = Leased → audit r l → settles r st a ev →
  audit (settle_row st a nra ts r)
    (l ++ [{| ev_id := k; ev_trace_id := tid; ev_job_id := id r; ev_ts := ts';
              ev_status := ev; ev_detail := d |}]).
Proof.
  intros Hst [Hs Hk Hd Ha] Hout. rewrite Hst in *.
  split; simpl; rewrite !n_ev_snoc, !is_ev_same; destruct Hout; simpl in *; lia.
Qed.

(** ** Well-formed tables: preservation *)

Lemma wf_empty_tables : wf empty_tables.
Proof. split; simpl; intros *; try (rewrite lookup_empty; done). set_solver. Qed.

(** Advancing the sequences, or undoing a transaction, is harmless. *)
Lemma wf_rolled_back t t' : wf t → jobs_seq t <= jobs_seq t' → wf (rolled_back t t').
Proof.
  intros [Hr Hs Hu Hf Ha] Hle. split; simpl; try done.
  intros i r Hi. specialize (Hs i r Hi). lia.
Qed.

Lemma row_wf_lease i r w ts : row_wf i r → status r = Pending → row_wf i (lease_row w ts r).
Proof.
  intros [] Hp. split; simpl; try done.
  intros _. apply rw_budget0. by rewrite Hp.
Qed.

Lemma row_wf_settle i r st a ev nra ts :
  row_wf i r → status r = Leased → settles r st a ev → row_wf i (settle_row st a nra ts r).
Proof.
  intros [Hid Hby Hat Hatt Hmax Hbud] Hl Hout.
  assert (attempts r < max_attempts r) by (apply Hbud; by rewrite Hl).
  destruct Hout; split; simpl; try done; try lia;
    (split; [by intros [? ?]|done]).
Qed.

Lemma row_wf_release i r nra ts :
  row_wf i r → terminal (status r) = false → row_wf i (settle_row Pending (attempts r) nra ts r).
Proof.
  intros [Hid Hby Hat Hatt Hmax Hbud] Hl.
  split; simpl; try done; try (split; [by intros [? ?]|done]). auto.
Qed.

(** A point update that keeps the identity of the row. *)
Lemma wf_update_row t i r r' :
  wf t → jobs t !! i = Some r → row_wf i r' → same_identity r r' → audit r' (events t) →
  wf (set_jobs (<[i := r']> (jobs t)) t).
Proof.
  intros [Hr Hs Hu Hf Ha] Hi Hw (Hid & Htid & _ & Hdst & _) Hau.
  assert (∀ j s, <[i := r']> (jobs t) !! j = Some s →
    ∃ s0, jobs t !! j = Some s0 ∧ trace_id s = trace_id s0 ∧ dst s = dst s0) as Hback.
  { intros j s. rewrite lookup_insert. case_decide; intros; simplify_eq; eauto. }
  split; simpl.
  - intros j s. rewrite lookup_insert. case_decide; intros; simplify_eq; eauto.
  - intros j s Hj. destruct (Hback _ _ Hj) as (s0 & Hj0 & _). eauto.
  - intros i1 i2 r1 r2 H1 H2 Ht Hd.
    destruct (Hback _ _ H1) as (s1 & ? & ? & ?), (Hback _ _ H2) as (s2 & ? & ? & ?).
    eapply Hu; eauto; congruence.
  - intros e He. destruct (Hf e He) as (s & Hj & Ht). rewrite lookup_insert.
    case_decide as Heq; [|by eauto]. exists r'. split; [done|].
    rewrite <- Heq in Hj. rewrite Hi in Hj. simplify_eq. congruence.
  - intros j s. rewrite lookup_insert. case_decide; intros; simplify_eq; eauto.
Qed.

Lemma wf_push_neutral t ts i r st d :
  wf t → jobs t !! i = Some r → neutral st = true →
  wf (push_event ts (trace_id r) i st d t).
Proof.
  intros [Hr Hs Hu Hf Ha] Hi Hn. split; simpl; try done.
  - intros e He. apply elem_of_app in He as [He|He%list_elem_of_singleton]; [eauto|].
    subst e. simpl. eauto.
  - intros j s Hj. apply audit_snoc_neutral; eauto.
Qed.

(** The CTE of the worker: settle a leased row and record its event. *)
Lemma wf_settle t i r st a ev nra ts d :
  wf t → jobs t !! i = Some r → status r = Leased → settles r st a ev →
  wf (push_event ts (trace_id r) i ev d (set_jobs (<[i := settle_row st a nra ts r]> (jobs t)) t)).
Proof.
  intros [Hr Hs Hu Hf Ha] Hi Hl Hout. pose proof (rw_id _ _ (Hr _ _ Hi)) as Hid.
  assert (∀ j s, <[i := settle_row st a nra ts r]> (jobs t) !! j = Some s →
    ∃ s0, jobs t !! j = Some s0 ∧ trace_id s = trace_id s0 ∧ dst s = dst s0) as Hback.
  { intros j s. rewrite lookup_insert. case_decide; intros; simplify_eq; eauto. }
  split; simpl.
  - intros j s. rewrite lookup_insert. case_decide; intros; simplify_eq; eauto using row_wf_settle.
  - intros j s Hj. destruct (Hback _ _ Hj) as (s0 & Hj0 & _). eauto.
  - intros i1 i2 r1 r2 H1 H2 Ht Hd.
    destruct (Hback _ _ H1) as (s1 & ? & ? & ?), (Hback _ _ H2) as (s2 & ? & ? & ?).
    eapply Hu; eauto; congruence.
  - intros e He. rewrite lookup_insert.
    apply elem_of_app in He as [He|He%list_elem_of_singleton].
    + destruct (Hf e He) as (s & Hj & Ht). case_decide as Heq; [|by eauto].
      rewrite <- Heq, Hi in Hj. simplify_eq. eexists; split; [done|]. done.
    + subst e. simpl. rewrite decide_True by done. by eexists.
  - intros j s. rewrite lookup_insert. case_decide as Heq; intros Hj; simplify_eq.
    + apply audit_settled; eauto.
    + apply audit_snoc_other; [simpl; rewrite (rw_id _ _ (Hr _ _ Hj)); done|eauto].
Qed.

(** Sweeper and drain: rows that are not settled go back to pending. *)
Lemma wf_release_where t p ts :
  wf t → (∀ r, p r = true → terminal (status r) = false) →
  wf (update_jobs p (λ r, settle_row Pending (attempts r) (next_run_at r) ts r) t).
Proof.
  intros [Hr Hs Hu Hf Ha] Hp. unfold update_jobs.
  set (g r := if p r then settle_row Pending (attempts r) (next_run_at r) ts r else r).
  assert (∀ r, trace_id (g r) = trace_id r ∧ dst (g r) = dst r ∧ id (g r) = id r) as Hg.
  { intros r. unfold g. by destruct (p r). }
  split; simpl.
  - intros i s (r & <- & Hi)%lookup_fmap_Some. unfold g. destruct (p r) eqn:E; [|by eauto].
    apply row_wf_release; eauto.
  - intros i s (r & <- & Hi)%lookup_fmap_Some. eauto.
  - intros i1 i2 s1 s2 (r1 & <- & H1)%lookup_fmap_Some (r2 & <- & H2)%lookup_fmap_Some.
    destruct (Hg r1) as (-> & -> & _), (Hg r2) as (-> & -> & _). eauto.
  - intros e He. destruct (Hf e He) as (r & Hj & Ht). exists (g r).
    rewrite lookup_fmap, Hj. destruct (Hg r) as (-> & _). done.
  - intros i s (r & <- & Hi)%lookup_fmap_Some. specialize (Ha _ _ Hi).
    unfold g. destruct (p r) eqn:E; [|done]. apply Hp in E.
    destruct Ha as [A1 A2 A3 A4]. split; simpl; [..|done];
      (rewrite A1 || rewrite A2 || rewrite A3); destruct (status r); done.
Qed.

(** A fresh row with its key free. *)
Lemma wf_insert `{ScanOrder} t ts tid s d sp dp pl ma o t' :
  wf t → 0 < ma < 2 ^ 31 → insert_job ts tid s d sp dp pl ma t = (o, t') →
  wf t' ∧ jobs_seq t <= jobs_seq t'.
Proof.
  intros [Hr Hs Hu Hf Ha] Hma Hins. unfold insert_job in Hins.
  destruct (find_key tid d t) as [r0|] eqn:Ek; injection Hins as <- <-; simpl; (split; [|lia]).
  - split; simpl; try done. intros i r Hi. specialize (Hs i r Hi). lia.
  - assert (jobs t !! jobs_seq t = None) as Hfresh.
    { destruct (jobs t !! jobs_seq t) as [r|] eqn:E; [|done]. apply Hs in E. lia. }
    split; simpl.
    + intros i r. rewrite lookup_insert. case_decide as Hc; intros Hi; [|by eauto].
      injection Hi as <-. rewrite <- Hc.
      split; simpl; try lia; try done; by split; [intros [? ?]|].
    + intros i r. rewrite lookup_insert. case_decide; intros Hi; [lia|].
      specialize (Hs i r Hi). lia.
    + intros i1 i2 r1 r2. rewrite !lookup_insert.
      repeat case_decide; intros Hi1 Hi2 Ht Hd; simplify_eq/=; try done; [| |by eauto];
        exfalso; eapply find_key_None; eauto.
    + intros e He. destruct (Hf e He) as (r & Hi & Ht). exists r. split; [|done].
      rewrite lookup_insert. case_decide as Hc; [|done]. congruence.
    + intros i r. rewrite lookup_insert. case_decide as Hc; intros Hi; [|by eauto].
      injection Hi as <-.
      assert (∀ st, n_ev st (jobs_seq t) (events t) = 0) as Hz.
      { intros st. apply n_ev_none. intros e He Heq.
        destruct (Hf e He) as (r & Hi & _). congruence. }
      split; simpl; rewrite !Hz; done.
Qed.

Lemma wf_delete t ids : wf t → wf (delete_jobs ids t).
Proof.
  intros [Hr Hs Hu Hf Ha].
  assert (∀ i r, jobs (delete_jobs ids t) !! i = Some r → (i ∉ ids) ∧ jobs t !! i = Some r) as Hd.
  { intros i r. rewrite jobs_delete. by case_decide. }
  split.
  - intros i r [_ ?]%Hd. eauto.
  - intros i r [_ ?]%Hd. simpl. eauto.
  - intros i1 i2 r1 r2 [_ ?]%Hd [_ ?]%Hd. eauto.
  - intros e He. simpl in He. apply list_elem_of_filter in He as [Hni He].
    destruct (Hf e He) as (r & Hi & Ht). exists r. split; [|done].
    rewrite jobs_delete. by rewrite decide_False.
  - intros i r [Hni Hi]%Hd. pose proof (rw_id _ _ (Hr _ _ Hi)) as Hid.
    destruct (Ha _ _ Hi) as [A1 A2 A3 A4]. rewrite Hid in *.
    split; simpl; rewrite !n_ev_delete; rewrite Hid; auto.
Qed.

Lemma wf_lease t r w ts :
  wf t → jobs t !! id r = Some r → status r = Pending →
  wf (set_jobs (<[id r := lease_row w ts r]> (jobs t)) t).
Proof.
  intros Hwf Hi Hp. eapply wf_update_row; try done.
  - apply row_wf_lease; [by apply Hwf|done].
  - destruct (wf_audit _ Hwf _ _ Hi) as [A1 A2 A3 A4]. rewrite Hp in *. split; simpl in *; done.
Qed.

#[export] Hint Resolve wf_lease wf_delete wf_settle wf_push_neutral wf_release_where : imgsync.

(** Scanning the table lists every id once. *)
Lemma scan_ids `{ScanOrder} t : wf t → id <$> scan (jobs t) ≡ₚ (map_to_list (jobs t)).*1.
Proof.
  intros Hwf. rewrite scan_perm, <- list_fmap_compose.
  erewrite list_fmap_ext; [done|]. intros k [i r] Hk. simpl.
  apply list_elem_of_lookup_2, elem_of_map_to_list in Hk.
  apply (rw_id _ _ (wf_rows _ Hwf _ _ Hk)).
Qed.

Lemma scan_ids_NoDup `{ScanOrder} t : wf t → NoDup (id <$> scan (jobs t)).
Proof. intros Hwf. rewrite scan_ids by done. apply NoDup_fst_map_to_list. Qed.

Lemma NoDup_ids_filter (p : transfer_job → bool) l :
  NoDup (id <$> l) → NoDup (id <$> List.filter p l).
Proof.
  induction l as [|r l IH]; simpl; [done|]. intros [Hn Hd]%NoDup_cons.
  destruct (p r); simpl; [|by apply IH]. apply NoDup_cons. split; [|by apply IH].
  intros (r' & Hr & Hin)%list_elem_of_fmap. apply Hn. rewrite Hr.
  apply list_elem_of_fmap_2. apply list_elem_of_In in Hin.
  apply filter_In in Hin as [Hin _]. by apply list_elem_of_In.
Qed.

Lemma elem_of_scan_id `{ScanOrder} t r : wf t → r ∈ scan (jobs t) ↔ jobs t !! id r = Some r.
Proof.
  intros Hwf. rewrite elem_of_scan. split; [|by eauto].
  intros [i Hi]. pose proof (rw_id _ _ (wf_rows _ Hwf _ _ Hi)) as Hid. by rewrite Hid.
Qed.
