(* ===== verification/Spec.v ===== *)
(** * The abstract queue, and what it means for the tables to evolve

    [astep] is the contract of the queue with the locks, timestamps and events
    left out: a job is submitted once per key, taken by one worker at a time,
    completed, retried within its budget, reclaimed, and forgotten only once it is
    done. [evolution] is the relation every operation but the lease is shown to stay
    in, [history] the one all of them stay in; the system model composes the
    operations through it. *)

From S2P Require Import Prelude GoLang Store Worker Invariant.

Local Open Scope Z_scope.

(** ** Abstract jobs *)

Inductive outcome : Set := Transferred | NotTransferred | DeadLettered.

Inductive phase : Type :=
| Queued
| Running (w : string)
| Done (o : outcome).

Record ajob := {
  a_key : string * string;
  a_fails : Z;
  a_budget : Z;
  a_phase : phase;
}.

Definition with_phase (f : Z) (p : phase) (a : ajob) : ajob :=
  {| a_key := a_key a; a_fails := f; a_budget := a_budget a; a_phase := p |}.

(** What can happen to a job of the queue, with the worker it happens through. *)
Inductive qaction : Type :=
| ASubmit (i : Z) (key : string * string) (b : Z)
| ATake (i : Z) (w : string)
| ASucceed (i : Z) (w : string)
| ASkip (i : Z) (w : string)
| ADie (i : Z) (w : string)
| ARetry (i : Z) (w : string)
| AReclaim (i : Z) (w : string)
| AForget (i : Z).

Inductive alstep : qaction → gmap Z ajob → gmap Z ajob → Prop :=
| a_submit q i key b :
    q !! i = None → (∀ j a, q !! j = Some a → a_key a ≠ key) → 0 < b →
    alstep (ASubmit i key b) q
      (<[i := {| a_key := key; a_fails := 0; a_budget := b; a_phase := Queued |}]> q)
| a_take q i a w :
    q !! i = Some a → a_phase a = Queued → a_fails a < a_budget a →
    alstep (ATake i w) q (<[i := with_phase (a_fails a) (Running w) a]> q)
| a_succeed q i a w :
    q !! i = Some a → a_phase a = Running w →
    alstep (ASucceed i w) q (<[i := with_phase (a_fails a) (Done Transferred) a]> q)
| a_skip q i a w :
    q !! i = Some a → a_phase a = Running w →
    alstep (ASkip i w) q (<[i := with_phase (a_fails a) (Done NotTransferred) a]> q)
| a_die q i a w :
    q !! i = Some a → a_phase a = Running w → a_fails a < a_budget a →
    alstep (ADie i w) q (<[i := with_phase (a_fails a + 1) (Done DeadLettered) a]> q)
| a_retry q i a w :
    q !! i = Some a → a_phase a = Running w → a_fails a + 1 < a_budget a →
    alstep (ARetry i w) q (<[i := with_phase (a_fails a + 1) Queued a]> q)
| a_reclaim q i a w :
    q !! i = Some a → a_phase a = Running w →
    alstep (AReclaim i w) q (<[i := with_phase (a_fails a) Queued a]> q)
| a_forget q i a o :
    q !! i = Some a → a_phase a = Done o → alstep (AForget i) q (delete i q).

(** One action of a set; at most one; any step at all. *)
Definition acts (P : qaction → Prop) (q q' : gmap Z ajob) : Prop := ∃ l, P l ∧ alstep l q q'.
Definition once (P : qaction → Prop) (q q' : gmap Z ajob) : Prop := q' = q ∨ acts P q q'.
Definition astep : gmap Z ajob → gmap Z ajob → Prop := acts (λ _, True).

#[export] Instance once_refl P : Reflexive (once P).
Proof. by left. Qed.

Lemma acts_once P l q q' : P l → alstep l q q' → once P q q'.
Proof. right. by exists l. Qed.

Lemma acts_mono (P P' : qaction → Prop) q q' : (∀ l, P l → P' l) → acts P q q' → acts P' q q'.
Proof. intros HP (l & Hl & Hs). exists l. auto. Qed.

Lemma rtc_acts_mono (P P' : qaction → Prop) q q' :
  (∀ l, P l → P' l) → rtc (acts P) q q' → rtc (acts P') q q'.
Proof. intros HP. apply rtc_subrel. intros ? ?. by apply acts_mono. Qed.

Lemma once_steps P q q' : once P q q' → rtc (acts P) q q'.
Proof. intros [->|Ha]; [done|by apply rtc_once]. Qed.

Lemma once_astep P q q' : once P q q' → rtc astep q q'.
Proof. intros Ho%once_steps. by eapply rtc_acts_mono. Qed.

Lemma acts_astep P q q' : rtc (acts P) q q' → rtc astep q q'.
Proof. by apply rtc_acts_mono. Qed.

(** ** Abstraction of the tables *)

Definition abs_phase (r : transfer_job) : phase :=
  match status r with
  | Pending => Queued
  | Leased => Running (default EmptyString (locked_by r))
  | Succeeded => Done Transferred
  | Skipped => Done NotTransferred
  | Dead => Done DeadLettered
  end.

Definition abs_job (r : transfer_job) : ajob := {|
  a_key := (trace_id r, dst r); a_fails := attempts r; a_budget := max_attempts r;
  a_phase := abs_phase r
|}.

Definition abs (t : tables) : gmap Z ajob := abs_job <$> jobs t.

(** ** Evolution *)

(** [history_by R t t']: the invariant still holds, the change is [R] on the abstract
    queue, settled rows stay as they are until they are deleted, deleted ids do not
    come back, rows keep their identity, and no event of a surviving job is lost. *)
Record history_by (R : gmap Z ajob → gmap Z ajob → Prop) (t t' : tables) : Prop := {
  hi_wf : wf t';
  hi_abs : R (abs t) (abs t');
  hi_terminal : ∀ i r, jobs t !! i = Some r → terminal (status r) = true →
    jobs t' !! i = Some r ∨ jobs t' !! i = None;
  hi_seq : jobs_seq t <= jobs_seq t';
  hi_gone : ∀ i, i < jobs_seq t → jobs t !! i = None → jobs t' !! i = None;
  hi_identity : ∀ i r r', jobs t !! i = Some r → jobs t' !! i = Some r' → same_identity r r';
  hi_log : ∀ e, e ∈ events t → is_Some (jobs t' !! ev_job_id e) → e ∈ events t';
}.

(** A history: the change is a sequence of abstract steps. *)
Definition history : tables → tables → Prop := history_by (rtc astep).

(** [evolution R t t']: a history in which no lease appears, and which is [R] on the
    abstract queue. *)
Record evolution (R : gmap Z ajob → gmap Z ajob → Prop) (t t' : tables) : Prop := {
  ev_wf : wf t';
  ev_abs : R (abs t) (abs t');
  ev_leases : ∀ i r, jobs t' !! i = Some r → status r = Leased → jobs t !! i = Some r;
  ev_terminal : ∀ i r, jobs t !! i = Some r → terminal (status r) = true →
    jobs t' !! i = Some r ∨ jobs t' !! i = None;
  ev_seq : jobs_seq t <= jobs_seq t';
  ev_gone : ∀ i, i < jobs_seq t → jobs t !! i = None → jobs t' !! i = None;
  ev_identity : ∀ i r r', jobs t !! i = Some r → jobs t' !! i = Some r' → same_identity r r';
  ev_log : ∀ e, e ∈ events t → is_Some (jobs t' !! ev_job_id e) → e ∈ events t';
}.

Arguments ev_wf {R} _ _ _.
Arguments ev_abs {R} _ _ _.
Arguments ev_leases {R} _ _ _.
Arguments ev_terminal {R} _ _ _.
Arguments ev_seq {R} _ _ _.
Arguments ev_gone {R} _ _ _.
Arguments ev_identity {R} _ _ _.
Arguments ev_log {R} _ _ _.

Definition evolves_by (R : gmap Z ajob → gmap Z ajob → Prop) (t t' : tables) : Prop :=
  wf t → evolution R t t'.

Definition evolves : tables → tables → Prop := evolves_by (rtc astep).

Lemma same_identity_refl r : same_identity r r.
Proof. by repeat split. Qed.

Lemma same_identity_trans r1 r2 r3 :
  same_identity r1 r2 → same_identity r2 r3 → same_identity r1 r3.
Proof. unfold same_identity. intros. destruct_and!. repeat split; congruence. Qed.

#[export] Hint Resolve same_identity_refl : imgsync.

Lemma evolution_mono (R R' : gmap Z ajob → gmap Z ajob → Prop) t t' :
  (∀ q q', R q q' → R' q q') → evolution R t t' → evolution R' t t'.
Proof. intros HR []. split; auto. Qed.

Lemma history_mono (R R' : gmap Z ajob → gmap Z ajob → Prop) t t' :
  (∀ q q', R q q' → R' q q') → history_by R t t' → history_by R' t t'.
Proof. intros HR []. split; auto. Qed.

Lemma evolves_mono (R R' : gmap Z ajob → gmap Z ajob → Prop) t t' :
  (∀ q q', R q q' → R' q q') → evolves_by R t t' → evolves_by R' t t'.
Proof. intros HR Hev Hwf. by apply (evolution_mono R), Hev. Qed.

(** What implements actions evolves the queue. *)
Lemma evolves_once P t t' : evolves_by (once P) t t' → evolves t t'.
Proof. apply evolves_mono, once_astep. Qed.

Lemma evolves_acts P t t' : evolves_by (rtc (acts P)) t t' → evolves t t'.
Proof. apply evolves_mono, acts_astep. Qed.

Lemma evolution_history R t t' : evolution R t t' → history_by R t t'.
Proof. by intros []. Qed.

Lemma history_refl t : wf t → history t t.
Proof.
  intros Hwf. split; try done; [by left|].
  intros i r r' H1 H2. simplify_eq. apply same_identity_refl.
Qed.

Lemma history_by_trans (R1 R2 R : gmap Z ajob → gmap Z ajob → Prop) t1 t2 t3 :
  (∀ q1 q2 q3, R1 q1 q2 → R2 q2 q3 → R q1 q3) →
  wf t1 → history_by R1 t1 t2 → history_by R2 t2 t3 → history_by R t1 t3.
Proof.
  intros HR Hwf [W2 A2 T2 S2 G2 I2 E2] [W3 A3 T3 S3 G3 I3 E3].
  assert (∀ i r r3, jobs t1 !! i = Some r → jobs t3 !! i = Some r3 →
            ∃ r2, jobs t2 !! i = Some r2) as Hmid.
  { intros i r r3 H1 H3. destruct (jobs t2 !! i) as [r2|] eqn:H2; [by eauto|].
    rewrite G3 in H3; [done| |done]. pose proof (wf_seq _ Hwf _ _ H1). lia. }
  split; [done|by eapply HR|..].
  - intros i r H1 Ht. destruct (T2 _ _ H1 Ht) as [H2|H2]; [by eauto|right].
    apply G3; [|done]. pose proof (wf_seq _ Hwf _ _ H1). lia.
  - lia.
  - intros i Hlt H1. apply G3; [lia|auto].
  - intros i r r3 H1 H3. destruct (Hmid _ _ _ H1 H3) as [r2 H2].
    eauto using same_identity_trans.
  - intros e He Hs. apply E3; [|done]. apply E2; [done|].
    destruct Hs as [r3 H3]. destruct (wf_fk _ Hwf _ He) as (r & H1 & _).
    destruct (Hmid _ _ _ H1 H3) as [r2 H2]. by exists r2.
Qed.

Lemma history_trans t1 t2 t3 : wf t1 → history t1 t2 → history t2 t3 → history t1 t3.
Proof. apply history_by_trans. intros q1 q2 q3. apply transitivity. Qed.

Lemma evolves_by_refl R t : (∀ q, R q q) → evolves_by R t t.
Proof. intros HR Hwf. destruct (history_refl t Hwf). by split. Qed.

(** Evolutions compose along any composition of their abstract relations. *)
Lemma evolves_by_trans (R1 R2 R : gmap Z ajob → gmap Z ajob → Prop) t1 t2 t3 :
  (∀ q1 q2 q3, R1 q1 q2 → R2 q2 q3 → R q1 q3) →
  evolves_by R1 t1 t2 → evolves_by R2 t2 t3 → evolves_by R t1 t3.
Proof.
  intros HR H12 H23 Hwf. specialize (H12 Hwf). pose proof (ev_wf _ _ H12) as W2.
  specialize (H23 W2).
  destruct (history_by_trans R1 R2 R t1 t2 t3 HR Hwf (evolution_history _ _ _ H12)
    (evolution_history _ _ _ H23)).
  split; try done. eauto using ev_leases.
Qed.

#[export] Instance evolves_by_preorder R : PreOrder R → PreOrder (evolves_by R).
Proof.
  intros HR. split; [intros t; by apply evolves_by_refl|].
  intros t1 t2 t3. apply evolves_by_trans. intros q1 q2 q3. apply transitivity.
Qed.

#[export] Instance evolves_preorder : PreOrder evolves.
Proof. apply evolves_by_preorder, _. Qed.

(** ** Sequences of abstract steps *)

(** Changing several entries one after the other. *)
Lemma rtc_pointwise {A} R (f g : A → ajob) (m : gmap Z A) (m1 : gmap Z ajob) :
  m1 ##ₘ (f <$> m) →
  (∀ i x q, m !! i = Some x → q !! i = Some (f x) → rtc R q (<[i := g x]> q)) →
  rtc R (m1 ∪ (f <$> m)) (m1 ∪ (g <$> m)).
Proof.
  revert m1. induction m as [|i x m Hi IH] using map_ind; intros m1 Hd Hg.
  { by rewrite !fmap_empty. }
  rewrite fmap_insert in Hd. apply map_disjoint_insert_r in Hd as [Hi1 Hd].
  rewrite !fmap_insert, <- !insert_union_r by done.
  etrans; [apply (Hg i x); by rewrite lookup_insert_eq|].
  rewrite insert_insert_eq, !insert_union_l.
  apply IH; [apply map_disjoint_insert_l; split; [|done]; by rewrite lookup_fmap, Hi|].
  intros j y q Hj. apply Hg. rewrite lookup_insert_ne; [done|]. intros ->. congruence.
Qed.

Lemma rtc_fmap {A} R (f g : A → ajob) (m : gmap Z A) :
  (∀ i x q, m !! i = Some x → q !! i = Some (f x) → rtc R q (<[i := g x]> q)) →
  rtc R (f <$> m) (g <$> m).
Proof.
  intros Hg. pose proof (rtc_pointwise R f g m ∅ (map_disjoint_empty_l _) Hg) as Hr.
  by rewrite !map_empty_union in Hr.
Qed.

Lemma rtc_forget (ids : list Z) (q : gmap Z ajob) :
  (∀ i a, i ∈ ids → q !! i = Some a → ∃ o, a_phase a = Done o) →
  rtc (acts (λ l, ∃ i, i ∈ ids ∧ l = AForget i)) q (filter (λ '(i, _), i ∉ ids) q).
Proof.
  revert q. induction ids as [|i ids IH]; intros q Hq.
  - rewrite map_filter_id; [done|]. set_solver.
  - transitivity (delete i q).
    + destruct (q !! i) as [a|] eqn:Hi; [|by rewrite delete_id].
      destruct (Hq i a) as [o Ho]; [left|done|]. apply rtc_once. exists (AForget i).
      split; [exists i; split; [left|done]|by eapply a_forget].
    + replace (filter (λ '(j, _), j ∉ i :: ids) q)
        with (filter (λ '(j, _), j ∉ ids) (delete i q)).
      * eapply rtc_acts_mono; [|apply IH].
        -- intros l (j & Hj & ->). exists j. split; [by right|done].
        -- intros j a Hj. rewrite lookup_delete. case_decide; [done|]. apply Hq. by right.
      * apply map_eq. intros j. rewrite !map_lookup_filter, lookup_delete.
        case_decide; subst; destruct (q !! _) as [a|]; simpl; try done.
        -- rewrite option_guard_False; [done|]. intros Hn. apply Hn. left.
        -- destruct (decide (j ∈ ids)).
           ++ rewrite !option_guard_False; [done|..]; rewrite ?not_elem_of_cons; naive_solver.
           ++ rewrite !option_guard_True; [done|..]; rewrite ?not_elem_of_cons; naive_solver.
Qed.

(** ** Evolution of the single writes *)

Lemma abs_insert t i r : abs (set_jobs (<[i := r]> (jobs t)) t) = <[i := abs_job r]> (abs t).
Proof. unfold abs. simpl. by rewrite fmap_insert. Qed.

Lemma abs_lookup t i r : jobs t !! i = Some r → abs t !! i = Some (abs_job r).
Proof. intros Hi. unfold abs. by rewrite lookup_fmap, Hi. Qed.

Lemma evolves_rolled_back R `{!Reflexive R} t t' :
  jobs_seq t <= jobs_seq t' → evolves_by R t (rolled_back t t').
Proof.
  intros Hle Hwf. split; simpl; auto using wf_rolled_back.
  intros i r r' H1 H2. simplify_eq. apply same_identity_refl.
Qed.

Lemma evolves_push R `{!Reflexive R} t ts i r st d :
  jobs t !! i = Some r → neutral st = true → evolves_by R t (push_event ts (trace_id r) i st d t).
Proof.
  intros Hi Hn Hwf. split; simpl; auto with imgsync.
  - lia.
  - intros j s s' H1 H2. simplify_eq. apply same_identity_refl.
  - intros e He _. apply elem_of_app. by left.
Qed.

(** The action of settling a row. *)
Definition settle_action (i : Z) (w : string) (st : job_status) : qaction :=
  match st with
  | Succeeded => ASucceed i w
  | Skipped => ASkip i w
  | Dead => ADie i w
  | Pending | Leased => ARetry i w
  end.

Lemma settles_astep r st a ev nra ts w q i :
  settles r st a ev → abs_phase r = Running w → attempts r < max_attempts r →
  q !! i = Some (abs_job r) →
  alstep (settle_action i w st) q (<[i := abs_job (settle_row st a nra ts r)]> q).
Proof.
  intros Hout Hp Hb Hq.
  destruct Hout;
    [eapply (a_succeed q i (abs_job r) w)|eapply (a_skip q i (abs_job r) w)
    |eapply (a_die q i (abs_job r) w)|eapply (a_retry q i (abs_job r) w)]; eauto.
Qed.

Lemma evolves_settle t i r st a ev nra ts d w :
  jobs t !! i = Some r → leased_by w r → settles r st a ev →
  evolves_by (once (λ l, l = settle_action i w st)) t
    (push_event ts (trace_id r) i ev d (set_jobs (<[i := settle_row st a nra ts r]> (jobs t)) t)).
Proof.
  intros Hi [Hl Hlb] Hout Hwf. pose proof (wf_rows _ Hwf _ _ Hi) as [Hid _ _ _ _ Hb].
  split; simpl; [by apply wf_settle| | | |lia| | |].
  - unfold abs. simpl. rewrite fmap_insert. eapply acts_once; [done|].
    eapply settles_astep; eauto; [unfold abs_phase; by rewrite Hl, Hlb|apply Hb; by rewrite Hl|].
    by apply abs_lookup.
  - intros j s. rewrite lookup_insert. case_decide; [|done].
    intros [= <-] Hs. simpl in Hs. destruct Hout; done.
  - intros j s Hj Ht. rewrite lookup_insert_ne; [by left|]. intros ->. simplify_eq. by rewrite Hl in Ht.
  - intros j Hlt Hj. rewrite lookup_insert_ne; [done|]. congruence.
  - intros j s s' Hj. rewrite lookup_insert. case_decide; intros; simplify_eq; by repeat split.
  - intros e He _. apply elem_of_app. by left.
Qed.

Lemma evolves_release_where t p ts :
  (∀ r, p r = true → status r = Leased) →
  evolves_by (rtc (acts (λ l, ∃ i r, jobs t !! i = Some r ∧ p r = true ∧
                              l = AReclaim i (default EmptyString (locked_by r))))) t
    (update_jobs p (λ r, settle_row Pending (attempts r) (next_run_at r) ts r) t).
Proof.
  intros Hp Hwf. unfold update_jobs.
  set (g r := if p r then settle_row Pending (attempts r) (next_run_at r) ts r else r).
  assert (∀ r, same_identity r (g r)) as Hg.
  { intros r. unfold g. by destruct (p r); repeat split. }
  split; simpl.
  - apply wf_release_where; [done|]. intros r Hr. by rewrite (Hp _ Hr).
  - unfold abs. simpl. rewrite <- map_fmap_compose. apply rtc_fmap. intros i r q Hi Hq.
    unfold compose, g. destruct (p r) eqn:E; [|by rewrite insert_id].
    apply rtc_once. exists (AReclaim i (default EmptyString (locked_by r))).
    split; [by exists i, r|]. apply (a_reclaim q i (abs_job r)); [done|].
    simpl. unfold abs_phase. by rewrite (Hp _ E).
  - intros i s (r & <- & Hi)%lookup_fmap_Some. unfold g. by destruct (p r).
  - intros i r Hi Ht. left. rewrite lookup_fmap, Hi. simpl. unfold g.
    destruct (p r) eqn:E; [|done]. apply Hp in E. by rewrite E in Ht.
  - lia.
  - intros i _ Hi. by rewrite lookup_fmap, Hi.
  - intros i r s Hi. rewrite lookup_fmap, Hi. intros [= <-]. apply Hg.
  - done.
Qed.

Lemma evolves_insert `{ScanOrder} t ts tid s d sp dp pl ma o t' :
  0 < ma < 2 ^ 31 → insert_job ts tid s d sp dp pl ma t = (o, t') →
  evolves_by (once (λ l, l = ASubmit (jobs_seq t) (tid, d) ma)) t t'.
Proof.
  intros Hma Hins Hwf. destruct (wf_insert _ _ _ _ _ _ _ _ _ _ _ Hwf Hma Hins) as [Hwf' Hle].
  unfold insert_job in Hins.
  destruct (find_key tid d t) as [r0|] eqn:Ek; injection Hins as <- <-; simpl in *.
  { split; simpl; auto; [by left|]. intros i r r' H1 H2. simplify_eq. apply same_identity_refl. }
  assert (jobs t !! jobs_seq t = None) as Hfresh.
  { destruct (jobs t !! jobs_seq t) as [r|] eqn:E; [|done]. apply (wf_seq _ Hwf) in E. lia. }
  split; simpl; auto.
  - unfold abs. simpl. rewrite fmap_insert. unfold abs_job at 1. simpl.
    eapply acts_once; [done|]. apply a_submit; [by rewrite lookup_fmap, Hfresh| |exact (proj1 Hma)].
    intros j a (r & <- & Hj)%lookup_fmap_Some [= ? ?]. eapply find_key_None; eauto.
  - intros i r. rewrite lookup_insert. case_decide; [|done]. by intros [= <-].
  - intros i r Hi _. left. rewrite lookup_insert_ne; [done|]. congruence.
  - intros i Hlt Hi. rewrite lookup_insert_ne; [done|]. lia.
  - intros i r r' H1. rewrite lookup_insert_ne; [|congruence].
    intros. simplify_eq. apply same_identity_refl.
Qed.

Lemma evolves_delete t ids :
  (∀ i r, i ∈ ids → jobs t !! i = Some r → terminal (status r) = true) →
  evolves_by (rtc (acts (λ l, ∃ i, i ∈ ids ∧ l = AForget i))) t (delete_jobs ids t).
Proof.
  intros Ht Hwf.
  assert (∀ i r, jobs (delete_jobs ids t) !! i = Some r → jobs t !! i = Some r) as Hd.
  { intros i r. rewrite jobs_delete. by case_decide. }
  split; auto using wf_delete.
  - assert (abs (delete_jobs ids t) = filter (λ '(i, _), i ∉ ids) (abs t)) as ->.
    { unfold abs. simpl. apply map_eq. intros i.
      rewrite lookup_fmap, !map_lookup_filter, lookup_fmap.
      destruct (jobs t !! i); simpl; [|done]. destruct (decide (i ∈ ids)).
      - by rewrite !option_guard_False by naive_solver.
      - by rewrite !option_guard_True by naive_solver. }
    apply rtc_forget. intros i a Hi (r & <- & Hj)%lookup_fmap_Some.
    specialize (Ht i r Hi Hj). simpl. unfold abs_phase. destruct (status r); eauto; done.
  - intros i r Hi _. rewrite jobs_delete. case_decide; auto.
  - simpl. lia.
  - intros i _ Hi. rewrite jobs_delete. by case_decide.
  - intros i r r' H1 H2%Hd. simplify_eq. apply same_identity_refl.
  - intros e He [r Hs]. rewrite jobs_delete in Hs. case_decide; [done|].
    simpl. by apply list_elem_of_filter.
Qed.

Lemma lease_history t r w ts :
  wf t → jobs t !! id r = Some r → status r = Pending →
  history_by (once (λ l, l = ATake (id r) w)) t
    (set_jobs (<[id r := lease_row w ts r]> (jobs t)) t).
Proof.
  intros Hwf Hi Hp. split; simpl; [by apply wf_lease| | |lia| | |done].
  - rewrite abs_insert.
    change (abs_job (lease_row w ts r)) with (with_phase (a_fails (abs_job r)) (Running w) (abs_job r)).
    eapply acts_once; [done|]. apply a_take; [by apply abs_lookup| |].
    + simpl. unfold abs_phase. by rewrite Hp.
    + apply (rw_budget _ _ (wf_rows _ Hwf _ _ Hi)). by rewrite Hp.
  - intros j r' Hj Ht. left. rewrite lookup_insert_ne; [done|].
    intros <-. rewrite Hi in Hj. injection Hj as <-. by rewrite Hp in Ht.
  - intros j _ Hj. rewrite lookup_insert_ne; [done|]. congruence.
  - intros j r1 r2 H1 H2. destruct (decide (j = id r)) as [->|Hne].
    + rewrite lookup_insert_eq in H2. rewrite Hi in H1. simplify_eq. by repeat split.
    + rewrite lookup_insert_ne in H2 by done. simplify_eq. apply same_identity_refl.
Qed.
