(* ===== verification/WorkerFacts.v ===== *)
(** * What the worker does to the database

    [LeaseJob] hands out the oldest due job; [ProcessJob] and [processOne] settle a
    job through guarded writes only. A [verdict] names the outcome the worker
    decided on, [verdict_stmt] the one statement that records it. *)

From S2P Require Import Prelude GoLang GoFloat ErrDetail GoUtf8 GoJson Store Transfer Worker Invariant Spec.

Local Open Scope Z_scope.

(** ** Definitions *)

Inductive verdict :=
| VSuccess (written : Z) (sha : string)
| VSkip (dt : gmap string jval)
| VDead (dt : gmap string jval)
| VRetry (dt : gmap string jval).

(** The statement that records a verdict. *)
Definition verdict_stmt (h : host_env) (w : string) (job : Job) (v : verdict) : stmt Z :=
  let dead dt := guarded_write (ID job) w
    (λ e r, settle_row Dead (Attempts job + 1) (next_run_at r) (now e) r) EvDead dt in
  match v with
  | VSuccess written sha =>
      guarded_write (ID job) w
        (λ e r, settle_row Succeeded (attempts r) (next_run_at r) (now e) r) EvSuccess
        {["size" := JInt written; "sha256" := JStr sha; "duration_ms" := JInt (elapsed_ms h)]}
  | VSkip dt =>
      guarded_write (ID job) w
        (λ e r, settle_row Skipped (Attempts job) (next_run_at r) (now e) r) EvSkip dt
  | VDead dt => dead dt
  | VRetry dt =>
      if MaxAttempts job <=? Attempts job + 1 then dead dt
      else guarded_write (ID job) w
        (λ e r, settle_row Pending (Attempts job + 1)
           (now e + 1000 * milliseconds (retryBackoff (float_oor h) (rng_draw h) (Attempts job + 1)))
           (now e) r) EvFail dt
  end.

(** The detail of the event it writes. *)
Definition verdict_detail (h : host_env) (v : verdict) : gmap string jval :=
  match v with
  | VSuccess written sha =>
      {["size" := JInt written; "sha256" := JStr sha; "duration_ms" := JInt (elapsed_ms h)]}
  | VSkip dt | VDead dt | VRetry dt => dt
  end.

(** The verdict an error leads to. *)
Definition error_verdict (e : error) (dt : gmap string jval) : verdict :=
  if errors_is e ErrSkippable then VSkip dt
  else if errors_is e ErrPermanent then VDead dt
  else VRetry dt.

(** The session after recording verdicts one after the other. *)
Definition record (h : host_env) (w : string) (job : Job) (vs : list verdict) (s : pg) : pg :=
  fold_left (λ s v, snd (exec (verdict_stmt h w job v) s)) vs s.

(** The snapshot of a worker agrees with the row it holds. *)
Definition coherent (w : string) (job : Job) (t : tables) : Prop :=
  ∀ r, jobs t !! ID job = Some r → leased_by w r →
    attempts r = Attempts job ∧ max_attempts r = MaxAttempts job.

(** The action does not touch the control database. *)
Definition framed {W A} `{Lens W pg} (m : M W A) : Prop := ∀ w, view (snd (m w)) = view w.

(** A source, a transport and callbacks that keep to themselves. *)
Record framed_source {W} `{Lens W pg} (s : Source W) : Prop := {
  fs_open : ∀ p, framed (Open s p);
  fs_close : ∀ b, framed (Close s b);
}.

Definition framed_transport {W} `{Lens W pg} (t : Transport W) : Prop :=
  ∀ R (HR : Reader R) dst (b : R) n, framed (Send t dst b n).

Record framed_runner {W} `{Lens W pg} (r : Runner W) : Prop := {
  fr_source : ∀ p s, r_SourceFor r p = inr s → framed_source s;
  fr_transport : ∀ p t, r_TransportFor r p = inr t → framed_transport t;
  fr_finish : ∀ f, r_OnFinish r = Some f → ∀ j x, framed (f j x);
  fr_retry : ∀ f, r_OnRetry r = Some f → ∀ j x, framed (f j x);
}.

(** The texts an action may leave in an event: those its result holds, or the value it
    panics with. *)
Definition says {W A} (P : A → bool) (m : M W A) : Prop := ∀ w,
  match fst (m w) with
  | Ret a => P a = true
  | Panic v => nul_free v = true
  end.

Definition legible_error (e : error) : bool := nul_free (error_text e).

(** A source, a transport, factories and callbacks that report no NUL byte. *)
Record legible_source {W} (s : Source W) : Prop := {
  lg_open : ∀ p, says (λ o, match o with inl e => legible_error e | inr _ => true end) (Open s p);
  lg_close : ∀ b, says (λ o, match o with Some e => legible_error e | None => true end) (Close s b);
}.

Definition legible_transport {W} (t : Transport W) : Prop := ∀ R (HR : Reader R) dst (b : R) n,
  says (λ o, match o.1 with
             | Ret (inl e) => legible_error e
             | Ret (inr (_, sha)) => nul_free sha
             | Panic v => nul_free v
             end) (Send t dst b n).

Record legible_runner {W} (r : Runner W) : Prop := {
  lg_no_source : ∀ p e, r_SourceFor r p = inl e → legible_error e = true;
  lg_no_transport : ∀ p e, r_TransportFor r p = inl e → legible_error e = true;
  lg_source : ∀ p s, r_SourceFor r p = inr s → legible_source s;
  lg_transport : ∀ p t, r_TransportFor r p = inr t → legible_transport t;
}.

(** ** Leasing *)

Lemma lease_before_trans r1 r2 r3 :
  lease_before r1 r2 = true → lease_before r2 r3 = true → lease_before r1 r3 = true.
Proof. unfold lease_before. rewrite !orb_true_iff, !andb_true_iff, !Z.ltb_lt, !Z.eqb_eq, !Z.leb_le. lia. Qed.

Lemma lease_before_total r1 r2 : lease_before r1 r2 = false → lease_before r2 r1 = true.
Proof.
  unfold lease_before. rewrite orb_false_iff, andb_false_iff, orb_true_iff, andb_true_iff.
  rewrite !Z.ltb_lt, !Z.eqb_eq, !Z.leb_le, !Z.ltb_ge, !Z.eqb_neq, !Z.leb_gt. lia.
Qed.

Lemma lease_before_true r1 r2 : lease_before r1 r2 = true ↔
  next_run_at r1 < next_run_at r2 ∨ (next_run_at r1 = next_run_at r2 ∧ id r1 <= id r2).
Proof. unfold lease_before. by rewrite orb_true_iff, andb_true_iff, Z.ltb_lt, Z.eqb_eq, Z.leb_le. Qed.

Lemma lease_before_refl r : lease_before r r = true.
Proof. unfold lease_before. by rewrite Z.eqb_refl, Z.leb_refl, orb_true_r. Qed.

Lemma first_row_spec l r :
  first_row l = Some r → r ∈ l ∧ ∀ r', r' ∈ l → lease_before r r' = true.
Proof.
  revert r. induction l as [|x l IH]; intros r Hf; simpl in Hf; [done|].
  destruct (first_row l) as [m|] eqn:E.
  - destruct (IH m eq_refl) as [Hin Hmin].
    destruct (lease_before x m) eqn:Hb; simplify_eq.
    + split; [left|]. intros r' [->|Hr']%elem_of_cons; [apply lease_before_refl|].
      eauto using lease_before_trans.
    + split; [by right|]. intros r' [->|Hr']%elem_of_cons; [by apply lease_before_total|auto].
  - simplify_eq. destruct l as [|y l]; [|simpl in E; by destruct (first_row l)].
    split; [left|]. intros r' ->%list_elem_of_singleton. apply lease_before_refl.
Qed.

Lemma first_row_None l : first_row l = None → l = [].
Proof. destruct l as [|x l]; [done|]. simpl. by destruct (first_row l). Qed.

(** The row the dispatch statement takes, if any. *)
Definition takes (e : session_env) (t : tables) (r : transfer_job) : Prop :=
  jobs t !! id r = Some r ∧ ready e r ∧
  ∀ i r', jobs t !! i = Some r' → ready e r' →
    next_run_at r < next_run_at r' ∨ (next_run_at r = next_run_at r' ∧ id r <= id r').

Lemma lease_stmt_cases `{ScanOrder} w e t :
  wf t →
  (∃ r, takes e t r ∧
     lease_stmt w e t = (inr (lease_row w (now e) r), set_jobs (<[id r := lease_row w (now e) r]> (jobs t)) t))
  ∨ ((∀ i r, jobs t !! i = Some r → ¬ ready e r) ∧
     lease_stmt w e t = (inl (ESentinel ErrNoRows), t)).
Proof.
  intros Hwf. unfold lease_stmt. destruct (first_row _) as [r|] eqn:E.
  - left. apply first_row_spec in E as [Hin Hmin].
    apply list_elem_of_In, filter_In in Hin as [Hin Hl].
    apply list_elem_of_In, elem_of_scan_id in Hin; [|done].
    exists r. split; [|done]. split_and!; [done|by apply leasable_true|]. intros i r' Hi Hl'.
    apply lease_before_true, Hmin, list_elem_of_In, filter_In. split; [|by apply leasable_true].
    apply list_elem_of_In, elem_of_scan. by exists i.
  - right. split; [|done]. apply first_row_None in E. intros i r Hi.
    intros Hl%leasable_true.
    assert (r ∈ List.filter (leasable e) (scan (jobs t))) as Hin.
    { apply list_elem_of_In, filter_In. split; [|done].
      apply list_elem_of_In, elem_of_scan. by exists i. }
    rewrite E in Hin. by apply not_elem_of_nil in Hin.
Qed.

Lemma takes_pending e t r : takes e t r → status r = Pending.
Proof. by intros (_ & [? _] & _). Qed.

(** Every run of [LeaseJob]: nothing, or the oldest due row becomes leased by [w]. A
    job is only returned when its row was leased; a lost reply may lease without
    returning the job. *)
Lemma lease_run `{ScanOrder} w s :
  wf (tabs s) → ∃ o s', LeaseJob w s = (Ret o, s') ∧ env s' = env s ∧ tx s' = tx s ∧
    ((tabs s' = tabs s ∧ ∀ j, o ≠ inr (Some j))
     ∨ ∃ r, takes (env s) (tabs s) r ∧
         tabs s' = set_jobs (<[id r := lease_row w (now (env s)) r]> (jobs (tabs s))) (tabs s) ∧
         ∀ j, o = inr (Some j) → j = scan_job (lease_row w (now (env s)) r)).
Proof.
  intros Hwf. unfold LeaseJob.
  destruct (exec_run (lease_stmt w) s) as (o & s1 & E1 & He1 & Hx1 & Hs1 & Hc). run_bind E1.
  assert (∀ e, ∃ o', ((if errors_is e ErrNoRows then mret (inr None)
             else mret (inl (wrapf "lease: " e))) : M pg (error + option Job)) s1 = (Ret o', s1)
             ∧ ∀ j, o' ≠ inr (Some j)) as Herr.
  { intros e. destruct (errors_is e ErrNoRows); eexists; (split; [done|]); done. }
  destruct (lease_stmt_cases w (env s) (tabs s) Hwf) as [(r & Ht & Eq)|[Hn Eq]];
    rewrite Eq in Hc.
  - destruct Hc as [(a & Ha & Hr)|[(Hf & Ht1 & e & ->)|(? & ? & ? & _)]]; [| |done].
    + injection Ha as <- Ht1. symmetry in Ht1.
      destruct Hr as [->|(_ & e & ->)].
      * eexists _, _. split; [done|]. split_and!; [done..|]. right. exists r.
        split_and!; [done..|]. by intros j [= <-].
      * destruct (Herr e) as (o' & E' & Hne). eexists _, _. split; [exact E'|].
        split_and!; [done..|]. right. exists r. split_and!; [done..|].
        intros j ->. by destruct (Hne j).
    + destruct (Herr e) as (o' & E' & Hne). eexists _, _. split; [exact E'|].
      split_and!; [done..|]. by left.
  - destruct Hc as [(a & [=] & _)|[(Hf & Ht1 & e & ->)|(e & t' & [= <- <-] & -> & Ht1)]].
    + destruct (Herr e) as (o' & E' & Hne). eexists _, _. split; [exact E'|].
      split_and!; [done..|]. by left.
    + eexists _, _. split; [done|]. split_and!; [done..|]. left.
      split; [|done]. by rewrite Ht1, rolled_back_refl.
Qed.

(** ** Verdicts *)

(** What recording a verdict is for the abstract queue. *)
Definition verdict_action (w : string) (job : Job) (v : verdict) : qaction :=
  match v with
  | VSuccess _ _ => ASucceed (ID job) w
  | VSkip _ => ASkip (ID job) w
  | VDead _ => ADie (ID job) w
  | VRetry _ => if MaxAttempts job <=? Attempts job + 1 then ADie (ID job) w else ARetry (ID job) w
  end.

(** Whatever the verdict, its statement is one guarded write of a settled row. *)
Lemma verdict_stmt_shape h w job v : ∃ st a nra ev,
  (settle_action (ID job) w st = verdict_action w job v ∧
   ∀ r, attempts r = Attempts job → max_attempts r = MaxAttempts job →
     settles r st (a r) ev) ∧
  verdict_stmt h w job v
    = guarded_write (ID job) w (λ e r, settle_row st (a r) (nra e r) (now e) r) ev (verdict_detail h v).
Proof.
  destruct v as [n sh|dt|dt|dt]; simpl.
  - eexists Succeeded, attempts, (λ _, next_run_at), EvSuccess. split; [split; [done|constructor]|done].
  - eexists Skipped, (λ _, Attempts job), (λ _, next_run_at), EvSkip. split; [|done].
    split; [done|]. intros r <- _. constructor.
  - eexists Dead, (λ _, Attempts job + 1), (λ _, next_run_at), EvDead. split; [|done].
    split; [done|]. intros r <- _. constructor.
  - destruct (MaxAttempts job <=? Attempts job + 1) eqn:Hm; to_prop.
    + eexists Dead, (λ _, Attempts job + 1), (λ _, next_run_at), EvDead. split; [|done].
      split; [done|]. intros r <- _. constructor.
    + eexists Pending, (λ _, Attempts job + 1), (λ e _, _), EvFail. split; [|done].
      split; [done|]. intros r Ha Hmax. rewrite <- Ha in *. constructor. lia.
Qed.

(** A detail with a NUL is refused, lease or not. *)
Lemma guarded_write_refused i w f ev dt e t :
  storable dt = false → guarded_write i w f ev dt e t = (inl json_refused, t).
Proof. intros Hd. unfold guarded_write. by rewrite jsonb_in_Marshal, Hd. Qed.

(** A guarded write whose lease is gone does nothing. *)
Lemma guarded_write_miss i w f ev dt e t :
  storable dt = true → (∀ r, jobs t !! i = Some r → ¬ leased_by w r) →
  guarded_write i w f ev dt e t = (inr 0, t).
Proof.
  intros Hd Hm. unfold guarded_write. rewrite jsonb_in_Marshal, Hd, update_one_miss; [done|].
  intros r Hr. by apply lease_guard_false, Hm.
Qed.

Lemma guarded_write_hit i w f ev dt e t r :
  storable dt = true → jobs t !! i = Some r → leased_by w r →
  guarded_write i w f ev dt e t
  = (inr 1, push_event (now e) (trace_id r) i ev (stored_object dt)
              (set_jobs (<[i := f e r]> (jobs t)) t)).
Proof.
  intros Hd Hi Hg%lease_guard_true. unfold guarded_write.
  by rewrite jsonb_in_Marshal, Hd, (update_one_hit _ _ _ _ r).
Qed.

Lemma verdict_miss h w job v e t :
  storable (verdict_detail h v) = true → (∀ r, jobs t !! ID job = Some r → ¬ leased_by w r) →
  verdict_stmt h w job v e t = (inr 0, t).
Proof.
  intros Hd Hm. destruct (verdict_stmt_shape h w job v) as (st & a & nra & ev & _ & ->).
  by apply guarded_write_miss.
Qed.

(** The effect of recording one verdict on the tables. *)
Lemma verdict_effect h w job v s :
  let s' := snd (exec (verdict_stmt h w job v) s) in
  env s' = env s ∧ tx s' = tx s ∧
  (tabs s' = tabs s ∨
   storable (verdict_detail h v) = true ∧
   ∃ r t', jobs (tabs s) !! ID job = Some r ∧ leased_by w r ∧
     verdict_stmt h w job v (env s) (tabs s) = (inr 1, t') ∧ tabs s' = t').
Proof.
  intros s'. unfold s'. destruct (exec_run (verdict_stmt h w job v) s)
    as (o & s1 & E1 & He1 & Hx1 & Hs1 & Hc). rewrite E1. simpl. split_and!; [done..|].
  destruct (verdict_stmt_shape h w job v) as (st & a & nra & ev & _ & Eq). rewrite Eq in *.
  destruct (storable (verdict_detail h v)) eqn:Hd.
  2: { left. rewrite guarded_write_refused in Hc by done.
    destruct Hc as [(x & [=] & _)|[(_ & Ht & _)|(e & t' & [= <- <-] & _ & Ht)]]; [done|].
    by rewrite Ht, rolled_back_refl. }
  destruct (jobs (tabs s) !! ID job) as [r|] eqn:Hi; [destruct (decide (leased_by w r)) as [Hg|Hg]|].
  - rewrite (guarded_write_hit _ _ _ _ _ _ _ r) in * by done.
    destruct Hc as [(x & [= <- Ht] & _)|[(_ & Ht & _)|(? & ? & ? & _)]]; [|by left|done].
    right. split; [done|]. eexists _, _. split; [done|]. split; [done|]. split; [done|]. done.
  - left. rewrite guarded_write_miss in Hc by (intros; congruence).
    destruct Hc as [(x & [= <- Ht] & _)|[(_ & Ht & _)|(? & ? & ? & _)]]; congruence.
  - left. rewrite guarded_write_miss in Hc by (intros; congruence).
    destruct Hc as [(x & [= <- Ht] & _)|[(_ & Ht & _)|(? & ? & ? & _)]]; congruence.
Qed.

Lemma lease_guard_leased w r : lease_guard w r = true → status r = Leased.
Proof. by intros [? _]%lease_guard_true. Qed.

(** A recorded verdict is at most its one action of the abstract queue. *)
Lemma verdict_implements h w job v s :
  coherent w job (tabs s) →
  evolves_by (once (λ l, l = verdict_action w job v)) (tabs s)
    (tabs (snd (exec (verdict_stmt h w job v) s))).
Proof.
  intros Hco. destruct (verdict_effect h w job v s) as (_ & _ & [->|(Hd & r & t' & Hi & Hg & Eq & ->)]);
    [by apply evolves_by_refl|].
  destruct (verdict_stmt_shape h w job v) as (st & a & nra & ev & [<- Hs] & Eq'). rewrite Eq' in Eq.
  rewrite (guarded_write_hit _ _ _ _ _ _ _ r) in Eq by done. injection Eq as <-.
  destruct (Hco r Hi Hg) as [Ha Hm].
  apply evolves_settle; [done..|]. by apply Hs.
Qed.

Lemma verdict_evolves h w job v s :
  coherent w job (tabs s) → evolves (tabs s) (tabs (snd (exec (verdict_stmt h w job v) s))).
Proof. intros Hco. by apply (evolves_once (λ l, l = verdict_action w job v)), verdict_implements. Qed.

(** Coherence survives everything that creates no lease. *)
Lemma coherent_evolves w job t t' : wf t → coherent w job t → evolves t t' → coherent w job t'.
Proof.
  intros Hwf Hco Hev r Hi Hg. apply (Hco r); [|done].
  apply (ev_leases _ _ (Hev Hwf)); [done|apply Hg].
Qed.

Lemma record_evolves h w job vs s :
  wf (tabs s) → coherent w job (tabs s) → evolves (tabs s) (tabs (record h w job vs s)).
Proof.
  revert s. induction vs as [|v vs IH]; intros s Hwf Hco; simpl; [done|].
  pose proof (verdict_evolves h w job v s Hco) as Hev.
  etrans; [exact Hev|]. apply IH; [by apply Hev|by eapply coherent_evolves].
Qed.

Lemma record_session h w job vs s :
  env (record h w job vs s) = env s ∧ tx (record h w job vs s) = tx s.
Proof.
  revert s. induction vs as [|v vs IH]; intros s; simpl; [done|].
  destruct (IH (snd (exec (verdict_stmt h w job v) s))) as [-> ->].
  by destruct (verdict_effect h w job v s) as (-> & -> & _).
Qed.

(** Without the lease, recording anything leaves the tables as they are. *)
Lemma record_stale h w job vs s :
  (∀ r, jobs (tabs s) !! ID job = Some r → ¬ leased_by w r) →
  tabs (record h w job vs s) = tabs s.
Proof.
  revert s. induction vs as [|v vs IH]; intros s Hst; simpl; [done|].
  assert (tabs (snd (exec (verdict_stmt h w job v) s)) = tabs s) as Ht.
  { destruct (verdict_effect h w job v s) as (_ & _ & [->|(_ & r & t' & Hi & Hg & _)]); [done|].
    by destruct (Hst r Hi). }
  rewrite IH; [done|]. by rewrite Ht.
Qed.

(** ** The writes of one job *)

Lemma record_app h w job vs1 vs2 s :
  record h w job (vs1 ++ vs2) s = record h w job vs2 (record h w job vs1 s).
Proof. unfold record. by rewrite fold_left_app. Qed.

Section Wrote.
Context {W : Type} `{Lens W pg}.
Context (h : host_env) (lb : string) (job : Job).

(** [m] records at most [n] verdicts of this job and touches the database in no
    other way. *)
Definition wrote {A} (n : nat) (m : M W A) : Prop := ∀ w0, ∃ vs,
  (length vs ≤ n)%nat ∧ view (snd (m w0)) = record h lb job vs (view w0).

(** [m] records exactly the verdict [v]. *)
Definition wrote_one {A} (v : verdict) (m : M W A) : Prop := ∀ w0,
  view (snd (m w0)) = record h lb job [v] (view w0).

Lemma framed_ret {A} (a : A) : framed (mret a : M W A).
Proof. by intros w. Qed.

Lemma framed_bind {A B} (m : M W A) (f : A → M W B) :
  framed m → (∀ a, framed (f a)) → framed (m ≫= f).
Proof.
  intros Hm Hf w. specialize (Hm w). unfold mbind, M_bind.
  destruct (m w) as [[a|v] w']; simpl in *; [|done]. by rewrite Hf.
Qed.

Lemma wrote_framed {A} (m : M W A) : framed m → wrote 0 m.
Proof. intros Hm w. exists []. split; [simpl; lia|]. apply Hm. Qed.

Lemma wrote_mono {A} n k (m : M W A) : (n ≤ k)%nat → wrote n m → wrote k m.
Proof. intros Hle Hm w. destruct (Hm w) as (vs & Hl & Hv). exists vs. split; [lia|done]. Qed.

Lemma wrote_of_one {A} v (m : M W A) : wrote_one v m → wrote 1 m.
Proof. intros Hm w. exists [v]. split; [simpl; lia|]. apply Hm. Qed.

Lemma wrote_bind {A B} n k (m : M W A) (f : A → M W B) :
  wrote n m → (∀ a, wrote k (f a)) → wrote (n + k) (m ≫= f).
Proof.
  intros Hm Hf w. destruct (Hm w) as (vs & Hl & Hv). unfold mbind, M_bind.
  destruct (m w) as [[a|v] w']; simpl in *; [|exists vs; split; [lia|done]].
  destruct (Hf a w') as (vs' & Hl' & Hv'). exists (vs ++ vs').
  rewrite length_app, record_app, <- Hv. split; [lia|done].
Qed.

Lemma wrote_defer {A} n k (fin : M W unit) (m : M W A) :
  wrote n m → wrote k fin → wrote (n + k) (defer fin m).
Proof.
  intros Hm Hf w. destruct (Hm w) as (vs & Hl & Hv). unfold defer.
  destruct (m w) as [r w']; simpl in *. destruct (Hf w') as (vs' & Hl' & Hv').
  exists (vs ++ vs'). rewrite length_app, record_app, <- Hv.
  destruct (fin w') as [[[]|v] w'']; simpl in *; (split; [lia|done]).
Qed.

Lemma wrote_recover {A} n k (g : string → M W A) (m : M W A) :
  wrote n m → (∀ v, wrote k (g v)) → wrote (n + k) (recover g m).
Proof.
  intros Hm Hg w. destruct (Hm w) as (vs & Hl & Hv). unfold recover.
  destruct (m w) as [[a|v] w']; simpl in *; [exists vs; split; [lia|done]|].
  destruct (Hg v w') as (vs' & Hl' & Hv'). exists (vs ++ vs').
  rewrite length_app, record_app, <- Hv. split; [lia|done].
Qed.

Lemma wrote_one_bind {A B} v (m : M W A) (f : A → M W B) :
  wrote_one v m → (∀ a, framed (f a)) → wrote_one v (m ≫= f).
Proof.
  intros Hm Hf w. specialize (Hm w). unfold mbind, M_bind.
  destruct (m w) as [[a|x] w']; simpl in *; [by rewrite Hf|done].
Qed.

Lemma wrote_one_exec v : wrote_one v (zoom (exec (verdict_stmt h lb job v))).
Proof.
  intros w. unfold zoom. destruct (exec _ (view w)) as [r s'] eqn:E. simpl.
  by rewrite view_over, E.
Qed.

Lemma writeSuccess_wrote (d : Deps W) n sha :
  d_LockedBy d = lb → wrote_one (VSuccess n sha) (writeSuccess h d job n sha).
Proof.
  intros Hd. unfold writeSuccess. rewrite Hd. apply wrote_one_bind; [|intros; apply framed_ret].
  apply (wrote_one_exec (VSuccess n sha)).
Qed.

Lemma writeTerminal_skip_wrote (d : Deps W) dt :
  d_LockedBy d = lb → wrote_one (VSkip dt) (writeTerminal d job Skipped EvSkip dt false).
Proof.
  intros Hd. unfold writeTerminal, writeTerminalWithAttempts. rewrite Hd.
  apply wrote_one_bind; [|intros; apply framed_ret]. apply (wrote_one_exec (VSkip dt)).
Qed.

Lemma writeTerminal_dead_wrote (d : Deps W) dt :
  d_LockedBy d = lb → wrote_one (VDead dt) (writeTerminal d job Dead EvDead dt true).
Proof.
  intros Hd. unfold writeTerminal, writeTerminalWithAttempts. rewrite Hd.
  apply wrote_one_bind; [|intros; apply framed_ret]. apply (wrote_one_exec (VDead dt)).
Qed.

(** The retry callback keeps to itself. *)
Definition framed_deps (d : Deps W) : Prop :=
  d_LockedBy d = lb ∧ ∀ f, d_OnRetry d = Some f → ∀ x, framed (f x).

Lemma writeRetryOrDead_wrote (d : Deps W) dt :
  framed_deps d → wrote_one (VRetry dt) (writeRetryOrDead h d job dt).
Proof.
  intros [Hd Hr]. pose proof (wrote_one_exec (VRetry dt)) as He. simpl in He.
  unfold writeRetryOrDead, writeTerminalWithAttempts. rewrite Hd.
  destruct (MaxAttempts job <=? Attempts job + 1).
  - apply wrote_one_bind; [apply wrote_one_bind; [exact He|intros; apply framed_ret]|].
    intros [err|]; apply framed_ret.
  - apply wrote_one_bind; [exact He|]. intros [err|n]; [apply framed_ret|].
    destruct (n =? 0); [apply framed_ret|]. apply framed_bind; [|intros; apply framed_ret].
    destruct (d_OnRetry d) as [f|] eqn:E; [by apply Hr|apply framed_ret].
Qed.

Lemma classifyAndWrite_wrote (d : Deps W) e dt :
  framed_deps d → wrote_one (error_verdict e dt) (classifyAndWrite h d job e dt).
Proof.
  intros Hd. unfold classifyAndWrite, error_verdict.
  destruct (errors_is e ErrSkippable); [|destruct (errors_is e ErrPermanent)].
  - apply wrote_one_bind; [by apply writeTerminal_skip_wrote, Hd|].
    intros [err|]; apply framed_ret.
  - apply wrote_one_bind; [by apply writeTerminal_dead_wrote, Hd|].
    intros [err|]; apply framed_ret.
  - by apply writeRetryOrDead_wrote.
Qed.

Lemma panic_framed {A} v : framed (panic v : M W A).
Proof. by intros w. Qed.

(** A job is recorded at most once per call of [ProcessJob]. *)
Lemma ProcessJob_wrote (d : Deps W) source transport :
  framed_deps d → framed_source source → framed_transport transport →
  wrote 1 (ProcessJob h d source transport job).
Proof.
  intros Hd [Ho Hc] Ht. unfold ProcessJob.
  assert (∀ b, wrote 0 (_ ← Close source b; mret tt)) as Hclose.
  { intros b. apply wrote_framed, framed_bind; [apply Hc|intros; apply framed_ret]. }
  assert (∀ e dt, wrote 1 (classifyAndWrite h d job e dt)) as Hcl.
  { intros e dt. eapply wrote_of_one. by apply classifyAndWrite_wrote. }
  apply (wrote_bind 0 1); [apply wrote_framed, Ho|]. intros [err|[body size]]; [apply Hcl|].
  apply (wrote_bind 0 1); [apply wrote_framed, Ht|]. intros [[[err|[n sha]]|v] cw].
  - by apply (wrote_defer 1 0).
  - destruct ((0 <=? size) && negb (n =? size)); [by apply (wrote_defer 1 0)|].
    destruct ((size <? 0) && negb (counter_n cw =? n)); [by apply (wrote_defer 1 0)|].
    apply (wrote_bind 0 1).
    { apply (wrote_recover 0 0); [apply wrote_framed, Hc|]. intros v.
      apply (wrote_defer 0 0); [apply wrote_framed, panic_framed|done]. }
    intros [ce|]; [apply Hcl|]. apply (wrote_bind 1 0).
    + eapply wrote_of_one. by apply writeSuccess_wrote, Hd.
    + intros [err|]; apply wrote_framed, framed_ret.
  - apply (wrote_mono 0); [lia|]. apply (wrote_defer 0 0); [apply wrote_framed, panic_framed|done].
Qed.

(** The recovered call records at most twice: a panic after the outcome write
    leads to a second, guarded one. *)
Lemma processOne_wrote (r : Runner W) :
  framed_runner r → wrote 2 (processOne h r lb job).
Proof.
  intros [Hs Ht Hf Hr]. unfold processOne.
  assert (∀ x, wrote 0 (fire r job x)) as Hfire.
  { intros x. apply wrote_framed. unfold fire.
    destruct (r_OnFinish r) eqn:E; [by apply Hf|apply framed_ret]. }
  apply (wrote_recover 1 1).
  - destruct (r_SourceFor r (SrcProtocol job)) as [err|source] eqn:Es.
    { apply (wrote_bind 1 0); [|done]. eapply wrote_of_one. by apply writeTerminal_dead_wrote. }
    destruct (r_TransportFor r (DstProtocol job)) as [err|transport] eqn:Et.
    { apply (wrote_bind 1 0); [|done]. eapply wrote_of_one. by apply writeTerminal_dead_wrote. }
    apply (wrote_bind 1 0); [|intros [x e]; done].
    apply ProcessJob_wrote; [|by eapply Hs|by eapply Ht].
    split; [done|]. intros f [= <-] x.
    destruct (r_OnRetry r) eqn:E; [by apply Hr|apply framed_ret].
  - intros v. apply (wrote_bind 1 0); [|intros [x e]; done].
    eapply wrote_of_one. apply writeRetryOrDead_wrote. by split.
Qed.

(** [m] records exactly one verdict the database takes, or panics before it records
    any, with a value the database takes. *)
Definition decides {A} (m : M W A) : Prop := ∀ w0,
  (∃ v, storable (verdict_detail h v) = true ∧ view (snd (m w0)) = record h lb job [v] (view w0))
  ∨ (view (snd (m w0)) = view w0 ∧ ∃ p, nul_free p = true ∧ fst (m w0) = Panic p).

Lemma decides_one {A} v (m : M W A) :
  storable (verdict_detail h v) = true → wrote_one v m → decides m.
Proof. intros Hv Hm w. left. exists v. split; [done|apply Hm]. Qed.

Lemma decides_panic {A} p : nul_free p = true → decides (panic p : M W A).
Proof. intros Hp w. right. split; [done|]. by exists p. Qed.

Lemma decides_bind {A B} (P : A → bool) (m : M W A) (f : A → M W B) :
  framed m → says P m → (∀ a, P a = true → decides (f a)) → decides (m ≫= f).
Proof.
  intros Hm HP Hf w. specialize (Hm w). specialize (HP w). unfold mbind, M_bind.
  destruct (m w) as [[a|p] w']; simpl in *; [|right; split; [done|by exists p]].
  rewrite <- Hm. by apply Hf.
Qed.

Lemma decides_then {A B} (m : M W A) (f : A → M W B) :
  decides m → (∀ a, framed (f a)) → decides (m ≫= f).
Proof.
  intros Hm Hf w. specialize (Hm w). unfold mbind, M_bind.
  destruct (m w) as [[a|p] w']; simpl in *;
    [|destruct Hm as [Hm|[Hm (q & Hq & [= ->])]]; [by left|right; split; [done|by exists q]]].
  destruct Hm as [(v & Hst & Hv)|[_ (p & _ & [=])]]. left. exists v. by rewrite Hf.
Qed.

Lemma decides_defer {A} (fin : M W unit) (m : M W A) :
  framed fin → says (λ _, true) fin → decides m → decides (defer fin m).
Proof.
  intros Hf Hs Hm w. specialize (Hm w). unfold defer. destruct (m w) as [x w1]; simpl in Hm.
  specialize (Hf w1). specialize (Hs w1).
  destruct (fin w1) as [[[]|p] w2]; simpl in *; rewrite Hf; [done|].
  destruct Hm as [Hm|[Hm _]]; eauto.
Qed.

(** The details of the worker hold what was reported to it and nothing else. *)
Lemma storable_report e x : nul_free e = true → nul_free x = true →
  storable {["error" := JStr e; "stage" := JStr x]} = true.
Proof.
  intros He Hx. apply storable_true. apply map_Forall_insert_2; [|apply map_Forall_singleton];
    unfold member_ok; simpl; by rewrite ?He, ?Hx.
Qed.

Lemma storable_open e : legible_error e = true → storable (openErrDetails e) = true.
Proof.
  intros He. unfold openErrDetails.
  assert (storable {["error" := JStr (sanitizeErrMsg (error_text e)); "stage" := JStr "open"]} = true)
    as Hs by (apply storable_report; [by apply sanitize_chars|done]).
  case_match; [|done]. apply storable_true, map_Forall_insert_2; [done|]. by apply storable_true.
Qed.

Lemma storable_transport e : legible_error e = true → storable (transportErrDetails e) = true.
Proof. intros He. apply storable_report; [by apply sanitize_chars|done]. Qed.

Lemma storable_success n sha :
  nul_free sha = true → storable (verdict_detail h (VSuccess n sha)) = true.
Proof.
  intros Hs. apply storable_true. simpl.
  repeat (apply map_Forall_insert_2; [unfold member_ok; simpl; by rewrite ?Hs|]).
  apply map_Forall_empty.
Qed.

Lemma storable_error_verdict e dt : storable dt = true → storable (verdict_detail h (error_verdict e dt)) = true.
Proof. intros Hd. unfold error_verdict. by repeat case_match. Qed.

Lemma storable_sizes r a b x y : nul_free r = true → nul_free a = true → nul_free b = true →
  storable {["reason" := JStr r; "stage" := JStr "verify"; a := JInt x; b := JInt y]} = true.
Proof.
  intros Hr Ha Hb. apply storable_true.
  repeat (apply map_Forall_insert_2; [unfold member_ok; simpl; by rewrite ?Hr, ?Ha, ?Hb|]).
  apply map_Forall_empty.
Qed.

Lemma says_close {B} (m : M W (option error)) (b : B) :
  says (λ o, match o with Some e => legible_error e | None => true end) m →
  says (λ _, true) (_ ← m; mret b : M W B).
Proof.
  intros Hm w. specialize (Hm w). unfold mbind, M_bind. by destruct (m w) as [[o|p] w1].
Qed.

Lemma ProcessJob_decides (d : Deps W) source transport :
  framed_deps d → framed_source source → framed_transport transport →
  legible_source source → legible_transport transport →
  decides (ProcessJob h d source transport job).
Proof.
  intros Hd [Ho Hc] Ht [Lo Lc] Lt. unfold ProcessJob.
  assert (∀ b, framed (_ ← Close source b; mret tt)) as Hclose
    by (intros b; apply framed_bind; [apply Hc|intros; apply framed_ret]).
  assert (∀ b, says (λ _, true) (_ ← Close source b; mret tt)) as Lclose
    by (intros b; by apply says_close).
  assert (∀ e dt, storable dt = true → decides (classifyAndWrite h d job e dt)) as Hcl.
  { intros e dt Hdt. eapply decides_one; [by apply (storable_error_verdict e)|].
    by apply classifyAndWrite_wrote. }
  eapply decides_bind; [apply Ho|apply Lo|]. intros [err|[body size]] Ha; [by apply Hcl, storable_open|].
  eapply decides_bind; [apply Ht|apply Lt|]. intros [[[err|[n sha]]|v] cw] Hb; simpl in Hb.
  - apply decides_defer; [done..|]. by apply Hcl, storable_transport.
  - destruct ((0 <=? size) && negb (n =? size)).
    { apply decides_defer; [done..|]. by apply Hcl, storable_sizes. }
    destruct ((size <? 0) && negb (counter_n cw =? n)).
    { apply decides_defer; [done..|]. by apply Hcl, storable_sizes. }
    apply (decides_bind (λ o, match o with Some e => legible_error e | None => true end)).
    { intros w. specialize (Hc (counter_r cw) w). unfold recover, defer.
      destruct (Close source (counter_r cw) w) as [[a|p] w1]; simpl in *; [done|].
      specialize (Hclose (counter_r cw) w1).
      destruct ((_ ← Close source (counter_r cw); mret tt) w1) as [[[]|p'] w2]; simpl in *; congruence. }
    { intros w. specialize (Lc (counter_r cw) w). unfold recover, defer.
      destruct (Close source (counter_r cw) w) as [[a|p] w1]; simpl in *; [done|].
      specialize (Lclose (counter_r cw) w1).
      by destruct ((_ ← Close source (counter_r cw); mret tt) w1) as [[[]|p'] w2]. }
    intros [ce|] Hce; [apply Hcl; by apply storable_report|]. apply decides_then; [|by intros [err|] w].
    eapply decides_one; [by apply storable_success|]. by apply writeSuccess_wrote, Hd.
  - apply decides_defer; [done..|by apply decides_panic].
Qed.

(** A call of [processOne] always records a verdict; when the first attempt panicked
    after its write, a second, guarded one follows. *)
Lemma processOne_decides (r : Runner W) w :
  framed_runner r → legible_runner r → ∃ v vs, (length vs ≤ 1)%nat ∧
    storable (verdict_detail h v) = true ∧
    view (snd (processOne h r lb job w)) = record h lb job (v :: vs) (view w).
Proof.
  intros [Hs Ht Hf Hr] [Ls Lt Lso Ltr]. unfold processOne.
  assert (∀ x, framed (fire r job x)) as Hfire.
  { intros x. unfold fire. destruct (r_OnFinish r) eqn:E; [by apply Hf|apply framed_ret]. }
  set (m := match r_SourceFor r (SrcProtocol job) with inl _ => _ | inr _ => _ end).
  assert (decides m) as Hm.
  { unfold m. destruct (r_SourceFor r (SrcProtocol job)) as [err|source] eqn:Es.
    { apply decides_then; [|done].
      eapply decides_one; [|by apply writeTerminal_dead_wrote]. by apply storable_report; eauto. }
    destruct (r_TransportFor r (DstProtocol job)) as [err|transport] eqn:Et.
    { apply decides_then; [|done].
      eapply decides_one; [|by apply writeTerminal_dead_wrote]. by apply storable_report; eauto. }
    apply decides_then; [|intros [x e]; done].
    apply ProcessJob_decides; eauto.
    split; [done|]. intros f [= <-] x.
    destruct (r_OnRetry r) eqn:E; [by apply Hr|apply framed_ret]. }
  set (g := λ v : string, _).
  assert (∀ p, wrote_one (VRetry {["error" := JStr p; "stage" := JStr "panic"]}) (g p)) as Hg.
  { intros p. unfold g. apply wrote_one_bind; [|by intros [x e]].
    apply writeRetryOrDead_wrote. by split. }
  clearbody m g. specialize (Hm w). unfold recover.
  destruct (m w) as [[a|p] w1]; simpl in Hm.
  - destruct Hm as [(v & Hst & Hv)|[_ (p & _ & [=])]]. exists v, []. split; [simpl; lia|done].
  - specialize (Hg p w1). destruct Hm as [(v & Hst & Hv)|[Hv (q & Hq & [= ->])]].
    + exists v, [VRetry {["error" := JStr p; "stage" := JStr "panic"]}]. split; [done|].
      split; [done|]. rewrite Hg, Hv. reflexivity.
    + eexists _, []. split; [simpl; lia|]. split; [|by rewrite Hg, Hv]. by apply storable_report.
Qed.

End Wrote.
