(* ===== verification/Backoff.v ===== *)
(** * The shared idle backoff (internal/backoff/backoff.go)

    The schedule and its jitter as functions, the critical sections of [WaitOnce] and
    [WakeAll] as atomic operations on the shared state, and the goroutines that run
    them as a step relation: a wake channel is an identifier, its buffered token a
    member of a set. *)

From S2P Require Import Prelude GoLang GoFloat ErrDetail.

Local Open Scope Z_scope.

(** [type Config struct] and [type Idle struct]; the generator is the argument [k]
    of the operations that draw from it. *)
Record IdleConfig := { BaseDelay : Z; MaxDelay : Z }.

Record Idle := {
  i_cfg : IdleConfig;
  nominal : Z;
  wakers : list nat;
}.

(** [func NewIdle]. *)
Definition NewIdle (cfg : IdleConfig) : Idle :=
  let base := if BaseDelay cfg <=? 0 then 50 * Millisecond else BaseDelay cfg in
  let max := if MaxDelay cfg <=? 0 then 1 * Second else MaxDelay cfg in
  {| i_cfg := {| BaseDelay := base; MaxDelay := max |}; nominal := base; wakers := [] |}.

(** [func (i *Idle) advance], on the nominal delay. *)
Definition advance_nominal (max nom : Z) : Z :=
  let n1 :=
    if nom =? 50 * Millisecond then 200 * Millisecond
    else if nom =? 200 * Millisecond then 500 * Millisecond
    else if nom =? 500 * Millisecond then 1 * Second
    else let next := int64_wrap (nom * 2) in if max <? next then max else next in
  if max <? n1 then max else n1.

Definition advance (i : Idle) : Idle :=
  {| i_cfg := i_cfg i; nominal := advance_nominal (MaxDelay (i_cfg i)) (nominal i);
     wakers := wakers i |}.

(** [func (i *Idle) jitter]. *)
Definition jitter (k d : Z) : Z :=
  if d <=? 0 then 0
  else
    let span := f_mul (f_of_int d) f_half in
    let offset := f_trunc (f_mul (f_sub (rand_float64 k) f_half) span) in
    int64_wrap (d + offset).

(** The first critical section of [WaitOnce]: the delay, and the parked state. *)
Definition wait_enter (k : Z) (wake : nat) (i : Idle) : Z * Idle :=
  let i' := advance i in
  (jitter k (nominal i), {| i_cfg := i_cfg i'; nominal := nominal i'; wakers := wakers i' ++ [wake] |}).

(** The eviction loop: the first occurrence of [wake] leaves the slice. *)
Fixpoint remove_first (wake : nat) (l : list nat) : list nat :=
  match l with
  | [] => []
  | w :: l' => if decide (w = wake) then l' else w :: remove_first wake l'
  end.

Definition wait_leave (wake : nat) (i : Idle) : Idle :=
  {| i_cfg := i_cfg i; nominal := nominal i; wakers := remove_first wake (wakers i) |}.

(** The critical section of [WakeAll]: the channels to signal, and the reset state. *)
Definition wake_all (i : Idle) : list nat * Idle :=
  (wakers i, {| i_cfg := i_cfg i; nominal := BaseDelay (i_cfg i); wakers := [] |}).

(** [CurrentNominalDelay] and [NumParked]. *)
Definition CurrentNominalDelay (i : Idle) : Z := nominal i.
Definition NumParked (i : Idle) : nat := length (wakers i).

(** ** The goroutines *)

(** [parked]: channels of goroutines blocked in [WaitOnce]; [token]: channels with a
    buffered wake signal; [sending]: channels a running [WakeAll] has yet to signal;
    [made]: channels created so far. *)
Record idle_sys := {
  idle : Idle;
  parked : gset nat;
  token : gset nat;
  sending : list nat;
  made : nat;
}.

Definition idle_start (cfg : IdleConfig) : idle_sys :=
  {| idle := NewIdle cfg; parked := ∅; token := ∅; sending := []; made := 0 |}.

Inductive idle_step (s : idle_sys) : idle_sys → Prop :=
(** [WaitOnce] parks on a fresh channel. *)
| is_enter k :
    idle_step s {| idle := snd (wait_enter k (made s) (idle s)); parked := {[made s]} ∪ parked s;
                   token := token s; sending := sending s; made := S (made s) |}
(** The select of [WaitOnce] fires (timer, wake or ctx) and the goroutine leaves. *)
| is_leave c :
    c ∈ parked s →
    idle_step s {| idle := wait_leave c (idle s); parked := parked s ∖ {[c]};
                   token := token s ∖ {[c]}; sending := sending s; made := made s |}
(** [WakeAll] takes the wakers and resets the schedule. *)
| is_wake :
    idle_step s {| idle := snd (wake_all (idle s)); parked := parked s; token := token s;
                   sending := sending s ++ fst (wake_all (idle s)); made := made s |}
(** [WakeAll] signals one channel; a full buffer takes the default branch. *)
| is_send c l :
    sending s = c :: l →
    idle_step s {| idle := idle s; parked := parked s; token := {[c]} ∪ token s;
                   sending := l; made := made s |}.

(** Who a parked goroutine will hear from: its channel is registered, about to be
    signalled, or already signalled. *)
Record idle_inv (s : idle_sys) : Prop := {
  ii_parked : ∀ c, c ∈ parked s → c ∈ wakers (idle s) ∨ c ∈ sending s ∨ c ∈ token s;
  ii_wakers : ∀ c, c ∈ wakers (idle s) → c ∈ parked s;
  ii_nodup : NoDup (wakers (idle s));
  ii_fresh : ∀ c, c ∈ wakers (idle s) → (c < made s)%nat;
}.

Lemma remove_first_elem c l x : NoDup l → x ∈ remove_first c l ↔ x ∈ l ∧ x ≠ c.
Proof.
  induction l as [|y l IH]; intros Hd; simpl; [set_solver|].
  apply NoDup_cons in Hd as [Hy Hd]. case_decide as E.
  - subst y. set_solver.
  - rewrite !elem_of_cons, IH by done. set_solver.
Qed.

Lemma remove_first_NoDup c l : NoDup l → NoDup (remove_first c l).
Proof.
  induction l as [|y l IH]; intros Hd; simpl; [done|].
  apply NoDup_cons in Hd as [Hy Hd]. case_decide; [done|].
  apply NoDup_cons. split; [|by apply IH]. rewrite remove_first_elem by done. tauto.
Qed.

Lemma idle_inv_step s s' : idle_inv s → idle_step s s' → idle_inv s'.
Proof.
  intros [Hp Hw Hd Hf] Hst. destruct Hst as [k|c Hc| |c l Hl]; split; simpl.
  - intros c Hc. apply elem_of_union in Hc as [->%elem_of_singleton|Hc].
    + left. set_solver.
    + destruct (Hp c Hc) as [H1|[H1|H1]]; set_solver.
  - intros c [Hc| ->%list_elem_of_singleton]%elem_of_app; [|set_solver]. apply Hw in Hc. set_solver.
  - apply NoDup_app. split_and!; [done| |apply NoDup_singleton].
    intros c Hc ->%list_elem_of_singleton. apply Hf in Hc. lia.
  - intros c [Hc| ->%list_elem_of_singleton]%elem_of_app; [apply Hf in Hc|]; lia.
  - intros x [Hx Hne]%elem_of_difference. rewrite remove_first_elem by done.
    destruct (Hp x Hx) as [H1|[H1|H1]]; set_solver.
  - intros x [Hx Hne]%remove_first_elem; [|done]. apply Hw in Hx. set_solver.
  - by apply remove_first_NoDup.
  - intros x [Hx Hne]%remove_first_elem; [|done]. by apply Hf.
  - intros c Hc. destruct (Hp c Hc) as [H1|[H1|H1]]; set_solver.
  - set_solver.
  - constructor.
  - set_solver.
  - intros x Hx. rewrite Hl in Hp. destruct (Hp x Hx) as [H1|[H1|H1]]; set_solver.
  - done.
  - done.
  - done.
Qed.

Lemma idle_inv_reachable cfg s : rtc idle_step (idle_start cfg) s → idle_inv s.
Proof.
  intros Hr. remember (idle_start cfg) as s0 eqn:E0.
  assert (idle_inv s0) as H0 by (subst; split; simpl; [set_solver..|constructor|set_solver]).
  clear E0. induction Hr as [|s s1 s2 H1 _ IH]; [done|]. by eapply IH, idle_inv_step.
Qed.

(** ** The schedule *)

(** Delays of the configuration far from the end of int64. *)
Definition sane (c : IdleConfig) : Prop := BaseDelay c < 2 ^ 52 ∧ MaxDelay c < 2 ^ 52.

Lemma advance_range max nom :
  0 < max < 2 ^ 52 → 0 < nom < 2 ^ 52 →
  0 < advance_nominal max nom <= max ∧ (nom <= max → nom <= advance_nominal max nom).
Proof.
  intros Hm Hn. unfold advance_nominal, Millisecond, Second.
  assert (int64_wrap (nom * 2) = nom * 2) as ->
    by (unfold int64_wrap; rewrite Z.mod_small by lia; lia).
  repeat case_match; to_prop; lia.
Qed.

(** The nominal delay is the base delay, or a step of the schedule below the cap. *)
Definition nominal_ok (i : Idle) : Prop :=
  0 < BaseDelay (i_cfg i) < 2 ^ 52 ∧ 0 < MaxDelay (i_cfg i) < 2 ^ 52 ∧
  (nominal i = BaseDelay (i_cfg i) ∨ 0 < nominal i <= MaxDelay (i_cfg i)).

Lemma nominal_ok_new cfg : sane cfg → nominal_ok (NewIdle cfg).
Proof.
  intros [Hb Hm]. unfold nominal_ok, NewIdle, Millisecond, Second. simpl.
  repeat case_match; to_prop; lia.
Qed.

Lemma nominal_ok_step s s' : nominal_ok (idle s) → idle_step s s' → nominal_ok (idle s').
Proof.
  intros (Hb & Hm & Hn) Hst. destruct Hst; unfold nominal_ok; simpl; split_and!; try lia.
  right. apply advance_range; [lia|]. destruct Hn as [->|]; lia.
Qed.

Lemma nominal_ok_reachable cfg s :
  sane cfg → rtc idle_step (idle_start cfg) s → nominal_ok (idle s).
Proof.
  intros Hs Hr. remember (idle_start cfg) as s0 eqn:E0.
  assert (nominal_ok (idle s0)) as H0 by (subst; by apply nominal_ok_new).
  clear E0. induction Hr as [|s s1 s2 H1 _ IH]; [done|]. by eapply IH, nominal_ok_step.
Qed.

Lemma jitter_range k d :
  0 <= k < 2 ^ 53 → 0 < d < 2 ^ 53 → d - d / 4 <= jitter k d <= d + d / 4.
Proof.
  intros Hk Hd. unfold jitter. rewrite (proj2 (Z.leb_gt d 0)) by lia.
  assert (0 < f_unit) as Hu by (unfold f_unit; lia).
  assert (f_mul (f_of_int d) f_half = d * f_half) as ->.
  { rewrite f_of_int_exact by lia. unfold f_mul. apply Z.le_antisymm; [apply rnd_le|apply rnd_ge];
      try apply (representable_shift d 199); unfold f_half in *; nia. }
  pose proof (centred_draw k Hk) as H1. set (x := f_sub (rand_float64 k) f_half) in *.
  assert (- (d * f_quarter) <= f_mul x (d * f_half) <= d * f_quarter) as H2.
  { apply rnd_abs_le; [done|apply (representable_shift d 198); lia|].
    rewrite Z.abs_mul, (Z.abs_eq (d * f_half)) by (unfold f_half; nia).
    unfold f_half, f_quarter, f_unit in *. nia. }
  pose proof (f_trunc_quarter d _ ltac:(lia) H2). rewrite quarter_offset by lia. lia.
Qed.

(** ** Properties *)

(** C34: no lost wake-up: at any point of any interleaving of [WaitOnce] and [WakeAll]
    calls, a goroutine parked in [WaitOnce] is registered with the next [WakeAll], or
    is in the list a running [WakeAll] is about to signal, or already has its
    signal; the eviction keeps exactly the parked goroutines in the slice, once
    each; and a [WakeAll] leaves no parked goroutine outside the last two cases. *)
Theorem WakeAll_no_lost_wakeup cfg s s' :
  rtc idle_step (idle_start cfg) s →
  (∀ c, c ∈ parked s → c ∈ wakers (idle s) ∨ c ∈ sending s ∨ c ∈ token s) ∧
  (∀ c, c ∈ wakers (idle s) → c ∈ parked s) ∧ NoDup (wakers (idle s)) ∧
  (wakers (idle s') = [] → idle_step s s' → ∀ c, c ∈ parked s' → c ∈ sending s' ∨ c ∈ token s').
Proof.
  intros Hr. apply idle_inv_reachable in Hr as Hi. split_and!; [apply Hi..|].
  intros Hn Hst c Hc. destruct (idle_inv_step _ _ Hi Hst) as [Hp _ _ _].
  destruct (Hp c Hc) as [Hw|Hw]; [|done]. rewrite Hn in Hw. by apply not_elem_of_nil in Hw.
Qed.

(** The schedule: in every reachable state the nominal delay is positive and is
    either the base delay or at most the cap, a wait advances it monotonically to at
    most the cap, a wake resets it to the base delay, and every wait lasts between
    3/4 and 5/4 of the nominal delay, in the float64 arithmetic of the code. *)
Theorem Idle_schedule cfg s k c :
  sane cfg → 0 <= k < 2 ^ 53 → rtc idle_step (idle_start cfg) s →
  let i := idle s in
  let '(delay, i') := wait_enter k c i in
  0 < nominal i ∧ (nominal i = BaseDelay (i_cfg i) ∨ nominal i <= MaxDelay (i_cfg i)) ∧
  nominal i - nominal i / 4 <= delay <= nominal i + nominal i / 4 ∧
  0 < nominal i' <= MaxDelay (i_cfg i) ∧
  (nominal i <= MaxDelay (i_cfg i) → nominal i <= nominal i') ∧
  nominal (snd (wake_all i)) = BaseDelay (i_cfg i).
Proof.
  intros Hs Hk Hr. apply nominal_ok_reachable in Hr as (Hb & Hm & Hn); [|done].
  assert (0 < nominal (idle s) < 2 ^ 52) as Hpos by (destruct Hn as [->|]; lia).
  simpl. pose proof (advance_range (MaxDelay (i_cfg (idle s))) (nominal (idle s)) Hm Hpos) as [H1 H2].
  pose proof (jitter_range k (nominal (idle s)) Hk ltac:(lia)) as Hj.
  split; [lia|]. split; [destruct Hn; [by left|right; lia]|]. done.
Qed.

(** With the default configuration the schedule is 50ms, 200ms, 500ms, 1s, 1s. *)
Theorem Idle_default_schedule :
  let i0 := NewIdle {| BaseDelay := 0; MaxDelay := 0 |} in
  map CurrentNominalDelay [i0; advance i0; advance (advance i0); advance (advance (advance i0));
                           advance (advance (advance (advance i0)))]
  = [50 * Millisecond; 200 * Millisecond; 500 * Millisecond; Second; Second].
Proof. vm_compute. reflexivity. Qed.

(** ** Witnesses *)

Definition sample_idle : IdleConfig := {| BaseDelay := 0; MaxDelay := 0 |}.

Lemma Idle_schedule_witness :
  50 * Millisecond - 50 * Millisecond / 4 <= jitter 99 (50 * Millisecond).
Proof.
  pose proof (Idle_schedule sample_idle (idle_start sample_idle) 99 0) as Hs.
  specialize (Hs ltac:(split; simpl; lia) ltac:(lia) (rtc_refl _ _)).
  destruct Hs as (_ & _ & [Hlo _] & _). exact Hlo.
Defined.

Lemma WakeAll_no_lost_wakeup_witness : ∃ s, parked s = {[0%nat]} ∧
  ∀ c, c ∈ parked s → c ∈ wakers (idle s) ∨ c ∈ sending s ∨ c ∈ token s.
Proof.
  destruct (WakeAll_no_lost_wakeup sample_idle _ (idle_start sample_idle)
    (rtc_once _ _ (is_enter (idle_start sample_idle) 7))) as (Hp & _).
  eexists. split; [|exact Hp]. simpl. apply union_empty_r_L.
Defined.
