(* ===== verification/Hostcap.v ===== *)
(** * The cluster-wide cap per FTP host (internal/hostcap/hostcap.go)

    Session-level advisory locks of PostgreSQL, the slot search with its backoff, the
    transport wrapper, and the bound on the sessions that are inside a transfer at the
    same time. [hashtext] is PostgreSQL's and a parameter. *)

From Stdlib Require Import Ascii Init.Byte.
From S2P Require Import Prelude GoLang GoFloat ErrDetail GoText GoUrl Transfer.

Local Open Scope Z_scope.

(** ** Advisory locks *)

(** Key, session that holds it, and how many times it took it. *)
Notation lockdb := (gmap Z (nat * nat)).

(** [SELECT pg_try_advisory_lock(key)] in the session [me]. *)
Definition try_advisory_lock (me : nat) (key : Z) (s : lockdb) : bool * lockdb :=
  match s !! key with
  | None => (true, <[key := (me, 1%nat)]> s)
  | Some (o, c) => if decide (o = me) then (true, <[key := (me, S c)]> s) else (false, s)
  end.

(** [SELECT pg_advisory_unlock(key)]. *)
Definition advisory_unlock (me : nat) (key : Z) (s : lockdb) : lockdb :=
  match s !! key with
  | Some (o, c) =>
      if decide (o = me) then
        match c with S (S c') => <[key := (me, S c')]> s | _ => delete key s end
      else s
  | None => s
  end.

(** ** Slots *)

(** [fnv.New32a] over the bytes written to it. *)
Definition fnv_step (h : Z) (b : Z) : Z := uint32_wrap (Z.lxor h b * 16777619).

Fixpoint fnv_write (h : Z) (s : string) : Z :=
  match s with
  | EmptyString => h
  | String a s' => fnv_write (fnv_step h (Z.of_N (N_of_ascii a))) s'
  end.

(** [func slotHash]: [h % uint32(cap)], which panics when the divisor is 0. *)
Definition slotHash (host dst : string) (cap : Z) : res Z :=
  let h := fnv_write (fnv_step (fnv_write 2166136261 host) 0) dst in
  if uint32_wrap cap =? 0 then Panic "runtime error: integer divide by zero"
  else Ret (h mod uint32_wrap cap).

(** [func slotKey]. *)
Definition slotKey (host : string) (slot : Z) : string :=
  "ftp_host_" +:+ host +:+ "_" +:+ itoa slot.

(** [const maxBackoff] and [func nextBackoff]. *)
Definition maxBackoff : Z := 2 * Second.

Definition nextBackoff (cur base : Z) : Z :=
  let base := if base <=? 0 then 100 * Millisecond else base in
  let cur := if cur <? base then base else cur in
  let next := int64_wrap (cur * 2) in
  if maxBackoff <? next then maxBackoff else next.

(** [func jittered]. *)
Definition jittered (d seed : Z) : Z :=
  if d <=? 0 then d
  else
    let frac := f_div (f_of_int (seed mod 1000)) (f_of_int 1000) in
    let delta := f_mul (f_mul (f_sub (f_mul frac (f_of_int 2)) (f_of_int 1)) f_quarter) (f_of_int d) in
    int64_wrap (d + f_trunc delta).

(** The LCG step of the jitter seed. *)
Definition lcg (seed : Z) : Z := uint32_wrap (seed * 1664525 + 1013904223).

(** What happens around one call: what other sessions did to the locks before each
    query, the queries that fail (a connection that breaks takes its locks with it),
    the waits during which the context is done, and whether the unlock, whose error is
    ignored, reaches the server. *)
Record probe_env := {
  pe_before : nat → lockdb → lockdb;
  pe_fault : nat → option error;
  pe_done : nat → option error;
  pe_unlock : bool;
}.

Definition calm_probe : probe_env :=
  {| pe_before := λ _ s, s; pe_fault := λ _, None; pe_done := λ _, None; pe_unlock := true |}.

Section Slots.
Context (hashtext : string → Z).

(** The inner [for i := 0; i < cap; i++]: [left] probes to go, [q] queries so far. *)
Fixpoint probe_slots (pe : probe_env) (me : nat) (host : string) (cap start : Z)
    (left i q : nat) (s : lockdb) : (error + option Z) * lockdb :=
  match left with
  | O => (inr None, s)
  | S left' =>
      let slot := (start + Z.of_nat i) mod cap in
      let s := pe_before pe q s in
      match pe_fault pe q with
      | Some err => (inl (wrapf "hostcap: try lock: " err), s)
      | None =>
          match try_advisory_lock me (hashtext (slotKey host slot)) s with
          | (true, s') => (inr (Some slot), s')
          | (false, s') => probe_slots pe me host cap start left' (S i) (S q) s'
          end
      end
  end.

(** How far an acquire got: a slot, an error, or still waiting; with the waits. *)
Inductive acquired := Slot (slot : Z) | Refused (e : error) | StillWaiting.

(** The outer [for], at most [fuel] rounds of it. *)
Fixpoint acquire_rounds (pe : probe_env) (me : nat) (host : string) (cap start base : Z)
    (fuel round : nat) (wait seed : Z) (s : lockdb) : acquired * list Z * lockdb :=
  match fuel with
  | O => (StillWaiting, [], s)
  | S fuel' =>
      match probe_slots pe me host cap start (Z.to_nat cap) 0 (round * Z.to_nat cap) s with
      | (inl err, s') => (Refused err, [], s')
      | (inr (Some slot), s') => (Slot slot, [], s')
      | (inr None, s') =>
          let d := jittered wait seed in
          match pe_done pe round with
          | Some err => (Refused err, [d], s')
          | None =>
              let '(a, ws, s'') := acquire_rounds pe me host cap start base fuel' (S round)
                                     (nextBackoff wait base) (lcg seed) s' in
              (a, d :: ws, s'')
          end
      end
  end.

(** [func acquireSlot]. *)
Definition acquireSlot (pe : probe_env) (me : nat) (host dst : string) (cap backoff : Z)
    (fuel : nat) (s : lockdb) : res (acquired * list Z) * lockdb :=
  match slotHash host dst cap with
  | Panic v => (Panic v, s)
  | Ret start =>
      match slotHash host (dst +:+ "#jitter") (cap * 7 + 13) with
      | Panic v => (Panic v, s)
      | Ret seed =>
          let '(a, ws, s') := acquire_rounds pe me host cap start backoff fuel 0 backoff seed s in
          (Ret (a, ws), s')
      end
  end.

(** [type Config struct] with the defaults of [func Wrap]. *)
Record HostcapConfig := { Cap : Z; Host : string; AcquireBackoff : Z }.

Definition Wrap_config (cfg : HostcapConfig) : HostcapConfig := {|
  Cap := if Cap cfg <=? 0 then 8 else Cap cfg; Host := Host cfg;
  AcquireBackoff := if AcquireBackoff cfg <=? 0 then 100 * Millisecond else AcquireBackoff cfg
|}.

(** The host a transfer is counted under. *)
Definition cap_host (cfg : HostcapConfig) (dst : string) : string :=
  if bool_decide (Host cfg = EmptyString) then
    match url_parse dst with Some u => u_Host u | None => EmptyString end
  else Host cfg.

Section Wrap.
Context {W : Type} `{Lens W lockdb}.

(** The deferred [_, _ = Exec("SELECT pg_advisory_unlock(...)")]. *)
Definition deferred_unlock (pe : probe_env) (me : nat) (key : Z) (s : lockdb) : lockdb :=
  if pe_unlock pe then advisory_unlock me key s else s.

(** [func (c *CapTransport) Send], with the pinned session [me], or the error of
    [pool.Acquire]. A call that is still waiting has not returned: [fuel] rounds of
    waiting are the last thing it is seen doing, reported as [None]. *)
Definition CapTransport_Send (cfg : HostcapConfig) (inner : Transport W) (conn : error + nat)
    (pe : probe_env) (fuel : nat) {R} (HR : Reader R) (dst : string) (body : R) (size : Z) (w : W)
    : option (res (error + Z * string)) * R * W :=
  let host := cap_host cfg dst in
  if bool_decide (host = EmptyString) then
    (Some (Ret (inl (EOpaque "hostcap: cannot derive host from dst"))), body, w)
  else
    match conn with
    | inl err => (Some (Ret (inl (wrapf "hostcap: acquire dedicated conn: " err))), body, w)
    | inr me =>
        match acquireSlot pe me host dst (Cap cfg) (AcquireBackoff cfg) fuel (view w) with
        | (Panic v, s) => (Some (Panic v), body, over s w)
        | (Ret (Refused err, _), s) => (Some (Ret (inl err)), body, over s w)
        | (Ret (StillWaiting, _), s) => (None, body, over s w)
        | (Ret (Slot slot, _), s) =>
            let '(r, body', w') := Send_fn inner dst body size (over s w) in
            (Some r, body', over (deferred_unlock pe me (hashtext (slotKey host slot)) (view w')) w')
        end
    end.

(** The wrapper as a transport; a call still waiting has no result. *)
Definition cap_transport (cfg : HostcapConfig) (inner : Transport W) (conn : error + nat)
    (pe : probe_env) (fuel : nat) : Transport W := {|
  Send_fn := λ R HR dst body size w,
    match CapTransport_Send cfg inner conn pe fuel HR dst body size w with
    | (Some r, body', w') => ((r, body'), w')
    | (None, body', w') => ((Panic "still waiting", body'), w')
    end
|}.

End Wrap.

(** ** The slot search *)

Lemma try_lock_true me key s s' :
  try_advisory_lock me key s = (true, s') → ∃ n, s' !! key = Some (me, S n).
Proof.
  unfold try_advisory_lock. intros Ht. destruct (s !! key) as [[o c]|]; [case_decide|]; simplify_eq;
    rewrite lookup_insert_eq; eauto.
Qed.

Lemma probe_slots_owned pe me host cap start left i q s slot s' :
  0 < cap → probe_slots pe me host cap start left i q s = (inr (Some slot), s') →
  0 <= slot < cap ∧ ∃ n, s' !! hashtext (slotKey host slot) = Some (me, S n).
Proof.
  intros Hcap. revert i q s. induction left as [|left IH]; intros i q s Hp; simpl in Hp; [done|].
  destruct (pe_fault pe q); [done|].
  destruct (try_advisory_lock me _ (pe_before pe q s)) as [[] s1] eqn:Et; [|by eapply IH].
  simplify_eq. split; [apply Z.mod_pos_bound; lia|]. by eapply try_lock_true.
Qed.

(** Left to itself a scan finds a slot whenever one of its slots is free. *)
Lemma probe_slots_calm me host cap start left i q s :
  (∃ k, (i ≤ k < i + left)%nat ∧
     s !! hashtext (slotKey host ((start + Z.of_nat k) mod cap)) = None) →
  ∃ slot s', probe_slots calm_probe me host cap start left i q s = (inr (Some slot), s').
Proof.
  revert i q. induction left as [|left IH]; intros i q (k & Hk & Hf); [lia|]. simpl.
  destruct (decide (k = i)) as [->|Hne].
  - unfold try_advisory_lock. rewrite Hf. eauto.
  - destruct (try_advisory_lock me _ s) as [[] s1] eqn:Et; [by eauto|].
    assert (s1 = s) as ->.
    { unfold try_advisory_lock in Et. repeat case_match; by simplify_eq. }
    apply IH. exists k. split; [lia|done].
Qed.

(** Every slot of the host is one of the [cap] probes. *)
Lemma probes_cover cap start slot :
  0 < cap → 0 <= slot < cap →
  ∃ k, (0 ≤ k < 0 + Z.to_nat cap)%nat ∧ (start + Z.of_nat k) mod cap = slot.
Proof.
  intros Hcap Hs. exists (Z.to_nat ((slot - start) mod cap)).
  pose proof (Z.mod_pos_bound (slot - start) cap Hcap). split; [lia|].
  rewrite Z2Nat.id by lia. rewrite Z.add_mod_idemp_r by lia.
  replace (start + (slot - start)) with slot by lia. by apply Z.mod_small.
Qed.

Lemma slotHash_range host dst cap :
  0 < cap < 2 ^ 32 → ∃ h, slotHash host dst cap = Ret h ∧ 0 <= h < cap.
Proof.
  intros Hc. unfold slotHash, uint32_wrap. rewrite (Z.mod_small cap) by lia.
  rewrite (proj2 (Z.eqb_neq cap 0)) by lia. eexists. split; [done|]. apply Z.mod_pos_bound. lia.
Qed.

(** ** Delays *)

Lemma nextBackoff_range cur base :
  0 < cur < 2 ^ 52 → 0 < base < 2 ^ 52 → 0 < nextBackoff cur base <= maxBackoff.
Proof.
  intros Hc Hb. unfold nextBackoff, maxBackoff, Second. rewrite (proj2 (Z.leb_gt base 0)) by lia.
  set (c := if cur <? base then base else cur).
  assert (0 < c < 2 ^ 52) by (unfold c; destruct (cur <? base); lia).
  assert (int64_wrap (c * 2) = c * 2) as ->
    by (unfold int64_wrap; rewrite Z.mod_small by lia; lia).
  case_match; lia.
Qed.

Lemma jittered_range d seed :
  0 < d < 2 ^ 53 → d - d / 4 <= jittered d seed <= d + d / 4.
Proof.
  intros Hd. unfold jittered. rewrite (proj2 (Z.leb_gt d 0)) by lia.
  assert (0 < f_unit) as Hu by (unfold f_unit; lia).
  pose proof (Z.mod_pos_bound seed 1000 ltac:(lia)) as Hm.
  rewrite !f_of_int_exact by lia. set (m := seed mod 1000) in *.
  assert (representable (1 * f_unit)) as R1 by (by apply (representable_shift 1 200)).
  assert (0 <= f_div (m * f_unit) (1000 * f_unit) <= 1 * f_unit) as H1.
  { unfold f_div. rewrite (Z.sgn_pos (1000 * f_unit)), (Z.abs_eq (1000 * f_unit)) by lia.
    split; [apply rnd_ge; [lia..|apply Z.divide_0_r|nia]|apply rnd_le; [nia|lia|done|nia]]. }
  set (x := f_div (m * f_unit) (1000 * f_unit)) in *.
  assert (0 <= f_mul x (2 * f_unit) <= 2 * f_unit) as H2.
  { unfold f_mul. split; [apply rnd_ge; [lia..|apply Z.divide_0_r|nia]|].
    apply rnd_le; [nia|lia|by apply (representable_shift 2 200)|nia]. }
  set (y := f_mul x (2 * f_unit)) in *.
  assert (- (1 * f_unit) <= f_sub y (1 * f_unit) <= 1 * f_unit) as H3
    by (apply rnd_abs_le; [lia|done|lia]).
  set (z := f_sub y (1 * f_unit)) in *.
  assert (- f_quarter <= f_mul z f_quarter <= f_quarter) as H4.
  { apply rnd_abs_le; [done|by apply (representable_shift 1 198)|].
    unfold f_quarter, f_unit in *. nia. }
  set (v := f_mul z f_quarter) in *.
  assert (- (d * f_quarter) <= f_mul v (d * f_unit) <= d * f_quarter) as H5.
  { apply rnd_abs_le; [done|apply (representable_shift d 198); lia|].
    rewrite Z.abs_mul, (Z.abs_eq (d * f_unit)) by (apply Z.mul_nonneg_nonneg; lia).
    transitivity (f_quarter * (d * f_unit)); [|lia].
    apply Z.mul_le_mono_nonneg_r; [apply Z.mul_nonneg_nonneg|]; lia. }
  pose proof (f_trunc_quarter d _ ltac:(lia) H5). rewrite quarter_offset by lia. lia.
Qed.

(** The waits of an acquire: three quarters to five quarters of a bounded delay. *)
Definition wait_ok (base w : Z) : Prop := 0 < w <= Z.max base maxBackoff + Z.max base maxBackoff / 4.

Lemma acquire_waits pe me host cap start base fuel round wait seed s a ws s' :
  0 < base < 2 ^ 52 → 0 < wait <= Z.max base maxBackoff →
  acquire_rounds pe me host cap start base fuel round wait seed s = (a, ws, s') →
  Forall (wait_ok base) ws.
Proof.
  intros Hb. assert (maxBackoff = 2000000000) as Hmax by done.
  revert round wait seed s a ws s'.
  induction fuel as [|fuel IH]; intros round wait seed s a ws s' Hw E; simpl in E; [by simplify_eq|].
  assert (wait_ok base (jittered wait seed)) as Hj.
  { pose proof (jittered_range wait seed ltac:(lia)) as Hr. unfold wait_ok.
    pose proof (Z.div_le_mono wait (Z.max base maxBackoff) 4 ltac:(lia) ltac:(lia)).
    pose proof (Z.div_lt wait 4 ltac:(lia) ltac:(lia)). lia. }
  destruct (probe_slots _ _ _ _ _ _ _ _ _) as [[err|[slot|]] s1]; [by simplify_eq..|].
  destruct (pe_done pe round) as [err|]; [simplify_eq; by constructor|].
  destruct (acquire_rounds _ _ _ _ _ _ _ _ _ _ _) as [[a1 ws1] s2] eqn:Er. simplify_eq.
  constructor; [done|]. eapply IH; [|exact Er].
  pose proof (nextBackoff_range wait base ltac:(lia) ltac:(lia)). lia.
Qed.

Lemma acquire_owned pe me host cap start base fuel round wait seed s slot ws s' :
  0 < cap → acquire_rounds pe me host cap start base fuel round wait seed s = (Slot slot, ws, s') →
  0 <= slot < cap ∧ ∃ n, s' !! hashtext (slotKey host slot) = Some (me, S n).
Proof.
  intros Hcap. revert round wait seed s ws.
  induction fuel as [|fuel IH]; intros round wait seed s ws E; simpl in E; [done|].
  destruct (probe_slots _ _ _ _ _ _ _ _ _) as [[err|[slot1|]] s1] eqn:Ep; [done| |].
  - simplify_eq. by eapply probe_slots_owned.
  - destruct (pe_done pe round) as [err|]; [done|].
    destruct (acquire_rounds _ _ _ _ _ _ _ _ _ _ _) as [[a1 ws1] s2] eqn:Er. simplify_eq. eauto.
Qed.

(** The session holds no lock, or exactly the one of [key]; and a change that leaves the
    locks of the session alone, as other sessions do. *)
Definition lockless (me : nat) (s : lockdb) : Prop := ∀ key n, s !! key ≠ Some (me, n).

Definition holds_only (me : nat) (key : Z) (s : lockdb) : Prop :=
  ∀ k n, s !! k = Some (me, n) ↔ k = key ∧ n = 1%nat.

Definition respects (me : nat) (s s' : lockdb) : Prop :=
  ∀ key n, s' !! key = Some (me, n) ↔ s !! key = Some (me, n).

Lemma respects_lockless me s s' : respects me s s' → lockless me s → lockless me s'.
Proof. intros Hr Hl key n E. by apply (Hl key n), Hr. Qed.

Lemma respects_holds me key s s' : respects me s s' → holds_only me key s → holds_only me key s'.
Proof. intros Hr Hh k n. by rewrite (Hr k n). Qed.

Lemma unlock_lockless me key s : holds_only me key s → lockless me (advisory_unlock me key s).
Proof.
  intros Hh k n. unfold advisory_unlock.
  assert (s !! key = Some (me, 1%nat)) as -> by by apply Hh. rewrite decide_True by done.
  destruct (decide (k = key)) as [->|Hne]; [by rewrite lookup_delete_eq|].
  rewrite lookup_delete_ne by done. by intros [? _]%Hh.
Qed.

(** Among other sessions: a scan that wins holds exactly the slot it returns. *)
Definition won (me : nat) (host : string) (cap : Z) (o : option Z) (s : lockdb) : Prop :=
  match o with
  | Some slot => 0 <= slot < cap ∧ holds_only me (hashtext (slotKey host slot)) s
  | None => lockless me s
  end.

Lemma try_lock_won me key s b s' : lockless me s → try_advisory_lock me key s = (b, s') →
  if b then holds_only me key s' else lockless me s'.
Proof.
  intros Hl E. unfold try_advisory_lock in E. destruct (s !! key) as [[o c]|] eqn:Ek.
  - destruct (decide (o = me)) as [->|]; [by destruct (Hl _ _ Ek)|]. by injection E as <- <-.
  - injection E as <- <-. intros k n. destruct (decide (k = key)) as [->|Hne].
    + rewrite lookup_insert_eq. naive_solver.
    + rewrite lookup_insert_ne by done. split; [by intros ?%Hl|by intros [? _]].
Qed.

Lemma probe_slots_won pe me host cap start left i q s o s' :
  0 < cap → (∀ q s, respects me s (pe_before pe q s)) → lockless me s →
  probe_slots pe me host cap start left i q s = (o, s') →
  won me host cap (match o with inr o' => o' | inl _ => None end) s'.
Proof.
  intros Hcap Hpe. revert i q s. induction left as [|left IH]; intros i q s Hl Hp; simpl in Hp; [by simplify_eq|].
  apply (respects_lockless _ _ _ (Hpe q s)) in Hl.
  destruct (pe_fault pe q); [by simplify_eq|].
  destruct (try_advisory_lock me _ (pe_before pe q s)) as [[] s1] eqn:Et;
    pose proof (try_lock_won _ _ _ _ _ Hl Et) as Hw; [|exact (IH _ _ _ Hw Hp)].
  simplify_eq. split; [apply Z.mod_pos_bound; lia|done].
Qed.

Lemma acquire_won pe me host cap start base fuel round wait seed s a ws s' :
  0 < cap → (∀ q s, respects me s (pe_before pe q s)) → lockless me s →
  acquire_rounds pe me host cap start base fuel round wait seed s = (a, ws, s') →
  won me host cap (match a with Slot slot => Some slot | _ => None end) s'.
Proof.
  intros Hcap Hpe. revert round wait seed a ws s.
  induction fuel as [|fuel IH]; intros round wait seed a ws s Hl E; simpl in E; [by simplify_eq|].
  destruct (probe_slots _ _ _ _ _ _ _ _ _) as [o s1] eqn:Ep.
  apply probe_slots_won in Ep; [|done..].
  destruct o as [err|[slot|]]; [by simplify_eq..|]. simpl in Ep.
  destruct (pe_done pe round); [by simplify_eq|].
  destruct (acquire_rounds _ _ _ _ _ _ _ _ _ _ _) as [[a1 ws1] s2] eqn:Er. simplify_eq. by eapply IH.
Qed.

(** What a session does to the locks leaves those of the others alone. *)
Lemma try_lock_respects o me key s : o ≠ me → respects o s (snd (try_advisory_lock me key s)).
Proof.
  intros Hne k n. unfold try_advisory_lock.
  destruct (s !! key) as [[ow c]|] eqn:Ek; [case_decide; [subst|done]|]; simpl; rewrite lookup_insert;
    case_decide; subst; try done; rewrite Ek; naive_solver.
Qed.

Lemma unlock_respects o me key s : o ≠ me → respects o s (advisory_unlock me key s).
Proof.
  intros Hne k n. unfold advisory_unlock. destruct (s !! key) as [[ow c]|] eqn:Ek; [|done].
  case_decide; [subst|done]. destruct c as [|[|c]]; rewrite ?lookup_delete, ?lookup_insert;
    case_decide; subst; try done; rewrite Ek; naive_solver.
Qed.

Lemma respects_trans o s1 s2 s3 : respects o s1 s2 → respects o s2 s3 → respects o s1 s3.
Proof. intros H1 H2 k n. by rewrite (H2 k n), (H1 k n). Qed.

Lemma probe_slots_respects o pe me host cap start left i q s x s' :
  o ≠ me → (∀ q s, respects o s (pe_before pe q s)) →
  probe_slots pe me host cap start left i q s = (x, s') → respects o s s'.
Proof.
  intros Hne Hpe. revert i q s. induction left as [|left IH]; intros i q s Hp; simpl in Hp; [by simplify_eq|].
  destruct (pe_fault pe q); [by simplify_eq|].
  pose proof (try_lock_respects o me (hashtext (slotKey host ((start + Z.of_nat i) mod cap)))
    (pe_before pe q s) Hne) as Ht.
  destruct (try_advisory_lock me _ (pe_before pe q s)) as [[] s1]; simpl in Ht;
    pose proof (respects_trans _ _ _ _ (Hpe q s) Ht) as H1; [by simplify_eq|].
  eapply respects_trans; [exact H1|by eapply IH].
Qed.

Lemma acquire_respects o pe me host cap start base fuel round wait seed s a ws s' :
  o ≠ me → (∀ q s, respects o s (pe_before pe q s)) →
  acquire_rounds pe me host cap start base fuel round wait seed s = (a, ws, s') → respects o s s'.
Proof.
  intros Hne Hpe. revert round wait seed a ws s.
  induction fuel as [|fuel IH]; intros round wait seed a ws s E; simpl in E; [by simplify_eq|].
  destruct (probe_slots _ _ _ _ _ _ _ _ _) as [x s1] eqn:Ep.
  apply (probe_slots_respects o) in Ep; [|done..].
  destruct x as [err|[slot|]]; [by simplify_eq..|].
  destruct (pe_done pe round); [by simplify_eq|].
  destruct (acquire_rounds _ _ _ _ _ _ _ _ _ _ _) as [[a1 ws1] s2] eqn:Er. simplify_eq.
  eapply respects_trans; [exact Ep|by eapply IH].
Qed.

(** ** Transfers *)

(** The session [me] is inside a transfer to [dst] when the locks are [s]: its search
    returned a slot, at some earlier moment and whatever the others did meanwhile, and
    since then it kept its locks: it did not unlock, and the server did not drop it. *)
Definition transferring (cfg : HostcapConfig) (dst : string) (me : nat) (s : lockdb) : Prop :=
  ∃ pe fuel s1 slot ws s0,
    acquireSlot pe me (cap_host cfg dst) dst (Cap cfg) (AcquireBackoff cfg) fuel s1
    = (Ret (Slot slot, ws), s0) ∧ respects me s0 s.

(** It holds the lock of one slot of the host. *)
Lemma transferring_owns cfg dst me s :
  0 < Cap cfg → transferring cfg dst me s →
  ∃ slot n, 0 <= slot < Cap cfg ∧ s !! hashtext (slotKey (cap_host cfg dst) slot) = Some (me, S n).
Proof.
  intros Hcap (pe & fuel & s1 & slot & ws & s0 & E & Hr). unfold acquireSlot in E.
  destruct (slotHash _ dst _) as [start|]; [|done].
  destruct (slotHash _ (dst +:+ _) _) as [seed|]; [|done].
  destruct (acquire_rounds _ _ _ _ _ _ _ _ _ _ _) as [[a ws1] s2] eqn:Er. simplify_eq.
  apply acquire_owned in Er as [Hs [n Hn]]; [|done]. exists slot, n. split; [done|]. by apply Hr.
Qed.

(** The slots the sessions of a list hold, one each: as many as sessions. *)
Lemma slots_of host cap (s : lockdb) (ts : list nat) :
  NoDup ts →
  (∀ me, me ∈ ts → ∃ slot n, 0 <= slot < cap ∧ s !! hashtext (slotKey host slot) = Some (me, S n)) →
  ∃ slots : list Z, length slots = length ts ∧ NoDup slots ∧
    ∀ slot, slot ∈ slots → 0 <= slot < cap ∧
      ∃ me n, me ∈ ts ∧ s !! hashtext (slotKey host slot) = Some (me, S n).
Proof.
  induction ts as [|me ts IH]; intros Hnd Hown.
  { exists []. split_and!; [done|constructor|]. by intros ? ?%not_elem_of_nil. }
  apply NoDup_cons in Hnd as [Hni Hnd].
  destruct IH as (slots & Hl & Hns & Hs); [done|intros m Hm; apply Hown; by right|].
  destruct (Hown me) as (slot & n & Hr & Ho); [left|].
  exists (slot :: slots). split_and!; [simpl; lia| |].
  - apply NoDup_cons. split; [|done]. intros Hin.
    destruct (Hs slot Hin) as (_ & m & k & Hm & Hk). rewrite Ho in Hk. by simplify_eq.
  - intros sl [->|Hin]%elem_of_cons.
    + split; [done|]. exists me, n. split; [left|done].
    + destruct (Hs sl Hin) as (Hr' & m & k & Hm & Hk). split; [done|]. exists m, k. split; [by right|done].
Qed.

Lemma transfers_bound cap host (s : lockdb) (ts : list nat) :
  0 < cap → NoDup ts →
  (∀ me, me ∈ ts → ∃ cfg dst, Cap cfg = cap ∧ cap_host cfg dst = host ∧ transferring cfg dst me s) →
  (length ts ≤ Z.to_nat cap)%nat.
Proof.
  intros Hcap Hnd Hts. destruct (slots_of host cap s ts Hnd) as (slots & <- & Hns & Hs).
  { intros me Hme. destruct (Hts me Hme) as (cfg & dst & <- & <- & Ht). by apply transferring_owns. }
  transitivity (length (seqZ 0 cap)); [|by rewrite length_seqZ].
  apply submseteq_length, NoDup_submseteq; [done|]. intros sl Hsl. apply elem_of_seqZ.
  destruct (Hs sl Hsl) as [Hr _]. lia.
Qed.

(** The wrapper among other sessions. *)
Section Cap.
Context {W : Type} `{Lens W lockdb} (cfg : HostcapConfig) (me : nat) (pe : probe_env) (fuel : nat).
Context {R : Type} (HR : Reader R) (dst : string) (body : R) (size : Z).

(** The inner transport is called inside a transfer of this session, and nowhere else. *)
Lemma cap_send_inside (inner inner' : Transport W) w :
  (∀ w0, transferring cfg dst me (view w0) →
     Send_fn inner dst body size w0 = Send_fn inner' dst body size w0) →
  CapTransport_Send cfg inner (inr me) pe fuel HR dst body size w
  = CapTransport_Send cfg inner' (inr me) pe fuel HR dst body size w.
Proof.
  intros Hin. unfold CapTransport_Send. case_bool_decide; [done|].
  destruct (acquireSlot _ _ _ _ _ _ _ _) as [[[[slot|err|] ws]|v] s1] eqn:Ea; try done.
  rewrite Hin; [done|]. rewrite view_over. by exists pe, fuel, (view w), slot, ws, s1.
Qed.

(** The locks of another session stay as the environment and the transfer leave them. *)
Lemma cap_send_respects o (inner : Transport W) w r body' w' :
  o ≠ me → (∀ q s, respects o s (pe_before pe q s)) →
  (∀ w0, respects o (view w0) (view (snd (Send_fn inner dst body size w0)))) →
  CapTransport_Send cfg inner (inr me) pe fuel HR dst body size w = (r, body', w') →
  respects o (view w) (view w').
Proof.
  intros Hne Hpe Hin E. unfold CapTransport_Send in E.
  case_bool_decide; [by simplify_eq|].
  assert (∀ a s1, acquireSlot pe me (cap_host cfg dst) dst (Cap cfg) (AcquireBackoff cfg) fuel (view w) = (a, s1) →
    respects o (view w) s1) as Ha.
  { intros a s1 Ea. unfold acquireSlot in Ea.
    destruct (slotHash _ dst _) as [start|v]; [|by simplify_eq].
    destruct (slotHash _ (dst +:+ _) _) as [seed|v]; [|by simplify_eq].
    destruct (acquire_rounds _ _ _ _ _ _ _ _ _ _ _) as [[x ws] s2] eqn:Er. simplify_eq.
    by eapply acquire_respects. }
  destruct (acquireSlot _ _ _ _ _ _ _ _) as [[[[slot|err|] ws]|v] s1];
    specialize (Ha _ _ eq_refl); [|simplify_eq; by rewrite view_over..].
  specialize (Hin (over s1 w)). rewrite view_over in Hin.
  destruct (Send_fn inner dst body size (over s1 w)) as [[r1 b1] w1]. simplify_eq. rewrite view_over.
  apply (respects_trans _ _ _ _ Ha), (respects_trans _ _ _ _ Hin).
  unfold deferred_unlock. destruct (pe_unlock pe); [by apply unlock_respects|done].
Qed.

Lemma cap_send_holds (inner : Transport W) w r body' w' :
  0 < Cap cfg → (∀ q s, respects me s (pe_before pe q s)) → lockless me (view w) →
  (∀ w0, respects me (view w0) (view (snd (Send_fn inner dst body size w0)))) →
  CapTransport_Send cfg inner (inr me) pe fuel HR dst body size w = (Some r, body', w') →
  (lockless me (view w') ∧ body' = body ∧ ∀ n sha, r ≠ Ret (inr (n, sha))) ∨
  ∃ slot s w1, let key := hashtext (slotKey (cap_host cfg dst) slot) in
    0 <= slot < Cap cfg ∧ holds_only me key s ∧
    Send_fn inner dst body size (over s w) = ((r, body'), w1) ∧ holds_only me key (view w1) ∧
    if pe_unlock pe then lockless me (view w') else holds_only me key (view w').
Proof.
  intros Hcap Hpe Hl Hin E. unfold CapTransport_Send in E.
  case_bool_decide; [simplify_eq; by auto|]. unfold acquireSlot in E.
  destruct (slotHash _ dst _) as [start|v]; [|simplify_eq; rewrite view_over; by auto].
  destruct (slotHash _ (dst +:+ _) _) as [seed|v]; [|simplify_eq; rewrite view_over; by auto].
  destruct (acquire_rounds _ _ _ _ _ _ _ _ _ _ _) as [[a ws] s1] eqn:Er.
  apply acquire_won in Er; [|done..].
  destruct a as [slot|err|]; [|simplify_eq; rewrite view_over; by auto|done]. destruct Er as [Hs Hh].
  specialize (Hin (over s1 w)). rewrite view_over in Hin.
  destruct (Send_fn inner dst body size (over s1 w)) as [[r1 b1] w1] eqn:Es. simpl in Hin.
  pose proof (respects_holds _ _ _ _ Hin Hh) as Hh1. simplify_eq.
  rewrite view_over. right. exists slot, s1, w1. cbn zeta. split_and!; [lia..|done|done|done|].
  unfold deferred_unlock. destruct (pe_unlock pe); [by apply unlock_lockless|done].
Qed.

End Cap.

(** ** Properties *)

(** The slot search: whatever other sessions do to the locks and whichever queries
    fail, [acquireSlot] does not panic, a slot it returns is in range and locked by
    this session when it returns, and every wait is positive and at most five
    quarters of the larger of the configured backoff and two seconds. When nobody
    interferes and some slot of the host is free, one round of at most [cap] probes
    finds one without waiting, wherever the hash makes it start. *)
Theorem acquireSlot_spec me host dst cap backoff pe fuel s :
  0 < cap < 2 ^ 29 → 0 < backoff < 2 ^ 52 →
  (∃ a ws s', acquireSlot pe me host dst cap backoff fuel s = (Ret (a, ws), s') ∧
     Forall (wait_ok backoff) ws ∧
     ∀ slot, a = Slot slot → 0 <= slot < cap ∧
       ∃ n, s' !! hashtext (slotKey host slot) = Some (me, S n)) ∧
  ((∃ slot, 0 <= slot < cap ∧ s !! hashtext (slotKey host slot) = None) →
   ∃ slot s', acquireSlot calm_probe me host dst cap backoff (S fuel) s = (Ret (Slot slot, []), s')).
Proof.
  intros Hcap Hb. unfold acquireSlot.
  destruct (slotHash_range host dst cap ltac:(lia)) as (start & -> & Hstart).
  destruct (slotHash_range host (dst +:+ "#jitter") (cap * 7 + 13) ltac:(lia)) as (seed & -> & _).
  split.
  - destruct (acquire_rounds pe me host cap start backoff fuel 0 backoff seed s) as [[a ws] s'] eqn:E.
    exists a, ws, s'. split; [done|]. split; [eapply acquire_waits; [done| |exact E]; lia|].
    intros slot ->. eapply acquire_owned; [|exact E]. lia.
  - intros (slot & Hs & Hf).
    destruct (probes_cover cap start slot ltac:(lia) Hs) as (k & Hk & Ek).
    destruct (probe_slots_calm me host cap start (Z.to_nat cap) 0 0 s) as (sl & s' & E).
    { exists k. split; [done|]. by rewrite Ek. }
    exists sl, s'. simpl. by rewrite E.
Qed.

(** C24: the cap is exact: whatever hash PostgreSQL uses for the lock keys (collisions
    included), at any moment at most [Cap] sessions are inside a transfer to one host
    (their search for a slot returned one and the server has not dropped them since).
    The wrapper calls the inner transport only inside such a transfer of its session; it
    leaves the locks of every other session alone, as long as the transfer and the others
    do; and among sessions that leave its locks alone, its session holds exactly the
    lock of one slot of the host, in range, when the transfer starts and when it ends,
    and none when the call has returned or panicked, or that one still when the
    unlock, whose error is ignored, did not reach the server. Without a slot it reports
    no success and reads nothing. *)
Theorem hostcap_exact {W} `{Lens W lockdb} cfg (inner : Transport W) me pe fuel
    {R} (HR : Reader R) dst (body : R) size w r body' w' :
  0 < Cap cfg →
  CapTransport_Send cfg inner (inr me) pe fuel HR dst body size w = (Some r, body', w') →
  (∀ s (ts : list nat), NoDup ts →
     (∀ m, m ∈ ts → ∃ cfg' dst', Cap cfg' = Cap cfg ∧ cap_host cfg' dst' = cap_host cfg dst ∧
        transferring cfg' dst' m s) →
     (length ts ≤ Z.to_nat (Cap cfg))%nat) ∧
  (∀ inner' : Transport W,
     (∀ w0, transferring cfg dst me (view w0) →
        Send_fn inner dst body size w0 = Send_fn inner' dst body size w0) →
     CapTransport_Send cfg inner' (inr me) pe fuel HR dst body size w = (Some r, body', w')) ∧
  (∀ o, o ≠ me → (∀ q s, respects o s (pe_before pe q s)) →
     (∀ w0, respects o (view w0) (view (snd (Send_fn inner dst body size w0)))) →
     respects o (view w) (view w')) ∧
  ((∀ q s, respects me s (pe_before pe q s)) → lockless me (view w) →
   (∀ w0, respects me (view w0) (view (snd (Send_fn inner dst body size w0)))) →
   (lockless me (view w') ∧ body' = body ∧ ∀ n sha, r ≠ Ret (inr (n, sha))) ∨
   ∃ slot s w1, let key := hashtext (slotKey (cap_host cfg dst) slot) in
     0 <= slot < Cap cfg ∧ holds_only me key s ∧
     Send_fn inner dst body size (over s w) = ((r, body'), w1) ∧ holds_only me key (view w1) ∧
     if pe_unlock pe then lockless me (view w') else holds_only me key (view w')).
Proof.
  intros Hc E. split_and!.
  - intros s ts Hnd Hts. by eapply (transfers_bound (Cap cfg) (cap_host cfg dst) s ts).
  - intros inner' Hin. by rewrite <- (cap_send_inside cfg me pe fuel HR dst body size inner inner' w Hin).
  - intros o Hne Hpe Hin. by eapply cap_send_respects.
  - intros Hpe Hl Hin. by eapply cap_send_holds.
Qed.

(** The bound is on the sessions the server still knows: when the server drops a session in
    the middle of its transfer, its slot is free again while the transfer goes on, and
    another session that searches with the same cap gets it. *)
Theorem dropped_session_frees_slot me dst cfg s s' backoff :
  0 < Cap cfg < 2 ^ 29 → 0 < backoff < 2 ^ 52 → AcquireBackoff cfg = backoff →
  transferring cfg dst me s → s' = filter (λ kv, fst (snd kv) ≠ me) s →
  ∀ me', ∃ slot s'', acquireSlot calm_probe me' (cap_host cfg dst) dst (Cap cfg) backoff 1 s'
    = (Ret (Slot slot, []), s'').
Proof.
  intros Hc Hb <- Ht -> me'.
  destruct (transferring_owns cfg dst me s) as (slot & n & Hs & Ho); [lia|done|].
  unfold acquireSlot.
  destruct (slotHash_range (cap_host cfg dst) dst (Cap cfg) ltac:(lia)) as (start & -> & Hstart).
  destruct (slotHash_range (cap_host cfg dst) (dst +:+ "#jitter") (Cap cfg * 7 + 13) ltac:(lia)) as (seed & -> & _).
  destruct (probes_cover (Cap cfg) start slot ltac:(lia) Hs) as (k & Hk & Ek).
  destruct (probe_slots_calm me' (cap_host cfg dst) (Cap cfg) start (Z.to_nat (Cap cfg)) 0 0
    (filter (λ kv, fst (snd kv) ≠ me) s)) as (sl & s2 & E).
  { exists k. split; [done|]. rewrite Ek. apply map_lookup_filter_None. right. intros x Hx. simpl.
    rewrite Ho in Hx. injection Hx as <-. simpl. intros Hn. by apply Hn. }
  exists sl, s2. simpl. by rewrite E.
Qed.

End Slots.

(** ** Witnesses *)

(** Any function of the key will do; this one collides on purpose for long keys. *)
Definition sample_hashtext (s : string) : Z := fnv_write 7 s.

Lemma acquireSlot_spec_witness : ∃ slot s',
  acquireSlot sample_hashtext calm_probe 1 "h" "ftp://h/a" 4 (100 * Millisecond) 1 ∅
  = (Ret (Slot slot, []), s').
Proof.
  destruct (acquireSlot_spec sample_hashtext 1 "h" "ftp://h/a" 4 (100 * Millisecond) calm_probe 0 ∅)
    as [_ Hfree]; [lia|unfold Millisecond; lia|].
  apply Hfree. exists 0. split; [lia|]. by rewrite lookup_empty.
Defined.

Definition sample_transport : Transport lockdb :=
  {| Send_fn := λ R _ _ b _ w, ((Panic "boom", b), w) |}.

(** Another session holds a slot of the host while session 5 sends. *)
Definition busy_slot : lockdb := {[sample_hashtext (slotKey "h" 0) := (1%nat, 1%nat)]}.

Definition sample_cap : HostcapConfig := {| Cap := 2; Host := EmptyString; AcquireBackoff := 1 |}.

Definition sample_capped : option (res (error + Z * string)) * list chunk * lockdb :=
  CapTransport_Send sample_hashtext sample_cap sample_transport (inr 5%nat) calm_probe 3
    chunk_reader "ftp://h/a" [] 0 busy_slot.

Lemma hostcap_exact_witness :
  sample_capped = (Some (Panic "boom"), [], snd sample_capped) ∧ lockless 5 (snd sample_capped) ∧
  respects 1 busy_slot (snd sample_capped).
Proof.
  assert (sample_capped = (Some (Panic "boom"), [], snd sample_capped)) as E by (vm_compute; reflexivity).
  destruct (hostcap_exact sample_hashtext sample_cap sample_transport 5 calm_probe 3
    chunk_reader "ftp://h/a" [] 0 busy_slot (Panic "boom") [] (snd sample_capped)) as (_ & _ & H3 & H4);
    [reflexivity|exact E|].
  split; [exact E|]. split; [|apply H3; [lia|intros q s key n; reflexivity|intros w0 key n; reflexivity]].
  destruct H4 as [[Hl _]|(slot & s & w1 & _ & _ & _ & _ & Hl)]; [intros q s key n; reflexivity| |
    intros w0 key n; reflexivity|exact Hl|exact Hl].
  intros key n. unfold busy_slot. simpl. rewrite lookup_singleton_Some. by intros [_ ?].
Defined.

Lemma dropped_session_frees_slot_witness : ∃ slot s'',
  acquireSlot sample_hashtext calm_probe 2 "h" "ftp://h/a" 1 1 1
    (filter (λ kv : Z * (nat * nat), fst (snd kv) ≠ 1%nat) busy_slot) = (Ret (Slot slot, []), s'').
Proof.
  apply (dropped_session_frees_slot sample_hashtext 1 "ftp://h/a"
    {| Cap := 1; Host := EmptyString; AcquireBackoff := 1 |} busy_slot _ 1); [simpl; lia|lia|done| |done].
  exists calm_probe, 1%nat, ∅, 0, [], busy_slot. split; [vm_compute; reflexivity|]. by intros key n.
Defined.
