(* ===== verification/FtpPool.v ===== *)
(** * The FTP connection pool (internal/transports/ftp/pool.go)

    The critical sections of [Acquire], [release] and [Close] as functions on the
    pool, and the goroutines that run them as a step relation: who holds a slot, who
    is parked on which channel, which channels carry a token, and who was woken and
    has yet to look again. *)

From S2P Require Import Prelude GoLang.

Local Open Scope Z_scope.

(** [type PoolConfig struct] (the credentials and the callback are not part of the
    bookkeeping) with the defaults of [func NewPool]. *)
Record PoolConfig := { MaxPerHost : Z; IdleTTL : Z; NoopAfter : Z; DialTimeout : Z }.

Definition or_default (v d : Z) : Z := if v <=? 0 then d else v.

Definition NewPool_config (cfg : PoolConfig) : PoolConfig := {|
  MaxPerHost := or_default (MaxPerHost cfg) 4;
  IdleTTL := or_default (IdleTTL cfg) (5 * Minute);
  NoopAfter := or_default (NoopAfter cfg) (60 * Second);
  DialTimeout := or_default (DialTimeout cfg) (10 * Second)
|}.

(** [type idleEntry struct], [type hostPool struct], [type Pool struct]; connections
    and wake channels are identifiers. *)
Record idleEntry := { ie_c : nat; ie_enqueue : Z; ie_lastUse : Z }.

Record hostPool := { hp_idle : list idleEntry; hp_inUse : Z; hp_waiters : list nat }.

Record Pool := { p_cfg : PoolConfig; p_hosts : gmap string hostPool; p_closed : bool }.

Definition NewPool (cfg : PoolConfig) : Pool :=
  {| p_cfg := NewPool_config cfg; p_hosts := ∅; p_closed := false |}.

Definition set_host (host : string) (hp : hostPool) (p : Pool) : Pool :=
  {| p_cfg := p_cfg p; p_hosts := <[host := hp]> (p_hosts p); p_closed := p_closed p |}.

Definition no_host : hostPool := {| hp_idle := []; hp_inUse := 0; hp_waiters := [] |}.

(** [func (p *Pool) getHost]. *)
Definition getHost (host : string) (p : Pool) : hostPool := default no_host (p_hosts p !! host).

(** [func (p *Pool) IdleCount]. *)
Definition IdleCount (host : string) (p : Pool) : nat := length (hp_idle (getHost host p)).

(** [func wakeOneWaiter]: the channel that gets a token, if any. *)
Definition wakeOneWaiter (hp : hostPool) : option nat * hostPool :=
  match hp_waiters hp with
  | [] => (None, hp)
  | ch :: ws => (Some ch, {| hp_idle := hp_idle hp; hp_inUse := hp_inUse hp; hp_waiters := ws |})
  end.

(** The idle loop of [Acquire]: entries are taken from the end of the slice (here the
    list is kept newest first), expired ones are dropped. *)
Fixpoint take_idle (ttl now : Z) (l : list idleEntry) : option idleEntry * list idleEntry :=
  match l with
  | [] => (None, [])
  | ie :: l' => if ttl <? now - ie_enqueue ie then take_idle ttl now l' else (Some ie, l')
  end.

(** What the critical section of [Acquire] decides. *)
Inductive decision :=
| AClosed
| AIdle (c : nat) (needsPing : bool)
| ADial
| AWait.

(** The critical section of [Acquire] (up to the unlock); [ch] is the new channel. *)
Definition acquire_enter (now : Z) (host : string) (ch : nat) (p : Pool) : decision * Pool :=
  if p_closed p then (AClosed, p)
  else
    let hp := getHost host p in
    let '(o, idle) := take_idle (IdleTTL (p_cfg p)) now (hp_idle hp) in
    match o with
    | Some ie =>
        (AIdle (ie_c ie) (NoopAfter (p_cfg p) <? now - ie_lastUse ie),
         set_host host {| hp_idle := idle; hp_inUse := hp_inUse hp + 1; hp_waiters := hp_waiters hp |} p)
    | None =>
        if hp_inUse hp <? MaxPerHost (p_cfg p) then
          (ADial,
           set_host host {| hp_idle := idle; hp_inUse := hp_inUse hp + 1; hp_waiters := hp_waiters hp |} p)
        else
          (AWait,
           set_host host {| hp_idle := idle; hp_inUse := hp_inUse hp;
                            hp_waiters := hp_waiters hp ++ [ch] |} p)
    end.

(** The slot freed by a failed ping or a failed dial. *)
Definition acquire_failed (host : string) (p : Pool) : option nat * Pool :=
  let hp := getHost host p in
  let '(w, hp') := wakeOneWaiter {| hp_idle := hp_idle hp; hp_inUse := hp_inUse hp - 1;
                                    hp_waiters := hp_waiters hp |} in
  (w, set_host host hp' p).

(** The eviction loop: the first occurrence leaves the slice. *)
Fixpoint evict (ch : nat) (l : list nat) : bool * list nat :=
  match l with
  | [] => (false, [])
  | w :: l' => if decide (w = ch) then (true, l') else let '(f, l'') := evict ch l' in (f, w :: l'')
  end.

(** The [ctx.Done()] branch of the wait: evict, or forward the token. *)
Definition acquire_cancel (host : string) (ch : nat) (p : Pool) : option nat * Pool :=
  match p_hosts p !! host with
  | None => (None, p)
  | Some hp =>
      let '(found, ws) := evict ch (hp_waiters hp) in
      if found then
        (None, set_host host {| hp_idle := hp_idle hp; hp_inUse := hp_inUse hp; hp_waiters := ws |} p)
      else let '(w, hp') := wakeOneWaiter hp in (w, set_host host hp' p)
  end.

(** [func (p *Pool) release]. *)
Definition release (now : Z) (host : string) (c : nat) (broken : bool) (p : Pool) : option nat * Pool :=
  match p_hosts p !! host with
  | None => (None, p)
  | Some hp =>
      let idle := if broken || p_closed p then hp_idle hp
                  else {| ie_c := c; ie_enqueue := now; ie_lastUse := now |} :: hp_idle hp in
      let '(w, hp') := wakeOneWaiter {| hp_idle := idle; hp_inUse := hp_inUse hp - 1;
                                        hp_waiters := hp_waiters hp |} in
      (w, set_host host hp' p)
  end.

(** [func (p *Pool) Close]. *)
Definition Close_pool (p : Pool) : Pool := {|
  p_cfg := p_cfg p;
  p_hosts := (λ hp, {| hp_idle := []; hp_inUse := hp_inUse hp; hp_waiters := hp_waiters hp |}) <$> p_hosts p;
  p_closed := true
|}.

(** ** The goroutines *)

(** [held]: the hosts of the slots taken (dialing, pinging or transferring);
    [parked]: channel and host of each goroutine waiting; [tokens]: channels with a
    token; [woken]: hosts of goroutines that took their token and are about to look
    again; [made]: channels created so far. *)
Record psys := {
  pool : Pool;
  held : list string;
  parked : gmap nat string;
  tokens : gset nat;
  woken : list string;
  made : nat;
}.

Definition pool_start (cfg : PoolConfig) : psys :=
  {| pool := NewPool cfg; held := []; parked := ∅; tokens := ∅; woken := []; made := 0 |}.

Definition signal (o : option nat) (t : gset nat) : gset nat :=
  match o with Some ch => {[ch]} ∪ t | None => t end.

Inductive pstep (s : psys) : psys → Prop :=
(** A goroutine, new or woken ([woken s ≡ₚ host :: rest]), runs the critical section. *)
| p_enter now host (retry : bool) rest d p' :
    woken s ≡ₚ (if retry then host :: rest else rest) →
    acquire_enter now host (made s) (pool s) = (d, p') →
    pstep s {| pool := p';
               held := match d with AIdle _ _ | ADial => host :: held s | _ => held s end;
               parked := match d with AWait => <[made s := host]> (parked s) | _ => parked s end;
               tokens := tokens s; woken := rest; made := S (made s) |}
(** The ping or the dial of a slot holder fails. *)
| p_fail host rest w p' :
    held s ≡ₚ host :: rest → acquire_failed host (pool s) = (w, p') →
    pstep s {| pool := p'; held := rest; parked := parked s; tokens := signal w (tokens s);
               woken := woken s; made := made s |}
(** A slot holder releases its connection. *)
| p_release now host c broken rest w p' :
    held s ≡ₚ host :: rest → release now host c broken (pool s) = (w, p') →
    pstep s {| pool := p'; held := rest; parked := parked s; tokens := signal w (tokens s);
               woken := woken s; made := made s |}
(** A parked goroutine receives its token. *)
| p_wake ch host :
    parked s !! ch = Some host → ch ∈ tokens s →
    pstep s {| pool := pool s; held := held s; parked := delete ch (parked s);
               tokens := tokens s ∖ {[ch]}; woken := host :: woken s; made := made s |}
(** A parked goroutine gives up; a token in its channel is drained. *)
| p_cancel ch host w p' :
    parked s !! ch = Some host → acquire_cancel host ch (pool s) = (w, p') →
    pstep s {| pool := p'; held := held s; parked := delete ch (parked s);
               tokens := signal w (tokens s ∖ {[ch]}); woken := woken s; made := made s |}
| p_close :
    pstep s {| pool := Close_pool (pool s); held := held s; parked := parked s;
               tokens := tokens s; woken := woken s; made := made s |}.

(** ** Invariants *)

Definition cnt (host : string) (l : list string) : Z :=
  Z.of_nat (countb (λ h, bool_decide (h = host)) l).

(** Goroutines of [host] that were given a token and have not looked again yet. *)
Definition tok (host : string) (pk : gmap nat string) (t : gset nat) : Z :=
  Z.of_nat (size (filter (λ ch, pk !! ch = Some host) t)).

Definition in_flight_wakes (host : string) (s : psys) : Z :=
  cnt host (woken s) + tok host (parked s) (tokens s).

Record pool_inv (s : psys) : Prop := {
  pi_max : 0 < MaxPerHost (p_cfg (pool s));
  pi_inuse : ∀ h, hp_inUse (getHost h (pool s)) = cnt h (held s);
  pi_cap : ∀ h, hp_inUse (getHost h (pool s)) + Z.of_nat (length (hp_idle (getHost h (pool s))))
                <= MaxPerHost (p_cfg (pool s));
  pi_fresh : ∀ ch h, parked s !! ch = Some h → (ch < made s)%nat;
  pi_waiters : ∀ h ch, ch ∈ hp_waiters (getHost h (pool s)) →
    parked s !! ch = Some h ∧ ch ∉ tokens s;
  pi_nodup : ∀ h, NoDup (hp_waiters (getHost h (pool s)));
  pi_parked : ∀ ch h, parked s !! ch = Some h →
    ch ∈ hp_waiters (getHost h (pool s)) ∨ ch ∈ tokens s;
  pi_tokens : ∀ ch, ch ∈ tokens s → is_Some (parked s !! ch);
  pi_known : ∀ ch h, parked s !! ch = Some h → is_Some (p_hosts (pool s) !! h);
}.

(** While the pool is open, a host with waiters in the queue has no more free slots
    than wake-ups under way. *)
Definition no_lost_wakeup (s : psys) : Prop :=
  p_closed (pool s) = false → ∀ h, hp_waiters (getHost h (pool s)) ≠ [] →
    MaxPerHost (p_cfg (pool s)) - hp_inUse (getHost h (pool s)) <= in_flight_wakes h s.

(** ** Lemmas on the operations *)

Lemma getHost_set h h' hp p :
  getHost h (set_host h' hp p) = if decide (h = h') then hp else getHost h p.
Proof.
  unfold getHost, set_host. simpl. case_decide as E.
  - subst. by rewrite lookup_insert_eq.
  - by rewrite lookup_insert_ne by done.
Qed.

Lemma getHost_lookup h p hp : p_hosts p !! h = Some hp → getHost h p = hp.
Proof. intros E. unfold getHost. by rewrite E. Qed.

Lemma countb_perm {A} (f : A → bool) l l' : l ≡ₚ l' → countb f l = countb f l'.
Proof. induction 1; simpl; lia. Qed.

Lemma cnt_cons h x l : cnt h (x :: l) = (if decide (h = x) then 1 else 0) + cnt h l.
Proof. unfold cnt. simpl. case_decide; case_bool_decide; subst; simpl; lia || done. Qed.

Lemma cnt_perm h l l' : l ≡ₚ l' → cnt h l = cnt h l'.
Proof. intros Hp. unfold cnt. by rewrite (countb_perm _ _ _ Hp). Qed.

Lemma cnt_app h l l' : cnt h (l ++ l') = cnt h l + cnt h l'.
Proof. induction l as [|x l IH]; [done|]. simpl. rewrite !cnt_cons, IH. lia. Qed.

Lemma cnt_nonneg h l : 0 <= cnt h l.
Proof. unfold cnt. lia. Qed.

Lemma tok_nonneg h pk t : 0 <= tok h pk t.
Proof. unfold tok. lia. Qed.

Lemma take_idle_length ttl now l o l' :
  take_idle ttl now l = (o, l') →
  (length l' + (if o then 1 else 0) ≤ length l)%nat ∧ (o = None → l' = []).
Proof.
  revert o l'. induction l as [|ie l IH]; intros o l' E; simpl in E; [by simplify_eq|].
  destruct (ttl <? now - ie_enqueue ie); [|simplify_eq; simpl; split; [lia|done]].
  destruct (IH _ _ E). split; [simpl; lia|done].
Qed.

Lemma evict_spec ch l f l' :
  evict ch l = (f, l') →
  (f = true → ch ∈ l) ∧ (f = false → ch ∉ l ∧ l' = l) ∧
  (NoDup l → NoDup l' ∧ ∀ x, x ∈ l' ↔ x ∈ l ∧ (f = true → x ≠ ch)).
Proof.
  revert f l'. induction l as [|w l IH]; intros f l' E; simpl in E.
  { simplify_eq. split_and!; [done|set_solver|]. intros _. split; [constructor|set_solver]. }
  case_decide as Hw.
  - simplify_eq. split_and!; [set_solver|done|]. intros [Hn Hd]%NoDup_cons. split; [done|set_solver].
  - destruct (evict ch l) as [f1 l1] eqn:Ee. simplify_eq.
    destruct (IH _ _ eq_refl) as (H1 & H2 & H3). split_and!; [set_solver| |].
    + intros Hf. destruct (H2 Hf) as [Hn ->]. set_solver.
    + intros [Hn Hd]%NoDup_cons. destruct (H3 Hd) as [Hd1 Hx]. split.
      * apply NoDup_cons. split; [|done]. rewrite Hx. tauto.
      * intros x. rewrite !elem_of_cons, Hx. destruct (decide (x = w)) as [->|]; [|tauto].
        split; [intros _; split; [by left|done]|by left].
Qed.

(** Tokens, and how the steps change their number. *)
Lemma tok_add h pk t ch h' :
  ch ∉ t → pk !! ch = Some h' → tok h pk ({[ch]} ∪ t) = (if decide (h = h') then 1 else 0) + tok h pk t.
Proof.
  intros Hn Hp. unfold tok. case_decide as E.
  - subst h'. assert (filter (λ c, pk !! c = Some h) ({[ch]} ∪ t)
      = {[ch]} ∪ filter (λ c, pk !! c = Some h) t) as -> by set_solver.
    rewrite size_union by set_solver. rewrite size_singleton. lia.
  - assert (filter (λ c, pk !! c = Some h) ({[ch]} ∪ t) = filter (λ c, pk !! c = Some h) t) as ->;
      [|lia]. apply set_eq. intros c. rewrite !elem_of_filter, elem_of_union, elem_of_singleton.
    split; [|tauto]. intros [Hc [->|Ht]]; [congruence|tauto].
Qed.

(** Unparking [ch], whether or not it carried a token. *)
Lemma tok_remove h pk t ch h' :
  pk !! ch = Some h' →
  tok h (delete ch pk) (t ∖ {[ch]})
  = tok h pk t - (if decide (h = h' ∧ ch ∈ t) then 1 else 0).
Proof.
  intros Hp. unfold tok.
  assert (filter (λ c, delete ch pk !! c = Some h) (t ∖ {[ch]})
    = filter (λ c, pk !! c = Some h) t ∖ {[ch]}) as ->.
  { apply set_eq. intros c. rewrite elem_of_filter, !elem_of_difference, elem_of_filter, elem_of_singleton.
    split; [intros ([? ?]%lookup_delete_Some & ? & ?); tauto|].
    intros ((? & ?) & ?). rewrite lookup_delete_ne by done. tauto. }
  case_decide as E.
  - destruct E as [-> Ht]. assert (ch ∈ filter (λ c, pk !! c = Some h') t) as Hin by set_solver.
    rewrite size_difference, size_singleton by set_solver.
    assert (size (filter (λ c, pk !! c = Some h') t) ≠ 0%nat); [|lia].
    apply size_non_empty_iff. set_solver.
  - rewrite difference_disjoint_L; [lia|]. apply disjoint_singleton_r.
    rewrite elem_of_filter. intros [Hc Ht]. apply E. split; [congruence|done].
Qed.

(** Parking on a channel without a token. *)
Lemma tok_park h pk t ch h' : ch ∉ t → tok h (<[ch := h']> pk) t = tok h pk t.
Proof.
  intros Hn. unfold tok. do 2 f_equal. apply set_eq. intros c. rewrite !elem_of_filter.
  split; intros [Hc Ht]; (split; [|done]);
    (destruct (decide (c = ch)) as [->|]; [done|]);
    [rewrite lookup_insert_ne in Hc by done|rewrite lookup_insert_ne by done]; done.
Qed.

(** A freed slot of [host]: one waiter, if there is any, gets a token. *)
Record freed (host : string) (idle : list idleEntry) (inUse : Z) (p : Pool) (w : option nat) (p' : Pool)
    : Prop := {
  fr_cfg : p_cfg p' = p_cfg p;
  fr_closed : p_closed p' = p_closed p;
  fr_other : ∀ h, h ≠ host → getHost h p' = getHost h p;
  fr_idle : hp_idle (getHost host p') = idle;
  fr_inuse : hp_inUse (getHost host p') = inUse;
  fr_wake : hp_waiters (getHost host p)
            = match w with Some ch => [ch] | None => [] end ++ hp_waiters (getHost host p');
  fr_none : w = None → hp_waiters (getHost host p') = [];
  fr_known : ∀ h, is_Some (p_hosts p !! h) → is_Some (p_hosts p' !! h);
}.

Lemma set_host_known host hp p h :
  is_Some (p_hosts p !! h) → is_Some (p_hosts (set_host host hp p) !! h).
Proof. simpl. intros Hs. destruct (decide (h = host)) as [->|]; [rewrite lookup_insert_eq; eauto|by rewrite lookup_insert_ne]. Qed.

Lemma wake_freed host idle inUse p w hp' :
  wakeOneWaiter {| hp_idle := idle; hp_inUse := inUse; hp_waiters := hp_waiters (getHost host p) |}
  = (w, hp') →
  freed host idle inUse p w (set_host host hp' p).
Proof.
  unfold wakeOneWaiter. simpl. intros E.
  destruct (hp_waiters (getHost host p)) as [|ch ws] eqn:Ew; simplify_eq;
    split; try (by apply set_host_known); try done;
    rewrite ?getHost_set, ?decide_True by done; try done;
    intros h Hh; by rewrite getHost_set, decide_False by done.
Qed.

Lemma elem_of_signal w t c : c ∈ signal w t ↔ c ∈ t ∨ w = Some c.
Proof. destruct w as [ch|]; simpl; set_solver. Qed.

(** Both invariants across a freed slot or a forwarded token. [pk] and [t0] are the
    parked goroutines and the tokens before the signal. *)
Section Freed.
Context (s : psys) (host : string) (idle : list idleEntry) (inUse : Z) (w : option nat) (p' : Pool).
Context (held' wk : list string) (pk : gmap nat string) (t0 : gset nat).
Context (Hinv : pool_inv s) (Hfr : freed host idle inUse (pool s) w p').
Context (Hpk : ∀ ch h, pk !! ch = Some h → parked s !! ch = Some h).
Context (Hq : ∀ h ch, ch ∈ hp_waiters (getHost h (pool s)) → pk !! ch = Some h).
Context (Ht0 : ∀ ch, ch ∈ t0 → ch ∈ tokens s ∧ is_Some (pk !! ch)).
Context (Ht1 : ∀ ch h, pk !! ch = Some h → ch ∈ tokens s → ch ∈ t0).

Let s' := {| pool := p'; held := held'; parked := pk; tokens := signal w t0; woken := wk; made := made s |}.

Lemma freed_waiters h ch :
  ch ∈ hp_waiters (getHost h p') → ch ∈ hp_waiters (getHost h (pool s)) ∧ w ≠ Some ch.
Proof.
  destruct Hfr as [_ _ Hother _ _ Hwake Hnone _]. pose proof (pi_nodup s Hinv) as Hnd.
  destruct (decide (h = host)) as [->|Hne].
  - intros Hc. specialize (Hnd host). rewrite Hwake in *. split; [set_solver|]. intros ->.
    simpl in Hnd. apply NoDup_cons in Hnd as [Hn _]. done.
  - rewrite Hother by done. intros Hc. split; [done|]. intros ->.
    assert (ch ∈ hp_waiters (getHost host (pool s))) as Hc' by (rewrite Hwake; left).
    pose proof (Hq _ _ Hc) as E1. pose proof (Hq _ _ Hc') as E2. congruence.
Qed.

Lemma freed_inv :
  (∀ h, (if decide (h = host) then inUse else hp_inUse (getHost h (pool s))) = cnt h held') →
  inUse + Z.of_nat (length idle) <= MaxPerHost (p_cfg (pool s)) → pool_inv s'.
Proof.
  intros Hcnt Hcap. pose proof Hinv as [Hm Hi Hc Hf Hw Hnd Hp Ht Hkn].
  pose proof Hfr as [Ecfg _ Hother Hidle Huse Hwake Hnone Hknown].
  unfold s'. split; simpl; rewrite ?Ecfg.
  - done.
  - intros h. rewrite <- Hcnt. case_decide as E; [by subst|by rewrite Hother].
  - intros h. destruct (decide (h = host)) as [->|E]; [by rewrite Hidle, Huse|by rewrite Hother].
  - intros ch h E. by eapply Hf, Hpk.
  - intros h ch E. destruct (freed_waiters h ch E) as [E1 E2]. split; [by apply Hq|].
    rewrite elem_of_signal. intros [E3|E3]; [|done].
    apply Ht0 in E3 as [E3 _]. by apply Hw in E1 as [_ ?].
  - intros h. destruct (decide (h = host)) as [->|E]; [|by rewrite Hother].
    specialize (Hnd host). rewrite Hwake in Hnd. by apply NoDup_app in Hnd as (_ & _ & ?).
  - intros ch h E. rewrite elem_of_signal. destruct (Hp ch h (Hpk _ _ E)) as [E1|E1]; [|by eauto].
    destruct (decide (h = host)) as [->|Hne]; [|rewrite Hother by done; by left].
    rewrite Hwake in E1. destruct w as [c|]; [|by left]. apply elem_of_cons in E1 as [->|E1]; auto.
  - intros ch [E|E]%elem_of_signal; [by apply Ht0|].
    assert (ch ∈ hp_waiters (getHost host (pool s))) as Hc' by (rewrite Hwake, E; left).
    apply Hq in Hc'. eauto.
  - intros ch h E. by eapply Hknown, Hkn, Hpk.
Qed.

Lemma freed_wakeup :
  no_lost_wakeup s →
  (p_closed (pool s) = false → hp_waiters (getHost host (pool s)) ≠ [] →
   MaxPerHost (p_cfg (pool s)) - inUse <= cnt host wk + tok host pk t0 + 1) →
  (∀ h, h ≠ host → in_flight_wakes h s <= cnt h wk + tok h pk t0) →
  no_lost_wakeup s'.
Proof.
  intros Hnl Hhost Hoth Hcl h Hne. destruct Hfr as [Ecfg Eclosed Hother Hidle Huse Hwake Hnone _].
  unfold s' in *. simpl in *. rewrite Ecfg. unfold in_flight_wakes. simpl.
  destruct w as [ch|] eqn:Ew.
  - assert (ch ∈ hp_waiters (getHost host (pool s))) as Hc by (rewrite Hwake; left).
    assert (ch ∉ t0) as Hn by (intros E; apply Ht0 in E as [E _]; by apply (pi_waiters s Hinv) in Hc as [_ ?]).
    simpl. rewrite (tok_add h pk t0 ch host Hn (Hq _ _ Hc)).
    destruct (decide (h = host)) as [->|E].
    + rewrite Eclosed in Hcl. rewrite Huse. rewrite Hwake in Hhost. specialize (Hhost Hcl ltac:(done)). lia.
    + rewrite Hother in * by done. rewrite Eclosed in Hcl.
      specialize (Hnl Hcl h Hne). specialize (Hoth h E). lia.
  - simpl. destruct (decide (h = host)) as [->|E]; [by rewrite Hnone in Hne|].
    rewrite Hother in * by done. rewrite Eclosed in Hcl. specialize (Hnl Hcl h Hne). specialize (Hoth h E). lia.
Qed.

End Freed.

(** ** The steps preserve the invariants *)

Lemma made_not_token s : pool_inv s → made s ∉ tokens s.
Proof. intros Hinv Ht. apply (pi_tokens s Hinv) in Ht as [h Hh]. apply (pi_fresh s Hinv) in Hh. lia. Qed.

(** Entering with a slot taken: idle or dial. *)
Lemma enter_slot_inv s host idle rest :
  pool_inv s → no_lost_wakeup s →
  hp_inUse (getHost host (pool s)) + 1 + Z.of_nat (length idle) <= MaxPerHost (p_cfg (pool s)) →
  (∀ h, cnt h (woken s) <= cnt h rest + (if decide (h = host) then 1 else 0)) →
  let s' := {| pool := set_host host {| hp_idle := idle; hp_inUse := hp_inUse (getHost host (pool s)) + 1;
                         hp_waiters := hp_waiters (getHost host (pool s)) |} (pool s);
               held := host :: held s; parked := parked s; tokens := tokens s; woken := rest;
               made := S (made s) |} in
  pool_inv s' ∧ no_lost_wakeup s'.
Proof.
  intros Hinv Hnl Hcap Hwk s'. pose proof Hinv as [Hm Hi Hc Hf Hw Hnd Hp Ht Hkn].
  assert (∀ h, hp_waiters (getHost h (pool s')) = hp_waiters (getHost h (pool s))) as Ews.
  { intros h. unfold s'. simpl. rewrite getHost_set. case_decide; by subst. }
  assert (∀ h, hp_inUse (getHost h (pool s')) = cnt h (host :: held s)) as Eu.
  { intros h. unfold s'. simpl. rewrite getHost_set, cnt_cons. case_decide; subst; simpl; rewrite Hi; lia. }
  split.
  - split; try setoid_rewrite Ews; try done.
    + intros h. unfold s'. simpl. rewrite getHost_set. case_decide; [simpl; lia|apply Hc].
    + intros ch h E. unfold s'. simpl. apply Hf in E. lia.
    + intros ch h E. by eapply set_host_known, Hkn.
  - intros Hcl h Hne. rewrite Ews in Hne. specialize (Hnl Hcl h Hne). rewrite Eu, cnt_cons, <- Hi.
    unfold in_flight_wakes in *. unfold s'. simpl. specialize (Hwk h). destruct (decide (h = host)); lia.
Qed.

Lemma enter_wait_inv s host rest :
  pool_inv s → no_lost_wakeup s →
  MaxPerHost (p_cfg (pool s)) <= hp_inUse (getHost host (pool s)) →
  (∀ h, h ≠ host → cnt h (woken s) = cnt h rest) →
  let s' := {| pool := set_host host {| hp_idle := []; hp_inUse := hp_inUse (getHost host (pool s));
                         hp_waiters := hp_waiters (getHost host (pool s)) ++ [made s] |} (pool s);
               held := held s; parked := <[made s := host]> (parked s); tokens := tokens s;
               woken := rest; made := S (made s) |} in
  pool_inv s' ∧ no_lost_wakeup s'.
Proof.
  intros Hinv Hnl Hfull Hwk s'. pose proof Hinv as [Hm Hi Hc Hf Hw Hnd Hp Ht Hkn].
  assert (parked s !! made s = None) as Hnew.
  { destruct (parked s !! made s) as [h|] eqn:E; [|done]. apply Hf in E. lia. }
  assert (∀ h ch, ch ∈ hp_waiters (getHost h (pool s)) → ch ≠ made s) as Hnm.
  { intros h ch E ->. apply Hw in E as [E _]. congruence. }
  split.
  - split; unfold s'; simpl.
    + done.
    + intros h. rewrite getHost_set. case_decide; subst; [apply Hi|done].
    + intros h. rewrite getHost_set. case_decide; subst; simpl; [|apply Hc].
      pose proof (Hc host). lia.
    + intros ch h E. apply lookup_insert_Some in E as [[<- _]|[_ E%Hf]]; lia.
    + intros h ch. rewrite getHost_set. case_decide; subst; simpl.
      * intros [E| ->%list_elem_of_singleton]%elem_of_app.
        -- rewrite lookup_insert_ne by (symmetry; by eapply Hnm). by apply Hw.
        -- rewrite lookup_insert_eq. split; [done|by apply made_not_token].
      * intros E. rewrite lookup_insert_ne by (symmetry; by eapply Hnm). by apply Hw.
    + intros h. rewrite getHost_set. case_decide; subst; simpl; [|apply Hnd].
      apply NoDup_app. split_and!; [apply Hnd| |apply NoDup_singleton].
      intros ch E ->%list_elem_of_singleton. by apply Hnm in E.
    + intros ch h E. rewrite getHost_set. apply lookup_insert_Some in E as [[<- <-]|[Hne E]].
      * rewrite decide_True by done. left. simpl. set_solver.
      * destruct (Hp ch h E) as [E1|E1]; [|by right]. left. case_decide; subst; simpl; [|done]. set_solver.
    + intros ch E. apply Ht in E as [h E]. exists h.
      rewrite lookup_insert_ne; [done|]. intros <-. congruence.
    + intros ch h E. apply lookup_insert_Some in E as [[_ <-]|[_ E]].
      * rewrite lookup_insert_eq. eauto.
      * by eapply set_host_known, Hkn.
  - intros Hcl h. unfold s'; simpl. rewrite getHost_set. unfold in_flight_wakes. simpl.
    rewrite tok_park by (by apply made_not_token).
    pose proof (tok_nonneg h (parked s) (tokens s)). pose proof (cnt_nonneg h rest).
    case_decide as E; subst; simpl; [lia|]. intros Hne. specialize (Hnl Hcl h Hne).
    unfold in_flight_wakes in Hnl. rewrite Hwk in Hnl by done. lia.
Qed.

Lemma cnt_split h host (retry : bool) l rest :
  l ≡ₚ (if retry then host :: rest else rest) →
  cnt h rest <= cnt h l <= cnt h rest + (if decide (h = host) then 1 else 0) ∧
  (h ≠ host → cnt h l = cnt h rest).
Proof.
  intros Hp. rewrite (cnt_perm h _ _ Hp). destruct retry; [rewrite cnt_cons|];
    destruct (decide (h = host)); split; try lia; done.
Qed.

Lemma enter_inv s now host (retry : bool) rest d p' :
  pool_inv s → no_lost_wakeup s →
  woken s ≡ₚ (if retry then host :: rest else rest) →
  acquire_enter now host (made s) (pool s) = (d, p') →
  let s' := {| pool := p';
               held := match d with AIdle _ _ | ADial => host :: held s | _ => held s end;
               parked := match d with AWait => <[made s := host]> (parked s) | _ => parked s end;
               tokens := tokens s; woken := rest; made := S (made s) |} in
  pool_inv s' ∧ no_lost_wakeup s'.
Proof.
  intros Hinv Hnl Hwk E. pose proof (λ h, cnt_split h host retry _ _ Hwk) as Hcnt.
  unfold acquire_enter in E. destruct (p_closed (pool s)) eqn:Ecl.
  { injection E as <- <-. split.
    - destruct Hinv. split; simpl; try done. intros ch h E. apply pi_fresh0 in E. lia.
    - intros Hcl. simpl in Hcl. congruence. }
  destruct (take_idle _ now _) as [o idle] eqn:Et. apply take_idle_length in Et as [Hlen Hnone].
  pose proof (pi_cap s Hinv host) as Hcap. destruct o as [ie|].
  - injection E as <- <-. apply enter_slot_inv; [done..|lia|]. intros h. apply Hcnt.
  - destruct (hp_inUse (getHost host (pool s)) <? MaxPerHost (p_cfg (pool s))) eqn:Eu; to_prop;
      injection E as <- <-; rewrite (Hnone eq_refl).
    + apply enter_slot_inv; [done..|simpl; lia|]. intros h. apply Hcnt.
    + apply enter_wait_inv; [done..|]. intros h. apply Hcnt.
Qed.

(** Giving a slot back, whatever became of its connection. *)
Lemma give_back_inv s host rest idle w p' :
  pool_inv s → no_lost_wakeup s → held s ≡ₚ host :: rest →
  (length idle ≤ S (length (hp_idle (getHost host (pool s)))))%nat →
  freed host idle (hp_inUse (getHost host (pool s)) - 1) (pool s) w p' →
  let s' := {| pool := p'; held := rest; parked := parked s; tokens := signal w (tokens s);
               woken := woken s; made := made s |} in
  pool_inv s' ∧ no_lost_wakeup s'.
Proof.
  intros Hinv Hnl Hh Hlen Hfr. pose proof (pi_cap s Hinv host) as Hcap.
  assert (∀ ch h, ch ∈ hp_waiters (getHost h (pool s)) → parked s !! ch = Some h) as Hq
    by (intros ch h Hc; by apply (pi_waiters s Hinv)).
  assert (∀ ch, ch ∈ tokens s → ch ∈ tokens s ∧ is_Some (parked s !! ch)) as Htk
    by (intros ch Hc; split; [done|by apply (pi_tokens s Hinv)]).
  split.
  - eapply freed_inv; eauto; [|lia].
    intros h. pose proof (cnt_perm h _ _ Hh) as Ec. rewrite cnt_cons in Ec.
    rewrite !(pi_inuse s Hinv) in *. case_decide; subst; lia.
  - eapply freed_wakeup; eauto.
    + intros Hcl Hne. specialize (Hnl Hcl host Hne). unfold in_flight_wakes in Hnl. lia.
    + done.
Qed.

Lemma failed_inv s host rest w p' :
  pool_inv s → no_lost_wakeup s → held s ≡ₚ host :: rest →
  acquire_failed host (pool s) = (w, p') →
  let s' := {| pool := p'; held := rest; parked := parked s; tokens := signal w (tokens s);
               woken := woken s; made := made s |} in
  pool_inv s' ∧ no_lost_wakeup s'.
Proof.
  intros Hinv Hnl Hh E. unfold acquire_failed in E.
  destruct (wakeOneWaiter _) as [w0 hp'] eqn:Ew. injection E as <- <-.
  eapply give_back_inv; [done..| |by apply wake_freed]. lia.
Qed.

Lemma release_inv s now host c broken rest w p' :
  pool_inv s → no_lost_wakeup s → held s ≡ₚ host :: rest →
  release now host c broken (pool s) = (w, p') →
  let s' := {| pool := p'; held := rest; parked := parked s; tokens := signal w (tokens s);
               woken := woken s; made := made s |} in
  pool_inv s' ∧ no_lost_wakeup s'.
Proof.
  intros Hinv Hnl Hh E. unfold release in E. destruct (p_hosts (pool s) !! host) as [hp|] eqn:Eh.
  - apply getHost_lookup in Eh as <-. destruct (wakeOneWaiter _) as [w0 hp'] eqn:Ew.
    injection E as <- <-. eapply give_back_inv; [done..| |by apply wake_freed].
    destruct (broken || p_closed (pool s)); simpl; lia.
  - exfalso. pose proof (pi_inuse s Hinv host) as Eu. unfold getHost in Eu. rewrite Eh in Eu. simpl in Eu.
    rewrite (cnt_perm host _ _ Hh), cnt_cons, decide_True in Eu by done.
    pose proof (cnt_nonneg host rest). lia.
Qed.

(** The cancelled goroutine is still queued: it leaves the queue. *)
Lemma cancel_queued_inv s ch host ws :
  let hp := getHost host (pool s) in
  pool_inv s → no_lost_wakeup s → parked s !! ch = Some host → ch ∈ hp_waiters hp →
  NoDup ws → (∀ c, c ∈ ws ↔ c ∈ hp_waiters hp ∧ c ≠ ch) →
  let s' := {| pool := set_host host {| hp_idle := hp_idle hp; hp_inUse := hp_inUse hp; hp_waiters := ws |} (pool s);
               held := held s; parked := delete ch (parked s); tokens := tokens s ∖ {[ch]};
               woken := woken s; made := made s |} in
  pool_inv s' ∧ no_lost_wakeup s'.
Proof.
  intros hp Hinv Hnl Hpk Hin Hnd' Hel. pose proof Hinv as [Hm Hi Hc Hf Hw Hnd Hp Ht Hkn]. simpl.
  assert (ch ∉ tokens s) as Hnt by (by apply Hw in Hin as [_ ?]). rewrite difference_disjoint_L by set_solver.
  assert (∀ h c, c ∈ hp_waiters (getHost h (pool s)) → c ≠ ch → delete ch (parked s) !! c = Some h) as Hq.
  { intros h c Hcw Hne. rewrite lookup_delete_ne by done. by apply Hw. }
  split.
  - split; simpl; try done.
    + intros h. rewrite getHost_set. case_decide; subst; apply Hi.
    + intros h. rewrite getHost_set. case_decide; subst; apply Hc.
    + intros c h [_ Ec]%lookup_delete_Some. by eapply Hf.
    + intros h c. rewrite getHost_set. case_decide; subst; simpl.
      * intros [Hc1 Hc2]%Hel. split; [apply Hq; auto|by apply Hw in Hc1 as [_ ?]].
      * intros Hc1. split; [|by apply Hw in Hc1 as [_ ?]]. apply Hq; [done|]. intros ->.
        apply Hw in Hc1 as [Hc1 _]. congruence.
    + intros h. rewrite getHost_set. case_decide; subst; [done|apply Hnd].
    + intros c h [Hne Ec]%lookup_delete_Some. rewrite getHost_set.
      destruct (Hp c h Ec) as [Hc1|Hc1]; [left|by right].
      case_decide; subst; simpl; [|done]. apply Hel. auto.
    + intros c Hc1. destruct (Ht c Hc1) as [h Hh]. exists h. rewrite lookup_delete_ne; [done|]. by intros ->.
    + intros c h [_ Ec]%lookup_delete_Some. by eapply set_host_known, Hkn.
  - intros Hcl h. simpl. rewrite getHost_set. unfold in_flight_wakes. simpl.
    assert (tok h (delete ch (parked s)) (tokens s) = tok h (parked s) (tokens s)) as ->.
    { pose proof (tok_remove h (parked s) (tokens s) ch host Hpk) as Er.
      rewrite difference_disjoint_L in Er by set_solver. rewrite decide_False in Er by tauto. lia. }
    case_decide; subst; simpl; intros Hne; apply (Hnl Hcl); [|done].
    intros Hnil. unfold hp in Hin. rewrite Hnil in Hin. by apply not_elem_of_nil in Hin.
Qed.

(** The cancelled goroutine had been signalled: it passes the wake-up on. *)
Lemma cancel_signalled_inv s ch host w p' :
  let hp := getHost host (pool s) in
  pool_inv s → no_lost_wakeup s → parked s !! ch = Some host → ch ∈ tokens s →
  freed host (hp_idle hp) (hp_inUse hp) (pool s) w p' →
  let s' := {| pool := p'; held := held s; parked := delete ch (parked s);
               tokens := signal w (tokens s ∖ {[ch]}); woken := woken s; made := made s |} in
  pool_inv s' ∧ no_lost_wakeup s'.
Proof.
  intros hp Hinv Hnl Hpk Htok Hfr. subst hp. pose proof Hinv as [Hm Hi Hc Hf Hw Hnd Hp Ht Hkn].
  assert (∀ h c, c ∈ hp_waiters (getHost h (pool s)) → delete ch (parked s) !! c = Some h) as Hq.
  { intros h c Hc1. apply Hw in Hc1 as [? ?]. rewrite lookup_delete_ne; [done|]. by intros ->. }
  assert (∀ c h, delete ch (parked s) !! c = Some h → parked s !! c = Some h) as Hpk'
    by (intros c h [_ ?]%lookup_delete_Some; done).
  assert (∀ c, c ∈ tokens s ∖ {[ch]} → c ∈ tokens s ∧ is_Some (delete ch (parked s) !! c)) as Ht0.
  { intros c [Hc1 Hc2]%elem_of_difference. split; [done|]. destruct (Ht c Hc1) as [h Hh]. exists h.
    rewrite lookup_delete_ne; [done|]. set_solver. }
  assert (∀ c h, delete ch (parked s) !! c = Some h → c ∈ tokens s → c ∈ tokens s ∖ {[ch]}) as Ht1
    by (intros c h [? ?]%lookup_delete_Some ?; set_solver).
  split.
  - eapply freed_inv; eauto. intros h. rewrite <- Hi. case_decide; by subst.
  - eapply freed_wakeup; eauto.
    + intros Hcl Hne. specialize (Hnl Hcl host Hne). unfold in_flight_wakes in Hnl.
      rewrite (tok_remove host _ _ _ host Hpk), decide_True by done. lia.
    + intros h Hne. unfold in_flight_wakes. rewrite (tok_remove h _ _ _ host Hpk), decide_False by tauto. lia.
Qed.

Lemma cancel_inv s ch host w p' :
  pool_inv s → no_lost_wakeup s → parked s !! ch = Some host →
  acquire_cancel host ch (pool s) = (w, p') →
  let s' := {| pool := p'; held := held s; parked := delete ch (parked s);
               tokens := signal w (tokens s ∖ {[ch]}); woken := woken s; made := made s |} in
  pool_inv s' ∧ no_lost_wakeup s'.
Proof.
  intros Hinv Hnl Hpk E. pose proof Hinv as [_ _ _ _ _ Hnd Hp _ Hkn].
  unfold acquire_cancel in E. destruct (Hkn ch host Hpk) as [hp Eh]. rewrite Eh in E.
  apply getHost_lookup in Eh as <-.
  destruct (evict ch (hp_waiters (getHost host (pool s)))) as [found ws] eqn:Ee.
  destruct (evict_spec _ _ _ _ Ee) as (Hin & Hout & Hws). destruct (Hws (Hnd host)) as [Hnd' Hel].
  destruct found.
  - injection E as <- <-. apply cancel_queued_inv; [done..|by apply Hin|done|]. intros c. rewrite Hel. naive_solver.
  - destruct (wakeOneWaiter _) as [w0 hp'] eqn:Ew. injection E as <- <-.
    destruct (Hout eq_refl) as [Hnin _]. destruct (Hp ch host Hpk) as [|Htok]; [done|].
    apply (cancel_signalled_inv s ch host); [done..|]. apply wake_freed. rewrite <- Ew. f_equal.
    by destruct (getHost host (pool s)).
Qed.

Lemma wake_inv s ch host :
  pool_inv s → no_lost_wakeup s → parked s !! ch = Some host → ch ∈ tokens s →
  let s' := {| pool := pool s; held := held s; parked := delete ch (parked s);
               tokens := tokens s ∖ {[ch]}; woken := host :: woken s; made := made s |} in
  pool_inv s' ∧ no_lost_wakeup s'.
Proof.
  intros Hinv Hnl Hpk Htk. pose proof Hinv as [Hm Hi Hc Hf Hw Hnd Hp Ht Hkn]. split.
  - split; simpl; try done.
    + intros c h [_ Ec]%lookup_delete_Some. by eapply Hf.
    + intros h c Hc1. destruct (Hw h c Hc1) as [H1 H2]. split; [|set_solver].
      rewrite lookup_delete_ne; [done|]. by intros ->.
    + intros c h [Hne Ec]%lookup_delete_Some. destruct (Hp c h Ec); [by left|right; set_solver].
    + intros c [Hc1 Hc2]%elem_of_difference. destruct (Ht c Hc1) as [h Hh]. exists h.
      rewrite lookup_delete_ne; [done|set_solver].
    + intros c h [_ Ec]%lookup_delete_Some. by eapply Hkn.
  - intros Hcl h Hne. specialize (Hnl Hcl h Hne). unfold in_flight_wakes in *. simpl.
    rewrite cnt_cons, (tok_remove h _ _ _ host Hpk).
    destruct (decide (h = host)); [rewrite decide_True by done|rewrite decide_False by tauto]; lia.
Qed.

Lemma close_inv s :
  pool_inv s →
  let s' := {| pool := Close_pool (pool s); held := held s; parked := parked s;
               tokens := tokens s; woken := woken s; made := made s |} in
  pool_inv s' ∧ no_lost_wakeup s'.
Proof.
  intros [Hm Hi Hc Hf Hw Hnd Hp Ht Hkn].
  assert (∀ h, getHost h (Close_pool (pool s)) = {| hp_idle := []; hp_inUse := hp_inUse (getHost h (pool s));
    hp_waiters := hp_waiters (getHost h (pool s)) |}) as Eg.
  { intros h. unfold getHost, Close_pool. simpl. rewrite lookup_fmap. by destruct (p_hosts (pool s) !! h). }
  split; [|done]. split; simpl; try setoid_rewrite Eg; try done.
  - intros h. simpl. pose proof (Hc h). lia.
  - intros ch h E. rewrite lookup_fmap. destruct (Hkn ch h E) as [hp ->]. eauto.
Qed.

Lemma pool_inv_step s s' :
  pstep s s' → pool_inv s ∧ no_lost_wakeup s → pool_inv s' ∧ no_lost_wakeup s'.
Proof.
  intros Hst [Hinv Hnl]. destruct Hst.
  - by eapply enter_inv.
  - by eapply failed_inv.
  - by eapply release_inv.
  - by eapply wake_inv.
  - by eapply cancel_inv.
  - by apply close_inv.
Qed.

Lemma pool_inv_reachable cfg s : rtc pstep (pool_start cfg) s → pool_inv s ∧ no_lost_wakeup s.
Proof.
  intros Hr. remember (pool_start cfg) as s0 eqn:E0.
  assert (pool_inv s0 ∧ no_lost_wakeup s0) as H0.
  { subst. split; [|by intros _ h []]. split; simpl; try done; try set_solver.
    - unfold or_default. destruct (MaxPerHost cfg <=? 0) eqn:E; to_prop; lia.
    - intros h. change (getHost h (NewPool cfg)) with no_host. unfold or_default. simpl.
      destruct (MaxPerHost cfg <=? 0) eqn:E; to_prop; lia.
    - intros h. constructor. }
  clear E0. induction Hr as [|x y z H1 _ IH]; [done|]. by eapply IH, pool_inv_step.
Qed.

(** ** Properties *)

(** C20: the per-host limit: in every reachable state, for every host, the connections
    in use are exactly the slots held, and those in use plus those idle never exceed
    MaxPerHost, whatever dials, pings, releases, expiries and cancellations do. *)
Theorem Pool_limit cfg s h :
  rtc pstep (pool_start cfg) s →
  hp_inUse (getHost h (pool s)) = cnt h (held s) ∧
  cnt h (held s) + Z.of_nat (IdleCount h (pool s)) <= MaxPerHost (p_cfg (pool s)).
Proof.
  intros Hr. destruct (pool_inv_reachable cfg s Hr) as [Hinv _].
  rewrite <- (pi_inuse s Hinv). split; [done|apply (pi_cap s Hinv)].
Qed.

(** C21: no lost wake-up while the pool is open: when a goroutine is queued for a host
    and no wake-up for that host is under way (no token delivered and not yet acted
    on), every slot of the host is really taken; so a release, a failed dial, a
    failed ping or a cancelled waiter never strands a waiter while a slot is free. *)
Theorem Pool_no_stranded_waiter cfg s h ch :
  rtc pstep (pool_start cfg) s → p_closed (pool s) = false →
  ch ∈ hp_waiters (getHost h (pool s)) →
  parked s !! ch = Some h ∧
  MaxPerHost (p_cfg (pool s)) <= cnt h (held s) + in_flight_wakes h s.
Proof.
  intros Hr Hcl Hch. destruct (pool_inv_reachable cfg s Hr) as [Hinv Hnl].
  split; [by apply (pi_waiters s Hinv)|]. rewrite <- (pi_inuse s Hinv).
  assert (hp_waiters (getHost h (pool s)) ≠ []) as Hne
    by (intros E; rewrite E in Hch; by apply not_elem_of_nil in Hch).
  specialize (Hnl Hcl h Hne). lia.
Qed.

(** A released connection is reused: when nobody holds the lock in between and it
    has not outlived IdleTTL, the next Acquire for the host gets the connection just
    released, and pings it only when it sat longer than NoopAfter. *)
Theorem release_then_acquire p host c now now' w p1 ch :
  p_closed p = false → is_Some (p_hosts p !! host) →
  release now host c false p = (w, p1) → now' - now <= IdleTTL (p_cfg p) →
  ∃ p2, acquire_enter now' host ch p1 = (AIdle c (NoopAfter (p_cfg p) <? now' - now), p2) ∧
    hp_inUse (getHost host p2) = hp_inUse (getHost host p) ∧
    hp_idle (getHost host p2) = hp_idle (getHost host p).
Proof.
  intros Hcl [hp Eh] E Httl. unfold release in E. rewrite Eh, Hcl in E. simpl in E.
  destruct (wakeOneWaiter _) as [w0 hp'] eqn:Ew. injection E as <- <-.
  assert (hp_idle hp' = {| ie_c := c; ie_enqueue := now; ie_lastUse := now |} :: hp_idle hp ∧
    hp_inUse hp' = hp_inUse hp - 1) as [Ei Eu].
  { unfold wakeOneWaiter in Ew. simpl in Ew. destruct (hp_waiters hp); by simplify_eq. }
  unfold acquire_enter. simpl. rewrite Hcl, getHost_set, decide_True, Ei by done. simpl.
  rewrite (proj2 (Z.ltb_ge _ _)) by lia. eexists. split; [done|].
  rewrite !getHost_set, !decide_True by done. simpl.
  rewrite (getHost_lookup _ _ _ Eh), Eu. split; [lia|done].
Qed.

(** Three of the steps as functions, to run the relation on concrete states. *)
Definition do_enter (now : Z) (host : string) (rest : list string) (s : psys) : psys :=
  let '(d, p') := acquire_enter now host (made s) (pool s) in
  {| pool := p';
     held := match d with AIdle _ _ | ADial => host :: held s | _ => held s end;
     parked := match d with AWait => <[made s := host]> (parked s) | _ => parked s end;
     tokens := tokens s; woken := rest; made := S (made s) |}.

Definition do_release (now : Z) (host : string) (c : nat) (broken : bool) (rest : list string)
    (s : psys) : psys :=
  let '(w, p') := release now host c broken (pool s) in
  {| pool := p'; held := rest; parked := parked s; tokens := signal w (tokens s);
     woken := woken s; made := made s |}.

Definition do_wake (ch : nat) (host : string) (s : psys) : psys :=
  {| pool := pool s; held := held s; parked := delete ch (parked s);
     tokens := tokens s ∖ {[ch]}; woken := host :: woken s; made := made s |}.

Lemma do_enter_step now host (retry : bool) rest s :
  woken s ≡ₚ (if retry then host :: rest else rest) → pstep s (do_enter now host rest s).
Proof.
  intros Hp. unfold do_enter. destruct (acquire_enter now host (made s) (pool s)) as [d p'] eqn:E.
  by eapply p_enter.
Qed.

Lemma do_release_step now host c broken rest s :
  held s ≡ₚ host :: rest → pstep s (do_release now host c broken rest s).
Proof.
  intros Hp. unfold do_release. destruct (release now host c broken (pool s)) as [w p'] eqn:E.
  by eapply p_release.
Qed.

Definition sample_pool : PoolConfig := {| MaxPerHost := 1; IdleTTL := 0; NoopAfter := 0; DialTimeout := 0 |}.

(** One connection in use, two goroutines queued. *)
Definition sample_queue : psys :=
  do_enter 0 "h" [] (do_enter 0 "h" [] (do_enter 0 "h" [] (pool_start sample_pool))).

Definition close_step (s : psys) : psys :=
  {| pool := Close_pool (pool s); held := held s; parked := parked s; tokens := tokens s;
     woken := woken s; made := made s |}.

(** Close, then the release of the connection, then the first waiter looks again. *)
Definition stranded : psys :=
  do_enter 0 "h" [] (do_wake 1 "h" (do_release 0 "h" 7 false [] (close_step sample_queue))).

Lemma sample_queue_reachable : rtc pstep (pool_start sample_pool) sample_queue.
Proof.
  unfold sample_queue. do 3 (eapply rtc_r; [|apply (do_enter_step _ _ false); vm_compute; reflexivity]).
  apply rtc_refl.
Qed.

(** Closing the pool strands waiters: there is a run after which the pool is closed,
    no slot is held, no token is under way, and a goroutine is still queued; nothing
    but the cancellation of its own context can move it. *)
Theorem Close_strands_waiter : ∃ s,
  rtc pstep (pool_start sample_pool) s ∧
  p_closed (pool s) = true ∧ held s = [] ∧ tokens s = ∅ ∧ woken s = [] ∧
  hp_waiters (getHost "h" (pool s)) = [2%nat] ∧ parked s !! 2%nat = Some "h"%string.
Proof.
  exists stranded. split; [|split_and!; vm_compute; reflexivity].
  unfold stranded. eapply rtc_r; [|apply (do_enter_step _ _ true); vm_compute; reflexivity].
  eapply rtc_r; [|apply p_wake; vm_compute; reflexivity].
  eapply rtc_r; [|apply do_release_step; vm_compute; reflexivity].
  eapply rtc_r; [|apply p_close]. apply sample_queue_reachable.
Qed.

(** ** Witnesses *)

Lemma Pool_limit_witness :
  hp_inUse (getHost "h" (pool sample_queue)) = cnt "h" (held sample_queue) ∧
  cnt "h" (held sample_queue) + Z.of_nat (IdleCount "h" (pool sample_queue))
  <= MaxPerHost (p_cfg (pool sample_queue)).
Proof. apply (Pool_limit sample_pool sample_queue "h" sample_queue_reachable). Defined.

Lemma Pool_no_stranded_waiter_witness :
  parked sample_queue !! 1%nat = Some "h"%string ∧
  MaxPerHost (p_cfg (pool sample_queue))
  <= cnt "h" (held sample_queue) + in_flight_wakes "h" sample_queue.
Proof.
  apply (Pool_no_stranded_waiter sample_pool sample_queue "h" 1 sample_queue_reachable).
  - vm_compute. reflexivity.
  - assert (hp_waiters (getHost "h" (pool sample_queue)) = [1%nat; 2%nat]) as E by (vm_compute; reflexivity).
    rewrite E. left.
Defined.

Lemma release_then_acquire_witness : ∃ p1 p2,
  acquire_enter 5 "h" 1 p1 = (AIdle 9 false, p2).
Proof.
  destruct (release_then_acquire (set_host "h" {| hp_idle := []; hp_inUse := 1; hp_waiters := [] |}
    (NewPool sample_pool)) "h" 9 3 5 None
    (snd (release 3 "h" 9 false (set_host "h" {| hp_idle := []; hp_inUse := 1; hp_waiters := [] |}
      (NewPool sample_pool)))) 1) as (p2 & E & _);
    [reflexivity|by eexists|vm_compute; reflexivity|vm_compute; discriminate|]. eexists _, p2. exact E.
Defined.
