(* ===== verification/FtpConn.v ===== *)
(** * Checking connections out (internal/transports/ftp/pool.go: Acquire, dial, Release)

    The whole of [Acquire] with its ping, its dial and its wait, built from the
    critical sections of [FtpPool], and the proof that every call is a run of the
    step relation there, whatever the other goroutines do meanwhile. *)

From S2P Require Import Prelude GoLang FtpPool.

Local Open Scope Z_scope.

(** ** The critical sections, with the goroutines they concern *)

(** The first occurrence of [x] leaves the list. *)
Fixpoint rm1 (x : string) (l : list string) : list string :=
  match l with
  | [] => []
  | y :: l' => if decide (y = x) then l' else y :: rm1 x l'
  end.

(** [inUseSnap, idleSnap := hp.inUse, len(hp.idle)]. *)
Definition snapshot (host : string) (s : psys) : Z * Z :=
  (hp_inUse (getHost host (pool s)), Z.of_nat (IdleCount host (pool s))).

Definition enter_sys (retry : bool) (now : Z) (host : string) (s : psys) : (decision * nat) * psys :=
  ((acquire_enter now host (made s) (pool s)).1, made s,
   do_enter now host (if retry then rm1 host (woken s) else woken s) s).

Definition fail_sys (host : string) (s : psys) : unit * psys :=
  let '(w, p') := acquire_failed host (pool s) in
  (tt, {| pool := p'; held := rm1 host (held s); parked := parked s; tokens := signal w (tokens s);
          woken := woken s; made := made s |}).

Definition release_sys (now : Z) (host : string) (c : nat) (broken : bool) (s : psys) : unit * psys :=
  (tt, do_release now host c broken (rm1 host (held s)) s).

Definition cancel_sys (ch : nat) (host : string) (s : psys) : unit * psys :=
  let '(w, p') := acquire_cancel host ch (pool s) in
  (tt, {| pool := p'; held := held s; parked := delete ch (parked s);
          tokens := signal w (tokens s ∖ {[ch]}); woken := woken s; made := made s |}).

Definition wake_sys (ch : nat) (host : string) (s : psys) : unit * psys := (tt, do_wake ch host s).

Section Acquire.
Context {W : Type} `{Lens W psys}.

(** What the pool calls: the clock, read with the lock taken ([true] for a goroutine
    that was woken); the library's Dial, Login, Quit and NoOp on connections; and the
    select on the wake channel and ctx.Done(), [None] when the token came first. The
    other goroutines run inside these calls. *)
Record ftp_client := {
  lib_now : bool → M W Z;
  lib_Dial : Z → string → M W (error + nat);
  lib_Login : nat → string → string → M W (option error);
  lib_Quit : nat → M W (option error);
  lib_NoOp : nat → M W (option error);
  lib_wait : nat → M W (option error);
}.

Context (lib : ftp_client) (AuthUser AuthPassword : string) (timeout : Z)
  (OnPoolChange : option (string → Z → Z → M W unit)).

Definition crit {A} (f : psys → A * psys) : M W A := zoom (λ s, let '(a, s') := f s in (Ret a, s')).

(** [if p.cfg.OnPoolChange != nil], with the snapshot of the critical section. *)
Definition changed (host : string) (snap : Z * Z) : M W unit :=
  match OnPoolChange with
  | Some f => f host snap.1 snap.2
  | None => mret tt
  end.

(** A critical section and the report of its snapshot. *)
Definition crit_report {A} (host : string) (f : psys → A * psys) : M W A :=
  '(a, snap) ← crit (λ s, let '(a, s') := f s in ((a, snapshot host s'), s'));
  _ ← changed host snap;
  mret a.

(** [func (p *Pool) dial]. *)
Definition dial (host : string) : M W (error + nat) :=
  c ← lib_Dial lib timeout host;
  match c with
  | inl err => mret (inl (wrapf ("ftp dial " +:+ host +:+ ": ") err))
  | inr c =>
      e ← lib_Login lib c AuthUser AuthPassword;
      match e with
      | Some err =>
          _ ← lib_Quit lib c;
          mret (inl (wrapf ("ftp login " +:+ host +:+ ": ") err))
      | None => mret (inr c)
      end
  end.

(** [func (p *Pool) Acquire]: [fuel] is the number of iterations it is seen making;
    [None] is a call still under way after them. The callback is told about the
    sections that change a count. *)
Fixpoint Acquire_loop (fuel : nat) (retry : bool) (host : string) : M W (option (error + nat)) :=
  match fuel with
  | O => mret None
  | S fuel' =>
      t ← lib_now lib retry;
      '(d, ch, snap) ← crit (λ s, let '(dc, s') := enter_sys retry t host s in
                                  ((dc, snapshot host s'), s'));
      match d with
      | AClosed => mret (Some (inl (ESentinel ErrPoolClosed)))
      | AIdle c needsPing =>
          _ ← changed host snap;
          if needsPing : bool then
            e ← lib_NoOp lib c;
            match e with
            | Some _ =>
                _ ← lib_Quit lib c;
                _ ← crit_report host (fail_sys host);
                Acquire_loop fuel' false host
            | None => mret (Some (inr c))
            end
          else mret (Some (inr c))
      | ADial =>
          _ ← changed host snap;
          r ← dial host;
          match r with
          | inl err =>
              _ ← crit_report host (fail_sys host);
              mret (Some (inl err))
          | inr c => mret (Some (inr c))
          end
      | AWait =>
          e ← lib_wait lib ch;
          match e with
          | Some err =>
              _ ← crit (cancel_sys ch host);
              mret (Some (inl err))
          | None =>
              _ ← crit (wake_sys ch host);
              Acquire_loop fuel' true host
          end
      end
  end.

Definition Acquire_conn (fuel : nat) (host : string) : M W (option (error + nat)) :=
  Acquire_loop fuel false host.

(** [func (p *Pool) release]: an unknown host returns before the callback. *)
Definition Pool_release (host : string) (c : nat) (broken : bool) : M W unit :=
  t ← lib_now lib false;
  snap ← crit (λ s, let '(_, s') := release_sys t host c broken s in
                    ((_ ← p_hosts (pool s) !! host; Some (snapshot host s')), s'));
  match snap with
  | Some snap => changed host snap
  | None => mret tt
  end.

(** [func (p *PooledConn) Release]: the field [c] before and after; a second release
    finds it nil. *)
Definition PooledConn_Release (host : string) (c : option nat) (broken : bool) : M W (option nat) :=
  match c with
  | None => mret None
  | Some c => _ ← Pool_release host c broken; mret None
  end.

(** ** What the other goroutines may do *)

(** [m] is a run of the step relation from worlds with [P]; when it returns, [Q]. *)
Definition runs {A} (P : W → Prop) (m : M W A) (Q : A → W → Prop) : Prop := ∀ w,
  P w → rtc pstep (view w) (view (snd (m w))) ∧ ∀ a, fst (m w) = Ret a → Q a (snd (m w)).

(** The slots taken are those of this goroutine, [mine], and those of the others, which
    its own critical sections do not change. *)
Context (others : W → list string) (others_over : ∀ s w, others (over s w) = others w).

Definition owns (mine : list string) (w : W) : Prop := held (view w) ≡ₚ mine ++ others w.

(** While this goroutine is inside a call, the others take steps of their own: they do
    not give away its slots, its place in the queue or its wake-up, and its channel
    has a token when the select takes that branch. *)
Record cooperative (host : string) : Prop := {
  co_now : ∀ (b : bool) mine,
    runs (λ w, owns mine w ∧ if b then host ∈ woken (view w) else True) (lib_now lib b)
      (λ _ w, owns mine w ∧ if b then host ∈ woken (view w) else True);
  co_dial : ∀ t mine, runs (owns mine) (lib_Dial lib t host) (λ _, owns mine);
  co_login : ∀ c u p mine, runs (owns mine) (lib_Login lib c u p) (λ _, owns mine);
  co_quit : ∀ c mine, runs (owns mine) (lib_Quit lib c) (λ _, owns mine);
  co_noop : ∀ c mine, runs (owns mine) (lib_NoOp lib c) (λ _, owns mine);
  co_wait : ∀ ch mine, runs (λ w, owns mine w ∧ parked (view w) !! ch = Some host) (lib_wait lib ch)
    (λ e w, owns mine w ∧ parked (view w) !! ch = Some host ∧ (e = None → ch ∈ tokens (view w)));
  co_change : ∀ f, OnPoolChange = Some f → ∀ h a b mine, runs (owns mine) (f h a b) (λ _, owns mine);
}.

(** ** Lemmas *)

Lemma rm1_perm x l : x ∈ l → l ≡ₚ x :: rm1 x l.
Proof.
  induction l as [|y l IH]; [by intros ?%not_elem_of_nil|]. simpl. intros Hx.
  destruct (decide (y = x)) as [->|Hne]; [done|].
  apply elem_of_cons in Hx as [->|Hx]; [done|]. rewrite (IH Hx) at 1. by rewrite Permutation_swap.
Qed.

Lemma rm1_cons x l l' : l ≡ₚ x :: l' → l ≡ₚ x :: rm1 x l ∧ rm1 x l ≡ₚ l'.
Proof.
  intros Hl. assert (l ≡ₚ x :: rm1 x l) as Hr by (apply rm1_perm; rewrite Hl; left).
  split; [done|]. apply (Permutation_cons_inv (a := x)). by rewrite <- Hr.
Qed.

Lemma runs_ret {A} (P : W → Prop) (Q : A → W → Prop) a : (∀ w, P w → Q a w) → runs P (mret a) Q.
Proof. intros HQ w Hw. split; [apply rtc_refl|]. intros a' [= <-]. by apply HQ. Qed.

Lemma runs_panic {A} (P : W → Prop) (Q : A → W → Prop) v : runs P (λ w, (Panic v, w)) Q.
Proof. intros w _. by split; [apply rtc_refl|]. Qed.

Lemma runs_bind {A B} P (m : M W A) (R : A → W → Prop) (f : A → M W B) Q :
  runs P m R → (∀ a, runs (R a) (f a) Q) → runs P (m ≫= f) Q.
Proof.
  intros Hm Hf w Hw. destruct (Hm w Hw) as [H1 H2]. unfold mbind, M_bind.
  destruct (m w) as [[a|v] w1]; simpl in *; [|by split].
  destruct (Hf a w1 (H2 a eq_refl)) as [H3 H4]. split; [by etrans|done].
Qed.

Lemma runs_weaken {A} (P P' : W → Prop) (m : M W A) (Q Q' : A → W → Prop) :
  runs P m Q → (∀ w, P' w → P w) → (∀ a w, Q a w → Q' a w) → runs P' m Q'.
Proof. intros Hm HP HQ w Hw. destruct (Hm w (HP _ Hw)) as [H1 H2]. split; [done|]. eauto. Qed.

Lemma runs_crit {A} (P : W → Prop) (f : psys → A * psys) (Q : A → W → Prop) :
  (∀ w, P w → pstep (view w) (f (view w)).2 ∧ Q (f (view w)).1 (over (f (view w)).2 w)) →
  runs P (crit f) Q.
Proof.
  intros Hf w Hw. destruct (Hf _ Hw) as [H1 H2]. unfold crit, zoom.
  destruct (f (view w)) as [a s']. simpl in *. rewrite view_over. split; [by apply rtc_once|].
  by intros a' [= <-].
Qed.

Lemma owns_over mine mine' s w :
  owns mine w → (held (view w) ≡ₚ mine ++ others w → held s ≡ₚ mine' ++ others w) → owns mine' (over s w).
Proof. intros Ho Hs. unfold owns. rewrite view_over, others_over. by apply Hs. Qed.

Section Steps.
Context (host : string) (Hco : cooperative host).

Lemma runs_changed mine snap : runs (owns mine) (changed host snap) (λ _, owns mine).
Proof.
  unfold changed. generalize (co_change _ Hco). generalize OnPoolChange.
  intros [f|] Hc; [by apply Hc|by apply runs_ret].
Qed.

Lemma runs_fail mine :
  runs (owns (host :: mine)) (crit_report host (fail_sys host)) (λ _, owns mine).
Proof.
  unfold crit_report. eapply (runs_bind _ _ (λ _, owns mine)).
  { apply runs_crit. intros w Hw. destruct (rm1_cons host _ _ Hw) as [H1 H2].
    assert (pstep (view w) (fail_sys host (view w)).2 ∧ owns mine (over (fail_sys host (view w)).2 w)).
    { unfold fail_sys. destruct (acquire_failed host (pool (view w))) as [o p'] eqn:E. simpl. split.
      - by apply (p_fail (view w) host).
      - by apply (owns_over (host :: mine)). }
    by destruct (fail_sys host (view w)). }
  intros [[] snap]. eapply runs_bind; [apply runs_changed|]. intros ?. by apply runs_ret.
Qed.

(** What the critical section of [Acquire] leaves this goroutine with. *)
Definition entered (mine : list string) (x : decision * nat * (Z * Z)) (w : W) : Prop :=
  match x.1 with
  | (AIdle _ _, _) | (ADial, _) => owns (host :: mine) w
  | (AWait, ch) => owns mine w ∧ parked (view w) !! ch = Some host
  | (AClosed, _) => owns mine w
  end.

Lemma runs_enter (b : bool) t mine :
  runs (λ w, owns mine w ∧ if b then host ∈ woken (view w) else True)
    (crit (λ s, let '(dc, s') := enter_sys b t host s in ((dc, snapshot host s'), s')))
    (entered mine).
Proof.
  apply runs_crit. intros w [Ho Hb].
  assert (pstep (view w) (enter_sys b t host (view w)).2) as Hs.
  { apply (do_enter_step t host b). destruct b; [by apply rm1_perm|done]. }
  destruct (enter_sys b t host (view w)) as [dc s'] eqn:E. split; [done|].
  unfold enter_sys, do_enter in E. destruct (acquire_enter _ _ _ _) as [d p']. simplify_eq.
  unfold entered. destruct d; simpl.
  - by eapply owns_over.
  - eapply owns_over; [done|]. simpl. by intros ->.
  - eapply owns_over; [done|]. simpl. by intros ->.
  - split; [by eapply owns_over|]. rewrite view_over. apply lookup_insert_eq.
Qed.

Lemma runs_dial mine : runs (owns mine) (dial host) (λ _, owns mine).
Proof.
  unfold dial. eapply runs_bind; [apply (co_dial _ Hco)|]. intros [err|c]; [by apply runs_ret|].
  eapply runs_bind; [apply (co_login _ Hco)|]. intros [err|]; [|by apply runs_ret].
  eapply runs_bind; [apply (co_quit _ Hco)|]. intros ?. by apply runs_ret.
Qed.

(** What a result of [Acquire] means. *)
Definition checked_out (mine : list string) (r : option (error + nat)) (w : W) : Prop :=
  match r with
  | Some (inr _) => owns (host :: mine) w
  | Some (inl _) => owns mine w
  | None => True
  end.

Lemma Acquire_runs fuel (b : bool) mine :
  runs (λ w, owns mine w ∧ if b then host ∈ woken (view w) else True)
    (Acquire_loop fuel b host) (checked_out mine).
Proof.
  revert b. induction fuel as [|fuel IH]; intros b; cbn [Acquire_loop]; [by apply runs_ret|].
  eapply runs_bind; [apply (co_now _ Hco b)|]. intros t.
  eapply runs_bind; [apply runs_enter|].
  assert (runs (owns mine) (Acquire_loop fuel false host) (checked_out mine)) as Hagain
    by (eapply runs_weaken; [apply (IH false)|done|done]).
  intros [[[|c ping| |] ch] snap]; unfold entered; cbn [fst].
  - by apply runs_ret.
  - eapply runs_bind; [apply runs_changed|]. intros ?. destruct ping; [|by apply runs_ret].
    eapply runs_bind; [apply (co_noop _ Hco)|]. intros [err|]; [|by apply runs_ret].
    eapply runs_bind; [apply (co_quit _ Hco)|]. intros ?.
    eapply runs_bind; [apply runs_fail|]. intros ?. apply Hagain.
  - eapply runs_bind; [apply runs_changed|]. intros ?.
    eapply runs_bind; [apply runs_dial|]. intros [err|c]; [|by apply runs_ret].
    eapply runs_bind; [apply runs_fail|]. intros ?. by apply runs_ret.
  - eapply runs_bind; [apply (co_wait _ Hco)|]. intros [err|].
    + eapply (runs_bind _ _ (λ _, owns mine)); [|intros ?; by apply runs_ret].
      apply runs_crit. intros w (Ho & Hp & _). unfold cancel_sys.
      destruct (acquire_cancel host ch (pool (view w))) as [o p'] eqn:E. simpl.
      split; [by apply (p_cancel (view w) ch host)|by eapply owns_over].
    + eapply (runs_bind _ _ (λ _ w, owns mine w ∧ host ∈ woken (view w))); [|intros ?; apply (IH true)].
      apply runs_crit. intros w (Ho & Hp & Ht). simpl.
      split; [apply (p_wake (view w) ch host Hp); by apply Ht|].
      split; [by eapply owns_over|]. rewrite view_over. left.
Qed.

Lemma Acquire_conn_runs fuel mine : runs (owns mine) (Acquire_conn fuel host) (checked_out mine).
Proof. eapply runs_weaken; [apply (Acquire_runs fuel false)|done|done]. Qed.

Lemma Pool_release_runs c broken mine :
  runs (owns (host :: mine)) (Pool_release host c broken) (λ _, owns mine).
Proof.
  eapply (runs_bind _ _ (λ _, owns (host :: mine))).
  { eapply runs_weaken; [apply (co_now _ Hco false (host :: mine))|done|by intros ? ? []]. }
  intros t. eapply (runs_bind _ _ (λ _, owns mine)).
  { apply runs_crit. intros w Hw. destruct (rm1_cons host _ _ Hw) as [H1 H2]. simpl.
    split; [by apply do_release_step|]. apply (owns_over (host :: mine)); [done|]. intros _.
    unfold do_release. by destruct (release _ _ _ _ _). }
  intros [snap|]; [|by apply runs_ret]. apply runs_changed.
Qed.

End Steps.

(** ** Properties *)

(** C22: every call of [Acquire] is a run of the pool's steps: whatever the clock, the
    dials, logins, pings and waits answer (or panic), and whatever the other
    goroutines do meanwhile, the call is a sequence of critical sections of the
    modelled pool. When it returns a connection this goroutine holds exactly one slot
    of the host more than before, when it returns an error exactly as many; the
    release of a connection is a step as well and gives back exactly one slot. So the
    per-host limit and the freedom from lost wake-ups hold of the real calls. *)
Theorem Acquire_is_steps fuel host c broken mine w : cooperative host → owns mine w →
  rtc pstep (view w) (view (snd (Acquire_conn fuel host w))) ∧
  (∀ r, fst (Acquire_conn fuel host w) = Ret (Some (inr r)) →
     owns (host :: mine) (snd (Acquire_conn fuel host w))) ∧
  (∀ err, fst (Acquire_conn fuel host w) = Ret (Some (inl err)) →
     owns mine (snd (Acquire_conn fuel host w))) ∧
  (∀ rest, mine = host :: rest →
     rtc pstep (view w) (view (snd (PooledConn_Release host (Some c) broken w))) ∧
     ∀ c', fst (PooledConn_Release host (Some c) broken w) = Ret c' →
       c' = None ∧ owns rest (snd (PooledConn_Release host (Some c) broken w))).
Proof.
  intros Hco Hw. destruct (Acquire_conn_runs host Hco fuel mine w Hw) as [H1 H2].
  split_and!; [done|intros r Hr; apply (H2 _ Hr)|intros err Hr; apply (H2 _ Hr)|].
  intros rest ->.
  enough (runs (owns (host :: rest)) (PooledConn_Release host (Some c) broken)
    (λ c' w', c' = None ∧ owns rest w')) as Hr by apply (Hr w Hw).
  eapply runs_bind; [by apply Pool_release_runs|]. intros ?. by apply runs_ret.
Qed.

End Acquire.

(** ** A client whose server always answers *)

(** One goroutine: dials succeed with connection 7, pings with an error, and a wait
    ends with its context. *)
Definition sample_client {W} : ftp_client (W := W) := {|
  lib_now := λ _, mret (M := M W) 0;
  lib_Dial := λ _ _, mret (M := M W) (inr 7%nat);
  lib_Login := λ _ _ _, mret (M := M W) None;
  lib_Quit := λ _, mret (M := M W) None;
  lib_NoOp := λ _, mret (M := M W) (Some (EOpaque "EOF"));
  lib_wait := λ _, mret (M := M W) (Some (ESentinel ContextCanceled));
|}.

Definition alone {W} : W → list string := λ _, [].

Lemma alone_over {W} `{Lens W psys} (s : psys) (w : W) : alone (over s w) = alone w.
Proof. done. Qed.

Lemma sample_client_cooperative {W} `{Lens W psys} h : cooperative (W := W) sample_client None alone h.
Proof.
  split; intros; try (by apply runs_ret); [|done].
  apply runs_ret. intros w [Ho Hp]. by split_and!.
Qed.

(** The first caller gets a connection, the second one's context ends in the queue, and
    the slot is given back. *)
Lemma Acquire_is_steps_witness :
  let run := Acquire_conn sample_client "u" "p" 0 None 3 "h" in
  let s1 := (run (pool_start sample_pool)).2 in
  let s2 := (run s1).2 in
  fst (run (pool_start sample_pool)) = Ret (Some (inr 7%nat)) ∧
  fst (run s1) = Ret (Some (inl (ESentinel ContextCanceled))) ∧
  rtc pstep (pool_start sample_pool) s1 ∧ held s1 ≡ₚ ["h"] ∧ rtc pstep s1 s2 ∧ held s2 ≡ₚ ["h"] ∧
  rtc pstep s2 (snd (PooledConn_Release sample_client None "h" (Some 7%nat) false s2)).
Proof.
  intros run s1 s2.
  assert (owns (W := psys) alone [] (pool_start sample_pool)) as H0 by exact (Permutation_refl _).
  assert (fst (run (pool_start sample_pool)) = Ret (Some (inr 7%nat))) as E1 by (vm_compute; reflexivity).
  assert (fst (run s1) = Ret (Some (inl (ESentinel ContextCanceled)))) as E2 by (vm_compute; reflexivity).
  destruct (Acquire_is_steps sample_client "u" "p" 0 None alone alone_over 3 "h" 7 false []
    (pool_start sample_pool) (sample_client_cooperative "h") H0) as (H1 & H2 & _).
  destruct (Acquire_is_steps sample_client "u" "p" 0 None alone alone_over 3 "h" 7 false ["h"]
    s1 (sample_client_cooperative "h") (H2 7%nat E1)) as (H3 & _ & H4 & _).
  destruct (Acquire_is_steps sample_client "u" "p" 0 None alone alone_over 3 "h" 7 false ["h"]
    s2 (sample_client_cooperative "h") (H4 _ E2)) as (_ & _ & _ & H5).
  split_and!; [exact E1|exact E2|exact H1|exact (H2 7%nat E1)|exact H3|exact (H4 _ E2)|].
  exact (proj1 (H5 [] eq_refl)).
Defined.
