(* ===== verification/Jobs.v ===== *)
(** * Enqueueing jobs (internal/jobs/enqueue.go) *)

From S2P Require Import Prelude GoLang GoUtf8 GoJson Store Worker Invariant Spec.

(** [type EnqueueArgs struct]. *)
Record EnqueueArgs := {
  a_TraceID : string;
  a_Src : string;
  a_Dst : string;
  a_SrcProtocol : string;
  a_DstProtocol : string;
  a_Payload : string;
  a_MaxAttempts : Z;
}.

Definition empty (s : string) : bool := bool_decide (s = EmptyString).

(** [if a.MaxAttempts <= 0 { a.MaxAttempts = 5 }] and the default payload. *)
Definition eff_max_attempts (a : EnqueueArgs) : Z :=
  if (a_MaxAttempts a <=? 0)%Z then 5 else a_MaxAttempts a.

Definition eff_payload (a : EnqueueArgs) : string :=
  if empty (a_Payload a) then "{}" else a_Payload a.

Section Enqueue.
Context `{ScanOrder}.

(** What the parameters have to be: an INT, texts of the database, a JSON text. *)
Definition encodable (a : EnqueueArgs) : bool :=
  in_int32 (eff_max_attempts a)
  && forallb pg_text [a_TraceID a; a_Src a; a_Dst a; a_SrcProtocol a; a_DstProtocol a]
  && bool_decide (is_Some (jsonb_in (eff_payload a))).

(** [INSERT ... ON CONFLICT (trace_id, dst) DO NOTHING RETURNING id]: the driver
    refuses a [max_attempts] that is no INT, the server a text or a payload its columns
    do not take; no row makes [Scan] return [pgx.ErrNoRows]. *)
Definition enqueue_insert (a : EnqueueArgs) : stmt Z := λ e t,
  if encodable a then
    match insert_job (now e) (a_TraceID a) (a_Src a) (a_Dst a) (a_SrcProtocol a)
            (a_DstProtocol a) (eff_payload a) (eff_max_attempts a) t with
    | (Some i, t') => (inr i, t')
    | (None, t') => (inl (ESentinel ErrNoRows), t')
    end
  else (inl (EOpaque "invalid input for a parameter"), t).

(** [SELECT id FROM transfer_jobs WHERE trace_id=$1 AND dst=$2]. *)
Definition lookup_existing (a : EnqueueArgs) : stmt Z := λ e t,
  match find_key (a_TraceID a) (a_Dst a) t with
  | Some r => (inr (id r), t)
  | None => (inl (ESentinel ErrNoRows), t)
  end.

(** A [Scan] that finds no row is no server error: the transaction stays usable,
    so the conflict outcome is a value of the statement. *)
Definition or_no_rows {A} (q : stmt A) : stmt (option A) := λ e t,
  match q e t with
  | (inr a, t') => (inr (Some a), t')
  | (inl err, t') => if errors_is err ErrNoRows then (inr None, t') else (inl err, t')
  end.

(** The required fields. *)
Definition valid_args (a : EnqueueArgs) : bool :=
  negb (empty (a_TraceID a) || empty (a_Src a) || empty (a_Dst a))
  && negb (empty (a_SrcProtocol a) || empty (a_DstProtocol a)).

(** The part of [Enqueue] under [defer tx.Rollback]. *)
Definition enqueue_tx (a : EnqueueArgs) : M pg (error + Z * bool) :=
  o ← exec_tx (or_no_rows (enqueue_insert a));
  match o with
  | inl err => mret (inl (wrapf "insert: " err))
  | inr (Some i) =>
      ev ← exec_tx (insert_event (a_TraceID a) i EvEnqueue (eff_payload a));
      match ev with
      | inl err => mret (inl (wrapf "emit enqueue event: " err))
      | inr _ =>
          c ← commit_tx;
          match c with
          | Some err => mret (inl (wrapf "commit: " err))
          | None => mret (inr (i, true))
          end
      end
  | inr None =>
      l ← exec_tx (lookup_existing a);
      match l with
      | inl err => mret (inl (wrapf "lookup existing: " err))
      | inr i =>
          c ← commit_tx;
          match c with
          | Some err => mret (inl (wrapf "commit: " err))
          | None => mret (inr (i, false))
          end
      end
  end.

(** [func Enqueue]: the id, whether a row was inserted, or an error. *)
Definition Enqueue (a : EnqueueArgs) : M pg (error + Z * bool) :=
  if empty (a_TraceID a) || empty (a_Src a) || empty (a_Dst a) then
    mret (inl (EOpaque "enqueue: trace_id, src, dst are required"))
  else if empty (a_SrcProtocol a) || empty (a_DstProtocol a) then
    mret (inl (EOpaque "enqueue: src_protocol and dst_protocol are required"))
  else
    b ← begin_tx;
    match b with
    | Some err => mret (inl (wrapf "begin: " err))
    | None => defer rollback_tx (enqueue_tx a)
    end.

(** ** Specification *)

(** The value of the payload. *)
Definition payload_json (a : EnqueueArgs) : jsonb := default BNull (jsonb_in (eff_payload a)).

(** The tables after an enqueue that inserted. *)
Definition enqueued (ts : Z) (a : EnqueueArgs) (t : tables) : tables :=
  push_event ts (a_TraceID a) (jobs_seq t) EvEnqueue (payload_json a)
    (snd (insert_job ts (a_TraceID a) (a_Src a) (a_Dst a) (a_SrcProtocol a)
            (a_DstProtocol a) (eff_payload a) (eff_max_attempts a) t)).

(** The only two effects: nothing but a sequence value, or the new row together
    with its event; and what each result tells about them. *)
Inductive enqueue_effect (ts : Z) (a : EnqueueArgs) (t t' : tables) : error + Z * bool → Prop :=
| enq_failed err :
    undone t t' → enqueue_effect ts a t t' (inl err)
| enq_exists r :
    undone t t' → find_key (a_TraceID a) (a_Dst a) t = Some r → encodable a = true →
    enqueue_effect ts a t t' (inr (id r, false))
| enq_inserted r :
    find_key (a_TraceID a) (a_Dst a) t = None → encodable a = true →
    t' = enqueued ts a t → (r = inr (jobs_seq t, true) ∨ ∃ err, r = inl err) →
    enqueue_effect ts a t t' r.

Lemma encodable_payload a : encodable a = true → jsonb_in (eff_payload a) = Some (payload_json a).
Proof.
  unfold encodable, payload_json. intros Ha. to_prop.
  match goal with H : is_Some _ |- _ => by destruct H as [d ->] end.
Qed.

(** The insert inside the transaction. *)
Lemma enqueue_insert_cases a e t :
  (encodable a = false ∧ ∃ err, or_no_rows (enqueue_insert a) e t = (inl err, t))
  ∨ (encodable a = true ∧
     ∃ o t', or_no_rows (enqueue_insert a) e t = (inr o, t') ∧
       insert_job (now e) (a_TraceID a) (a_Src a) (a_Dst a) (a_SrcProtocol a)
            (a_DstProtocol a) (eff_payload a) (eff_max_attempts a) t = (o, t')).
Proof.
  unfold or_no_rows, enqueue_insert. destruct (encodable a); [right|left; eauto].
  destruct (insert_job _ _ _ _ _ _ _ _ t) as [[i|] t'] eqn:E; simpl; eauto 10.
Qed.

Lemma insert_job_cases ts tid s d sp dp pl ma t o t' :
  insert_job ts tid s d sp dp pl ma t = (o, t') →
  (jobs_seq t <= jobs_seq t')%Z ∧
  ((o = None ∧ undone t t' ∧ ∃ r, find_key tid d t = Some r)
   ∨ (o = Some (jobs_seq t) ∧ find_key tid d t = None ∧
      jobs t' = <[jobs_seq t := new_job ts (jobs_seq t) tid s d sp dp pl ma]> (jobs t))).
Proof.
  unfold insert_job. intros E.
  destruct (find_key tid d t) eqn:Ek; simplify_eq; simpl; (split; [lia|]); [left|right; auto].
  split; [done|]. split; [|eauto]. split; [done|simpl; lia].
Qed.

(** The key is taken: look the row up and commit. *)
Lemma enqueue_tx_exists a s t1 r0 :
  tx s = Some t1 → undone (tabs s) t1 → find_key (a_TraceID a) (a_Dst a) (tabs s) = Some r0 →
  encodable a = true → ∃ r s',
    (l ← exec_tx (lookup_existing a);
     match l with
     | inl err => mret (inl (wrapf "lookup existing: " err))
     | inr i =>
         c ← commit_tx;
         match c with
         | Some err => mret (inl (wrapf "commit: " err))
         | None => mret (inr (i, false))
         end
     end) s = (Ret r, s') ∧ env s' = env s ∧
    enqueue_effect (now (env s)) a (tabs s) (settled s') r ∧ (script s = [] → ∃ ib, r = inr ib).
Proof.
  intros Htx Hu Hk Hen.
  assert (lookup_existing a (env s) t1 = (inr (id r0), t1)) as Eq.
  { unfold lookup_existing, find_key in *. destruct (undone_jobs _ _ Hu) as [-> _]. by rewrite Hk. }
  destruct (exec_tx_run (lookup_existing a) s _ Htx) as (o & s1 & E1 & He1 & Ht1 & Hs1 & Hc).
  run_bind E1. rewrite Eq in Hc.
  destruct Hc as [(i & t2 & [= <- <-] & -> & Hx1)|[(Hf & Hx1 & err & ->)|(? & ? & ? & _)]]; [| |done].
  - destruct (commit_tx_run s1 _ Hx1) as (c & s2 & E2 & He2 & Hx2 & Hs2 & Hc2). run_bind E2.
    destruct Hc2 as [(-> & Ht2)|(Hf & Ht2 & err & ->)]; eexists _, _; (split; [done|]);
      (split; [congruence|]); unfold settled; rewrite Hx2; (split; [|intros Hs]).
    + apply enq_exists; [by rewrite Ht2|done..].
    + eauto.
    + apply enq_failed. destruct Ht2 as [->| ->]; [done|]. rewrite Ht1.
      apply undone_rolled_back. apply Hu.
    + rewrite Hs1, Hs in Hf. done.
  - eexists _, _. split; [done|]. split; [done|]. split; [|done].
    apply enq_failed. eapply undone_settled; eauto. apply Hu.
Qed.

(** The row is new: record its event and commit both. *)
Lemma enqueue_tx_inserts a s t1 :
  let i := jobs_seq (tabs s) in
  tx s = Some t1 → find_key (a_TraceID a) (a_Dst a) (tabs s) = None →
  encodable a = true → (i <= jobs_seq t1)%Z → is_Some (jobs t1 !! i) →
  push_event (now (env s)) (a_TraceID a) i EvEnqueue (payload_json a) t1
    = enqueued (now (env s)) a (tabs s) →
  ∃ r s',
    (ev ← exec_tx (insert_event (a_TraceID a) i EvEnqueue (eff_payload a));
      match ev with
      | inl err => mret (inl (wrapf "emit enqueue event: " err))
      | inr _ =>
          c ← commit_tx;
          match c with
          | Some err => mret (inl (wrapf "commit: " err))
          | None => mret (inr (i, true))
          end
      end) s = (Ret r, s') ∧ env s' = env s ∧
    enqueue_effect (now (env s)) a (tabs s) (settled s') r ∧ (script s = [] → ∃ ib, r = inr ib).
Proof.
  intros i Htx Hk Hr Hle [r0 Hi] Hpush.
  set (q := insert_event (a_TraceID a) i EvEnqueue (eff_payload a)).
  assert (q (env s) t1 = (inr tt, enqueued (now (env s)) a (tabs s))) as Eq.
  { unfold q, insert_event. rewrite (encodable_payload a) by done. by rewrite Hi, Hpush. }
  destruct (exec_tx_run q s _ Htx) as (o & s1 & E1 & He1 & Ht1 & Hs1 & Hc).
  run_bind E1. rewrite Eq in Hc.
  destruct Hc as [(u & t2 & [= <- <-] & -> & Hx1)|[(Hf & Hx1 & err & ->)|(? & ? & ? & _)]]; [| |done].
  - destruct (commit_tx_run s1 _ Hx1) as (c & s2 & E2 & He2 & Hx2 & Hs2 & Hc2). run_bind E2.
    destruct Hc2 as [(-> & Ht2)|(Hf & Ht2 & err & ->)]; eexists _, _; (split; [done|]);
      (split; [congruence|]); unfold settled; rewrite Hx2; (split; [|intros Hs]).
    + apply enq_inserted; auto.
    + eauto.
    + destruct Ht2 as [->| ->]; [apply enq_inserted; eauto|]. rewrite Ht1.
      apply enq_failed, undone_rolled_back. rewrite <- Hpush. done.
    + rewrite Hs1, Hs in Hf. done.
  - eexists _, _. split; [done|]. split; [done|]. split; [|done].
    apply enq_failed. eapply undone_settled; eauto.
Qed.

Lemma enqueue_tx_effect a s :
  tx s = Some (tabs s) → ∃ r s',
    enqueue_tx a s = (Ret r, s') ∧ env s' = env s ∧
    enqueue_effect (now (env s)) a (tabs s) (settled s') r ∧
    (script s = [] → encodable a = true → ∃ ib, r = inr ib).
Proof.
  intros Htx. unfold enqueue_tx.
  destruct (exec_tx_run (or_no_rows (enqueue_insert a)) s _ Htx)
    as (o & s1 & E1 & He1 & Ht1 & Hs1 & Hc). run_bind E1.
  assert (∀ err, o = inl err → undone (tabs s) (settled s1) ∧
            (script s = [] → encodable a = true → False)) as Herr.
  { intros err ->. destruct (enqueue_insert_cases a (env s) (tabs s))
      as [(Hr & e' & Eq)|(Hr & o' & t1 & Eq & Ei)]; rewrite Eq in Hc;
    destruct Hc as [(? & ? & _ & ? & _)|[(? & Hx1 & _)|(? & t' & [= -> <-] & _ & Hx1)]]; try done;
      (split; [eapply undone_settled; eauto; done|congruence]). }
  destruct o as [err|o].
  { destruct (Herr err eq_refl) as [Hu Hn]. eexists _, _. split; [done|]. split; [done|].
    split; [by apply enq_failed|]. intros. by destruct Hn. }
  clear Herr. destruct Hc as [(o1 & t1 & Eq & [= <-] & Hx1)|[(_ & _ & ? & ?)|(? & ? & _ & ? & _)]]; [|done..].
  destruct (enqueue_insert_cases a (env s) (tabs s)) as [(Hr & e' & Eq')|(Hr & o' & t1' & Eq' & Ei)];
    rewrite Eq in Eq'; simplify_eq.
  destruct (insert_job_cases _ _ _ _ _ _ _ _ _ _ _ Ei) as [Hle [(-> & Hu & r0 & Hk)|(-> & Hk & Hj)]].
  - destruct (enqueue_tx_exists a s1 t1' r0) as (r & s' & E & He & Heff & Hok);
      [done|by rewrite Ht1|by rewrite Ht1|done|].
    rewrite He1, Ht1, Hs1 in *. eexists _, _. split; [exact E|]. split; [done|]. split; [done|].
    intros Hs _. apply Hok. by rewrite Hs.
  - destruct (enqueue_tx_inserts a s1 t1') as (r & s' & E & He & Heff & Hok);
      rewrite ?He1, ?Ht1, ?Hs1 in *; try done.
    { rewrite Hj, lookup_insert_eq. eauto. }
    { unfold enqueued. by rewrite Ei. }
    eexists _, _. split; [exact E|]. split; [done|]. split; [done|].
    intros Hs _. apply Hok. by rewrite Hs.
Qed.

Lemma eff_max_attempts_range a :
  encodable a = true → (0 < eff_max_attempts a < 2 ^ 31)%Z.
Proof.
  unfold encodable, in_int32. intros Hr. to_prop. split; [|done].
  unfold eff_max_attempts. destruct (a_MaxAttempts a <=? 0)%Z eqn:E; to_prop; lia.
Qed.

(** An enqueue submits its key at most once. *)
Lemma enqueue_implements ts a t t' r :
  enqueue_effect ts a t t' r →
  evolves_by (once (λ l, ∃ i, l = ASubmit i (a_TraceID a, a_Dst a) (eff_max_attempts a))) t t'.
Proof.
  destruct 1 as [err [-> Hle]|r0 [-> Hle] _ _|r Hk Hr -> _];
    [by apply evolves_rolled_back; [apply _|]..|].
  unfold enqueued.
  destruct (insert_job ts _ _ _ _ _ _ _ t) as [o t1] eqn:Ei. simpl.
  refine (evolves_by_trans (once _) eq (once _) t t1 _ _ (evolves_insert _ _ _ _ _ _ _ _ _ _ _
    (eff_max_attempts_range _ Hr) Ei) _).
  { intros q1 q2 q3 [->|Ha] <-; [by left|right]. eapply acts_mono; [|exact Ha]. intros l ->. eauto. }
  destruct (insert_job_cases _ _ _ _ _ _ _ _ _ _ _ Ei) as [_ [(_ & _ & ? & ?)|(_ & _ & Hj)]];
    [congruence|].
  eapply (evolves_push eq t1 ts (jobs_seq t) (new_job ts (jobs_seq t) (a_TraceID a) _ _ _ _ _ _)); [|done].
  by rewrite Hj, lookup_insert_eq.
Qed.

Lemma enqueue_evolves ts a t t' r : enqueue_effect ts a t t' r → evolves t t'.
Proof. intros He. by eapply evolves_once, enqueue_implements. Qed.

(** Every run of [Enqueue]. *)
Lemma enqueue_run a s :
  tx s = None → ∃ r s',
    Enqueue a s = (Ret r, s') ∧ env s' = env s ∧ tx s' = None ∧
    enqueue_effect (now (env s)) a (tabs s) (tabs s') r ∧
    (valid_args a = false → tabs s' = tabs s ∧ ∃ e, r = inl e) ∧
    (script s = [] → valid_args a = true → encodable a = true →
       ∃ ib, r = inr ib).
Proof.
  intros Htx. unfold Enqueue, valid_args.
  destruct (empty (a_TraceID a) || empty (a_Src a) || empty (a_Dst a)); simpl.
  { eexists _, _. split; [done|]. split_and!; eauto; [|done]. apply enq_failed, undone_refl. }
  destruct (empty (a_SrcProtocol a) || empty (a_DstProtocol a)); simpl.
  { eexists _, _. split; [done|]. split_and!; eauto; [|done]. apply enq_failed, undone_refl. }
  destruct (begin_tx_run s) as (b & s1 & E1 & He1 & Ht1 & Hs1 & Hc). run_bind E1.
  destruct Hc as [(-> & Hx1)|(Hf & Hx1 & err & ->)].
  - rewrite <- Ht1 in Hx1. destruct (enqueue_tx_effect a s1 Hx1) as (r & s2 & E2 & He2 & Heff & Hok).
    destruct (defer_rollback_run _ _ _ _ E2) as (s3 & E3 & He3 & Hx3 & Hs3 & Ht3).
    rewrite He1, Ht1, Hs1 in *. eexists _, _. split; [exact E3|].
    split_and!; [congruence|done|by rewrite Ht3|done|].
    intros Hs _. apply Hok. by rewrite Hs.
  - eexists _, _. split; [done|]. split_and!; [done|congruence| |done|done].
    rewrite Ht1. apply enq_failed, undone_refl.
Qed.

(** After a successful call the key is taken by the row whose id was returned. *)
Lemma enqueue_effect_key ts a t t' i b :
  wf t → enqueue_effect ts a t t' (inr (i, b)) →
  ∃ r, find_key (a_TraceID a) (a_Dst a) t' = Some r ∧ id r = i.
Proof.
  intros Hwf Heff. pose proof (enqueue_evolves _ _ _ _ _ Heff Hwf) as Hev.
  inversion Heff as [|r [Hu _] Hk _|r Hk Hr -> Hres]; simplify_eq.
  - exists r. split; [|done]. unfold find_key in *. rewrite Hu. done.
  - destruct Hres as [[= -> ->]|[? ?]]; [|done].
    exists (new_job ts (jobs_seq t) (a_TraceID a) (a_Src a) (a_Dst a) (a_SrcProtocol a)
              (a_DstProtocol a) (eff_payload a) (eff_max_attempts a)).
    split; [|done]. eapply (find_key_is _ _ _ (jobs_seq t)); [by apply Hev| |done..].
    unfold enqueued. destruct (insert_job ts _ _ _ _ _ _ _ t) as [o t1] eqn:Ei. simpl.
    destruct (insert_job_cases _ _ _ _ _ _ _ _ _ _ _ Ei) as [_ [(_ & _ & ? & ?)|(_ & _ & Hj)]];
      [congruence|]. by rewrite Hj, lookup_insert_eq.
Qed.

Lemma enqueue_again a a' s s1 i b :
  wf (tabs s) → tx s = None → Enqueue a s = (Ret (inr (i, b)), s1) → script s1 = [] →
  a_TraceID a' = a_TraceID a → a_Dst a' = a_Dst a → valid_args a' = true →
  encodable a' = true →
  ∃ s2, Enqueue a' s1 = (Ret (inr (i, false)), s2) ∧
    jobs (tabs s2) = jobs (tabs s1) ∧ events (tabs s2) = events (tabs s1).
Proof.
  intros Hwf Htx E Hs Ht Hd Hv Hr.
  destruct (enqueue_run a s Htx) as (r1 & s1' & E' & _ & Hx1 & Heff & _).
  rewrite E in E'. simplify_eq.
  destruct (enqueue_effect_key _ _ _ _ _ _ Hwf Heff) as (r0 & Hk & <-).
  destruct (enqueue_run a' s1' Hx1) as (r2 & s2 & E2 & _ & _ & Heff2 & _ & Hok).
  destruct (Hok Hs Hv Hr) as [[j c] ->]. exists s2.
  inversion Heff2 as [|r3 Hu Hk3 _|r3 Hk3 _ _ _]; simplify_eq; rewrite Ht, Hd in Hk3;
    rewrite Hk in Hk3; simplify_eq.
  split; [done|]. by apply undone_jobs.
Qed.

(** ** Properties *)

(** C27: [Enqueue] always returns, under any pattern of lost requests and lost
    replies; it leaves no transaction open, and its effect is all or nothing: either
    no table row changes, or exactly the new pending row and its 'enqueue' event
    appear together. [inr (i, true)] means the row was inserted with the fresh id [i],
    [inr (i, false)] that row [i] already carried the key; invalid arguments touch
    nothing; arguments the columns do not take (max_attempts no INT, a text that is no
    UTF-8 or has a NUL, a payload that is no JSON) change no row and are an error; with no
    failure all other valid arguments succeed. *)
Theorem Enqueue_spec a s :
  tx s = None → ∃ r s',
    Enqueue a s = (Ret r, s') ∧ env s' = env s ∧ tx s' = None ∧
    enqueue_effect (now (env s)) a (tabs s) (tabs s') r ∧
    (valid_args a = false → tabs s' = tabs s ∧ ∃ e, r = inl e) ∧
    (encodable a = false → undone (tabs s) (tabs s') ∧ ∃ e, r = inl e) ∧
    (script s = [] → valid_args a = true → encodable a = true →
       ∃ ib, r = inr ib).
Proof.
  intros Htx. destruct (enqueue_run a s Htx) as (r & s' & E & He & Hx & Heff & Hv & Hok).
  exists r, s'. split_and!; [done..| |done]. intros Hen.
  destruct Heff as [err Hu|r0 Hu _ He'|r Hk He' _ _]; [by eauto|congruence..].
Qed.

(** Enqueueing is idempotent on (trace_id, dst): once a call has returned id
    [i], any later valid call with the same key, whatever its other fields, returns
    the same [i] with inserted=false and changes neither a job nor an event. *)
Theorem Enqueue_idempotent a a' s s1 i b :
  wf (tabs s) → tx s = None → Enqueue a s = (Ret (inr (i, b)), s1) → script s1 = [] →
  a_TraceID a' = a_TraceID a → a_Dst a' = a_Dst a → valid_args a' = true →
  encodable a' = true →
  ∃ s2, Enqueue a' s1 = (Ret (inr (i, false)), s2) ∧
    jobs (tabs s2) = jobs (tabs s1) ∧ events (tabs s2) = events (tabs s1).
Proof. apply enqueue_again. Qed.

End Enqueue.

(** ** Witnesses *)

Definition sample_env : session_env := {| now := 1000; row_locks := ∅; adv_busy := λ _, false |}.

Definition sample_pg : pg := {|
  env := sample_env; tabs := empty_tables; tx := None; script := []
|}.

Definition sample_args : EnqueueArgs := {|
  a_TraceID := "images-7"; a_Src := "/data/7.png"; a_Dst := "ftp://h/7.png";
  a_SrcProtocol := "localfs"; a_DstProtocol := "ftp"; a_Payload := EmptyString;
  a_MaxAttempts := 3
|}.

Lemma Enqueue_spec_witness : ∃ r s',
  Enqueue sample_args sample_pg = (Ret r, s') ∧ tx s' = None ∧ r = inr (1%Z, true).
Proof.
  destruct (Enqueue_spec sample_args sample_pg eq_refl) as (r & s' & E & _ & Hx & _).
  exists r, s'. split; [done|]. split; [done|]. vm_compute in E. by simplify_eq.
Defined.

Lemma Enqueue_idempotent_witness : ∃ s1 s2,
  Enqueue sample_args sample_pg = (Ret (inr (1%Z, true)), s1) ∧
  Enqueue sample_args s1 = (Ret (inr (1%Z, false)), s2).
Proof.
  assert (Enqueue sample_args sample_pg
    = (Ret (inr (1%Z, true)), snd (Enqueue sample_args sample_pg))) as E1 by (vm_compute; reflexivity).
  destruct (Enqueue_idempotent sample_args sample_args sample_pg
    (snd (Enqueue sample_args sample_pg)) 1 true) as (s2 & E & _);
    [exact wf_empty_tables|reflexivity|exact E1|vm_compute; reflexivity|reflexivity..|].
  by eexists _, s2.
Defined.
