(* ===== verification/Samples.v ===== *)
(** * Concrete states the witnesses evaluate

    A queue with one job, the same queue with the job leased, and a small world
    around the database with a source and a transport one can run. *)

From Stdlib Require Import Init.Byte.
From S2P Require Import Prelude GoLang GoFloat ErrDetail GoUtf8 Store Transfer Worker Invariant Spec.
From S2P Require Import WorkerFacts Jobs.

Definition sample_worker : string := "pod-w0".

Definition sample_queued : pg := snd (Enqueue sample_args sample_pg).
Definition sample_leased : pg := snd (LeaseJob sample_worker sample_queued).

Definition sample_row : transfer_job :=
  new_job 1000 1 "images-7" "/data/7.png" "ftp://h/7.png" "localfs" "ftp" "{}" 3.
Definition sample_job : Job := scan_job (lease_row sample_worker 1000 sample_row).

Lemma sample_queued_wf : wf (tabs sample_queued).
Proof.
  destruct (enqueue_run sample_args sample_pg eq_refl) as (r & s' & E & _ & _ & Heff & _).
  unfold sample_queued. rewrite E. by apply (enqueue_evolves _ _ _ _ _ Heff), wf_empty_tables.
Qed.

Lemma sample_queued_row : jobs (tabs sample_queued) !! 1%Z = Some sample_row.
Proof. vm_compute. reflexivity. Qed.

Lemma sample_leased_tabs : tabs sample_leased
  = set_jobs (<[1%Z := lease_row sample_worker 1000 sample_row]> (jobs (tabs sample_queued)))
      (tabs sample_queued).
Proof. vm_compute. reflexivity. Qed.

Lemma sample_leased_wf : wf (tabs sample_leased).
Proof.
  rewrite sample_leased_tabs. apply (wf_lease _ sample_row);
    [apply sample_queued_wf|apply sample_queued_row|done].
Qed.

(** A world with a counter of closed bodies beside the database. *)
Record toy := Toy { toy_pg : pg; toy_closes : Z }.

#[export, refine] Instance toy_lens : Lens toy pg := {|
  view := toy_pg; over := λ s w, Toy s (toy_closes w)
|}.
Proof. all: by intros; repeat match goal with w : toy |- _ => destruct w end. Defined.

(** A source of four bytes that reports [size]; a transport that reads once. *)
Definition toy_source (size : Z) : Source toy := {|
  Body := list chunk; Body_reader := chunk_reader;
  Open := λ _ w, (Ret (inr ([Chunk [x00; x01; x02; x03] None], size)), w);
  Close := λ _ w, (Ret None, Toy (toy_pg w) (toy_closes w + 1))
|}.

Definition toy_transport : Transport toy := {|
  Send_fn := λ R (_ : Reader R) _ b _ w,
    let '(p, _, b') := read 64 b in ((Ret (inr (Z.of_nat (length p), "00")), b'), w)
|}.

Definition toy_runner : Runner toy := {|
  r_PodName := "pod"; r_SourceFor := λ _, inr (toy_source 4);
  r_TransportFor := λ _, inr toy_transport; r_OnFinish := None; r_OnRetry := None;
  r_OnLeaseAttempt := None; r_OnWorkerStart := None; r_OnWorkerStop := None
|}.

Definition toy_host : host_env := {| float_oor := 0; rng_draw := 0; elapsed_ms := 5 |}.
Definition toy_deps : Deps toy := MkDeps sample_worker None.
Definition toy_world : toy := Toy sample_leased 0.

Lemma toy_source_framed n : framed_source (toy_source n).
Proof. by split. Qed.

Lemma toy_transport_framed : framed_transport toy_transport.
Proof. intros R HR dst b n w. unfold Send. simpl. by destruct (read 64 b) as [[p e] b']. Qed.

Lemma toy_source_legible n : legible_source (toy_source n).
Proof. by split. Qed.

Lemma toy_transport_legible : legible_transport toy_transport.
Proof. intros R HR dst b n w. unfold Send. simpl. by destruct (read 64 b) as [[p e] b']. Qed.

Lemma toy_runner_framed : framed_runner toy_runner.
Proof.
  split; [|by intros p t [= <-]; apply toy_transport_framed|done..].
  intros p s [= <-]. apply toy_source_framed.
Qed.

(** The same sessions an hour later. *)
Definition at_time (ts : Z) (s : pg) : pg := {|
  env := {| now := ts; row_locks := row_locks (env s); adv_busy := adv_busy (env s) |};
  tabs := tabs s; tx := tx s; script := script s
|}.

Definition sample_later : pg := at_time 3600000000 sample_leased.

(** The job settled by a run of the worker. *)
Definition sample_done : pg :=
  toy_pg (snd (processOne toy_host toy_runner sample_worker sample_job toy_world)).

Lemma sample_coherent : coherent sample_worker sample_job (tabs sample_leased).
Proof.
  intros r Hi _.
  assert (jobs (tabs sample_leased) !! ID sample_job
    = Some (lease_row sample_worker 1000 sample_row)) as E by (vm_compute; reflexivity).
  rewrite E in Hi. injection Hi as <-. by vm_compute.
Qed.

Lemma sample_done_wf : wf (tabs sample_done).
Proof.
  destruct (processOne_wrote toy_host sample_worker sample_job toy_runner toy_runner_framed toy_world)
    as (vs & _ & E).
  unfold sample_done. change (toy_pg ?w) with (view w). rewrite E.
  apply record_evolves; [apply sample_leased_wf|apply sample_coherent|apply sample_leased_wf].
Qed.
