(* ===== verification/WorkerProps.v ===== *)
(** * Properties of the worker

    What [LeaseJob], [ProcessJob], [processOne] and [drainLease] promise, stated on
    the functions themselves and proved from the lemmas of [WorkerFacts]. *)

From Stdlib Require Import Ascii.
From S2P Require Import Prelude GoLang GoFloat ErrDetail GoUtf8 GoJson Store Transfer Worker Invariant Spec.
From S2P Require Import WorkerFacts Jobs Samples.

Local Open Scope Z_scope.

(** ** Specifications *)

(** The answer of [LeaseJob] when the statement failed with [e]. *)
Definition lease_answer (e : error) : error + option Job :=
  if errors_is e ErrNoRows then inr None else inl (wrapf "lease: " e).

(** The metric label of a verdict. *)
Definition verdict_label (job : Job) (v : verdict) : string :=
  match v with
  | VSuccess _ _ => "succeeded"
  | VSkip _ => "skipped"
  | VDead _ => "dead"
  | VRetry _ => if MaxAttempts job <=? Attempts job + 1 then "dead" else "fail"
  end.

(** The row and the event each label stands for. *)
Inductive label_means (job : Job) : string → job_status → Z → event_status → Prop :=
| means_succeeded : label_means job "succeeded" Succeeded (Attempts job) EvSuccess
| means_skipped : label_means job "skipped" Skipped (Attempts job) EvSkip
| means_dead : label_means job "dead" Dead (Attempts job + 1) EvDead
| means_fail : Attempts job + 1 < MaxAttempts job →
    label_means job "fail" Pending (Attempts job + 1) EvFail.

(** When the row runs next: a retry waits 2^attempts seconds, give or take a quarter
    (for every draw of the generator, up to 32 attempts); any other outcome leaves
    the schedule alone. Times are in microseconds. *)
Definition reschedule (h : host_env) (st : job_status) (a ts nra nra' : Z) : Prop :=
  match st with
  | Pending => 0 <= rng_draw h < 2 ^ 53 → 0 <= a <= 32 →
      750000 * 2 ^ a <= nra' - ts <= 1250000 * 2 ^ a
  | _ => nra' = nra
  end.

(** The worker still holds the lease on the row of its job. *)
Definition held (lb : string) (job : Job) (t : tables) (r : transfer_job) : Prop :=
  jobs t !! ID job = Some r ∧ leased_by lb r ∧
  attempts r = Attempts job ∧ max_attempts r = MaxAttempts job.

(** The source delivered, the transport stored what it was given, the sizes agree
    and the source closed cleanly. *)
Definition verified_transfer {W} (source : Source W) (transport : Transport W) (job : Job)
    (w w' : W) (n : Z) (sha : string) : Prop :=
  ∃ body size cw w1 w2,
    Open source (Src job) w = (Ret (inr (body, size)), w1) ∧
    Send transport (Dst job) (Counter body 0) size w1 = (Ret (Ret (inr (n, sha)), cw), w2) ∧
    (0 <= size → n = size) ∧ (size < 0 → n = counter_n cw) ∧
    Close source (counter_r cw) w2 = (Ret None, w').

(** ** Leasing *)

Lemma exec_head {A} (q : stmt A) s : ∃ s', exec q s =
  (Ret match hd FOk (script s) with
       | FLost e => inl e
       | f => match fst (q (env s) (tabs s)), f with
              | inl e, _ => inl e
              | inr _, FReplyLost e => inl e
              | inr a, _ => inr a
              end
       end, s') ∧
  env s' = env s ∧ tx s' = tx s ∧ script s' = tail (script s) ∧
  tabs s' = match hd FOk (script s) with
            | FLost _ => tabs s
            | _ => match q (env s) (tabs s) with
                   | (inl _, t') => rolled_back (tabs s) t'
                   | (inr _, t') => t'
                   end
            end.
Proof.
  unfold exec, next_fault, action, mbind, M_bind.
  destruct (script s) as [|[|e|e] fs] eqn:Es; simpl;
    destruct (q (env s) (tabs s)) as [[e'|a] t'] eqn:Eq; simpl;
    eexists; (split; [reflexivity|]); simpl; by rewrite ?Es.
Qed.

(** Every run of [LeaseJob], by the fate of its round trip. *)
Lemma lease_outcome `{ScanOrder} w s :
  wf (tabs s) → ∃ o s', LeaseJob w s = (Ret o, s') ∧ env s' = env s ∧ tx s' = tx s ∧
    script s' = tail (script s) ∧
    match hd FOk (script s) with
    | FLost e => o = lease_answer e ∧ tabs s' = tabs s
    | f =>
        (∃ r r', takes (env s) (tabs s) r ∧ leased_as w (now (env s)) r r' ∧
           tabs s' = set_jobs (<[id r := r']> (jobs (tabs s))) (tabs s) ∧
           o = match f with
               | FReplyLost e => lease_answer e
               | _ => inr (Some (scan_job r'))
               end)
        ∨ ((∀ i r, jobs (tabs s) !! i = Some r → ¬ ready (env s) r) ∧
           tabs s' = tabs s ∧ o = inr None)
    end.
Proof.
  intros Hwf. unfold LeaseJob.
  destruct (exec_head (lease_stmt w) s) as (s1 & E1 & He & Hx & Hsc & Ht). run_bind E1.
  assert (∀ e, ((if errors_is e ErrNoRows then mret (inr None)
             else mret (inl (wrapf "lease: " e))) : M pg (error + option Job)) s1
             = (Ret (lease_answer e), s1)) as Herr.
  { intros e. unfold lease_answer. by destruct (errors_is e ErrNoRows). }
  destruct (lease_stmt_cases w (env s) (tabs s) Hwf) as [(r & Htk & Eq)|[Hn Eq]];
    rewrite Eq in Ht; rewrite Eq; simpl in *; rewrite ?rolled_back_refl in Ht.
  - destruct (hd FOk (script s)) as [|e|e]; rewrite ?Herr;
      (eexists _, _; split; [reflexivity|]); (split; [exact He|]); (split; [exact Hx|]); (split; [exact Hsc|]);
      [|by split|]; left; eexists r, _; (split; [done|]); (split; [apply lease_row_as|by split]).
  - destruct (hd FOk (script s)) as [|e|e]; rewrite ?Herr;
      (eexists _, _; split; [reflexivity|]); (split; [exact He|]); (split; [exact Hx|]); (split; [exact Hsc|]);
      [|by split|]; right; by split_and!.
Qed.

(** C8: one call of [LeaseJob], whatever the fate of its round trip. When some row is
    pending, due and not locked by another transaction, the statement leases the
    least such row by (next_run_at, id), stamps it with this worker and the time, and
    changes no other column and no other row; the job returned is that row. When the reply is lost the row stays
    leased and the caller gets an error; when the request is lost nothing changes.
    When no row qualifies, nothing changes and no job is returned. *)
Theorem LeaseJob_spec `{ScanOrder} w s :
  wf (tabs s) → ∃ o s', LeaseJob w s = (Ret o, s') ∧ env s' = env s ∧ tx s' = tx s ∧
    match hd FOk (script s) with
    | FLost e => o = lease_answer e ∧ tabs s' = tabs s
    | f =>
        (∃ r r', takes (env s) (tabs s) r ∧ leased_as w (now (env s)) r r' ∧
           tabs s' = set_jobs (<[id r := r']> (jobs (tabs s))) (tabs s) ∧
           o = match f with
               | FReplyLost e => lease_answer e
               | _ => inr (Some (scan_job r'))
               end)
        ∨ ((∀ i r, jobs (tabs s) !! i = Some r → ¬ ready (env s) r) ∧
           tabs s' = tabs s ∧ o = inr None)
    end.
Proof.
  intros Hwf. destruct (lease_outcome w s Hwf) as (o & s' & E & He & Hx & _ & Ho). by exists o, s'.
Qed.

(** Without failures: the first ready row, or nothing when no row is ready. *)
Lemma lease_calm `{ScanOrder} w s :
  wf (tabs s) → script s = [] → ∃ o s', LeaseJob w s = (Ret (inr o), s') ∧ env s' = env s ∧
    tx s' = tx s ∧ script s' = [] ∧
    match o with
    | Some job => ∃ r r', takes (env s) (tabs s) r ∧ leased_as w (now (env s)) r r' ∧
        tabs s' = set_jobs (<[id r := r']> (jobs (tabs s))) (tabs s) ∧ job = scan_job r'
    | None => (∀ i r, jobs (tabs s) !! i = Some r → ¬ ready (env s) r) ∧ tabs s' = tabs s
    end.
Proof.
  intros Hwf Hs. destruct (lease_outcome w s Hwf) as (o & s' & E & He & Hx & Hsc & Ho).
  rewrite Hs in *. simpl in Ho.
  destruct Ho as [(r & r' & Ht & Hl & Htab & ->)|(Hn & Htab & ->)]; eexists _, s';
    (split; [exact E|]); (split; [done|]); (split; [done|]); (split; [done|]); [by exists r, r'|done].
Qed.

(** ** Outcomes *)

Lemma record_held h lb job v s r :
  script s = [] → held lb job (tabs s) r → storable (verdict_detail h v) = true →
  exec (verdict_stmt h lb job v) s = (Ret (inr 1), record h lb job [v] s) ∧
  ∃ st a nra ev r', label_means job (verdict_label job v) st a ev ∧
    settled_as st a nra (now (env s)) r r' ∧ reschedule h st a (now (env s)) (next_run_at r) nra ∧
    tabs (record h lb job [v] s)
    = push_event (now (env s)) (trace_id r) (ID job) ev (stored_object (verdict_detail h v))
        (set_jobs (<[ID job := r']> (jobs (tabs s))) (tabs s)).
Proof.
  intros Hs (Hi & Hg & Ha & Hm) Hd.
  assert (∃ st a nra ev r', label_means job (verdict_label job v) st a ev ∧
    settled_as st a nra (now (env s)) r r' ∧ reschedule h st a (now (env s)) (next_run_at r) nra ∧
    verdict_stmt h lb job v (env s) (tabs s)
    = (inr 1, push_event (now (env s)) (trace_id r) (ID job) ev (stored_object (verdict_detail h v))
        (set_jobs (<[ID job := r']> (jobs (tabs s))) (tabs s))))
    as (st & a & nra & ev & r' & Hl & Hsa & Hre & Eq).
  { destruct v as [n sh|dt|dt|dt]; simpl; [| | |destruct (MaxAttempts job <=? Attempts job + 1) eqn:Hle];
      to_prop; rewrite (guarded_write_hit _ _ _ _ _ _ _ r) by done;
      eexists _, _, _, _, _; rewrite ?Ha; (split; [by constructor|]);
      (split; [apply settle_row_as|]); (split; [|reflexivity]); try done.
    intros Hk Hb. rewrite Z.add_simpl_l. by apply retry_delay_us. }
  destruct (exec_head (verdict_stmt h lb job v) s) as (s1 & E1 & _ & _ & _ & Ht).
  rewrite Eq, Hs in E1. rewrite Eq, Hs in Ht. simpl in E1, Ht.
  unfold record. simpl. rewrite E1. simpl. split; [done|].
  exists st, a, nra, ev, r'. split_and!; [done..|exact Ht].
Qed.

(** A verdict whose detail the database refuses changes nothing. *)
Lemma record_refused h lb job v s :
  script s = [] → storable (verdict_detail h v) = false →
  exec (verdict_stmt h lb job v) s = (Ret (inl json_refused), record h lb job [v] s) ∧
  tabs (record h lb job [v] s) = tabs s.
Proof.
  intros Hs Hd. destruct (exec_head (verdict_stmt h lb job v) s) as (s1 & E1 & _ & _ & _ & Ht).
  destruct (verdict_stmt_shape h lb job v) as (st & a & nra & ev & _ & Eq).
  rewrite Eq, guarded_write_refused, Hs in E1, Ht by done. simpl in E1, Ht.
  unfold record. simpl. rewrite Eq, E1. simpl. split; [done|]. by rewrite Ht, rolled_back_refl.
Qed.

(** What the worker answers after its write: the label of the verdict, or the refusal. *)
Definition answer_of (h : host_env) (job : Job) (v : verdict) : string * option error :=
  if storable (verdict_detail h v) then (verdict_label job v, None)
  else (EmptyString, Some json_refused).

Section Outcomes.
Context {W : Type} `{Lens W pg}.
Context (h : host_env) (lb : string) (job : Job).

Lemma zoom_verdict v w r :
  script (view w) = [] → held lb job (tabs (view w)) r →
  zoom (exec (verdict_stmt h lb job v)) w
  = (Ret (if storable (verdict_detail h v) then inr 1 else inl json_refused),
     over (record h lb job [v] (view w)) w).
Proof.
  intros Hs Hh. apply zoom_run. destruct (storable (verdict_detail h v)) eqn:Hd.
  - by apply (record_held h lb job v _ r).
  - by apply record_refused.
Qed.

(** The error of the write. *)
Definition refusal (dt : gmap string jval) : option error :=
  if storable dt then None else Some json_refused.

Lemma writeTerminal_skip_run (d : Deps W) dt w r :
  d_LockedBy d = lb → script (view w) = [] → held lb job (tabs (view w)) r →
  writeTerminal d job Skipped EvSkip dt false w
  = (Ret (refusal dt), over (record h lb job [VSkip dt] (view w)) w).
Proof.
  intros Hd Hs Hh. pose proof (zoom_verdict (VSkip dt) w r Hs Hh) as E. simpl in E.
  unfold writeTerminal, writeTerminalWithAttempts. rewrite Hd. run_bind E.
  unfold refusal. by destruct (storable dt).
Qed.

Lemma writeTerminal_dead_run (d : Deps W) dt w r :
  d_LockedBy d = lb → script (view w) = [] → held lb job (tabs (view w)) r →
  writeTerminal d job Dead EvDead dt true w
  = (Ret (refusal dt), over (record h lb job [VDead dt] (view w)) w).
Proof.
  intros Hd Hs Hh. pose proof (zoom_verdict (VDead dt) w r Hs Hh) as E. simpl in E.
  unfold writeTerminal, writeTerminalWithAttempts. rewrite Hd. run_bind E.
  unfold refusal. by destruct (storable dt).
Qed.

Lemma writeSuccess_run (d : Deps W) n sha w r :
  d_LockedBy d = lb → script (view w) = [] → held lb job (tabs (view w)) r →
  writeSuccess h d job n sha w
  = (Ret (refusal (verdict_detail h (VSuccess n sha))), over (record h lb job [VSuccess n sha] (view w)) w).
Proof.
  intros Hd Hs Hh. pose proof (zoom_verdict (VSuccess n sha) w r Hs Hh) as E.
  cbn [verdict_stmt] in E. unfold writeSuccess. rewrite Hd. run_bind E.
  unfold refusal. by destruct (storable _).
Qed.

Lemma framed_recover {A} (g : string → M W A) (m : M W A) :
  framed m → (∀ v, framed (g v)) → framed (recover g m).
Proof.
  intros Hm Hg w. specialize (Hm w). unfold recover.
  destruct (m w) as [[a|v] w1]; simpl in *; [done|]. by rewrite Hg.
Qed.

Lemma framed_defer {A} (fin : M W unit) (m : M W A) :
  framed fin → framed m → framed (defer fin m).
Proof.
  intros Hf Hm w. specialize (Hm w). unfold defer. destruct (m w) as [x w1].
  specialize (Hf w1). destruct (fin w1) as [[[]|v] w2]; simpl in *; by rewrite Hf.
Qed.

End Outcomes.

(** ** Verified transfers *)

Section Verified.
Context {W : Type} `{Lens W pg}.

Lemma err_write_answer (h : host_env) (d : Deps W) job dt w l e w' :
  writeRetryOrDead h d job dt w = (Ret (l, e), w') → l ≠ "succeeded".
Proof.
  unfold writeRetryOrDead. intros E. run_cases; done.
Qed.

Lemma classify_answer (h : host_env) (d : Deps W) job err dt w l e w' :
  classifyAndWrite h d job err dt w = (Ret (l, e), w') → l ≠ "succeeded".
Proof.
  unfold classifyAndWrite. intros E.
  destruct (errors_is err ErrSkippable); [|destruct (errors_is err ErrPermanent)];
    [| |by eapply err_write_answer]; run_cases; done.
Qed.

Lemma zoom_exec_ret {A} (q : stmt A) (w : W) : ∃ o w', zoom (exec q) w = (Ret o, w').
Proof. destruct (exec_head q (view w)) as (s1 & E & _). eexists _, _. by apply zoom_run. Qed.

Lemma defer_ret {A} (fin : M W unit) (m : M W A) w a w' :
  defer fin m w = (Ret a, w') → ∃ w1, m w = (Ret a, w1).
Proof.
  unfold defer. intros E. destruct (m w) as [r w1]. exists w1.
  destruct (fin w1) as [[[]|v] w2]; by simplify_eq.
Qed.

Lemma recover_ret {A} (g : string → M W A) (m : M W A) w :
  (∀ v w1, ∃ a w2, g v w1 = (Ret a, w2)) → ∃ a w', recover g m w = (Ret a, w').
Proof. intros Hg. unfold recover. destruct (m w) as [[a|v] w1]; [by exists a, w1|apply Hg]. Qed.

Lemma success_verified (h : host_env) (d : Deps W) source transport job w e w' :
  ProcessJob h d source transport job w = (Ret ("succeeded", e), w') →
  ∃ n sha w3, verified_transfer source transport job w w3 n sha ∧
    writeSuccess h d job n sha w3 = (Ret None, w').
Proof.
  unfold ProcessJob. intros E. unfold mbind at 1, M_bind at 1 in E.
  destruct (Open source (Src job) w) as [[[err|[body size]]|v] w1] eqn:Eo;
    [by apply classify_answer in E| |done].
  unfold mbind at 1, M_bind at 1 in E.
  destruct (Send transport (Dst job) (Counter body 0) size w1) as [[[sent cw]|v] w2] eqn:Es; [|done].
  destruct sent as [[err|[n sha]]|v].
  - by apply defer_ret in E as [w4 E%classify_answer].
  - destruct ((0 <=? size) && negb (n =? size)) eqn:C1;
      [by apply defer_ret in E as [w4 E%classify_answer]|].
    destruct ((size <? 0) && negb (counter_n cw =? n)) eqn:C2;
      [by apply defer_ret in E as [w4 E%classify_answer]|].
    unfold mbind at 1, M_bind at 1, recover in E.
    destruct (Close source (counter_r cw) w2) as [[[ce|]|v] w3] eqn:Ec.
    + by apply classify_answer in E.
    + exists n, sha, w3. split.
      * exists body, size, cw, w1, w2. split_and!; [done..| | |done].
        -- intros Hs. rewrite (proj2 (Z.leb_le 0 size)) in C1 by lia.
           simpl in C1. to_prop. done.
        -- intros Hs. rewrite (proj2 (Z.ltb_lt size 0)) in C2 by lia.
           simpl in C2. to_prop. done.
      * run_cases; done.
    + destruct (defer _ _ w3) as [[a|v'] w4] eqn:Ed; [|done].
      by apply defer_ret in Ed as [w5 [=]].
  - by apply defer_ret in E as [w4 [=]].
Qed.

Lemma verified_run (h : host_env) (d : Deps W) source transport job w w3 n sha :
  verified_transfer source transport job w w3 n sha →
  ProcessJob h d source transport job w
  = match writeSuccess h d job n sha w3 with
    | (Ret None, w') => (Ret ("succeeded", None), w')
    | (Ret (Some err), w') => (Ret (EmptyString, Some err), w')
    | (Panic v, w') => (Panic v, w')
    end.
Proof.
  intros (body & size & cw & w1 & w2 & Eo & Es & H0 & H1 & Ec). unfold ProcessJob.
  run_bind Eo. run_bind Es.
  destruct ((0 <=? size) && negb (n =? size)) eqn:C1; [to_prop; lia|].
  destruct ((size <? 0) && negb (counter_n cw =? n)) eqn:C2; [to_prop; lia|].
  rewrite (bind_run _ _ _ (Ret None) w3) by (unfold recover; by rewrite Ec).
  unfold mbind, M_bind. by destruct (writeSuccess h d job n sha w3) as [[[err|]|v] w4].
Qed.

(** ** Claims *)

(** C9: [ProcessJob] reports "succeeded" only for a verified transfer: the source
    opened, the transport stored the stream and returned its size and digest, the
    stored size equals the size the source reported (or, when that is unknown, the
    number of bytes read from it), the source closed cleanly, and the success write
    carrying that size and digest is what was committed. Conversely a verified
    transfer whose write goes through is reported "succeeded". *)
Theorem ProcessJob_success_iff_verified h (d : Deps W) source transport job w w' :
  (∃ e, ProcessJob h d source transport job w = (Ret ("succeeded", e), w')) ↔
  ∃ n sha w3, verified_transfer source transport job w w3 n sha ∧
    writeSuccess h d job n sha w3 = (Ret None, w').
Proof.
  split.
  - intros [e E]. by eapply success_verified.
  - intros (n & sha & w3 & Hv & Ew). exists None.
    rewrite (verified_run h d _ _ _ _ _ _ _ Hv). by rewrite Ew.
Qed.

(** A success write that returns no error while the lease is held recorded the size and
    the digest: the row succeeded, and its one new event holds them. *)
Lemma success_recorded h (d : Deps W) job n sha w w' row :
  script (view w) = [] → held (d_LockedBy d) job (tabs (view w)) row →
  writeSuccess h d job n sha w = (Ret None, w') →
  ∃ row', settled_as Succeeded (Attempts job) (next_run_at row) (now (env (view w))) row row' ∧
    tabs (view w')
    = push_event (now (env (view w))) (trace_id row) (ID job) EvSuccess
        (stored_object {["size" := JInt n; "sha256" := JStr sha; "duration_ms" := JInt (elapsed_ms h)]})
        (set_jobs (<[ID job := row']> (jobs (tabs (view w)))) (tabs (view w))).
Proof.
  intros Hs Hh E. rewrite (writeSuccess_run h _ job d n sha w row eq_refl Hs Hh) in E.
  unfold refusal in E. destruct (storable (verdict_detail h (VSuccess n sha))) eqn:Hd; [|done].
  injection E as <-. rewrite view_over.
  destruct (record_held h _ job (VSuccess n sha) _ row Hs Hh Hd)
    as (_ & st & a & nra & ev & row' & Hl & Hsa & Hre & Ht).
  inversion Hl; subst. simpl in Hre. subst nra. exists row'. split; [exact Hsa|exact Ht].
Qed.

(** A worker that lost its lease still reports success: the guarded write matches no
    row, which is no error, so the label is "succeeded" although no row and no event
    was written. *)
Theorem stale_success_reported h (d : Deps W) source transport job w w3 n sha :
  verified_transfer source transport job w w3 n sha → nul_free sha = true → script (view w3) = [] →
  (∀ row, jobs (tabs (view w3)) !! ID job = Some row → ¬ leased_by (d_LockedBy d) row) →
  ∃ w', ProcessJob h d source transport job w = (Ret ("succeeded", None), w') ∧
    tabs (view w') = tabs (view w3).
Proof.
  intros Hv Hsha Hs Hst. rewrite (verified_run h d _ _ _ _ _ _ _ Hv).
  destruct (exec_head (verdict_stmt h (d_LockedBy d) job (VSuccess n sha)) (view w3))
    as (s1 & E1 & _ & _ & _ & Ht).
  rewrite Hs, (verdict_miss _ _ _ _ _ _ (storable_success h n sha Hsha) Hst) in E1, Ht.
  cbn [hd fst snd verdict_stmt] in E1, Ht.
  unfold writeSuccess. rewrite (bind_run _ _ _ _ _ (zoom_run _ _ _ _ E1)).
  eexists. split; [reflexivity|]. by rewrite view_over.
Qed.

(** C10: What an outcome write stores is what the worker recorded: marshalled by Go and
    read by the database, a detail with text keys comes out as the same map, numbers as
    they were, texts with every byte that is no UTF-8 replaced by U+FFFD and otherwise
    unchanged; it is refused, with nothing written, exactly when one of its texts has a
    NUL byte. *)
Theorem outcome_detail_roundtrip i lb f ev dt e t r :
  (∀ k, k ∈ dom dt → utf8_valid k = true) → jobs t !! i = Some r → leased_by lb r →
  guarded_write i lb f ev dt e t =
    (if storable dt then
       (inr 1, push_event (now e) (trace_id r) i ev (BObj (stored <$> dt))
                 (set_jobs (<[i := f e r]> (jobs t)) t))
     else (inl json_refused, t)) ∧
  (storable dt = false ↔ ∃ k v, dt !! k = Some v ∧
     (nul_free k = false ∨ ∃ s, v = JStr s ∧ nul_free s = false)) ∧
  ∀ s, utf8_valid (clean s) = true ∧ (utf8_valid s = true → clean s = s).
Proof.
  intros Hk Hi Hg. split_and!.
  - destruct (storable dt) eqn:Hd; [|by apply guarded_write_refused].
    rewrite <- stored_object_text by done. by apply guarded_write_hit.
  - apply storable_false.
  - intros s. split; [apply utf8_valid_clean|apply clean_valid].
Qed.

(** Recording over a held lease: the first verdict settles the row, the rest find the
    lease gone. *)
Lemma record_settles h lb job v vs s r :
  script s = [] → held lb job (tabs s) r → storable (verdict_detail h v) = true →
  tabs (record h lb job (v :: vs) s) = tabs (record h lb job [v] s).
Proof.
  intros Hs Hh Hd. destruct (record_held h lb job v s r Hs Hh Hd)
    as (_ & st & a & nra & ev & r' & Hl & Hsa & _ & Ht).
  change (record h lb job (v :: vs) s) with (record h lb job vs (record h lb job [v] s)).
  apply record_stale. rewrite Ht. simpl. rewrite lookup_insert_eq.
  intros row [= <-] [Hle _]. rewrite (sa_status _ _ _ _ _ _ Hsa) in Hle. by destruct Hl.
Qed.

Lemma processOne_outcome h (r : Runner W) lb job w row :
  framed_runner r → legible_runner r → script (view w) = [] → held lb job (tabs (view w)) row →
  ∃ l st a nra ev dt row',
    label_means job l st a ev ∧ settled_as st a nra (now (env (view w))) row row' ∧
    reschedule h st a (now (env (view w))) (next_run_at row) nra ∧
    tabs (view (snd (processOne h r lb job w)))
    = push_event (now (env (view w))) (trace_id row) (ID job) ev dt
        (set_jobs (<[ID job := row']> (jobs (tabs (view w)))) (tabs (view w))).
Proof.
  intros Hr Lr Hs Hh. destruct (processOne_decides h lb job r w Hr Lr) as (v & vs & _ & Hd & ->).
  rewrite (record_settles _ _ _ _ _ _ row) by done.
  destruct (record_held h lb job v _ row Hs Hh Hd) as (_ & st & a & nra & ev & row' & ? & ? & ? & ?).
  by exists (verdict_label job v), st, a, nra, ev, (stored_object (verdict_detail h v)), row'.
Qed.

(** C7: the lease guard: a worker whose lease was swept, drained, settled or handed to
    another worker changes no table, whatever its source and transport do and
    whether or not they panic; no row, no event, no sequence. *)
Theorem processOne_stale_noop h (r : Runner W) lb job w :
  framed_runner r →
  (∀ row, jobs (tabs (view w)) !! ID job = Some row → status row ≠ Leased ∨ locked_by row ≠ Some lb) →
  tabs (view (snd (processOne h r lb job w))) = tabs (view w).
Proof.
  intros Hr Hst. destruct (processOne_wrote h lb job r Hr w) as (vs & _ & ->).
  apply record_stale. intros row Hrow [Hl Hb]. by destruct (Hst row Hrow).
Qed.

(** The outcome writes always return. *)
Lemma writeTerminal_ret (d : Deps W) job st ev dt b w : ∃ e w',
  writeTerminal d job st ev dt b w = (Ret e, w').
Proof.
  unfold writeTerminal, writeTerminalWithAttempts, mbind, M_bind.
  match goal with |- context [zoom (exec ?q) w] => destruct (zoom_exec_ret q w) as (o & w1 & ->) end.
  by eexists _, _.
Qed.

Lemma writeRetryOrDead_ret h lb job dt w : ∃ x w',
  writeRetryOrDead h (MkDeps lb None) job dt w = (Ret x, w').
Proof.
  unfold writeRetryOrDead, writeTerminalWithAttempts. simpl.
  destruct (MaxAttempts job <=? Attempts job + 1); unfold mbind, M_bind;
    match goal with |- context [zoom (exec ?q) w] =>
      destruct (zoom_exec_ret q w) as (o & w1 & ->) end; destruct o as [err|n]; simpl; eauto.
  destruct (n =? 0); eauto.
Qed.

Lemma processOne_ret h (r : Runner W) lb job w :
  (∀ f, r_OnFinish r = Some f → ∀ j x w0, ∃ w1, f j x w0 = (Ret tt, w1)) →
  ∃ w', processOne h r lb job w = (Ret tt, w').
Proof.
  intros Hf.
  assert (∀ x w0, ∃ w1, fire r job x w0 = (Ret tt, w1)) as Hfire.
  { intros x w0. unfold fire. destruct (r_OnFinish r) as [f|] eqn:E; [by apply (Hf f)|by exists w0]. }
  assert (∃ u w', processOne h r lb job w = (Ret u, w')) as ([] & w' & E); [|by exists w'].
  apply recover_ret. intros v w1.
  destruct (writeRetryOrDead_ret h lb job {["error" := JStr v; "stage" := JStr "panic"]} w1)
    as ([x e] & w2 & E2). run_bind E2.
  destruct (Hfire x w2) as [w3 E3]. by exists tt, w3.
Qed.

(** The worker loop survives any job: whatever panics inside the source, the
    transport or the retry callback, [processOne] returns, as long as the finish
    callback itself does not panic. *)
Theorem processOne_returns h (r : Runner W) lb job w :
  (∀ f, r_OnFinish r = Some f → ∀ j x w0, ∃ w1, f j x w0 = (Ret tt, w1)) →
  ∃ w', processOne h r lb job w = (Ret tt, w').
Proof. apply processOne_ret. Qed.

(** The action keeps [P] of the world, however it ends. *)
Definition maintains {A} (P : W → Prop) (m : M W A) : Prop := ∀ w, P w → P (snd (m w)).

(** [k] observes something the action leaves alone. *)
Definition keeps {A T} (k : W → T) (m : M W A) : Prop := ∀ w, k (snd (m w)) = k w.

Lemma keeps_maintains {A T} (k : W → T) (m : M W A) :
  keeps k m ↔ ∀ c, maintains (λ w, k w = c) m.
Proof. split; [intros Hk c w <-; apply Hk|]. intros Hm w. by apply (Hm (k w) w). Qed.

Lemma maintains_ret {A} P (a : A) : maintains P (mret a).
Proof. by intros w. Qed.

Lemma maintains_bind {A B} P (m : M W A) (f : A → M W B) :
  maintains P m → (∀ a, maintains P (f a)) → maintains P (m ≫= f).
Proof.
  intros Hm Hf w Hw. specialize (Hm w Hw). unfold mbind, M_bind.
  destruct (m w) as [[a|v] w']; simpl in *; [by apply Hf|done].
Qed.

Lemma maintains_framed {A} (Q : pg → Prop) (m : M W A) :
  framed m → maintains (λ w, Q (view w)) m.
Proof. intros Hm w Hw. by rewrite Hm. Qed.

Lemma maintains_defer {A} P (fin : M W unit) (m : M W A) :
  maintains P fin → maintains P m → maintains P (defer fin m).
Proof.
  intros Hf Hm w Hw. specialize (Hm w Hw). unfold defer. destruct (m w) as [x w1].
  specialize (Hf w1 Hm). by destruct (fin w1) as [[[]|v] w2].
Qed.

Lemma maintains_recover {A} P (g : string → M W A) (m : M W A) :
  maintains P m → (∀ v, maintains P (g v)) → maintains P (recover g m).
Proof.
  intros Hm Hg w Hw. specialize (Hm w Hw). unfold recover.
  destruct (m w) as [[a|v] w1]; [done|by apply Hg].
Qed.

Lemma maintains_exec {A} P (q : stmt A) :
  (∀ s w, P w → P (over s w)) → maintains P (zoom (exec q)).
Proof. intros Hk w Hw. unfold zoom. destruct (exec q (view w)) as [o s']. by apply Hk. Qed.

Lemma keeps_ret {A T} (k : W → T) (a : A) : keeps k (mret a : M W A).
Proof. by intros w. Qed.

Lemma keeps_bind {A B T} (k : W → T) (m : M W A) (f : A → M W B) :
  keeps k m → (∀ a, keeps k (f a)) → keeps k (m ≫= f).
Proof.
  intros Hm Hf. apply keeps_maintains. intros c.
  apply maintains_bind; [by apply keeps_maintains|]. intros a. by apply keeps_maintains.
Qed.

Lemma keeps_exec {A T} (k : W → T) (q : stmt A) :
  (∀ s w, k (over s w) = k w) → keeps k (zoom (exec q)).
Proof. intros Hk. apply keeps_maintains. intros c. apply maintains_exec. intros s w <-. apply Hk. Qed.

Lemma classify_maintains P h (d : Deps W) job err dt :
  (∀ s w, P w → P (over s w)) →
  (∀ f, d_OnRetry d = Some f → maintains P (f (stage_of dt))) →
  maintains P (classifyAndWrite h d job err dt).
Proof.
  intros Hk Hr.
  assert (∀ A (q : stmt A), maintains P (zoom (exec q))) as Hz by (intros; by apply maintains_exec).
  unfold classifyAndWrite, writeRetryOrDead, writeTerminal, writeTerminalWithAttempts.
  repeat case_match;
    repeat first [apply maintains_ret | apply Hz | by apply Hr | apply maintains_bind; intros];
    repeat case_match; repeat first [apply maintains_ret | apply maintains_bind; intros];
    repeat case_match; first [apply maintains_ret | by eapply Hr].
Qed.

Lemma classify_keeps {T} (k : W → T) h (d : Deps W) job err dt :
  (∀ s w, k (over s w) = k w) → (∀ f, d_OnRetry d = Some f → ∀ x, keeps k (f x)) →
  keeps k (classifyAndWrite h d job err dt).
Proof.
  intros Hk Hr. apply keeps_maintains. intros c. apply classify_maintains.
  - intros s w <-. apply Hk.
  - intros f Hf. by apply keeps_maintains, (Hr f).
Qed.

(** The stages [ProcessJob] names in the details of a failure. *)
Definition stages : list string := ["open"; "transport"; "verify"; "source_close"].

Lemma ProcessJob_maintains P h (d : Deps W) source transport job :
  (∀ s w, P w → P (over s w)) →
  (∀ f x, d_OnRetry d = Some f → x ∈ stages → maintains P (f x)) →
  (∀ p, maintains P (Open source p)) → (∀ b, maintains P (Close source b)) →
  (∀ R (HR : Reader R) dst (b : R) n, maintains P (Send transport dst b n)) →
  maintains P (ProcessJob h d source transport job).
Proof.
  intros Hk Hr Ho Hc Ht. unfold ProcessJob.
  assert (∀ e dt, stage_of dt ∈ stages → maintains P (classifyAndWrite h d job e dt)) as Hcl.
  { intros e dt Hdt. apply classify_maintains; [done|]. intros f Hf. by apply (Hr f). }
  assert (∀ b, maintains P (_ ← Close source b; mret tt)) as Hclose
    by (intros b; apply maintains_bind; [apply Hc|intros; apply maintains_ret]).
  apply maintains_bind; [apply Ho|]. intros [err|[body size]].
  { apply Hcl. unfold openErrDetails. destruct (errors_is err ErrSkippable); vm_compute; set_solver. }
  apply maintains_bind; [apply Ht|]. intros [[[err|[n sha]]|v] cw].
  - apply maintains_defer; [done|]. apply Hcl. vm_compute. set_solver.
  - destruct ((0 <=? size) && negb (n =? size)).
    { apply maintains_defer; [done|]. apply Hcl. vm_compute. set_solver. }
    destruct ((size <? 0) && negb (counter_n cw =? n)).
    { apply maintains_defer; [done|]. apply Hcl. vm_compute. set_solver. }
    apply maintains_bind.
    { apply maintains_recover; [apply Hc|]. intros v. apply maintains_defer; [apply Hclose|by intros w]. }
    intros [ce|]; [apply Hcl; vm_compute; set_solver|].
    apply maintains_bind; [|intros [e|]; apply maintains_ret].
    apply maintains_bind; [by apply maintains_exec|intros; apply maintains_ret].
  - apply maintains_defer; [apply Hclose|by intros w].
Qed.

Lemma ProcessJob_keeps {T} (k : W → T) h (d : Deps W) source transport job :
  (∀ s w, k (over s w) = k w) → (∀ f, d_OnRetry d = Some f → ∀ x, keeps k (f x)) →
  (∀ p, keeps k (Open source p)) → (∀ b, keeps k (Close source b)) →
  (∀ R (HR : Reader R) dst (b : R) n, keeps k (Send transport dst b n)) →
  keeps k (ProcessJob h d source transport job).
Proof.
  intros Hk Hr Ho Hc Ht. apply keeps_maintains. intros c. apply ProcessJob_maintains.
  - intros s w <-. apply Hk.
  - intros f x Hf _. by apply keeps_maintains, (Hr f).
  - intros p. by apply keeps_maintains.
  - intros b. by apply keeps_maintains.
  - intros R HR dst b n. by apply keeps_maintains.
Qed.

(** The labels [ProcessJob] answers with. *)
Lemma classify_label h (d : Deps W) job err dt w l e w' :
  classifyAndWrite h d job err dt w = (Ret (l, e), w') → l ∈ ["skipped"; "dead"; "fail"; EmptyString].
Proof.
  unfold classifyAndWrite, writeRetryOrDead. intros E.
  repeat case_match; run_cases; set_solver.
Qed.

Lemma writeRetryOrDead_label h (d : Deps W) job dt w l e w' :
  writeRetryOrDead h d job dt w = (Ret (l, e), w') → l ∈ ["skipped"; "dead"; "fail"; EmptyString].
Proof. unfold writeRetryOrDead. intros E. repeat case_match; run_cases; set_solver. Qed.

Lemma ProcessJob_label h (d : Deps W) source transport job w l e w' :
  ProcessJob h d source transport job w = (Ret (l, e), w') →
  l ∈ ["succeeded"; "skipped"; "dead"; "fail"; EmptyString].
Proof.
  assert (∀ err dt w0 w1, classifyAndWrite h d job err dt w0 = (Ret (l, e), w1) →
    l ∈ ["succeeded"; "skipped"; "dead"; "fail"; EmptyString]) as Hcl
    by (intros err dt w0 w1 E%classify_label; set_solver).
  unfold ProcessJob. intros E. unfold mbind at 1, M_bind at 1 in E.
  destruct (Open source (Src job) w) as [[[err|[body size]]|v] w1]; [by eapply Hcl| |done].
  unfold mbind at 1, M_bind at 1 in E.
  destruct (Send transport (Dst job) (Counter body 0) size w1) as [[[sent cw]|v] w2]; [|done].
  destruct sent as [[err|[n sha]]|v]; [by apply defer_ret in E as [w4 E%Hcl]| |by apply defer_ret in E as [w4 [=]]].
  destruct ((0 <=? size) && negb (n =? size)); [by apply defer_ret in E as [w4 E%Hcl]|].
  destruct ((size <? 0) && negb (counter_n cw =? n)); [by apply defer_ret in E as [w4 E%Hcl]|].
  unfold mbind at 1, M_bind at 1 in E. destruct (recover _ _ w2) as [[[ce|]|v] w3]; [by eapply Hcl| |done].
  unfold writeSuccess in E. run_cases; set_solver.
Qed.

(** C38: no leak and no double close: when closing does not panic, [ProcessJob] closes the
    body of a source it opened exactly once on every path (success, send error, size
    mismatch, close error, a refused outcome write, a panicking transport or retry
    callback) and closes nothing when the open failed or panicked. [k] counts the closes;
    only [Close] changes it. *)
Theorem ProcessJob_closes_body_once h (d : Deps W) source transport job (k : W → Z) w :
  (∀ s w0, k (over s w0) = k w0) →
  (∀ f, d_OnRetry d = Some f → ∀ x, keeps k (f x)) →
  (∀ p, keeps k (Open source p)) →
  (∀ R (HR : Reader R) dst (b : R) n, keeps k (Send transport dst b n)) →
  (∀ b w0, ∃ x w1, Close source b w0 = (Ret x, w1) ∧ k w1 = k w0 + 1) →
  k (snd (ProcessJob h d source transport job w))
  = k w + match Open source (Src job) w with (Ret (inr _), _) => 1 | _ => 0 end.
Proof.
  intros Hk Hr Ho Ht Hc.
  assert (∀ e dt, keeps k (classifyAndWrite h d job e dt)) as Hcl by (intros; by apply classify_keeps).
  assert (∀ A b (m : M W A), keeps k m → ∀ w0,
            k (snd (defer (_ ← Close source b; mret tt) m w0)) = k w0 + 1) as Hdef.
  { intros A b m Hm w0. specialize (Hm w0). unfold defer. destruct (m w0) as [r w1]; simpl in *.
    destruct (Hc b w1) as (x & w2 & E & E2). rewrite (bind_run _ _ _ _ _ E). simpl. lia. }
  unfold ProcessJob. specialize (Ho (Src job) w).
  destruct (Open source (Src job) w) as [[[err|[body size]]|v] w1] eqn:Eo; simpl in Ho;
    rewrite (bind_run _ _ _ _ _ Eo); [rewrite Hcl; lia| |simpl; lia].
  assert (∃ x w2, Send transport (Dst job) (Counter body 0) size w1 = (Ret x, w2))
    as ([sent cw] & w2 & Es)
    by (unfold Send; destruct (Send_fn transport _ _ _ _) as [x w2]; by exists x, w2).
  specialize (Ht _ _ (Dst job) (Counter body 0) size w1). rewrite Es in Ht. simpl in Ht.
  rewrite (bind_run _ _ _ _ _ Es). destruct sent as [[err|[n sha]]|v].
  - rewrite Hdef by done. lia.
  - destruct ((0 <=? size) && negb (n =? size)); [rewrite Hdef by done; lia|].
    destruct ((size <? 0) && negb (counter_n cw =? n)); [rewrite Hdef by done; lia|].
    destruct (Hc (counter_r cw) w2) as (ce & w3 & Ec & Hk3).
    rewrite (bind_run _ _ _ (Ret ce) w3) by (unfold recover; by rewrite Ec).
    destruct ce as [ce|]; [rewrite Hcl; lia|].
    assert (keeps k (writeSuccess h d job n sha)) as Hws.
    { apply keeps_bind; [|intros; apply keeps_ret]. intros w4. unfold zoom.
      destruct (exec _ (view w4)) as [o s']. apply Hk. }
    rewrite (keeps_bind k _ _ Hws) by (intros [e|]; apply keeps_ret). lia.
  - rewrite Hdef by done. lia.
Qed.

(** [drainLease] hands back exactly the rows this worker holds: each returns to
    pending with its attempts and schedule unchanged and the lock cleared; every
    other row, the events and the sequences are untouched. A lost request changes
    nothing; the call always returns. *)
Theorem drainLease_spec lb (w : W) : ∃ w',
  drainLease lb w = (Ret tt, w') ∧ tx (view w') = tx (view w) ∧
  tabs (view w') = match hd FOk (script (view w)) with
    | FLost _ => tabs (view w)
    | _ => set_jobs ((λ r, if lease_guard lb r
                           then settle_row Pending (attempts r) (next_run_at r) (now (env (view w))) r
                           else r) <$> jobs (tabs (view w))) (tabs (view w))
    end.
Proof.
  destruct (exec_head (drain_stmt lb) (view w)) as (s1 & E & _ & Hx & _ & Ht).
  unfold drainLease. rewrite (bind_run _ _ _ _ _ (zoom_run _ _ _ _ E)). eexists. split; [done|].
  rewrite view_over. split; [done|]. rewrite Ht. by destruct (hd FOk (script (view w))).
Qed.

End Verified.

(** ** Witnesses *)

Lemma LeaseJob_spec_witness : ∃ o s', LeaseJob sample_worker sample_queued = (Ret o, s') ∧
  o = inr (Some sample_job).
Proof.
  destruct (LeaseJob_spec sample_worker sample_queued sample_queued_wf) as (o & s' & E & _).
  exists o, s'. split; [exact E|].
  assert (fst (LeaseJob sample_worker sample_queued) = Ret (inr (Some sample_job))) as Ef
    by (vm_compute; reflexivity).
  rewrite E in Ef. by simplify_eq/=.
Defined.

Lemma toy_held : held sample_worker sample_job (tabs (view toy_world))
  (lease_row sample_worker 1000 sample_row).
Proof. repeat split; vm_compute; reflexivity. Qed.

Lemma toy_deps_framed : framed_deps sample_worker toy_deps.
Proof. by split. Qed.

Lemma outcome_detail_roundtrip_witness :
  fst (guarded_write 1 sample_worker (λ _ r, r) EvFail
    {["error" := JStr (String "255"%char "x"); "stage" := JStr "open"]} sample_env (tabs sample_leased)) = inr 1 ∧
  clean (String "255"%char "x") = String "239"%char (String "191"%char (String "189"%char "x")).
Proof.
  split; [|vm_compute; reflexivity].
  destruct (outcome_detail_roundtrip 1 sample_worker (λ _ r, r) EvFail
    {["error" := JStr (String "255"%char "x"); "stage" := JStr "open"]} sample_env (tabs sample_leased)
    (lease_row sample_worker 1000 sample_row)) as (E & _ & _).
  - intros k Hk. assert (k = "error" ∨ k = "stage") as [->| ->] by set_solver; vm_compute; reflexivity.
  - vm_compute. reflexivity.
  - by apply (bool_decide_unpack _); vm_compute.
  - rewrite E. vm_compute. reflexivity.
Defined.

Lemma processOne_stale_noop_witness :
  tabs (toy_pg (snd (processOne toy_host toy_runner "pod-w1" sample_job toy_world)))
  = tabs sample_leased.
Proof.
  apply (processOne_stale_noop toy_host toy_runner "pod-w1" sample_job toy_world toy_runner_framed).
  intros row Hrow.
  assert (jobs (tabs (view toy_world)) !! ID sample_job
    = Some (lease_row sample_worker 1000 sample_row)) as Hr by (vm_compute; reflexivity).
  rewrite Hr in Hrow. injection Hrow as <-. right. vm_compute. discriminate.
Defined.

Lemma processOne_returns_witness : ∃ w',
  processOne toy_host toy_runner sample_worker sample_job toy_world = (Ret tt, w').
Proof.
  apply (processOne_returns toy_host toy_runner sample_worker sample_job toy_world).
  intros f Hf. simpl in Hf. discriminate Hf.
Defined.

Lemma ProcessJob_closes_body_once_witness :
  toy_closes (snd (ProcessJob toy_host toy_deps (toy_source 9) toy_transport sample_job toy_world)) = 1.
Proof.
  rewrite (ProcessJob_closes_body_once toy_host toy_deps (toy_source 9) toy_transport sample_job
    toy_closes toy_world); [reflexivity|reflexivity|discriminate|done| |].
  - intros R HR dst b n w. unfold Send. simpl. by destruct (read 64 b) as [[p e] b'].
  - intros b w0. eexists _, _. split; reflexivity.
Defined.
