(* ===== verification/Outcomes.v ===== *)
(** * What a worker makes of a job

    The verdict a call of [ProcessJob] or [processOne] comes to is determined by what
    the factories, the source and the transport did ([met], [met_panic], [job_met], with
    the detail spelled out); the functions are shown to record exactly that verdict, in
    one statement, and to report its label. *)

From Stdlib Require Import Init.Byte.
From S2P Require Import Prelude GoLang GoFloat ErrDetail GoUtf8 GoJson Store Transfer Worker Invariant Spec.
From S2P Require Import WorkerFacts Jobs Samples WorkerProps.

Local Open Scope Z_scope.

(** ** Specifications *)

(** The sizes agree: with the size the source reported or, when it reported none, with
    the number of bytes read from it. *)
Definition sizes_agree (size n read : Z) : Prop := (0 <= size → n = size) ∧ (size < 0 → n = read).

Section Met.
Context {W : Type} (source : Source W) (transport : Transport W) (job : Job).

(** The body was opened and handed to the transport, which answered [x]. *)
Definition sent (w : W) (size : Z) (x : res (error + Z * string)) (cw : counter (Body source)) (w2 : W) : Prop :=
  ∃ body w1, Open source (Src job) w = (Ret (inr (body, size)), w1) ∧
    Send transport (Dst job) (Counter body 0) size w1 = (Ret (x, cw), w2).

(** What a run of the job met, and the verdict that stands for it, with the detail its
    event holds. *)
Inductive met (w : W) : verdict → Prop :=
| met_not_opened e w1 :
    Open source (Src job) w = (Ret (inl e), w1) →
    met w (error_verdict e
      (let d := {["error" := JStr (sanitizeErrMsg (error_text e)); "stage" := JStr "open"]} in
       if errors_is e ErrSkippable then <["reason" := JStr "source_not_found"]> d else d))
| met_not_sent size e cw w2 :
    sent w size (Ret (inl e)) cw w2 →
    met w (error_verdict e
      {["error" := JStr (sanitizeErrMsg (error_text e)); "stage" := JStr "transport"]})
| met_wrong_size size n sha cw w2 :
    sent w size (Ret (inr (n, sha))) cw w2 → 0 <= size → n ≠ size →
    met w (VDead {["reason" := JStr "size_mismatch"; "stage" := JStr "verify";
                   "src_size" := JInt size; "written" := JInt n]})
| met_wrong_count size n sha cw w2 :
    sent w size (Ret (inr (n, sha))) cw w2 → size < 0 → n ≠ counter_n cw →
    met w (VDead {["reason" := JStr "size_mismatch_unknown_src"; "stage" := JStr "verify";
                   "read" := JInt (counter_n cw); "written" := JInt n]})
| met_not_closed size n sha cw w2 e w3 :
    sent w size (Ret (inr (n, sha))) cw w2 → sizes_agree size n (counter_n cw) →
    Close source (counter_r cw) w2 = (Ret (Some e), w3) →
    met w (error_verdict (wrapf "source close after send: " e)
      {["error" := JStr (error_text e); "stage" := JStr "source_close"]})
| met_verified size n sha cw w2 w3 :
    sent w size (Ret (inr (n, sha))) cw w2 → sizes_agree size n (counter_n cw) →
    Close source (counter_r cw) w2 = (Ret None, w3) →
    met w (VSuccess n sha).

(** The deferred close of the body. *)
Definition closing (cw : counter (Body source)) : M W unit :=
  (_ ← Close source (counter_r cw); mret tt).

(** What a panic with [v] becomes when the deferred close runs: it may panic in its turn. *)
Definition unwound (cw : counter (Body source)) (v : string) (w : W) : string :=
  match fst (closing cw w) with Ret _ => v | Panic p => p end.

(** A panic before there was a verdict: of the open, of the send, or of the close of a
    verified transfer. *)
Inductive met_panic (w : W) : string → Prop :=
| met_panic_open p w1 :
    Open source (Src job) w = (Panic p, w1) → met_panic w p
| met_panic_send size v cw w2 :
    sent w size (Panic v) cw w2 → met_panic w (unwound cw v w2)
| met_panic_close size n sha cw w2 v w3 :
    sent w size (Ret (inr (n, sha))) cw w2 → sizes_agree size n (counter_n cw) →
    Close source (counter_r cw) w2 = (Panic v, w3) → met_panic w (unwound cw v w3).

End Met.

(** What [processOne] met: a missing source or transport, what the job met, or a panic. *)
Inductive job_met {W} (r : Runner W) (job : Job) (w : W) : verdict → Prop :=
| job_no_source e :
    r_SourceFor r (SrcProtocol job) = inl e →
    job_met r job w (VDead {["error" := JStr (error_text e); "stage" := JStr "source-factory"]})
| job_no_transport source e :
    r_SourceFor r (SrcProtocol job) = inr source → r_TransportFor r (DstProtocol job) = inl e →
    job_met r job w (VDead {["error" := JStr (error_text e); "stage" := JStr "transport-factory"]})
| job_ran source transport v :
    r_SourceFor r (SrcProtocol job) = inr source → r_TransportFor r (DstProtocol job) = inr transport →
    met source transport job w v → job_met r job w v
| job_panicked source transport p :
    r_SourceFor r (SrcProtocol job) = inr source → r_TransportFor r (DstProtocol job) = inr transport →
    met_panic source transport job w p →
    job_met r job w (VRetry {["error" := JStr p; "stage" := JStr "panic"]}).

(** ** One verdict per run *)

Lemma sizes_agree_tests size n c :
  (0 <=? size) && negb (n =? size) = false → (size <? 0) && negb (c =? n) = false →
  sizes_agree size n c.
Proof.
  intros H1 H2. split; intros Hs.
  - rewrite (proj2 (Z.leb_le 0 size)) in H1 by lia. simpl in H1. by to_prop.
  - rewrite (proj2 (Z.ltb_lt size 0)) in H2 by lia. simpl in H2. by to_prop.
Qed.

Section Concludes.
Context {W : Type} `{Lens W pg}.
Context (h : host_env) (lb : string) (job : Job).

(** [m], run while the worker holds its lease and the connection holds: it records one
    verdict that [P] allows and answers with its label, or panics, with a value that [Q]
    allows, before it records any. It panics after its write only when not [calm]. *)
Definition concludes (calm : Prop) (P : W → verdict → Prop) (Q : W → string → Prop)
    (m : M W (string * option error)) : Prop := ∀ w r,
  script (view w) = [] → held lb job (tabs (view w)) r →
  (∃ v, P w v ∧ view (snd (m w)) = record h lb job [v] (view w) ∧
     match fst (m w) with Ret x => x = answer_of h job v | Panic _ => ¬ calm end)
  ∨ (∃ p, Q w p ∧ view (snd (m w)) = view w ∧ fst (m w) = Panic p).

Lemma concludes_mono calm (P P' : W → verdict → Prop) (Q Q' : W → string → Prop) m :
  (∀ w v, P w v → P' w v) → (∀ w p, Q w p → Q' w p) →
  concludes calm P Q m → concludes calm P' Q' m.
Proof. intros HP HQ Hm w r Hs Hh. destruct (Hm w r Hs Hh) as [(v & ? & ?)|(p & ? & ?)]; naive_solver. Qed.

Lemma concludes_bind {A} calm (P : W → verdict → Prop) (Q : W → string → Prop) (m : M W A) k :
  framed m → (∀ w p w1, m w = (Panic p, w1) → Q w p) →
  (∀ a, concludes calm (λ w1 v, ∀ w, m w = (Ret a, w1) → P w v)
                       (λ w1 p, ∀ w, m w = (Ret a, w1) → Q w p) (k a)) →
  concludes calm P Q (m ≫= k).
Proof.
  intros Hm Hp Hk w r Hs Hh. specialize (Hm w). unfold mbind, M_bind.
  destruct (m w) as [[a|p] w1] eqn:Em; simpl in *; [|right; by eauto].
  rewrite <- Hm in Hs, Hh. destruct (Hk a w1 r Hs Hh) as [(v & HP & Hv & Hx)|(p & HQ & Hv & Hx)];
    rewrite Hm in Hv; [left; exists v|right; exists p]; auto.
Qed.

Lemma concludes_defer calm (P : W → verdict → Prop) (Q : W → string → Prop) fin m :
  framed fin → (calm → ∀ w, ∃ w', fin w = (Ret tt, w')) →
  concludes calm P (λ _ _, False) m → concludes calm P Q (defer fin m).
Proof.
  intros Hf Hc Hm w r Hs Hh. left. destruct (Hm w r Hs Hh) as [(v & HP & Hv & Hx)|(p & [] & _)].
  exists v. split; [done|]. unfold defer. destruct (m w) as [x w1]. specialize (Hf w1). simpl in *.
  destruct (fin w1) as [[[]|p] w2] eqn:Ef; simpl in *; rewrite Hf; (split; [done|]); [done|].
  intros Hcalm. destruct (Hc Hcalm w1) as [w' E]. by rewrite Ef in E.
Qed.

Lemma concludes_panics calm (P : W → verdict → Prop) (Q : W → string → Prop) m :
  framed m → (∀ w, ∃ p w', m w = (Panic p, w') ∧ Q w p) → concludes calm P Q m.
Proof.
  intros Hm Hp w r _ _. right. specialize (Hm w). destruct (Hp w) as (p & w' & E & HQ).
  exists p. by rewrite E in *.
Qed.

(** The callback of the retries returns. *)
Definition retry_returns (d : Deps W) : Prop :=
  ∀ f, d_OnRetry d = Some f → ∀ x w, ∃ w', f x w = (Ret tt, w').

Lemma writeRetryOrDead_concludes calm (d : Deps W) dt :
  framed_deps lb d → (calm → retry_returns d) →
  concludes calm (λ _ v, v = VRetry dt) (λ _ _, False) (writeRetryOrDead h d job dt).
Proof.
  intros Hd Hc w r Hs Hh. left. exists (VRetry dt). split; [done|].
  split; [by apply writeRetryOrDead_wrote|]. destruct Hd as [Hd _].
  unfold answer_of. cbn [verdict_detail].
  pose proof (zoom_verdict h lb job (VRetry dt) w r Hs Hh) as Ez. cbn [verdict_detail] in Ez.
  remember (record h lb job [VRetry dt] (view w)) as s1 eqn:Es1. clear Es1.
  unfold verdict_stmt in Ez. revert Ez. unfold verdict_label.
  unfold writeRetryOrDead, writeTerminalWithAttempts. rewrite Hd.
  destruct (MaxAttempts job <=? Attempts job + 1) eqn:Hm; intros Ez.
  - rewrite (bind_run _ _ _ (Ret (refusal dt)) (over s1 w))
      by (run_bind Ez; unfold refusal; by destruct (storable dt)).
    unfold refusal. by destruct (storable dt).
  - rewrite (bind_run _ _ _ _ _ Ez). destruct (storable dt); simpl; [|done].
    unfold mbind, M_bind.
    destruct (d_OnRetry d) as [f|] eqn:Ef; [|done].
    destruct (f (stage_of dt) (over s1 w)) as [[u|v] w2] eqn:E2; simpl; [done|].
    intros Hcalm. destruct (Hc Hcalm f Ef (stage_of dt) (over s1 w)) as [w' E]. by rewrite E2 in E.
Qed.

Lemma classifyAndWrite_concludes calm (d : Deps W) err dt :
  framed_deps lb d → (calm → retry_returns d) →
  concludes calm (λ _ v, v = error_verdict err dt) (λ _ _, False) (classifyAndWrite h d job err dt).
Proof.
  intros Hd Hc. unfold classifyAndWrite, error_verdict.
  destruct (errors_is err ErrSkippable); [|destruct (errors_is err ErrPermanent)];
    [| |by apply writeRetryOrDead_concludes]; intros w r Hs Hh; left; eexists; (split; [reflexivity|]).
  - rewrite (bind_run _ _ _ _ _ (writeTerminal_skip_run h lb job d dt w r (proj1 Hd) Hs Hh)).
    unfold answer_of, refusal. cbn [verdict_detail]. destruct (storable dt); simpl; by rewrite view_over.
  - rewrite (bind_run _ _ _ _ _ (writeTerminal_dead_run h lb job d dt w r (proj1 Hd) Hs Hh)).
    unfold answer_of, refusal. cbn [verdict_detail]. destruct (storable dt); simpl; by rewrite view_over.
Qed.

Lemma writeSuccess_concludes calm (d : Deps W) n sha :
  framed_deps lb d →
  concludes calm (λ _ v, v = VSuccess n sha) (λ _ _, False)
    (e ← writeSuccess h d job n sha;
     match e with Some err => mret (EmptyString, Some err) | None => mret ("succeeded", None) end).
Proof.
  intros Hd w r Hs Hh. left. eexists. split; [reflexivity|].
  rewrite (bind_run _ _ _ _ _ (writeSuccess_run h lb job d n sha w r (proj1 Hd) Hs Hh)).
  unfold answer_of, refusal. destruct (storable _); simpl; by rewrite view_over.
Qed.

(** Neither closing the body nor the callback of the retries panics. *)
Definition calm_job (d : Deps W) (source : Source W) : Prop :=
  (∀ b w, ∃ x w', Close source b w = (Ret x, w')) ∧ retry_returns d.

Lemma unwinds {A} (source : Source W) cw v w : ∃ w',
  defer (closing source cw) (panic v : M W A) w = (Panic (unwound source cw v w), w').
Proof.
  unfold defer, unwound, panic. destruct (closing source cw w) as [[[]|p] w1]; by eexists.
Qed.

(** The close of a verified transfer. *)
Lemma closed_run (source : Source W) cw w a w1 :
  recover (λ v, defer (closing source cw) (panic v)) (Close source (counter_r cw)) w = (Ret a, w1) →
  Close source (counter_r cw) w = (Ret a, w1).
Proof.
  unfold recover. destruct (Close source (counter_r cw) w) as [[x|v] w2]; [done|].
  by intros [w3 [=]]%defer_ret.
Qed.

Lemma ProcessJob_concludes (d : Deps W) source transport :
  framed_deps lb d → framed_source source → framed_transport transport →
  concludes (calm_job d source) (met source transport job) (met_panic source transport job)
    (ProcessJob h d source transport job).
Proof.
  intros Hd [Ho Hc] Ht. unfold ProcessJob.
  set (calm := calm_job d source).
  assert (∀ cw, framed (closing source cw)) as Hclose
    by (intros cw; apply framed_bind; [apply Hc|intros; apply framed_ret]).
  assert (∀ cw, calm → ∀ w, ∃ w', closing source cw w = (Ret tt, w')) as Hcalm.
  { intros cw [Hb _] w. destruct (Hb (counter_r cw) w) as (x & w' & E). exists w'.
    unfold closing. by rewrite (bind_run _ _ _ _ _ E). }
  assert (∀ e dt, concludes calm (λ _ v, v = error_verdict e dt) (λ _ _, False)
                    (classifyAndWrite h d job e dt)) as Hcl
    by (intros; apply classifyAndWrite_concludes; [done|by intros [_ ?]]).
  apply concludes_bind; [apply Ho|intros; by eapply met_panic_open|]. intros [err|[body size]].
  { eapply concludes_mono; [| |apply Hcl]; [|done]. intros w1 v -> w E. by eapply met_not_opened. }
  apply concludes_bind; [apply Ht|intros w p w1 E; unfold Send in E; by destruct (Send_fn _ _ _ _ _)|].
  intros [x cw].
  assert (∀ w1 w2, Send transport (Dst job) (Counter body 0) size w1 = (Ret (x, cw), w2) →
     ∀ w, Open source (Src job) w = (Ret (inr (body, size)), w1) →
     sent source transport job w size x cw w2) as Hsent by (intros w1 w2 ? w ?; by exists body, w1).
  destruct x as [[err|[n sha]]|v].
  - apply concludes_defer; [apply (Hclose cw)|apply (Hcalm cw)|]. eapply concludes_mono; [| |apply Hcl]; [|done].
    intros w2 v -> w1 Es w Eo. eapply met_not_sent. eauto.
  - destruct ((0 <=? size) && negb (n =? size)) eqn:C1.
    { apply concludes_defer; [apply (Hclose cw)|apply (Hcalm cw)|]. eapply concludes_mono; [| |apply Hcl]; [|done].
      to_prop. intros w2 v -> w1 Es w Eo. by eapply met_wrong_size; eauto. }
    destruct ((size <? 0) && negb (counter_n cw =? n)) eqn:C2.
    { apply concludes_defer; [apply (Hclose cw)|apply (Hcalm cw)|]. eapply concludes_mono; [| |apply Hcl]; [|done].
      to_prop. intros w2 v -> w1 Es w Eo. by eapply met_wrong_count; eauto. }
    pose proof (sizes_agree_tests _ _ _ C1 C2) as Ha.
    apply concludes_bind.
    { apply framed_recover; [apply Hc|]. intros v. apply framed_defer; [apply Hclose|apply panic_framed]. }
    { intros w2 p w4 E w1 Es w Eo. unfold recover in E.
      destruct (Close source (counter_r cw) w2) as [[?|v] w3] eqn:Ec; [done|].
      destruct (unwinds (A := option error) source cw v w3) as [w5 Eu]. unfold closing in Eu. rewrite Eu in E. simplify_eq.
      by eapply met_panic_close; eauto. }
    intros [ce|]; (eapply concludes_mono; [| |first [apply Hcl|by apply writeSuccess_concludes]]; [|done]);
      intros w3 v -> w2 Ec%closed_run w1 Es w Eo; [eapply met_not_closed|eapply met_verified]; eauto.
  - apply concludes_panics.
    { apply framed_defer; [apply Hclose|apply panic_framed]. }
    intros w2. destruct (unwinds (A := string * option error) source cw v w2) as [w3 Eu].
    eexists _, w3. split; [exact Eu|]. intros w1 Es w Eo. eapply met_panic_send; eauto.
Qed.

End Concludes.

(** What a run met is determined by the world it started in. *)
Lemma met_functional {W} (source : Source W) transport job w v v' :
  met source transport job w v → met source transport job w v' → v = v'.
Proof.
  intros H1 H2.
  destruct H1 as [e1 ? O1|? ? ? ? (?&?&O1&S1)|? ? ? ? ? (?&?&O1&S1) ? ?|? ? ? ? ? (?&?&O1&S1) ? ?
    |? ? ? ? ? ? ? (?&?&O1&S1) [? ?] C1|? ? ? ? ? ? (?&?&O1&S1) [? ?] C1];
  destruct H2 as [e2 ? O2|? ? ? ? (?&?&O2&S2)|? ? ? ? ? (?&?&O2&S2) ? ?|? ? ? ? ? (?&?&O2&S2) ? ?
    |? ? ? ? ? ? ? (?&?&O2&S2) [? ?] C2|? ? ? ? ? ? (?&?&O2&S2) [? ?] C2];
  rewrite O1 in O2; simplify_eq; try done; rewrite S1 in S2; simplify_eq; try done; try lia;
  rewrite C1 in C2; by simplify_eq.
Qed.

Lemma met_panic_functional {W} (source : Source W) transport job w p p' :
  met_panic source transport job w p → met_panic source transport job w p' → p = p'.
Proof.
  intros H1 H2.
  destruct H1 as [? ? O1|? ? ? ? (?&?&O1&S1)|? ? ? ? ? ? ? (?&?&O1&S1) _ C1];
  destruct H2 as [? ? O2|? ? ? ? (?&?&O2&S2)|? ? ? ? ? ? ? (?&?&O2&S2) _ C2];
  rewrite O1 in O2; simplify_eq; try done; rewrite S1 in S2; simplify_eq; try done;
  rewrite C1 in C2; by simplify_eq.
Qed.

Lemma met_or_panic {W} (source : Source W) transport job w v p :
  met source transport job w v → met_panic source transport job w p → False.
Proof.
  intros H1 H2.
  destruct H1 as [? ? O1|? ? ? ? (?&?&O1&S1)|? ? ? ? ? (?&?&O1&S1) ? ?|? ? ? ? ? (?&?&O1&S1) ? ?
    |? ? ? ? ? ? ? (?&?&O1&S1) [? ?] C1|? ? ? ? ? ? (?&?&O1&S1) [? ?] C1];
  destruct H2 as [? ? O2|? ? ? ? (?&?&O2&S2)|? ? ? ? ? ? ? (?&?&O2&S2) [? ?] C2];
  rewrite O1 in O2; simplify_eq; try done; rewrite S1 in S2; simplify_eq; try done; try lia;
  rewrite C1 in C2; by simplify_eq.
Qed.

Lemma job_met_functional {W} (r : Runner W) job w v v' :
  job_met r job w v → job_met r job w v' → v = v'.
Proof.
  intros H1 H2.
  destruct H1 as [? S1|? ? S1 T1|? ? ? S1 T1 M1|? ? ? S1 T1 M1];
  destruct H2 as [? S2|? ? S2 T2|? ? ? S2 T2 M2|? ? ? S2 T2 M2];
  rewrite S1 in S2; simplify_eq; try done; rewrite T1 in T2; simplify_eq; try done.
  - by eapply met_functional.
  - by destruct (met_or_panic _ _ _ _ _ _ M1 M2).
  - by destruct (met_or_panic _ _ _ _ _ _ M2 M1).
  - by rewrite (met_panic_functional _ _ _ _ _ _ M1 M2).
Qed.

(** The keys of the details are the worker's own: what a database may refuse is a text. *)
Lemma met_refused {W} h (source : Source W) transport job w v :
  met source transport job w v →
  storable (verdict_detail h v) = false ↔
  ∃ k s, verdict_detail h v !! k = Some (JStr s) ∧ nul_free s = false.
Proof.
  intros Hm.
  assert (map_Forall (λ k _, nul_free k = true) (verdict_detail h v)) as Hk.
  { destruct Hm; unfold error_verdict; repeat case_match; simpl;
      repeat (apply map_Forall_insert_2; [done|]); apply map_Forall_empty. }
  rewrite storable_false. split.
  - intros (k & x & Hx & [Hn|(s & -> & Hs)]); [|by exists k, s].
    by rewrite (Hk k x Hx) in Hn.
  - intros (k & s & Hx & Hs). exists k, (JStr s). eauto.
Qed.

(** A source and a transport that report no NUL byte lead to details without one. *)
Lemma met_storable {W} h (source : Source W) transport job w v :
  legible_source source → legible_transport transport → met source transport job w v →
  storable (verdict_detail h v) = true.
Proof.
  intros [Lo Lc] Lt Hm.
  assert (∀ size x cw w2, sent source transport job w size x cw w2 →
    match x with Ret (inl e) => legible_error e | Ret (inr (_, sha)) => nul_free sha | Panic v => nul_free v end = true)
    as Ls.
  { intros size x cw w2 (body & w1 & _ & E). specialize (Lt _ _ (Dst job) (Counter body 0) size w1).
    by rewrite E in Lt. }
  destruct Hm as [e w1 E|size e cw w2 Hs|size n sha cw w2 _ _ _|size n sha cw w2 _ _ _
    |size n sha cw w2 e w3 _ _ Ec|size n sha cw w2 w3 Hs _ _].
  - apply storable_error_verdict. specialize (Lo (Src job) w). rewrite E in Lo. by apply (storable_open e).
  - apply storable_error_verdict. by apply (storable_transport e), (Ls _ _ _ _ Hs).
  - by apply storable_sizes.
  - by apply storable_sizes.
  - apply storable_error_verdict. specialize (Lc (counter_r cw) w2). rewrite Ec in Lc. by apply storable_report.
  - by apply storable_success, (Ls _ _ _ _ Hs).
Qed.

Lemma met_panic_legible {W} (source : Source W) transport job w p :
  legible_source source → legible_transport transport → met_panic source transport job w p →
  nul_free p = true.
Proof.
  intros [Lo Lc] Lt Hm.
  assert (∀ cw v w1, nul_free v = true → nul_free (unwound source cw v w1) = true) as Hu.
  { intros cw v w1 Hv. unfold unwound, closing. pose proof (says_close _ tt (Lc (counter_r cw)) w1) as Hs.
    by destruct ((_ ← Close source (counter_r cw); mret tt) w1) as [[[]|p'] w2]. }
  destruct Hm as [p w1 E|size v cw w2 (body & w1 & _ & E)|size n sha cw w2 v w3 _ _ E].
  - specialize (Lo (Src job) w). by rewrite E in Lo.
  - apply Hu. specialize (Lt _ _ (Dst job) (Counter body 0) size w1). by rewrite E in Lt.
  - apply Hu. specialize (Lc (counter_r cw) w2). by rewrite E in Lc.
Qed.

(** ** The whole job *)

Section Finish.
Context {W : Type} `{Lens W pg}.

(** [log] is the list of what the finish callback was told: the callback appends its
    arguments and returns, nothing else writes to it, and neither closing a body nor
    the callback of the retries panics. *)
Record reporting (log : W → list (Job * string)) (r : Runner W) : Prop := {
  rp_db : ∀ s w, log (over s w) = log w;
  rp_finish : ∃ f, r_OnFinish r = Some f ∧
    ∀ j x w, ∃ w', f j x w = (Ret tt, w') ∧ log w' = log w ++ [(j, x)];
  rp_retry : ∀ f, r_OnRetry r = Some f → ∀ j x w, ∃ w', f j x w = (Ret tt, w') ∧ log w' = log w;
  rp_open : ∀ p s, r_SourceFor r p = inr s → ∀ x, keeps log (Open s x);
  rp_close : ∀ p s, r_SourceFor r p = inr s →
    ∀ b w, ∃ x w', Close s b w = (Ret x, w') ∧ log w' = log w;
  rp_send : ∀ p t, r_TransportFor r p = inr t →
    ∀ R (HR : Reader R) dst (b : R) n, keeps log (Send t dst b n);
}.

Context (h : host_env) (lb : string) (job : Job) (r : Runner W).
Context (Hr : framed_runner r).

Local Notation panic_detail p := {["error" := JStr p; "stage" := JStr "panic"]}.

(** The deferred handler of [processOne]. *)
Local Notation handler := (λ v,
  '(result, _) ← writeRetryOrDead h (MkDeps lb None) job (panic_detail v);
  fire r job result).

Lemma fire_framed x : framed (fire r job x).
Proof. unfold fire. destruct (r_OnFinish r) eqn:E; [by apply (fr_finish r Hr)|apply framed_ret]. Qed.

Lemma handler_wrote p : wrote_one h lb job (VRetry (panic_detail p)) (handler p).
Proof.
  apply wrote_one_bind; [|intros [x e]; apply fire_framed]. apply writeRetryOrDead_wrote. by split.
Qed.

(** After the write: the label is reported, and whatever the callback does the row stays. *)
Lemma finish_settled v w w1 row :
  script (view w) = [] → held lb job (tabs (view w)) row → storable (verdict_detail h v) = true →
  view w1 = record h lb job [v] (view w) →
  tabs (view (snd (recover handler (fire r job (verdict_label job v)) w1)))
    = tabs (record h lb job [v] (view w)) ∧
  ∀ log, reporting log r → ∃ w', recover handler (fire r job (verdict_label job v)) w1 = (Ret tt, w') ∧
    log w' = log w1 ++ [(job, verdict_label job v)].
Proof.
  intros Hs Hh Hd Hv. split.
  - unfold recover. pose proof (fire_framed (verdict_label job v) w1) as Hf.
    destruct (fire r job (verdict_label job v) w1) as [[u|p] w2]; simpl in Hf; [by rewrite <- Hv, <- Hf|].
    rewrite (handler_wrote p w2), Hf, Hv. by apply (record_settles h lb job v [_] (view w) row).
  - intros log [_ (f & Ef & Hf) _ _ _ _]. unfold recover, fire. rewrite Ef.
    destruct (Hf job (verdict_label job v) w1) as (w' & E & El). rewrite E. by exists w'.
Qed.

(** A panic before the write: the handler records the retry and reports it. *)
Lemma handler_settled p w w1 row :
  script (view w) = [] → held lb job (tabs (view w)) row → nul_free p = true → view w1 = view w →
  let v := VRetry (panic_detail p) in
  view (snd (handler p w1)) = record h lb job [v] (view w) ∧
  ∀ log, reporting log r → ∃ w', handler p w1 = (Ret tt, w') ∧
    log w' = log w1 ++ [(job, verdict_label job v)].
Proof.
  intros Hs Hh Hp Hv v. split; [by rewrite (handler_wrote p w1), Hv|].
  intros log [Hdb (f & Ef & Hf) _ _ _ _]. rewrite <- Hv in Hs, Hh.
  assert (framed_deps lb (MkDeps lb None : Deps W)) as Hd by by split.
  destruct (writeRetryOrDead_concludes h lb job True (MkDeps lb None) (panic_detail p) Hd
    (λ _ f Hf, ltac:(discriminate)) w1 row Hs Hh) as [(v' & -> & _ & Hx)|(? & [] & _)].
  assert (keeps log (writeRetryOrDead h (MkDeps lb None) job (panic_detail p))) as Hk.
  { pose proof (classify_keeps log h (MkDeps lb None) job (EOpaque EmptyString) (panic_detail p) Hdb) as Hk.
    by apply Hk. }
  specialize (Hk w1).
  destruct (writeRetryOrDead h (MkDeps lb None) job (panic_detail p) w1) as [[x|q] w2] eqn:E; [|by destruct Hx].
  simpl in Hx, Hk. rewrite (bind_run _ _ _ _ _ E), Hx.
  unfold answer_of. cbn [verdict_detail]. rewrite storable_report by done. simpl.
  unfold fire. rewrite Ef. destruct (Hf job (verdict_label job v) w2) as (w' & E' & El).
  exists w'. split; [exact E'|]. rewrite El. f_equal. exact Hk.
Qed.

Lemma recover_bind {A B} (g : string → M W B) (m : M W A) (k : A → M W B) w a w1 :
  m w = (Ret a, w1) → recover g (m ≫= k) w = recover g (k a) w1.
Proof. intros E. unfold recover. by rewrite (bind_run _ _ _ _ _ E). Qed.

(** What the call leaves of the verdict [v]: the row settled accordingly, and the label
    reported once. *)
Definition reports (w : W) (v : verdict) (m : M W unit) : Prop :=
  tabs (view (snd (m w))) = tabs (record h lb job [v] (view w)) ∧
  ∀ log, reporting log r → ∃ w', m w = (Ret tt, w') ∧ log w' = log w ++ [(job, verdict_label job v)].

(** A protocol without a source or a transport. *)
Lemma factory_reports dt w row :
  script (view w) = [] → held lb job (tabs (view w)) row → storable dt = true →
  reports w (VDead dt) (recover handler
    (_ ← writeTerminal (MkDeps lb None) job Dead EvDead dt true; fire r job "dead")).
Proof.
  intros Hs Hh Hd. unfold reports.
  pose proof (writeTerminal_dead_run h lb job (MkDeps lb None) dt w row eq_refl Hs Hh) as E.
  rewrite (recover_bind _ _ _ _ _ _ E).
  destruct (finish_settled (VDead dt) w (over (record h lb job [VDead dt] (view w)) w) row Hs Hh Hd)
    as [Ht Hlog]; [apply view_over|].
  split; [exact Ht|]. intros log Hl. destruct (Hlog log Hl) as (w' & E' & El). exists w'.
  split; [exact E'|]. by rewrite El, (rp_db log r Hl).
Qed.

Local Notation job_deps := (MkDeps lb (Some (λ stage,
  match r_OnRetry r with Some f => f job stage | None => mret tt end))).

Lemma job_deps_framed : framed_deps lb job_deps.
Proof.
  split; [done|]. intros f [= <-] x.
  destruct (r_OnRetry r) eqn:E; [by apply (fr_retry r Hr)|apply framed_ret].
Qed.

Lemma reporting_calm log source transport :
  r_SourceFor r (SrcProtocol job) = inr source → r_TransportFor r (DstProtocol job) = inr transport →
  reporting log r →
  calm_job job_deps source ∧ keeps log (ProcessJob h job_deps source transport job).
Proof.
  intros Es Et [Hdb _ Hre Ho Hc Hse]. split.
  - split.
    + intros b w0. destruct (Hc _ _ Es b w0) as (x & w' & E & _). by exists x, w'.
    + intros f [= <-] x w0. destruct (r_OnRetry r) as [f|] eqn:E; [|by exists w0].
      destruct (Hre f eq_refl job x w0) as (w' & E' & _). by exists w'.
  - apply ProcessJob_keeps; [done| | | |].
    + intros f [= <-] x w0. destruct (r_OnRetry r) as [f|] eqn:E; [|done].
      by destruct (Hre f eq_refl job x w0) as (w' & -> & <-).
    + by eapply Ho.
    + intros b w0. by destruct (Hc _ _ Es b w0) as (x & w' & -> & <-).
    + by eapply Hse.
Qed.

(** The job came to a verdict. *)
Lemma ran_reports source transport w row v :
  r_SourceFor r (SrcProtocol job) = inr source → r_TransportFor r (DstProtocol job) = inr transport →
  script (view w) = [] → held lb job (tabs (view w)) row → storable (verdict_detail h v) = true →
  let m := ProcessJob h job_deps source transport job in
  view (snd (m w)) = record h lb job [v] (view w) →
  match fst (m w) with Ret x => x = answer_of h job v | Panic _ => ¬ calm_job job_deps source end →
  reports w v (recover handler ('(result, _) ← m; fire r job result)).
Proof.
  intros Es Et Hs Hh Hd m Hv Hx. unfold reports.
  assert (∀ log, reporting log r → calm_job job_deps source ∧ log (snd (m w)) = log w) as Hl.
  { intros log Hl. destruct (reporting_calm log source transport Es Et Hl) as [Hc Hk]. split; [done|apply Hk]. }
  destruct (m w) as [[x|p] w1] eqn:E; cbn [fst snd] in *.
  - rewrite (recover_bind _ _ _ _ _ _ E), Hx. unfold answer_of. rewrite Hd.
    destruct (finish_settled v w w1 row Hs Hh Hd Hv) as [Ht Hlog]. split; [exact Ht|].
    intros log Hre. destruct (Hlog log Hre) as (w' & E' & El). destruct (Hl log Hre) as [_ Hk].
    exists w'. split; [exact E'|]. by rewrite El, Hk.
  - split; [|intros log Hre; by destruct (Hl log Hre)].
    unfold recover. rewrite (bind_run _ _ _ _ _ E). cbn [fst snd].
    rewrite (handler_wrote p w1), Hv. by apply (record_settles h lb job v [_] (view w) row).
Qed.

(** The job panicked before there was a verdict. *)
Lemma panicked_reports source transport w row p :
  r_SourceFor r (SrcProtocol job) = inr source → r_TransportFor r (DstProtocol job) = inr transport →
  script (view w) = [] → held lb job (tabs (view w)) row → nul_free p = true →
  let m := ProcessJob h job_deps source transport job in
  view (snd (m w)) = view w → fst (m w) = Panic p →
  reports w (VRetry (panic_detail p)) (recover handler ('(result, _) ← m; fire r job result)).
Proof.
  intros Es Et Hs Hh Hp m Hv Hx. unfold reports.
  assert (∀ log, reporting log r → log (snd (m w)) = log w) as Hl.
  { intros log Hl. destruct (reporting_calm log source transport Es Et Hl) as [_ Hk]. apply Hk. }
  destruct (m w) as [x w1] eqn:E. cbn [fst snd] in *. subst x.
  unfold recover. rewrite (bind_run _ _ _ _ _ E). cbn [fst snd].
  destruct (handler_settled p w w1 row Hs Hh Hp Hv) as [Hh1 Hlog]. split; [exact (f_equal tabs Hh1)|].
  intros log Hre. destruct (Hlog log Hre) as (w' & E' & El). exists w'.
  split; [exact E'|]. by rewrite El, (Hl log Hre).
Qed.

Lemma processOne_reports w row :
  legible_runner r → script (view w) = [] → held lb job (tabs (view w)) row →
  ∃ v, job_met r job w v ∧ storable (verdict_detail h v) = true ∧
    reports w v (processOne h r lb job).
Proof.
  intros [Ls Lt Lso Ltr] Hs Hh. unfold processOne.
  destruct (r_SourceFor r (SrcProtocol job)) as [err|source] eqn:Es.
  { eexists. split; [by apply job_no_source|]. pose proof (storable_report _ "source-factory" (Ls _ _ Es) eq_refl).
    split; [done|]. by apply (factory_reports _ w row). }
  destruct (r_TransportFor r (DstProtocol job)) as [err|transport] eqn:Et.
  { eexists. split; [by eapply job_no_transport|]. pose proof (storable_report _ "transport-factory" (Lt _ _ Et) eq_refl).
    split; [done|]. by apply (factory_reports _ w row). }
  destruct (ProcessJob_concludes h lb job job_deps source transport job_deps_framed
    (fr_source r Hr _ _ Es) (fr_transport r Hr _ _ Et) w row Hs Hh)
    as [(v & Hm & Hv & Hx)|(p & Hm & Hv & Hx)].
  - exists v. split; [by eapply job_ran|].
    assert (storable (verdict_detail h v) = true) as Hd by (eapply met_storable; eauto).
    split; [done|]. by apply (ran_reports source transport w row).
  - eexists. split; [by eapply job_panicked|].
    assert (nul_free p = true) as Hp by (eapply met_panic_legible; eauto).
    split; [by apply storable_report|]. by apply (panicked_reports source transport w row).
Qed.

End Finish.

(** ** Properties *)

Section Properties.
Context {W : Type} `{Lens W pg}.

(** C5: when the worker still holds the lease and the connection holds, whatever the
    source and the transport do (errors of any class, short or long writes, failing
    closes), a call of [ProcessJob] that returns has settled the row in exactly one
    statement. What the source and the transport did determines the verdict [v] and
    its detail, spelled out in [met]: the sanitized text of an open or send error and its
    stage, the two sizes of a mismatch, the text of a close error, or the size, the digest
    and the duration of a success. The call returns the label of that verdict; status,
    attempts and event agree with it, the lock is released, a retry is scheduled about
    2^attempts seconds ahead, one event holding exactly that detail is appended, and no
    other column and no other row changes. The one exception is a detail in which some
    text has a NUL byte, which no JSONB column takes: the database refuses the
    statement, the call returns that error and nothing changes. A source and a
    transport that report no NUL byte never lead there. *)
Theorem ProcessJob_settles h lb job (d : Deps W) source transport w l e w' r :
  framed_deps lb d → framed_source source → framed_transport transport →
  script (view w) = [] → held lb job (tabs (view w)) r →
  ProcessJob h d source transport job w = (Ret (l, e), w') →
  let ts := now (env (view w)) in
  ∃ v, met source transport job w v ∧ (∀ v', met source transport job w v' → v' = v) ∧
    let dt := verdict_detail h v in
    (storable dt = false ↔ ∃ k s, dt !! k = Some (JStr s) ∧ nul_free s = false) ∧
    (legible_source source → legible_transport transport → storable dt = true) ∧
    if storable dt then
      e = None ∧ l = verdict_label job v ∧ ∃ st a nra ev r',
        label_means job l st a ev ∧ settled_as st a nra ts r r' ∧
        reschedule h st a ts (next_run_at r) nra ∧
        tabs (view w') = push_event ts (trace_id r) (ID job) ev (stored_object dt)
          (set_jobs (<[ID job := r']> (jobs (tabs (view w)))) (tabs (view w)))
    else l = EmptyString ∧ e = Some json_refused ∧ tabs (view w') = tabs (view w).
Proof.
  intros Hd Hs Ht Hsc Hh E.
  destruct (ProcessJob_concludes h lb job d source transport Hd Hs Ht w r Hsc Hh)
    as [(v & Hm & Hv & Hx)|(p & _ & _ & Hp)]; rewrite E in *; [|done]. cbn [fst snd] in *.
  exists v. split; [done|]. split; [intros v' Hm'; by eapply met_functional|].
  split; [by eapply met_refused|]. split; [intros; by eapply met_storable|].
  unfold answer_of in Hx. destruct (storable (verdict_detail h v)) eqn:Hst; injection Hx as -> ->.
  - split; [done|]. split; [done|]. rewrite Hv. by apply (record_held h lb job v _ r).
  - by rewrite Hv, (proj2 (record_refused h lb job v _ Hsc Hst)).
Qed.

(** C6: a worker always settles the job it holds, as what the job met, and reports that
    outcome: when the lease is still its own, the connection holds and no error text it
    meets has a NUL byte, a call of [processOne] changes the row in exactly one
    statement, whatever else the factories, the source, the transport and the callbacks
    do, panics at any point included. A missing factory, a panic before any verdict, or
    what [ProcessJob] met determines the verdict [v] and its detail ([job_met]); status,
    attempts and event agree with its label, the lock is released, the event holds that
    detail, and no other column and no other row changes. When the finish callback logs
    its arguments and returns, and neither closing a body nor the callback of the
    retries panics, the log grows by exactly one entry: this job with that label. *)
Theorem processOne_settles h (r : Runner W) lb job w row :
  framed_runner r → legible_runner r → script (view w) = [] → held lb job (tabs (view w)) row →
  let ts := now (env (view w)) in
  ∃ v, job_met r job w v ∧ (∀ v', job_met r job w v' → v' = v) ∧
    (∃ st a nra ev row',
      label_means job (verdict_label job v) st a ev ∧ settled_as st a nra ts row row' ∧
      reschedule h st a ts (next_run_at row) nra ∧
      tabs (view (snd (processOne h r lb job w)))
      = push_event ts (trace_id row) (ID job) ev (stored_object (verdict_detail h v))
          (set_jobs (<[ID job := row']> (jobs (tabs (view w)))) (tabs (view w)))) ∧
    ∀ log, reporting log r → ∃ w', processOne h r lb job w = (Ret tt, w') ∧
      log w' = log w ++ [(job, verdict_label job v)].
Proof.
  intros Hr Lr Hs Hh ts.
  destruct (processOne_reports h lb job r Hr w row Lr Hs Hh) as (v & Hm & Hd & Ht & Hlog).
  exists v. split; [done|]. split; [intros v' Hm'; by eapply job_met_functional|]. split; [|done].
  rewrite Ht. by apply (record_held h lb job v _ row).
Qed.

End Properties.

(** ** Witnesses *)

Lemma ProcessJob_settles_witness : ∃ w',
  ProcessJob toy_host toy_deps (toy_source 4) toy_transport sample_job toy_world
  = (Ret ("succeeded", None), w') ∧
  met (toy_source 4) toy_transport sample_job toy_world (VSuccess 4 "00").
Proof.
  assert (ProcessJob toy_host toy_deps (toy_source 4) toy_transport sample_job toy_world
    = (Ret ("succeeded", None),
       snd (ProcessJob toy_host toy_deps (toy_source 4) toy_transport sample_job toy_world)))
    as E by (vm_compute; reflexivity).
  eexists. split; [exact E|].
  destruct (ProcessJob_settles toy_host sample_worker sample_job toy_deps (toy_source 4) toy_transport
    toy_world _ _ _ (lease_row sample_worker 1000 sample_row) toy_deps_framed (toy_source_framed 4)
    toy_transport_framed eq_refl toy_held E) as (v & Hm & Hu & _).
  assert (met (toy_source 4) toy_transport sample_job toy_world (VSuccess 4 "00")) as Hs.
  { eapply (met_verified _ _ _ _ 4 4 "00"); [eexists _, _; split; vm_compute; reflexivity|by split|].
    vm_compute. reflexivity. }
  by rewrite (Hu _ Hs).
Defined.

(** A world that keeps what the finish callback is told, and a transport that panics. *)
Record desk := Desk { desk_pg : pg; desk_log : list (Job * string) }.

#[export, refine] Instance desk_lens : Lens desk pg := {|
  view := desk_pg; over := λ s w, Desk s (desk_log w)
|}.
Proof. all: by intros; repeat match goal with w : desk |- _ => destruct w end. Defined.

Definition desk_source : Source desk := {|
  Body := list chunk; Body_reader := chunk_reader;
  Open := λ _ w, (Ret (inr ([Chunk [x00; x01; x02; x03] None], 4)), w);
  Close := λ _ w, (Ret None, w)
|}.

Definition desk_runner : Runner desk := {|
  r_PodName := "pod"; r_SourceFor := λ _, inr desk_source;
  r_TransportFor := λ _, inr {| Send_fn := λ R _ _ b _ w, ((Panic "boom"%string, b), w) |};
  r_OnFinish := Some (λ j x w, (Ret tt, Desk (desk_pg w) (desk_log w ++ [(j, x)])));
  r_OnRetry := None; r_OnLeaseAttempt := None; r_OnWorkerStart := None; r_OnWorkerStop := None
|}.

Lemma desk_reporting : reporting desk_log desk_runner.
Proof.
  split; simpl; [done| |done| | |].
  - eexists. split; [done|]. by eexists.
  - by intros p s [= <-].
  - intros p s [= <-] b w. by eexists _, w.
  - by intros p t [= <-] R HR dst b n w.
Qed.

Lemma processOne_settles_witness :
  status <$> jobs (tabs (desk_pg (snd (processOne toy_host desk_runner sample_worker sample_job
    (Desk sample_leased []))))) !! 1 = Some Pending ∧
  ∃ w', processOne toy_host desk_runner sample_worker sample_job (Desk sample_leased []) = (Ret tt, w') ∧
    desk_log w' = [(sample_job, "fail")].
Proof.
  split; [vm_compute; reflexivity|].
  destruct (processOne_settles toy_host desk_runner sample_worker sample_job (Desk sample_leased [])
    (lease_row sample_worker 1000 sample_row)) as (v & Hm & _ & _ & Hlog); [| |reflexivity|exact toy_held|].
  - split; simpl; [|by intros p t [= <-] R HR dst b n w|by intros f [= <-]|discriminate..].
    intros p s [= <-]. by split.
  - split; simpl; [discriminate..| |by intros p t [= <-] R HR dst b n w].
    intros p s [= <-]. by split.
  - destruct (Hlog desk_log desk_reporting) as (w' & E & El). exists w'. split; [exact E|].
    assert (desk_log (snd (processOne toy_host desk_runner sample_worker sample_job (Desk sample_leased [])))
      = [(sample_job, "fail")]) as Ef by (vm_compute; reflexivity).
    by rewrite E in Ef.
Defined.
