(* ===== verification/EndToEnd.v ===== *)
(** * End to end: a local transfer through the worker

    [ProcessJob] with the local source and the local transport over one world that
    holds the control database and the filesystem. *)

From Stdlib Require Import Init.Byte.
From S2P Require Import Prelude GoLang GoFloat ErrDetail Store Transfer GoSha Streams LocalFS Worker.
From S2P Require Import Invariant Spec WorkerFacts Jobs Samples WorkerProps.

Local Open Scope Z_scope.

Record e2e := E2E { w_pg : pg; w_fs : fs }.

#[export, refine] Instance e2e_lens : Lens e2e pg := {|
  view := w_pg; over := λ s w, E2E s (w_fs w)
|}.
Proof. all: by intros; repeat match goal with w : e2e |- _ => destruct w end. Defined.

(** The local source as the worker drives it; [ce] is what [f.Close()] returns. *)
Definition localfs_source (o : src_oracle) (ce : option error) : Source e2e := {|
  Body := list chunk; Body_reader := chunk_reader;
  Open := λ src w, (Ret (localfs_Open o src (w_fs w)), w);
  Close := λ _ w, (Ret ce, w)
|}.

Definition localfs_transport (o : dst_oracle) : Transport e2e := {|
  Send_fn := λ R HR dst b _ w,
    let '(r, b', f') := localfs_Send o dst b (w_fs w) in ((Ret r, b'), E2E (w_pg w) f')
|}.

(** The counter sees the stream it counts. *)
Lemma counter_drain {R} `{Reader R} n (c : counter R) :
  (drain n c).1 = (drain n (counter_r c)).1.
Proof.
  remember (remaining (counter_r c)) as m eqn:Hm. revert c Hm.
  induction (lt_wf m) as [m _ IH]; intros c ->. rewrite (drain_eq n c), (drain_eq n (counter_r c)). simpl.
  unfold counter_read. destruct (read n (counter_r c)) as [[b [e|]] r'] eqn:Er; [done|].
  apply read_progress in Er. specialize (IH _ Er (Counter r' (counter_n c + Z.of_nat (length b))) eq_refl).
  simpl in IH. destruct (drain n (Counter r' _)) as [[b1 e1] c1]. destruct (drain n r') as [[b2 e2] r2].
  simpl in *. by injection IH as -> ->.
Qed.

Lemma w_fs_write (h : host_env) (d : Deps e2e) job n sha w r w' :
  writeSuccess h d job n sha w = (r, w') → w_fs w' = w_fs w.
Proof.
  unfold writeSuccess, zoom, mbind, M_bind. intros E.
  destruct (exec _ (view w)) as [[o|v] s]; by injection E as _ <-.
Qed.

(** C11: end to end: when the worker reports a job from a local file to a local path as
    succeeded, the source was a file, the destination now holds exactly its bytes,
    nothing else in the filesystem changed, and what was written to the database is
    the success of this job with the size and the digest of these bytes, whatever the
    database, the context and the filesystem did on the way. *)
Theorem localfs_end_to_end so ce od h (d : Deps e2e) job w e w' :
  ctx_errors (do_env od) →
  ProcessJob h d (localfs_source so ce) (localfs_transport od) job w
  = (Ret ("succeeded"%string, e), w') →
  ∃ content,
    nodes (w_fs w) !! Src job = Some (File content) ∧
    w_fs w' = set_node (Dst job) (File content) (w_fs w) ∧
    writeSuccess h d job (Z.of_nat (length content)) (sha256_hex content)
      (E2E (w_pg w) (w_fs w')) = (Ret None, w').
Proof.
  intros Henv E. apply success_verified in E as (n & sha & w3 & Hv & Ew).
  destruct Hv as (body & size & cw & w1 & w2 & Eo & Es & _ & _ & Ec). simpl in *.
  injection Eo as Eo <-. injection Ec as -> <-.
  apply open_file in Eo as (content & Hsrc & -> & ->). exists content. split; [done|].
  unfold Send in Es. simpl in Es.
  destruct (localfs_Send od (Dst job) (Counter (file_body content) 0) (w_fs w))
    as [[r b'] f'] eqn:El. injection Es as -> <- <-.
  apply send_atomic in El as (c' & Hd & -> & -> & ->); [|done..].
  rewrite counter_drain in Hd. simpl in Hd. rewrite file_body_drain in Hd by (apply Nat.neq_0_lt_0, Nat.pow_nonzero; lia).
  injection Hd as <-. pose proof (w_fs_write _ _ _ _ _ _ _ _ Ew) as Hf. simpl in Hf. by rewrite Hf.
Qed.

(** ** Witnesses *)

Definition e2e_job : Job :=
  {| ID := 1; TraceID := "images-7"; Src := "/src"; Dst := "/out"; SrcProtocol := "localfs";
     DstProtocol := "localfs"; Payload := "{}"; Status := "leased"; Attempts := 0; MaxAttempts := 3;
     LockedAt := Some 1000; LockedBy := sample_worker; NextRunAt := 1000; CreatedAt := 1000;
     UpdatedAt := 1000 |}.

Definition e2e_run : res (string * option error) * e2e :=
  ProcessJob toy_host (MkDeps sample_worker None) (localfs_source ok_src None)
    (localfs_transport (ok_dst 7)) e2e_job
    (E2E sample_leased sample_fs).

Lemma localfs_end_to_end_witness :
  nodes (w_fs (snd e2e_run)) !! "/out"%string = Some (File [x00; x01]).
Proof.
  assert (e2e_run = (Ret ("succeeded"%string, None), snd e2e_run)) as E by (vm_compute; reflexivity).
  destruct (localfs_end_to_end ok_src None (ok_dst 7) toy_host
    (MkDeps sample_worker None) e2e_job (E2E sample_leased sample_fs) None (snd e2e_run))
    as (content & Hsrc & Hdst & _).
  - intros k e. simpl. by intros [|].
  - exact E.
  - rewrite Hdst. vm_compute in Hsrc. injection Hsrc as <-. vm_compute. reflexivity.
Defined.
