(* ===== verification/FtpJob.v ===== *)
(** * FTP transfers through the worker

    [ProcessJob] with the FTP source (internal/sources/ftp) and the FTP transport
    (internal/transports/ftp) over the connection pool of [FtpConn]: who holds which
    slot while the other goroutines run. *)

From S2P Require Import Prelude GoLang GoFloat ErrDetail GoUrl Store Transfer GoSha Streams Worker Ftp.
From S2P Require Import Hostcap Invariant Spec WorkerFacts FtpPool FtpConn Jobs Samples WorkerProps.

(** ** Readers that were only read from *)

Definition read_step {R} `{Reader R} (r r' : R) : Prop := ∃ n b e, read n r = (b, e, r').

(** [r'] is [r] after some calls of [Read]. *)
Definition read_on {R} `{Reader R} : R → R → Prop := rtc read_step.

(** What one call of [Read] does to a part of the reader, or to the reader behind it,
    any number of calls do. *)
Lemma read_on_map {R S} `{Reader R} (f : R → S) (P : relation S) `{!PreOrder P} r r' :
  (∀ n r b e r', read n r = (b, e, r') → P (f r) (f r')) → read_on r r' → P (f r) (f r').
Proof.
  intros Hf. induction 1 as [|r r1 r' (n & b & e & E) _ IH]; [reflexivity|].
  etrans; [by eapply Hf|done].
Qed.

#[export] Instance read_on_preorder {R} `{Reader R} : PreOrder (read_on (R := R)).
Proof. unfold read_on. apply _. Qed.

Lemma read_once {R} `{Reader R} n (r : R) b e r' : read n r = (b, e, r') → read_on r r'.
Proof. intros E. apply rtc_once. by exists n, b, e. Qed.

Lemma read_on_tee {R} `{Reader R} (t t' : tee R) : read_on t t' → read_on (te_r t) (te_r t').
Proof.
  apply (read_on_map te_r _). intros n [r c] b e t1 E. simpl in E. unfold tee_read in E. simpl in *.
  destruct (read n r) as [[b0 e0] r0] eqn:Er. simplify_eq. by eapply read_once.
Qed.

Lemma read_on_ctx {R} `{Reader R} (c c' : ctxReader R) : read_on c c' → read_on (cr_r c) (cr_r c').
Proof.
  apply (read_on_map cr_r _). intros n c1 b e c2 E. simpl in E. unfold ctx_read in E.
  destruct (ctx_entry _ _); [by simplify_eq|].
  destruct (cr_pending c1) as [p|]; [by destruct (ctx_select _ _); simplify_eq|].
  destruct (read n (cr_r c1)) as [[b0 e0] r0] eqn:Er.
  destruct (ctx_select _ _); simplify_eq; by eapply read_once.
Qed.

Lemma read_on_counter {R} `{Reader R} (c c' : counter R) :
  read_on c c' → read_on (counter_r c) (counter_r c').
Proof.
  apply (read_on_map counter_r _). intros n [r k] b e c1 E. simpl in E. unfold counter_read in E. simpl in *.
  destruct (read n r) as [[b0 e0] r0] eqn:Er. simplify_eq. by eapply read_once.
Qed.

Lemma read_on_retr {W Resp} `{Reader Resp} (r r' : @retrReader W Resp) :
  read_on r r' → rr_Close r' = rr_Close r ∧ rr_Release r' = rr_Release r ∧ rr_released r' = rr_released r.
Proof.
  intros Hr. enough ((rr_Close r, rr_Release r, rr_released r) = (rr_Close r', rr_Release r', rr_released r'))
    by naive_solver.
  revert Hr. apply (read_on_map (λ r, (rr_Close r, rr_Release r, rr_released r)) eq).
  intros n r1 b e r2 E. simpl in E. unfold retr_read in E.
  by destruct (read n (rr_r r1)) as [[b0 e0] r0]; simplify_eq.
Qed.

(** ** The pool as the transport and the source see it *)

Section Job.
Context {W Resp : Type} `{Reader Resp} `{HD : Lens W pg} `{HP : Lens W psys} `{HL : Lens W lockdb}.
Context (lib : ftp_client (W := W)) (AuthUser AuthPassword : string) (timeout : Z)
  (OnPoolChange : option (string → Z → Z → M W unit)) (fmt_q : string → string).

(** The slots of the other goroutines; the tables are no part of the pool. *)
Context (others : W → list string) (others_over : ∀ (s : psys) w, others (over s w) = others w).

Notation owns := (owns others).
Notation cooperative := (cooperative lib OnPoolChange others).

(** The methods of connection [c] to [host]. *)
Context (conn_of : string → nat → @ServerConn W Resp).

(** A checkout is its host and its connection. A call of [Acquire] that is still
    waiting after [fuel] rounds has no result. *)
Definition conn_pool (fuel : nat) : ConnPool := {|
  PooledConn := string * nat;
  Acquire := λ host,
    r ← Acquire_conn lib AuthUser AuthPassword timeout OnPoolChange fuel host;
    match r with
    | None => panic "still waiting"
    | Some (inl err) => mret (inl err)
    | Some (inr c) => mret (inr (host, c))
    end;
  pc_Conn := λ pc, conn_of pc.1 pc.2;
  pc_Release := λ pc, Pool_release lib OnPoolChange pc.1 pc.2
|}.

(** ** What the calls of a connection may do *)

(** [m], when it returns, was a run of the pool's steps from [P] to [Q]. *)
Definition returns {A} (P : W → Prop) (m : M W A) (Q : A → W → Prop) : Prop := ∀ w a w',
  P w → m w = (Ret a, w') → rtc pstep (view w) (view w') ∧ Q a w'.

(** While this goroutine is inside a call of the library, the others take steps of
    their own and leave it its slots; [Stor] only reads its body. *)
Record cooperative_conn (c : @ServerConn W Resp) : Prop := {
  cc_mkdir : ∀ p mine, returns (owns mine) (MakeDir c p) (λ _, owns mine);
  cc_stor : ∀ R HR p (r : R) mine w x r' w', owns mine w → Stor c R HR p r w = ((Ret x, r'), w') →
    rtc pstep (view w) (view w') ∧ owns mine w' ∧ read_on r r';
  cc_delete : ∀ p mine, returns (owns mine) (Delete c p) (λ _, owns mine);
  cc_rename : ∀ p q mine, returns (owns mine) (Rename c p q) (λ _, owns mine);
  cc_size : ∀ p mine, returns (owns mine) (FileSize c p) (λ _, owns mine);
  cc_retr : ∀ p mine, returns (owns mine) (Retr c p) (λ _, owns mine);
  cc_close : ∀ r mine, returns (owns mine) (Resp_Close c r) (λ _, owns mine);
}.

Context (Hco : ∀ host, cooperative host) (Hcc : ∀ host c, cooperative_conn (conn_of host c)).

Lemma returns_runs {A} P (m : M W A) Q : runs P m Q → returns P m Q.
Proof. intros Hr w a w' Hw E. destruct (Hr w Hw) as [H1 H2]. rewrite E in *. split; [done|by apply H2]. Qed.

Lemma returns_ret {A} (P : W → Prop) (Q : A → W → Prop) a : (∀ w, P w → Q a w) → returns P (mret a) Q.
Proof. intros HQ. by apply returns_runs, runs_ret. Qed.

Lemma returns_bind {A B} P (m : M W A) (R : A → W → Prop) (f : A → M W B) Q :
  returns P m R → (∀ a, returns (R a) (f a) Q) → returns P (m ≫= f) Q.
Proof.
  intros Hm Hf w b w' Hw E. unfold mbind, M_bind in E. destruct (m w) as [[a|v] w1] eqn:Em; [|done].
  destruct (Hm _ _ _ Hw Em) as [H1 H2]. destruct (Hf a _ _ _ H2 E) as [H3 H4]. split; [by etrans|done].
Qed.

Lemma returns_panic {A} P v (Q : A → W → Prop) : returns P (panic v) Q.
Proof. by intros w a w' _ E. Qed.

Lemma returns_defer {A} P fin (m : M W A) (R : W → Prop) Q :
  returns P m (λ _, R) → returns R fin (λ _, Q) → returns P (defer fin m) (λ _, Q).
Proof.
  intros Hm Hf w a w' Hw E. unfold defer in E. destruct (m w) as [r w1] eqn:Em.
  destruct (fin w1) as [[[]|v] w2] eqn:Ef; [|done]. injection E as -> ->.
  destruct (Hm _ _ _ Hw Em) as [H1 H2]. destruct (Hf _ _ _ H2 Ef) as [H3 H4]. split; [by etrans|done].
Qed.

Lemma returns_recover {A} P g (m : M W A) Q :
  returns P m Q → (∀ v w a w', g v w ≠ (Ret a, w')) → returns P (recover g m) Q.
Proof.
  intros Hm Hg w a w' Hw E. unfold recover in E. destruct (m w) as [[b|v] w1] eqn:Em.
  - injection E as -> ->. by apply (Hm w).
  - by apply Hg in E.
Qed.

Lemma defer_panic {A} (fin : M W unit) v w (a : A) w' : defer fin (panic v) w ≠ (Ret a, w').
Proof. unfold defer, panic. by destruct (fin w) as [[[]|v'] w1]. Qed.

(** ** The transport and the source *)

Lemma acquire_returns fuel host mine :
  returns (owns mine) (Acquire (conn_pool fuel) host)
    (λ a w, match a with
            | inl _ => owns mine w
            | inr pc => owns (host :: mine) w ∧ pc.1 = host
            end).
Proof.
  eapply returns_bind; [apply returns_runs; by apply Acquire_conn_runs|].
  intros [[err|c]|]; [by apply returns_ret| |by apply returns_panic].
  apply returns_ret. intros w Ho. by eauto.
Qed.

Lemma release_returns fuel host c b mine :
  returns (owns (host :: mine)) (pc_Release (conn_pool fuel) (host, c) b) (λ _, owns mine).
Proof. apply returns_runs. by apply Pool_release_runs. Qed.

(** The best-effort deletion and the release after a failure. *)
Lemma fail_returns fuel host c tmp (e : error) mine :
  returns (owns (host :: mine))
    (_ ← Delete (conn_of host c) tmp; _ ← pc_Release (conn_pool fuel) (host, c) true;
     mret (inl e) : M W (error + Z * string)) (λ _, owns mine).
Proof.
  eapply returns_bind; [apply (cc_delete _ (Hcc _ _))|]. intros ?.
  eapply returns_bind; [apply release_returns|]. intros ?. by apply returns_ret.
Qed.

Lemma Send_to_returns fuel env {R} (HR : Reader R) host path (body : R) mine w r body' w' :
  owns mine w → ftp_Send_to (conn_pool fuel) env HR host path body w = ((Ret r, body'), w') →
  rtc pstep (view w) (view w') ∧ owns mine w' ∧ read_on body body'.
Proof.
  intros Hw E. unfold ftp_Send_to in E.
  destruct (Acquire (conn_pool fuel) host w) as [[[err|[h c]]|v] w1] eqn:Ea; [| |done].
  { injection E as _ <- <-. by destruct (acquire_returns _ _ _ _ _ _ Hw Ea). }
  destruct (acquire_returns _ _ _ _ _ _ Hw Ea) as (S1 & O1 & Eh). simpl in Eh. subst h.
  set (mkdir := if bool_decide _ then _ else _) in E.
  assert (returns (owns (host :: mine)) mkdir (λ _, owns (host :: mine))) as Hmk.
  { unfold mkdir. case_bool_decide; [|by apply returns_ret].
    eapply returns_bind; [apply (cc_mkdir _ (Hcc _ _))|]. intros ?. by apply returns_ret. }
  destruct (mkdir w1) as [[u|v] w2] eqn:Em; [|done]. destruct (Hmk _ _ _ O1 Em) as [S2 O2].
  match type of E with context [Stor ?a ?b ?c ?p ?t ?x] => destruct (Stor a b c p t x) as [[st t1] w3] eqn:Es end.
  destruct st as [e|v]; [|done].
  destruct (cc_stor _ (Hcc _ _) _ _ _ _ _ _ _ _ _ O2 Es) as (S3 & O3 & Hr).
  apply read_on_tee, read_on_ctx in Hr. simpl in Hr.
  assert (∀ (m : M W (error + Z * string)) w4, returns (owns (host :: mine)) m (λ _, owns mine) →
    m w3 = (Ret r, w4) → rtc pstep (view w) (view w4) ∧ owns mine w4) as Hend.
  { intros m w4 Hm E4. destruct (Hm _ _ _ O3 E4) as [S4 O4]. split; [|done].
    by rewrite S1, S2, S3, S4. }
  destruct e as [err|];
    (match type of E with context [mbind ?f ?m w3] => destruct (mbind f m w3) as [r4 w4] eqn:E4 end;
     injection E as -> <- <-; match type of E4 with ?m w3 = _ => destruct (Hend m w4) as [? ?] end;
     [|exact E4|by split_and!]).
  - apply fail_returns.
  - eapply returns_bind; [apply (cc_rename _ (Hcc _ _))|]. intros [err|]; [apply fail_returns|].
    eapply returns_bind; [apply release_returns|]. intros ?. by apply returns_ret.
Qed.

Lemma Send_returns fuel env {R} (HR : Reader R) dst (body : R) mine w r body' w' :
  owns mine w → ftp_Send fmt_q (conn_pool fuel) env HR dst body w = ((Ret r, body'), w') →
  rtc pstep (view w) (view w') ∧ owns mine w' ∧ read_on body body'.
Proof.
  intros Hw E. unfold ftp_Send in E.
  destruct (url_parse dst) as [u|]; [|by injection E as _ <- <-; split_and!].
  destruct (negb _ || _ || _); [by injection E as _ <- <-; split_and!|]. by eapply Send_to_returns.
Qed.

(** A body with its connection checked out of [host]. *)
Definition body_of (host : string) (b : retrReader) : Prop := ∃ fuel c,
  rr_Close b = Resp_Close (conn_of host c) ∧ rr_Release b = pc_Release (conn_pool fuel) (host, c) ∧
  rr_released b = false.

Lemma Open_returns fuel src mine :
  returns (owns mine) (ftp_Open fmt_q (conn_pool fuel) src)
    (λ o w, match o with
            | inl _ => owns mine w
            | inr (body, _) => ∃ host, owns (host :: mine) w ∧ body_of host body
            end).
Proof.
  unfold ftp_Open. destruct (url_parse src) as [u|]; [|by apply returns_ret].
  destruct (negb _); [by apply returns_ret|]. do 2 (case_bool_decide; [by apply returns_ret|]).
  unfold ftp_Open_at. eapply returns_bind; [apply acquire_returns|].
  intros [err|[h c]]; [by apply returns_ret|]. simpl.
  intros w o w' [Ho ->]. revert w o w' Ho.
  eapply returns_bind; [apply (cc_size _ (Hcc _ _))|]. intros sz.
  eapply returns_bind; [apply (cc_retr _ (Hcc _ _))|]. intros [err|resp].
  - eapply returns_bind; [apply (release_returns fuel)|]. intros ?. destruct (isNotFound err); by apply returns_ret.
  - apply returns_ret. intros w Ho. exists (u_Host u). split; [done|]. by exists fuel, c.
Qed.

Lemma Close_returns host b mine : body_of host b →
  returns (owns (host :: mine)) (retr_Close b) (λ _, owns mine).
Proof.
  intros (fuel & c & Ec & Er & Ef). unfold retr_Close. rewrite Ec, Er, Ef.
  eapply returns_bind; [apply (cc_close _ (Hcc _ _))|]. intros e.
  eapply returns_bind; [apply release_returns|]. intros ?. by apply returns_ret.
Qed.

(** ** Sources and transports that give back what they take *)

(** [holds l b]: the open body [b] stands for the slots [l], which its [Close] gives back
    however much of it was read. *)
Class TidySource (s : Source W) := {
  holds : list string → Body s → Prop;
  holds_read : ∀ l b b', holds l b → read_on b b' → holds l b';
  tidy_open : ∀ src mine, returns (owns mine) (Open s src)
    (λ o w, match o with
            | inl _ => owns mine w
            | inr (b, _) => ∃ l, holds l b ∧ owns (l ++ mine) w
            end);
  tidy_close : ∀ l b mine, holds l b → returns (owns (l ++ mine)) (Close s b) (λ _, owns mine);
}.

Class TidyTransport (t : Transport W) :=
  tidy_send : ∀ R (HR : Reader R) dst (body : R) size mine w r body' w', owns mine w →
    Send_fn t dst body size w = ((Ret r, body'), w') →
    rtc pstep (view w) (view w') ∧ owns mine w' ∧ read_on body body'.

#[refine] Instance ftp_source_tidy fuel : TidySource (ftp_source fmt_q (conn_pool fuel)) := {|
  holds := λ l (b : Body (ftp_source fmt_q (conn_pool fuel))), ∃ host, l = [host] ∧ body_of host b
|}.
Proof.
  - intros l b b' (host & -> & f & c & Hb) Hr. exists host. split; [done|]. exists f, c.
    apply read_on_retr in Hr as (-> & -> & ->). done.
  - intros src mine w a w' Hw E. destruct (Open_returns fuel src mine w a w' Hw E) as [H1 H2].
    split; [done|]. destruct a as [err|[b size]]; [done|]. destruct H2 as (host & Ho & Hb). by eauto.
  - intros l b mine (host & -> & Hb). by apply Close_returns.
Qed.

#[export] Instance ftp_transport_tidy fuel env : TidyTransport (ftp_transport fmt_q (conn_pool fuel) env).
Proof. intros R HR dst body size mine w r body' w'. apply Send_returns. Qed.

(** The host cap around a transport: the advisory locks are apart from the pool. *)
Context (locks_apart : ∀ (s : lockdb) w, (view (over s w) : psys) = view w ∧ others (over s w) = others w).

Lemma owns_locks mine (s : lockdb) w : owns mine w → owns mine (over s w).
Proof. unfold FtpConn.owns. by destruct (locks_apart s w) as [-> ->]. Qed.

#[export] Instance cap_transport_tidy hashtext cfg inner conn pe fuel :
  TidyTransport inner → TidyTransport (cap_transport hashtext cfg inner conn pe fuel).
Proof.
  intros Hin R HR dst body size mine w r body' w' Hw E. simpl in E. unfold CapTransport_Send in E.
  case_bool_decide; [by injection E as _ <- <-; split_and!|].
  destruct conn as [err|me]; [by injection E as _ <- <-; split_and!|].
  destruct (acquireSlot _ _ _ _ _ _ _ _ _) as [[[[slot|err|] ws]|v] s]; [| |done|done].
  - destruct (Send_fn inner dst body size (over s w)) as [[r1 b1] w1] eqn:Es. injection E as -> <- <-.
    destruct (Hin _ _ _ _ _ mine _ _ _ _ (owns_locks mine s w Hw) Es) as (S1 & O1 & Hr).
    destruct (locks_apart s w) as [V1 _]. rewrite V1 in S1.
    match goal with |- context [over ?x w1] => destruct (locks_apart x w1) as [V2 _]; rewrite V2 end.
    split_and!; [done|by apply owns_locks|done].
  - injection E as _ <- <-. destruct (locks_apart s w) as [-> _].
    split_and!; [done|by apply owns_locks|done].
Qed.

(** A source that has nothing to do with the pool, such as the local one. *)
#[refine] Instance aloof_source_tidy (s : Source W)
    (Ho : ∀ p w, (view (snd (Open s p w)) : psys) = view w ∧ others (snd (Open s p w)) = others w)
    (Hc : ∀ b w, (view (snd (Close s b w)) : psys) = view w ∧ others (snd (Close s b w)) = others w) :
  TidySource s := {| holds := λ l _, l = [] |}.
Proof.
  - done.
  - intros p mine w a w' Hw E. destruct (Ho p w) as [H1 H2]. rewrite E in H1, H2. simpl in *.
    unfold FtpConn.owns in *. rewrite H1. split; [done|].
    destruct a as [err|[b n]]; [by rewrite H2|]. exists []. by rewrite H2.
  - intros l b mine -> w a w' Hw E. destruct (Hc b w) as [H1 H2]. rewrite E in H1, H2. simpl in *.
    unfold FtpConn.owns in *. rewrite H1, H2. done.
Qed.

(** ** Processing a job *)

(** The tables and the retry callback are apart from the pool. *)
Context (pg_apart : ∀ (s : pg) w, (view (over s w) : psys) = view w ∧ others (over s w) = others w).

Definition pool_part (w : W) : psys * list string := (view w, others w).

Lemma keeps_returns {A} (m : M W A) mine :
  keeps pool_part m → returns (owns mine) m (λ _, owns mine).
Proof.
  intros Hk w a w' Hw E. specialize (Hk w). rewrite E in Hk. injection Hk as H1 H2. simpl in *.
  unfold FtpConn.owns. rewrite H1, H2. done.
Qed.

Lemma ProcessJob_returns h (d : Deps W) (s : Source W) (t : Transport W) `{!TidySource s} `{!TidyTransport t}
    job mine :
  (∀ f, d_OnRetry d = Some f → ∀ x, keeps pool_part (f x)) →
  returns (owns mine) (ProcessJob h d s t job) (λ _, owns mine).
Proof.
  intros Hr. assert (∀ (x : pg) w, pool_part (over x w) = pool_part w) as Hap
    by (intros x w; unfold pool_part; destruct (pg_apart x w); congruence).
  assert (∀ err dt m, returns (owns m) (classifyAndWrite h d job err dt) (λ _, owns m)) as Hcl
    by (intros; by apply keeps_returns, classify_keeps).
  unfold ProcessJob. eapply returns_bind; [apply tidy_open|]. intros [err|[b size]]; [apply Hcl|].
  intros w a w' (l & Hh & Hw) E. unfold mbind at 1, M_bind at 1, Send in E.
  destruct (Send_fn t (Dst job) (Counter b 0) size w) as [[sent cw] w1] eqn:Es.
  destruct sent as [sent|v]; [|by apply defer_panic in E].
  destruct (tidy_send _ _ _ _ _ _ _ _ _ _ Hw Es) as (S1 & O1 & Hrd).
  apply read_on_counter in Hrd. apply (holds_read _ _ _ Hh) in Hrd.
  assert (returns (owns (l ++ mine)) (_ ← Close s (counter_r cw); mret tt) (λ _, owns mine)) as Hclose.
  { eapply returns_bind; [by apply tidy_close|]. intros ?. by apply returns_ret. }
  match type of E with ?m w1 = _ => enough (returns (owns (l ++ mine)) m (λ _, owns mine)) as Hm end.
  { destruct (Hm _ _ _ O1 E) as [S2 O2]. split; [by etrans|done]. }
  clear E. destruct sent as [err|[n sha]]; [by eapply returns_defer; [apply Hcl|]|].
  case_match; [by eapply returns_defer; [apply Hcl|]|].
  case_match; [by eapply returns_defer; [apply Hcl|]|].
  eapply (returns_bind _ _ (λ _, owns mine)).
  { apply returns_recover; [by apply tidy_close|]. by intros v w2 x w3 ?%defer_panic. }
  intros [ce|]; [apply Hcl|]. eapply (returns_bind _ _ (λ _, owns mine)).
  { apply keeps_returns. unfold writeSuccess. apply keeps_bind; [by apply keeps_exec|].
    intros ?. apply keeps_ret. }
  intros [err|]; by apply returns_ret.
Qed.

(** C23: a job between FTP servers gives back the slots it took: when [ProcessJob] over the
    FTP source, the FTP transport inside its host cap and the connection pool returns,
    with any outcome, whatever the servers and the database answer and whatever the
    other goroutines and sessions did meanwhile, this goroutine holds exactly the slots it held before, all of it is a run of the pool's
    steps, and the pool counts as in use exactly the slots of this goroutine and of the
    others: none was leaked. *)
Theorem ftp_job_gives_back hashtext ccfg conn pe cfuel fuel env h (d : Deps W) job mine cfg w r w' :
  (∀ f, d_OnRetry d = Some f → ∀ x, keeps pool_part (f x)) →
  owns mine w → rtc pstep (pool_start cfg) (view w) →
  ProcessJob h d (ftp_source fmt_q (conn_pool fuel))
    (cap_transport hashtext ccfg (ftp_transport fmt_q (conn_pool fuel) env) conn pe cfuel) job w = (Ret r, w') →
  rtc pstep (view w) (view w') ∧ owns mine w' ∧
  ∀ host, hp_inUse (getHost host (pool (view w'))) = (cnt host mine + cnt host (others w'))%Z.
Proof.
  intros Hr Hw Hreach E.
  destruct (ProcessJob_returns h d _ _ job mine Hr w r w' Hw E) as [S1 O1].
  split_and!; [done..|]. intros host.
  destruct (pool_inv_reachable cfg (view w')) as [Hinv _]; [by etrans|].
  rewrite (pi_inuse _ Hinv), (cnt_perm _ _ _ O1). apply cnt_app.
Qed.

End Job.

(** ** A world of three parts *)

Record fworld := FWorld { f_pg : pg; f_pool : psys; f_locks : lockdb }.

#[refine] Instance fworld_pg : Lens fworld pg :=
  {| view := f_pg; over := λ s w, FWorld s (f_pool w) (f_locks w) |}.
Proof. all: by intros; repeat match goal with w : fworld |- _ => destruct w end. Defined.

#[refine] Instance fworld_pool : Lens fworld psys :=
  {| view := f_pool; over := λ s w, FWorld (f_pg w) s (f_locks w) |}.
Proof. all: by intros; repeat match goal with w : fworld |- _ => destruct w end. Defined.

#[refine] Instance fworld_locks : Lens fworld lockdb :=
  {| view := f_locks; over := λ s w, FWorld (f_pg w) (f_pool w) s |}.
Proof. all: by intros; repeat match goal with w : fworld |- _ => destruct w end. Defined.

Lemma fworld_apart (s : pg) (w : fworld) : (view (over s w) : psys) = view w ∧ alone (over s w) = alone w.
Proof. done. Qed.

Lemma fworld_locks_apart (s : lockdb) (w : fworld) :
  (view (over s w) : psys) = view w ∧ alone (over s w) = alone w.
Proof. done. Qed.

Lemma drain_read_on {R} `{Reader R} n (r : R) b e r' : drain n r = (b, Some e, r') → read_on r r'.
Proof.
  remember (remaining r) as m eqn:Hm. revert r b Hm.
  induction (lt_wf m) as [m _ IH]; intros r b -> E. rewrite drain_eq in E.
  destruct (read n r) as [[rb [re|]] r1] eqn:Er; [injection E as <- <- <-; by eapply read_once|].
  destruct (drain n r1) as [[b1 e1] r2] eqn:Ed. injection E as <- -> ->.
  etrans; [by eapply read_once|]. apply (IH (remaining r1) (read_progress _ _ _ _ Er) r1 b1); done.
Qed.

Lemma toy_conn_cooperative others : cooperative_conn (W := fworld) others toy_conn.
Proof.
  split; try (by intros; apply returns_ret). intros R HR p r mine w x r' w' Hw E. simpl in E.
  destruct (drain_ends 8 r) as (b & e & r1 & Ed). rewrite Ed in E. injection E as _ <- <-.
  split_and!; [done..|]. by eapply drain_read_on.
Qed.

Definition ftp_sample_job : Job :=
  {| ID := 1; TraceID := "images-7"; Src := "ftp://a/in.png"; Dst := "ftp://b/out.png";
     SrcProtocol := "ftp"; DstProtocol := "ftp"; Payload := "{}"; Status := "leased"; Attempts := 0;
     MaxAttempts := 3; LockedAt := Some 1000; LockedBy := sample_worker; NextRunAt := 1000;
     CreatedAt := 1000; UpdatedAt := 1000 |}%Z.

Definition sample_conn_pool : @ConnPool fworld (list chunk) :=
  conn_pool sample_client "u" "p" 0 None (λ _ _, toy_conn) 2.

Definition ftp_sample_run : res (string * option error) * fworld :=
  ProcessJob toy_host (MkDeps sample_worker None)
    (ftp_source (λ s, s) sample_conn_pool)
    (cap_transport sample_hashtext sample_cap (ftp_transport (λ s, s) sample_conn_pool background)
       (inr 5) calm_probe 3)
    ftp_sample_job (FWorld sample_leased (pool_start sample_pool) busy_slot).

Lemma ftp_job_gives_back_witness :
  fst ftp_sample_run = Ret ("succeeded"%string, None) ∧
  FtpPool.held (f_pool (snd ftp_sample_run)) ≡ₚ [] ∧
  hp_inUse (getHost "a" (pool (f_pool (snd ftp_sample_run)))) = 0%Z ∧
  hp_inUse (getHost "b" (pool (f_pool (snd ftp_sample_run)))) = 0%Z.
Proof.
  assert (fst ftp_sample_run = Ret ("succeeded"%string, None)) as E by (vm_compute; reflexivity).
  assert (owns (W := fworld) alone [] (FWorld sample_leased (pool_start sample_pool) busy_slot)) as H0
    by exact (Permutation_refl _).
  destruct (ftp_job_gives_back sample_client "u" "p" 0 None (λ s, s) (@alone fworld) alone_over
    (λ _ _, toy_conn) (sample_client_cooperative (W := fworld)) (λ _ _, toy_conn_cooperative alone)
    fworld_locks_apart fworld_apart sample_hashtext sample_cap (inr 5) calm_probe 3 2 background toy_host (MkDeps sample_worker None) ftp_sample_job []
    sample_pool (FWorld sample_leased (pool_start sample_pool) busy_slot) ("succeeded"%string, None)
    (snd ftp_sample_run)) as (_ & Ho & Hc); [done|exact H0|apply rtc_refl| |].
  - rewrite <- E. apply surjective_pairing.
  - split; [exact E|]. split; [exact Ho|]. split; apply Hc.
Defined.

(** ** Where a slot is not given back *)

(** A server connection whose [Stor] panics, as a body may. *)
#[refine] Definition panicky_conn {W} : @ServerConn W (list chunk) := {|
  MakeDir := λ _, mret None;
  Stor := λ R HR _ r w, ((Panic "read", r), w);
  Delete := λ _, mret None;
  Rename := λ _ _, mret None;
  FileSize := λ _, mret (inr 3%Z);
  Retr := λ _, mret (inr []);
  Resp_Close := λ _, mret None
|}.
Proof. done. Defined.

(** [Send] releases the connection on its return paths only: after a panic inside
    [Stor], which the worker recovers from, the slot stays taken. *)
Theorem Send_panic_leaks :
  let pool := conn_pool sample_client "u" "p" 0 None (λ _ _, panicky_conn) 2 in
  let run := ftp_Send (λ s, s) pool background chunk_reader "ftp://b/out.png" [] (pool_start sample_pool) in
  fst (fst run) = Panic "read" ∧ FtpPool.held (snd run) = ["b"%string].
Proof. split; vm_compute; reflexivity. Qed.

(** Four goroutines with a source connection each, of a pool of four. *)
Definition four_sources : psys :=
  Nat.iter 4 (do_enter 0 "h" []) (pool_start {| MaxPerHost := 4; IdleTTL := 0; NoopAfter := 0; DialTimeout := 0 |}).

(** A job from an FTP host to the same host needs a second slot of it while it holds
    the first. With the default four workers and four slots, four such jobs that have
    opened their sources wait for each other: every slot is held by a goroutine that is
    parked, and no wake-up is under way. *)
Theorem same_host_jobs_deadlock : ∃ s,
  rtc pstep (pool_start {| MaxPerHost := 4; IdleTTL := 0; NoopAfter := 0; DialTimeout := 0 |}) s ∧
  FtpPool.held s = replicate 4 "h"%string ∧ size (parked s) = 4 ∧
  map_Forall (λ _ h, h = "h"%string) (parked s) ∧ tokens s = ∅ ∧ woken s = [].
Proof.
  exists (Nat.iter 4 (do_enter 0 "h" []) four_sources). split_and!.
  - unfold four_sources. simpl.
    do 8 (eapply rtc_r; [|apply (do_enter_step _ _ false); vm_compute; reflexivity]). apply rtc_refl.
  - vm_compute. reflexivity.
  - vm_compute. reflexivity.
  - apply (bool_decide_unpack _). vm_compute. exact I.
  - vm_compute. reflexivity.
  - vm_compute. reflexivity.
Qed.
