(* ===== verification/FtpEnd.v ===== *)
(** * End to end: an FTP transfer through the worker

    [ProcessJob] with the FTP source and the FTP transport over any pool whose
    connections lead to servers that do what RFC 959 says of RETR, STOR and RNFR/RNTO.
    What the worker reports as succeeded is the file of the source under the name of
    the destination. *)

From Stdlib Require Import Init.Byte.
From S2P Require Import Prelude GoLang GoFloat ErrDetail GoUrl GoUtf8 GoJson Store Transfer GoSha Streams LocalFS Worker Ftp.
From S2P Require Import Invariant Spec WorkerFacts Jobs Samples WorkerProps.

(** ** Streams through the wrappers *)

(** A wrapper that forwards every call of [Read] forwards the stream. *)
Lemma drain_forward {R S} `{Reader R} `{Reader S} (f : R → S) n r b e r' :
  (∀ r b e r', read n r = (b, e, r') → read n (f r) = (b, e, f r')) →
  drain n r = (b, Some e, r') → drain n (f r) = (b, Some e, f r').
Proof.
  intros Hf. remember (remaining r) as m eqn:Hm. revert r b Hm.
  induction (lt_wf m) as [m _ IH]; intros r b -> E. rewrite drain_eq in E. rewrite drain_eq.
  destruct (read n r) as [[rb [re|]] r1] eqn:Er; rewrite (Hf _ _ _ _ Er); [by injection E as <- <- <-|].
  destruct (drain n r1) as [[b1 e1] r2] eqn:Ed. injection E as <- -> ->.
  by rewrite (IH (remaining r1) (read_progress _ _ _ _ Er) r1 b1).
Qed.

(** A stream that ends in EOF behind a [ctxReader] is the stream of the wrapped reader. *)
Lemma ctx_drain_eof {R} `{Reader R} n (c : ctxReader R) b c' :
  ctx_errors (cr_env c) → cr_pending c = None → drain n c = (b, Some (ESentinel IoEOF), c') →
  drain n (cr_r c) = (b, Some (ESentinel IoEOF), cr_r c').
Proof.
  remember (remaining c) as m eqn:Hm. revert c b Hm.
  induction (lt_wf m) as [m _ IH]; intros c b -> Henv Hp E.
  rewrite drain_eq in E. simpl in E. unfold ctx_read in E. rewrite Hp in E.
  destruct (ctx_entry (cr_env c) (cr_calls c)) as [err|] eqn:Een.
  { injection E as _ -> _. by specialize (Henv _ _ (or_introl Een)). }
  destruct (read n (cr_r c)) as [[rb re] r1] eqn:Er. simpl in E.
  destruct (ctx_select (cr_env c) (cr_calls c)) as [err|] eqn:Es.
  { injection E as _ -> _. by specialize (Henv _ _ (or_intror Es)). }
  rewrite take_ge in E by (by eapply read_bounded). rewrite drain_eq, Er.
  destruct re as [err|]; [by injection E as <- -> <-|]. pose proof (read_progress _ _ _ _ Er) as Hpr.
  set (c1 := CtxReader (cr_env c) r1 None (S (cr_calls c))) in *.
  destruct (drain n c1) as [[b1 e1] c2] eqn:Ed. injection E as <- -> ->.
  assert (remaining c1 < remaining c) as Hlt by (simpl; rewrite Hp; lia).
  pose proof (IH _ Hlt c1 b1 eq_refl Henv eq_refl Ed) as Hi. simpl in Hi. by rewrite Hi.
Qed.

Section End_.
Context {W Resp : Type} `{Reader Resp} `{HD : Lens W pg} (fmt_q : string → string).

(** ** The servers *)

(** The files of the servers, by host and path as the client names them. *)
Context (files : W → gmap (string * string) bytes).

(** What a connection to [host] does: STOR that is acknowledged stored the whole body,
    a rename moves the file, and a RETR whose stream ended in EOF and whose closing
    reply was good delivered the whole file; nobody else changes the files meanwhile. *)
Record serves (host : string) (c : @ServerConn W Resp) : Prop := {
  sv_mkdir : ∀ p, keeps files (MakeDir c p);
  sv_size : ∀ p, keeps files (FileSize c p);
  sv_close : ∀ r, keeps files (Resp_Close c r);
  sv_stor : ∀ R HR p (r : R) w r' w', Stor c R HR p r w = ((Ret None, r'), w') →
    ∃ n b, drain n r = (b, Some (ESentinel IoEOF), r') ∧ files w' = <[(host, p) := b]> (files w);
  sv_rename : ∀ p q w w', Rename c p q w = (Ret None, w') →
    ∃ b, files w !! (host, p) = Some b ∧ files w' = <[(host, q) := b]> (delete (host, p) (files w));
  sv_retr : ∀ p w resp w', Retr c p w = (Ret (inr resp), w') → files w' = files w ∧
    ∃ content, files w !! (host, p) = Some content ∧
      ∀ n b resp' w1 w2, drain n resp = (b, Some (ESentinel IoEOF), resp') →
        Resp_Close c resp' w1 = (Ret None, w2) → b = content;
}.

(** A pool of connections to such servers; checking out and releasing moves no files. *)
Record file_pool (pool : ConnPool) : Prop := {
  fp_acquire : ∀ h, keeps files (Acquire pool h);
  fp_release : ∀ pc b, keeps files (pc_Release pool pc b);
  fp_serves : ∀ h w pc w', Acquire pool h w = (Ret (inr pc), w') → serves h (pc_Conn pool pc);
}.

Context (pool : @ConnPool W Resp) (Hpool : file_pool pool).

(** The pool and the connections leave the control database alone. *)
Record aside_pool (p : @ConnPool W Resp) : Prop := {
  ap_acquire : ∀ h, framed (Acquire p h);
  ap_release : ∀ pc b, framed (pc_Release p pc b);
  ap_conn : ∀ h w pc w', Acquire p h w = (Ret (inr pc), w') → quiet_conn view (pc_Conn p pc);
}.

Section Aside.
Context (Hp : aside_pool pool).

(** An opened body, and what closing it does. *)
Lemma Open_aside src w body size w' :
  ftp_Open fmt_q pool src w = (Ret (inr (body, size)), w') →
  view w' = view w ∧ (∀ r, framed (rr_Close body r)) ∧ (∀ b, framed (rr_Release body b)).
Proof.
  unfold ftp_Open. destruct (url_parse src) as [u|]; [|done]. intros E.
  destruct (negb _); [done|]. do 2 (case_bool_decide; [done|]). unfold ftp_Open_at in E.
  pose proof (ap_acquire _ Hp (u_Host u) w) as F1.
  unfold mbind at 1, M_bind at 1 in E. destruct (Acquire pool (u_Host u) w) as [[[err|pc]|v] w1] eqn:Ea; [done| |done].
  pose proof (ap_conn _ Hp _ _ _ _ Ea) as Hq. pose proof (qc_size _ _ Hq (u_Path u) w1) as F2.
  unfold mbind at 1, M_bind at 1 in E. destruct (FileSize (pc_Conn pool pc) (u_Path u) w1) as [[sz|v] w2]; [|done].
  pose proof (qc_retr _ _ Hq (u_Path u) w2) as F3.
  unfold mbind at 1, M_bind at 1 in E. destruct (Retr (pc_Conn pool pc) (u_Path u) w2) as [[[err|resp]|v] w3]; [| |done].
  { unfold mbind at 1, M_bind at 1 in E. destruct (pc_Release pool pc true w3) as [[[]|v] w4]; [|done].
    by destruct (isNotFound err). }
  injection E as <- _ <-. simpl in *. split; [congruence|].
  split; [apply (qc_close _ _ Hq)|apply (ap_release _ Hp)].
Qed.

Lemma Close_aside (r : @retrReader W Resp) :
  (∀ x, framed (rr_Close r x)) → (∀ b, framed (rr_Release r b)) → framed (retr_Close r).
Proof.
  intros Hc Hr. apply framed_bind; [done|]. intros e. apply framed_bind; [|intros; apply framed_ret].
  destruct (rr_released r); [apply framed_ret|apply Hr].
Qed.

Lemma Send_aside env {R} (HR : Reader R) dst (body : R) w n sha body' w' :
  ftp_Send fmt_q pool env HR dst body w = ((Ret (inr (n, sha)), body'), w') → view w' = view w.
Proof.
  unfold ftp_Send. destruct (url_parse dst) as [u|]; [|done].
  destruct (negb _ || _ || _); [done|]. intros E. unfold ftp_Send_to in E.
  pose proof (ap_acquire _ Hp (u_Host u) w) as F1.
  destruct (Acquire pool (u_Host u) w) as [[[err|pc]|v] w1] eqn:Ea; [done| |done].
  pose proof (ap_conn _ Hp _ _ _ _ Ea) as Hq.
  set (mkdir := if bool_decide _ then _ else _) in E.
  assert (framed mkdir) as Hmk.
  { unfold mkdir. case_bool_decide; [|apply framed_ret].
    apply framed_bind; [apply (qc_mkdir _ _ Hq)|]. intros. apply framed_ret. }
  specialize (Hmk w1). destruct (mkdir w1) as [[[]|v] w2]; [|done].
  match type of E with context [Stor ?a ?b ?c ?p ?t ?x] =>
    pose proof (qc_stor _ _ Hq b c p t x) as F3; destruct (Stor a b c p t x) as [[st t1] w3] end.
  destruct st as [[err|]|v]; [| |done].
  { unfold mbind, M_bind in E. destruct (Delete _ _ w3) as [[?|?] w4]; [|done].
    by destruct (pc_Release pool pc true w4) as [[[]|v] w5]. }
  match type of E with context [Rename ?a ?p ?q] => pose proof (qc_rename _ _ Hq p q w3) as F4 end.
  unfold mbind at 1, M_bind at 1 in E. destruct (Rename (pc_Conn pool pc) _ _ w3) as [[[err|]|v] w4]; [| |done].
  { unfold mbind, M_bind in E. destruct (Delete _ _ w4) as [[?|?] w5]; [|done].
    by destruct (pc_Release pool pc true w5) as [[[]|v] w6]. }
  pose proof (ap_release _ Hp pc false w4) as F5.
  unfold mbind at 1, M_bind at 1 in E. destruct (pc_Release pool pc false w4) as [[[]|v] w5]; [|done].
  injection E as _ _ _ <-. simpl in *. congruence.
Qed.

End Aside.

(** [keeps] at a run. *)
Lemma keeps_run {A} (m : M W A) w x w' : keeps files m → m w = (x, w') → files w' = files w.
Proof. intros Hk E. specialize (Hk w). by rewrite E in Hk. Qed.

(** An opened body: the file it streams. *)
Lemma Open_file src w body size w' :
  ftp_Open fmt_q pool src w = (Ret (inr (body, size)), w') →
  ∃ u content, url_parse src = Some u ∧ files w !! (u_Host u, u_Path u) = Some content ∧
    files w' = files w ∧ (∀ r, keeps files (rr_Close body r)) ∧ (∀ b, keeps files (rr_Release body b)) ∧
    ∀ n b resp' w1 w2, drain n (rr_r body) = (b, Some (ESentinel IoEOF), resp') →
      rr_Close body resp' w1 = (Ret None, w2) → b = content.
Proof.
  unfold ftp_Open. destruct (url_parse src) as [u|]; [|done]. intros E.
  destruct (negb _); [done|]. do 2 (case_bool_decide; [done|]). unfold ftp_Open_at in E.
  unfold mbind at 1, M_bind at 1 in E. destruct (Acquire pool (u_Host u) w) as [[[err|pc]|v] w1] eqn:Ea; [done| |done].
  pose proof (fp_serves _ Hpool _ _ _ _ Ea) as Hs.
  pose proof (keeps_run _ _ _ _ (fp_acquire _ Hpool _) Ea) as F1.
  unfold mbind at 1, M_bind at 1 in E. destruct (FileSize (pc_Conn pool pc) (u_Path u) w1) as [[sz|v] w2] eqn:Ez; [|done].
  pose proof (keeps_run _ _ _ _ (sv_size _ _ Hs _) Ez) as F2.
  unfold mbind at 1, M_bind at 1 in E. destruct (Retr (pc_Conn pool pc) (u_Path u) w2) as [[[err|resp]|v] w3] eqn:Er; [| |done].
  { unfold mbind at 1, M_bind at 1 in E. destruct (pc_Release pool pc true w3) as [[[]|v] w4]; [|done].
    by destruct (isNotFound err). }
  injection E as <- _ <-. destruct (sv_retr _ _ Hs _ _ _ _ Er) as (F3 & content & Hf & Hd).
  exists u, content. split; [done|]. split; [congruence|]. split; [congruence|]. simpl.
  split; [apply (sv_close _ _ Hs)|]. split; [apply (fp_release _ Hpool)|exact Hd].
Qed.

Definition wire (p : string) : string := trim_prefix p "/".

(** The files after a transfer of [content] to [u]. *)
Definition transferred (u : URL) (content : bytes) (fs : gmap (string * string) bytes) :=
  <[(u_Host u, wire (u_Path u)) := content]> (delete (u_Host u, wire (u_Path u +:+ ".imgsync.tmp")) fs).

(** A [Send] that reports success. *)
Lemma Send_file env {R} (HR : Reader R) dst (body : R) w n sha body' w' : ctx_errors env →
  ftp_Send fmt_q pool env HR dst body w = ((Ret (inr (n, sha)), body'), w') →
  ∃ u k content, url_parse dst = Some u ∧ drain k body = (content, Some (ESentinel IoEOF), body') ∧
    n = Z.of_nat (length content) ∧ sha = sha256_hex content ∧
    files w' = transferred u content (files w).
Proof.
  intros Henv. unfold ftp_Send. destruct (url_parse dst) as [u|]; [|done].
  destruct (negb _ || _ || _); [done|]. intros E. exists u. unfold ftp_Send_to in E.
  destruct (Acquire pool (u_Host u) w) as [[[err|pc]|v] w1] eqn:Ea; [done| |done].
  pose proof (fp_serves _ Hpool _ _ _ _ Ea) as Hs.
  pose proof (keeps_run _ _ _ _ (fp_acquire _ Hpool _) Ea) as F1.
  set (mkdir := if bool_decide _ then _ else _) in E.
  assert (keeps files mkdir) as Hmk.
  { unfold mkdir. case_bool_decide; [|apply keeps_ret].
    apply keeps_bind; [apply (sv_mkdir _ _ Hs)|]. intros. apply keeps_ret. }
  destruct (mkdir w1) as [[[]|v] w2] eqn:Em; [|done]. pose proof (keeps_run _ _ _ _ Hmk Em) as F2.
  match type of E with context [Stor ?a ?b ?c ?p ?t ?x] => destruct (Stor a b c p t x) as [[st t1] w3] eqn:Es end.
  destruct st as [[err|]|v]; [| |done].
  { unfold mbind, M_bind in E. destruct (Delete _ _ w3) as [[?|?] w4]; [|done].
    by destruct (pc_Release pool pc true w4) as [[[]|v] w5]. }
  destruct (sv_stor _ _ Hs _ _ _ _ _ _ _ Es) as (k & content & Hd & F3).
  unfold mbind at 1, M_bind at 1 in E.
  destruct (Rename (pc_Conn pool pc) _ _ w3) as [[[err|]|v] w4] eqn:En; [| |done].
  { unfold mbind, M_bind in E. destruct (Delete _ _ w4) as [[?|?] w5]; [|done].
    by destruct (pc_Release pool pc true w5) as [[[]|v] w6]. }
  destruct (sv_rename _ _ Hs _ _ _ _ En) as (b & Hb & F4).
  unfold mbind at 1, M_bind at 1 in E. destruct (pc_Release pool pc false w4) as [[[]|v] w5] eqn:El; [|done].
  pose proof (keeps_run _ _ _ _ (fp_release _ Hpool _ _) El) as F5.
  injection E as <- <- <- <-. exists k, content. split; [done|].
  apply tee_drain in Hd as [Hd Ew]. split; [by apply (ctx_drain_eof k (NewCtxReader env body) content)|].
  rewrite Ew. simpl. split; [lia|]. split; [done|].
  rewrite F3 in Hb. rewrite lookup_insert_eq in Hb. injection Hb as <-.
  rewrite F5, F4, F3, delete_insert_eq, F2, F1. done.
Qed.

(** Closing the body of a finished stream. *)
Lemma Close_file (r : @retrReader W Resp) w ce w' :
  (∀ x, keeps files (rr_Close r x)) → (∀ b, keeps files (rr_Release r b)) →
  retr_Close r w = (Ret ce, w') →
  files w' = files w ∧ ∃ w1, rr_Close r (rr_r r) w = (Ret ce, w1).
Proof.
  intros Hc Hr E. split.
  - eapply keeps_run; [|exact E]. apply keeps_bind; [done|]. intros e.
    apply keeps_bind; [|intros; apply keeps_ret]. destruct (rr_released r); [apply keeps_ret|apply Hr].
  - unfold retr_Close, mbind, M_bind in E. destruct (rr_Close r (rr_r r) w) as [[c|v] w1]; [|done].
    exists w1. destruct (if rr_released r then _ else _) as [[[]|v] w2]; [|done]. by injection E as -> _.
Qed.

Lemma counter_retr_drain k (body : @retrReader W Resp) b e (cw : counter (@retrReader W Resp)) :
  drain k (Counter body 0) = (b, Some e, cw) →
  drain k (rr_r body) = (b, Some e, rr_r (counter_r cw)) ∧
  rr_Close (counter_r cw) = rr_Close body ∧ rr_Release (counter_r cw) = rr_Release body.
Proof.
  intros E. apply (drain_forward counter_r) in E.
  - simpl in E. pose proof E as E'. apply retr_drain in E' as (-> & -> & _). split; [|done].
    apply (drain_forward rr_r) in E; [done|]. intros r b1 e1 r1 Er. simpl in Er. unfold retr_read in Er.
    destruct (read k (rr_r r)) as [[b2 e2] r2]. by injection Er as <- <- <-.
  - intros [r n] b1 e1 r1 Er. change (counter_read k (Counter r n) = (b1, e1, r1)) in Er.
    unfold counter_read in Er. cbn [counter_r] in *. destruct (read k r) as [[b2 e2] r2]. by simplify_eq.
Qed.

(** C12: end to end over FTP: when the worker reports a job from an FTP address to an FTP
    address as succeeded, the source file existed, and the servers now hold exactly its
    bytes under the name of the destination; besides the temporary name nothing else
    on any server changed, whatever the database, the context, the pool and the
    connections answered on the way (nobody else writes to the servers during the job).
    The success write ran on the database as the job found it, with the size and the
    digest of these bytes; so when the worker held the lease and the connection holds,
    the row succeeded, its lock is released and one event with that size and that digest
    is appended. *)
Theorem ftp_end_to_end env h (d : Deps W) job w e w' :
  ctx_errors env → (∀ (s : pg) w, files (over s w) = files w) → aside_pool pool →
  ProcessJob h d (ftp_source fmt_q pool) (ftp_transport fmt_q pool env) job w = (Ret ("succeeded"%string, e), w') →
  ∃ us ud content,
    url_parse (Src job) = Some us ∧ url_parse (Dst job) = Some ud ∧
    files w !! (u_Host us, u_Path us) = Some content ∧
    files w' = transferred ud content (files w) ∧
    (∃ w3, view w3 = view w ∧
       writeSuccess h d job (Z.of_nat (length content)) (sha256_hex content) w3 = (Ret None, w')) ∧
    ∀ row, script (view w) = [] → held (d_LockedBy d) job (tabs (view w)) row →
      ∃ row', settled_as Succeeded (Attempts job) (next_run_at row) (now (Store.env (view w))) row row' ∧
        tabs (view w')
        = push_event (now (Store.env (view w))) (trace_id row) (ID job) EvSuccess
            (stored_object {["size" := JInt (Z.of_nat (length content)); "sha256" := JStr (sha256_hex content);
                             "duration_ms" := JInt (elapsed_ms h)]})
            (set_jobs (<[ID job := row']> (jobs (tabs (view w)))) (tabs (view w))).
Proof.
  intros Henv Hap Hp E. apply success_verified in E as (n & sha & w3 & Hv & Ew).
  destruct Hv as (body & size & cw & w1 & w2 & Eo & Es & _ & _ & Ec). simpl in *.
  destruct (Open_file _ _ _ _ _ Eo) as (us & content & Hus & Hf & F1 & Kc & Kr & Hd).
  destruct (Open_aside Hp _ _ _ _ _ Eo) as (V1 & Vc & Vr).
  unfold Send in Es. simpl in Es.
  destruct (ftp_Send fmt_q pool env _ (Dst job) (Counter body 0) w1) as [[sent cw'] w2'] eqn:Esend.
  injection Es as -> -> ->. pose proof (Send_aside Hp _ _ _ _ _ _ _ _ _ Esend) as V2.
  destruct (Send_file _ _ _ _ _ _ _ _ _ Henv Esend) as (ud & k & c' & Hud & Hdr & -> & -> & F2).
  apply counter_retr_drain in Hdr as (Hdr & Hcl & Hrl).
  destruct (Close_file (counter_r cw) w2 None w3) as (F3 & w4 & Ecl); [by rewrite Hcl|by rewrite Hrl|done|].
  assert (view w3 = view w2) as V3.
  { pose proof (Close_aside (counter_r cw)) as Hc. rewrite Hcl, Hrl in Hc. specialize (Hc Vc Vr w2).
    by rewrite Ec in Hc. }
  rewrite Hcl in Ecl. assert (c' = content) as -> by by eapply Hd.
  assert (files w' = files w3) as F4.
  { eapply keeps_run; [|exact Ew]. unfold writeSuccess. apply keeps_bind; [by apply keeps_exec|].
    intros. apply keeps_ret. }
  assert (view w3 = view w) as V by congruence.
  exists us, ud, content. split_and!; [done..|congruence|by exists w3|].
  intros row Hs Hh. rewrite <- V in *. by apply (success_recorded h d job _ _ w3 w' row).
Qed.

End End_.

(** ** Servers in memory *)

Record mworld := MWorld { m_pg : pg; m_files : gmap (string * string) bytes }.

#[refine] Instance mworld_pg : Lens mworld pg := {| view := m_pg; over := λ s w, MWorld s (m_files w) |}.
Proof. all: by intros; repeat match goal with w : mworld |- _ => destruct w end. Defined.

#[refine] Definition mem_conn (host : string) : @ServerConn mworld (list chunk) := {|
  MakeDir := λ _, mret None;
  Stor := λ R HR p r w,
    match drain 8 r with
    | (b, Some (ESentinel IoEOF), r') => ((Ret None, r'), MWorld (m_pg w) (<[(host, p) := b]> (m_files w)))
    | (_, _, r') => ((Ret (Some (EProto 426 "closed")), r'), w)
    end;
  Delete := λ p w, (Ret None, MWorld (m_pg w) (delete (host, p) (m_files w)));
  Rename := λ p q w,
    match m_files w !! (host, p) with
    | Some b => (Ret None, MWorld (m_pg w) (<[(host, q) := b]> (delete (host, p) (m_files w))))
    | None => (Ret (Some (EProto 550 "no such file")), w)
    end;
  FileSize := λ p w,
    (Ret match m_files w !! (host, p) with
         | Some b => inr (Z.of_nat (length b))
         | None => inl (EProto 550 "no such file")
         end, w);
  Retr := λ p w,
    (Ret match m_files w !! (host, p) with
         | Some b => inr (file_body b)
         | None => inl (EProto 550 "no such file")
         end, w);
  Resp_Close := λ _, mret None
|}.
Proof.
  intros R HR p r w r' w' E. destruct (drain_ends 8 r) as (b & e & r1 & Ed). rewrite Ed in E.
  exists 8, b. rewrite Ed. by destruct e as [[]| | |]; simplify_eq.
Defined.

Definition mem_pool : @ConnPool mworld (list chunk) := {|
  PooledConn := string; Acquire := λ host, mret (inr host); pc_Conn := mem_conn;
  pc_Release := λ _ _, mret tt
|}.

Lemma mem_serves host : serves m_files host (mem_conn host).
Proof.
  split; try done.
  - intros R HR p r w r' w' E. simpl in E. destruct (drain_ends 8 r) as (b & e & r1 & Ed). rewrite Ed in E.
    exists 8, b. rewrite Ed. by destruct e as [[]| | |]; simplify_eq.
  - intros p q w w' E. simpl in E. destruct (m_files w !! (host, p)) as [b|]; simplify_eq. by exists b.
  - intros p w resp w' E. simpl in E. destruct (m_files w !! (host, p)) as [c|] eqn:Ef; simplify_eq.
    split; [done|]. exists c. split; [done|]. intros n b resp' w1 w2 Ed _. destruct n as [|n].
    + rewrite drain_eq in Ed. destruct c as [|x c]; simpl in Ed; [by injection Ed|done].
    + pose proof (file_body_drain (S n) c ltac:(lia)) as Hd. rewrite Ed in Hd. simpl in Hd. by injection Hd.
Qed.

Lemma mem_file_pool : file_pool m_files mem_pool.
Proof. split; [done..|]. intros h w pc w' E. injection E as <- _. apply mem_serves. Qed.

Lemma mem_aside_pool : aside_pool mem_pool.
Proof.
  split; [done..|]. intros h w pc w' [= <- _]. split; try done.
  - intros R HR p r w0. simpl. destruct (drain 8 r) as [[b [[[]| | |]|]] r']; done.
  - intros p q w0. simpl. by destruct (m_files w0 !! _).
Qed.

Definition mem_job : Job :=
  {| ID := 1; TraceID := "images-7"; Src := "ftp://a/in.png"; Dst := "ftp://b:21/dir/out%20.png";
     SrcProtocol := "ftp"; DstProtocol := "ftp"; Payload := "{}"; Status := "leased"; Attempts := 0;
     MaxAttempts := 3; LockedAt := Some 1000; LockedBy := sample_worker; NextRunAt := 1000;
     CreatedAt := 1000; UpdatedAt := 1000 |}%Z.

Definition mem_run : res (string * option error) * mworld :=
  ProcessJob toy_host (MkDeps sample_worker None) (ftp_source (λ s, s) mem_pool)
    (ftp_transport (λ s, s) mem_pool background) mem_job
    (MWorld sample_leased {[("a", "/in.png")%string := [x00; x01; x02]]}).

Lemma ftp_end_to_end_witness :
  m_files (snd mem_run) !! ("b:21", "dir/out .png")%string = Some [x00; x01; x02] ∧
  status <$> jobs (tabs (m_pg (snd mem_run))) !! 1%Z = Some Succeeded.
Proof.
  assert (fst mem_run = Ret ("succeeded"%string, None)) as E by (vm_compute; reflexivity).
  destruct (ftp_end_to_end (λ s, s) m_files mem_pool mem_file_pool background toy_host
    (MkDeps sample_worker None) mem_job (MWorld sample_leased {[("a", "/in.png")%string := [x00; x01; x02]]})
    None (snd mem_run)) as (us & ud & content & Hus & Hud & Hf & Hw & _ & Hrow).
  - intros k e. simpl. by intros [|].
  - done.
  - apply mem_aside_pool.
  - rewrite <- E. apply surjective_pairing.
  - vm_compute in Hus, Hud. injection Hus as <-. injection Hud as <-.
    vm_compute in Hf. injection Hf as <-. split; [rewrite Hw; vm_compute; reflexivity|].
    destruct (Hrow (lease_row sample_worker 1000 sample_row) eq_refl toy_held) as (row' & Hsa & Ht).
    change (tabs (m_pg (snd mem_run))) with (tabs (view (snd mem_run))). rewrite Ht. cbn [push_event set_jobs jobs].
    rewrite lookup_insert_eq. cbn [fmap option_fmap option_map]. by rewrite (sa_status _ _ _ _ _ _ Hsa).
Defined.
