(* ===== verification/Loop.v ===== *)
(** * The worker goroutine (internal/worker/runner.go: Run, loop, emitStart, emitStop)

    The loop of one goroutine over the turns its environment gives it: what happened
    to the world before the turn, and the draws the turn uses. The list of turns is
    one life of the goroutine; its end is the turn whose loop head sees the
    cancelled context. *)

From Stdlib Require Import Ascii.
From S2P Require Import Prelude GoLang GoFloat ErrDetail GoText Store Transfer Worker Invariant.
From S2P Require Import Spec WorkerFacts Backoff Jobs Samples WorkerProps.

Local Open Scope Z_scope.

(** [r.IdleBackoff.WaitOnce(ctx)] seen from the goroutine that waits, on the channel
    [c] with the draw [k]; the result is the delay it slept at most. *)
Definition WaitOnce (k : Z) (c : nat) : M Idle Z := λ i,
  let '(delay, i') := wait_enter k c i in (Ret delay, wait_leave c i').

(** [r.IdleBackoff.WakeAll()]; the signals go to other goroutines. *)
Definition WakeAll : M Idle unit := λ i, (Ret tt, snd (wake_all i)).

Record turn (W : Type) := {
  t_world : W → W;
  t_host : host_env;
  t_draw : Z;
  t_chan : nat;
}.
Arguments t_world {W} _ _.
Arguments t_host {W} _.
Arguments t_draw {W} _.
Arguments t_chan {W} _.

Section Loop.
Context `{ScanOrder} {W : Type} `{Lens W pg} `{Lens W Idle}.

(** [emitStart] and [emitStop]. *)
Definition emitStart (r : Runner W) : M W unit := notify (r_OnWorkerStart r) (r_PodName r).
Definition emitStop (r : Runner W) : M W unit := notify (r_OnWorkerStop r) (r_PodName r).

(** One iteration of the [for] of [loop]. *)
Definition loop_turn (r : Runner W) (lockedBy : string) (t : turn W) : M W unit :=
  _ ← action (λ w, (Ret tt, t_world t w));
  o ← zoom (LeaseJob lockedBy);
  match o with
  | inl _ | inr None =>
      _ ← notify (r_OnLeaseAttempt r) false;
      _ ← zoom (WaitOnce (t_draw t) (t_chan t));
      mret tt
  | inr (Some job) =>
      _ ← notify (r_OnLeaseAttempt r) true;
      _ ← zoom WakeAll;
      processOne (t_host t) r lockedBy job
  end.

Fixpoint loop_turns (r : Runner W) (lockedBy : string) (ts : list (turn W)) : M W unit :=
  match ts with
  | [] => mret tt
  | t :: ts' => _ ← loop_turn r lockedBy t; loop_turns r lockedBy ts'
  end.

(** [func (r *Runner) loop]. *)
Definition loop (r : Runner W) (idx : Z) (ts : list (turn W)) : M W unit :=
  _ ← emitStart r;
  let lockedBy := worker_name r idx in
  defer (emitStop r) (defer (drainLease lockedBy) (loop_turns r lockedBy ts)).

(** The defaults of [func (r *Runner) Run], and the goroutines it starts. *)
Definition with_pod (p : string) (r : Runner W) : Runner W := {|
  r_PodName := p; r_SourceFor := r_SourceFor r; r_TransportFor := r_TransportFor r;
  r_OnFinish := r_OnFinish r; r_OnRetry := r_OnRetry r; r_OnLeaseAttempt := r_OnLeaseAttempt r;
  r_OnWorkerStart := r_OnWorkerStart r; r_OnWorkerStop := r_OnWorkerStop r
|}.

Definition eff_workers (n : Z) : Z := if n <=? 0 then 4 else n.

Definition Run_workers (workers : Z) (r : Runner W) : list string :=
  let r' := if bool_decide (r_PodName r = EmptyString) then with_pod "imgsync-worker" r else r in
  (λ i, worker_name r' (Z.of_nat i)) <$> seq 0 (Z.to_nat (eff_workers workers)).

End Loop.

(** Two lenses on one world that do not overlap. *)
Class Disjoint_lens {W S1 S2} (L1 : Lens W S1) (L2 : Lens W S2) : Prop :=
  view_other : ∀ s w, @view W S1 L1 (@over W S2 L2 s w) = @view W S1 L1 w.

Section LoopProps.
Context `{ScanOrder} {W : Type} `{LP : Lens W pg} `{LI : Lens W Idle} `{!Disjoint_lens LP LI}.

(** No failure is scripted. *)
Definition quiet (w : W) : Prop := script (view (S := pg) w) = [].

Lemma exec_quiet {A} (q : stmt A) : maintains quiet (zoom (exec q)).
Proof.
  intros w Hq. unfold quiet, zoom in *. destruct (exec_head q (view w)) as (s1 & -> & _ & _ & Hs & _).
  simpl. by rewrite view_over, Hs, Hq.
Qed.

Lemma record_quiet h lb job vs s : script s = [] → script (record h lb job vs s) = [].
Proof.
  revert s. induction vs as [|v vs IH]; intros s Hs; simpl; [done|]. apply IH.
  destruct (exec_head (verdict_stmt h lb job v) s) as (s1 & -> & _ & _ & Hs1 & _).
  simpl. by rewrite Hs1, Hs.
Qed.

(** The turns leave the failure script empty. *)
Lemma loop_turns_quiet (r : Runner W) lb ts :
  framed_runner r → (∀ f, r_OnLeaseAttempt r = Some f → ∀ b, framed (f b)) →
  (∀ t, t ∈ ts → ∀ w, quiet w → quiet (t_world t w)) →
  maintains quiet (loop_turns r lb ts).
Proof.
  intros Hr Hl Hts. induction ts as [|t ts IH]; [apply maintains_ret|]. simpl.
  assert (∀ b, maintains quiet (notify (r_OnLeaseAttempt r) b)) as Hn.
  { intros b. apply (maintains_framed (λ s, script s = [])). unfold notify.
    destruct (r_OnLeaseAttempt r) as [f|] eqn:E; [by apply Hl|apply framed_ret]. }
  assert (∀ A (m : M Idle A), maintains quiet (zoom m)) as Hz.
  { intros A m w Hq. unfold quiet, zoom in *. destruct (m (view w)) as [x i']. simpl.
    by rewrite view_other. }
  apply maintains_bind; [|intros _; apply IH; intros t' Ht'; apply Hts; by right].
  unfold loop_turn. apply maintains_bind; [intros w Hw; apply Hts; [left|done]|intros _].
  apply maintains_bind.
  { unfold LeaseJob. intros w Hw. unfold zoom.
    pose proof (exec_quiet (lease_stmt lb) w Hw) as He. unfold zoom in He.
    unfold mbind, M_bind. destruct (exec (lease_stmt lb) (view w)) as [[[e|x]|v] s1]; simpl in *;
      [destruct (errors_is e ErrNoRows)| |]; done. }
  intros [e|[job|]].
  - apply maintains_bind; [apply Hn|intros _].
    apply maintains_bind; [apply Hz|intros _; apply maintains_ret].
  - apply maintains_bind; [apply Hn|intros _].
    apply maintains_bind; [apply Hz|intros _]. intros w Hw. unfold quiet in *.
    destruct (processOne_wrote (t_host t) lb job r Hr w) as (vs & _ & ->). by apply record_quiet.
  - apply maintains_bind; [apply Hn|intros _].
    apply maintains_bind; [apply Hz|intros _; apply maintains_ret].
Qed.

(** The drain leaves no row of this worker leased. *)
Lemma drain_clears lb (w : W) : quiet w →
  ∀ i row, jobs (tabs (view (S := pg) (snd (drainLease lb w)))) !! i = Some row → ¬ leased_by lb row.
Proof.
  intros Hq i row. unfold drainLease.
  destruct (exec_head (drain_stmt lb) (view w)) as (s1 & E & _ & _ & _ & Ht).
  rewrite (bind_run _ _ _ _ _ (zoom_run _ _ _ _ E)). simpl. rewrite view_over, Ht, Hq. simpl.
  rewrite lookup_fmap. intros (r0 & Hr & ->)%fmap_Some.
  destruct (lease_guard lb r0) eqn:Hg; [by intros [? _]|by apply lease_guard_false].
Qed.

(** ** Properties *)

(** C29: graceful shutdown: however many turns the worker ran, whatever its sources,
    transports and callbacks did, and whether the loop returned or a callback
    panicked out of it, once [loop] is over no row is left leased by this worker
    (when the database answers). *)
Theorem loop_leaves_no_lease (r : Runner W) idx ts w :
  framed_runner r → (∀ f, r_OnLeaseAttempt r = Some f → ∀ b, framed (f b)) →
  (∀ f, r_OnWorkerStart r = Some f → ∀ p w0, ∃ w1, f p w0 = (Ret tt, w1) ∧ view (S := pg) w1 = view w0) →
  (∀ f, r_OnWorkerStop r = Some f → ∀ p, framed (f p)) →
  (∀ t, t ∈ ts → ∀ w, quiet w → quiet (t_world t w)) → quiet w →
  ∀ i row, jobs (tabs (view (S := pg) (snd (loop r idx ts w)))) !! i = Some row →
    ¬ (status row = Leased ∧ locked_by row = Some (worker_name r idx)).
Proof.
  intros Hr Hl Hstart Hstop Hts Hq i row. unfold loop.
  assert (∃ w1, emitStart r w = (Ret tt, w1) ∧ view (S := pg) w1 = view w) as (w1 & E1 & Hv1).
  { unfold emitStart, notify. destruct (r_OnWorkerStart r) as [f|] eqn:E; [by apply (Hstart f)|].
    by exists w. }
  rewrite (bind_run _ _ _ _ _ E1).
  assert (framed (emitStop r)) as Hes.
  { unfold emitStop, notify. destruct (r_OnWorkerStop r) as [f|] eqn:E; [by apply Hstop|apply framed_ret]. }
  assert (quiet w1) as Hq1 by (unfold quiet in *; by rewrite Hv1).
  pose proof (loop_turns_quiet r (worker_name r idx) ts Hr Hl Hts w1 Hq1) as Hq2.
  unfold defer. destruct (loop_turns r (worker_name r idx) ts w1) as [x w2]. simpl in Hq2.
  pose proof (drain_clears (worker_name r idx) w2 Hq2 i row) as Hd.
  destruct (drainLease (worker_name r idx) w2) as [[[]|v] w3]; simpl in Hd;
    specialize (Hes w3); destruct (emitStop r w3) as [[[]|v'] w4]; simpl in *; by rewrite Hes.
Qed.

End LoopProps.

(** ** Names of the goroutines *)

(** The lease owner names are unique: two worker goroutines have the same
    [lockedBy] only when they have the same pod name and the same index, so the lease
    guard tells apart all workers of all pods with distinct names; and one [Run]
    starts goroutines with pairwise distinct names, at least one of them. *)
Theorem worker_name_unique {W} (r1 r2 : Runner W) i1 i2 n :
  0 <= i1 → 0 <= i2 →
  (worker_name r1 i1 = worker_name r2 i2 ↔ r_PodName r1 = r_PodName r2 ∧ i1 = i2) ∧
  NoDup (Run_workers n r1) ∧ (0 < length (Run_workers n r1))%nat.
Proof.
  assert (∀ (r1 r2 : Runner W) i1 i2, 0 <= i1 → 0 <= i2 →
    worker_name r1 i1 = worker_name r2 i2 → r_PodName r1 = r_PodName r2 ∧ i1 = i2) as Hinj.
  { intros s1 s2 j1 j2 H1 H2 E. unfold worker_name in E.
    assert (∀ x, "-w"%string +:+ x = "-"%string +:+ String "w"%char x) as Hw by done.
    rewrite !Hw in E. rewrite !string_app_assoc in E.
    apply split_last in E as [Ep Ei]; [|by apply (all_chars_mono is_digit _ _ (λ a, digit_not "w"%char a eq_refl)), itoa_digits..].
    split; [|by apply (inj pretty)].
    apply (f_equal (λ s, trim_suffix s "-")) in Ep. by rewrite !trim_suffix_app in Ep. }
  intros H1 H2. split_and!.
  - split; [by apply Hinj|]. intros [E ->]. unfold worker_name. by rewrite E.
  - unfold Run_workers. generalize (if bool_decide (r_PodName r1 = EmptyString) then with_pod "imgsync-worker" r1 else r1).
    intros r'. apply (NoDup_fmap_2_strong _ _); [|apply NoDup_ListNoDup, seq_NoDup].
    intros x y _ _ E. apply Hinj in E as [_ E]; lia.
  - unfold Run_workers. rewrite length_fmap, length_seq. unfold eff_workers.
    destruct (n <=? 0) eqn:E; to_prop; lia.
Qed.

(** ** Witnesses *)

(** The toy world with an idle schedule beside it. *)
Record toy2 := Toy2 { toy2_toy : toy; toy2_idle : Idle }.

#[export, refine] Instance toy2_pg_lens : Lens toy2 pg := {|
  view := λ w, toy_pg (toy2_toy w);
  over := λ s w, Toy2 (Toy s (toy_closes (toy2_toy w))) (toy2_idle w)
|}.
Proof. all: by intros; repeat match goal with w : toy2 |- _ => destruct w as [[]] end. Defined.

#[export, refine] Instance toy2_idle_lens : Lens toy2 Idle := {|
  view := toy2_idle; over := λ i w, Toy2 (toy2_toy w) i
|}.
Proof. all: by intros; repeat match goal with w : toy2 |- _ => destruct w end. Defined.

#[export] Instance toy2_disjoint : Disjoint_lens toy2_pg_lens toy2_idle_lens.
Proof. by intros s w. Qed.

Definition toy2_runner : Runner toy2 := {|
  r_PodName := "pod"; r_SourceFor := λ _, inl (EOpaque "unknown protocol");
  r_TransportFor := λ _, inl (EOpaque "unknown protocol"); r_OnFinish := None; r_OnRetry := None;
  r_OnLeaseAttempt := None; r_OnWorkerStart := None; r_OnWorkerStop := None
|}.

Definition toy2_turn : turn toy2 :=
  {| t_world := λ w, w; t_host := toy_host; t_draw := 0; t_chan := 0 |}.

Definition toy2_world : toy2 := Toy2 toy_world (NewIdle sample_idle).

(** The worker restarts after a crash left its old job leased; one idle turn, then
    the shutdown. *)
Lemma loop_leaves_no_lease_witness :
  (lease_guard sample_worker <$> jobs (tabs (view (S := pg) toy2_world)) !! 1 = Some true) ∧
  ∀ i row, jobs (tabs (view (S := pg) (snd (loop toy2_runner 0 [toy2_turn] toy2_world)))) !! i
    = Some row → ¬ (status row = Leased ∧ locked_by row = Some sample_worker).
Proof.
  split; [vm_compute; reflexivity|].
  apply (loop_leaves_no_lease toy2_runner 0 [toy2_turn] toy2_world).
  - split; simpl; discriminate.
  - simpl. discriminate.
  - simpl. discriminate.
  - simpl. discriminate.
  - intros t ->%list_elem_of_singleton w Hw. exact Hw.
  - vm_compute. reflexivity.
Defined.

Lemma worker_name_unique_witness :
  worker_name toy_runner 1 = worker_name toy_runner 2 ↔ r_PodName toy_runner = r_PodName toy_runner ∧ 1 = 2.
Proof. apply (worker_name_unique toy_runner toy_runner 1 2 3); lia. Defined.
