(* ===== verification/Sweeper.v ===== *)
(** * The sweeper (internal/sweeper/sweeper.go) *)

From S2P Require Import Prelude GoLang GoFloat ErrDetail GoText GoJson Store Worker Invariant Spec Jobs Samples.

(** [type Config struct]. *)
Record SweeperConfig := {
  sw_Threshold : Z;
  sw_Interval : Z;
}.

Definition sweeperLockKey : string := "imgsync_sweeper".

(** The interval ["%d seconds"] of the threshold, in microseconds. *)
Definition threshold_us (cfg : SweeperConfig) : Z :=
  let th := if (sw_Threshold cfg <=? 0)%Z then (5 * Minute)%Z else sw_Threshold cfg in
  (whole_seconds th * 1000000)%Z.

(** [WHERE status='leased' AND locked_at < NOW() - $1::INTERVAL]. *)
Definition lease_expired (th : Z) (e : session_env) (r : transfer_job) : bool :=
  bool_decide (status r = Leased)
  && match locked_at r with Some l => (l <? now e - th)%Z | None => false end.

Section Sweep.
Context `{ScanOrder}.

(** [UPDATE ... SET status='pending', locked_at=NULL, ... RETURNING id, trace_id]. *)
Definition sweep_update (th : Z) : stmt (list (Z * string)) := λ e t,
  (inr ((λ r, (id r, trace_id r)) <$> List.filter (lease_expired th e) (scan (jobs t))),
   update_jobs (lease_expired th e)
     (λ r, settle_row Pending (attempts r) (next_run_at r) (now e) r) t).

(** The literal of the INSERT, and the value the column reads. *)
Definition expire_text : string :=
  "{" +:+ quote "reason" +:+ ":" +:+ quote "lease_expired" +:+ "}".

Definition expire_detail : jsonb := BObj {["reason" := BText "lease_expired"]}.

Lemma expire_text_reads : jsonb_in expire_text = Some expire_detail.
Proof. vm_compute. reflexivity. Qed.

(** [for _, r := range recoveredRows { INSERT 'expire' event }]. *)
Fixpoint insert_expire_events (rows : list (Z * string)) : M pg (option error) :=
  match rows with
  | [] => mret None
  | (i, tid) :: rows' =>
      r ← exec_tx (insert_event tid i EvExpire expire_text);
      match r with
      | inl err => mret (Some (wrapf ("sweeper: insert event for " +:+ itoa i +:+ ": ") err))
      | inr _ => insert_expire_events rows'
      end
  end.

(** [for rows.Next() { rows.Scan(...); append }], [rows.Close()], [rows.Err()]: a read of the
    stream gives a row, its end, or an error that ends the loop and [rows.Err] returns; a row
    that does not scan is returned at once. *)
Fixpoint read_recovered (rows acc : list (Z * string)) : M pg (error + list (Z * string)) :=
  next ← next_fault;
  match next, rows with
  | FLost err, _ | FReplyLost err, _ => mret (inl (wrapf "sweeper: rows iteration: " err))
  | FOk, [] => mret (inr acc)
  | FOk, r :: rows' =>
      sc ← next_fault;
      match sc with
      | FLost err | FReplyLost err => mret (inl (wrapf "sweeper: scan: " err))
      | FOk => read_recovered rows' (acc ++ [r])
      end
  end.

(** The part of [Sweep] under [defer tx.Rollback]. *)
Definition sweep_tx (cfg : SweeperConfig) : M pg (error + Z) :=
  l ← exec_tx (try_advisory_xact_lock sweeperLockKey);
  match l with
  | inl err => mret (inl (wrapf "sweeper: try advisory lock: " err))
  | inr false => mret (inr 0%Z)
  | inr true =>
      u ← exec_tx (sweep_update (threshold_us cfg));
      match u with
      | inl err => mret (inl (wrapf "sweeper: update: " err))
      | inr rows =>
          rd ← read_recovered rows [];
          match rd with
          | inl err => mret (inl err)
          | inr recoveredRows =>
              ev ← insert_expire_events recoveredRows;
              match ev with
              | Some err => mret (inl err)
              | None =>
                  c ← commit_tx;
                  match c with
                  | Some err => mret (inl (wrapf "sweeper: commit: " err))
                  | None => mret (inr (Z.of_nat (length recoveredRows)))
                  end
              end
          end
      end
  end.

(** [func Sweep]: the number of rows recovered. *)
Definition Sweep (cfg : SweeperConfig) : M pg (error + Z) :=
  b ← begin_tx;
  match b with
  | Some err => mret (inl (wrapf "sweeper: begin: " err))
  | None => defer rollback_tx (sweep_tx cfg)
  end.

(** ** Specification *)

(** The lease is older than the threshold. *)
Definition overdue (th : Z) (e : session_env) (r : transfer_job) : Prop :=
  status r = Leased ∧ ∃ l, locked_at r = Some l ∧ (l < now e - th)%Z.

#[export] Instance overdue_dec th e r : Decision (overdue th e r).
Proof.
  unfold overdue. destruct (locked_at r) as [l|]; [|right; by intros (_ & l & [=] & _)].
  refine (cast_if_and (decide (status r = Leased)) (decide (l < now e - th)%Z));
    [by eauto|by intros (_ & l' & [= <-] & Hl)|by intros [Hl _]].
Defined.

Lemma lease_expired_true th e r : lease_expired th e r = true ↔ overdue th e r.
Proof.
  unfold lease_expired, overdue. rewrite andb_true_iff, bool_decide_eq_true.
  destruct (locked_at r) as [l|]; [rewrite Z.ltb_lt|split; [by intros [_ [=]]|by intros (_ & l & [=] & _)]].
  split; [intros [? ?]; by eauto|]. by intros (? & l' & [= <-] & ?).
Qed.

Definition expired_rows (th : Z) (e : session_env) (t : tables) : list transfer_job :=
  List.filter (lease_expired th e) (scan (jobs t)).

Definition push_expired (ts : Z) (rows : list (Z * string)) (t : tables) : tables :=
  fold_left (λ t '(i, tid), push_event ts tid i EvExpire expire_detail t) rows t.

(** The tables after a sweep that committed. *)
Definition swept (th : Z) (e : session_env) (t : tables) : tables :=
  push_expired (now e) ((λ r, (id r, trace_id r)) <$> expired_rows th e t)
    (update_jobs (lease_expired th e)
       (λ r, settle_row Pending (attempts r) (next_run_at r) (now e) r) t).

(** All or nothing. *)
Inductive sweep_effect (th : Z) (e : session_env) (t t' : tables) : error + Z → Prop :=
| sweep_failed err : undone t t' → sweep_effect th e t t' (inl err)
| sweep_busy : undone t t' → adv_busy e sweeperLockKey = true → sweep_effect th e t t' (inr 0%Z)
| sweep_done r :
    adv_busy e sweeperLockKey = false → t' = swept th e t →
    (r = inr (Z.of_nat (length (expired_rows th e t))) ∨ ∃ err, r = inl err) →
    sweep_effect th e t t' r.

Lemma push_expired_jobs ts rows t :
  jobs (push_expired ts rows t) = jobs t ∧ jobs_seq (push_expired ts rows t) = jobs_seq t.
Proof.
  revert t. induction rows as [|[i tid] rows IH]; intros t; simpl; [done|].
  by destruct (IH (push_event ts tid i EvExpire expire_detail t)) as [-> ->].
Qed.

(** The rows are read in full or not at all. *)
Lemma read_recovered_run rows acc s : ∃ r s',
  read_recovered rows acc s = (Ret r, s') ∧ env s' = env s ∧ tabs s' = tabs s ∧ tx s' = tx s ∧
  (script s = [] → script s' = []) ∧
  (r = inr (acc ++ rows) ∨ script s ≠ [] ∧ ∃ e, r = inl e).
Proof.
  revert acc s. induction rows as [|x rows IH]; intros acc s; simpl;
    destruct (next_fault_run s) as (f & s1 & E1 & He1 & Ht1 & Hx1 & Hs1 & Hf1); run_bind E1.
  - assert (script s = [] → script s1 = []) by (intros Hs; by rewrite Hs1, Hs).
    destruct f as [|e|e]; eexists _, _; (split; [done|]); split_and!; try done;
      [left; by rewrite app_nil_r|right; split; [by destruct Hf1|eauto]..].
  - assert (script s = [] → script s1 = []) as Hk by (intros Hs; by rewrite Hs1, Hs).
    destruct f as [|e|e];
      [|eexists _, _; (split; [done|]); split_and!; try done; (right; split; [by destruct Hf1|eauto])..].
    destruct (next_fault_run s1) as (f2 & s2 & E2 & He2 & Ht2 & Hx2 & Hs2 & Hf2). run_bind E2.
    assert (script s = [] → script s2 = []) as Hk2 by (intros Hs; by rewrite Hs2, Hk).
    destruct f2 as [|e|e];
      [|eexists _, _; (split; [done|]); split_and!; try done || congruence;
        (right; split; [intros Hs; by destruct Hf2 as [|Hf2]; [|apply Hf2, Hk]|eauto])..].
    destruct (IH (acc ++ [x]) s2) as (r & s3 & E3 & He3 & Ht3 & Hx3 & Hs3 & Hr).
    eexists _, _. split; [exact E3|]. split_and!; try congruence; [by eauto|].
    rewrite <- app_assoc in Hr. destruct Hr as [Hr|[Hn He]]; [by left|right].
    split; [|done]. intros Hs. by apply Hn, Hk2.
Qed.

Lemma insert_expire_events_run rows s t :
  tx s = Some t → (∀ i tid, (i, tid) ∈ rows → is_Some (jobs t !! i)) → ∃ r s',
    insert_expire_events rows s = (Ret r, s') ∧ env s' = env s ∧ tabs s' = tabs s ∧
    (script s = [] → script s' = []) ∧
    ((r = None ∧ tx s' = Some (push_expired (now (env s)) rows t))
     ∨ (script s ≠ [] ∧ (∃ e, r = Some e) ∧ ∃ t', tx s' = Some t' ∧ jobs_seq t' = jobs_seq t)).
Proof.
  revert s t. induction rows as [|[i tid] rows IH]; intros s t Htx Hin; simpl.
  { eexists _, _. split; [done|]. auto 10. }
  destruct (Hin i tid) as [r0 Hi]; [left|].
  destruct (exec_tx_run (insert_event tid i EvExpire expire_text) s _ Htx)
    as (o & s1 & E1 & He1 & Ht1 & Hs1 & Hc). run_bind E1.
  unfold insert_event in Hc. rewrite expire_text_reads, Hi in Hc.
  destruct Hc as [(u & t1 & [= <- <-] & -> & Hx1)|[(Hf & Hx1 & err & ->)|(? & ? & ? & _)]]; [| |done].
  - destruct (IH s1 _ Hx1) as (r & s2 & E2 & He2 & Ht2 & Hs2 & Hc2).
    { intros j tj Hj. simpl. apply (Hin j tj). by right. }
    rewrite He1, Ht1 in *. eexists _, _. split; [exact E2|]. split; [done|]. split; [done|].
    split; [intros Hs; apply Hs2; by rewrite Hs1, Hs|].
    destruct Hc2 as [[-> Hx2]|(Hf & He & t' & Hx2 & Hq)]; [by left|right].
    split; [|by eauto]. intros Hs. apply Hf. by rewrite Hs1, Hs.
  - eexists _, _. split; [done|]. split; [done|]. split; [done|].
    split; [intros Hs; by rewrite Hs1, Hs|]. right. eauto 10.
Qed.

Lemma expired_rows_keys th e t :
  wf t → ∀ r, r ∈ expired_rows th e t → jobs t !! id r = Some r ∧ lease_expired th e r = true.
Proof.
  intros Hwf r Hr. unfold expired_rows in Hr.
  apply list_elem_of_In, filter_In in Hr as [Hr Hx].
  apply list_elem_of_In, elem_of_scan in Hr as [i Hi].
  pose proof (rw_id _ _ (wf_rows _ Hwf _ _ Hi)) as Hid. by rewrite Hid.
Qed.

Lemma sweep_tx_effect cfg s :
  let th := threshold_us cfg in
  wf (tabs s) → tx s = Some (tabs s) → ∃ r s',
    sweep_tx cfg s = (Ret r, s') ∧ env s' = env s ∧
    sweep_effect th (env s) (tabs s) (settled s') r ∧
    (script s = [] → ∃ n, r = inr n).
Proof.
  intros th Hwf Htx. unfold sweep_tx.
  destruct (exec_tx_run (try_advisory_xact_lock sweeperLockKey) s _ Htx)
    as (o & s1 & E1 & He1 & Ht1 & Hs1 & Hc). run_bind E1. unfold try_advisory_xact_lock in Hc.
  destruct Hc as [(b & t1 & [= <- <-] & -> & Hx1)|[(Hf & Hx1 & err & ->)|(? & ? & ? & _)]]; [| |done].
  2: { eexists _, _. split; [done|]. split; [done|]. split; [|done].
       apply sweep_failed. by eapply undone_settled. }
  destruct (adv_busy (env s) sweeperLockKey) eqn:Hb; simpl.
  { eexists _, _. split; [done|]. split; [done|]. split; [|eauto].
    apply sweep_busy; [by eapply undone_settled|done]. }
  destruct (exec_tx_run (sweep_update th) s1 _ Hx1)
    as (o2 & s2 & E2 & He2 & Ht2 & Hs2 & Hc2). fold th. run_bind E2. unfold sweep_update in Hc2.
  destruct Hc2 as [(u & t2 & [= <- <-] & -> & Hx2)|[(Hf & Hx2 & err & ->)|(? & ? & ? & _)]]; [| |done].
  2: { eexists _, _. split; [done|]. split; [congruence|]. split; [|intros Hs; by rewrite Hs1, Hs in Hf].
       apply sweep_failed. eapply undone_settled; [congruence|done..]. }
  edestruct (read_recovered_run
    ((λ r, (id r, trace_id r)) <$> expired_rows th (env s1) (tabs s)) [] s2)
    as (rd & s2' & Er & Her & Htr & Hxr & Hsr & Hrd). unfold expired_rows in Er. run_bind Er.
  assert (script s = [] → script s2' = []) as Hk by (intros Hs; apply Hsr; by rewrite Hs2, Hs1, Hs).
  rewrite Hx2 in Hxr. destruct Hrd as [->|(Hf & err & ->)].
  2: { eexists _, _. split; [done|]. split; [congruence|].
       split; [|intros Hs; by rewrite Hs2, Hs1, Hs in Hf].
       apply sweep_failed. eapply undone_settled; [congruence|done..]. }
  edestruct (insert_expire_events_run
    ((λ r, (id r, trace_id r)) <$> expired_rows th (env s1) (tabs s)) s2' _ Hxr)
    as (ev & s3 & E3 & He3 & Ht3 & Hs3 & Hc3).
  { intros i tid (r & [= -> ->] & Hr)%list_elem_of_fmap.
    destruct (expired_rows_keys _ _ _ Hwf r Hr) as [Hi _]. simpl. rewrite lookup_fmap, Hi. eauto. }
  change ([] ++ ?x) with x. rewrite Her, He2, He1 in *. unfold expired_rows in E3. run_bind E3.
  destruct Hc3 as [[-> Hx3]|(Hf & [err ->] & t' & Hx3 & Hq)].
  2: { eexists _, _. split; [done|]. split; [congruence|].
       split; [|intros Hs; by rewrite Hk in Hf].
       apply sweep_failed. eapply undone_settled; [congruence|done|by rewrite Hq]. }
  destruct (commit_tx_run s3 _ Hx3) as (c & s4 & E4 & He4 & Hx4 & Hs4 & Hc4). run_bind E4.
  destruct Hc4 as [(-> & Ht4)|(Hf & Ht4 & err & ->)]; eexists _, _; (split; [done|]);
    (split; [congruence|]); unfold settled; rewrite Hx4; (split; [|intros Hs]).
  - apply sweep_done; [done|by rewrite Ht4|left]. by rewrite length_fmap.
  - eauto.
  - destruct Ht4 as [->| ->]; [apply sweep_done; eauto|].
    apply sweep_failed. rewrite Ht3, Htr, Ht2, Ht1. apply undone_rolled_back.
    by rewrite (proj2 (push_expired_jobs _ _ _)).
  - by rewrite Hs3 in Hf by auto.
Qed.

Lemma sweep_run cfg s :
  wf (tabs s) → tx s = None → ∃ r s',
    Sweep cfg s = (Ret r, s') ∧ env s' = env s ∧ tx s' = None ∧
    sweep_effect (threshold_us cfg) (env s) (tabs s) (tabs s') r ∧
    (script s = [] → ∃ n, r = inr n).
Proof.
  intros Hwf Htx. unfold Sweep.
  destruct (begin_tx_run s) as (b & s1 & E1 & He1 & Ht1 & Hs1 & Hc). run_bind E1.
  destruct Hc as [(-> & Hx1)|(Hf & Hx1 & err & ->)].
  - rewrite <- Ht1 in Hx1, Hwf. destruct (sweep_tx_effect cfg s1 Hwf Hx1) as (r & s2 & E2 & He2 & Heff & Hok).
    destruct (defer_rollback_run _ _ _ _ E2) as (s3 & E3 & He3 & Hx3 & Hs3 & Ht3).
    rewrite He1, Ht1, Hs1 in *. eexists _, _. split; [exact E3|].
    split_and!; [congruence|done|by rewrite Ht3|]. intros Hs. apply Hok. by rewrite Hs.
  - eexists _, _. split; [done|]. split_and!; [done|congruence| |done].
    rewrite Ht1. apply sweep_failed, undone_refl.
Qed.

Lemma push_expired_evolves ts rows t :
  (∀ i tid, (i, tid) ∈ rows → ∃ r, jobs t !! i = Some r ∧ trace_id r = tid) →
  evolves_by eq t (push_expired ts rows t).
Proof.
  revert t. induction rows as [|[i tid] rows IH]; intros t Hin; simpl; [by apply evolves_by_refl|].
  destruct (Hin i tid) as (r & Hi & <-); [left|].
  etrans; [by apply (evolves_push eq t ts i r EvExpire)|].
  apply IH. intros j tj Hj. apply (Hin j tj). by right.
Qed.

Lemma lease_expired_leased th e r : lease_expired th e r = true → status r = Leased.
Proof. unfold lease_expired. intros Hx. by to_prop. Qed.

(** A sweep only takes jobs back. *)
Lemma sweep_implements th e t t' r :
  sweep_effect th e t t' r → evolves_by (rtc (acts (λ l, ∃ i w, l = AReclaim i w))) t t'.
Proof.
  destruct 1 as [err [-> Hle]|[-> Hle] _|r _ -> _]; [by apply evolves_rolled_back; [apply _|]..|].
  intros Hwf. refine (evolves_by_trans _ eq _ t
    (update_jobs (lease_expired th e)
            (λ r, settle_row Pending (attempts r) (next_run_at r) (now e) r) t) _ _
    (evolves_release_where t (lease_expired th e) (now e) (lease_expired_leased th e)) _ Hwf).
  - intros q1 q2 q3 Hr <-. eapply rtc_acts_mono; [|exact Hr]. intros l (i & r0 & _ & _ & ->). eauto.
  - apply push_expired_evolves. intros i tid (r0 & [= -> ->] & Hr)%list_elem_of_fmap.
    destruct (expired_rows_keys _ _ _ Hwf r0 Hr) as [Hi Hx].
    simpl. rewrite lookup_fmap, Hi. simpl. rewrite Hx. by eexists.
Qed.

Lemma sweep_evolves th e t t' r : sweep_effect th e t t' r → evolves t t'.
Proof. intros He. by eapply evolves_acts, sweep_implements. Qed.

(** How the events of one job grow in a sweep. *)
Lemma push_expired_count ts st i rows t :
  n_ev st i (events (push_expired ts rows t))
  = (n_ev st i (events t)
     + (if decide (st = EvExpire) then Z.of_nat (countb (λ x, bool_decide (fst x = i)) rows) else 0))%Z.
Proof.
  revert t. induction rows as [|[j tid] rows IH]; intros t; simpl.
  - case_decide; lia.
  - rewrite IH. simpl. rewrite n_ev_snoc. unfold is_ev. simpl.
    case_decide as Hst; [subst st; rewrite (bool_decide_true (EvExpire = EvExpire)) by done|
      rewrite (bool_decide_false (EvExpire = st)) by congruence; rewrite andb_false_r; simpl; lia].
    destruct (bool_decide (j = i)); simpl; lia.
Qed.

Lemma expired_rows_count th e t i r :
  wf t → jobs t !! i = Some r →
  countb (λ x : Z * string, bool_decide (fst x = i))
    ((λ r, (id r, trace_id r)) <$> expired_rows th e t)
  = if lease_expired th e r then 1 else 0.
Proof.
  intros Hwf Hi. pose proof (rw_id _ _ (wf_rows _ Hwf _ _ Hi)) as Hid.
  transitivity (countb (λ j, bool_decide (j = i)) (id <$> expired_rows th e t));
    [by rewrite !countb_fmap|].
  pose proof (NoDup_ids_filter (lease_expired th e) _ (scan_ids_NoDup t Hwf)) as Hnd.
  fold (expired_rows th e t) in Hnd.
  destruct (lease_expired th e r) eqn:Hx.
  - apply countb_NoDup; [done|]. rewrite <- Hid. apply list_elem_of_fmap_2.
    unfold expired_rows. apply list_elem_of_In, filter_In. split; [|done].
    apply list_elem_of_In, elem_of_scan_id; [done|]. by rewrite Hid.
  - apply countb_zero. intros j (r' & -> & Hr')%list_elem_of_fmap.
    apply bool_decide_false. intros Heq.
    destruct (expired_rows_keys _ _ _ Hwf r' Hr') as [Hi' Hx'].
    rewrite Heq, Hi in Hi'. simplify_eq. congruence.
Qed.

(** ** Properties *)

(** [Sweep] always returns and is atomic under any pattern of failures: either
    nothing changed, or every expired lease was released and got its 'expire'
    event; when another session holds the sweeper lock it does nothing and reports
    0; without failures it succeeds. *)
Theorem Sweep_spec cfg s :
  wf (tabs s) → tx s = None → ∃ r s',
    Sweep cfg s = (Ret r, s') ∧ env s' = env s ∧ tx s' = None ∧
    sweep_effect (threshold_us cfg) (env s) (tabs s) (tabs s') r ∧
    (script s = [] → ∃ n, r = inr n).
Proof. apply sweep_run. Qed.

(** C19: a committed sweep recovers exactly the rows leased longer than the threshold:
    each goes back to pending, unlocked, with its attempts and schedule untouched and
    exactly one more 'expire' event; every other row and its events are unchanged;
    the returned count is the number of recovered rows. *)
Theorem Sweep_recovers_exactly_expired cfg s n s' :
  wf (tabs s) → tx s = None → Sweep cfg s = (Ret (inr n), s') →
  adv_busy (env s) sweeperLockKey = false →
  let hit := overdue (threshold_us cfg) (env s) in
  n = Z.of_nat (size (filter (λ '(_, r), hit r) (jobs (tabs s)))) ∧
  dom (jobs (tabs s')) = dom (jobs (tabs s)) ∧
  ∀ i r, jobs (tabs s) !! i = Some r →
    (∃ r', jobs (tabs s') !! i = Some r' ∧
       if decide (hit r) then settled_as Pending (attempts r) (next_run_at r) (now (env s)) r r'
       else r' = r) ∧
    ∀ st, n_ev st i (events (tabs s'))
          = (n_ev st i (events (tabs s)) + b2z (bool_decide (hit r) && bool_decide (st = EvExpire)))%Z.
Proof.
  intros Hwf Htx E Hb hit. subst hit.
  destruct (sweep_run cfg s Hwf Htx) as (r0 & s0 & E' & _ & _ & Heff & _).
  rewrite E in E'. simplify_eq.
  inversion Heff as [| |? _ -> [[= ->]|[? ?]]]; simplify_eq; [congruence|].
  split; [unfold expired_rows; by rewrite (length_filter_scan _ _ _ (lease_expired_true _ _))|].
  unfold swept. set (th := threshold_us cfg).
  rewrite (proj1 (push_expired_jobs _ _ _)). split; [by simpl; rewrite dom_fmap_L|].
  intros i r Hi. split.
  - simpl. rewrite lookup_fmap, Hi. eexists. split; [done|]. simpl.
    case_decide as Ho; [rewrite (proj2 (lease_expired_true _ _ _) Ho); apply settle_row_as|].
    destruct (lease_expired th (env s) r) eqn:Hx; [by apply lease_expired_true in Hx|done].
  - assert (bool_decide (overdue th (env s) r) = lease_expired th (env s) r) as ->.
    { apply eq_bool_prop_intro. by rewrite bool_decide_spec, Is_true_true, lease_expired_true. }
    intros st. rewrite push_expired_count, (expired_rows_count _ _ _ _ r) by done. simpl.
    destruct (lease_expired th (env s) r); simpl; case_decide as Hst;
      rewrite ?(bool_decide_true (st = EvExpire)), ?(bool_decide_false (st = EvExpire)) by done; done.
Qed.

End Sweep.

(** ** Witnesses *)

Definition sample_sweeper : SweeperConfig := {| sw_Threshold := 0; sw_Interval := 0 |}.

Lemma Sweep_spec_witness : ∃ r s', Sweep sample_sweeper sample_later = (Ret r, s') ∧ tx s' = None.
Proof.
  destruct (Sweep_spec sample_sweeper sample_later sample_leased_wf eq_refl)
    as (r & s' & E & _ & Hx & _). exists r, s'. exact (conj E Hx).
Defined.

Lemma Sweep_recovers_exactly_expired_witness :
  size (filter (λ '(_, r), overdue (threshold_us sample_sweeper) (env sample_later) r)
          (jobs (tabs sample_later))) = 1.
Proof.
  assert (Sweep sample_sweeper sample_later = (Ret (inr 1%Z), snd (Sweep sample_sweeper sample_later)))
    as E by (vm_compute; reflexivity).
  destruct (Sweep_recovers_exactly_expired sample_sweeper sample_later 1 _ sample_leased_wf eq_refl E
    eq_refl) as (Hn & _). lia.
Defined.
