(* ===== verification/Liveness.v ===== *)
(** * The queue drains

    A worker that keeps turning settles every job: each turn that finds a due job
    uses up one attempt of it or settles it, so the attempts left over all unsettled
    jobs bound the turns needed. A sweep first takes back what dead workers hold. *)

From S2P Require Import Prelude GoLang GoFloat ErrDetail GoText Store Transfer Worker Invariant.
From S2P Require Import Spec WorkerFacts Backoff Jobs Samples WorkerProps Loop Sweeper.

Local Open Scope Z_scope.

(** ** The measure *)

(** The attempts a job still has. *)
Definition work_row (r : transfer_job) : Z :=
  if terminal (status r) then 0 else max_attempts r - attempts r.

(** The attempts left over all jobs. *)
Definition work (t : tables) : Z := map_fold (λ _ r n, work_row r + n) 0 (jobs t).

Lemma fold_work_insert (m : gmap Z transfer_job) i r : m !! i = None →
  map_fold (λ _ r n, work_row r + n) 0 (<[i := r]> m)
  = work_row r + map_fold (λ _ r n, work_row r + n) 0 m.
Proof.
  intros Hi. apply (map_fold_insert_L (λ (_ : Z) r n, work_row r + n)); [intros; lia|done].
Qed.

Lemma work_update t i r r' :
  jobs t !! i = Some r → work (set_jobs (<[i := r']> (jobs t)) t) = work t - work_row r + work_row r'.
Proof.
  intros Hi. unfold work. simpl.
  assert (∀ x, map_fold (λ _ r n, work_row r + n) 0 (<[i := x]> (jobs t))
    = work_row x + map_fold (λ _ r n, work_row r + n) 0 (delete i (jobs t))) as Hx.
  { intros x. rewrite <- insert_delete_eq. apply fold_work_insert, lookup_delete_eq. }
  rewrite Hx. rewrite <- (insert_id (jobs t) i r Hi) at 2. rewrite Hx. lia.
Qed.

Lemma work_row_nonneg i r : row_wf i r → 0 <= work_row r ∧ (work_row r = 0 → terminal (status r) = true).
Proof.
  intros Hw. unfold work_row. destruct (terminal (status r)) eqn:E; [done|].
  pose proof (rw_budget _ _ Hw E). lia.
Qed.

Lemma work_nonneg_map (m : gmap Z transfer_job) : (∀ i r, m !! i = Some r → 0 <= work_row r) →
  0 <= map_fold (λ _ r n, work_row r + n) 0 m ∧
  (map_fold (λ _ r n, work_row r + n) 0 m = 0 → ∀ i r, m !! i = Some r → work_row r = 0).
Proof.
  induction m as [|i r m Hi IH] using map_ind; intros Hm.
  { rewrite map_fold_empty. split; [done|]. intros _ i r. by rewrite lookup_empty. }
  rewrite fold_work_insert by done. destruct IH as [H0 HI].
  { intros j x Hj. apply (Hm j). rewrite lookup_insert_ne; [done|]. congruence. }
  assert (0 <= work_row r) by (apply (Hm i); apply lookup_insert_eq).
  split; [lia|]. intros E j x [[<- <-]|[Hne Hj]]%lookup_insert_Some; [lia|]. apply (HI ltac:(lia) j x Hj).
Qed.

(** No attempt is left exactly when every job is settled. *)
Lemma work_zero t : wf t → 0 <= work t ∧
  (work t <= 0 → ∀ i r, jobs t !! i = Some r → terminal (status r) = true).
Proof.
  intros Hwf. destruct (work_nonneg_map (jobs t)) as [H0 Hz].
  { intros i r Hi. apply (work_row_nonneg i), Hwf, Hi. }
  split; [done|]. intros Hle i r Hi. eapply work_row_nonneg; [by apply Hwf|].
  apply (Hz ltac:(unfold work in *; lia) i r Hi).
Qed.

Lemma work_done t : (∀ i r, jobs t !! i = Some r → terminal (status r) = true) → work t = 0.
Proof.
  unfold work. generalize (jobs t) as m. intros m.
  induction m as [|i y m Hi IH] using map_ind; intros Hdone; [by rewrite map_fold_empty|].
  rewrite fold_work_insert, IH by (try done; intros j z Hj; apply (Hdone j);
    rewrite lookup_insert_ne by congruence; done).
  unfold work_row. by rewrite (Hdone i y) by apply lookup_insert_eq.
Qed.

(** A lease does not change what is left, an outcome uses up at least one attempt. *)
Lemma work_row_leased w ts r r' : status r = Pending → leased_as w ts r r' → work_row r' = work_row r.
Proof.
  intros Hp []. destruct la_identity as (_&_&_&_&_&_&_&Hm&_). unfold work_row.
  by rewrite la_status, Hp, la_attempts, Hm.
Qed.

Lemma work_row_settled i job l st a nra ts ev r r' :
  row_wf i r → status r = Leased → attempts r = Attempts job →
  label_means job l st a ev → settled_as st a nra ts r r' → work_row r' <= work_row r - 1.
Proof.
  intros Hw Hl Ha Hm []. pose proof (rw_budget _ _ Hw ltac:(by rewrite Hl)).
  destruct sa_identity as (_&_&_&_&_&_&_&Hmax&_). unfold work_row.
  rewrite sa_status, Hl, sa_attempts. simpl. destruct Hm; simpl; lia.
Qed.

(** The same jobs, with the same identities. *)
Definition kept (t t' : tables) : Prop :=
  dom (jobs t') = dom (jobs t) ∧
  ∀ i x x', jobs t !! i = Some x → jobs t' !! i = Some x' → same_identity x x'.

Lemma kept_refl t : kept t t.
Proof. split; [done|]. intros i x x' H1 H2. rewrite H1 in H2. injection H2 as <-. apply same_identity_refl. Qed.

Lemma kept_trans t1 t2 t3 : kept t1 t2 → kept t2 t3 → kept t1 t3.
Proof.
  intros [D1 K1] [D2 K2]. split; [congruence|]. intros i x x3 H1 H3.
  assert (is_Some (jobs t2 !! i)) as [x2 H2] by (apply elem_of_dom; rewrite D1; apply elem_of_dom; eauto).
  eapply same_identity_trans; [by eapply K1|by eapply K2].
Qed.

Lemma kept_update t t' i r r' :
  jobs t !! i = Some r → same_identity r r' → jobs t' = <[i := r']> (jobs t) → kept t t'.
Proof.
  intros Hi Hid Ej. unfold kept. rewrite Ej. split.
  - rewrite dom_insert_L. assert (i ∈ dom (jobs t)) by (apply elem_of_dom; eauto). set_solver.
  - intros j x x' Hx [[<- <-]|[_ Hx']]%lookup_insert_Some; [congruence|].
    rewrite Hx in Hx'. injection Hx' as <-. apply same_identity_refl.
Qed.

(** ** One turn *)

Section Drain.
Context `{ScanOrder} {W : Type} `{LP : Lens W pg} `{LI : Lens W Idle} `{!Disjoint_lens LP LI}.

(** What a turn needs of its environment: the other parts leave the tables alone, the
    database answers and holds no row lock, and the turn comes late enough for a
    waiting job, if any, to be due. *)
Definition fair_turn (t : turn W) : Prop := ∀ w,
  let s := view (S := pg) (t_world t w) in
  tabs s = tabs (view (S := pg) w) ∧ script s = [] ∧
  ((∃ i r, jobs (tabs s) !! i = Some r ∧ status r = Pending) →
   ∃ i r, jobs (tabs s) !! i = Some r ∧ ready (env s) r).

(** A runner whose callbacks return and keep to themselves. *)
Record steady_runner (r : Runner W) : Prop := {
  st_framed : framed_runner r;
  st_lease : ∀ f, r_OnLeaseAttempt r = Some f →
    ∀ b w, ∃ w', f b w = (Ret tt, w') ∧ view (S := pg) w' = view w;
  st_finish : ∀ f, r_OnFinish r = Some f → ∀ j x w, ∃ w', f j x w = (Ret tt, w');
}.

(** No job is held by anyone. *)
Definition unleased (t : tables) : Prop := ∀ i r, jobs t !! i = Some r → status r ≠ Leased.

Lemma notify_steady (r : Runner W) b w : steady_runner r →
  ∃ w', notify (r_OnLeaseAttempt r) b w = (Ret tt, w') ∧ view (S := pg) w' = view w.
Proof.
  intros Hr. unfold notify. destruct (r_OnLeaseAttempt r) as [f|] eqn:E; [by apply (st_lease r Hr)|].
  by exists w.
Qed.

Lemma idle_run {A} (m : M Idle A) (w : W) : (∀ i, ∃ a i', m i = (Ret a, i')) →
  ∃ a w', zoom m w = (Ret a, w') ∧ view (S := pg) w' = view w.
Proof.
  intros Hm. destruct (Hm (view w)) as (a & i' & E). exists a, (over i' w).
  split; [by apply zoom_run|apply view_other].
Qed.

(** The tables after a turn: well formed, without leases, with the same jobs and less
    to do. *)
Definition progressed (t t' : tables) : Prop :=
  wf t' ∧ unleased t' ∧ kept t t' ∧ work t' <= Z.max 0 (work t - 1).

Lemma leased_wf t row row' lb ts :
  wf t → jobs t !! id row = Some row → status row = Pending → leased_as lb ts row row' →
  wf (set_jobs (<[id row := row']> (jobs t)) t).
Proof.
  intros Hwf Hi Hp Hla. destruct Hla as [(Eid&?&?&?&?&?&?&?&?) ? ? ? ? ? ?].
  replace row' with (lease_row lb ts row) by (destruct row, row'; simpl in *; by simplify_eq).
  by apply wf_lease.
Qed.

(** The outcome of a leased job uses up an attempt or settles it. *)
Lemma outcome_progress t lb ts row row' st a nra ts' l ev dt te row3 :
  wf t → unleased t → jobs t !! id row = Some row → status row = Pending → leased_as lb ts row row' →
  settled_as st a nra ts' row' row3 → label_means (scan_job row') l st a ev →
  let t2 := set_jobs (<[id row := row']> (jobs t)) t in
  let t' := push_event te (trace_id row') (id row) ev dt (set_jobs (<[id row := row3]> (jobs t2)) t2) in
  wf t' → progressed t t'.
Proof.
  intros Hwf Hun Hi Hp Hla Hsa Hl t2 t' Hwf'. subst t'. split_and!; [done| | |].
  - intros j x Hj. simpl in Hj. apply lookup_insert_Some in Hj as [[<- <-]|[Hne Hj]].
    + rewrite (sa_status _ _ _ _ _ _ Hsa). by destruct Hl.
    + rewrite lookup_insert_ne in Hj by done. by apply (Hun j).
  - apply (kept_update _ _ (id row) row row3); [done| |simpl; by rewrite insert_insert_eq].
    eapply same_identity_trans; [apply Hla|apply Hsa].
  - pose proof (leased_wf _ _ _ _ _ Hwf Hi Hp Hla) as Hwf2.
    assert (row_wf (id row) row') as Hrw by (apply (wf_rows _ Hwf2), lookup_insert_eq).
    change (work (push_event ?a ?b ?c ?d ?e ?f)) with (work f).
    rewrite (work_update _ _ row') by apply lookup_insert_eq. subst t2. rewrite (work_update _ _ row) by done.
    pose proof (work_row_leased _ _ _ _ Hp Hla).
    pose proof (work_row_settled _ (scan_job row') _ _ _ _ _ _ _ _ Hrw (la_status _ _ _ _ Hla) eq_refl Hl Hsa).
    lia.
Qed.

(** Processing a job that was just leased. *)
Lemma leased_progress (r : Runner W) h lb ts t row row' w :
  steady_runner r → legible_runner r → wf t → unleased t →
  jobs t !! id row = Some row → status row = Pending → leased_as lb ts row row' →
  script (view (S := pg) w) = [] → tabs (view (S := pg) w) = set_jobs (<[id row := row']> (jobs t)) t →
  ∃ w', processOne h r lb (scan_job row') w = (Ret tt, w') ∧ progressed t (tabs (view (S := pg) w')).
Proof.
  intros Hr Lr Hwf Hun Hi Hp Hla Hs Ht2. pose proof (leased_wf _ _ _ _ _ Hwf Hi Hp Hla) as Hwf2.
  assert (id row' = id row) as Hid by apply Hla.
  assert (held lb (scan_job row') (tabs (view (S := pg) w)) row') as Hh.
  { split_and!; [by rewrite Ht2; simpl; rewrite Hid, lookup_insert_eq| |done..]. split; apply Hla. }
  destruct (processOne_outcome h r lb (scan_job row') w row' (st_framed r Hr) Lr Hs Hh)
    as (l & st & a & nra & ev & dt & row3 & Hl & Hsa & _ & Ht5).
  destruct (processOne_ret h r lb (scan_job row') w (st_finish r Hr)) as [w5 E5].
  destruct (processOne_decides h lb (scan_job row') r w (st_framed r Hr) Lr) as (v & vs & _ & _ & Hv5).
  assert (coherent lb (scan_job row') (tabs (view (S := pg) w))) as Hco.
  { intros x Hx _. destruct Hh as (Hx' & _ & ? & ?). rewrite Hx' in Hx. by simplify_eq. }
  rewrite E5 in *. simpl in Ht5, Hv5. exists w5. split; [done|].
  assert (wf (tabs (view (S := pg) w5))) as Hwf5.
  { rewrite Hv5. rewrite <- Ht2 in Hwf2. by apply (record_evolves h lb (scan_job row') (v :: vs) _ Hwf2 Hco). }
  rewrite Ht5, Ht2, Hid in Hwf5 |- *. by eapply outcome_progress.
Qed.

(** One turn settles the job it leases, or finds none waiting. *)
Lemma loop_turn_progress (r : Runner W) lb t w :
  steady_runner r → legible_runner r → fair_turn t → wf (tabs (view (S := pg) w)) → unleased (tabs (view (S := pg) w)) →
  ∃ w', loop_turn r lb t w = (Ret tt, w') ∧
    progressed (tabs (view (S := pg) w)) (tabs (view (S := pg) w')).
Proof.
  intros Hr Lr Hf Hwf Hun. destruct (Hf w) as (Ht & Hs & Hdue). unfold loop_turn.
  rewrite (bind_run _ _ _ (Ret tt) (t_world t w)) by done.
  set (w1 := t_world t w) in *. rewrite <- Ht in *. clear Ht.
  destruct (lease_calm lb (view w1) Hwf Hs) as (o & s2 & El & He & _ & Hs2 & Ho).
  rewrite (bind_run _ _ _ _ _ (zoom_run _ _ _ _ El)).
  destruct o as [job|].
  - destruct Ho as (row & row' & Htk & Hla & Ht2 & ->).
    destruct (notify_steady r true (over s2 w1) Hr) as (w3 & E3 & Hv3). rewrite view_over in Hv3.
    rewrite (bind_run _ _ _ _ _ E3).
    destruct (idle_run WakeAll w3) as ([] & w4 & E4 & Hv4); [by intros i; eexists _, _|].
    rewrite (bind_run _ _ _ _ _ E4). rewrite Hv3 in Hv4.
    pose proof (takes_pending _ _ _ Htk) as Hp. destruct Htk as (Hi & _ & _).
    eapply leased_progress; try done; by rewrite Hv4.
  - destruct Ho as [Hnone Ht2].
    destruct (notify_steady r false (over s2 w1) Hr) as (w3 & E3 & Hv3). rewrite view_over in Hv3.
    rewrite (bind_run _ _ _ _ _ E3).
    destruct (idle_run (WaitOnce (t_draw t) (t_chan t)) w3) as (x & w4 & E4 & Hv4).
    { intros i. unfold WaitOnce. destruct (wait_enter (t_draw t) (t_chan t) i). by eexists _, _. }
    rewrite (bind_run _ _ _ _ _ E4). exists w4. rewrite Hv4, Hv3, Ht2.
    split; [done|]. split_and!; try done; [apply kept_refl|]. rewrite work_done; [lia|].
    intros i y Hi. destruct (terminal (status y)) eqn:E; [done|]. exfalso.
    assert (status y = Pending) as Hp by (specialize (Hun i y Hi); by destruct (status y)).
    destruct Hdue as (j & z & Hj & Hz); [by eauto|]. by apply (Hnone j z).
Qed.

(** The turns of any number of workers, one after the other in any order: each with its
    runner and its name. *)
Inductive team : Type := NoTurn | Turn (r : Runner W) (lockedBy : string) (t : turn W) (rest : team).

Fixpoint team_turns (l : team) : M W unit :=
  match l with
  | NoTurn => mret tt
  | Turn r lb t l' => _ ← loop_turn r lb t; team_turns l'
  end.

Fixpoint team_size (l : team) : Z :=
  match l with NoTurn => 0 | Turn _ _ _ l' => 1 + team_size l' end.

Lemma team_size_nonneg l : 0 <= team_size l.
Proof. induction l; simpl; lia. Qed.

(** Every runner is steady and legible, and every turn fair. *)
Fixpoint able (l : team) : Prop :=
  match l with
  | NoTurn => True
  | Turn r _ t l' => steady_runner r ∧ legible_runner r ∧ fair_turn t ∧ able l'
  end.

(** The turns of one worker are a team of one. *)
Fixpoint solo (r : Runner W) (lb : string) (ts : list (turn W)) : team :=
  match ts with [] => NoTurn | t :: ts' => Turn r lb t (solo r lb ts') end.

Lemma loop_turns_team (r : Runner W) lb ts : loop_turns r lb ts = team_turns (solo r lb ts).
Proof. induction ts as [|t ts IH]; [done|]. cbn. by rewrite IH. Qed.

(** Enough turns leave nothing to do. *)
Lemma team_turns_drain l w :
  able l → wf (tabs (view (S := pg) w)) → unleased (tabs (view (S := pg) w)) →
  ∃ w', team_turns l w = (Ret tt, w') ∧
    wf (tabs (view (S := pg) w')) ∧
    kept (tabs (view (S := pg) w)) (tabs (view (S := pg) w')) ∧
    work (tabs (view (S := pg) w'))
      <= Z.max 0 (work (tabs (view (S := pg) w)) - team_size l).
Proof.
  revert w. induction l as [|r lb t l IH]; intros w Hl Hwf Hun; simpl.
  { exists w. split_and!; [done..|apply kept_refl|]. lia. }
  destruct Hl as (Hr & Lr & Ht & Hl).
  destruct (loop_turn_progress r lb t w Hr Lr Ht Hwf Hun) as (w1 & E1 & Hwf1 & Hun1 & Hd1 & Hw1).
  rewrite (bind_run _ _ _ _ _ E1).
  destruct (IH w1 Hl Hwf1 Hun1) as (w2 & E2 & Hwf2 & Hd2 & Hw2).
  pose proof (team_size_nonneg l). exists w2. split_and!; [done..|by eapply kept_trans|lia].
Qed.

(** ** Taking back the leases of dead workers *)

Lemma work_fmap (f : transfer_job → transfer_job) (m : gmap Z transfer_job) :
  (∀ r, work_row (f r) = work_row r) →
  map_fold (λ _ r n, work_row r + n) 0 (f <$> m) = map_fold (λ _ r n, work_row r + n) 0 m.
Proof.
  intros Hf. induction m as [|i r m Hi IH] using map_ind; [by rewrite fmap_empty|].
  rewrite fmap_insert, !fold_work_insert, IH, Hf; [done|done|]. by rewrite lookup_fmap, Hi.
Qed.

(** A sweep that comes late enough for every lease leaves none, and as much work as
    before. *)
Lemma sweep_frees cfg s :
  wf (tabs s) → tx s = None → script s = [] → adv_busy (env s) sweeperLockKey = false →
  (∀ i r, jobs (tabs s) !! i = Some r → status r = Leased →
     overdue (threshold_us cfg) (env s) r) →
  ∃ n s', Sweep cfg s = (Ret (inr n), s') ∧ wf (tabs s') ∧ unleased (tabs s') ∧
    dom (jobs (tabs s')) = dom (jobs (tabs s)) ∧ work (tabs s') = work (tabs s).
Proof.
  intros Hwf Htx Hs Hb Hall.
  destruct (sweep_run cfg s Hwf Htx) as (r & s' & E & _ & _ & Heff & Hok).
  destruct (Hok Hs) as [n ->]. exists n, s'. split; [done|].
  split; [by apply (sweep_evolves _ _ _ _ _ Heff)|].
  inversion Heff as [| |? _ Ht _]; simplify_eq; [congruence|]. rewrite Ht. unfold swept.
  set (p := lease_expired (threshold_us cfg) (env s)).
  assert (jobs (push_expired (now (env s)) ((λ r, (id r, trace_id r))
      <$> expired_rows (threshold_us cfg) (env s) (tabs s))
      (update_jobs p (λ r, settle_row Pending (attempts r) (next_run_at r) (now (env s)) r) (tabs s)))
    = (λ r, if p r then settle_row Pending (attempts r) (next_run_at r) (now (env s)) r else r)
        <$> jobs (tabs s)) as Ej by (by rewrite (proj1 (push_expired_jobs _ _ _))).
  split_and!.
  - intros i r. rewrite Ej, lookup_fmap. intros (r0 & Hi & ->)%fmap_Some.
    destruct (p r0) eqn:Hp; [done|]. intros Hl. specialize (Hall i r0 Hi Hl).
    apply lease_expired_true in Hall. unfold p in Hp. congruence.
  - by rewrite Ej, dom_fmap_L.
  - unfold work. rewrite Ej. apply work_fmap. intros r. destruct (p r) eqn:Hp; [|done].
    apply lease_expired_leased in Hp. unfold work_row. simpl. by rewrite Hp.
Qed.

(** ** Properties *)

(** C15: the queue drains. From any well-formed state whose leftover leases are all older
    than the threshold, after one sweep, not blocked by another sweeper, and as many turns
    as there are attempts left over the unsettled jobs, taken by any workers in any order,
    every job is settled: succeeded, skipped or dead, and none is lost. Each turn finds
    the database answering and comes late enough for some waiting job, if any, to be
    due ([fair_turn]); the callbacks return and no text the sources and the transports
    report has a NUL byte ([able]); otherwise they may do anything, errors of any class
    and panics included. *)
Theorem queue_drains cfg l w :
  able l →
  let s := view (S := pg) w in
  wf (tabs s) → tx s = None → script s = [] → adv_busy (env s) sweeperLockKey = false →
  (∀ i row, jobs (tabs s) !! i = Some row → status row = Leased →
     overdue (threshold_us cfg) (env s) row) →
  work (tabs s) <= team_size l →
  ∃ w', (_ ← zoom (Sweep cfg); team_turns l) w = (Ret tt, w') ∧
    let s' := view (S := pg) w' in
    wf (tabs s') ∧ dom (jobs (tabs s')) = dom (jobs (tabs s)) ∧
    ∀ i row, jobs (tabs s') !! i = Some row →
      status row = Succeeded ∨ status row = Skipped ∨ status row = Dead.
Proof.
  intros Hl s Hwf Htx Hs Hb Hall Hlen.
  destruct (sweep_frees cfg s Hwf Htx Hs Hb Hall) as (n & s1 & E1 & Hwf1 & Hun1 & Hd1 & Hw1).
  rewrite (bind_run _ _ _ _ _ (zoom_run _ _ _ _ E1)).
  destruct (team_turns_drain l (over s1 w) Hl) as (w2 & E2 & Hwf2 & [Hd2 _] & Hw2);
    [by rewrite view_over..|]. rewrite view_over in *.
  exists w2. split; [done|]. split_and!; [done|congruence|].
  destruct (work_zero _ Hwf2) as [_ Hz]. intros i row Hi.
  specialize (Hz ltac:(lia) i row Hi). destruct (status row); eauto; done.
Qed.

End Drain.

(** ** Witnesses *)

(** The first moment every job is due. *)
Definition wake_time (t : tables) : Z := map_fold (λ _ r m, Z.max (next_run_at r) m) 0 (jobs t).

Lemma wake_time_le t i r : jobs t !! i = Some r → next_run_at r <= wake_time t.
Proof.
  unfold wake_time. revert i r. induction (jobs t) as [|j x m Hj IH] using map_ind; intros i r Hi.
  { by rewrite lookup_empty in Hi. }
  rewrite (map_fold_insert_L (λ (_ : Z) r m, Z.max (next_run_at r) m)) by (try done; intros; lia).
  apply lookup_insert_Some in Hi as [[_ <-]|[_ Hi]]; [lia|]. specialize (IH i r Hi). lia.
Qed.

Definition patient_turn {W} `{Lens W pg} : turn W := {|
  t_world := λ w, over (S := pg) {|
    env := {| now := wake_time (tabs (view (S := pg) w)); row_locks := ∅; adv_busy := λ _, false |};
    tabs := tabs (view (S := pg) w); tx := tx (view (S := pg) w); script := [] |} w;
  t_host := toy_host; t_draw := 0; t_chan := 0
|}.

Lemma patient_turn_fair {W} `{Lens W pg} : fair_turn (W := W) patient_turn.
Proof.
  intros w. cbn -[wake_time]. rewrite view_over. split; [done|]. split; [done|].
  intros (i & r & Hi & Hp). exists i, r. split; [done|]. split_and!; [done| |simpl; set_solver].
  cbn -[wake_time]. by eapply wake_time_le.
Qed.

(** A source that panics on every call: the job uses up its three attempts. *)
Definition panicky {W} : Runner W := {|
  r_PodName := "pod";
  r_SourceFor := λ _, inr {| Body := list chunk; Body_reader := chunk_reader;
    Open := λ _ w, (Panic "boom"%string, w); Close := λ _ w, (Ret None, w) |};
  r_TransportFor := λ _, inr {| Send_fn := λ R _ _ b _ w, ((Panic "boom"%string, b), w) |};
  r_OnFinish := None; r_OnRetry := None;
  r_OnLeaseAttempt := None; r_OnWorkerStart := None; r_OnWorkerStop := None
|}.

Lemma panicky_steady {W} `{Lens W pg} : steady_runner (W := W) panicky.
Proof.
  split; [split|..]; simpl; try discriminate.
  - intros p s [= <-]. by split.
  - by intros p t [= <-] R HR dst b n w.
Qed.

Lemma panicky_legible {W} : legible_runner (W := W) panicky.
Proof.
  split; simpl; [discriminate..| |by intros p t [= <-] R HR dst b n w].
  intros p s [= <-]. by split.
Qed.

(** Two such workers, turn about. *)
Fixpoint two_workers {W} `{Lens W pg} (n : nat) : team (W := W) :=
  match n with
  | O => NoTurn
  | S n' => Turn panicky "pod-w1" patient_turn (Turn panicky "pod-w0" patient_turn (two_workers n'))
  end.

Lemma two_workers_able {W} `{Lens W pg} n : able (W := W) (two_workers n).
Proof.
  induction n as [|n IH]; [exact I|].
  do 2 (split; [apply panicky_steady|split; [apply panicky_legible|split; [apply patient_turn_fair|]]]).
  exact IH.
Qed.

Definition crashed_world : toy2 := over (S := pg) sample_later toy2_world.

Lemma queue_drains_witness :
  work (tabs (view (S := pg) crashed_world)) = 3 ∧
  ∃ w', (_ ← zoom (Sweep sample_sweeper);
         team_turns (two_workers 2)) crashed_world
    = (Ret tt, w') ∧
    ∀ i row, jobs (tabs (view (S := pg) w')) !! i = Some row →
      status row = Succeeded ∨ status row = Skipped ∨ status row = Dead.
Proof.
  split; [vm_compute; reflexivity|].
  destruct (queue_drains sample_sweeper (two_workers 2) crashed_world) as (w' & E & _ & _ & Hd).
  - apply two_workers_able.
  - exact sample_leased_wf.
  - reflexivity.
  - reflexivity.
  - reflexivity.
  - intros i row Hi _. change (jobs (tabs sample_leased) !! i = Some row) in Hi.
    rewrite sample_leased_tabs in Hi. simpl in Hi.
    apply lookup_insert_Some in Hi as [[_ <-]|[Hne Hi]].
    + apply (bool_decide_unpack _). vm_compute. exact I.
    + assert (jobs (tabs sample_queued) = {[1 := sample_row]}) as E by (vm_compute; reflexivity).
      rewrite E, lookup_singleton_ne in Hi by done. discriminate Hi.
  - vm_compute. discriminate.
  - exists w'. split; [exact E|exact Hd].
Defined.
