(* ===== verification/Poison.v ===== *)
(** * A job the database cannot settle

    [json.Marshal] writes a NUL byte of an error text as the escape for U+0000, and no
    JSONB column takes it: the statement that would record the outcome is refused, the
    worker drops the error, and the job stays leased until the sweeper gives it back with
    the attempts it had. Nothing bounds how often that repeats. *)

From Stdlib Require Import Ascii.
From S2P Require Import Prelude GoLang GoFloat ErrDetail GoUtf8 GoJson Store Transfer Worker Invariant.
From S2P Require Import Spec WorkerFacts Backoff Jobs Samples WorkerProps Loop Sweeper Liveness.

Local Open Scope Z_scope.

(** ** The writes are refused *)

Section Refused.
Context {W : Type} `{Lens W pg}.

Lemma exec_refused h lb job v s : storable (verdict_detail h v) = false →
  ∃ e s', exec (verdict_stmt h lb job v) s = (Ret (inl e), s') ∧ env s' = env s ∧ tx s' = tx s ∧
    tabs s' = tabs s.
Proof.
  intros Hd. destruct (exec_head (verdict_stmt h lb job v) s) as (s1 & E1 & He & Hx & _ & Ht).
  destruct (verdict_stmt_shape h lb job v) as (st & a & nra & ev & _ & Eq).
  rewrite Eq, guarded_write_refused in E1, Ht by done. rewrite Eq.
  rewrite rolled_back_refl in Ht. cbn [fst] in E1. exists (match hd FOk (script s) with FLost e => e | _ => json_refused end), s1.
  rewrite E1. split_and!; [|done..|]; by destruct (hd FOk (script s)).
Qed.

Lemma zoom_refused h lb job v w : storable (verdict_detail h v) = false →
  ∃ e w', zoom (exec (verdict_stmt h lb job v)) w = (Ret (inl e), w') ∧
    tx (view w') = tx (view w) ∧ tabs (view w') = tabs (view w).
Proof.
  intros Hd. destruct (exec_refused h lb job v (view w) Hd) as (e & s' & E & _ & Hx & Ht).
  eexists _, _. split; [by apply zoom_run|]. by rewrite view_over.
Qed.

(** Whatever the class of the error, a detail with a NUL leads to an error and leaves the
    tables as they are. *)
Lemma classify_refused h (d : Deps W) job err dt w : storable dt = false →
  ∃ e w', classifyAndWrite h d job err dt w = (Ret (EmptyString, Some e), w') ∧
    tx (view w') = tx (view w) ∧ tabs (view w') = tabs (view w).
Proof.
  intros Hd. unfold classifyAndWrite, writeRetryOrDead, writeTerminal, writeTerminalWithAttempts.
  destruct (zoom_refused h (d_LockedBy d) job (VSkip dt) w Hd) as (e1 & w1 & E1 & H1).
  destruct (zoom_refused h (d_LockedBy d) job (VDead dt) w Hd) as (e2 & w2 & E2 & H2).
  destruct (zoom_refused h (d_LockedBy d) job (VRetry dt) w Hd) as (e3 & w3 & E3 & H3).
  cbn [verdict_stmt] in E1, E2, E3. unfold mbind, M_bind in *.
  destruct (errors_is err ErrSkippable); [rewrite E1; by eauto|].
  destruct (errors_is err ErrPermanent); [rewrite E2; by eauto|].
  destruct (MaxAttempts job <=? Attempts job + 1); rewrite E3; by eauto.
Qed.

(** The source of the job reports a NUL byte whenever it is opened. *)
Definition poisonous (r : Runner W) (sp dp path : string) : Prop :=
  ∃ source transport, r_SourceFor r sp = inr source ∧ r_TransportFor r dp = inr transport ∧
    framed (Open source path) ∧
    ∀ w, ∃ e w', Open source path w = (Ret (inl e), w') ∧
      nul_free (sanitizeErrMsg (error_text e)) = false.

Lemma open_details_refused e :
  nul_free (sanitizeErrMsg (error_text e)) = false → storable (openErrDetails e) = false.
Proof.
  intros He. apply not_true_is_false. intros Hs%storable_true.
  specialize (Hs "error" (JStr (sanitizeErrMsg (error_text e)))).
  unfold member_ok in Hs. simpl in Hs. rewrite He in Hs. discriminate Hs.
  unfold openErrDetails. by case_match.
Qed.

(** The worker returns and has recorded nothing. *)
Lemma processOne_refused h (r : Runner W) lb job w :
  framed_runner r → (∀ f, r_OnFinish r = Some f → ∀ j x w0, ∃ w1, f j x w0 = (Ret tt, w1)) →
  poisonous r (SrcProtocol job) (DstProtocol job) (Src job) →
  ∃ w', processOne h r lb job w = (Ret tt, w') ∧ tx (view w') = tx (view w) ∧
    tabs (view w') = tabs (view w).
Proof.
  intros [_ _ Hff _] Hf (source & transport & Es & Et & Hfr & Ho).
  destruct (Ho w) as (e & w1 & Eo & He). specialize (Hfr w). rewrite Eo in Hfr. simpl in Hfr.
  assert (∀ x w0, ∃ w2, fire r job x w0 = (Ret tt, w2) ∧ view (S := pg) w2 = view w0) as Hfire.
  { intros x w0. unfold fire. destruct (r_OnFinish r) as [f|] eqn:E; [|by exists w0].
    destruct (Hf f eq_refl job x w0) as [w2 E2]. exists w2. split; [done|].
    specialize (Hff f eq_refl job x w0). by rewrite E2 in Hff. }
  unfold processOne, recover. rewrite Es, Et. unfold ProcessJob.
  set (d := MkDeps lb _).
  destruct (classify_refused h d job e (openErrDetails e) w1 (open_details_refused e He))
    as (err & w2 & Ec & Hx & Ht).
  destruct (Hfire EmptyString w2) as (w3 & E3 & Hv3). exists w3.
  unfold mbind, M_bind. rewrite Eo, Ec, E3. split; [done|]. by rewrite Hv3, Hx, Ht, Hfr.
Qed.

End Refused.

(** Recording a verdict of one job leaves the rows of the others alone. *)
Lemma record_other h lb job vs s i :
  i ≠ ID job → jobs (tabs (record h lb job vs s)) !! i = jobs (tabs s) !! i.
Proof.
  intros Hi. revert s. induction vs as [|v vs IH]; intros s; simpl; [done|]. rewrite IH.
  destruct (verdict_effect h lb job v s) as (_ & _ & [->|(Hd & r & t' & Hr & Hg & Eq & ->)]); [done|].
  destruct (verdict_stmt_shape h lb job v) as (st & a & nra & ev & _ & Eq'). rewrite Eq' in Eq.
  rewrite (guarded_write_hit _ _ _ _ _ _ _ r) in Eq by done. injection Eq as <-. simpl.
  by rewrite lookup_insert_ne.
Qed.

(** ** Rounds of the system *)

Section Stuck.
Context `{ScanOrder} {W : Type} `{LP : Lens W pg} `{LI : Lens W Idle} `{!Disjoint_lens LP LI}.

(** What the processes around the job do: a turn of any worker, a sweep, a drain. Before
    each the rest of the world may move ([t_world], [f]): time passes, locks come and go,
    connections fail. *)
Inductive op :=
| OTurn (lb : string) (t : turn W)
| OSweep (f : W → W) (cfg : SweeperConfig)
| ODrain (lb : string).

Definition run_op (r : Runner W) (o : op) : M W unit :=
  match o with
  | OTurn lb t => loop_turn r lb t
  | OSweep f cfg =>
      _ ← action (λ w, (Ret tt, f w));
      _ ← zoom (Sweep cfg);
      mret tt
  | ODrain lb => drainLease lb
  end.

Fixpoint run_ops (r : Runner W) (os : list op) : M W unit :=
  match os with
  | [] => mret tt
  | o :: os' => _ ← run_op r o; run_ops r os'
  end.

(** The rest of the world does not write the tables. *)
Definition aside (f : W → W) : Prop := ∀ w,
  tabs (view (S := pg) (f w)) = tabs (view (S := pg) w) ∧ tx (view (S := pg) (f w)) = tx (view (S := pg) w).

Definition op_aside (o : op) : Prop :=
  match o with
  | OTurn _ t => aside (t_world t)
  | OSweep f _ => aside f
  | ODrain _ => True
  end.

(** The row [i] is still [row0] but for its lease. *)
Definition like (row0 row : transfer_job) : Prop :=
  src row = src row0 ∧ src_protocol row = src_protocol row0 ∧ dst_protocol row = dst_protocol row0 ∧
  attempts row = attempts row0 ∧ max_attempts row = max_attempts row0 ∧ terminal (status row) = false.

Definition stuck (i : Z) (row0 : transfer_job) (w : W) : Prop :=
  let s := view (S := pg) w in
  wf (tabs s) ∧ tx s = None ∧ ∃ row, jobs (tabs s) !! i = Some row ∧ like row0 row.

(** The action returns and the job is still there. *)
Definition leaves {A} (i : Z) (row0 : transfer_job) (m : M W A) : Prop := ∀ w,
  stuck i row0 w → ∃ a w', m w = (Ret a, w') ∧ stuck i row0 w'.

Lemma leaves_bind {A B} i row0 (m : M W A) (f : A → M W B) :
  leaves i row0 m → (∀ a, leaves i row0 (f a)) → leaves i row0 (m ≫= f).
Proof.
  intros Hm Hf w Hw. destruct (Hm w Hw) as (a & w1 & E1 & H1).
  rewrite (bind_run _ _ _ _ _ E1). by apply Hf.
Qed.

Lemma leaves_ret {A} i row0 (a : A) : leaves i row0 (mret a : M W A).
Proof. intros w Hw. by exists a, w. Qed.

Lemma stuck_view i row0 (w w' : W) :
  tabs (view (S := pg) w') = tabs (view w) → tx (view (S := pg) w') = tx (view w) →
  stuck i row0 w → stuck i row0 w'.
Proof. intros Ht Hx. unfold stuck. by rewrite Ht, Hx. Qed.

Lemma leaves_aside i row0 f : aside f → leaves i row0 (action (λ w, (Ret tt, f w)) : M W unit).
Proof.
  intros Hf w Hw. exists tt, (f w). split; [done|]. destruct (Hf w). by eapply stuck_view.
Qed.

(** A sweep gives the job back as it was. *)
Lemma sweep_leaves i row0 cfg : leaves i row0 (zoom (Sweep cfg)).
Proof.
  intros w (Hwf & Htx & row & Hi & Hl).
  destruct (sweep_run cfg (view w) Hwf Htx) as (r & s' & E & _ & Hx & Heff & _).
  exists r, (over s' w). split; [by apply zoom_run|]. unfold stuck. rewrite view_over.
  split; [by apply (sweep_evolves _ _ _ _ _ Heff)|]. split; [done|].
  destruct Heff as [err Hu|Hu _|r _ -> _];
    [by (destruct (undone_jobs _ _ Hu) as [-> _]; eauto)..|].
  unfold swept. rewrite (proj1 (push_expired_jobs _ _ _)). simpl. rewrite lookup_fmap, Hi. simpl.
  case_match; eexists; (split; [done|]); [|done].
  destruct Hl as (? & ? & ? & ? & ? & ?). by repeat split.
Qed.

(** So does a drain. *)
Lemma drain_leaves i row0 lb : leaves i row0 (drainLease lb : M W unit).
Proof.
  intros w (Hwf & Htx & row & Hi & Hl). unfold drainLease.
  destruct (exec_head (drain_stmt lb) (view w)) as (s1 & E & _ & Hx & _ & Ht).
  rewrite (bind_run _ _ _ _ _ (zoom_run _ _ _ _ E)). eexists _, _. split; [done|].
  unfold stuck. rewrite view_over, Hx, Ht.
  assert (evolves (tabs (view w)) (update_jobs (lease_guard lb)
    (λ r, settle_row Pending (attempts r) (next_run_at r) (now (env (view w))) r) (tabs (view w)))) as Hev
    by (eapply evolves_acts, evolves_release_where; apply lease_guard_leased).
  destruct (hd FOk (script (view w))); simpl; [|exact (conj Hwf (conj Htx (ex_intro _ row (conj Hi Hl))))|];
    (split; [by apply Hev|]); (split; [done|]); rewrite lookup_fmap, Hi;
    (eexists; split; [reflexivity|]); cbv beta; destruct (lease_guard lb row); try done;
    destruct Hl as (? & ? & ? & ? & ? & ?); by repeat split.
Qed.

Lemma notify_leaves i row0 (r : Runner W) b :
  steady_runner r → leaves i row0 (notify (r_OnLeaseAttempt r) b).
Proof.
  intros Hr w Hw. destruct (notify_steady r b w Hr) as (w' & E & Hv). exists tt, w'.
  split; [done|]. eapply stuck_view; [| |done]; by rewrite Hv.
Qed.

Lemma idle_leaves {A} i row0 (m : M Idle A) : (∀ i, ∃ a i', m i = (Ret a, i')) →
  leaves i row0 (zoom m).
Proof.
  intros Hm w Hw. destruct (idle_run m w Hm) as (a & w' & E & Hv). exists a, w'.
  split; [done|]. eapply stuck_view; [| |done]; by rewrite Hv.
Qed.

(** The worker serves a job it just leased: this one, which it cannot settle, or another. *)
Lemma processOne_leaves i row0 h (r : Runner W) lb r0 ts w :
  steady_runner r → poisonous r (src_protocol row0) (dst_protocol row0) (src row0) →
  jobs (tabs (view (S := pg) w)) !! id r0 = Some (lease_row lb ts r0) → stuck i row0 w →
  ∃ w', processOne h r lb (scan_job (lease_row lb ts r0)) w = (Ret tt, w') ∧ stuck i row0 w'.
Proof.
  intros Hr Hp Hr0 Hst. pose proof Hst as (Hwf & Htx & row & Hi & Hl).
  destruct (decide (id r0 = i)) as [Hid|Hne].
  - rewrite Hid, Hi in Hr0. injection Hr0 as ->. destruct Hl as (E1 & E2 & E3 & _). simpl in E1, E2, E3.
    destruct (processOne_refused h r lb (scan_job (lease_row lb ts r0)) w)
      as (w4 & E4 & Hx4 & Ht4); [apply Hr..|simpl; by rewrite E1, E2, E3|].
    exists w4. split; [done|]. by eapply stuck_view.
  - destruct (processOne_ret h r lb (scan_job (lease_row lb ts r0)) w) as [w4 E4];
      [apply (st_finish r Hr)|]. exists w4. split; [done|].
    destruct (processOne_wrote h lb (scan_job (lease_row lb ts r0)) r (st_framed r Hr) w)
      as (vs & _ & Hv4). rewrite E4 in Hv4. cbn [snd] in Hv4.
    unfold stuck. rewrite Hv4. split; [|split; [by rewrite (proj2 (record_session _ _ _ _ _))|]].
    + apply record_evolves; [done| |done]. intros x Hx _. simpl in Hx.
      rewrite Hr0 in Hx. by injection Hx as <-.
    + rewrite record_other by (by apply not_eq_sym). by eauto.
Qed.

(** A worker that turns leases the job, fails to record anything, and leaves it; or it
    serves another job. *)
Lemma turn_leaves i row0 (r : Runner W) lb t :
  steady_runner r → poisonous r (src_protocol row0) (dst_protocol row0) (src row0) →
  aside (t_world t) → leaves i row0 (loop_turn r lb t).
Proof.
  intros Hr Hp Ht. apply leaves_bind; [by apply leaves_aside|]. intros [] w (Hwf & Htx & row & Hi & Hl).
  destruct (lease_run lb (view w) Hwf) as (o & s1 & E1 & _ & Hx1 & Hc).
  rewrite (bind_run _ _ _ _ _ (zoom_run _ _ _ _ E1)).
  assert (leaves i row0 (_ ← notify (r_OnLeaseAttempt r) false;
    _ ← zoom (WaitOnce (t_draw t) (t_chan t)); mret tt)) as Hidle.
  { apply leaves_bind; [by apply notify_leaves|intros _].
    apply leaves_bind; [apply idle_leaves|intros _; apply leaves_ret].
    intros j. unfold WaitOnce. destruct (wait_enter (t_draw t) (t_chan t) j). by eexists _, _. }
  assert (stuck i row0 (over s1 w)) as H1.
  { unfold stuck. rewrite view_over, Hx1. destruct Hc as [[-> _]|(r0 & Htk & -> & _)];
      [by split_and!; eauto|].
    pose proof (takes_pending _ _ _ Htk) as Hpe. destruct Htk as (Hr0 & _).
    split; [by apply wf_lease|]. split; [done|]. simpl.
    destruct (decide (id r0 = i)) as [<-|Hne]; [|rewrite lookup_insert_ne by done; by eauto].
    rewrite lookup_insert_eq. eexists. split; [done|]. rewrite Hr0 in Hi. simplify_eq.
    destruct Hl as (? & ? & ? & ? & ? & ?). by repeat split. }
  destruct o as [e|[job|]]; [by apply Hidle| |by apply Hidle].
  destruct Hc as [[_ Hnj]|(r0 & Htk & Ht1 & Hj)]; [by destruct (Hnj job)|].
  specialize (Hj job eq_refl). subst job.
  destruct (notify_steady r true (over s1 w) Hr) as (w2 & E2 & Hv2). rewrite (bind_run _ _ _ _ _ E2).
  destruct (idle_run WakeAll w2) as ([] & w3 & E3 & Hv3); [by intros j; eexists _, _|].
  rewrite (bind_run _ _ _ _ _ E3). rewrite Hv2 in Hv3.
  exists tt. apply processOne_leaves; [done..| |eapply stuck_view; [| |exact H1]; by rewrite Hv3].
  rewrite Hv3, view_over, Ht1. simpl. by rewrite lookup_insert_eq.
Qed.

Lemma run_ops_leaves i row0 (r : Runner W) os :
  steady_runner r → poisonous r (src_protocol row0) (dst_protocol row0) (src row0) →
  Forall op_aside os → leaves i row0 (run_ops r os).
Proof.
  intros Hr Hp Hos. induction Hos as [|o os Ho _ IH]; [apply leaves_ret|].
  apply leaves_bind; [|by intros []]. destruct o as [lb t|f cfg|lb]; simpl in *.
  - by apply turn_leaves.
  - apply leaves_bind; [by apply leaves_aside|intros _].
    apply leaves_bind; [apply sweep_leaves|intros _; apply leaves_ret].
  - apply drain_leaves.
Qed.

(** ** Properties *)

(** C17: A job whose source reports a NUL byte is never settled. However many turns the
    workers make, however often the sweeper takes expired leases back and workers drain
    theirs, with or without failures of the database, every call returns and the job is
    still pending or leased, with exactly the attempts it had: the limit of
    [max_attempts] does not bound the tries of such a job. *)
Theorem nul_error_never_settles (r : Runner W) os i row0 w :
  steady_runner r → poisonous r (src_protocol row0) (dst_protocol row0) (src row0) →
  Forall op_aside os →
  let s := view (S := pg) w in
  wf (tabs s) → tx s = None → jobs (tabs s) !! i = Some row0 → terminal (status row0) = false →
  ∃ w' row, run_ops r os w = (Ret tt, w') ∧ jobs (tabs (view (S := pg) w')) !! i = Some row ∧
    attempts row = attempts row0 ∧ max_attempts row = max_attempts row0 ∧
    (status row = Pending ∨ status row = Leased).
Proof.
  intros Hr Hp Hos s Hwf Htx Hi Ht.
  destruct (run_ops_leaves i row0 r os Hr Hp Hos w) as ([] & w' & E & _ & _ & row & Hi' & Hl).
  { split_and!; [done..|]. exists row0. by repeat split. }
  destruct Hl as (_ & _ & _ & Ha & Hm & Hst). exists w', row. split_and!; [done..|].
  destruct (status row); auto; done.
Qed.

End Stuck.

(** ** Witnesses *)

(** The reply of a server with a NUL in it, for a file that is not there. *)
Definition nul_reply : error := EProto 550 (String "000" "no such file").

Definition toy2_nul : Runner toy2 := {|
  r_PodName := "pod";
  r_SourceFor := λ _, inr {| Body := list chunk; Body_reader := chunk_reader;
    Open := λ _ w, (Ret (inl nul_reply), w); Close := λ _ w, (Ret None, w) |};
  r_TransportFor := λ _, inr {| Send_fn := λ R _ _ b _ w, ((Panic "boom"%string, b), w) |};
  r_OnFinish := None; r_OnRetry := None;
  r_OnLeaseAttempt := None; r_OnWorkerStart := None; r_OnWorkerStop := None
|}.

Lemma toy2_nul_steady : steady_runner toy2_nul.
Proof.
  split; [split|..]; simpl; try discriminate.
  - intros p s [= <-]. by split.
  - by intros p t [= <-] R HR dst b n w.
Qed.

Lemma toy2_nul_poisonous sp dp path : poisonous toy2_nul sp dp path.
Proof.
  eexists _, _. split; [done|]. split; [done|]. split; [done|].
  intros w. eexists _, _. split; [done|]. vm_compute. reflexivity.
Qed.

(** An hour later. *)
Definition later (w : toy2) : toy2 := over (at_time (now (env (view (S := pg) w)) + 3600000000) (view (S := pg) w)) w.

Definition nul_rounds (n : nat) : list (op (W := toy2)) :=
  concat (replicate n [OTurn "pod-w1" patient_turn; OSweep later sample_sweeper]).

Lemma nul_error_never_settles_witness :
  ∃ w' row, run_ops toy2_nul (nul_rounds 9) (over (S := pg) sample_queued toy2_world) = (Ret tt, w') ∧
    jobs (tabs (view (S := pg) w')) !! 1 = Some row ∧ attempts row = 0 ∧ max_attempts row = 3.
Proof.
  destruct (nul_error_never_settles toy2_nul (nul_rounds 9) 1 sample_row
    (over (S := pg) sample_queued toy2_world) toy2_nul_steady (toy2_nul_poisonous _ _ _))
    as (w' & row & E & Hi & Ha & Hm & _);
    [|exact sample_queued_wf|reflexivity|exact sample_queued_row|reflexivity|].
  - unfold nul_rounds. apply Forall_concat, Forall_replicate. repeat constructor.
  - exists w', row. split; [exact E|]. split; [exact Hi|]. split; [exact Ha|exact Hm].
Defined.
