(* ===== verification/Retention.v ===== *)
(** * Retention (internal/retention/retention.go) *)

From S2P Require Import Prelude GoLang GoFloat Store Worker Invariant Spec Jobs Samples.

(** [type Config struct]. *)
Record RetentionConfig := {
  rt_Window : Z;
  rt_BatchSize : Z;
  rt_Interval : Z;
}.

Definition retentionLockKey : string := "imgsync_retention".

(** [if cfg.BatchSize <= 0 { cfg.BatchSize = 1000 }] and the interval of the window. *)
Definition eff_batch (cfg : RetentionConfig) : Z :=
  if (rt_BatchSize cfg <=? 0)%Z then 1000 else rt_BatchSize cfg.

Definition window_us (cfg : RetentionConfig) : Z := (whole_seconds (rt_Window cfg) * 1000000)%Z.

(** [WHERE status IN ('succeeded','skipped','dead') AND updated_at < NOW() - $1]. *)
Definition expired_row (win : Z) (e : session_env) (r : transfer_job) : bool :=
  terminal (status r) && (updated_at r <? now e - win)%Z.

Section Retention.
Context `{ScanOrder}.

(** [DELETE FROM transfer_jobs WHERE id IN (SELECT id ... LIMIT $2)]: the rows
    affected. *)
Definition delete_batch (win batch : Z) : stmt Z := λ e t,
  let ids := take (Z.to_nat batch) (id <$> List.filter (expired_row win e) (scan (jobs t))) in
  (inr (Z.of_nat (length ids)), delete_jobs ids t).

(** [for { DELETE; deleted += n; if n < cfg.BatchSize { break } }]. *)
Fixpoint delete_loop (fuel : nat) (win batch deleted : Z) : M pg (error + Z) :=
  match fuel with
  | 0 => panic "out of fuel"
  | S fuel' =>
      r ← exec_tx (delete_batch win batch);
      match r with
      | inl err => mret (inl (wrapf "retention: delete: " err))
      | inr n =>
          if (n <? batch)%Z then mret (inr (deleted + n)%Z)
          else delete_loop fuel' win batch (deleted + n)%Z
      end
  end.

(** The part of [Sweep] under [defer tx.Rollback]. A batch that is full deletes at
    least one row, so one round more than there are rows is enough fuel. *)
Definition retention_tx (cfg : RetentionConfig) : M pg (error + Z) :=
  l ← exec_tx (try_advisory_xact_lock retentionLockKey);
  match l with
  | inl err => mret (inl (wrapf "retention: try advisory lock: " err))
  | inr false => mret (inr 0%Z)
  | inr true =>
      s ← get;
      d ← delete_loop (S (size (jobs (tabs s)))) (window_us cfg) (eff_batch cfg) 0;
      match d with
      | inl err => mret (inl err)
      | inr deleted =>
          c ← commit_tx;
          match c with
          | Some err => mret (inl (wrapf "retention: commit: " err))
          | None => mret (inr deleted)
          end
      end
  end.

(** [func Sweep]: the number of rows deleted. *)
Definition RetentionSweep (cfg : RetentionConfig) : M pg (error + Z) :=
  if (rt_Window cfg <=? 0)%Z then mret (inr 0%Z)
  else
    b ← begin_tx;
    match b with
    | Some err => mret (inl (wrapf "retention: begin: " err))
    | None => defer rollback_tx (retention_tx cfg)
    end.

(** ** Specification: one DELETE without a LIMIT *)

(** The job is settled and its last change is older than the window. *)
Definition outdated (win : Z) (e : session_env) (r : transfer_job) : Prop :=
  (status r = Succeeded ∨ status r = Skipped ∨ status r = Dead) ∧ (updated_at r < now e - win)%Z.

#[export] Instance outdated_dec win e r : Decision (outdated win e r).
Proof. unfold outdated. apply _. Defined.

Lemma expired_row_true win e r : expired_row win e r = true ↔ outdated win e r.
Proof.
  unfold expired_row, outdated. rewrite andb_true_iff, Z.ltb_lt.
  destruct (status r); simpl; naive_solver.
Qed.

Definition expired_ids (win : Z) (e : session_env) (t : tables) : list Z :=
  id <$> List.filter (expired_row win e) (scan (jobs t)).

Definition purged (win : Z) (e : session_env) (t : tables) : tables :=
  delete_jobs (expired_ids win e t) t.

Inductive retention_effect (win : Z) (e : session_env) (t t' : tables) : error + Z → Prop :=
| ret_failed err : undone t t' → retention_effect win e t t' (inl err)
| ret_busy : undone t t' → adv_busy e retentionLockKey = true → retention_effect win e t t' (inr 0%Z)
| ret_done r :
    adv_busy e retentionLockKey = false → t' = purged win e t →
    (r = inr (Z.of_nat (length (expired_ids win e t))) ∨ ∃ err, r = inl err) →
    retention_effect win e t t' r.

Lemma elem_of_expired_ids win e t i :
  wf t → i ∈ expired_ids win e t ↔ ∃ r, jobs t !! i = Some r ∧ expired_row win e r = true.
Proof.
  intros Hwf. unfold expired_ids. rewrite list_elem_of_fmap. split.
  - intros (r & -> & Hr). apply list_elem_of_In, filter_In in Hr as [Hr Hx].
    exists r. split; [|done]. by apply elem_of_scan_id, list_elem_of_In.
  - intros (r & Hi & Hx). pose proof (rw_id _ _ (wf_rows _ Hwf _ _ Hi)) as Hid.
    exists r. split; [done|]. apply list_elem_of_In, filter_In. split; [|done].
    apply list_elem_of_In, elem_of_scan_id; [done|]. by rewrite Hid.
Qed.

Lemma expired_ids_NoDup win e t : wf t → NoDup (expired_ids win e t).
Proof. intros Hwf. apply NoDup_ids_filter. by apply scan_ids_NoDup. Qed.

Lemma delete_jobs_ext ids1 ids2 t :
  (∀ i, i ∈ ids1 ↔ i ∈ ids2) → delete_jobs ids1 t = delete_jobs ids2 t.
Proof.
  intros Hext. unfold delete_jobs. f_equal.
  - apply map_filter_ext. intros i r _. by rewrite Hext.
  - apply list_filter_iff. intros x. by rewrite Hext.
Qed.

Lemma delete_jobs_app ids1 ids2 t :
  delete_jobs ids2 (delete_jobs ids1 t) = delete_jobs (ids1 ++ ids2) t.
Proof.
  unfold delete_jobs. simpl. f_equal.
  - rewrite map_filter_filter. apply map_filter_ext. intros i r _. rewrite elem_of_app. tauto.
  - rewrite list_filter_filter. apply list_filter_iff. intros x. rewrite elem_of_app. tauto.
Qed.

(** What is left to delete after a batch. *)
Lemma expired_ids_drop win e t n :
  wf t → expired_ids win e (delete_jobs (take n (expired_ids win e t)) t)
         ≡ₚ drop n (expired_ids win e t).
Proof.
  intros Hwf. set (E := expired_ids win e t).
  pose proof (expired_ids_NoDup win e t Hwf) as Hnd. fold E in Hnd.
  rewrite <- (take_drop n E) in Hnd at 1. apply NoDup_app in Hnd as (_ & Hdis & Hnd).
  apply NoDup_Permutation; [apply expired_ids_NoDup; by apply wf_delete|done|].
  intros i. rewrite elem_of_expired_ids by (by apply wf_delete). rewrite jobs_delete.
  split.
  - intros (r & Hi & Hx). case_decide as Hin; [done|].
    assert (i ∈ E) as HE by (apply elem_of_expired_ids; eauto).
    rewrite <- (take_drop n E) in HE. by apply elem_of_app in HE as [?|?].
  - intros Hin. assert (i ∈ E) as HE.
    { rewrite <- (take_drop n E). apply elem_of_app. by right. }
    apply elem_of_expired_ids in HE as (r & Hi & Hx); [|done].
    exists r. split; [|done]. rewrite decide_False; [done|]. intros Ht. by apply (Hdis i).
Qed.

(** The batched loop terminates and deletes what one unbounded DELETE would. *)
Lemma delete_loop_run fuel win batch d s t :
  tx s = Some t → wf t → (0 < batch)%Z → length (expired_ids win (env s) t) < fuel → ∃ r s',
    delete_loop fuel win batch d s = (Ret r, s') ∧ env s' = env s ∧ tabs s' = tabs s ∧
    (script s = [] → script s' = []) ∧
    ((r = inr (d + Z.of_nat (length (expired_ids win (env s) t)))%Z
      ∧ tx s' = Some (purged win (env s) t))
     ∨ (script s ≠ [] ∧ (∃ e, r = inl e) ∧ ∃ t', tx s' = Some t' ∧ jobs_seq t' = jobs_seq t)).
Proof.
  revert d s t. induction fuel as [|fuel IH]; intros d s t Htx Hwf Hb Hfuel; [lia|]. simpl.
  destruct (exec_tx_run (delete_batch win batch) s _ Htx)
    as (o & s1 & E1 & He1 & Ht1 & Hs1 & Hc). run_bind E1. unfold delete_batch in Hc.
  fold (expired_ids win (env s) t) in Hc. set (E := expired_ids win (env s) t) in *.
  destruct Hc as [(n & t1 & [= <- <-] & -> & Hx1)|[(Hf & Hx1 & err & ->)|(? & ? & ? & _)]]; [| |done].
  2: { eexists _, _. split; [done|]. split; [done|]. split; [done|].
       split; [intros Hs; by rewrite Hs1, Hs|]. right. eauto 10. }
  rewrite length_take. case_match eqn:Hlt; to_prop.
  - eexists _, _. split; [done|]. split; [done|]. split; [done|].
    split; [intros Hs; by rewrite Hs1, Hs|]. left.
    assert (length E ≤ Z.to_nat batch) by lia.
    split; [f_equal; lia|]. rewrite Hx1. unfold purged. fold E. by rewrite take_ge by lia.
  - pose proof (expired_ids_drop win (env s) t (Z.to_nat batch) Hwf) as Hperm. fold E in Hperm.
    edestruct (IH (d + Z.of_nat (Z.to_nat batch `min` length E))%Z s1 _ Hx1)
      as (r & s2 & E2 & He2 & Ht2 & Hs2 & Hc2); rewrite ?He1; [by apply wf_delete|done| |].
    { rewrite Hperm, length_drop. lia. }
    rewrite He1, Ht1 in *. eexists _, _. split; [exact E2|]. split; [done|]. split; [done|].
    split; [intros Hs; apply Hs2; by rewrite Hs1, Hs|].
    destruct Hc2 as [[-> Hx2]|(Hf & He & t' & Hx2 & Hq)].
    + left. split; [rewrite Hperm, length_drop; f_equal; lia|].
      rewrite Hx2. unfold purged. rewrite delete_jobs_app. f_equal. apply delete_jobs_ext.
      intros i. rewrite elem_of_app, Hperm. fold E. rewrite <- elem_of_app. by rewrite take_drop.
    + right. split; [intros Hs; apply Hf; by rewrite Hs1, Hs|]. eauto.
Qed.

Lemma eff_batch_pos cfg : (0 < eff_batch cfg)%Z.
Proof. unfold eff_batch. case_match; to_prop; lia. Qed.

Lemma expired_ids_le win e t : length (expired_ids win e t) ≤ size (jobs t).
Proof.
  unfold expired_ids. rewrite length_fmap, <- (length_scan (jobs t)). apply filter_length_le.
Qed.

Lemma retention_tx_effect cfg s :
  let win := window_us cfg in
  wf (tabs s) → tx s = Some (tabs s) → ∃ r s',
    retention_tx cfg s = (Ret r, s') ∧ env s' = env s ∧
    retention_effect win (env s) (tabs s) (settled s') r ∧
    (script s = [] → ∃ n, r = inr n).
Proof.
  intros win Hwf Htx. unfold retention_tx.
  destruct (exec_tx_run (try_advisory_xact_lock retentionLockKey) s _ Htx)
    as (o & s1 & E1 & He1 & Ht1 & Hs1 & Hc). run_bind E1. unfold try_advisory_xact_lock in Hc.
  destruct Hc as [(b & t1 & [= <- <-] & -> & Hx1)|[(Hf & Hx1 & err & ->)|(? & ? & ? & _)]]; [| |done].
  2: { eexists _, _. split; [done|]. split; [done|]. split; [|done].
       apply ret_failed. by eapply undone_settled. }
  destruct (adv_busy (env s) retentionLockKey) eqn:Hb; simpl.
  { eexists _, _. split; [done|]. split; [done|]. split; [|eauto].
    apply ret_busy; [by eapply undone_settled|done]. }
  rewrite (bind_run get _ s1 (Ret s1) s1 eq_refl). simpl. rewrite Ht1.
  destruct (delete_loop_run (S (size (jobs (tabs s)))) win (eff_batch cfg) 0 s1 _ Hx1 Hwf
    (eff_batch_pos cfg)) as (d & s2 & E2 & He2 & Ht2 & Hs2 & Hc2).
  { pose proof (expired_ids_le win (env s1) (tabs s)). lia. }
  fold win. run_bind E2. rewrite He1 in *.
  destruct Hc2 as [[-> Hx2]|(Hf & [err ->] & t' & Hx2 & Hq)].
  2: { eexists _, _. split; [done|]. split; [congruence|].
       split; [|intros Hs; by rewrite Hs1, Hs in Hf].
       apply ret_failed. eapply undone_settled; [congruence|done|by rewrite Hq]. }
  destruct (commit_tx_run s2 _ Hx2) as (c & s3 & E3 & He3 & Hx3 & Hs3 & Hc3). run_bind E3.
  destruct Hc3 as [(-> & Ht3)|(Hf & Ht3 & err & ->)]; eexists _, _; (split; [done|]);
    (split; [congruence|]); unfold settled; rewrite Hx3; (split; [|intros Hs]).
  - by apply ret_done; [|rewrite Ht3|left].
  - eauto.
  - destruct Ht3 as [->| ->]; [apply ret_done; eauto|].
    apply ret_failed. rewrite Ht2, Ht1. by apply undone_rolled_back.
  - rewrite Hs2 in Hf; [done|by rewrite Hs1, Hs].
Qed.

Lemma retention_run cfg s :
  wf (tabs s) → tx s = None → ∃ r s',
    RetentionSweep cfg s = (Ret r, s') ∧ env s' = env s ∧ tx s' = None ∧
    (if (rt_Window cfg <=? 0)%Z then r = inr 0%Z ∧ s' = s
     else retention_effect (window_us cfg) (env s) (tabs s) (tabs s') r) ∧
    (script s = [] → ∃ n, r = inr n).
Proof.
  intros Hwf Htx. unfold RetentionSweep. destruct (rt_Window cfg <=? 0)%Z.
  { eexists _, _. split; [done|]. eauto 10. }
  destruct (begin_tx_run s) as (b & s1 & E1 & He1 & Ht1 & Hs1 & Hc). run_bind E1.
  destruct Hc as [(-> & Hx1)|(Hf & Hx1 & err & ->)].
  - rewrite <- Ht1 in Hx1, Hwf.
    destruct (retention_tx_effect cfg s1 Hwf Hx1) as (r & s2 & E2 & He2 & Heff & Hok).
    destruct (defer_rollback_run _ _ _ _ E2) as (s3 & E3 & He3 & Hx3 & Hs3 & Ht3).
    rewrite He1, Ht1, Hs1 in *. eexists _, _. split; [exact E3|].
    split_and!; [congruence|done|by rewrite Ht3|]. intros Hs. apply Hok. by rewrite Hs.
  - eexists _, _. split; [done|]. split_and!; [done|congruence| |done].
    rewrite Ht1. apply ret_failed, undone_refl.
Qed.

(** A retention cycle only forgets jobs. *)
Lemma retention_implements win e t t' r :
  retention_effect win e t t' r → evolves_by (rtc (acts (λ l, ∃ i, l = AForget i))) t t'.
Proof.
  destruct 1 as [err [-> Hle]|[-> Hle] _|r _ -> _]; [by apply evolves_rolled_back; [apply _|]..|].
  intros Hwf. refine (evolves_mono _ _ _ _ _ (evolves_delete t _ _) Hwf).
  { intros q q' Hr. eapply rtc_acts_mono; [|exact Hr]. intros l (i & _ & ->). eauto. }
  intros i r0 Hin Hi.
  apply elem_of_expired_ids in Hin as (r1 & Hi1 & Hx); [|done].
  rewrite Hi in Hi1. simplify_eq. apply expired_row_true in Hx as [[Hx|[Hx|Hx]] _]; by rewrite Hx.
Qed.

Lemma retention_evolves win e t t' r : retention_effect win e t t' r → evolves t t'.
Proof. intros He. by eapply evolves_acts, retention_implements. Qed.

Lemma purged_lookup win e t i r :
  wf t → jobs t !! i = Some r →
  jobs (purged win e t) !! i = if decide (outdated win e r) then None else Some r.
Proof.
  intros Hwf Hi. unfold purged. rewrite jobs_delete, Hi. case_decide as Hin.
  - apply elem_of_expired_ids in Hin as (r1 & Hi1 & Hx); [|done].
    rewrite Hi in Hi1. simplify_eq. by rewrite decide_True by (by apply expired_row_true).
  - case_decide as Ho; [|done]. destruct Hin. apply elem_of_expired_ids; [done|].
    exists r. by rewrite expired_row_true.
Qed.

Lemma purged_events win e t :
  wf t → events (purged win e t)
         = filter (λ ev, is_Some (jobs (purged win e t) !! ev_job_id ev)) (events t).
Proof.
  intros Hwf.
  change (events (purged win e t))
    with (filter (λ ev, ev_job_id ev ∉ expired_ids win e t) (events t)).
  apply filter_ext_in_list. intros ev Hev.
  destruct (wf_fk _ Hwf _ Hev) as (r & Hi & _). rewrite (purged_lookup _ _ _ _ r) by done.
  rewrite elem_of_expired_ids by done. case_decide as Hx.
  - split; [intros Hn; destruct Hn; exists r; by rewrite expired_row_true|by intros [? ?]].
  - split; [by eauto|]. intros _ (r' & Hi' & Hx'%expired_row_true). rewrite Hi in Hi'. by simplify_eq.
Qed.

Lemma purged_size win e t :
  wf t → length (expired_ids win e t) + size (jobs (purged win e t)) = size (jobs t).
Proof.
  intros Hwf. rewrite <- !size_dom.
  assert (dom (jobs (purged win e t)) = dom (jobs t) ∖ list_to_set (expired_ids win e t)) as ->.
  { apply set_eq. intros i. unfold purged.
    rewrite elem_of_difference, elem_of_list_to_set, !elem_of_dom, jobs_delete.
    case_decide; [|tauto]. split; [by intros [? ?]|tauto]. }
  assert (list_to_set (expired_ids win e t) ⊆ dom (jobs t)) as Hsub.
  { intros i Hi%elem_of_list_to_set. apply elem_of_expired_ids in Hi as (r & Hi & _); [|done].
    apply elem_of_dom. eauto. }
  pose proof (subseteq_size _ _ Hsub) as Hle.
  rewrite size_difference by done.
  rewrite size_list_to_set in * by (by apply expired_ids_NoDup). lia.
Qed.

(** ** Properties *)

(** C30: the retention cycle always returns: its batched DELETE loop terminates for
    every batch size, and under any pattern of failures it either changes nothing or
    commits; a non-positive window disables it; without failures it succeeds. *)
Theorem RetentionSweep_spec cfg s :
  wf (tabs s) → tx s = None → ∃ r s',
    RetentionSweep cfg s = (Ret r, s') ∧ env s' = env s ∧ tx s' = None ∧
    (if (rt_Window cfg <=? 0)%Z then r = inr 0%Z ∧ s' = s
     else retention_effect (window_us cfg) (env s) (tabs s) (tabs s') r) ∧
    (script s = [] → ∃ n, r = inr n).
Proof. apply retention_run. Qed.

(** C18: a committed retention cycle deletes exactly the settled rows older than the
    window, however the batches fall: pending and leased rows always survive, an
    event survives exactly when its job does, and the count returned is the number
    of rows deleted. *)
Theorem RetentionSweep_deletes_exactly cfg s n s' :
  wf (tabs s) → tx s = None → RetentionSweep cfg s = (Ret (inr n), s') →
  (0 < rt_Window cfg)%Z → adv_busy (env s) retentionLockKey = false →
  (∀ i r, jobs (tabs s) !! i = Some r →
     jobs (tabs s') !! i = (if decide (outdated (window_us cfg) (env s) r) then None else Some r)) ∧
  (∀ i, jobs (tabs s) !! i = None → jobs (tabs s') !! i = None) ∧
  events (tabs s') = filter (λ ev, is_Some (jobs (tabs s') !! ev_job_id ev)) (events (tabs s)) ∧
  (n + Z.of_nat (size (jobs (tabs s'))) = Z.of_nat (size (jobs (tabs s))))%Z.
Proof.
  intros Hwf Htx E Hw Hb.
  destruct (retention_run cfg s Hwf Htx) as (r0 & s0 & E' & _ & _ & Heff & _).
  rewrite E in E'. simplify_eq. rewrite (proj2 (Z.leb_gt _ _)) in Heff by done.
  inversion Heff as [| |? _ Ht [[= ->]|[? ?]]]; simplify_eq; [congruence|]. rewrite Ht.
  pose proof (purged_size (window_us cfg) (env s) (tabs s) Hwf).
  split_and!; [intros i r Hi; by apply purged_lookup| |by apply purged_events|lia].
  intros i Hi. unfold purged. rewrite jobs_delete, Hi. by case_decide.
Qed.

End Retention.


(** ** Witnesses *)

Definition sample_retention : RetentionConfig :=
  {| rt_Window := 60 * Second; rt_BatchSize := 1; rt_Interval := 0 |}.

Definition sample_old : pg := at_time 3600000000 sample_done.

Lemma RetentionSweep_spec_witness : ∃ r s',
  RetentionSweep sample_retention sample_old = (Ret r, s') ∧ tx s' = None.
Proof.
  destruct (RetentionSweep_spec sample_retention sample_old) as (r & s' & E & _ & Hx & _);
    [exact sample_done_wf|vm_compute; reflexivity|]. exists r, s'. split; [exact E|exact Hx].
Defined.

Lemma RetentionSweep_deletes_exactly_witness : ∃ s',
  RetentionSweep sample_retention sample_old = (Ret (inr 1%Z), s') ∧
  (1 + Z.of_nat (size (jobs (tabs s'))) = Z.of_nat (size (jobs (tabs sample_old))))%Z.
Proof.
  assert (RetentionSweep sample_retention sample_old
    = (Ret (inr 1%Z), snd (RetentionSweep sample_retention sample_old)))
    as E by (vm_compute; reflexivity).
  destruct (RetentionSweep_deletes_exactly sample_retention sample_old 1
    (snd (RetentionSweep sample_retention sample_old)) sample_done_wf)
    as (_ & _ & _ & Hn); [vm_compute; reflexivity|exact E|vm_compute; reflexivity..|].
  eexists. split; [exact E|]. exact Hn.
Defined.
