(* ===== verification/Ticker.v ===== *)
(** * The periodic loops (sweeper.Run and retention.Run)

    Both run one cycle per tick until the context is done: a cycle that fails is
    logged and the loop goes on, a panic ends it. The environment is a list of what
    the select of each round sees. *)

From S2P Require Import Prelude GoLang Store Worker Invariant Spec WorkerFacts Jobs Samples.
From S2P Require Import Sweeper Retention.

Local Open Scope Z_scope.

(** One round: the context is done, or the ticker fired; in the second case what the
    world became before the cycle started, and whether the parent context is done
    when the code looks at it after a timeout of the cycle. *)
Inductive round (W : Type) :=
| CtxDone
| Tick (before : W → W) (parent_done : bool).
Arguments CtxDone {W}.
Arguments Tick {W} _ _.

(** Where a list of rounds leaves the loop: at its select, or out of it. *)
Inductive run_end := Looping | Returned (e : option error).

Section Ticker.
Context {W : Type} `{Lens W pg}.

(** The [for] of [Run], over the cycle and its callback; [ctxErr] is [ctx.Err()]. *)
Fixpoint cycles (cycle : M pg (error + Z)) (OnCycle : option (Z → M W unit)) (ctxErr : error)
    (rs : list (round W)) : M W run_end :=
  match rs with
  | [] => mret Looping
  | CtxDone :: _ => mret (Returned (Some ctxErr))
  | Tick before parent_done :: rs' =>
      _ ← action (λ w, (Ret tt, before w));
      r ← zoom cycle;
      match r with
      | inl err =>
          if errors_is err ContextCanceled || errors_is err ContextDeadlineExceeded then
            if parent_done then mret (Returned (Some ctxErr)) else cycles cycle OnCycle ctxErr rs'
          else cycles cycle OnCycle ctxErr rs'
      | inr n =>
          _ ← match OnCycle with Some f => f n | None => mret tt end;
          cycles cycle OnCycle ctxErr rs'
      end
  end.

(** [func Run] of the sweeper; the recovered panic makes it return a nil error. The
    cycle's own timeout is part of the failures its statements may see. *)
Definition SweeperRun `{ScanOrder} (cfg : SweeperConfig) (OnCycle : option (M W unit))
    (ctxErr : error) (rs : list (round W)) : M W run_end :=
  recover (λ _, mret (Returned None))
    (cycles (Sweep cfg) ((λ f _, f) <$> OnCycle) ctxErr rs).

(** [func Run] of retention. *)
Definition RetentionRun `{ScanOrder} (cfg : RetentionConfig) (OnCycle : option (Z → M W unit))
    (ctxErr : error) (rs : list (round W)) : M W run_end :=
  recover (λ _, mret (Returned None)) (cycles (RetentionSweep cfg) OnCycle ctxErr rs).

(** The period of the ticker and the timeout of one cycle. *)
Definition eff_interval (dflt : Z) (interval : Z) : Z := if interval <=? 0 then dflt else interval.
Definition cycle_timeout (dflt interval : Z) : Z := int64_wrap (2 * eff_interval dflt interval).
Definition sweeper_interval (cfg : SweeperConfig) : Z := eff_interval (30 * Second) (sw_Interval cfg).
Definition retention_interval (cfg : RetentionConfig) : Z := eff_interval (1 * Hour) (rt_Interval cfg).

(** ** Lemmas *)

(** The tables are well formed and no transaction is open. *)
Definition sound (w : W) : Prop := wf (tabs (view w)) ∧ tx (view w) = None.

(** A cycle of the program. *)
Definition sound_cycle (cycle : M pg (error + Z)) : Prop := ∀ s,
  wf (tabs s) → tx s = None → ∃ r s', cycle s = (Ret r, s') ∧ wf (tabs s') ∧ tx s' = None.

Lemma sweep_cycle `{ScanOrder} cfg : sound_cycle (Sweep cfg).
Proof.
  intros s Hwf Hx. destruct (sweep_run cfg s Hwf Hx) as (r & s' & E & _ & Hx' & Heff & _).
  exists r, s'. split; [done|]. split; [|done]. by apply (sweep_evolves _ _ _ _ _ Heff).
Qed.

Lemma retention_cycle `{ScanOrder} cfg : sound_cycle (RetentionSweep cfg).
Proof.
  intros s Hwf Hx. destruct (retention_run cfg s Hwf Hx) as (r & s' & E & _ & Hx' & Heff & _).
  exists r, s'. split; [done|]. split; [|done].
  destruct (rt_Window cfg <=? 0); [by destruct Heff as [_ ->]|].
  by apply (retention_evolves _ _ _ _ _ Heff).
Qed.

(** Ticks whose world changes keep the database sound; none ends the loop. *)
Definition calm (rs : list (round W)) : Prop := ∀ x, x ∈ rs →
  ∃ f, x = Tick f false ∧ ∀ w, sound w → sound (f w).

Lemma cycles_calm cycle OnCycle ctxErr rs w :
  sound_cycle cycle → calm rs → sound w →
  (∀ f, OnCycle = Some f → ∀ n w0, ∃ w1, f n w0 = (Ret tt, w1) ∧ view w1 = view w0) →
  ∃ w', cycles cycle OnCycle ctxErr rs w = (Ret Looping, w') ∧ sound w'.
Proof.
  intros Hc. revert w. induction rs as [|x rs IH]; intros w Hcalm Hw Hon; [by exists w|].
  destruct (Hcalm x ltac:(left)) as (f & -> & Hf). simpl.
  assert (calm rs) as Hcalm' by (intros y Hy; apply Hcalm; by right).
  rewrite (bind_run _ _ _ (Ret tt) (f w)) by done. specialize (Hf w Hw).
  destruct (Hc (view (f w)) (proj1 Hf) (proj2 Hf)) as (r & s' & E & Hwf' & Hx').
  rewrite (bind_run _ _ _ _ _ (zoom_run _ _ _ _ E)).
  assert (sound (over s' (f w))) as Hs' by (split; by rewrite view_over).
  destruct r as [err|n].
  - destruct (errors_is err ContextCanceled || errors_is err ContextDeadlineExceeded); by apply IH.
  - destruct OnCycle as [g|].
    + destruct (Hon g eq_refl n (over s' (f w))) as (w1 & E1 & Hv). run_bind E1. apply IH; [done| |done].
      unfold sound. by rewrite Hv.
    + by apply IH.
Qed.

(** A list of rounds that ends at the select can be continued. *)
Lemma cycles_app cycle OnCycle ctxErr rs rs' w w' :
  cycles cycle OnCycle ctxErr rs w = (Ret Looping, w') →
  cycles cycle OnCycle ctxErr (rs ++ rs') w = cycles cycle OnCycle ctxErr rs' w'.
Proof.
  revert w. induction rs as [|[|f d] rs IH]; intros w E; simpl in *; [by injection E as ->|done|].
  unfold mbind, M_bind in *. simpl in *.
  destruct (zoom cycle (f w)) as [[[err|n]|v] w1]; [|..].
  - destruct (errors_is err ContextCanceled || errors_is err ContextDeadlineExceeded); [|by apply IH].
    destruct d; [done|by apply IH].
  - destruct OnCycle as [g|]; [|by apply IH]. destruct (g n w1) as [[u|v] w2]; [by apply IH|done].
  - done.
Qed.

(** ** Properties *)

(** The periodic loops outlive failures and stop when told: as long as the parent
    context is not done and the callback neither panics nor touches the database,
    after any number of ticks with any pattern of lost requests, lost replies and
    timed-out cycles the sweeper and the retention loop are back at their select, no
    transaction is open and the database is well formed; when a later round sees the
    context done they return its error, with no further cycle. *)
Theorem Run_survives_failures `{ScanOrder} scfg rcfg (OnSweep : option (M W unit))
    (OnDelete : option (Z → M W unit)) ctxErr rs rs' w :
  calm rs → sound w →
  (∀ f, OnSweep = Some f → ∀ w0, ∃ w1, f w0 = (Ret tt, w1) ∧ view w1 = view w0) →
  (∀ f, OnDelete = Some f → ∀ n w0, ∃ w1, f n w0 = (Ret tt, w1) ∧ view w1 = view w0) →
  (∃ w', SweeperRun scfg OnSweep ctxErr rs w = (Ret Looping, w') ∧ sound w' ∧
     SweeperRun scfg OnSweep ctxErr (rs ++ CtxDone :: rs') w = (Ret (Returned (Some ctxErr)), w')) ∧
  (∃ w', RetentionRun rcfg OnDelete ctxErr rs w = (Ret Looping, w') ∧ sound w' ∧
     RetentionRun rcfg OnDelete ctxErr (rs ++ CtxDone :: rs') w = (Ret (Returned (Some ctxErr)), w')).
Proof.
  intros Hcalm Hw H1 H2. unfold SweeperRun, RetentionRun, recover. split.
  - destruct (cycles_calm (Sweep scfg) ((λ f _, f) <$> OnSweep) ctxErr rs w) as (w' & E & Hs);
      [apply sweep_cycle|done..| |].
    + intros f Hf n w0. destruct OnSweep as [g|]; simplify_eq/=. by apply H1.
    + rewrite (cycles_app _ _ _ _ _ _ _ E), E. exists w'. by split_and!.
  - destruct (cycles_calm (RetentionSweep rcfg) OnDelete ctxErr rs w) as (w' & E & Hs);
      [apply retention_cycle|done..|].
    rewrite (cycles_app _ _ _ _ _ _ _ E), E. exists w'. by split_and!.
Qed.

End Ticker.

(** ** Witnesses *)

Lemma Run_survives_failures_witness : ∃ w',
  SweeperRun sample_sweeper (None : option (M pg unit)) (ESentinel ContextCanceled)
    [Tick (λ s, s) false; Tick (λ s, s) false] sample_later = (Ret Looping, w') ∧ sound w'.
Proof.
  destruct (Run_survives_failures sample_sweeper sample_retention None None (ESentinel ContextCanceled)
    [Tick (λ s, s) false; Tick (λ s, s) false] [] sample_later) as [(w' & E & Hs & _) _];
    [|split|discriminate..|exists w'; exact (conj E Hs)].
  - intros x Hx. exists (λ s, s). split; [|done]. set_solver.
  - exact sample_leased_wf.
  - reflexivity.
Defined.
