(* ===== verification/Health.v ===== *)
(** * Health endpoints (internal/health/server.go)

    The status the worker loop and the sweeper update, and the three handlers as
    functions of it. Times are nanoseconds; a time that was never set is [None]. *)

From Stdlib Require Import Ascii.
From S2P Require Import Prelude GoLang ErrDetail GoText GoUtf8 GoJson.

Local Open Scope Z_scope.

(** [type Status struct]. *)
Record Status := {
  LastLeaseAttemptTS : option Z;
  LastLeaseSuccessTS : option Z;
  LastSweepTS : option Z;
}.

Definition NewStatus : Status :=
  {| LastLeaseAttemptTS := None; LastLeaseSuccessTS := None; LastSweepTS := None |}.

(** [OnLeaseAttempt], with the two readings of the clock. *)
Definition OnLeaseAttempt (t1 t2 : Z) (success : bool) (s : Status) : Status := {|
  LastLeaseAttemptTS := Some t1;
  LastLeaseSuccessTS := if success then Some t2 else LastLeaseSuccessTS s;
  LastSweepTS := LastSweepTS s
|}.

Definition OnSweepCycle (t : Z) (s : Status) : Status := {|
  LastLeaseAttemptTS := LastLeaseAttemptTS s;
  LastLeaseSuccessTS := LastLeaseSuccessTS s;
  LastSweepTS := Some t
|}.

Definition DefaultLivenessThreshold : Z := 10 * Second.

(** The options of [NewServer], applied in order over the default threshold. *)
Inductive health_option := WithMetrics (mounted : bool) | WithLivenessThreshold (d : Z).

Record Server := { liveAfter : Z; metrics_mounted : bool }.

Definition apply_option (s : Server) (o : health_option) : Server :=
  match o with
  | WithMetrics b => if b then {| liveAfter := liveAfter s; metrics_mounted := true |} else s
  | WithLivenessThreshold d => {| liveAfter := d; metrics_mounted := metrics_mounted s |}
  end.

Definition NewServer (opts : list health_option) : Server :=
  foldl apply_option {| liveAfter := DefaultLivenessThreshold; metrics_mounted := false |} opts.

Definition StatusOK : Z := 200.
Definition StatusServiceUnavailable : Z := 503.

(** [livez]. *)
Definition livez (srv : Server) (now : Z) (s : Status) : Z :=
  if 0 <? liveAfter srv then
    match LastLeaseAttemptTS s with
    | Some last => if liveAfter srv <? now - last then StatusServiceUnavailable else StatusOK
    | None => StatusOK
    end
  else StatusOK.

(** [readyz]: the answer of the ping decides. *)
Definition readyz (ping : option error) : Z * string :=
  match ping with
  | Some err => (StatusServiceUnavailable, error_text err)
  | None => (StatusOK, EmptyString)
  end.

(** [pool.Stat()]. *)
Record pool_stat := { AcquiredConns : Z; IdleConns : Z; MaxConns : Z }.

(** [time.Time.MarshalJSON]: RFC 3339 text, which depends on the time zone of the process:
    [tt] is the text of a time that was set; the zero time is in UTC. *)
Definition time_json (tt : Z → string) (o : option Z) : jval :=
  JStr match o with Some t => tt t | None => "0001-01-01T00:00:00Z" end.

(** The [body] of [healthz]. *)
Definition health_map (tt : Z → string) (st : pool_stat) (s : Status) : gmap string jval :=
  {["last_lease_attempt_ts" := time_json tt (LastLeaseAttemptTS s);
    "last_lease_success_ts" := time_json tt (LastLeaseSuccessTS s);
    "last_sweep_ts" := time_json tt (LastSweepTS s);
    "pool_in_use" := JInt (AcquiredConns st);
    "pool_idle" := JInt (IdleConns st);
    "pool_max" := JInt (MaxConns st)]}.

(** An answer: the code, the content type if one is set, the body. *)
Record response := { r_code : Z; r_type : option string; r_body : string }.

(** [healthz]: always 200; [Encode] ends the text with a new line. *)
Definition healthz (tt : Z → string) (st : pool_stat) (s : Status) : response := {|
  r_code := StatusOK; r_type := Some "application/json";
  r_body := json_Marshal (health_map tt st s) +:+ String "010" EmptyString
|}.

(** The mux of [NewServer]: the patterns match their path and nothing else. *)
Definition not_found : response :=
  {| r_code := 404; r_type := Some "text/plain; charset=utf-8";
     r_body := "404 page not found" +:+ String "010" EmptyString |}.

Definition serve (srv : Server) (metrics : response) (tt : Z → string) (now : Z) (ping : option error)
    (st : pool_stat) (s : Status) (path : string) : response :=
  if bool_decide (path = "/livez") then {| r_code := livez srv now s; r_type := None; r_body := EmptyString |}
  else if bool_decide (path = "/readyz") then
    let '(code, body) := readyz ping in {| r_code := code; r_type := None; r_body := body |}
  else if bool_decide (path = "/healthz") then healthz tt st s
  else if bool_decide (path = "/metrics") && metrics_mounted srv then metrics
  else not_found.

(** ** What the loop and the sweeper report *)

Inductive report := Attempt (t1 t2 : Z) (success : bool) | Swept (t : Z).

Definition apply_report (s : Status) (r : report) : Status :=
  match r with
  | Attempt t1 t2 b => OnLeaseAttempt t1 t2 b s
  | Swept t => OnSweepCycle t s
  end.

Definition status_after (l : list report) : Status := foldl apply_report NewStatus l.

(** The lease attempts of a history. *)
Definition attempt_times (l : list report) : list Z :=
  omap (λ r, match r with Attempt t1 _ _ => Some t1 | Swept _ => None end) l.

Lemma status_attempts l : LastLeaseAttemptTS (status_after l) = last (attempt_times l).
Proof.
  unfold status_after. rewrite <- (reverse_involutive l). induction (reverse l) as [|r l' IH]; [done|].
  rewrite reverse_cons, foldl_app. simpl. unfold attempt_times. rewrite omap_app, last_app. simpl.
  destruct r as [t1 t2 b|t]; simpl; [done|]. rewrite IH. done.
Qed.

(** /livez answers 503 exactly when the check is enabled, some worker has attempted
    a lease, and the last attempt is older than the threshold; a process that never
    leases (the sniffer) always stays live, sweeps do not count, and a threshold that
    is not positive disables the check. *)
Theorem livez_spec opts now l :
  livez (NewServer opts) now (status_after l) = StatusServiceUnavailable ↔
  0 < liveAfter (NewServer opts) ∧
  ∃ t, last (attempt_times l) = Some t ∧ liveAfter (NewServer opts) < now - t.
Proof.
  unfold livez. rewrite status_attempts. generalize (liveAfter (NewServer opts)) as d. intros d.
  destruct (0 <? d) eqn:Ed; to_prop; [|split; [done|intros [? _]; lia]].
  destruct (last (attempt_times l)) as [t|].
  - destruct (d <? now - t) eqn:Et; to_prop; split; try done; [by eauto|].
    intros (_ & t' & [= <-] & ?). lia.
  - split; [done|]. by intros (_ & t & ? & _).
Qed.

(** /healthz answers with JSON that reads back as the status and the counters: for any
    time zone, the three times as their texts (the zero time where nothing was reported
    yet) and the three counters as numbers, and nothing else. *)
Theorem healthz_reads_back tt st l :
  (∀ t, utf8_valid (tt t) = true ∧ nul_free (tt t) = true) →
  r_code (healthz tt st (status_after l)) = StatusOK ∧
  jsonb_in (r_body (healthz tt st (status_after l)))
  = Some (BObj (stored <$> health_map tt st (status_after l))) ∧
  ∀ o, stored (time_json tt o) = BText match o with Some t => tt t | None => "0001-01-01T00:00:00Z" end.
Proof.
  intros Htt. assert (∀ o, jval_ok (time_json tt o) = true) as Hok.
  { intros [t|]; [apply Htt|done]. }
  split; [done|]. split.
  - cbn [healthz r_body]. rewrite jsonb_in_Marshal_ws by done.
    assert (storable (health_map tt st (status_after l)) = true) as ->.
    { apply storable_true. unfold health_map.
      repeat (apply map_Forall_insert_2; [unfold member_ok; cbn [fst snd]; by rewrite ?Hok|]).
      apply map_Forall_empty. }
    rewrite stored_object_text; [done|]. intros k Hk.
    assert (k ∈ ["last_lease_attempt_ts"; "last_lease_success_ts"; "last_sweep_ts"; "pool_in_use";
                 "pool_idle"; "pool_max"]%string) as Hin by (unfold health_map in Hk; set_solver).
    clear Hk. repeat (apply elem_of_cons in Hin as [->|Hin]; [vm_compute; reflexivity|]).
    by apply not_elem_of_nil in Hin.
  - intros o. unfold time_json, stored. f_equal. apply clean_valid. by destruct o; [apply Htt|].
Qed.

(** The server answers at exactly the paths it mounts, the liveness check included. *)
Theorem serve_paths srv metrics tt now ping st s path :
  r_code metrics = StatusOK →
  r_code (serve srv metrics tt now ping st s path) = 404 ↔
  path ∉ ["/livez"; "/readyz"; "/healthz"]%string ∧ (path = "/metrics"%string → metrics_mounted srv = false).
Proof.
  intros Hm. unfold serve. rewrite !not_elem_of_cons.
  repeat case_bool_decide; subst; simpl.
  - unfold livez. split; [repeat case_match; done|naive_solver].
  - destruct ping; simpl; naive_solver.
  - naive_solver.
  - destruct (metrics_mounted srv); [rewrite Hm|]; split; try done; [naive_solver|].
    intros _. split; [|done]. split_and!; [done..|]. apply not_elem_of_nil.
  - split; [|done]. intros _. split; [|by intros ->]. split_and!; [done..|]. apply not_elem_of_nil.
Qed.

(** A pod whose workers are all busy is reported dead: with the default threshold,
    when every worker has a job and the transfers last longer than ten seconds, no
    lease is attempted in between and /livez answers 503 although every loop is
    healthy. *)
Theorem livez_fails_busy_workers l t now :
  last (attempt_times l) = Some t → now = t + 11 * Second →
  livez (NewServer []) now (status_after l) = StatusServiceUnavailable.
Proof.
  intros Hl ->. unfold livez. rewrite status_attempts, Hl. simpl.
  rewrite (proj2 (Z.ltb_lt _ _)); [done|]. unfold DefaultLivenessThreshold, Second. lia.
Qed.

Lemma livez_fails_busy_workers_witness :
  livez (NewServer []) (11 * Second) (status_after [Attempt 0 0 true; Swept (5 * Second)]) = 503.
Proof. by apply (livez_fails_busy_workers _ 0). Defined.
