(* ===== verification/Metrics.v ===== *)
(** * Metrics (internal/metrics)

    The collectors as a record of counters and gauges, the callbacks that update
    them, and the gauges computed from the tables at scrape time. Values are kept as
    integers (ages in microseconds). *)

From Stdlib Require Import Sorted.
From S2P Require Import Prelude GoLang GoFloat ErrDetail Store Transfer Worker Invariant Spec.
From S2P Require Import WorkerFacts Jobs Samples.

Local Open Scope Z_scope.

(** ** metrics.go *)

Record Metrics := {
  leaseAttempts : gmap string Z;
  jobsProcessed : gmap (string * string * string) Z;
  jobRetries : gmap (string * string * string) Z;
  jobDuration : list ((string * string * string) * Z);
  sweepCycles : Z;
  retentionRows : Z;
  ftpPoolSize : gmap (string * string) Z;
  snifferEnq : gmap string Z;
  snifferErr : gmap string Z;
  snifferLastRun : gmap string Z;
  workersActive : gmap string Z;
  snifferLast : gmap string Z;
}.

Definition New : Metrics := {|
  leaseAttempts := ∅; jobsProcessed := ∅; jobRetries := ∅; jobDuration := []; sweepCycles := 0;
  retentionRows := 0; ftpPoolSize := ∅; snifferEnq := ∅; snifferErr := ∅; snifferLastRun := ∅;
  workersActive := ∅; snifferLast := ∅
|}.

(** [WithLabelValues(k).Add(v)]: a counter panics on a negative value. *)
Definition counter_add `{Countable K} (k : K) (v : Z) (m : gmap K Z) : res (gmap K Z) :=
  if v <? 0 then Panic "counter cannot decrease in value"
  else Ret (<[k := default 0 (m !! k) + v]> m).

Definition counter_inc `{Countable K} (k : K) (m : gmap K Z) : gmap K Z :=
  <[k := default 0 (m !! k) + 1]> m.

Definition or_unknown (s : string) : string :=
  if bool_decide (s = EmptyString) then "unknown" else s.

(** Each callback changes one or two collectors. *)
Definition set_leaseAttempts v (m : Metrics) : Metrics := {|
  leaseAttempts := v; jobsProcessed := jobsProcessed m; jobRetries := jobRetries m;
  jobDuration := jobDuration m; sweepCycles := sweepCycles m; retentionRows := retentionRows m;
  ftpPoolSize := ftpPoolSize m; snifferEnq := snifferEnq m; snifferErr := snifferErr m;
  snifferLastRun := snifferLastRun m; workersActive := workersActive m; snifferLast := snifferLast m
|}.

Definition OnLeaseAttempt (success : bool) (err : option error) (m : Metrics) : Metrics :=
  let label := match err with Some _ => "error" | None => if success then "success" else "empty" end in
  set_leaseAttempts (counter_inc label (leaseAttempts m)) m.

Definition OnJobFinished (src dst result : string) (dur : Z) (m : Metrics) : Metrics :=
  let key := (or_unknown src, or_unknown dst, or_unknown result) in {|
  leaseAttempts := leaseAttempts m; jobsProcessed := counter_inc key (jobsProcessed m);
  jobRetries := jobRetries m; jobDuration := jobDuration m ++ [(key, dur)];
  sweepCycles := sweepCycles m; retentionRows := retentionRows m; ftpPoolSize := ftpPoolSize m;
  snifferEnq := snifferEnq m; snifferErr := snifferErr m; snifferLastRun := snifferLastRun m;
  workersActive := workersActive m; snifferLast := snifferLast m
|}.

Definition OnRetry (src dst stage : string) (m : Metrics) : Metrics :=
  let key := (or_unknown src, or_unknown dst, or_unknown stage) in {|
  leaseAttempts := leaseAttempts m; jobsProcessed := jobsProcessed m;
  jobRetries := counter_inc key (jobRetries m); jobDuration := jobDuration m;
  sweepCycles := sweepCycles m; retentionRows := retentionRows m; ftpPoolSize := ftpPoolSize m;
  snifferEnq := snifferEnq m; snifferErr := snifferErr m; snifferLastRun := snifferLastRun m;
  workersActive := workersActive m; snifferLast := snifferLast m
|}.

Definition OnSweepCycle (m : Metrics) : Metrics := {|
  leaseAttempts := leaseAttempts m; jobsProcessed := jobsProcessed m; jobRetries := jobRetries m;
  jobDuration := jobDuration m; sweepCycles := sweepCycles m + 1; retentionRows := retentionRows m;
  ftpPoolSize := ftpPoolSize m; snifferEnq := snifferEnq m; snifferErr := snifferErr m;
  snifferLastRun := snifferLastRun m; workersActive := workersActive m; snifferLast := snifferLast m
|}.

Definition OnRetention (deleted : Z) : M Metrics unit := λ m,
  if deleted <? 0 then (Panic "counter cannot decrease in value", m) else
  (Ret tt, {|
    leaseAttempts := leaseAttempts m; jobsProcessed := jobsProcessed m; jobRetries := jobRetries m;
    jobDuration := jobDuration m; sweepCycles := sweepCycles m;
    retentionRows := retentionRows m + deleted;
    ftpPoolSize := ftpPoolSize m; snifferEnq := snifferEnq m; snifferErr := snifferErr m;
    snifferLastRun := snifferLastRun m; workersActive := workersActive m; snifferLast := snifferLast m
  |}).

Definition OnSnifferEnqueue (source : string) (n : Z) : M Metrics unit := λ m,
  match counter_add source n (snifferEnq m) with
  | Panic v => (Panic v, m)
  | Ret c => (Ret tt, {|
      leaseAttempts := leaseAttempts m; jobsProcessed := jobsProcessed m; jobRetries := jobRetries m;
      jobDuration := jobDuration m; sweepCycles := sweepCycles m; retentionRows := retentionRows m;
      ftpPoolSize := ftpPoolSize m; snifferEnq := c; snifferErr := snifferErr m;
      snifferLastRun := snifferLastRun m; workersActive := workersActive m; snifferLast := snifferLast m
    |})
  end.

Definition OnSnifferError (source : string) : M Metrics unit := λ m, (Ret tt, {|
  leaseAttempts := leaseAttempts m; jobsProcessed := jobsProcessed m; jobRetries := jobRetries m;
  jobDuration := jobDuration m; sweepCycles := sweepCycles m; retentionRows := retentionRows m;
  ftpPoolSize := ftpPoolSize m; snifferEnq := snifferEnq m;
  snifferErr := counter_inc source (snifferErr m);
  snifferLastRun := snifferLastRun m; workersActive := workersActive m; snifferLast := snifferLast m
|}).

(** The clock in nanoseconds since the epoch; [now.Unix()] is in whole seconds. *)
Definition OnSnifferRun (now : Z) (source : string) (m : Metrics) : Metrics := {|
  leaseAttempts := leaseAttempts m; jobsProcessed := jobsProcessed m; jobRetries := jobRetries m;
  jobDuration := jobDuration m; sweepCycles := sweepCycles m; retentionRows := retentionRows m;
  ftpPoolSize := ftpPoolSize m; snifferEnq := snifferEnq m; snifferErr := snifferErr m;
  snifferLastRun := <[source := now / Second]> (snifferLastRun m); workersActive := workersActive m;
  snifferLast := <[source := now]> (snifferLast m)
|}.

Definition OnFTPPoolChange (host : string) (inUse idle : Z) (m : Metrics) : Metrics := {|
  leaseAttempts := leaseAttempts m; jobsProcessed := jobsProcessed m; jobRetries := jobRetries m;
  jobDuration := jobDuration m; sweepCycles := sweepCycles m; retentionRows := retentionRows m;
  ftpPoolSize := <[(host, "idle"%string) := idle]> (<[(host, "in_use"%string) := inUse]> (ftpPoolSize m));
  snifferEnq := snifferEnq m; snifferErr := snifferErr m;
  snifferLastRun := snifferLastRun m; workersActive := workersActive m; snifferLast := snifferLast m
|}.

Definition SetWorkersActive (pod : string) (n : Z) (m : Metrics) : Metrics := {|
  leaseAttempts := leaseAttempts m; jobsProcessed := jobsProcessed m; jobRetries := jobRetries m;
  jobDuration := jobDuration m; sweepCycles := sweepCycles m; retentionRows := retentionRows m;
  ftpPoolSize := ftpPoolSize m; snifferEnq := snifferEnq m; snifferErr := snifferErr m;
  snifferLastRun := snifferLastRun m; workersActive := <[pod := n]> (workersActive m);
  snifferLast := snifferLast m
|}.

(** ** Scrape-time collectors *)

(** buckets.go: the upper bounds of the duration histogram, in microseconds. *)
Definition defaultDurationBuckets : list Z :=
  [100000; 500000; 1000000; 2000000; 5000000; 10000000; 30000000; 60000000; 300000000; 1800000000].

(** The histogram of a label set: per bound the observations up to it. *)
Definition observations (key : string * string * string) (m : Metrics) : list Z :=
  snd <$> List.filter (λ p, bool_decide (p.1 = key)) (jobDuration m).

Definition histogram (key : string * string * string) (m : Metrics) : list (Z * nat) :=
  (λ le, (le, countb (λ d, d <=? le) (observations key m))) <$> defaultDurationBuckets.

(** sniffer_lag.go: nanoseconds since the last successful poll, clamped at 0. *)
Definition sniffer_lag (now : Z) (m : Metrics) : gmap string Z := (λ ts, Z.max 0 (now - ts)) <$> snifferLast m.

(** queue_depth.go: [SELECT status, COUNT( * ) FROM transfer_jobs GROUP BY status];
    nothing when the query fails. *)
Definition rows_in (st : job_status) (t : tables) : Z :=
  Z.of_nat (countb (λ r, bool_decide (status r = st)) (map_to_list (jobs t)).*2).

Definition all_statuses : list job_status := [Pending; Leased; Succeeded; Skipped; Dead].

Definition queue_depth (failed : bool) (t : tables) : list (string * Z) :=
  if failed then [] else
  omap (λ st, if rows_in st t =? 0 then None else Some (status_text st, rows_in st t)) all_statuses.

(** [MIN(...)] over the rows of a scan; [None] is NULL. *)
Definition sql_min (l : list Z) : option Z :=
  match l with
  | [] => None
  | x :: l' => Some (foldl Z.min x l')
  end.

(** lease_lock_age.go and oldest_pending.go: [NOW() - MIN(...)], 0 for NULL and for a
    failed query. *)
Definition age (failed : bool) (now : Z) (l : list Z) : Z :=
  if failed then 0 else match sql_min l with Some x => now - x | None => 0 end.

Definition due (now : Z) (r : transfer_job) : bool :=
  bool_decide (status r = Pending) && (next_run_at r <=? now).

Definition lease_lock_age `{ScanOrder} (failed : bool) (now : Z) (t : tables) : Z :=
  age failed now (omap (λ r, if bool_decide (status r = Leased) then locked_at r else None) (scan (jobs t))).

Definition oldest_pending_age `{ScanOrder} (failed : bool) (now : Z) (t : tables) : Z :=
  age failed now (omap (λ r, if due now r then Some (next_run_at r) else None) (scan (jobs t))).

(** ** Lemmas *)

Lemma foldl_min l x : let m := foldl Z.min x l in m <= x ∧ (∀ y, y ∈ l → m <= y) ∧ (m = x ∨ m ∈ l).
Proof.
  revert x. induction l as [|z l IH]; intros x; simpl.
  { split; [lia|]. split; [by intros ? ?%not_elem_of_nil|by left]. }
  destruct (IH (Z.min x z)) as (H1 & H2 & H3). split; [lia|]. split.
  - intros y [->|Hy]%elem_of_cons; [lia|by apply H2].
  - destruct H3 as [->|H3]; [|right; by right].
    destruct (Z.min_spec x z) as [[_ ->]|[_ ->]]; [by left|right; left].
Qed.

Lemma sql_min_Some l m : sql_min l = Some m → m ∈ l ∧ ∀ y, y ∈ l → m <= y.
Proof.
  destruct l as [|x l]; [done|]. intros [= <-]. destruct (foldl_min l x) as (H1 & H2 & H3). split.
  - destruct H3 as [->|H3]; [left|by right].
  - intros y [->|Hy]%elem_of_cons; auto.
Qed.

Lemma sql_min_None l : sql_min l = None → l = [].
Proof. by destruct l. Qed.

(** Every row has one of the five statuses. *)
Lemma rows_in_total t : foldr Z.add 0 ((λ st, rows_in st t) <$> all_statuses) = Z.of_nat (size (jobs t)).
Proof.
  unfold rows_in. rewrite <- length_map_to_list, <- (length_fmap snd).
  induction (map_to_list (jobs t)).*2 as [|r l IH]; [done|].
  cbn [all_statuses fmap list_fmap foldr countb length] in *.
  destruct (status r); repeat (case_bool_decide; try done); lia.
Qed.

(** The histogram and the counter of finished jobs agree: after any sequence of
    finished jobs each label set has as many observations as its counter says, the
    bounds increase, and the bucket of a bound holds at most the observations of every
    later one. *)
Theorem finished_counted (l : list (string * string * string * Z)) key :
  let m := foldl (λ m '(src, dst, result, dur), OnJobFinished src dst result dur m) New l in
  default 0 (jobsProcessed m !! key) = Z.of_nat (length (observations key m)) ∧
  StronglySorted (λ b1 b2, b1.1 < b2.1 ∧ (b1.2 <= b2.2 <= length (observations key m))%nat) (histogram key m).
Proof.
  intros m. split.
  - subst m. assert (∀ m, default 0 (jobsProcessed m !! key) = Z.of_nat (length (observations key m)) →
      default 0 (jobsProcessed (foldl (λ m '(src, dst, result, dur), OnJobFinished src dst result dur m) m l) !! key)
      = Z.of_nat (length (observations key
          (foldl (λ m '(src, dst, result, dur), OnJobFinished src dst result dur m) m l)))) as Hl; [|by apply Hl].
    induction l as [|[[[src dst] result] dur] l IH]; intros m Hm; [done|]. simpl. apply IH.
    unfold OnJobFinished, observations, counter_inc in *. simpl. rewrite List.filter_app, fmap_app, length_app.
    simpl. case_bool_decide as Hk.
    + rewrite Hk, lookup_insert_eq. simpl. lia.
    + rewrite lookup_insert_ne by done. simpl. lia.
  - assert (∀ a b, a <= b → (countb (λ d, (d <=? a)%Z) (observations key m)
        <= countb (λ d, (d <=? b)%Z) (observations key m) <= length (observations key m))%nat) as Hc.
    { intros a b Hab. induction (observations key m) as [|d o IH]; simpl; [done|].
      destruct (d <=? a) eqn:Ea, (d <=? b) eqn:Eb; to_prop; lia. }
    assert (StronglySorted Z.lt defaultDurationBuckets) as Hs by (repeat constructor).
    unfold histogram. induction Hs as [|le les Hs IH Hle]; [constructor|]. cbn [fmap list_fmap].
    constructor; [exact IH|]. apply Forall_fmap. eapply Forall_impl; [exact Hle|].
    intros le' Hlt. simpl. split; [done|]. apply Hc. lia.
Qed.


Section Gauges.
Context `{ScanOrder}.

Lemma elem_of_due now t ts :
  ts ∈ omap (λ r, if due now r then Some (next_run_at r) else None) (scan (jobs t)) ↔
  ∃ i r, jobs t !! i = Some r ∧ due now r = true ∧ next_run_at r = ts.
Proof.
  rewrite list_elem_of_omap. split.
  - intros (r & Hin & Hd). apply elem_of_scan in Hin as [i Hi]. exists i, r.
    destruct (due now r) eqn:E; by simplify_eq.
  - intros (i & r & Hi & Hd & <-). exists r. rewrite Hd. split; [|done]. apply elem_of_scan. by exists i.
Qed.

(** The queue gauges tell the truth: imgsync_jobs_in_status has one series for each
    status that occurs, with the number of its rows, and the series add up to the
    number of jobs; a failed scrape emits nothing. *)
Theorem queue_depth_spec t :
  queue_depth true t = [] ∧
  (∀ st n, (status_text st, n) ∈ queue_depth false t ↔ n = rows_in st t ∧ 0 < n) ∧
  foldr Z.add 0 (snd <$> queue_depth false t) = Z.of_nat (size (jobs t)).
Proof.
  split; [done|]. unfold queue_depth. split.
  - intros st n. rewrite list_elem_of_omap. split.
    + intros (st' & _ & E). destruct (rows_in st' t =? 0) eqn:E0; to_prop; simplify_eq.
      assert (st' = st) as -> by (by destruct st', st). split; [done|]. unfold rows_in in *. lia.
    + intros [-> Hn]. exists st. split; [destruct st; cbn; set_solver|].
      destruct (rows_in st t =? 0) eqn:E0; to_prop; [lia|done].
  - rewrite <- rows_in_total. generalize all_statuses as l. induction l as [|st l IH]; [done|]. csimpl.
    destruct (rows_in st t =? 0) eqn:E0; csimpl; to_prop; lia.
Qed.

(** Imgsync_oldest_pending_age is the age of the job the next lease takes: no due
    pending job is older, some due job has exactly this age unless none is due (then it
    is 0), and when no row is locked [LeaseJob] takes a job of exactly this age. *)
Theorem oldest_pending_spec e t :
  let a := oldest_pending_age false (now e) t in
  (∀ i r, jobs t !! i = Some r → status r = Pending → next_run_at r <= now e →
     now e - next_run_at r <= a) ∧
  ((∃ i r, jobs t !! i = Some r ∧ status r = Pending ∧ next_run_at r <= now e ∧
      a = now e - next_run_at r)
   ∨ (a = 0 ∧ ∀ i r, jobs t !! i = Some r → ¬ (status r = Pending ∧ next_run_at r <= now e))) ∧
  (∀ r, wf t → row_locks e = ∅ → takes e t r → a = now e - next_run_at r).
Proof.
  assert (∀ r, due (now e) r = true ↔ status r = Pending ∧ next_run_at r <= now e) as Hdue.
  { intros r. unfold due. by rewrite andb_true_iff, bool_decide_eq_true, Z.leb_le. }
  intros a. unfold oldest_pending_age, age in a.
  set (l := omap _ _) in a.
  assert ((∃ m, sql_min l = Some m ∧ a = now e - m) ∨ (l = [] ∧ a = 0)) as [(m & Hm & Ha)|[Hl Ha]].
  { unfold a. destruct (sql_min l) as [m|] eqn:E; [left; by eauto|right]. by apply sql_min_None in E. }
  - apply sql_min_Some in Hm as [Hin Hmin].
    assert (∀ i r, jobs t !! i = Some r → status r = Pending → next_run_at r <= now e →
      now e - next_run_at r <= a) as Hall.
    { intros i r Hi Hp Hd. assert (m <= next_run_at r); [|lia].
      apply Hmin, elem_of_due. exists i, r. split_and!; [done|by apply Hdue|done]. }
    split; [done|]. apply elem_of_due in Hin as (i0 & r0 & Hi0 & [Hp0 Hd0]%Hdue & E0). split.
    + left. exists i0, r0. split_and!; try done. lia.
    + intros r Hwf Hlk (Hi & (Hp & Hd & _) & Hfirst). specialize (Hall _ _ Hi Hp Hd).
      destruct (Hfirst i0 r0 Hi0); [|lia..]. split_and!; [done..|]. rewrite Hlk. set_solver.
  - assert (∀ i r, jobs t !! i = Some r → ¬ (status r = Pending ∧ next_run_at r <= now e)) as Hno.
    { intros i r Hi Hd%Hdue.
      assert (next_run_at r ∈ l) as Hin by (apply elem_of_due; eauto).
      rewrite Hl in Hin. by apply not_elem_of_nil in Hin. }
    split; [intros i r Hi Hp Hd; by destruct (Hno _ _ Hi)|]. split; [by right|].
    intros r _ _ (Hi & (Hp & Hd & _) & _). by destruct (Hno _ _ Hi).
Qed.

End Gauges.
