(* ===== verification/Settings.v ===== *)
(** * Configuration from the environment

    internal/env, the configuration half of internal/cli, the settings
    cmd/imgsync/worker.go derives, and the pool configuration of internal/db and
    internal/sourcedb. *)

From Stdlib Require Import Ascii.
From S2P Require Import Prelude GoLang ErrDetail GoText Store Transfer Worker Sweeper Retention.
From S2P Require Import Backoff Hostcap FtpPool Health.

Local Open Scope Z_scope.

(** ** internal/env *)

(** [os.Getenv]: an absent variable reads as the empty string. *)
Definition environ : Type := string → string.

Definition env_Int (e : environ) (key : string) (def : Z) : Z :=
  let v := e key in
  if bool_decide (v = EmptyString) then def
  else match atoi v with None => def | Some n => n end.

(** [strings.EqualFold(v, "true")] compares the lowered letters. *)
Definition env_Bool (e : environ) (key : string) (def : bool) : bool :=
  let v := e key in
  if bool_decide (v = EmptyString) then def
  else bool_decide (v = "1"%string) || bool_decide (to_lower v = "true"%string).

(** ** internal/cli/sniffer.go *)

Record SnifferConfig := {
  sc_SourceID : string; sc_SourceDSN : string; sc_ImgsyncDSN : string;
  sc_Table : string; sc_PKColumn : string; sc_TSColumn : string;
  sc_ExtraColumns : list string;
  sc_DstPattern : string; sc_SrcPattern : string; sc_SrcProtocol : string; sc_DstProtocol : string;
  sc_Shadow : bool; sc_BatchSize : Z; sc_BiasDuration : Z; sc_IntervalSec : Z;
}.

(** [time.Duration(n) * unit]. *)
Definition duration (n unit : Z) : Z := int64_wrap (n * unit).

(** [strings.Split(s, sep)] for a separator of one byte. *)
Fixpoint split_on (sep : ascii) (cur s : string) : list string :=
  match s with
  | EmptyString => [cur]
  | String a s' =>
      if bool_decide (a = sep) then cur :: split_on sep EmptyString s'
      else split_on sep (cur +:+ String a EmptyString) s'
  end.

(** [strings.TrimSpace] on the ASCII space characters. *)
Definition is_space (a : ascii) : bool :=
  bool_decide (a = " "%char) || in_range 9 13 a.

Fixpoint trim_left (s : string) : string :=
  match s with
  | String a s' => if is_space a then trim_left s' else s
  | EmptyString => EmptyString
  end.

Fixpoint trim_right (s : string) : string :=
  match s with
  | EmptyString => EmptyString
  | String a s' =>
      match trim_right s' with
      | EmptyString => if is_space a then EmptyString else String a EmptyString
      | t => String a t
      end
  end.

Definition trim_space (s : string) : string := trim_right (trim_left s).

Definition extra_columns (extra : string) : list string :=
  if bool_decide (extra = EmptyString) then []
  else filter (λ c, c ≠ EmptyString) (trim_space <$> split_on ","%char EmptyString extra).

Definition required_names : list string :=
  ["SNIFFER_SOURCE_ID"; "SNIFFER_SOURCE_DSN"; "SNIFFER_IMGSYNC_DSN"; "SNIFFER_TABLE";
   "SNIFFER_PK_COLUMN"; "SNIFFER_TS_COLUMN"; "SNIFFER_DST_PATTERN"; "SNIFFER_SRC_PATTERN";
   "SNIFFER_SRC_PROTOCOL"; "SNIFFER_DST_PROTOCOL"]%string.

Definition read_sniffer_config (e : environ) : SnifferConfig := {|
  sc_SourceID := e "SNIFFER_SOURCE_ID"%string; sc_SourceDSN := e "SNIFFER_SOURCE_DSN"%string;
  sc_ImgsyncDSN := e "SNIFFER_IMGSYNC_DSN"%string; sc_Table := e "SNIFFER_TABLE"%string;
  sc_PKColumn := e "SNIFFER_PK_COLUMN"%string; sc_TSColumn := e "SNIFFER_TS_COLUMN"%string;
  sc_ExtraColumns := extra_columns (e "SNIFFER_EXTRA_COLUMNS"%string);
  sc_DstPattern := e "SNIFFER_DST_PATTERN"%string; sc_SrcPattern := e "SNIFFER_SRC_PATTERN"%string;
  sc_SrcProtocol := e "SNIFFER_SRC_PROTOCOL"%string; sc_DstProtocol := e "SNIFFER_DST_PROTOCOL"%string;
  sc_Shadow := env_Bool e "SNIFFER_SHADOW" true;
  sc_BatchSize := env_Int e "SNIFFER_BATCH_SIZE" 500;
  sc_BiasDuration := duration (env_Int e "SNIFFER_BIAS_SEC" 5) Second;
  sc_IntervalSec := env_Int e "SNIFFER_INTERVAL_SEC" 60
|}.

(** [ParseSnifferConfig]; Go visits the map of required variables in any order. *)
Definition ParseSnifferConfig (order : list string) (e : environ) : SnifferConfig * option error :=
  let c := read_sniffer_config e in
  match List.find (λ k, bool_decide (e k = EmptyString)) order with
  | Some k => (c, Some (EOpaque ("required env " +:+ k +:+ " missing")))
  | None =>
      if sc_IntervalSec c <=? 0 then
        (c, Some (EOpaque ("SNIFFER_INTERVAL_SEC must be > 0, got " +:+ itoa (sc_IntervalSec c))))
      else if sc_BatchSize c <=? 0 then
        (c, Some (EOpaque ("SNIFFER_BATCH_SIZE must be > 0, got " +:+ itoa (sc_BatchSize c))))
      else (c, None)
  end.

(** ** internal/db/pool.go and internal/sourcedb/pool.go *)

Definition int32_wrap (z : Z) : Z := (z + 2 ^ 31) mod 2 ^ 32 - 2 ^ 31.

(** The settings of a pgx pool the program may override. *)
Record pgx_config := {
  px_MaxConns : Z; px_MinConns : Z; px_MaxConnLifetime : Z; px_MaxConnIdleTime : Z;
  px_HealthCheckPeriod : Z;
}.

Record DBPoolConfig := { db_DSN : string; db_limits : pgx_config }.

Definition override (v d : Z) : Z := if 0 <? v then v else d.

(** [db.NewPool]: pgx parses the DSN and opens the pool; what it answers, and the
    answer of the ping, are arguments. *)
Definition db_NewPool (parse : string → error + pgx_config) (open_err ping_err : option error)
    (cfg : DBPoolConfig) : error + pgx_config :=
  match parse (db_DSN cfg) with
  | inl err => inl (wrapf "parse dsn: " err)
  | inr pc =>
      let l := db_limits cfg in
      let pc' := {| px_MaxConns := override (px_MaxConns l) (px_MaxConns pc);
                    px_MinConns := override (px_MinConns l) (px_MinConns pc);
                    px_MaxConnLifetime := override (px_MaxConnLifetime l) (px_MaxConnLifetime pc);
                    px_MaxConnIdleTime := override (px_MaxConnIdleTime l) (px_MaxConnIdleTime pc);
                    px_HealthCheckPeriod := override (px_HealthCheckPeriod l) (px_HealthCheckPeriod pc) |} in
      match open_err with
      | Some err => inl (wrapf "open pool: " err)
      | None => match ping_err with Some err => inl (wrapf "ping: " err) | None => inr pc' end
      end
  end.

Definition conns (n : Z) : pgx_config := {|
  px_MaxConns := n; px_MinConns := 0; px_MaxConnLifetime := 0; px_MaxConnIdleTime := 0;
  px_HealthCheckPeriod := 0
|}.

(** [sourcedb.NewPool]: the connection limit and the query timeout it settles on. *)
Definition sourcedb_limits (maxConns queryTimeoutMs : Z) : Z * Z :=
  (if maxConns =? 0 then 4 else maxConns,
   duration (if queryTimeoutMs =? 0 then 30000 else queryTimeoutMs) Millisecond).

Definition sourcedb_NewPool (parse : string → error + pgx_config) (open_err ping_err : option error)
    (dsn : string) (maxConns queryTimeoutMs : Z) : error + Z * Z :=
  match parse dsn with
  | inl err => inl (wrapf "parse dsn: " err)
  | inr _ =>
      match open_err with
      | Some err => inl (wrapf "connect: " err)
      | None =>
          match ping_err with
          | Some err => inl (wrapf "ping: " err)
          | None => inr (sourcedb_limits maxConns queryTimeoutMs)
          end
      end
  end.

(** ** cmd/imgsync/worker.go *)

Record worker_settings := {
  ws_Workers : Z;
  ws_PodName : string;
  ws_MaxConns : Z;
  ws_ftp : PoolConfig;
  ws_cap : HostcapConfig;
  ws_cap_conns : Z;
  ws_idle : IdleConfig;
  ws_liveness : Z;
  ws_sweeper : SweeperConfig;
  ws_retention : option RetentionConfig;
}.

(** [newHostcapTransport]: the size of its own pool. *)
Definition hostcap_conns (cap : Z) : Z := int32_wrap (int32_wrap (if cap <=? 0 then 8 else cap) + 2).

Definition retention_settings (e : environ) : option RetentionConfig :=
  let days := env_Int e "IMGSYNC_RETENTION_DAYS" 0 in
  if 0 <? days then Some {|
    rt_Window := int64_wrap (int64_wrap (days * 24) * Hour);
    rt_BatchSize := env_Int e "IMGSYNC_RETENTION_BATCH" 1000;
    rt_Interval := duration (env_Int e "IMGSYNC_RETENTION_INTERVAL_SEC" 3600) Second
  |} else None.

(** The bound of /livez, and the sweeper's fixed threshold and interval. *)
Definition liveness_threshold (e : environ) : Z :=
  duration (env_Int e "IMGSYNC_LIVENESS_THRESHOLD_SEC" 10) Second.

Definition sweeper_settings : SweeperConfig := {| sw_Threshold := 5 * Minute; sw_Interval := 30 * Second |}.

(** The settings [newWorkerCmd] starts the worker with; the DSN is required. *)
Definition worker_config (e : environ) (hostname : string) : error + worker_settings :=
  if bool_decide (e "IMGSYNC_DSN"%string = EmptyString) then inl (EOpaque "IMGSYNC_DSN is required") else
  let workers := env_Int e "IMGSYNC_WORKERS" 4 in
  let pod := e "IMGSYNC_POD_NAME"%string in
  let cap := env_Int e "IMGSYNC_FTP_HOST_CAP" 8 in
  inr {|
    ws_Workers := workers;
    ws_PodName := if bool_decide (pod = EmptyString) then hostname else pod;
    ws_MaxConns := int32_wrap (int64_wrap (2 + workers));
    ws_ftp := {| MaxPerHost := env_Int e "IMGSYNC_FTP_MAX_PER_HOST" 4;
                 IdleTTL := duration (env_Int e "IMGSYNC_FTP_IDLE_TTL_SEC" 300) Second;
                 NoopAfter := duration (env_Int e "IMGSYNC_FTP_NOOP_AFTER_SEC" 60) Second;
                 DialTimeout := 0 |};
    ws_cap := {| Cap := cap; Host := EmptyString; AcquireBackoff := 0 |};
    ws_cap_conns := hostcap_conns cap;
    ws_idle := {| BaseDelay := 50 * Millisecond; MaxDelay := 1 * Second |};
    ws_liveness := liveness_threshold e;
    ws_sweeper := sweeper_settings;
    ws_retention := retention_settings e
  |}.

(** The factories of the runner. *)
Definition protocol_for {A} (localfs ftp : A) (proto : string) : error + A :=
  if bool_decide (proto = "localfs"%string) then inr localfs
  else if bool_decide (proto = "ftp"%string) then inr ftp
  else inl (ESentinel ErrUnknownProtocol).

(** [newEnqueueCmd] and [newMigrateCmd] refuse to run without a DSN. *)
Definition require_dsn (e : environ) : option error :=
  if bool_decide (e "IMGSYNC_DSN"%string = EmptyString) then Some (EOpaque "IMGSYNC_DSN is required") else None.

(** ** Lemmas *)

Lemma trim_left_not_space s a t : trim_left s = String a t → is_space a = false.
Proof. induction s as [|b s IH]; simpl; [done|]. destruct (is_space b) eqn:E; [done|]. congruence. Qed.

Lemma trim_right_nonempty a s : is_space a = false → trim_right (String a s) ≠ EmptyString.
Proof. intros Ha. simpl. destruct (trim_right s); [by rewrite Ha|done]. Qed.

Lemma env_Int_parse e key def z :
  in_int64 z = true → e key = itoa z → env_Int e key def = z.
Proof.
  intros Hz He. unfold env_Int. rewrite He, (atoi_itoa z Hz). rewrite bool_decide_false; [done|].
  intros E. pose proof (atoi_itoa z Hz) as Ha. by rewrite E in Ha.
Qed.

(** ** Properties *)

(** Reading a number from the environment: a printed 64-bit integer is read back
    exactly, an absent, empty or malformed value gives the default. *)
Theorem env_Int_spec (e : environ) key def :
  (∀ z, in_int64 z = true → e key = itoa z → env_Int e key def = z) ∧
  (atoi (e key) = None → env_Int e key def = def) ∧
  (env_Int e key def = def ∨ atoi (e key) = Some (env_Int e key def)).
Proof.
  split; [by intros; apply env_Int_parse|]. unfold env_Int.
  destruct (bool_decide (e key = EmptyString)) eqn:E; [by auto|].
  destruct (atoi (e key)); auto. split; [done|by right].
Qed.

(** [ParseSnifferConfig] accepts exactly the environments in which every required
    variable is set and the interval and the batch size are positive, whatever order
    Go visits the required variables in; an error about a missing variable names a
    variable that is missing; the extra columns it returns are not empty. *)
Theorem ParseSnifferConfig_spec order e :
  order ≡ₚ required_names →
  let '(c, err) := ParseSnifferConfig order e in
  c = read_sniffer_config e ∧
  (err = None ↔ (∀ k, k ∈ required_names → e k ≠ EmptyString) ∧
     0 < sc_IntervalSec c ∧ 0 < sc_BatchSize c) ∧
  ((∃ k, k ∈ required_names ∧ e k = EmptyString) →
     ∃ k, k ∈ required_names ∧ e k = EmptyString ∧
       err = Some (EOpaque ("required env " +:+ k +:+ " missing"))) ∧
  (∀ col, col ∈ sc_ExtraColumns c → col ≠ EmptyString).
Proof.
  intros Hp. unfold ParseSnifferConfig.
  assert (∀ col, col ∈ sc_ExtraColumns (read_sniffer_config e) → col ≠ EmptyString) as Hcols.
  { intros col. simpl. unfold extra_columns. case_bool_decide; [by intros ?%not_elem_of_nil|].
    by intros [? _]%list_elem_of_filter. }
  destruct (List.find _ order) as [k|] eqn:Ek.
  - apply find_some in Ek as [Hin Hk]. to_prop.
    assert (k ∈ required_names) as Hk' by (rewrite <- Hp; by apply list_elem_of_In).
    split_and!; try done; [|by eauto]. split; [done|]. intros (Hall & _). by destruct (Hall k).
  - assert (∀ k, k ∈ required_names → e k ≠ EmptyString) as Hall.
    { intros k Hk E. rewrite <- Hp in Hk. apply list_elem_of_In in Hk.
      pose proof (find_none _ _ Ek k Hk) as Hn. simpl in Hn. by rewrite bool_decide_true in Hn. }
    assert ((∃ k, k ∈ required_names ∧ e k = EmptyString) → False) as Hnone
      by (intros (k & Hk & E); by apply (Hall k)).
    destruct (sc_IntervalSec (read_sniffer_config e) <=? 0) eqn:Ei;
      [|destruct (sc_BatchSize (read_sniffer_config e) <=? 0) eqn:Eb]; to_prop;
      (split_and!; [done| |by intros ?%Hnone|done]); split; try done; intros; lia.
Qed.

Definition sample_environ : environ := λ k,
  if bool_decide (k = "SNIFFER_BATCH_SIZE"%string) then "100"%string
  else if bool_decide (k = "SNIFFER_EXTRA_COLUMNS"%string) then " a,, b "%string
  else "v"%string.

Lemma ParseSnifferConfig_spec_witness :
  snd (ParseSnifferConfig required_names sample_environ) = None ∧
  sc_ExtraColumns (fst (ParseSnifferConfig required_names sample_environ)) = ["a"; "b"]%string.
Proof.
  pose proof (ParseSnifferConfig_spec required_names sample_environ (reflexivity _)) as Hs.
  destruct (ParseSnifferConfig required_names sample_environ) as [c err]. simpl.
  destruct Hs as (-> & Hiff & _). split; [|vm_compute; reflexivity].
  apply Hiff. split; [|split; by apply Z.ltb_lt].
  intros k _. unfold sample_environ. by repeat case_bool_decide.
Defined.

(** Retention is opt-in: without a positive IMGSYNC_RETENTION_DAYS the worker runs
    no retention at all, and up to 106751 days the window is exactly that many days. *)
Theorem retention_opt_in e :
  let days := env_Int e "IMGSYNC_RETENTION_DAYS" 0 in
  (retention_settings e = None ↔ days <= 0) ∧
  (0 < days <= 106751 → ∃ cfg, retention_settings e = Some cfg ∧ rt_Window cfg = days * (24 * Hour) ∧
     0 < rt_Window cfg).
Proof.
  intros days. unfold retention_settings. fold days. destruct (0 <? days) eqn:E; to_prop.
  - split; [split; [done|lia]|]. intros [_ Hd]. eexists. split; [done|]. simpl.
    unfold int64_wrap, Hour, Minute, Second.
    rewrite (Z.mod_small (days * 24 + 2 ^ 63)) by lia.
    rewrite Z.mod_small by lia. split; lia.
  - split; [done|lia].
Qed.

(** Beyond that the window overflows: 106752 days disable retention silently (the
    window is negative), and 213504 days, meant as five centuries, make it delete
    every settled job older than 25 minutes and 27 seconds. *)
Theorem retention_window_overflow e1 e2 :
  e1 "IMGSYNC_RETENTION_DAYS"%string = "106752"%string →
  e2 "IMGSYNC_RETENTION_DAYS"%string = "213504"%string →
  (∃ c1, retention_settings e1 = Some c1 ∧ rt_Window c1 < 0) ∧
  (∃ c2, retention_settings e2 = Some c2 ∧ 0 < rt_Window c2 < 26 * Minute).
Proof.
  intros H1 H2. unfold retention_settings.
  rewrite (env_Int_parse e1 _ 0 106752) by done. rewrite (env_Int_parse e2 _ 0 213504) by done.
  split; (eexists; split; [reflexivity|]); by vm_compute.
Qed.

Lemma retention_window_overflow_witness :
  ∃ c2, retention_settings (λ _, "213504"%string) = Some c2 ∧ 0 < rt_Window c2 < 26 * Minute.
Proof.
  apply (retention_window_overflow (λ _, "106752"%string) (λ _, "213504"%string));
    reflexivity.
Defined.
