(* ===== verification/WorkerCmd.v ===== *)
(** * The worker command (cmd/imgsync/worker.go)

    The process the command starts: the runner with its protocol factories and the
    callbacks composed of the health status and the metrics. The counters account for
    every lease; the label values are fixed sets. *)

From S2P Require Import Prelude GoLang GoFloat ErrDetail GoText GoUtf8 GoJson Store Transfer Worker Invariant.
From S2P Require Import Spec WorkerFacts Backoff Jobs Samples WorkerProps Loop Health Metrics Settings.

Local Open Scope Z_scope.

(** ** State *)

(** What the goroutines of one process share: the session with the control database,
    the idle schedule, the health status, the metrics, [workersGauge], the readings
    the clock will give (nanoseconds), and the rest the sources and transports act on. *)
Record wproc (X : Type) := WProc {
  p_pg : pg;
  p_idle : Idle;
  p_status : Status;
  p_metrics : Metrics;
  p_gauge : Z;
  p_clock : list Z;
  p_rest : X;
}.
Arguments WProc {X} _ _ _ _ _ _ _.
Arguments p_pg {X} _.
Arguments p_idle {X} _.
Arguments p_status {X} _.
Arguments p_metrics {X} _.
Arguments p_gauge {X} _.
Arguments p_clock {X} _.
Arguments p_rest {X} _.

Section Lenses.
Context {X : Type}.
Implicit Types w : wproc X.

#[export, refine] Instance wproc_pg : Lens (wproc X) pg := {|
  view := p_pg;
  over := λ s w, WProc s (p_idle w) (p_status w) (p_metrics w) (p_gauge w) (p_clock w) (p_rest w)
|}.
Proof. all: by intros; repeat match goal with w : wproc _ |- _ => destruct w end. Defined.

#[export, refine] Instance wproc_idle : Lens (wproc X) Idle := {|
  view := p_idle;
  over := λ s w, WProc (p_pg w) s (p_status w) (p_metrics w) (p_gauge w) (p_clock w) (p_rest w)
|}.
Proof. all: by intros; repeat match goal with w : wproc _ |- _ => destruct w end. Defined.

#[export, refine] Instance wproc_status : Lens (wproc X) Status := {|
  view := p_status;
  over := λ s w, WProc (p_pg w) (p_idle w) s (p_metrics w) (p_gauge w) (p_clock w) (p_rest w)
|}.
Proof. all: by intros; repeat match goal with w : wproc _ |- _ => destruct w end. Defined.

#[export, refine] Instance wproc_metrics : Lens (wproc X) Metrics := {|
  view := p_metrics;
  over := λ s w, WProc (p_pg w) (p_idle w) (p_status w) s (p_gauge w) (p_clock w) (p_rest w)
|}.
Proof. all: by intros; repeat match goal with w : wproc _ |- _ => destruct w end. Defined.

#[export] Instance wproc_disjoint : Disjoint_lens wproc_pg wproc_idle.
Proof. by intros s w. Qed.

End Lenses.

(** ** Callbacks *)

Section Command.
Context {X : Type}.

(** [time.Now()]. *)
Definition read_clock : M (wproc X) Z := λ w,
  (Ret (hd 0 (p_clock w)),
   WProc (p_pg w) (p_idle w) (p_status w) (p_metrics w) (p_gauge w) (tail (p_clock w)) (p_rest w)).

Definition set_status (f : Status → Status) : M (wproc X) unit := zoom (λ s, (Ret tt, f s)).
Definition set_metrics (f : Metrics → Metrics) : M (wproc X) unit := zoom (λ m, (Ret tt, f m)).

(** [atomic.AddInt32(&workersGauge, d)] and [atomic.LoadInt32]. *)
Definition add_gauge (d : Z) : M (wproc X) unit := λ w,
  (Ret tt, WProc (p_pg w) (p_idle w) (p_status w) (p_metrics w) (int32_wrap (p_gauge w + d))
             (p_clock w) (p_rest w)).
Definition load_gauge : M (wproc X) Z := λ w, (Ret (p_gauge w), w).

(** [status.OnLeaseAttempt(success)], with its readings of the clock. *)
Definition status_OnLeaseAttempt (success : bool) : M (wproc X) unit :=
  t1 ← read_clock;
  t2 ← (if success then read_clock else mret 0);
  set_status (Health.OnLeaseAttempt t1 t2 success).

(** [r.OnLeaseAttempt]. *)
Definition cmd_OnLeaseAttempt (success : bool) : M (wproc X) unit :=
  _ ← status_OnLeaseAttempt success;
  set_metrics (Metrics.OnLeaseAttempt success None).

(** [r.OnFinish]; [j.Duration()] reads the clock when the job has a lock time. *)
Definition cmd_OnFinish (j : Job) (result : string) : M (wproc X) unit :=
  t ← (if bool_decide (is_Some (LockedAt j)) then read_clock else mret 0);
  set_metrics (OnJobFinished (SrcProtocol j) (DstProtocol j) result (Duration (t / 1000) j)).

(** [r.OnRetry]. *)
Definition cmd_OnRetry (j : Job) (stage : string) : M (wproc X) unit :=
  set_metrics (OnRetry (SrcProtocol j) (DstProtocol j) stage).

(** [r.OnWorkerStart] and [r.OnWorkerStop]. *)
Definition cmd_OnWorker (d : Z) (pod : string) : M (wproc X) unit :=
  _ ← add_gauge d;
  n ← load_gauge;
  set_metrics (SetWorkersActive pod n).

(** [OnCycle] of the sweeper. *)
Definition cmd_OnCycle : M (wproc X) unit :=
  t ← read_clock;
  _ ← set_status (Health.OnSweepCycle t);
  set_metrics Metrics.OnSweepCycle.

(** The [worker.Runner] of the command. *)
Definition worker_runner (podName : string) (localSource ftpSrc : Source (wproc X))
    (localTransport ftpTr : Transport (wproc X)) : Runner (wproc X) := {|
  r_PodName := podName;
  r_SourceFor := protocol_for localSource ftpSrc;
  r_TransportFor := protocol_for localTransport ftpTr;
  r_OnFinish := Some cmd_OnFinish;
  r_OnRetry := Some cmd_OnRetry;
  r_OnLeaseAttempt := Some cmd_OnLeaseAttempt;
  r_OnWorkerStart := Some (cmd_OnWorker 1);
  r_OnWorkerStop := Some (cmd_OnWorker (-1))
|}.

(** ** Accounting *)


(** What the counting theorem observes: what leases and finished jobs add to, and the
    counter of the retries. *)
Definition tally (w : wproc X) : gmap string Z * gmap (string * string * string) Z *
    list ((string * string * string) * Z) :=
  (leaseAttempts (p_metrics w), jobsProcessed (p_metrics w), jobDuration (p_metrics w)).

Definition retries (w : wproc X) : gmap (string * string * string) Z := jobRetries (p_metrics w).

Definition meters (w : wproc X) := (tally w, retries w).

(** The labels of a job with the outcome or the stage [x]. *)
Definition job_key (job : Job) (x : string) : string * string * string :=
  (or_unknown (SrcProtocol job), or_unknown (DstProtocol job), or_unknown x).

(** The sources and transports of the process leave the job counters alone (the FTP pool
    updates its own gauge). *)
Record meterless {T} (k : wproc X → T) (s : Source (wproc X)) (t : Transport (wproc X)) : Prop := {
  ml_open : ∀ p, keeps k (Open s p);
  ml_close : ∀ b, keeps k (Close s b);
  ml_send : ∀ R (HR : Reader R) dst (b : R) n, keeps k (Send t dst b n);
}.


(** What finishing a job adds to the tally. *)
Definition finished (job : Job) (result : string) (w w' : wproc X) : Prop :=
  ∃ dur, tally w' = (leaseAttempts (p_metrics w), counter_inc (job_key job result) (jobsProcessed (p_metrics w)),
                     jobDuration (p_metrics w) ++ [(job_key job result, dur)]).

Lemma cmd_OnFinish_run job result w : ∃ w',
  cmd_OnFinish job result w = (Ret tt, w') ∧ finished job result w w' ∧
  p_pg w' = p_pg w ∧ jobRetries (p_metrics w') = jobRetries (p_metrics w).
Proof.
  unfold cmd_OnFinish. case_bool_decide; eexists; (split; [reflexivity|]);
    (split; [by eexists|done]).
Qed.


Lemma finished_keeps job result w0 w w' :
  tally w = tally w0 → finished job result w w' → finished job result w0 w'.
Proof. intros E [d Hd]. exists d. injection E as E1 E2 E3. by rewrite Hd, E1, E2, E3. Qed.

Section Runs.
Context (pod : string) (ls fs : Source (wproc X)) (lt ft : Transport (wproc X)).
Notation runner := (worker_runner pod ls fs lt ft).

(** The values of the label [result] of imgsync_jobs_processed_total. *)
Definition result_labels : list string := ["succeeded"; "skipped"; "dead"; "fail"; "unknown"].

Lemma protocol_for_cases {A} (a b : A) p x : protocol_for a b p = inr x → x = a ∨ x = b.
Proof. unfold protocol_for. repeat case_bool_decide; intros; simplify_eq; auto. Qed.


Lemma zoom_exec_meters {A} (q : stmt A) (w : wproc X) : ∃ o w',
  zoom (exec q) w = (Ret o, w') ∧ meters w' = meters w.
Proof. destruct (exec_head q (view w)) as (s1 & E & _). eexists _, _. split; [by apply zoom_run|done]. Qed.













Lemma cmd_OnLeaseAttempt_run b (w : wproc X) : ∃ w', cmd_OnLeaseAttempt b w = (Ret tt, w') ∧
  p_metrics w' = Metrics.OnLeaseAttempt b None (p_metrics w).
Proof. destruct b; eexists; (split; [reflexivity|done]). Qed.

Lemma zoom_keeps_metrics {S A} `{Lens (wproc X) S} (m : M S A) (w : wproc X) :
  (∀ s w0, p_metrics (over s w0) = p_metrics w0) → p_metrics (snd (zoom m w)) = p_metrics w.
Proof. intros Hk. unfold zoom. destruct (m (view w)) as [a s]. apply Hk. Qed.

















(** The labels of the counters stay in their sets. *)
Definition typed_labels (w : wproc X) : Prop :=
  (∀ l, is_Some (leaseAttempts (p_metrics w) !! l) → l ∈ ["success"; "empty"]) ∧
  (∀ k, is_Some (jobsProcessed (p_metrics w) !! k) → k.2 ∈ result_labels) ∧
  (∀ k, is_Some (jobRetries (p_metrics w) !! k) → k.2 ∈ stages).

Lemma counter_inc_keys `{Countable K} (P : K → Prop) k (m : gmap K Z) :
  P k → (∀ j, is_Some (m !! j) → P j) → ∀ j, is_Some (counter_inc k m !! j) → P j.
Proof.
  intros Hk Hm j. unfold counter_inc. rewrite lookup_insert_is_Some'. intros [<-|Hj]; auto.
Qed.

Lemma or_unknown_in result l :
  result ∈ EmptyString :: l → EmptyString ∉ l → or_unknown result ∈ l ++ ["unknown"%string].
Proof. unfold or_unknown. case_bool_decide; set_solver. Qed.

Definition keeps_labels {A} (m : M (wproc X) A) : Prop := maintains typed_labels m.

Lemma processOne_labels h lb job :
  meterless p_metrics ls lt → meterless p_metrics fs ft →
  keeps_labels (processOne h runner lb job).
Proof.
  intros Hl Hf.
  assert (∀ A (m : M (wproc X) A), keeps p_metrics m → keeps_labels m) as Hkeep.
  { intros A m Hm w Hw. unfold typed_labels in *. by rewrite (Hm w). }
  assert (∀ x, x ∈ EmptyString :: ["succeeded"; "skipped"; "dead"; "fail"] →
    keeps_labels (fire runner job x)) as Hfire.
  { intros x Hx w (H1 & H2 & H3). destruct (cmd_OnFinish_run job x w) as (w' & E & [d Hd] & _ & Hret).
    change (fire runner job x w) with (cmd_OnFinish job x w). rewrite E. simpl.
    unfold tally in Hd at 1. injection Hd as E1 E2 _. split_and!; [by rewrite E1| |by rewrite Hret].
    rewrite E2. apply (counter_inc_keys (λ k : string * string * string, k.2 ∈ result_labels)); [|done].
    apply (or_unknown_in x ["succeeded"; "skipped"; "dead"; "fail"]); set_solver. }
  assert (∀ (m : M (wproc X) (string * option error)), keeps_labels m →
    (∀ w l e w', m w = (Ret (l, e), w') → l ∈ EmptyString :: ["succeeded"; "skipped"; "dead"; "fail"]) →
    keeps_labels (m ≫= λ '(result, _), fire runner job result)) as Hthen.
  { intros m Hm Hlab w Hw. specialize (Hm w Hw). unfold mbind, M_bind.
    destruct (m w) as [[[l e]|v] w1] eqn:E; [|done]. apply Hfire; [by eapply Hlab|done]. }
  assert (∀ s w, typed_labels w → typed_labels (over (S := pg) s w)) as Hover by done.
  unfold processOne. apply maintains_recover.
  - destruct (r_SourceFor runner (SrcProtocol job)) as [err|s] eqn:Es.
    { apply maintains_bind; [|intros; apply Hfire; set_solver]. apply Hkeep.
      apply keeps_bind; [by apply keeps_exec|intros; apply keeps_ret]. }
    destruct (r_TransportFor runner (DstProtocol job)) as [err|t] eqn:Et.
    { apply maintains_bind; [|intros; apply Hfire; set_solver]. apply Hkeep.
      apply keeps_bind; [by apply keeps_exec|intros; apply keeps_ret]. }
    apply Hthen; [|intros w l e w' E%ProcessJob_label; set_solver].
    apply ProcessJob_maintains; [done| | | |].
    + intros f x [= <-] Hx w (H1 & H2 & H3). split_and!; [done..|]. simpl.
      apply (counter_inc_keys (λ k : string * string * string, k.2 ∈ stages)); [|done].
      unfold or_unknown. case_bool_decide; set_solver.
    + intros p. apply Hkeep. apply protocol_for_cases in Es as [->| ->]; by eapply ml_open.
    + intros b. apply Hkeep. apply protocol_for_cases in Es as [->| ->]; by eapply ml_close.
    + intros R HR dst b n. apply Hkeep. apply protocol_for_cases in Et as [->| ->]; by eapply ml_send.
  - intros v. apply Hthen; [|intros w l e w' E%writeRetryOrDead_label; set_solver].
    pose proof (classify_maintains typed_labels h (MkDeps lb None) job (EOpaque "x"%string)
      {["error" := JStr v; "stage" := JStr "panic"]} Hover ltac:(done)) as Hc. exact Hc.
Qed.

(** ** Properties *)


(** Bounded label sets: whatever a worker goroutine runs into, the label values it
    gives to the job metrics come from fixed sets: result is one of succeeded,
    skipped, dead, fail, unknown; the stage of a counted retry is open, transport,
    verify or source_close (a retry after a panic is not counted); the outcome of a
    lease attempt is success or empty. *)
Theorem worker_labels `{ScanOrder} lb ts w :
  meterless p_metrics ls lt → meterless p_metrics fs ft →
  (∀ t, t ∈ ts → ∀ w0, typed_labels w0 → typed_labels (t_world t w0)) →
  typed_labels w → typed_labels (snd (loop_turns runner lb ts w)).
Proof.
  intros Hl Hf. revert w. induction ts as [|t ts IH]; intros w Hts Hw; [done|]. simpl.
  refine (maintains_bind typed_labels _ _ _ _ w Hw).
  2: { intros _ w1 Hw1. apply IH; [|done]. intros t' Ht'. apply Hts. by right. }
  assert (∀ b, keeps_labels (cmd_OnLeaseAttempt b)) as Hn.
  { intros b w0 (H1 & H2 & H3). destruct (cmd_OnLeaseAttempt_run b w0) as (w1 & -> & Hm). simpl.
    unfold typed_labels. rewrite Hm. simpl. split_and!; [|done..].
    apply counter_inc_keys; [|done]. destruct b; set_solver. }
  assert (∀ S A (L : Lens (wproc X) S) (m : M S A),
    (∀ s w0, p_metrics (over s w0) = p_metrics w0) → keeps_labels (zoom m)) as Hz.
  { intros S A L m Hk w0 Hw0. unfold typed_labels in *. by rewrite zoom_keeps_metrics. }
  unfold loop_turn. apply maintains_bind; [intros w0 Hw0; apply Hts; [left|done]|intros _].
  apply maintains_bind; [by apply Hz|]. intros [e|[job|]].
  1, 3: apply maintains_bind; [apply Hn|intros _];
    apply maintains_bind; [by apply Hz|intros; apply maintains_ret].
  apply maintains_bind; [apply Hn|intros _]. apply maintains_bind; [by apply Hz|intros _].
  by apply processOne_labels.
Qed.

End Runs.
End Command.

(** ** The gauge of active workers *)

(** [OnWorkerStart] and [OnWorkerStop] of several goroutines interleave between their
    three accesses: the atomic add, the atomic load, and the set of the metric. *)
Inductive gauge_pc := GAdd (d : Z) | GLoad | GSet (n : Z).

Record gauges := {
  gg_count : Z;
  gg_metric : Z;
  gg_pcs : gmap nat gauge_pc;
}.

Definition gauge_step (s : gauges) (i : nat) : gauges :=
  match gg_pcs s !! i with
  | None => s
  | Some (GAdd d) => {| gg_count := int32_wrap (gg_count s + d); gg_metric := gg_metric s;
                        gg_pcs := <[i := GLoad]> (gg_pcs s) |}
  | Some GLoad => {| gg_count := gg_count s; gg_metric := gg_metric s;
                     gg_pcs := <[i := GSet (gg_count s)]> (gg_pcs s) |}
  | Some (GSet n) => {| gg_count := gg_count s; gg_metric := n; gg_pcs := delete i (gg_pcs s) |}
  end.

Definition gauge_run (sched : list nat) (s : gauges) : gauges := foldl gauge_step s sched.

(** Undisturbed, the three accesses are the callback: the metric is the count. *)
Theorem gauge_undisturbed {X} (w : wproc X) pod d i pcs :
  pcs !! i = Some (GAdd d) →
  let s := gauge_run [i; i; i] {| gg_count := p_gauge w;
             gg_metric := default 0 (workersActive (p_metrics w) !! pod); gg_pcs := pcs |} in
  let w' := snd (cmd_OnWorker d pod w) in
  gg_count s = p_gauge w' ∧ workersActive (p_metrics w') !! pod = Some (gg_metric s) ∧
  gg_metric s = gg_count s ∧ gg_pcs s = delete i pcs.
Proof.
  intros Hi s. assert (s = {| gg_count := int32_wrap (p_gauge w + d);
    gg_metric := int32_wrap (p_gauge w + d); gg_pcs := delete i pcs |}) as ->.
  { unfold s, gauge_run. cbn [foldl]. unfold gauge_step at 3. cbn [gg_pcs]. rewrite Hi.
    unfold gauge_step at 2. cbn [gg_pcs gg_count gg_metric]. rewrite lookup_insert_eq.
    unfold gauge_step. cbn [gg_pcs gg_count gg_metric]. rewrite lookup_insert_eq.
    by rewrite !delete_insert_eq. }
  simpl. by rewrite lookup_insert_eq.
Qed.

(** Two goroutines that stop together can leave imgsync_workers_active at 1 for good:
    the second one's load and set fall between the load and the set of the first. *)
Theorem gauge_stale :
  gauge_run [0; 0; 1; 1; 1; 0]%nat
    {| gg_count := 2; gg_metric := 2; gg_pcs := {[0%nat := GAdd (-1); 1%nat := GAdd (-1)]} |}
  = {| gg_count := 0; gg_metric := 1; gg_pcs := ∅ |}.
Proof. vm_compute. reflexivity. Qed.

(** ** Witnesses *)

Definition idle_source : Source (wproc unit) := {|
  Body := list chunk; Body_reader := chunk_reader;
  Open := λ _ w, (Panic "boom"%string, w); Close := λ _ w, (Ret None, w)
|}.
Definition idle_transport : Transport (wproc unit) :=
  {| Send_fn := λ R _ _ b _ w, ((Panic "boom"%string, b), w) |}.

Definition sample_proc : wproc unit :=
  WProc sample_queued (NewIdle sample_idle) NewStatus New 0 [1; 2; 3; 4; 5; 6] tt.

Definition sample_turn : turn (wproc unit) :=
  {| t_world := λ w, w; t_host := toy_host; t_draw := 0; t_chan := 0 |}.

Lemma idle_meterless {T} (k : wproc unit → T) : meterless k idle_source idle_transport.
Proof. by split. Qed.


Lemma worker_labels_witness :
  typed_labels (snd (loop_turns
    (worker_runner "pod" idle_source idle_source idle_transport idle_transport) "pod-w0"
    [sample_turn] sample_proc)).
Proof.
  apply (worker_labels "pod" idle_source idle_source idle_transport idle_transport "pod-w0"
    [sample_turn] sample_proc); [apply idle_meterless..| |].
  - intros t ->%list_elem_of_singleton w0 Hw. exact Hw.
  - unfold typed_labels. simpl. split_and!; intros k [x Hx]; by rewrite lookup_empty in Hx.
Defined.
