(* ===== verification/BatchSql.v ===== *)
(** * The text of the batch insert (internal/sniffer/enqueue.go)

    [EnqueueBatch] writes one INSERT with numbered placeholders and a flat list of
    arguments. Here are the text and the arguments as the code builds them, a reader
    of such statements as the server has it, and the proof that reading gives back the
    rows that were written. *)

From Stdlib Require Import Ascii.
From S2P Require Import Prelude GoLang GoFloat ErrDetail GoText.

Local Open Scope Z_scope.

#[local] Arguments String.append !_ _ / : simpl nomatch.

(** [type JobSpec struct]. *)
Record JobSpec := {
  js_TraceID : string;
  js_Src : string;
  js_Dst : string;
  js_SrcProtocol : string;
  js_DstProtocol : string;
}.

(** ** Writing *)

Definition insert_head : string :=
  "INSERT INTO transfer_jobs (trace_id, src, dst, src_protocol, dst_protocol) VALUES ".
Definition insert_tail : string := " ON CONFLICT (trace_id, dst) DO NOTHING".

(** One group of placeholders; [n] is [i * 5]. *)
Definition placeholders (n : Z) : string :=
  "($" +:+ itoa (n + 1) +:+ ",$" +:+ itoa (n + 2) +:+ ",$" +:+ itoa (n + 3) +:+ ",$" +:+ itoa (n + 4)
  +:+ ",$" +:+ itoa (n + 5) +:+ ")".

(** The loop over [specs], from index [i] on. *)
Fixpoint values_text (i : Z) (specs : list JobSpec) : string :=
  match specs with
  | [] => EmptyString
  | _ :: specs' =>
      (if 0 <? i then "," else EmptyString) +:+ placeholders (i * 5) +:+ values_text (i + 1) specs'
  end.

Definition batch_sql (specs : list JobSpec) : string :=
  insert_head +:+ values_text 0 specs +:+ insert_tail.

Definition spec_args (j : JobSpec) : list string :=
  [js_TraceID j; js_Src j; js_Dst j; js_SrcProtocol j; js_DstProtocol j].

Definition batch_args (specs : list JobSpec) : list string := specs ≫= spec_args.

(** ** Reading *)

Definition expect (c : ascii) (s : string) : option string :=
  match s with
  | String a s' => if decide (a = c) then Some s' else None
  | EmptyString => None
  end.

(** A placeholder: a dollar sign and a number. *)
Definition read_placeholder (s : string) : option (Z * string) :=
  s1 ← expect "$" s;
  let '(d, r) := span is_digit s1 in
  if bool_decide (d = EmptyString) then None
  else n ← digits_val d 0; Some (n, r).

(** [k] placeholders separated by commas. *)
Fixpoint read_placeholders (k : nat) (s : string) : option (list Z * string) :=
  match k with
  | O => Some ([], s)
  | S O => '(n, s1) ← read_placeholder s; Some ([n], s1)
  | S k' =>
      '(n, s1) ← read_placeholder s;
      s2 ← expect "," s1;
      '(ns, s3) ← read_placeholders k' s2;
      Some (n :: ns, s3)
  end.

Definition read_group (s : string) : option (list Z * string) :=
  s1 ← expect "(" s;
  '(ns, s2) ← read_placeholders 5 s1;
  s3 ← expect ")" s2;
  Some (ns, s3).

(** The groups of VALUES; every group takes a byte, so the length is enough fuel. *)
Fixpoint read_groups (fuel : nat) (s : string) : option (list (list Z) * string) :=
  match fuel with
  | O => None
  | S fuel' =>
      '(g, s1) ← read_group s;
      match expect "," s1 with
      | Some s2 => '(gs, s3) ← read_groups fuel' s2; Some (g :: gs, s3)
      | None => Some ([g], s1)
      end
  end.

Definition read_insert (sql : string) : option (list (list Z)) :=
  s ← strip_prefix insert_head sql;
  '(gs, rest) ← read_groups (String.length s) s;
  if bool_decide (rest = insert_tail) then Some gs else None.

(** A row with its placeholders bound to the arguments. *)
Definition bind_row (args : list string) (ns : list Z) : option JobSpec :=
  vs ← mapM (λ n, if n <=? 0 then None else args !! Z.to_nat (n - 1)) ns;
  match vs with
  | [tid; s; d; sp; dp] =>
      Some {| js_TraceID := tid; js_Src := s; js_Dst := d; js_SrcProtocol := sp; js_DstProtocol := dp |}
  | _ => None
  end.

(** The rows a statement inserts. *)
Definition read_batch (sql : string) (args : list string) : option (list JobSpec) :=
  gs ← read_insert sql; mapM (bind_row args) gs.

(** ** Lemmas *)

Lemma itoa_read n c s : 0 <= n → is_digit c = false →
  span is_digit (itoa n +:+ String c s) = (itoa n, String c s) ∧ itoa n ≠ EmptyString ∧
  digits_val (itoa n) 0 = Some n.
Proof.
  intros Hn Hc. split; [apply span_app; [by apply itoa_digits|done]|].
  destruct n as [|p|p]; [done| |lia]. rewrite itoa_pos.
  split; [apply pretty_go_nonempty; left; lia|]. by rewrite pretty_go_val.
Qed.

Lemma read_placeholder_text n c s : 0 <= n → is_digit c = false →
  read_placeholder (String "$" (itoa n +:+ String c s)) = Some (n, String c s).
Proof.
  intros Hn Hc. destruct (itoa_read n c s Hn Hc) as (Hs & Hne & Hv).
  unfold read_placeholder. cbn [expect]. rewrite decide_True by done. cbn [mbind option_bind].
  rewrite Hs, bool_decide_false by done. by rewrite Hv.
Qed.

Lemma read_group_text n s : 0 <= n →
  read_group (placeholders n +:+ s) = Some ([n + 1; n + 2; n + 3; n + 4; n + 5], s).
Proof.
  intros Hn. unfold placeholders. rewrite <- !string_app_assoc.
  change ("($" +:+ ?x) with (String "(" (String "$" x)).
  repeat change (",$" +:+ ?x) with (String "," (String "$" x)).
  change (")" +:+ ?x) with (String ")" x).
  unfold read_group. cbn [expect]. rewrite decide_True by done. cbn [mbind option_bind read_placeholders].
  repeat (rewrite read_placeholder_text by (done || lia); cbn [mbind option_bind expect];
          rewrite ?decide_True by done; cbn [mbind option_bind]).
  done.
Qed.

(** The placeholders of the rows from index [i] on. *)
Fixpoint numbers (i : Z) (specs : list JobSpec) : list (list Z) :=
  match specs with
  | [] => []
  | _ :: specs' => [i * 5 + 1; i * 5 + 2; i * 5 + 3; i * 5 + 4; i * 5 + 5] :: numbers (i + 1) specs'
  end.

Lemma read_groups_text fuel i j specs s : 0 <= i → expect "," s = None → (length specs < fuel)%nat →
  read_groups fuel (placeholders (i * 5) +:+ values_text (i + 1) specs +:+ s)
  = Some (numbers i (j :: specs), s).
Proof.
  revert i j fuel. induction specs as [|j' specs IH]; intros i j fuel Hi Hs Hf;
    (destruct fuel as [|fuel]; [simpl in Hf; lia|]); cbn [read_groups];
    rewrite read_group_text by lia; cbn [mbind option_bind values_text].
  - simpl. by rewrite Hs.
  - rewrite (proj2 (Z.ltb_lt 0 (i + 1))) by lia. rewrite <- !string_app_assoc.
    change ("," +:+ ?x) with (String "," x). cbn [expect]. rewrite decide_True by done.
    rewrite (IH (i + 1) j') by (simpl in Hf; lia || done). done.
Qed.

Lemma values_text_length i specs : (length specs ≤ String.length (values_text i specs))%nat.
Proof.
  revert i. induction specs as [|j specs IH]; intros i; [simpl; lia|]. cbn [values_text length].
  rewrite !string_length_app. specialize (IH (i + 1)).
  assert (1 ≤ String.length (placeholders (i * 5)))%nat; [|lia].
  unfold placeholders. rewrite string_length_app. simpl. lia.
Qed.

Lemma read_insert_text specs : specs ≠ [] → read_insert (batch_sql specs) = Some (numbers 0 specs).
Proof.
  intros Hne. unfold read_insert, batch_sql. rewrite strip_prefix_app. cbn [mbind option_bind].
  destruct specs as [|j specs]; [done|].
  assert (length specs < String.length (values_text 0 (j :: specs) +:+ insert_tail))%nat as Hf.
  { rewrite string_length_app. pose proof (values_text_length 0 (j :: specs)). simpl in *. lia. }
  revert Hf. generalize (String.length (values_text 0 (j :: specs) +:+ insert_tail)). intros fuel Hf.
  cbn [values_text]. change (0 <? 0) with false. cbv iota.
  change (EmptyString +:+ ?x) with x. rewrite <- string_app_assoc.
  rewrite (read_groups_text fuel 0 j) by done. cbn [mbind option_bind]. by rewrite bool_decide_true.
Qed.

Lemma batch_args_length specs : length (batch_args specs) = (5 * length specs)%nat.
Proof. unfold batch_args. induction specs as [|j specs IH]; [done|]. csimpl. rewrite IH. lia. Qed.

Lemma bind_row_spec pre j post :
  let n := Z.of_nat (length pre) in
  bind_row (pre ++ spec_args j ++ post) [n + 1; n + 2; n + 3; n + 4; n + 5] = Some j.
Proof.
  intros n. unfold bind_row.
  assert (∀ k : nat, (k < 5)%nat → ∀ m, m = n + Z.of_nat k + 1 →
    (if m <=? 0 then None else (pre ++ spec_args j ++ post) !! Z.to_nat (m - 1)) = spec_args j !! k) as Hl.
  { intros k Hk m ->. rewrite (proj2 (Z.leb_gt _ _)) by lia.
    replace (Z.to_nat (n + Z.of_nat k + 1 - 1)) with (length pre + k)%nat by lia.
    rewrite lookup_app_r by lia. replace (length pre + k - length pre)%nat with k by lia.
    apply lookup_app_l. exact Hk. }
  cbn [mapM]. rewrite (Hl 0%nat ltac:(lia) (n + 1)), (Hl 1%nat ltac:(lia) (n + 2)),
    (Hl 2%nat ltac:(lia) (n + 3)), (Hl 3%nat ltac:(lia) (n + 4)), (Hl 4%nat ltac:(lia) (n + 5)) by lia.
  by destruct j.
Qed.

Lemma bind_rows pre specs post i : Z.of_nat (length pre) = i * 5 →
  mapM (bind_row (pre ++ batch_args specs ++ post)) (numbers i specs) = Some specs.
Proof.
  revert pre i. induction specs as [|j specs IH]; intros pre i Hi; [done|].
  cbn [numbers mapM]. change (batch_args (j :: specs)) with (spec_args j ++ batch_args specs).
  rewrite <- app_assoc. pose proof (bind_row_spec pre j (batch_args specs ++ post)) as Hb.
  rewrite Hi in Hb. rewrite Hb. cbn [mbind option_bind].
  rewrite app_assoc. rewrite IH; [done|]. rewrite length_app. simpl. lia.
Qed.

Lemma read_batch_text specs :
  specs ≠ [] → read_batch (batch_sql specs) (batch_args specs) = Some specs.
Proof.
  intros Hne. unfold read_batch. rewrite read_insert_text by done. cbn [mbind option_bind].
  pose proof (bind_rows [] specs [] 0 eq_refl) as Hb. simpl in Hb. by rewrite app_nil_r in Hb.
Qed.

(** ** Properties *)

(** C35: the batch INSERT means the rows it was built from: whatever the batch and its
    contents, the text [EnqueueBatch] sends is a well-formed multi-row INSERT, and
    reading it with its arguments bound to the numbered placeholders gives back
    exactly the job specs, in order and column by column. *)
Theorem batch_sql_roundtrip specs :
  specs ≠ [] → read_batch (batch_sql specs) (batch_args specs) = Some specs.
Proof. apply read_batch_text. Qed.

(** ** Witnesses *)

Definition two_specs : list JobSpec := [
  {| js_TraceID := "t1"; js_Src := "/a"; js_Dst := "/b"; js_SrcProtocol := "localfs"; js_DstProtocol := "ftp" |};
  {| js_TraceID := "t2"; js_Src := "/c"; js_Dst := "/d"; js_SrcProtocol := "ftp"; js_DstProtocol := "ftp" |}].

Lemma batch_sql_roundtrip_witness :
  values_text 0 two_specs = "($1,$2,$3,$4,$5),($6,$7,$8,$9,$10)"%string ∧
  read_batch (batch_sql two_specs) (batch_args two_specs) = Some two_specs.
Proof. split; [vm_compute; reflexivity|]. apply (batch_sql_roundtrip two_specs). discriminate. Defined.
