(* ===== verification/SourceKeys.v ===== *)
(** * Primary keys of a source table (internal/sniffer: query.go)

    The keys of a source table by their PostgreSQL type, the order the server keeps on
    them, the text [Fetch] makes of them and stores as the watermark, and what the server
    reads when that text comes back as a parameter. *)

From Stdlib Require Import Ascii.
From S2P Require Import Prelude GoLang GoText GoUtf8 GoJson.

Local Open Scope Z_scope.

(** ** Keys *)

(** The order of a TEXT column: a deterministic collation is some linear order. *)
Record collation := {
  coll_leb : string → string → bool;
  coll_total : ∀ a b, coll_leb a b = true ∨ coll_leb b a = true;
  coll_trans : ∀ a b c, coll_leb a b = true → coll_leb b c = true → coll_leb a c = true;
  coll_antisym : ∀ a b, coll_leb a b = true → coll_leb b a = true → a = b;
}.

Inductive key_type := BigintKey | TextKey (c : collation) | UuidKey.

(** A UUID is its sixteen bytes. *)
Inductive key := KInt (z : Z) | KText (s : string) | KUuid (b : string).

#[export] Instance key_eq_dec : EqDecision key.
Proof. solve_decision. Defined.

(** The key is a value of the column's type. *)
Definition key_typed (ty : key_type) (k : key) : bool :=
  match ty, k with
  | BigintKey, KInt z => in_int64 z
  | TextKey _, KText _ => true
  | UuidKey, KUuid b => bool_decide (String.length b = 16%nat)
  | _, _ => false
  end.

(** ** The order *)

(** memcmp: the order of the bytes, which is that of UUIDs and of the collation "C". *)
Fixpoint bytes_leb (s t : string) : bool :=
  match s, t with
  | EmptyString, _ => true
  | String _ _, EmptyString => false
  | String a s', String b t' =>
      (byte_val a <? byte_val b) || (byte_val a =? byte_val b) && bytes_leb s' t'
  end.

(** [a <= b] for the server; values of different types are never compared, any order
    of the types will do. *)
Definition key_leb (ty : key_type) (a b : key) : bool :=
  match a, b with
  | KInt x, KInt y => x <=? y
  | KText s, KText t => match ty with TextKey c => coll_leb c s t | _ => bytes_leb s t end
  | KUuid s, KUuid t => bytes_leb s t
  | KInt _, _ | KText _, KUuid _ => true
  | _, _ => false
  end.

(** [b > a]. *)
Definition key_ltb (ty : key_type) (a b : key) : bool := negb (key_leb ty b a).

Lemma byte_val_inj a b : byte_val a = byte_val b → a = b.
Proof.
  unfold byte_val. intros E. rewrite <- (ascii_N_embedding a), <- (ascii_N_embedding b).
  f_equal. lia.
Qed.

Lemma bytes_leb_total s t : bytes_leb s t = true ∨ bytes_leb t s = true.
Proof.
  revert t. induction s as [|a s IH]; intros [|b t]; simpl; auto. rewrite !orb_true_iff, !andb_true_iff.
  rewrite !Z.ltb_lt, !Z.eqb_eq. destruct (Z.lt_trichotomy (byte_val a) (byte_val b)) as [?|[?|?]]; auto.
  destruct (IH t); auto.
Qed.

Lemma bytes_leb_trans s t u : bytes_leb s t = true → bytes_leb t u = true → bytes_leb s u = true.
Proof.
  revert t u. induction s as [|a s IH]; intros [|b t] [|c u]; simpl; try done.
  rewrite !orb_true_iff, !andb_true_iff, !Z.ltb_lt, !Z.eqb_eq.
  intros [?|[? H1]] [?|[? H2]]; try (left; lia). right. split; [lia|by eapply IH].
Qed.

Lemma bytes_leb_antisym s t : bytes_leb s t = true → bytes_leb t s = true → s = t.
Proof.
  revert t. induction s as [|a s IH]; intros [|b t]; simpl; try done.
  rewrite !orb_true_iff, !andb_true_iff, !Z.ltb_lt, !Z.eqb_eq.
  intros [?|[E H1]] [?|[? H2]]; try lia. by rewrite (byte_val_inj a b E), (IH t H1 H2).
Qed.

(** The collation "C". *)
Definition c_collation : collation := {|
  coll_leb := bytes_leb; coll_total := bytes_leb_total; coll_trans := bytes_leb_trans;
  coll_antisym := bytes_leb_antisym
|}.

Lemma key_leb_total ty a b : key_leb ty a b = true ∨ key_leb ty b a = true.
Proof.
  destruct a, b; simpl; auto; [rewrite !Z.leb_le; lia|destruct ty|];
    auto using bytes_leb_total, coll_total.
Qed.

Lemma key_leb_refl ty a : key_leb ty a a = true.
Proof. by destruct (key_leb_total ty a a). Qed.

Lemma key_leb_trans ty a b c : key_leb ty a b = true → key_leb ty b c = true → key_leb ty a c = true.
Proof.
  destruct a, b, c; simpl; try done; [rewrite !Z.leb_le; lia|destruct ty|];
    eauto using bytes_leb_trans, coll_trans.
Qed.

Lemma key_leb_antisym ty a b : key_leb ty a b = true → key_leb ty b a = true → a = b.
Proof.
  destruct a, b; simpl; try done; [rewrite !Z.leb_le; intros; f_equal; lia|destruct ty|];
    intros; f_equal; eauto using bytes_leb_antisym, coll_antisym.
Qed.

(** ** The text of a key *)

Fixpoint byte_words (b : string) : string :=
  match b with
  | EmptyString => EmptyString
  | String a EmptyString => itoa (byte_val a)
  | String a b' => itoa (byte_val a) +:+ " " +:+ byte_words b'
  end.

(** [fmt.Sprintf] with [%v] of a [[16]byte], the value the driver makes of a UUID. *)
Definition uuid_text (b : string) : string := "[" +:+ byte_words b +:+ "]".

(** What [Fetch] makes of a key. *)
Definition key_text (k : key) : string :=
  match k with KInt z => itoa z | KText s => s | KUuid b => uuid_text b end.

(** [uuid_in]: sixteen pairs of hexadecimal digits, a hyphen allowed after every second
    pair but the last, the whole perhaps in braces. *)
Fixpoint uuid_pairs (n : nat) (s : string) : option (string * string) :=
  match n with
  | O => Some (EmptyString, s)
  | S n' =>
      match s with
      | String h (String l s') =>
          x ← hex_val h; y ← hex_val l;
          let rest :=
            match s' with
            | String c s'' => if bool_decide (c = "-"%char) && Nat.even n' && negb (n' =? 0)%nat then s'' else s'
            | EmptyString => s'
            end in
          '(b, r) ← uuid_pairs n' rest;
          Some (String (chr (16 * x + y)) b, r)
      | _ => None
      end
  end.

Definition uuid_in (s : string) : option string :=
  match s with
  | String "{" s' => '(b, r) ← uuid_pairs 16 s'; if bool_decide (r = "}"%string) then Some b else None
  | _ => '(b, r) ← uuid_pairs 16 s; if bool_decide (r = EmptyString) then Some b else None
  end.

(** What the server reads of a text parameter that is compared with the column. *)
Definition key_in (ty : key_type) (s : string) : option key :=
  match ty with
  | BigintKey => KInt <$> atoi s
  | TextKey _ => Some (KText s)
  | UuidKey => KUuid <$> uuid_in s
  end.

Definition type_name (ty : key_type) : string :=
  match ty with BigintKey => "bigint" | TextKey _ => "text" | UuidKey => "uuid" end.

Example uuid_in_sample :
  uuid_in "30313233-3435-3637-3839-414243444546" = Some "0123456789ABCDEF"%string.
Proof. vm_compute. reflexivity. Qed.

Example uuid_in_braces : uuid_in "{30313233343536373839414243444546}" = Some "0123456789ABCDEF"%string.
Proof. vm_compute. reflexivity. Qed.

Example uuid_in_bad : uuid_in "303-13233343536373839414243444546" = None.
Proof. vm_compute. reflexivity. Qed.

Example uuid_text_sample :
  uuid_text "0123456789ABCDEF" = "[48 49 50 51 52 53 54 55 56 57 65 66 67 68 69 70]"%string.
Proof. vm_compute. reflexivity. Qed.

(** ** Which keys come back *)

(** The keys a watermark can carry: every BIGINT, every TEXT but the empty one, which is
    the sentinel of no key, and no UUID. *)
Definition key_ok (ty : key_type) (k : key) : bool :=
  key_typed ty k && match k with KInt _ => true | KText s => bool_decide (s ≠ EmptyString) | KUuid _ => false end.

Lemma uuid_in_text b : uuid_in (uuid_text b) = None.
Proof. unfold uuid_text, uuid_in. simpl. by destruct (byte_words b +:+ "]"). Qed.

Lemma key_in_text ty k : key_ok ty k = true → key_in ty (key_text k) = Some k.
Proof.
  unfold key_ok. destruct ty, k; simpl; try done.
  - intros [Hz _]%andb_true_iff. by rewrite atoi_itoa.
  - by rewrite andb_false_r.
Qed.

Lemma key_text_nonempty ty k : key_ok ty k = true → key_text k ≠ EmptyString.
Proof.
  unfold key_ok. destruct ty, k as [z|s|b]; simpl; try done;
    [intros _; apply itoa_nonempty|by intros ?%bool_decide_eq_true].
Qed.

(** These are all the keys that come back: a key of the column is read back from its
    text, and its text is not the sentinel, exactly when [key_ok]. *)
Theorem key_ok_exact ty k : key_typed ty k = true →
  key_ok ty k = true ↔ key_in ty (key_text k) = Some k ∧ key_text k ≠ EmptyString.
Proof.
  intros Ht. split; [eauto using key_in_text, key_text_nonempty|].
  intros [Hin Hne]. unfold key_ok. rewrite Ht. destruct ty, k; try done; [by apply bool_decide_eq_true|].
  cbn [key_in key_text] in Hin. by rewrite uuid_in_text in Hin.
Qed.
