(* ===== verification/SnifferQuery.v ===== *)
(** * Reading the source database (internal/sniffer: traceid.go, query.go)

    Trace ids, destination templates, the source database with its rows, and the
    windowed query that pages through them. *)

From Stdlib Require Import Ascii.
From stdpp Require Export sorting.
From S2P Require Import Prelude GoLang GoFloat ErrDetail GoText SourceKeys.

Local Open Scope Z_scope.

(** ** traceid.go *)

Definition TraceID (sourceTable pk : string) : string := sourceTable +:+ "-" +:+ pk.

(** text/template: parsing a pattern, and executing the result on the columns of a
    row with missingkey=error. The sniffer is verified for every engine. *)
Class TemplateEngine := {
  template : Type;
  template_parse : string → error + template;
  template_execute : template → gmap string string → error + string;
}.

Record DstTemplate := { Pattern : string; Shadow : bool }.

Definition ShadowSuffix : string := ".imgsync_shadow_v1".

Definition Render `{TemplateEngine} (t : DstTemplate) (fields : gmap string string) : error + string :=
  if bool_decide (Pattern t = EmptyString) then inl (EOpaque "dst template: empty pattern") else
  match template_parse (Pattern t) with
  | inl err => inl (wrapf "parse pattern: " err)
  | inr tmpl =>
      match template_execute tmpl fields with
      | inl err => inl (wrapf "render: " err)
      | inr out => inr (if Shadow t then out +:+ ShadowSuffix else out)
      end
  end.

(** ** Column values *)

(** The values the driver hands over; a UUID is a [[16]byte]. *)
Inductive cell :=
  CNull | CTime (us : Z) | CInt (z : Z) | CText (s : string) | CBool (b : bool) | CUuid (b : string).

(** Year, month and day of a day number (0 is 1970-01-01), proleptic Gregorian. *)
Definition civil (days : Z) : Z * Z * Z :=
  let z := days + 719468 in
  let era := z / 146097 in
  let doe := z mod 146097 in
  let yoe := (doe - doe / 1460 + doe / 36524 - doe / 146096) / 365 in
  let doy := doe - (365 * yoe + yoe / 4 - yoe / 100) in
  let mp := (5 * doy + 2) / 153 in
  let d := doy - (153 * mp + 2) / 5 + 1 in
  let m := if mp <? 10 then mp + 3 else mp - 9 in
  (yoe + era * 400 + (if m <=? 2 then 1 else 0), m, d).

Fixpoint zeros (n : nat) : string :=
  match n with O => EmptyString | S n' => String "0"%char (zeros n') end.

(** [%0<width>d] on a natural number. *)
Definition padded (width : nat) (z : Z) : string :=
  zeros (width - String.length (itoa z)) +:+ itoa z.

(** Digits without the zeros at their end. *)
Fixpoint drop_zeros (s : string) : string :=
  match s with
  | EmptyString => EmptyString
  | String a s' =>
      match drop_zeros s' with
      | EmptyString => if bool_decide (a = "0"%char) then EmptyString else String a EmptyString
      | t => String a t
      end
  end.

(** [t.UTC().Format(time.RFC3339Nano)] of a time in microseconds. *)
Definition rfc3339 (us : Z) : string :=
  let '(y, m, d) := civil (us / 86400000000) in
  let t := us mod 86400000000 in
  let frac := t mod 1000000 in
  (if y <? 0 then "-"%string +:+ padded 4 (- y) else padded 4 y) +:+ "-" +:+ padded 2 m +:+ "-" +:+ padded 2 d
  +:+ "T" +:+ padded 2 (t / 3600000000) +:+ ":" +:+ padded 2 (t / 60000000 mod 60)
  +:+ ":" +:+ padded 2 (t / 1000000 mod 60)
  +:+ (if frac =? 0 then EmptyString else "."%string +:+ drop_zeros (padded 6 frac)) +:+ "Z".

(** The type switch of [Fetch]. *)
Definition cell_text (c : cell) : string :=
  match c with
  | CNull => EmptyString
  | CTime us => rfc3339 us
  | CInt z => itoa z
  | CText s => s
  | CBool b => if b then "true" else "false"
  | CUuid b => uuid_text b
  end.

(** ** The source database *)

(** A row: its primary key, its timestamp (microseconds, possibly NULL) and its other
    columns. *)
Record source_row := { sr_pk : key; sr_ts : option Z; sr_cols : gmap string cell }.

Record source_table := {
  pk_column : string;
  pk_type : key_type;
  ts_column : string;
  columns : list string;
  rows : list source_row;
}.

(** How a query may fail: at once, or while its rows are read. *)
Inductive src_fault := QueryFails (e : error) | RowsFail (e : error).

(** The tables, NOW(), and which of the next queries fail. *)
Record srcdb := {
  src_tables : gmap string source_table;
  src_now : Z;
  src_script : list (option src_fault);
}.

Definition key_cell (k : key) : cell :=
  match k with KInt z => CInt z | KText s => CText s | KUuid b => CUuid b end.

Definition cell_of (tbl : source_table) (r : source_row) (c : string) : cell :=
  if bool_decide (c = pk_column tbl) then key_cell (sr_pk r)
  else if bool_decide (c = ts_column tbl) then from_option CTime CNull (sr_ts r)
  else default CNull (sr_cols r !! c).

(** ** query.go *)

(** [type State struct] (state.go); times in microseconds. *)
Record State := { SourceID : string; LastRunTS : Z; LastRunPK : string }.

(** [type Row struct]. *)
Record Row := { PK : string; TS : Z; Fields : gmap string string }.

Record Query := {
  q_Table : string;
  q_PKColumn : string;
  q_TSColumn : string;
  q_ExtraColumns : list string;
  q_BatchSize : Z;
  q_BiasDuration : Z;
  q_QueryTimeout : Z;
}.

Definition q_cols (q : Query) : list string := q_PKColumn q :: q_TSColumn q :: q_ExtraColumns q.

(** The bound parameters: the timestamp, and the key unless it is the empty
    sentinel. The server reads the key as a value of the column's type. *)
Definition cursor (ty : key_type) (from : State) : option (Z * option key) :=
  if bool_decide (LastRunPK from = EmptyString) then Some (LastRunTS from, None)
  else match key_in ty (LastRunPK from) with
       | Some k => Some (LastRunTS from, Some k)
       | None => None
       end.

(** [ts > $1], or [ts > $1 OR (ts = $1 AND pk > $2)]. *)
Definition past (ty : key_type) (c : Z * option key) (ts : Z) (pk : key) : bool :=
  match c with
  | (t, None) => t <? ts
  | (t, Some k) => (t <? ts) || (t =? ts) && key_ltb ty k pk
  end.

(** The whole WHERE clause; a comparison with NULL selects nothing. *)
Definition selected (ty : key_type) (c : Z * option key) (bound : Z) (r : source_row) : bool :=
  match sr_ts r with
  | Some ts => past ty c ts (sr_pk r) && (ts <=? bound)
  | None => false
  end.

(** [ORDER BY ts, pk]. *)
Definition row_le (ty : key_type) (r1 r2 : source_row) : Prop :=
  default 0 (sr_ts r1) < default 0 (sr_ts r2)
  ∨ default 0 (sr_ts r1) = default 0 (sr_ts r2) ∧ key_leb ty (sr_pk r1) (sr_pk r2) = true.

#[export] Instance row_le_dec ty r1 r2 : Decision (row_le ty r1 r2).
Proof. unfold row_le. apply _. Defined.

(** [NOW() - ($n::INT || ' seconds')::INTERVAL]. *)
Definition bias_bound (q : Query) (now : Z) : Z := now - whole_seconds (q_BiasDuration q) * 1000000.

(** [SELECT ... WHERE ... ORDER BY ts, pk LIMIT n]. *)
Definition window (q : Query) (tbl : source_table) (c : Z * option key) (now : Z) : list source_row :=
  take (Z.to_nat (q_BatchSize q))
    (merge_sort (row_le (pk_type tbl))
       (filter (λ r, selected (pk_type tbl) c (bias_bound q now) r = true) (rows tbl))).

(** The loop over [rows.Next()]. *)
Definition scan_row (q : Query) (tbl : source_table) (r : source_row) : error + Row :=
  let fields := foldl (λ m c, <[c := cell_text (cell_of tbl r c)]> m) ∅ (q_cols q) in
  match sr_ts r with
  | None => inl (EOpaque "unexpected ts type <nil>")
  | Some ts => inr {| PK := default EmptyString (fields !! q_PKColumn q); TS := ts; Fields := fields |}
  end.

Fixpoint scan_rows (q : Query) (tbl : source_table) (l : list source_row) : error + list Row :=
  match l with
  | [] => inr []
  | r :: l' =>
      match scan_row q tbl r with
      | inl err => inl err
      | inr x => match scan_rows q tbl l' with inl err => inl err | inr xs => inr (x :: xs) end
      end
  end.

(** What the server makes of the query: unknown names and parameters that are no
    INT or no value of the key's type are refused. *)
Definition run_query (q : Query) (from : State) (db : srcdb) : error + list Row :=
  match src_tables db !! q_Table q with
  | None => inl (EOpaque "relation does not exist")
  | Some tbl =>
      if bool_decide (pk_column tbl = q_PKColumn q) && bool_decide (ts_column tbl = q_TSColumn q)
         && forallb (λ c, bool_decide (c ∈ columns tbl)) (q_cols q) then
        if in_int32 (whole_seconds (q_BiasDuration q)) then
          match cursor (pk_type tbl) from with
          | None => inl (EOpaque ("invalid input syntax for type " +:+ type_name (pk_type tbl)))
          | Some c => scan_rows q tbl (window q tbl c (src_now db))
          end
        else inl (EOpaque "value out of range for int4")
      else inl (EOpaque "column does not exist")
  end.

(** [func (q Query) Fetch]. A query that hangs is cut by QueryTimeout: one more way
    for it to fail. *)
Definition Fetch (q : Query) (from : State) : M srcdb (error + list Row) := λ db,
  if q_BatchSize q <=? 0 then (Ret (inl (EOpaque "batch_size must be > 0")), db) else
  let db' := {| src_tables := src_tables db; src_now := src_now db; src_script := tail (src_script db) |} in
  match src_script db with
  | Some (QueryFails err) :: _ => (Ret (inl (wrapf "query: " err)), db')
  | Some (RowsFail err) :: _ => (Ret (inl err), db')
  | _ => (Ret (run_query q from db), db')
  end.

(** ** Lemmas: the order of the rows *)

Section Order.
Context (ty : key_type).

#[export] Instance row_le_total : Total (row_le ty).
Proof.
  intros r1 r2. unfold row_le.
  destruct (Z.lt_trichotomy (default 0 (sr_ts r1)) (default 0 (sr_ts r2))) as [?|[?|?]]; auto.
  destruct (key_leb_total ty (sr_pk r1) (sr_pk r2)); auto.
Qed.

#[export] Instance row_le_trans : Transitive (row_le ty).
Proof.
  intros r1 r2 r3 [?|[? H1]] [?|[? H2]]; [left; lia..|right].
  split; [lia|by eapply key_leb_trans].
Qed.

Lemma row_le_refl r : row_le ty r r.
Proof. right. split; [done|apply key_leb_refl]. Qed.

(** The rows past the position of a row are those that are not below it. *)
Lemma past_row y r ts tr :
  sr_ts y = Some ts → sr_ts r = Some tr →
  past ty (ts, Some (sr_pk y)) tr (sr_pk r) = true ↔ ¬ row_le ty r y.
Proof.
  intros Hy Hr. unfold past, row_le, key_ltb. rewrite Hy, Hr. simpl.
  rewrite orb_true_iff, andb_true_iff, Z.ltb_lt, Z.eqb_eq, negb_true_iff.
  destruct (key_leb ty (sr_pk r) (sr_pk y)); intuition (discriminate || lia).
Qed.

(** Whatever is above a row past a position is past it too. *)
Lemma past_mono c y r ts tr :
  sr_ts y = Some ts → sr_ts r = Some tr → past ty c ts (sr_pk y) = true → row_le ty y r →
  past ty c tr (sr_pk r) = true.
Proof.
  intros Hy Hr. unfold past, row_le, key_ltb. rewrite Hy, Hr. simpl. destruct c as [t0 [k|]].
  - rewrite !orb_true_iff, !andb_true_iff, !Z.ltb_lt, !Z.eqb_eq, !negb_true_iff.
    intros [?|[-> Hk]] [?|[-> Hle]]; auto; [left; lia|right]. split; [done|].
    apply not_true_iff_false. intros Hge. by rewrite (key_leb_trans _ _ _ _ Hle Hge) in Hk.
  - rewrite !Z.ltb_lt. lia.
Qed.

End Order.

(** A prefix of a sorted list holds everything that is not above one of its
    elements, up to equivalence. *)
Lemma sorted_take_closed {A} (R : relation A) n (l : list A) x y :
  StronglySorted R l → y ∈ take n l → x ∈ l → x ∈ take n l ∨ R y x.
Proof.
  intros Hs Hy Hx. rewrite <- (take_drop n l) in Hx, Hs.
  apply elem_of_app in Hx as [Hx|Hx]; [by left|right].
  by eapply (StronglySorted_app_1_elem_of R).
Qed.

(** Two rows that are below each other have the same key, hence are the same row. *)
Lemma row_le_antisym ty (l : list source_row) x y :
  NoDup (sr_pk <$> l) → x ∈ l → y ∈ l → row_le ty x y → row_le ty y x → x = y.
Proof.
  intros Hd Hx Hy H1 H2. assert (sr_pk x = sr_pk y) as Hk
    by (destruct H1 as [?|[? ?]], H2 as [?|[? ?]]; try lia; by eapply key_leb_antisym).
  apply list_elem_of_lookup in Hx as [i Hi], Hy as [j Hj].
  assert (i = j) as ->; [|congruence].
  eapply (NoDup_lookup _ _ _ (sr_pk x) Hd); rewrite list_lookup_fmap, ?Hi, ?Hj; simpl; congruence.
Qed.

Section Window.
Context (q : Query) (tbl : source_table) (c : Z * option key) (now : Z).

Local Notation ty := (pk_type tbl).
Local Notation page := (window q tbl c now).
Local Notation sel r := (selected ty c (bias_bound q now) r = true).

Lemma elem_of_window r : r ∈ page → r ∈ rows tbl ∧ sel r.
Proof.
  unfold window. intros Hr%(subseteq_take _ _). rewrite merge_sort_Permutation in Hr.
  by apply list_elem_of_filter in Hr as [? ?].
Qed.

(** The page has no holes: a selected row not above a row of the page is in it. *)
Lemma window_closed x y :
  NoDup (sr_pk <$> rows tbl) → y ∈ page → x ∈ rows tbl → sel x → row_le ty x y → x ∈ page.
Proof.
  intros Hd Hy Hx Hsel Hle. destruct (elem_of_window _ Hy) as [Hyl _].
  unfold window in *.
  assert (x ∈ merge_sort (row_le ty) (filter (λ r, sel r) (rows tbl))) as Hin
    by (rewrite merge_sort_Permutation; by apply list_elem_of_filter).
  destruct (sorted_take_closed (row_le ty) _ _ x y (StronglySorted_merge_sort _ _) Hy Hin) as [?|Hge]; [done|].
  by rewrite (row_le_antisym ty (rows tbl) x y).
Qed.

Lemma window_last y x : last page = Some y → x ∈ page → row_le ty x y ∨ x = y.
Proof.
  intros Hl Hx. apply last_Some in Hl as [l' Hl].
  assert (StronglySorted (row_le ty) page) as Hs.
  { unfold window. eapply (StronglySorted_app_1_l _ _ (drop _ _)). rewrite take_drop.
    apply (StronglySorted_merge_sort _ _). }
  rewrite Hl in Hs, Hx. apply elem_of_app in Hx as [Hx|Hx%list_elem_of_singleton]; [left|by right].
  eapply (StronglySorted_app_1_elem_of (row_le ty)); [done..|by left].
Qed.

End Window.

(** ** Lemmas: what a page holds *)

(** The row [Fetch] makes of a source row. *)
Definition row_fields (q : Query) (tbl : source_table) (r : source_row) : gmap string string :=
  foldl (λ m c, <[c := cell_text (cell_of tbl r c)]> m) ∅ (q_cols q).

Definition image (q : Query) (tbl : source_table) (r : source_row) : Row := {|
  PK := key_text (sr_pk r); TS := default 0 (sr_ts r); Fields := row_fields q tbl r
|}.

Lemma lookup_foldl_insert (f : string → string) l (m : gmap string string) c :
  c ∈ l → foldl (λ m c, <[c := f c]> m) m l !! c = Some (f c).
Proof.
  assert (∀ l (m : gmap string string), m !! c = Some (f c) → foldl (λ m c, <[c := f c]> m) m l !! c = Some (f c)) as Hkeep.
  { clear. induction l as [|d l IH]; intros m Hm; simpl; [done|]. apply IH.
    rewrite lookup_insert. case_decide; by subst. }
  revert m. induction l as [|d l IH]; intros m Hin; [by apply not_elem_of_nil in Hin|].
  simpl. apply elem_of_cons in Hin as [<-|Hin]; [|by apply IH].
  apply Hkeep. by rewrite lookup_insert_eq.
Qed.

Lemma scan_row_image q tbl r :
  pk_column tbl = q_PKColumn q → is_Some (sr_ts r) → scan_row q tbl r = inr (image q tbl r).
Proof.
  intros Hpk [ts Hts]. unfold scan_row, image, row_fields. rewrite Hts.
  rewrite (lookup_foldl_insert (λ c, cell_text (cell_of tbl r c))) by left.
  unfold cell_of. rewrite bool_decide_true by done. by destruct (sr_pk r).
Qed.

Lemma scan_rows_image q tbl l :
  pk_column tbl = q_PKColumn q → (∀ r, r ∈ l → is_Some (sr_ts r)) →
  scan_rows q tbl l = inr (image q tbl <$> l).
Proof.
  intros Hpk. induction l as [|r l IH]; intros Hl; [done|]. cbn [scan_rows].
  rewrite scan_row_image by (done || (apply Hl; left)).
  rewrite IH; [done|]. intros r' Hr'. apply Hl. by right.
Qed.

(** The query fits the table: its names exist and its bias is an INT. *)
Definition query_ok (q : Query) (tbl : source_table) : bool :=
  bool_decide (pk_column tbl = q_PKColumn q) && bool_decide (ts_column tbl = q_TSColumn q)
  && forallb (λ c, bool_decide (c ∈ columns tbl)) (q_cols q)
  && in_int32 (whole_seconds (q_BiasDuration q)).

Lemma selected_ts ty c b r : selected ty c b r = true → is_Some (sr_ts r).
Proof. unfold selected. by destruct (sr_ts r). Qed.

Lemma run_query_ok q from db tbl c :
  src_tables db !! q_Table q = Some tbl → query_ok q tbl = true → cursor (pk_type tbl) from = Some c →
  run_query q from db = inr (image q tbl <$> window q tbl c (src_now db)).
Proof.
  intros Ht Hq Hc. unfold run_query, query_ok in *. rewrite Ht.
  apply andb_true_iff in Hq as [Hq Hb]. rewrite Hq, Hb, Hc.
  apply scan_rows_image; [by to_prop|].
  intros r [_ Hs]%elem_of_window. by eapply selected_ts.
Qed.

(** A query that returned fits, and returned the page. *)
Lemma run_query_inr q from db xs :
  run_query q from db = inr xs → ∃ tbl c,
    src_tables db !! q_Table q = Some tbl ∧ query_ok q tbl = true ∧ cursor (pk_type tbl) from = Some c ∧
    xs = image q tbl <$> window q tbl c (src_now db).
Proof.
  intros E. destruct (src_tables db !! q_Table q) as [tbl|] eqn:Ht;
    [|unfold run_query in E; by rewrite Ht in E].
  destruct (query_ok q tbl) eqn:Hq.
  - destruct (cursor (pk_type tbl) from) as [c|] eqn:Hc.
    + rewrite (run_query_ok q from db tbl c) in E by done. simplify_eq. eauto 10.
    + unfold run_query in E. rewrite Ht, Hc in E. repeat case_match; done.
  - unfold run_query, query_ok in *. rewrite Ht in E.
    repeat case_match; simplify_eq; to_prop; destruct_or!; congruence.
Qed.
