(* ===== verification/FetchSql.v ===== *)
(** * The text of the windowed query (internal/sniffer/query.go)

    [Fetch] puts the names of the configuration into one of two SELECTs and binds the
    watermark and the bias as parameters. Here are both texts as the code builds them, a
    reader of such SELECTs (words and symbols, AND binding tighter than OR, parentheses),
    what a SELECT means over a source table, and the proof that the texts mean the query
    the model of the sniffer runs. *)

From Stdlib Require Import Ascii.
From stdpp Require Import sorting.
From S2P Require Import Prelude GoLang GoFloat ErrDetail GoText BatchSql SourceKeys SnifferQuery.

Local Open Scope Z_scope.

(** ** Writing *)

(** A parameter of the query. *)
Inductive arg := ATime (us : Z) | AText (s : string) | AInt (z : Z).

(** A new line of the raw string literals. *)
Definition nl : string := String "010" (String "009" (String "009" (String "009" EmptyString))).

(** The loop over [cols]. *)
Fixpoint col_list (cols : list string) : string :=
  match cols with
  | [] => EmptyString
  | [c] => c
  | c :: cols' => c +:+ ", " +:+ col_list cols'
  end.

(** [int(q.BiasDuration.Seconds())]. *)
Definition biasSec (q : Query) : Z := whole_seconds (q_BiasDuration q).

Definition first_run (from : State) : bool := bool_decide (LastRunPK from = EmptyString).

Definition fetch_sql (q : Query) (from : State) : string :=
  if first_run from then
    nl +:+ "SELECT " +:+ col_list (q_cols q) +:+ " FROM " +:+ q_Table q
    +:+ nl +:+ "WHERE " +:+ q_TSColumn q +:+ " > $1"
    +:+ nl +:+ "  AND " +:+ q_TSColumn q +:+ " <= NOW() - ($2::INT || ' seconds')::INTERVAL"
    +:+ nl +:+ "ORDER BY " +:+ q_TSColumn q +:+ ", " +:+ q_PKColumn q
    +:+ nl +:+ "LIMIT " +:+ itoa (q_BatchSize q)
  else
    nl +:+ "SELECT " +:+ col_list (q_cols q) +:+ " FROM " +:+ q_Table q
    +:+ nl +:+ "WHERE (" +:+ q_TSColumn q +:+ " > $1 OR (" +:+ q_TSColumn q +:+ " = $1 AND "
    +:+ q_PKColumn q +:+ " > $2))"
    +:+ nl +:+ "  AND " +:+ q_TSColumn q +:+ " <= NOW() - ($3::INT || ' seconds')::INTERVAL"
    +:+ nl +:+ "ORDER BY " +:+ q_TSColumn q +:+ ", " +:+ q_PKColumn q
    +:+ nl +:+ "LIMIT " +:+ itoa (q_BatchSize q).

Definition fetch_args (q : Query) (from : State) : list arg :=
  if first_run from then [ATime (LastRunTS from); AInt (biasSec q)]
  else [ATime (LastRunTS from); AText (LastRunPK from); AInt (biasSec q)].

(** ** Reading: tokens *)

Inductive tok := TWord (s : string) | TSym (c : ascii) | TLit (s : string) | TOpen.

#[export] Instance tok_eq_dec : EqDecision tok.
Proof. solve_decision. Defined.

Definition is_lower (a : ascii) : bool := in_range 97 122 a || bool_decide (a = "_"%char).

(** The characters of a word: names, keywords, numbers, placeholders. *)
Definition word_char (a : ascii) : bool :=
  is_lower a || in_range 65 90 a || is_digit a || bool_decide (a = "$"%char) || bool_decide (a = "."%char).

Definition flush (w : string) (l : list tok) : list tok :=
  match w with EmptyString => l | _ => TWord w :: l end.

(** [w] is the word or the quoted text read so far, [q] tells which; a text left open
    gives [TOpen]. *)
Fixpoint lex (q : bool) (w s : string) : list tok :=
  match s with
  | EmptyString => if q then [TOpen] else flush w []
  | String a s' =>
      if q then
        if bool_decide (a = "'"%char) then TLit w :: lex false EmptyString s'
        else lex true (w +:+ String a EmptyString) s'
      else if word_char a then lex false (w +:+ String a EmptyString) s'
      else flush w
        (if bool_decide (a = "'"%char) then lex true EmptyString s'
         else if is_space a then lex false EmptyString s'
         else TSym a :: lex false EmptyString s')
  end.

(** ** Reading: clauses *)

Inductive cmpop := OGt | OEq | OLe.

(** A parameter, or NOW() less a parameter of seconds. *)
Inductive operand := OParam (n : Z) | OBias (n : Z).

Inductive cond :=
| CCmp (col : string) (op : cmpop) (o : operand)
| CAnd (a b : cond)
| COr (a b : cond).

Record select := {
  s_cols : list string;
  s_table : string;
  s_where : cond;
  s_order : list string;
  s_limit : Z;
}.

Fixpoint strip_toks (p l : list tok) : option (list tok) :=
  match p, l with
  | [], _ => Some l
  | x :: p', y :: l' => if decide (x = y) then strip_toks p' l' else None
  | _ :: _, [] => None
  end.

Fixpoint read_idents (l : list tok) : option (list string * list tok) :=
  match l with
  | TWord w :: l1 =>
      match l1 with
      | TSym c :: l2 =>
          if bool_decide (c = ","%char) then '(ws, r) ← read_idents l2; Some (w :: ws, r)
          else Some ([w], l1)
      | _ => Some ([w], l1)
      end
  | _ => None
  end.

Definition param_no (w : string) : option Z :=
  match w with
  | String a d => if bool_decide (a = "$"%char) && negb (bool_decide (d = EmptyString)) then digits_val d 0 else None
  | EmptyString => None
  end.

Definition read_operand (l : list tok) : option (operand * list tok) :=
  match strip_toks [TWord "NOW"; TSym "("; TSym ")"; TSym "-"; TSym "("] l with
  | Some (TWord p :: l1) =>
      n ← param_no p;
      r ← strip_toks [TSym ":"; TSym ":"; TWord "INT"; TSym "|"; TSym "|"; TLit " seconds"; TSym ")";
                      TSym ":"; TSym ":"; TWord "INTERVAL"] l1;
      Some (OBias n, r)
  | Some _ => None
  | None =>
      match l with
      | TWord p :: r => n ← param_no p; Some (OParam n, r)
      | _ => None
      end
  end.

Definition read_cmpop (l : list tok) : option (cmpop * list tok) :=
  match strip_toks [TSym "<"; TSym "="] l, strip_toks [TSym ">"] l, strip_toks [TSym "="] l with
  | Some r, _, _ => Some (OLe, r)
  | _, Some r, _ => Some (OGt, r)
  | _, _, Some r => Some (OEq, r)
  | _, _, _ => None
  end.

Definition read_cmp (l : list tok) : option (cond * list tok) :=
  match l with
  | TWord c :: l1 =>
      '(op, l2) ← read_cmpop l1; '(o, l3) ← read_operand l2; Some (CCmp c op o, l3)
  | _ => None
  end.

(** Conditions: a disjunction of conjunctions of comparisons and of conditions in
    parentheses. *)
Fixpoint read_or (n : nat) (l : list tok) : option (cond * list tok) :=
  match n with
  | O => None
  | S n =>
      '(a, l1) ← read_and n l;
      match strip_toks [TWord "OR"] l1 with
      | Some l2 => '(b, r) ← read_or n l2; Some (COr a b, r)
      | None => Some (a, l1)
      end
  end
with read_and (n : nat) (l : list tok) : option (cond * list tok) :=
  match n with
  | O => None
  | S n =>
      '(a, l1) ← read_atom n l;
      match strip_toks [TWord "AND"] l1 with
      | Some l2 => '(b, r) ← read_and n l2; Some (CAnd a b, r)
      | None => Some (a, l1)
      end
  end
with read_atom (n : nat) (l : list tok) : option (cond * list tok) :=
  match n with
  | O => None
  | S n =>
      match strip_toks [TSym "("] l with
      | Some l1 =>
          '(c, l2) ← read_or n l1;
          r ← strip_toks [TSym ")"] l2;
          Some (c, r)
      | None => read_cmp l
      end
  end.

(** [SELECT cols FROM table WHERE cond ORDER BY cols LIMIT n]. *)
Definition read_select (sql : string) : option select :=
  let ts := lex false EmptyString sql in
  l1 ← strip_toks [TWord "SELECT"] ts;
  '(cols, l2) ← read_idents l1;
  l3 ← strip_toks [TWord "FROM"] l2;
  match l3 with
  | TWord t :: l4 =>
      l5 ← strip_toks [TWord "WHERE"] l4;
      '(c, l6) ← read_or (3 * length ts) l5;
      l7 ← strip_toks [TWord "ORDER"; TWord "BY"] l6;
      '(o, l8) ← read_idents l7;
      l9 ← strip_toks [TWord "LIMIT"] l8;
      match l9 with
      | [TWord n] =>
          z ← digits_val n 0;
          Some {| s_cols := cols; s_table := t; s_where := c; s_order := o; s_limit := z |}
      | _ => None
      end
  | _ => None
  end.

(** ** Meaning *)

(** Values a clause may compare or sort by. *)
Inductive val := VTime (t : Z) | VKey (k : key).

#[export] Instance val_eq_dec : EqDecision val.
Proof. solve_decision. Defined.

(** The order of the values of one column. *)
Definition val_leb (ty : key_type) (a b : val) : bool :=
  match a, b with
  | VTime x, VTime y => x <=? y
  | VKey x, VKey y => key_leb ty x y
  | VTime _, VKey _ => true
  | VKey _, VTime _ => false
  end.

Definition col_key (tbl : source_table) (c : string) : option (source_row → option val) :=
  if bool_decide (c = pk_column tbl) then Some (λ r, Some (VKey (sr_pk r)))
  else if bool_decide (c = ts_column tbl) then Some (λ r, VTime <$> sr_ts r)
  else None.

(** A parameter takes the type of what it is compared with: that of the key, which is
    sent as text, TIMESTAMPTZ for the timestamp, INT under the cast. *)
Definition operand_val (tbl : source_table) (args : list arg) (now : Z) (c : string) (o : operand) : option val :=
  let get n := if n <=? 0 then None else args !! Z.to_nat (n - 1) in
  if bool_decide (c = pk_column tbl) then
    match o with
    | OParam n => match get n with Some (AText s) => VKey <$> key_in (pk_type tbl) s | _ => None end
    | OBias _ => None
    end
  else
    match o with
    | OParam n => match get n with Some (ATime t) => Some (VTime t) | _ => None end
    | OBias n => match get n with
                 | Some (AInt z) => if in_int32 z then Some (VTime (now - z * 1000000)) else None
                 | _ => None
                 end
    end.

Definition cmp_holds (ty : key_type) (op : cmpop) (x v : val) : bool :=
  match op with
  | OGt => negb (val_leb ty x v)
  | OEq => bool_decide (v = x)
  | OLe => val_leb ty x v
  end.

(** The rows a condition selects; a comparison with NULL selects nothing. *)
Fixpoint holds (tbl : source_table) (args : list arg) (now : Z) (c : cond) : option (source_row → bool) :=
  match c with
  | CCmp col op o =>
      key ← col_key tbl col;
      v ← operand_val tbl args now col o;
      Some (λ r, match key r with Some x => cmp_holds (pk_type tbl) op x v | None => false end)
  | CAnd a b => f ← holds tbl args now a; g ← holds tbl args now b; Some (λ r, f r && g r)
  | COr a b => f ← holds tbl args now a; g ← holds tbl args now b; Some (λ r, f r || g r)
  end.

(** ORDER BY a list of columns. *)
Fixpoint le_by (ty : key_type) (keys : list (source_row → option val)) (r1 r2 : source_row) : Prop :=
  match keys with
  | [] => True
  | f :: keys' =>
      let a := default (VTime 0) (f r1) in
      let b := default (VTime 0) (f r2) in
      val_leb ty b a = false ∨ a = b ∧ le_by ty keys' r1 r2
  end.

#[export] Instance le_by_dec ty keys r1 r2 : Decision (le_by ty keys r1 r2).
Proof. revert r1 r2. induction keys; intros r1 r2; simpl; apply _. Defined.

Definition run_select (sel : select) (args : list arg) (db : srcdb) : option (source_table * list source_row) :=
  tbl ← src_tables db !! s_table sel;
  if forallb (λ c, bool_decide (c ∈ columns tbl)) (s_cols sel) then
    p ← holds tbl args (src_now db) (s_where sel);
    keys ← mapM (col_key tbl) (s_order sel);
    Some (tbl, take (Z.to_nat (s_limit sel)) (merge_sort (le_by (pk_type tbl) keys) (filter (λ r, p r = true) (rows tbl))))
  else None.

(** What the server answers to a text with parameters; [None] is any error. *)
Definition select_text (sql : string) (args : list arg) (db : srcdb) : option (source_table * list source_row) :=
  sel ← read_select sql; run_select sel args db.

(** ** Names *)

(** A name that needs no quotes: a lower-case letter or an underscore, then those and
    digits. *)
Definition plain_name (s : string) : bool :=
  match s with
  | EmptyString => false
  | String a s' => is_lower a && all_chars (λ c, is_lower c || is_digit c) s'
  end.

Record plain_query (q : Query) : Prop := {
  pq_table : plain_name (q_Table q) = true;
  pq_cols : Forall (λ c, plain_name c = true) (q_cols q);
  pq_distinct : q_PKColumn q ≠ q_TSColumn q;
  pq_batch : 0 < q_BatchSize q;
}.

Lemma plain_word s : plain_name s = true → all_chars word_char s = true ∧ s ≠ EmptyString.
Proof.
  destruct s as [|a s]; [done|]. simpl. intros Hs. to_prop. split; [|done].
  apply andb_true_iff. split; [unfold word_char; by rewrite H|].
  eapply all_chars_mono; [|done]. intros c Hc. unfold word_char.
  apply orb_true_iff in Hc as [-> | ->]; by rewrite ?orb_true_r.
Qed.

(** ** Lexing *)

Lemma lex_word w v s : all_chars word_char v = true → lex false w (v +:+ s) = lex false (w +:+ v) s.
Proof.
  revert w. induction v as [|a v IH]; intros w Hv; [by rewrite string_app_nil_r|].
  simpl in Hv. apply andb_true_iff in Hv as [Ha Hv].
  change (String a v +:+ s) with (String a (v +:+ s)). cbn [lex]. rewrite Ha, IH by done.
  by rewrite <- string_app_assoc.
Qed.

Lemma flush_word w l : w ≠ EmptyString → flush w l = TWord w :: l.
Proof. by destruct w. Qed.

(** A name is one token. *)
Lemma lex_name v s : plain_name v = true → lex false EmptyString (v +:+ s) = lex false v s.
Proof. intros [Hv _]%plain_word. by rewrite lex_word. Qed.

Fixpoint col_toks (cols : list string) : list tok :=
  match cols with
  | [] => []
  | [c] => [TWord c]
  | c :: cols' => TWord c :: TSym "," :: col_toks cols'
  end.

Lemma lex_cols cols s : Forall (λ c, plain_name c = true) cols → cols ≠ [] →
  lex false EmptyString (col_list cols +:+ String " " s) = col_toks cols ++ lex false EmptyString s.
Proof.
  induction 1 as [|c cols Hc Hcs IH]; intros Hne; [done|].
  destruct (plain_word c Hc) as [_ Hc'].
  destruct cols as [|c' cols].
  - cbn [col_list col_toks]. rewrite lex_name by done. cbn [lex]. by rewrite flush_word.
  - change (col_list (c :: c' :: cols)) with (c +:+ ", " +:+ col_list (c' :: cols)).
    change (col_toks (c :: c' :: cols)) with (TWord c :: TSym "," :: col_toks (c' :: cols)).
    rewrite <- !string_app_assoc, lex_name by done.
    change (", " +:+ ?x) with (String "," (String " " x)).
    change (lex false c (String "," (String " " ?x))) with (flush c (TSym "," :: lex false EmptyString x)).
    rewrite flush_word, IH by done. done.
Qed.

(** The tokens of the two texts. *)
Definition where_toks (q : Query) (from : State) : list tok :=
  let bias n := [TWord (q_TSColumn q); TSym "<"; TSym "="; TWord "NOW"; TSym "("; TSym ")"; TSym "-"; TSym "(";
                 TWord n; TSym ":"; TSym ":"; TWord "INT"; TSym "|"; TSym "|"; TLit " seconds"; TSym ")";
                 TSym ":"; TSym ":"; TWord "INTERVAL"] in
  if first_run from then
    [TWord (q_TSColumn q); TSym ">"; TWord "$1"; TWord "AND"] ++ bias "$2"%string
  else
    [TSym "("; TWord (q_TSColumn q); TSym ">"; TWord "$1"; TWord "OR"; TSym "("; TWord (q_TSColumn q); TSym "=";
     TWord "$1"; TWord "AND"; TWord (q_PKColumn q); TSym ">"; TWord "$2"; TSym ")"; TSym ")"; TWord "AND"]
    ++ bias "$3"%string.

Definition fetch_toks (q : Query) (from : State) : list tok :=
  TWord "SELECT" :: col_toks (q_cols q) ++ TWord "FROM" :: TWord (q_Table q) :: TWord "WHERE" ::
  where_toks q from ++ [TWord "ORDER"; TWord "BY"; TWord (q_TSColumn q); TSym ","; TWord (q_PKColumn q);
                        TWord "LIMIT"; TWord (itoa (q_BatchSize q))].

Lemma itoa_word n : 0 <= n → all_chars word_char (itoa n) = true.
Proof.
  intros Hn. eapply all_chars_mono; [|by apply itoa_digits]. intros a Ha. unfold word_char.
  by rewrite Ha, !orb_true_r.
Qed.

(** The tail both texts share. *)
Definition tail_toks (q : Query) : list tok :=
  [TWord "ORDER"; TWord "BY"; TWord (q_TSColumn q); TSym ","; TWord (q_PKColumn q);
   TWord "LIMIT"; TWord (itoa (q_BatchSize q))].

Lemma lex_tail q : plain_query q →
  lex false EmptyString ("ORDER BY " +:+ q_TSColumn q +:+ ", " +:+ q_PKColumn q
                         +:+ nl +:+ "LIMIT " +:+ itoa (q_BatchSize q)) = tail_toks q.
Proof.
  intros [_ Hc _ Hb].
  apply Forall_cons in Hc as [Hpk Hc]. apply Forall_cons in Hc as [Hts _].
  destruct (plain_word _ Hpk) as [_ Hpk']. destruct (plain_word _ Hts) as [_ Hts'].
  change (lex false EmptyString ("ORDER BY " +:+ ?x)) with (TWord "ORDER" :: TWord "BY" :: lex false EmptyString x).
  rewrite lex_name by done.
  change (lex false ?w (", " +:+ ?x)) with (flush w (TSym "," :: lex false EmptyString x)).
  rewrite flush_word, lex_name by done.
  change (lex false ?w (nl +:+ "LIMIT " +:+ ?x)) with (flush w (TWord "LIMIT" :: lex false EmptyString x)).
  rewrite flush_word by done. rewrite <- (string_app_nil_r (itoa (q_BatchSize q))) at 1.
  rewrite lex_word by (apply itoa_word; lia). cbn [lex]. change (EmptyString +:+ ?x) with x.
  by rewrite flush_word by apply itoa_nonempty.
Qed.

Lemma lex_fetch q from : plain_query q → lex false EmptyString (fetch_sql q from) = fetch_toks q from.
Proof.
  intros Hq. pose proof Hq as [Ht Hc _ Hb].
  destruct (plain_word _ Ht) as [_ Ht'].
  pose proof Hc as Hc0. unfold q_cols in Hc0. apply Forall_cons in Hc0 as [Hpk Hc0].
  apply Forall_cons in Hc0 as [Hts _].
  destruct (plain_word _ Hpk) as [_ Hpk']. destruct (plain_word _ Hts) as [_ Hts'].
  unfold fetch_sql, fetch_toks, where_toks.
  destruct (first_run from);
    change (lex false EmptyString (nl +:+ "SELECT " +:+ ?x)) with (TWord "SELECT" :: lex false EmptyString x);
    f_equal; change (" FROM " +:+ ?x) with (String " " ("FROM " +:+ x));
    rewrite lex_cols by done; f_equal;
    change (lex false EmptyString ("FROM " +:+ ?x)) with (TWord "FROM" :: lex false EmptyString x); f_equal;
    rewrite lex_name by done.
  - change (lex false ?w (nl +:+ "WHERE " +:+ ?x)) with (flush w (TWord "WHERE" :: lex false EmptyString x)).
    rewrite flush_word, lex_name by done.
    change (lex false ?w (" > $1" +:+ nl +:+ "  AND " +:+ ?x))
      with (flush w (TSym ">" :: TWord "$1" :: TWord "AND" :: lex false EmptyString x)).
    rewrite flush_word, lex_name by done.
    change (lex false ?w (" <= NOW() - ($2::INT || ' seconds')::INTERVAL" +:+ nl +:+ ?x)) with
      (flush w ([TSym "<"; TSym "="; TWord "NOW"; TSym "("; TSym ")"; TSym "-"; TSym "(";
                 TWord "$2"; TSym ":"; TSym ":"; TWord "INT"; TSym "|"; TSym "|"; TLit " seconds"; TSym ")";
                 TSym ":"; TSym ":"; TWord "INTERVAL"] ++ lex false EmptyString x)).
    by rewrite flush_word, lex_tail.
  - change (lex false ?w (nl +:+ "WHERE (" +:+ ?x))
      with (flush w (TWord "WHERE" :: TSym "(" :: lex false EmptyString x)).
    rewrite flush_word, lex_name by done.
    change (lex false ?w (" > $1 OR (" +:+ ?x))
      with (flush w (TSym ">" :: TWord "$1" :: TWord "OR" :: TSym "(" :: lex false EmptyString x)).
    rewrite flush_word, lex_name by done.
    change (lex false ?w (" = $1 AND " +:+ ?x))
      with (flush w (TSym "=" :: TWord "$1" :: TWord "AND" :: lex false EmptyString x)).
    rewrite flush_word, lex_name by done.
    change (lex false ?w (" > $2))" +:+ nl +:+ "  AND " +:+ ?x))
      with (flush w (TSym ">" :: TWord "$2" :: TSym ")" :: TSym ")" :: TWord "AND" :: lex false EmptyString x)).
    rewrite flush_word, lex_name by done.
    change (lex false ?w (" <= NOW() - ($3::INT || ' seconds')::INTERVAL" +:+ nl +:+ ?x)) with
      (flush w ([TSym "<"; TSym "="; TWord "NOW"; TSym "("; TSym ")"; TSym "-"; TSym "(";
                 TWord "$3"; TSym ":"; TSym ":"; TWord "INT"; TSym "|"; TSym "|"; TLit " seconds"; TSym ")";
                 TSym ":"; TSym ":"; TWord "INTERVAL"] ++ lex false EmptyString x)).
    by rewrite flush_word, lex_tail.
Qed.

(** ** Parsing *)

Lemma read_cols cols t r : cols ≠ [] → read_idents (col_toks cols ++ TWord t :: r) = Some (cols, TWord t :: r).
Proof.
  induction cols as [|c [|c' cols] IH]; intros Hne; [done|done|].
  change (col_toks (c :: c' :: cols)) with (TWord c :: TSym "," :: col_toks (c' :: cols)).
  cbn -[col_toks]. by rewrite IH.
Qed.

(** The WHERE clause. *)
Definition fetch_cond (q : Query) (from : State) : cond :=
  if first_run from then
    CAnd (CCmp (q_TSColumn q) OGt (OParam 1)) (CCmp (q_TSColumn q) OLe (OBias 2))
  else
    CAnd (COr (CCmp (q_TSColumn q) OGt (OParam 1))
              (CAnd (CCmp (q_TSColumn q) OEq (OParam 1)) (CCmp (q_PKColumn q) OGt (OParam 2))))
         (CCmp (q_TSColumn q) OLe (OBias 3)).

Lemma read_where q from n r : (20 <= n)%nat →
  read_or n (where_toks q from ++ TWord "ORDER" :: r) = Some (fetch_cond q from, TWord "ORDER" :: r).
Proof.
  intros Hn. do 20 (destruct n as [|n]; [lia|]). unfold where_toks, fetch_cond.
  by destruct (first_run from).
Qed.

(** The SELECT the text means. *)
Definition fetch_select (q : Query) (from : State) : select := {|
  s_cols := q_cols q; s_table := q_Table q; s_where := fetch_cond q from;
  s_order := [q_TSColumn q; q_PKColumn q]; s_limit := q_BatchSize q
|}.

Lemma read_fetch q from : plain_query q → read_select (fetch_sql q from) = Some (fetch_select q from).
Proof.
  intros Hq. unfold read_select. rewrite lex_fetch by done. unfold fetch_toks.
  assert (20 <= 3 * length (fetch_toks q from))%nat as Hn.
  { assert (20 <= length (where_toks q from))%nat by (unfold where_toks; destruct (first_run from); simpl; lia).
    unfold fetch_toks. simpl. rewrite length_app. simpl. rewrite length_app. lia. }
  unfold fetch_toks in Hn. revert Hn. generalize (3 * length (TWord "SELECT" :: col_toks (q_cols q) ++
    TWord "FROM" :: TWord (q_Table q) :: TWord "WHERE" :: where_toks q from ++ [TWord "ORDER"; TWord "BY";
    TWord (q_TSColumn q); TSym ","; TWord (q_PKColumn q); TWord "LIMIT"; TWord (itoa (q_BatchSize q))]))%nat.
  intros n Hn. cbn [strip_toks]. rewrite decide_True by done. cbn [mbind option_bind strip_toks].
  rewrite read_cols by done. cbn [mbind option_bind strip_toks]. rewrite decide_True by done.
  cbn [mbind option_bind strip_toks]. rewrite decide_True by done. cbn [mbind option_bind].
  rewrite read_where by done.
  change ((z ← digits_val (itoa (q_BatchSize q)) 0;
           Some {| s_cols := q_cols q; s_table := q_Table q; s_where := fetch_cond q from;
                   s_order := [q_TSColumn q; q_PKColumn q]; s_limit := z |}) = Some (fetch_select q from)).
  pose proof (pq_batch q Hq) as Hb.
  destruct (itoa_read (q_BatchSize q) "," EmptyString ltac:(lia) eq_refl) as (_ & _ & ->). done.
Qed.

(** ** The meaning of the texts *)

Lemma merge_sort_ext {A} (R1 R2 : relation A) `{∀ x y, Decision (R1 x y)} `{∀ x y, Decision (R2 x y)} (l : list A) :
  (∀ x y, R1 x y ↔ R2 x y) → merge_sort R1 l = merge_sort R2 l.
Proof.
  intros HR.
  assert (∀ l1 l2, list_merge R1 l1 l2 = list_merge R2 l1 l2) as Hm.
  { induction l1 as [|x1 l1 IH1]; intros l2; [by destruct l2|].
    induction l2 as [|x2 l2 IH2]; [done|]. simpl. rewrite IH1. fold (list_merge R1 (x1 :: l1) l2).
    destruct (decide (R1 x1 x2)), (decide (R2 x1 x2)); try naive_solver. f_equal. exact IH2. }
  assert (∀ st l0, merge_list_to_stack R1 st l0 = merge_list_to_stack R2 st l0) as Hs.
  { induction st as [|[l0'|] st IH]; intros l0; simpl; [done| |done]. by rewrite Hm, IH. }
  assert (∀ st, merge_stack R1 st = merge_stack R2 st) as Hk.
  { induction st as [|[l0|] st IH]; simpl; [done| |done]. by rewrite IH, Hm. }
  unfold merge_sort. generalize (@nil (option (list A))) as st.
  induction l as [|x l IH]; intros st; simpl; [apply Hk|]. by rewrite Hs, IH.
Qed.

(** The positions of the numbered parameters. *)
Ltac slots :=
  change (Z.to_nat (1 - 1)) with 0%nat; change (Z.to_nat (2 - 1)) with 1%nat;
  change (Z.to_nat (3 - 1)) with 2%nat.

Lemma eqb_time x y : bool_decide (VTime x = VTime y) = (x =? y).
Proof. by destruct (Z.eqb_spec x y) as [->|]; [apply bool_decide_true|apply bool_decide_false; congruence]. Qed.

(** ORDER BY the timestamp, then the key. *)
Lemma le_by_row_le ty x y :
  le_by ty [λ r, VTime <$> sr_ts r; λ r, Some (VKey (sr_pk r))] x y ↔ row_le ty x y.
Proof.
  assert (∀ r, default (VTime 0) (VTime <$> sr_ts r) = VTime (default 0 (sr_ts r))) as Hd
    by (intros r; by destruct (sr_ts r)).
  cbn -[default]. rewrite !Hd. unfold row_le. cbn. rewrite Z.leb_gt.
  assert (key_leb ty (sr_pk y) (sr_pk x) = false ∨ VKey (sr_pk x) = VKey (sr_pk y) ∧ True
    ↔ key_leb ty (sr_pk x) (sr_pk y) = true) as ->.
  { split.
    - intros [Hf|[[= ->] _]]; [|apply key_leb_refl].
      destruct (key_leb_total ty (sr_pk x) (sr_pk y)); congruence.
    - intros Hle. destruct (key_leb ty (sr_pk y) (sr_pk x)) eqn:E; [right|by left].
      by rewrite (key_leb_antisym _ _ _ Hle E). }
  split; (intros [?|[? ?]]; [by left|right]); split; congruence.
Qed.

(** The condition selects the rows past the watermark and behind the bias bound. *)
Lemma holds_fetch q from tbl now :
  pk_column tbl = q_PKColumn q → ts_column tbl = q_TSColumn q → q_PKColumn q ≠ q_TSColumn q →
  in_int32 (biasSec q) = true → ∀ c, cursor (pk_type tbl) from = Some c →
  ∃ p, holds tbl (fetch_args q from) now (fetch_cond q from) = Some p ∧
    ∀ r, p r = selected (pk_type tbl) c (bias_bound q now) r.
Proof.
  intros Hpk Hts Hne Hb c Hc. unfold fetch_cond, fetch_args, cursor, first_run in *.
  assert (∀ c, bool_decide (c = pk_column tbl) = bool_decide (c = q_PKColumn q)) as Ek by (by rewrite Hpk).
  destruct (bool_decide (LastRunPK from = EmptyString)) eqn:Hf.
  - injection Hc as <-. cbn [holds col_key operand_val]. unfold col_key, operand_val.
    rewrite !Ek, (bool_decide_false (q_TSColumn q = q_PKColumn q)) by congruence.
    rewrite bool_decide_true by done. cbn -[in_int32 biasSec]. slots.
    cbn -[in_int32 biasSec]. rewrite Hb. cbn -[biasSec]. eexists. split; [reflexivity|].
    intros r. unfold selected, past, bias_bound, biasSec. destruct (sr_ts r) as [ts|]; [|done].
    cbn. by rewrite Z.leb_antisym, negb_involutive, ?eqb_time.
  - destruct (key_in (pk_type tbl) (LastRunPK from)) as [k|] eqn:Ea; [|done]. injection Hc as <-.
    cbn [holds col_key operand_val]. unfold col_key, operand_val.
    rewrite !Ek, (bool_decide_false (q_TSColumn q = q_PKColumn q)), (bool_decide_true (q_PKColumn q = q_PKColumn q))
      by congruence.
    rewrite bool_decide_true by done. cbn -[in_int32 biasSec key_in]. slots.
    cbn -[in_int32 biasSec key_in]. rewrite Hb, Ea. cbn -[biasSec]. eexists. split; [reflexivity|].
    intros r. unfold selected, past, bias_bound, biasSec. destruct (sr_ts r) as [ts|]; [|done].
    cbn. by rewrite Z.leb_antisym, negb_involutive, ?eqb_time.
Qed.

(** The texts fail where the query does. *)
Lemma cmp_ts tbl args now c op n p :
  holds tbl args now (CCmp c op (OParam n)) = Some p →
  (∃ s, args !! Z.to_nat (n - 1) = Some (AText s) ∧ is_Some (key_in (pk_type tbl) s) ∧ c = pk_column tbl)
  ∨ (∃ t, args !! Z.to_nat (n - 1) = Some (ATime t) ∧ c = ts_column tbl).
Proof.
  cbn [holds]. unfold col_key, operand_val. intros E.
  case_bool_decide; cbn in E; [left|].
  - destruct (n <=? 0); [done|]. destruct (args !! _) as [[t|s|z]|]; try done.
    destruct (key_in (pk_type tbl) s) eqn:Ea; [|done]. by exists s.
  - case_bool_decide; [|done]. cbn in E. right. destruct (n <=? 0); [done|].
    destruct (args !! _) as [[t|s|z]|]; try done. by exists t.
Qed.

Lemma cmp_bias tbl args now c op n p :
  holds tbl args now (CCmp c op (OBias n)) = Some p →
  ∃ z, args !! Z.to_nat (n - 1) = Some (AInt z) ∧ in_int32 z = true.
Proof.
  cbn [holds]. unfold col_key, operand_val. intros E.
  case_bool_decide; cbn in E; [done|]. case_bool_decide; [|done]. cbn in E.
  destruct (n <=? 0); [done|]. destruct (args !! _) as [[t|s|z]|]; try done.
  destruct (in_int32 z) eqn:Ez; [|done]. by exists z.
Qed.

Lemma holds_and tbl args now a b p :
  holds tbl args now (CAnd a b) = Some p → is_Some (holds tbl args now a) ∧ is_Some (holds tbl args now b).
Proof. cbn [holds]. by destruct (holds _ _ _ a), (holds _ _ _ b). Qed.

Lemma holds_or tbl args now a b p :
  holds tbl args now (COr a b) = Some p → is_Some (holds tbl args now a) ∧ is_Some (holds tbl args now b).
Proof. cbn [holds]. by destruct (holds _ _ _ a), (holds _ _ _ b). Qed.

Lemma holds_fetch_inv q from tbl now p :
  q_PKColumn q ≠ q_TSColumn q →
  holds tbl (fetch_args q from) now (fetch_cond q from) = Some p →
  is_Some (col_key tbl (q_PKColumn q)) →
  pk_column tbl = q_PKColumn q ∧ ts_column tbl = q_TSColumn q ∧ in_int32 (biasSec q) = true ∧
  is_Some (cursor (pk_type tbl) from).
Proof.
  intros Hne E [k Hk]. unfold fetch_cond, fetch_args, cursor, first_run in *.
  assert (q_TSColumn q = ts_column tbl → pk_column tbl = q_PKColumn q) as Hpk.
  { intros Ht. unfold col_key in Hk. repeat case_bool_decide; congruence. }
  destruct (bool_decide (LastRunPK from = EmptyString)); apply holds_and in E as [[p1 E1] [p2 E2]];
    destruct (cmp_bias _ _ _ _ _ _ _ E2) as (z & [= <-] & Hz).
  - destruct (cmp_ts _ _ _ _ _ _ _ E1) as [(s & [=] & _)|(t & _ & Ht)]. eauto 10.
  - apply holds_or in E1 as [[p3 E3] [p4 E4]]. apply holds_and in E4 as [_ [p5 E5]].
    destruct (cmp_ts _ _ _ _ _ _ _ E3) as [(s & [=] & _)|(t & _ & Ht)].
    destruct (cmp_ts _ _ _ _ _ _ _ E5) as [(s & [= <-] & [x Hx] & _)|(t2 & [=] & _)].
    rewrite Hx. eauto 10.
Qed.

(** A text that fits the table gives the page. *)
Lemma run_select_fetch q from db tbl c :
  plain_query q → src_tables db !! q_Table q = Some tbl → query_ok q tbl = true → cursor (pk_type tbl) from = Some c →
  run_select (fetch_select q from) (fetch_args q from) db
  = Some (tbl, window q tbl c (src_now db)).
Proof.
  intros Hq Ht Hok Hc. pose proof (pq_distinct q Hq) as Hne.
  unfold query_ok in Hok. rewrite !andb_true_iff, !bool_decide_eq_true in Hok.
  destruct Hok as [[[Hpk Hts] Hf] Hb].
  destruct (holds_fetch q from tbl (src_now db) Hpk Hts Hne Hb c Hc) as (p & Hh & Hp).
  unfold run_select. cbn [fetch_select s_cols s_table s_where s_order s_limit].
  rewrite Ht. cbn [mbind option_bind]. rewrite Hf, Hh. cbn [mbind option_bind].
  assert (mapM (col_key tbl) [q_TSColumn q; q_PKColumn q] = Some [λ r, VTime <$> sr_ts r; λ r, Some (VKey (sr_pk r))]) as ->.
  { cbn. unfold col_key. rewrite Hpk, Hts, (bool_decide_false (q_TSColumn q = q_PKColumn q)) by congruence.
    by rewrite !bool_decide_true. }
  cbn [mbind option_bind]. unfold window. do 3 f_equal.
  rewrite (filter_ext_in_list _ (λ r, selected (pk_type tbl) c (bias_bound q (src_now db)) r = true))
    by (intros r _; by rewrite Hp).
  apply merge_sort_ext. intros x y. apply le_by_row_le.
Qed.

(** ** Properties *)

(** C36: The text [Fetch] sends means the query of the model: for names that need no quotes
    the text of either SELECT is well formed, and read and run with its parameters, the
    watermark and the bias, it gives a page exactly when the query does, and the same one:
    the rows past the watermark in the order of (ts, pk), those stamped like the watermark
    with a greater key included, up to the bias bound, cut to the batch size. *)
Theorem fetch_sql_means q from db xs :
  plain_query q →
  (∃ tbl l, select_text (fetch_sql q from) (fetch_args q from) db = Some (tbl, l) ∧ scan_rows q tbl l = inr xs)
  ↔ run_query q from db = inr xs.
Proof.
  intros Hq. unfold select_text. rewrite read_fetch by done. cbn [mbind option_bind]. split.
  - intros (tbl & l & E & Hs). pose proof E as E0.
    unfold run_select in E. cbn [fetch_select s_cols s_table s_where s_order s_limit] in E.
    destruct (src_tables db !! q_Table q) as [tbl'|] eqn:Ht; [|done]. cbn [mbind option_bind] in E.
    destruct (forallb _ (q_cols q)) eqn:Hf; [|done].
    destruct (holds tbl' _ _ _) as [p|] eqn:Hh; [|done]. cbn [mbind option_bind] in E.
    destruct (col_key tbl' (q_TSColumn q)) as [k1|] eqn:K1; [|cbn in E; by rewrite K1 in E].
    destruct (col_key tbl' (q_PKColumn q)) as [k2|] eqn:K2; [|cbn in E; by rewrite K1, K2 in E].
    destruct (holds_fetch_inv q from tbl' _ p (pq_distinct q Hq) Hh (ex_intro _ k2 K2))
      as (Hpk & Hts & Hb & c & Hc).
    assert (query_ok q tbl' = true) as Hok.
    { unfold query_ok. rewrite !bool_decide_true, Hf by done. exact Hb. }
    rewrite (run_select_fetch q from db tbl' c) in E0 by done. injection E0 as <- <-.
    unfold run_query. rewrite Ht. unfold query_ok in Hok. apply andb_true_iff in Hok as [-> ->].
    by rewrite Hc.
  - intros E. destruct (run_query_inr q from db xs E) as (tbl & c & Ht & Hok & Hc & ->).
    exists tbl, (window q tbl c (src_now db)). split; [by apply run_select_fetch|].
    unfold query_ok in Hok. rewrite !andb_true_iff, !bool_decide_eq_true in Hok.
    apply scan_rows_image; [apply Hok|]. intros r [_ Hs]%elem_of_window. by eapply selected_ts.
Qed.
