(* ===== verification/Sniffer.v ===== *)
(** * The sniffer (internal/sniffer: state.go, enqueue.go, sniffer.go)

    The watermark of a source, the deduplicating inserts, and one poll: load the
    watermark, fetch a page, enqueue what can be rendered, advance the watermark. *)

From S2P Require Import Prelude GoLang ErrDetail GoText Store Worker Invariant Spec Jobs.
From S2P Require Import BatchSql SnifferQuery.

Local Open Scope Z_scope.

(** ** state.go *)

(** [time.Time{}], 0001-01-01 00:00:00 UTC. *)
Definition zero_time : Z := -62135596800000000.

(** [SELECT last_run_ts, COALESCE(last_run_pk, '') ... WHERE source_id = $1]; no row
    leaves the zero watermark. *)
Definition watermark (sourceID : string) (t : tables) : State :=
  match sniffer_state t !! sourceID with
  | Some r => {| SourceID := sourceID; LastRunTS := last_run_ts r;
                 LastRunPK := default EmptyString (last_run_pk r) |}
  | None => {| SourceID := sourceID; LastRunTS := zero_time; LastRunPK := EmptyString |}
  end.

Definition load_stmt (sourceID : string) : stmt State := λ e t, (inr (watermark sourceID t), t).

Definition Load (sourceID : string) : M pg (error + State) :=
  o ← exec (load_stmt sourceID);
  mret match o with
       | inl err => inl (wrapf ("load " +:+ quote sourceID +:+ ": ") err)
       | inr st => inr st
       end.

(** [INSERT INTO sniffer_state ... ON CONFLICT (source_id) DO UPDATE]. *)
Definition state_row (now : Z) (s : State) : sniffer_row := {|
  last_run_ts := LastRunTS s;
  last_run_pk := if bool_decide (LastRunPK s = EmptyString) then None else Some (LastRunPK s);
  state_updated_at := now
|}.

Definition upsert_stmt (s : State) : stmt unit := λ e t,
  (inr tt, set_sniffer_state (<[SourceID s := state_row (now e) s]> (sniffer_state t)) t).

Definition Upsert (s : State) : M pg (option error) :=
  o ← exec (upsert_stmt s);
  mret match o with
       | inl err => Some (wrapf ("upsert " +:+ quote (SourceID s) +:+ ": ") err)
       | inr _ => None
       end.

(** ** enqueue.go *)

(** ** sniffer.go: configuration and world *)

(** The world of a sniffer: the control database, the source database, and what the
    callbacks act on. *)
Record sworld (K : Type) := { ctl : pg; source : srcdb; hooks : K }.
Arguments ctl {K} _.
Arguments source {K} _.
Arguments hooks {K} _.

#[export, refine] Instance ctl_lens K : Lens (sworld K) pg := {|
  view := ctl;
  over := λ s w, {| ctl := s; source := source w; hooks := hooks w |}
|}.
Proof. all: by intros; repeat match goal with w : sworld _ |- _ => destruct w end. Defined.

#[export, refine] Instance source_lens K : Lens (sworld K) srcdb := {|
  view := source;
  over := λ s w, {| ctl := ctl w; source := s; hooks := hooks w |}
|}.
Proof. all: by intros; repeat match goal with w : sworld _ |- _ => destruct w end. Defined.

#[export, refine] Instance hooks_lens K : Lens (sworld K) K := {|
  view := hooks;
  over := λ s w, {| ctl := ctl w; source := source w; hooks := s |}
|}.
Proof. all: by intros; repeat match goal with w : sworld _ |- _ => destruct w end. Defined.

Record Config (K : Type) := {
  c_SourceID : string;
  c_Query : Query;
  c_Dst : DstTemplate;
  c_SrcPattern : string;
  c_SrcProtocol : string;
  c_DstProtocol : string;
  c_OnEnqueue : option (string → Z → M K unit);
  c_OnError : option (string → M K unit);
}.
Arguments c_SourceID {K} _.
Arguments c_Query {K} _.
Arguments c_Dst {K} _.
Arguments c_SrcPattern {K} _.
Arguments c_SrcProtocol {K} _.
Arguments c_DstProtocol {K} _.
Arguments c_OnEnqueue {K} _.
Arguments c_OnError {K} _.

Section Sniffer.
Context `{ScanOrder}.

(** One row of VALUES: the other columns take their defaults. *)
Definition insert_spec (ts : Z) (j : JobSpec) (t : tables) : option Z * tables :=
  insert_job ts (js_TraceID j) (js_Src j) (js_Dst j) (js_SrcProtocol j) (js_DstProtocol j) "{}" 5 t.

(** What the server says of a parameter that is not UTF-8 or has a NUL byte. *)
Definition text_refused : error := EOpaque "invalid byte sequence for encoding".

(** [tag.RowsAffected() == 1]. *)
Definition enqueue_one_stmt (j : JobSpec) : stmt bool := λ e t,
  if forallb pg_text (spec_args j) then
    let '(o, t') := insert_spec (now e) j t in
    (inr match o with Some _ => true | None => false end, t')
  else (inl text_refused, t).

Definition sniffer_Enqueue (j : JobSpec) : M pg (error + bool) :=
  o ← exec (enqueue_one_stmt j);
  mret match o with
       | inl err => inl (wrapf ("enqueue " +:+ js_TraceID j +:+ "->" +:+ js_Dst j +:+ ": ") err)
       | inr b => inr b
       end.

(** The rows of a multi-row INSERT ... ON CONFLICT DO NOTHING, in order, and the
    number of rows inserted. *)
Fixpoint insert_all (ts : Z) (specs : list JobSpec) (t : tables) : Z * tables :=
  match specs with
  | [] => (0, t)
  | j :: specs' =>
      let '(o, t1) := insert_spec ts j t in
      let '(n, t2) := insert_all ts specs' t1 in
      (match o with Some _ => n + 1 | None => n end, t2)
  end.

(** The extended protocol counts bound parameters in 16 bits. *)
Definition max_params : Z := 65535.

(** The server runs the text of a batch: it reads the rows with their arguments. *)
Definition insert_text_stmt (sql : string) (args : list string) : stmt Z := λ e t,
  if max_params <? Z.of_nat (length args) then
    (inl (EOpaque "extended protocol limited to 65535 parameters"), t)
  else match read_batch sql args with
       | None => (inl (EOpaque "syntax error"), t)
       | Some specs =>
           if forallb pg_text args then
             let '(n, t') := insert_all (now e) specs t in (inr n, t')
           else (inl text_refused, t)
       end.

Definition EnqueueBatch (specs : list JobSpec) : M pg (error + Z) :=
  match specs with
  | [] => mret (inr 0)
  | _ =>
      o ← exec (insert_text_stmt (batch_sql specs) (batch_args specs));
      mret match o with
           | inl err => inl (wrapf ("enqueue batch of " +:+ itoa (Z.of_nat (length specs)) +:+ ": ") err)
           | inr n => inr n
           end
  end.

(** ** One poll *)

Context `{TemplateEngine} {K : Type}.
Implicit Types (cfg : Config K) (w : sworld K).

(** The renderer [New] makes of SrcPattern. *)
Definition src_template cfg : DstTemplate := {| Pattern := c_SrcPattern cfg; Shadow := false |}.

(** The body of the rendering loop: a row that cannot be rendered is skipped. *)
Definition render_row cfg (r : Row) : option JobSpec :=
  match Render (c_Dst cfg) (Fields r) with
  | inl _ => None
  | inr d =>
      match Render (src_template cfg) (Fields r) with
      | inl _ => None
      | inr s => Some {| js_TraceID := TraceID (q_Table (c_Query cfg)) (PK r); js_Src := s; js_Dst := d;
                         js_SrcProtocol := c_SrcProtocol cfg; js_DstProtocol := c_DstProtocol cfg |}
      end
  end.

Definition runOnceImpl cfg : M (sworld K) (Z * option error) :=
  l ← zoom (S := pg) (Load (c_SourceID cfg));
  match l with
  | inl err => mret (0, Some (wrapf "load state: " err))
  | inr st =>
      f ← zoom (S := srcdb) (Fetch (c_Query cfg) st);
      match f with
      | inl err => mret (0, Some (wrapf "fetch: " err))
      | inr xs =>
          match last xs with
          | None => mret (0, None)
          | Some lst =>
              b ← zoom (S := pg) (EnqueueBatch (omap (render_row cfg) xs));
              match b with
              | inl err => mret (0, Some (wrapf "enqueue batch: " err))
              | inr inserted =>
                  u ← zoom (S := pg) (Upsert {| SourceID := c_SourceID cfg; LastRunTS := TS lst;
                                                LastRunPK := PK lst |});
                  match u with
                  | Some err => mret (inserted, Some (wrapf "upsert state: " err))
                  | None => mret (inserted, None)
                  end
              end
          end
      end
  end.

Definition RunOnce cfg : M (sworld K) (Z * option error) :=
  p ← runOnceImpl cfg;
  match p with
  | (n, Some err) =>
      _ ← match c_OnError cfg with
          | Some f => zoom (S := K) (f (c_SourceID cfg))
          | None => mret tt
          end;
      mret (n, Some err)
  | (n, None) =>
      _ ← match c_OnEnqueue cfg with
          | Some f => zoom (S := K) (f (c_SourceID cfg) n)
          | None => mret tt
          end;
      mret (n, None)
  end.

End Sniffer.
