(* ===== verification/SnifferProps.v ===== *)
(** * What a poll of the sniffer does

    The effect of one poll under every pattern of failures, and from it: no source
    row is lost, the watermark only moves forward past rows whose jobs exist, and
    polls without failures drain the source. *)

From S2P Require Import Prelude GoLang ErrDetail GoText Store Worker Invariant Spec Jobs.
From S2P Require Import BatchSql SourceKeys SnifferQuery Sniffer.

Local Open Scope Z_scope.

(** ** Keys in the queue *)

Definition has_key (t : tables) (k : string * string) : Prop :=
  ∃ i r, jobs t !! i = Some r ∧ (trace_id r, dst r) = k.

Definition spec_key (j : JobSpec) : string * string := (js_TraceID j, js_Dst j).

Section Batch.
Context `{ScanOrder}.

Lemma insert_spec_implements ts j t o t' :
  insert_spec ts j t = (o, t') →
  evolves_by (once (λ l, l = ASubmit (jobs_seq t) (spec_key j) 5)) t t'.
Proof. by apply evolves_insert. Qed.

Lemma insert_spec_evolves ts j t o t' : insert_spec ts j t = (o, t') → evolves t t'.
Proof. intros E. by eapply evolves_once, insert_spec_implements. Qed.

Lemma insert_spec_state ts j t o t' :
  insert_spec ts j t = (o, t') → sniffer_state t' = sniffer_state t ∧ events t' = events t.
Proof. unfold insert_spec, insert_job. intros E. case_match; by simplify_eq. Qed.

Lemma insert_spec_keys ts j t o t' :
  wf t → insert_spec ts j t = (o, t') →
  has_key t' (spec_key j) ∧ (∀ k, has_key t k → has_key t' k) ∧
  Z.of_nat (size (jobs t')) = Z.of_nat (size (jobs t)) + match o with Some _ => 1 | None => 0 end.
Proof.
  intros Hwf E. unfold insert_spec in E.
  destruct (insert_job_cases _ _ _ _ _ _ _ _ _ _ _ E) as [_ [(-> & Hu & r & Hk)|(-> & Hk & Hj)]].
  - destruct (undone_jobs _ _ Hu) as [Ej _]. unfold has_key. rewrite Ej.
    apply find_key_Some in Hk as (i & Hi & Htr & Hd). split_and!; [|done|lia].
    exists i, r. split; [done|]. unfold spec_key. by rewrite Htr, Hd.
  - assert (jobs t !! jobs_seq t = None) as Hfresh.
    { destruct (jobs t !! jobs_seq t) eqn:Ef; [|done]. apply (wf_seq _ Hwf) in Ef. lia. }
    unfold has_key. rewrite Hj. split_and!.
    + eexists (jobs_seq t), _. by rewrite lookup_insert_eq.
    + intros k (i & r & Hi & Hkr). exists i, r. rewrite lookup_insert_ne; [done|]. congruence.
    + rewrite map_size_insert_None by done. lia.
Qed.

(** A batch: a history of the queue, all keys are there afterwards, and the count is
    the number of new rows. *)
Lemma insert_all_run ts specs t n t' :
  wf t → insert_all ts specs t = (n, t') →
  evolves t t' ∧ sniffer_state t' = sniffer_state t ∧
  (∀ j, j ∈ specs → has_key t' (spec_key j)) ∧ (∀ k, has_key t k → has_key t' k) ∧
  Z.of_nat (size (jobs t')) = Z.of_nat (size (jobs t)) + n.
Proof.
  revert t n t'. induction specs as [|j specs IH]; intros t n t' Hwf E; cbn in E.
  { simplify_eq. split_and!; try done; [by intros ? ?%not_elem_of_nil|lia]. }
  destruct (insert_spec ts j t) as [o t1] eqn:E1.
  destruct (insert_all ts specs t1) as [m t2] eqn:E2. simplify_eq.
  pose proof (insert_spec_evolves _ _ _ _ _ E1) as Hev.
  destruct (insert_spec_state _ _ _ _ _ E1) as [Hs1 _].
  destruct (insert_spec_keys _ _ _ _ _ Hwf E1) as (Hk1 & Hm1 & Hz1).
  destruct (IH t1 m t') as (Hev2 & Hs2 & Hk2 & Hm2 & Hz2); [by apply Hev|done|].
  split_and!; [by etrans|congruence| |by auto|].
  - intros j' [->|Hj]%elem_of_cons; auto.
  - destruct o; lia.
Qed.

(** A batch only submits the keys of its rows. *)
Lemma insert_all_implements ts specs t n t' :
  insert_all ts specs t = (n, t') →
  evolves_by (rtc (acts (λ l, ∃ i j, j ∈ specs ∧ l = ASubmit i (spec_key j) 5))) t t'.
Proof.
  revert t n t'. induction specs as [|j specs IH]; intros t n t' E; cbn in E.
  { simplify_eq. by apply evolves_by_refl. }
  destruct (insert_spec ts j t) as [o t1] eqn:E1.
  destruct (insert_all ts specs t1) as [m t2] eqn:E2. simplify_eq.
  refine (evolves_by_trans _ _ _ _ _ _ _ (insert_spec_implements _ _ _ _ _ E1) (IH _ _ _ E2)).
  intros q1 q2 q3 H1%once_steps H2. etrans.
  - eapply rtc_acts_mono; [|exact H1]. intros l ->. eexists _, j. split; [left|done].
  - eapply rtc_acts_mono; [|exact H2]. intros l (i & j' & Hj & ->). exists i, j'. split; [by right|done].
Qed.

Lemma evolves_watermark R `{!Reflexive R} t m : evolves_by R t (set_sniffer_state m t).
Proof.
  intros [? ? ? ? ?]. split; simpl; try done.
  - by left.
  - intros i r r' H1 H2. simplify_eq. apply same_identity_refl.
Qed.

End Batch.

(** ** The effect of a poll *)

Section Poll.
Context `{ScanOrder} `{TemplateEngine} {K : Type} (cfg : Config K).

Local Notation q := (c_Query cfg).
Local Notation sid := (c_SourceID cfg).

Definition fits (xs : list Row) : Prop :=
  Z.of_nat (length (omap (render_row cfg) xs)) * 5 <= max_params.

Definition moved (ts : Z) (lst : Row) (t : tables) : tables :=
  set_sniffer_state
    (<[sid := state_row ts {| SourceID := sid; LastRunTS := TS lst; LastRunPK := PK lst |}]>
       (sniffer_state t)) t.

(** What a poll that starts at time [ts] from tables [t] leaves behind, with its
    count and its error: nothing; nothing since there was nothing to do; the jobs of
    the page without the watermark; or both. *)
Inductive poll_effect (ts : Z) (db : srcdb) (t : tables) : tables → Z → option error → Prop :=
| poll_failed t' err :
    undone t t' → poll_effect ts db t t' 0 (Some err)
| poll_idle :
    run_query q (watermark sid t) db = inr [] → poll_effect ts db t t 0 None
| poll_enqueued xs lst n t1 m err :
    run_query q (watermark sid t) db = inr xs → last xs = Some lst → fits xs →
    insert_all ts (omap (render_row cfg) xs) t = (n, t1) → m = 0 ∨ m = n →
    poll_effect ts db t t1 m (Some err)
| poll_moved xs lst n t1 o :
    run_query q (watermark sid t) db = inr xs → last xs = Some lst → fits xs →
    insert_all ts (omap (render_row cfg) xs) t = (n, t1) →
    poll_effect ts db t (moved ts lst t1) n o.

Lemma load_run s : ∃ r s',
  Load sid s = (Ret r, s') ∧ env s' = env s ∧ tx s' = tx s ∧ tabs s' = tabs s ∧
  (r = inr (watermark sid (tabs s)) ∨ ∃ e, r = inl e).
Proof.
  unfold Load. destruct (exec_run (load_stmt sid) s) as (o & s1 & E & He & Hx & _ & Hc).
  run_bind E. eexists _, _. split; [done|]. split; [done|]. split; [done|].
  destruct Hc as [(a & [= <- Ht] & Hr)|[(_ & Ht & e & ->)|(? & ? & [=] & _)]]; [|by eauto].
  split; [done|]. destruct Hr as [->|(_ & e & ->)]; eauto.
Qed.

Lemma upsert_run lst s : ∃ o s',
  Upsert {| SourceID := sid; LastRunTS := TS lst; LastRunPK := PK lst |} s = (Ret o, s') ∧
  env s' = env s ∧ tx s' = tx s ∧
  (tabs s' = moved (now (env s)) lst (tabs s) ∨ (tabs s' = tabs s ∧ ∃ e, o = Some e)).
Proof.
  unfold Upsert. destruct (exec_run (upsert_stmt
    {| SourceID := sid; LastRunTS := TS lst; LastRunPK := PK lst |}) s) as (o & s1 & E & He & Hx & _ & Hc).
  run_bind E. eexists _, _. split; [done|]. split; [done|]. split; [done|].
  destruct Hc as [(a & [= _ Ht] & Hr)|[(_ & Ht & e & ->)|(? & ? & [=] & _)]]; [|by eauto].
  left. by rewrite <- Ht.
Qed.

(** What the text of a batch comes to. *)
Lemma insert_text_batch specs e t : specs ≠ [] →
  insert_text_stmt (batch_sql specs) (batch_args specs) e t
  = if max_params <? Z.of_nat (length specs) * 5
    then (inl (EOpaque "extended protocol limited to 65535 parameters"), t)
    else if forallb pg_text (batch_args specs)
    then let '(n, t') := insert_all (now e) specs t in (inr n, t')
    else (inl text_refused, t).
Proof.
  intros Hne. unfold insert_text_stmt. rewrite batch_args_length.
  replace (Z.of_nat (5 * length specs)) with (Z.of_nat (length specs) * 5) by lia.
  by rewrite read_batch_text.
Qed.

Lemma batch_run specs s : ∃ o s',
  EnqueueBatch specs s = (Ret o, s') ∧ env s' = env s ∧ tx s' = tx s ∧
  ((∃ n, insert_all (now (env s)) specs (tabs s) = (n, tabs s') ∧
         Z.of_nat (length specs) * 5 <= max_params ∧ (o = inr n ∨ ∃ e, o = inl e))
   ∨ (tabs s' = tabs s ∧ ∃ e, o = inl e)).
Proof.
  unfold EnqueueBatch. destruct specs as [|j specs].
  { eexists _, _. split; [done|]. split_and!; try done. left. exists 0. split_and!; [done| |by left]. done. }
  destruct (exec_run (insert_text_stmt (batch_sql (j :: specs)) (batch_args (j :: specs))) s)
    as (o & s1 & E & He & Hx & _ & Hc).
  run_bind E. eexists _, _. split; [done|]. split; [done|]. split; [done|].
  rewrite insert_text_batch in Hc by done.
  destruct (max_params <? _) eqn:Hlim; to_prop.
  - right. destruct Hc as [(a & [=] & _)|[(_ & Ht & e & ->)|(e & t' & [= <- <-] & -> & Ht)]]; eauto.
    rewrite rolled_back_refl in Ht. eauto.
  - destruct (forallb pg_text _).
    2: { right. destruct Hc as [(a & [=] & _)|[(_ & Ht & e & ->)|(e & t' & [= <- <-] & -> & Ht)]]; eauto.
         rewrite rolled_back_refl in Ht. eauto. }
    destruct (insert_all (now (env s)) (j :: specs) (tabs s)) as [n t'] eqn:Ei.
    destruct Hc as [(a & [= <- Ht] & Hr)|[(_ & Ht & e & ->)|(? & ? & [=] & _)]]; [|by eauto].
    left. exists n. split_and!; [by subst t'|done|].
    destruct Hr as [->|(_ & e & ->)]; eauto.
Qed.

Lemma fetch_run st db : ∃ r db',
  Fetch q st db = (Ret r, db') ∧ src_tables db' = src_tables db ∧ src_now db' = src_now db ∧
  (r = run_query q st db ∨ ∃ e, r = inl e).
Proof.
  unfold Fetch. case_match; [by eauto 10|].
  destruct (src_script db) as [|[[e|e]|] l]; eexists _, _; (split; [done|]); eauto.
Qed.

(** Every run of a poll. *)
Lemma runOnceImpl_run (w : sworld K) : ∃ n err w',
  runOnceImpl cfg w = (Ret (n, err), w') ∧ env (ctl w') = env (ctl w) ∧ tx (ctl w') = tx (ctl w) ∧
  src_tables (source w') = src_tables (source w) ∧ src_now (source w') = src_now (source w) ∧
  hooks w' = hooks w ∧
  poll_effect (now (env (ctl w))) (source w) (tabs (ctl w)) (tabs (ctl w')) n err.
Proof.
  unfold runOnceImpl.
  destruct (load_run (ctl w)) as (l & s1 & E1 & He1 & Hx1 & Ht1 & Hl).
  rewrite (bind_run _ _ _ _ _ (zoom_run (W := sworld K) _ w _ _ E1)). simpl.
  destruct Hl as [->|[e ->]];
    [|eexists _, _, _; split; [done|]; simpl; split_and!; try done; rewrite Ht1;
      apply poll_failed, undone_refl].
  destruct (fetch_run (watermark sid (tabs (ctl w))) (source w)) as (f & db & E2 & Hd1 & Hd2 & Hf).
  rewrite (bind_run _ _ _ _ _ (zoom_run (S := srcdb) _ (Build_sworld K s1 (source w) (hooks w)) _ _ E2)).
  simpl. destruct f as [e|xs].
  { eexists _, _, _; split; [done|]; simpl; split_and!; try done; rewrite Ht1;
      apply poll_failed, undone_refl. }
  destruct Hf as [Hf|[? ?]]; [|done]. symmetry in Hf.
  destruct (last xs) as [lst|] eqn:Hlast.
  2: { apply last_None in Hlast as ->. eexists _, _, _; split; [done|]; simpl; split_and!; try done.
       rewrite Ht1. by apply poll_idle. }
  destruct (batch_run (omap (render_row cfg) xs) s1) as (b & s2 & E3 & He3 & Hx3 & Hb).
  rewrite (bind_run _ _ _ _ _ (zoom_run (S := pg) _ (Build_sworld K s1 db (hooks w)) _ _ E3)). simpl.
  rewrite He1, Ht1 in Hb.
  destruct b as [e|n0].
  { eexists _, _, _; split; [done|]; simpl; split_and!; try done; [congruence..|].
    destruct Hb as [(n & Hi & Hfit & _)|[-> _]]; [|apply poll_failed, undone_refl].
    eapply poll_enqueued; eauto. }
  destruct Hb as [(n & Hi & Hfit & [[= <-]|[? ?]])|[_ [? ?]]]; [|done..].
  destruct (upsert_run lst s2) as (u & s3 & E4 & He4 & Hx4 & Hu).
  rewrite (bind_run _ _ _ _ _ (zoom_run (S := pg) _ (Build_sworld K s2 db (hooks w)) _ _ E4)). simpl.
  rewrite He3, He1 in Hu.
  assert (∃ e2, (match u with Some err => mret (n0, Some (wrapf "upsert state: " err)) | None => mret (n0, None) end : M (sworld K) _)
     (Build_sworld K s3 db (hooks w)) = (Ret (n0, e2), Build_sworld K s3 db (hooks w)) ∧
     (∀ e, u = Some e → is_Some e2)) as (e2 & -> & He2).
  { destruct u; eexists; (split; [done|]); naive_solver. }
  eexists _, _, _; split; [done|]; simpl; split_and!; try done; [congruence..|].
  destruct Hu as [->|[-> [e ->]]]; [by eapply poll_moved|].
  destruct (He2 e eq_refl) as [e3 ->]. eapply poll_enqueued; eauto.
Qed.

(** ** Rows behind the watermark *)

(** The source table: distinct keys that a watermark can carry. *)
Record source_wf (tbl : source_table) : Prop := {
  sw_pk : NoDup (sr_pk <$> rows tbl);
  sw_key : ∀ r, r ∈ rows tbl → key_ok (pk_type tbl) (sr_pk r) = true;
}.

(** The row is behind the watermark: no later poll selects it. *)
Definition covered (ty : key_type) (st : State) (r : source_row) : Prop :=
  ∃ c ts, cursor ty st = Some c ∧ sr_ts r = Some ts ∧ past ty c ts (sr_pk r) = false.

(** The job of the row is in the queue, or the row cannot be rendered. *)
Definition queued (tbl : source_table) (t : tables) (r : source_row) : Prop :=
  ∀ j, render_row cfg (image q tbl r) = Some j → has_key t (spec_key j).

Lemma watermark_moved ts lst t : PK lst ≠ EmptyString →
  watermark sid (moved ts lst t) = {| SourceID := sid; LastRunTS := TS lst; LastRunPK := PK lst |}.
Proof.
  intros Hpk. unfold watermark, moved, state_row. simpl. rewrite lookup_insert_eq. simpl.
  by rewrite bool_decide_false.
Qed.

Lemma watermark_undone t t' : undone t t' → watermark sid t' = watermark sid t.
Proof. by intros [-> _]. Qed.

(** The cursor of a watermark that was moved to a row. *)
Lemma cursor_moved ts tbl t r :
  key_ok (pk_type tbl) (sr_pk r) = true →
  cursor (pk_type tbl) (watermark sid (moved ts (image q tbl r) t)) = Some (default 0 (sr_ts r), Some (sr_pk r)).
Proof.
  intros Hk. pose proof (key_text_nonempty _ _ Hk) as Hn.
  rewrite watermark_moved by done. unfold cursor. simpl. rewrite bool_decide_false by done.
  by rewrite (key_in_text _ _ Hk).
Qed.

(** The last row of a page, when there is one. *)
Lemma page_last tbl c n lst :
  last (image q tbl <$> window q tbl c n) = Some lst →
  ∃ y, last (window q tbl c n) = Some y ∧ lst = image q tbl y ∧
       y ∈ window q tbl c n.
Proof.
  rewrite fmap_last. intros (y & Hy & ->)%fmap_Some. exists y. split_and!; try done.
  by apply last_Some_elem_of.
Qed.

(** The queue evolves, whatever the source holds. *)
Lemma poll_evolves ts db t t' n err : poll_effect ts db t t' n err → evolves t t'.
Proof.
  intros Heff Hwf.
  destruct Heff as [t' err [-> Hle]|Hq|xs lst n t1 m err _ _ _ Hi _|xs lst n t1 o _ _ _ Hi].
  - apply evolves_rolled_back; [apply _|done..].
  - by apply (reflexivity (R := evolves)).
  - by apply (insert_all_run _ _ _ _ _ Hwf Hi).
  - destruct (insert_all_run _ _ _ _ _ Hwf Hi) as (Hev & _).
    by apply (transitivity Hev (evolves_watermark (rtc astep) t1 _)).
Qed.

Section Effect.
Context (ts : Z) (db : srcdb) (t : tables) (tbl : source_table).
Context (Hwf : wf t) (Hsrc : source_wf tbl) (Htbl : src_tables db !! q_Table q = Some tbl).

(** The jobs of the page are in the queue. *)
Lemma page_queued xs c n t1 r :
  xs = image q tbl <$> window q tbl c (src_now db) →
  insert_all ts (omap (render_row cfg) xs) t = (n, t1) →
  r ∈ window q tbl c (src_now db) → queued tbl t1 r.
Proof.
  intros -> Hi Hr j Hj.
  destruct (insert_all_run _ _ _ _ _ Hwf Hi) as (_ & _ & Hk & _ & _).
  apply Hk. apply list_elem_of_omap. exists (image q tbl r). split; [|done].
  by apply list_elem_of_fmap_2.
Qed.

(** Whatever happened: rows that fell behind the watermark have their jobs, rows
    that were behind stay behind, and the queue evolved. *)
Lemma poll_covers t' n err :
  poll_effect ts db t t' n err →
  evolves t t' ∧ (∀ k, has_key t k → has_key t' k) ∧
  (∀ r, r ∈ rows tbl → covered (pk_type tbl) (watermark sid t') r →
     covered (pk_type tbl) (watermark sid t) r ∨ queued tbl t' r) ∧
  (∀ r, covered (pk_type tbl) (watermark sid t) r → covered (pk_type tbl) (watermark sid t') r).
Proof.
  intros Heff. split; [by eapply poll_evolves|].
  destruct Heff as [t' err Hu|Hq|xs lst n t1 m err Hq Hl _ Hi _|xs lst n t1 o Hq Hl _ Hi].
  - rewrite (watermark_undone _ _ Hu).
    split_and!; [unfold has_key; by rewrite (proj1 (undone_jobs _ _ Hu))|by auto..].
  - auto.
  - destruct (insert_all_run _ _ _ _ _ Hwf Hi) as (_ & Hs & _ & Hm & _).
    assert (watermark sid t1 = watermark sid t) as -> by (unfold watermark; by rewrite Hs).
    auto.
  - destruct (insert_all_run _ _ _ _ _ Hwf Hi) as (_ & Hs & _ & Hm & _).
    destruct (run_query_inr _ _ _ _ Hq) as (tbl' & c & Ht & Hok & Hc & Hxs).
    assert (tbl' = tbl) as -> by congruence. subst xs.
    destruct (page_last _ _ _ _ Hl) as (y & Hy & -> & Hin).
    destruct (elem_of_window _ _ _ _ _ Hin) as [Hyl Hsel].
    pose proof (cursor_moved ts tbl t1 y (sw_key _ Hsrc _ Hyl)) as Hcur.
    unfold selected in Hsel. destruct (sr_ts y) as [ty|] eqn:Ey; [|done]. simpl in Hcur.
    apply andb_true_iff in Hsel as [Hpy Hby%Z.leb_le].
    split_and!; [by auto|..].
    + intros r Hr (c' & ts' & Hc' & Hts & Hp). rewrite Hcur in Hc'. simplify_eq.
      destruct (past (pk_type tbl) c ts' (sr_pk r)) eqn:Hpast; [right|left; by exists c, ts'].
      assert (row_le (pk_type tbl) r y) as Hle
        by (apply dec_stable; intros Hn; by rewrite (proj2 (past_row _ _ _ _ _ Ey Hts) Hn) in Hp).
      eapply (page_queued _ c n t1 r eq_refl Hi).
      apply (window_closed _ _ _ _ r y); try done; [apply Hsrc|].
      unfold selected. rewrite Hts, Hpast. apply Z.leb_le.
      unfold row_le in Hle. rewrite Hts, Ey in Hle. simpl in Hle. lia.
    + intros r (c' & ts' & Hc' & Hts & Hp). rewrite Hc in Hc'. injection Hc' as <-.
      eexists _, ts'. split; [exact Hcur|]. split; [done|].
      apply not_true_iff_false. rewrite (past_row _ _ _ _ _ Ey Hts). intros Hn.
      destruct (row_le_total (pk_type tbl) r y) as [?|Hle]; [done|].
      by rewrite (past_mono _ _ _ _ _ _ Ey Hts Hpy Hle) in Hp.
Qed.

End Effect.

End Poll.
