(* ===== verification/SnifferRuns.v ===== *)
(** * Runs of the sniffer

    Claims about single polls, about batches, and about whole runs in which polls,
    the rest of the system and the source's writers interleave. *)

From Stdlib Require Import Ascii.
From S2P Require Import Prelude GoLang ErrDetail GoText Store Worker Invariant Spec Jobs.
From S2P Require Import BatchSql SourceKeys SnifferQuery Sniffer SnifferProps.

Local Open Scope Z_scope.

(** ** One poll *)

Section Runs.
Context `{ScanOrder} `{TemplateEngine} {K : Type} (cfg : Config K).

Local Notation q := (c_Query cfg).
Local Notation sid := (c_SourceID cfg).

(** [RunOnce] is [runOnceImpl] and one callback, which reaches neither database. *)
Lemma RunOnce_run (w : sworld K) : ∃ n err r w',
  RunOnce cfg w = (r, w') ∧ (∀ v, r = Ret v → v = (n, err)) ∧
  env (ctl w') = env (ctl w) ∧ tx (ctl w') = tx (ctl w) ∧
  src_tables (source w') = src_tables (source w) ∧ src_now (source w') = src_now (source w) ∧
  poll_effect cfg (now (env (ctl w))) (source w) (tabs (ctl w)) (tabs (ctl w')) n err.
Proof.
  destruct (runOnceImpl_run cfg w) as (n & err & w1 & E & He & Hx & Ht & Hn & Hh & Heff).
  exists n, err. unfold RunOnce. run_bind E.
  destruct err as [err|]; [destruct (c_OnError cfg) as [f|]|destruct (c_OnEnqueue cfg) as [f|]];
    unfold mbind, M_bind, zoom, mret, M_ret; simpl;
    try destruct (f _ _) as [[?|?] ?]; try destruct (f _ _ _) as [[?|?] ?];
    eexists _, _; (split; [done|]); simpl; naive_solver.
Qed.

(** ** Runs *)

(** The sniffer's world, and every state the control tables have been in. *)
Record srun := { world : sworld K; trail : list tables }.

(** The rows of the polled table may change between polls as long as a row that is
    new, or has a new timestamp, is younger than the bias: it was stamped less than
    the bias before it became visible. *)
Definition source_moves (bound : Z) (old new : list source_row) : Prop :=
  ∀ r, r ∈ new → r ∈ old ∨ ∀ ts, sr_ts r = Some ts → bound < ts.

Inductive run_step : srun → srun → Prop :=
(** A poll, with whatever failures. *)
| rs_poll w tr r w' :
    RunOnce cfg w = (r, w') →
    run_step {| world := w; trail := tr |} {| world := w'; trail := tabs (ctl w) :: tr |}
(** The rest of the system works on the queue; time passes, the network changes. *)
| rs_queue w tr e t' fs ss h :
    history (tabs (ctl w)) t' → sniffer_state t' !! sid = sniffer_state (tabs (ctl w)) !! sid →
    run_step {| world := w; trail := tr |}
      {| world := {| ctl := {| env := e; tabs := t'; tx := tx (ctl w); script := fs |};
                     source := {| src_tables := src_tables (source w); src_now := src_now (source w);
                                  src_script := ss |};
                     hooks := h |};
         trail := tabs (ctl w) :: tr |}
(** Writers commit to the source; its clock advances. *)
| rs_source w tr tbl tbl' n' :
    src_tables (source w) !! q_Table q = Some tbl → source_wf tbl' →
    pk_column tbl' = pk_column tbl → pk_type tbl' = pk_type tbl →
    ts_column tbl' = ts_column tbl → columns tbl' = columns tbl →
    source_moves (bias_bound q (src_now (source w))) (rows tbl) (rows tbl') →
    src_now (source w) <= n' →
    run_step {| world := w; trail := tr |}
      {| world := {| ctl := ctl w;
                     source := {| src_tables := <[q_Table q := tbl']> (src_tables (source w));
                                  src_now := n'; src_script := src_script (source w) |};
                     hooks := hooks w |};
         trail := tr |}.

(** The job of the row is or once was in the queue. *)
Definition ever_queued (s : srun) (tbl : source_table) (r : source_row) : Prop :=
  ∃ t, t ∈ tabs (ctl (world s)) :: trail s ∧ queued cfg tbl t r.

(** A first run: no watermark yet, and every row is younger than the zero time. *)
Definition fresh (s : srun) : Prop :=
  wf (tabs (ctl (world s))) ∧ sniffer_state (tabs (ctl (world s))) !! sid = None ∧
  zero_time <= bias_bound q (src_now (source (world s))) ∧
  ∃ tbl, src_tables (source (world s)) !! q_Table q = Some tbl ∧ source_wf tbl ∧
    ∀ r ts, r ∈ rows tbl → sr_ts r = Some ts → zero_time < ts.

Record run_inv (s : srun) (tbl : source_table) : Prop := {
  ri_wf : wf (tabs (ctl (world s)));
  ri_tbl : src_tables (source (world s)) !! q_Table q = Some tbl;
  ri_src : source_wf tbl;
  ri_bound : ∀ c, cursor (pk_type tbl) (watermark sid (tabs (ctl (world s)))) = Some c →
    c.1 <= bias_bound q (src_now (source (world s)));
  ri_covered : ∀ r, r ∈ rows tbl → covered (pk_type tbl) (watermark sid (tabs (ctl (world s)))) r →
    ever_queued s tbl r;
}.

Lemma image_columns tbl tbl' r :
  pk_column tbl' = pk_column tbl → ts_column tbl' = ts_column tbl → image q tbl' r = image q tbl r.
Proof.
  intros Hp Ht. unfold image, row_fields, cell_of. by rewrite Hp, Ht.
Qed.

Lemma fresh_inv s : fresh s → ∃ tbl, run_inv s tbl.
Proof.
  intros (Hwf & Hnone & Hz & tbl & Ht & Hsrc & Hrows). exists tbl.
  assert (watermark sid (tabs (ctl (world s)))
    = {| SourceID := sid; LastRunTS := zero_time; LastRunPK := EmptyString |}) as Ew
    by (unfold watermark; by rewrite Hnone).
  split; try done; rewrite Ew.
  - by intros c [= <-].
  - intros r Hr (c & ts & [= <-] & Hts & Hp). simpl in Hp. specialize (Hrows r ts Hr Hts).
    apply Z.ltb_ge in Hp. lia.
Qed.

(** The watermark never passes the bias bound. *)
Lemma poll_bound ts db t t' n err tbl :
  wf t → source_wf tbl → src_tables db !! q_Table q = Some tbl →
  poll_effect cfg ts db t t' n err →
  (∀ c, cursor (pk_type tbl) (watermark sid t) = Some c → c.1 <= bias_bound q (src_now db)) →
  ∀ c, cursor (pk_type tbl) (watermark sid t') = Some c → c.1 <= bias_bound q (src_now db).
Proof.
  intros Hwf Hsrc Ht Heff Hb.
  destruct Heff as [t' err Hu|Hq|xs lst n t1 m err Hq Hl _ Hi _|xs lst n t1 o Hq Hl _ Hi].
  - by rewrite (watermark_undone cfg _ _ Hu).
  - done.
  - destruct (insert_all_run _ _ _ _ _ Hwf Hi) as (_ & Hs & _).
    assert (watermark sid t1 = watermark sid t) as -> by (unfold watermark; by rewrite Hs). done.
  - destruct (run_query_inr _ _ _ _ Hq) as (tbl' & c & Ht' & Hok & Hc & ->).
    destruct (page_last cfg _ _ _ _ Hl) as (y & Hy & -> & Hin).
    destruct (elem_of_window _ _ _ _ _ Hin) as [Hyl Hsel].
    assert (tbl' = tbl) as -> by congruence.
    rewrite (cursor_moved cfg _ tbl _ y) by (by apply Hsrc). intros c' [= <-]. simpl.
    unfold selected in Hsel. destruct (sr_ts y); [|done]. to_prop. done.
Qed.

Lemma run_step_inv s s' tbl : run_inv s tbl → run_step s s' → ∃ tbl', run_inv s' tbl'.
Proof.
  intros [Hwf Ht Hsrc Hb Hc] Hst.
  destruct Hst as [w tr r w' E|w tr e t' fs ss h Hh Hs|w tr tbl1 tbl' n' Ht1 Hsrc' Hpk Hty Hts Hcol Hmv Hn]; simpl in *.
  - exists tbl. destruct (RunOnce_run w) as (n & err & r1 & w1 & E1 & _ & _ & _ & Hst1 & Hnow & Heff).
    rewrite E in E1. simplify_eq.
    destruct (poll_covers cfg _ _ _ tbl Hwf Hsrc Ht _ _ _ Heff) as (Hev & _ & Hcov & _).
    split; simpl; [by apply Hev|by rewrite Hst1|done| |].
    + rewrite Hnow. by eapply poll_bound.
    + intros r2 Hr2 Hcv. destruct (Hcov r2 Hr2 Hcv) as [Hold|Hq].
      * destruct (Hc r2 Hr2 Hold) as (t0 & Hin & Hq0). exists t0. split; [by right|done].
      * exists (tabs (ctl w1)). split; [by left|done].
  - exists tbl.
    assert (watermark sid t' = watermark sid (tabs (ctl w))) as Ew by (unfold watermark; by rewrite Hs).
    split; simpl; try done; [apply Hh|by rewrite Ew|].
    rewrite Ew. intros r Hr Hcv. destruct (Hc r Hr Hcv) as (t0 & Hin & Hq0).
    exists t0. split; [by right|done].
  - exists tbl'. rewrite Ht in Ht1. injection Ht1 as <-.
    assert (bias_bound q (src_now (source w)) <= bias_bound q n') by (unfold bias_bound; lia).
    split; simpl; try done; [by rewrite lookup_insert_eq|rewrite Hty; intros c Hcu; specialize (Hb c Hcu); lia|].
    rewrite Hty.
    intros r Hr Hcv. destruct (Hmv r Hr) as [Hold|Hnew].
    + destruct (Hc r Hold Hcv) as (t0 & Hin & Hq0). exists t0. split; [done|].
      intros j. rewrite (image_columns tbl tbl' r Hpk Hts). apply Hq0.
    + destruct Hcv as (c & ts & Hcu & Hrt & Hp). specialize (Hb c Hcu). specialize (Hnew ts Hrt).
      unfold past in Hp. destruct c as [t0 [k|]]; simpl in *; to_prop; lia.
Qed.

Lemma runs_inv s s' tbl : run_inv s tbl → rtc run_step s s' → ∃ tbl', run_inv s' tbl'.
Proof.
  intros Hi Hst. revert tbl Hi. induction Hst as [|s s1 s' H1 _ IH]; intros tbl Hi; [by exists tbl|].
  destruct (run_step_inv _ _ _ Hi H1) as [tbl1 Hi1]. eauto.
Qed.

(** ** Polls without failures *)

(** The rows a poll could select. *)
Definition pending (t : tables) (now : Z) (tbl : source_table) : list source_row :=
  match cursor (pk_type tbl) (watermark sid t) with
  | Some c => filter (λ r, selected (pk_type tbl) c (bias_bound q now) r = true) (rows tbl)
  | None => []
  end.

(** The callbacks return. *)
Definition quiet : Prop :=
  ∀ f, c_OnEnqueue cfg = Some f → ∀ n k, ∃ k', f sid n k = (Ret tt, k').

Record healthy (w : sworld K) (tbl : source_table) : Prop := {
  he_wf : wf (tabs (ctl w));
  he_script : script (ctl w) = [];
  he_src_script : src_script (source w) = [];
  he_tbl : src_tables (source w) !! q_Table q = Some tbl;
  he_src : source_wf tbl;
  he_query : query_ok q tbl = true;
  he_texts : ∀ r j, r ∈ rows tbl → render_row cfg (image q tbl r) = Some j → forallb pg_text (spec_args j) = true;
  he_cursor : is_Some (cursor (pk_type tbl) (watermark sid (tabs (ctl w))));
}.

Lemma fits_small xs : (length xs <= Z.to_nat (q_BatchSize q))%nat → q_BatchSize q <= 13107 → fits cfg xs.
Proof.
  intros Hl Hb. unfold fits, max_params.
  assert (length (omap (render_row cfg) xs) <= length xs)%nat; [|lia].
  clear. induction xs as [|x xs IH]; csimpl; [done|]. destruct (render_row cfg x); csimpl; lia.
Qed.

Lemma page_length tbl c n : (length (window q tbl c n) <= Z.to_nat (q_BatchSize q))%nat.
Proof. unfold window. rewrite length_take. lia. Qed.

Lemma batch_texts specs :
  (∀ j, j ∈ specs → forallb pg_text (spec_args j) = true) → forallb pg_text (batch_args specs) = true.
Proof.
  induction specs as [|j specs IH]; intros Hok; [done|].
  change (batch_args (j :: specs)) with (spec_args j ++ batch_args specs).
  rewrite forallb_app, Hok, IH by set_solver. done.
Qed.

(** The texts of the page of a source whose rendered texts a TEXT column takes. *)
Lemma page_texts w tbl c n :
  healthy w tbl →
  forallb pg_text (batch_args (omap (render_row cfg) (image q tbl <$> window q tbl c n))) = true.
Proof.
  intros Hh. apply batch_texts. intros j (x & (r & -> & Hr)%list_elem_of_fmap & Hj)%list_elem_of_omap.
  apply (he_texts _ _ Hh r); [|done]. by apply elem_of_window in Hr as [? _].
Qed.

(** The statements of a poll, when nothing fails. *)
Lemma batch_ok specs s : script s = [] → Z.of_nat (length specs) * 5 <= max_params →
  forallb pg_text (batch_args specs) = true →
  EnqueueBatch specs s = (Ret (inr (insert_all (now (env s)) specs (tabs s)).1),
                          with_tabs (insert_all (now (env s)) specs (tabs s)).2 s).
Proof.
  intros Hs Hf Hok. unfold EnqueueBatch. destruct specs as [|j l]; [by destruct s|].
  assert (insert_text_stmt (batch_sql (j :: l)) (batch_args (j :: l)) (env s) (tabs s)
    = (inr (insert_all (now (env s)) (j :: l) (tabs s)).1,
       (insert_all (now (env s)) (j :: l) (tabs s)).2)) as Eq.
  { rewrite insert_text_batch by done. rewrite (proj2 (Z.ltb_ge _ _) Hf), Hok. by destruct (insert_all _ _ _). }
  by rewrite (bind_run _ _ _ _ _ (exec_ok _ _ _ _ Hs Eq)).
Qed.

Definition end_of (w : sworld K) (tbl : source_table) (w' : sworld K) (n : Z) : Prop :=
  ∃ c, cursor (pk_type tbl) (watermark sid (tabs (ctl w))) = Some c ∧
  let xs := image q tbl <$> window q tbl c (src_now (source w)) in
  match last xs with
  | None => n = 0 ∧ ctl w' = ctl w
  | Some lst =>
      n = (insert_all (now (env (ctl w))) (omap (render_row cfg) xs) (tabs (ctl w))).1 ∧
      ctl w' = with_tabs (moved cfg (now (env (ctl w))) lst
        (insert_all (now (env (ctl w))) (omap (render_row cfg) xs) (tabs (ctl w))).2) (ctl w)
  end.

Lemma runOnceImpl_ok w tbl :
  healthy w tbl → 0 < q_BatchSize q <= 13107 → ∃ n w',
    runOnceImpl cfg w = (Ret (n, None), w') ∧ source w' = source w ∧ end_of w tbl w' n.
Proof.
  intros Hh [Hb0 Hb1]. pose proof Hh as [Hwf Hs Hss Ht Hsrc Hq _ [c Hc]].
  destruct w as [cw sw hw]. simpl in *. unfold runOnceImpl, end_of. simpl.
  assert (Load sid cw = (Ret (inr (watermark sid (tabs cw))), cw)) as E1.
  { unfold Load. erewrite bind_run; [|by apply exec_ok]. simpl. by destruct cw. }
  rewrite (bind_run _ _ _ _ _ (zoom_run (W := sworld K) _ (Build_sworld K cw sw hw) _ _ E1)). simpl.
  set (xs := image q tbl <$> window q tbl c (src_now sw)).
  assert (Fetch q (watermark sid (tabs cw)) sw = (Ret (inr xs), sw)) as E2.
  { unfold Fetch. rewrite (proj2 (Z.leb_gt _ _) Hb0), Hss.
    rewrite (run_query_ok _ _ _ tbl c) by done. simpl. destruct sw; simpl in *. by subst. }
  rewrite (bind_run _ _ _ _ _ (zoom_run (S := srcdb) _ (Build_sworld K cw sw hw) _ _ E2)). simpl.
  destruct (last xs) as [lst|] eqn:Hl.
  2: { eexists _, _. split; [done|]. split; [done|]. exists c. split; [done|]. fold xs. by rewrite Hl. }
  assert (fits cfg xs) as Hfit
    by (apply fits_small; [unfold xs; rewrite length_fmap; apply page_length|done]).
  pose proof (batch_ok (omap (render_row cfg) xs) cw Hs Hfit (page_texts _ _ c _ Hh)) as E3.
  rewrite (bind_run _ _ _ _ _ (zoom_run (S := pg) _ (Build_sworld K cw sw hw) _ _ E3)). simpl.
  set (b := insert_all (now (env cw)) (omap (render_row cfg) xs) (tabs cw)) in *.
  assert (Upsert {| SourceID := sid; LastRunTS := TS lst; LastRunPK := PK lst |} (with_tabs b.2 cw)
    = (Ret None, with_tabs (moved cfg (now (env cw)) lst b.2) cw)) as E4.
  { unfold Upsert. erewrite bind_run; [|by apply exec_ok]. done. }
  rewrite (bind_run _ _ _ _ _ (zoom_run (S := pg) _ (Build_sworld K (with_tabs b.2 cw) sw hw) _ _ E4)).
  eexists _, _. split; [done|]. split; [done|]. exists c. split; [done|]. fold xs. by rewrite Hl.
Qed.

Lemma RunOnce_ok w tbl :
  healthy w tbl → quiet → 0 < q_BatchSize q <= 13107 → ∃ n w',
    RunOnce cfg w = (Ret (n, None), w') ∧ source w' = source w ∧ end_of w tbl w' n.
Proof.
  intros Hh Hqu Hb. destruct (runOnceImpl_ok w tbl Hh Hb) as (n & w1 & E & Hsrc & Hend).
  unfold RunOnce. run_bind E. destruct (c_OnEnqueue cfg) as [f|] eqn:Hf.
  - destruct (Hqu f Hf n (hooks w1)) as [k' Ek].
    rewrite (bind_run _ _ _ _ _ (zoom_run (S := K) _ w1 _ _ Ek)). simpl.
    eexists _, _. split; [done|]. done.
  - eexists _, _. split; [done|]. done.
Qed.

(** Moving the cursor to the last row of a page leaves what was after the page. *)
Lemma pending_moved tbl c now y t ts b :
  source_wf tbl → y ∈ rows tbl → last (window q tbl c now) = Some y →
  selected (pk_type tbl) c b y = true → b = bias_bound q now →
  (length (pending (moved cfg ts (image q tbl y) t) now tbl)
   <= length (filter (λ r, selected (pk_type tbl) c b r = true) (rows tbl)) - Z.to_nat (q_BatchSize q))%nat ∧
  (∀ r, r ∈ rows tbl → selected (pk_type tbl) c b r = true →
     r ∈ window q tbl c now ∨ r ∈ pending (moved cfg ts (image q tbl y) t) now tbl).
Proof.
  intros Hsrc Hy Hl Hsel ->. unfold pending.
  rewrite (cursor_moved cfg ts tbl t y) by (by apply Hsrc).
  set (sorted := merge_sort (row_le (pk_type tbl)) (filter (λ r, selected (pk_type tbl) c (bias_bound q now) r = true) (rows tbl))).
  pose proof Hsel as Hsy. unfold selected in Hsy. destruct (sr_ts y) as [ty|] eqn:Ey; [|done]. simpl.
  apply andb_true_iff in Hsy as [Hpy _].
  assert (∀ r, selected (pk_type tbl) (ty, Some (sr_pk y)) (bias_bound q now) r = true →
    selected (pk_type tbl) c (bias_bound q now) r = true ∧ ¬ row_le (pk_type tbl) r y) as Hc'.
  { intros r. unfold selected. destruct (sr_ts r) as [tr|] eqn:Er; [|done].
    rewrite !andb_true_iff, (past_row _ _ _ _ _ Ey Er). intros [Hn Hb]. split_and!; [|done..].
    apply (past_mono _ _ y r ty tr Ey Er Hpy). by destruct (row_le_total (pk_type tbl) r y). }
  split.
  - match goal with |- (_ <= ?n - _)%nat => assert (n = length sorted) as -> end;
    [unfold sorted; by rewrite merge_sort_Permutation|].
    rewrite <- length_drop. apply submseteq_length, NoDup_submseteq.
    { apply NoDup_filter, (NoDup_fmap_1 sr_pk), Hsrc. }
    intros r [Hr Hin]%list_elem_of_filter. destruct (Hc' r Hr) as [Hs Hnle].
    assert (r ∈ sorted) as Hso
      by (unfold sorted; rewrite merge_sort_Permutation; by apply list_elem_of_filter).
    rewrite <- (take_drop (Z.to_nat (q_BatchSize q)) sorted) in Hso.
    apply elem_of_app in Hso as [Hso|Hso]; [|done].
    destruct (window_last _ _ _ _ _ _ Hl Hso) as [?| ->]; [done|].
    destruct Hnle. apply row_le_refl.
  - intros r Hr Hs. destruct (decide (row_le (pk_type tbl) r y)) as [Hle|Hnle].
    + left. apply (window_closed _ _ _ _ r y); try done; [apply Hsrc|]. by apply last_Some_elem_of.
    + right. apply list_elem_of_filter. split; [|done]. unfold selected in *.
      destruct (sr_ts r) as [tr|] eqn:Er; [|done]. apply andb_true_iff in Hs as [_ Hb].
      rewrite Hb, andb_true_r. by apply (past_row _ _ _ _ _ Ey Er).
Qed.

(** One poll of a healthy sniffer. *)
Lemma healthy_poll w tbl w' n :
  healthy w tbl → 0 < q_BatchSize q → source w' = source w → end_of w tbl w' n →
  healthy w' tbl ∧ (∀ k, has_key (tabs (ctl w)) k → has_key (tabs (ctl w')) k) ∧
  (length (pending (tabs (ctl w')) (src_now (source w')) tbl)
   <= length (pending (tabs (ctl w)) (src_now (source w)) tbl) - Z.to_nat (q_BatchSize q))%nat ∧
  (∀ r, r ∈ pending (tabs (ctl w)) (src_now (source w)) tbl →
     queued cfg tbl (tabs (ctl w')) r ∨
     r ∈ pending (tabs (ctl w')) (src_now (source w')) tbl).
Proof.
  intros Hh Hb Es (c & Hc & Hend). pose proof Hh as [Hwf Hs Hss Ht Hsrc Hq Htx _]. rewrite !Es.
  cbv zeta in Hend. rewrite fmap_last in Hend.
  destruct (last (window q tbl c (src_now (source w)))) as [y|] eqn:Hl; simpl in Hend.
  - destruct Hend as [_ Ew]. rewrite !Ew.
    set (specs := omap (render_row cfg) _) in *.
    destruct (insert_all (now (env (ctl w))) specs (tabs (ctl w))) as [n1 t1] eqn:Ei. simpl.
    destruct (insert_all_run _ _ _ _ _ Hwf Ei) as (Hev & _ & Hk & Hm & _).
    pose proof (last_Some_elem_of _ _ Hl) as Hin.
    destruct (elem_of_window _ _ _ _ _ Hin) as [Hy Hsel].
    destruct (pending_moved tbl c (src_now (source w)) y t1 (now (env (ctl w))) _ Hsrc Hy Hl Hsel eq_refl)
      as [Hlen Hsplit].
    split_and!; [|exact Hm|unfold pending at 2; by rewrite Hc|].
    + split; rewrite ?Es, ?Ew; try done; [by apply (evolves_watermark (rtc astep) t1), Hev|].
      simpl. rewrite (cursor_moved cfg) by (by apply Hsrc). eauto.
    + unfold pending at 1. rewrite Hc. intros r [Hr1 Hr2]%list_elem_of_filter.
      destruct (Hsplit r Hr2 Hr1) as [Hw|Hp]; [left|by right].
      exact (page_queued cfg _ (source w) _ tbl Hwf _ c _ _ r eq_refl Ei Hw).
  - destruct Hend as [_ Ew]. rewrite !Ew.
    assert (pending (tabs (ctl w)) (src_now (source w)) tbl = []) as ->.
    { unfold pending. rewrite Hc. apply last_None in Hl. unfold window in Hl.
      apply Permutation_nil_r. rewrite <- (merge_sort_Permutation (row_le (pk_type tbl))).
      destruct (merge_sort _ _) as [|x l]; [done|].
      destruct (Z.to_nat (q_BatchSize q)) eqn:En; [lia|done]. }
    split_and!; [|done|simpl; lia|by intros ? ?%not_elem_of_nil].
    split; rewrite ?Es, ?Ew; try done; eauto.
Qed.

(** [k] calls of [RunOnce], one after the other. *)
Fixpoint polls (k : nat) : M (sworld K) (list (Z * option error)) :=
  match k with
  | O => mret []
  | S k' => p ← RunOnce cfg; ps ← polls k'; mret (p :: ps)
  end.

Lemma polls_run k w tbl :
  healthy w tbl → quiet → 0 < q_BatchSize q <= 13107 →
  ∃ l w', polls k w = (Ret l, w') ∧ Forall (λ p, snd p = None) l ∧ healthy w' tbl ∧
    (∀ k, has_key (tabs (ctl w)) k → has_key (tabs (ctl w')) k) ∧
    (length (pending (tabs (ctl w')) (src_now (source w')) tbl)
     <= length (pending (tabs (ctl w)) (src_now (source w)) tbl) - k * Z.to_nat (q_BatchSize q))%nat ∧
    (∀ r, r ∈ pending (tabs (ctl w)) (src_now (source w)) tbl →
       queued cfg tbl (tabs (ctl w')) r ∨
       r ∈ pending (tabs (ctl w')) (src_now (source w')) tbl).
Proof.
  intros Hh Hqu Hb. revert w Hh. induction k as [|k IH]; intros w Hh.
  { eexists _, _. split; [done|]. split_and!; auto. simpl. lia. }
  destruct (RunOnce_ok w tbl Hh Hqu Hb) as (n & w1 & E1 & Es1 & Hend).
  destruct (healthy_poll w tbl w1 n Hh (proj1 Hb) Es1 Hend) as (Hh1 & Hm1 & Hl1 & Hq1).
  destruct (IH w1 Hh1) as (l & w2 & E2 & Hf & Hh2 & Hm2 & Hl2 & Hq2).
  eexists _, w2. simpl. run_bind E1. run_bind E2. split; [done|].
  split_and!; [by constructor|done|by auto|simpl; lia|].
  intros r Hr. destruct (Hq1 r Hr) as [Hq|Hp]; [left|by apply Hq2].
  intros j Hj. by apply Hm2, Hq.
Qed.

(** ** Properties of the polls *)

(** C14: one poll, under any pattern of lost requests and replies to either database and
    any behaviour of the callbacks: its effect is nothing, or the jobs of the page it
    fetched, or these jobs and then the watermark at the last row of the page, in this
    order ([poll_effect], with count and error); rows of the source that fall behind
    the watermark have their job in the queue (or cannot be rendered), the watermark
    never moves back, and the queue changes only by legal steps. *)
Theorem RunOnce_spec w tbl :
  wf (tabs (ctl w)) → source_wf tbl → src_tables (source w) !! q_Table q = Some tbl →
  ∃ n err r w',
    RunOnce cfg w = (r, w') ∧ (∀ v, r = Ret v → v = (n, err)) ∧
    poll_effect cfg (now (env (ctl w))) (source w) (tabs (ctl w)) (tabs (ctl w')) n err ∧
    evolves (tabs (ctl w)) (tabs (ctl w')) ∧
    (∀ r, r ∈ rows tbl → covered (pk_type tbl) (watermark sid (tabs (ctl w'))) r →
       covered (pk_type tbl) (watermark sid (tabs (ctl w))) r ∨ queued cfg tbl (tabs (ctl w')) r) ∧
    (∀ r, covered (pk_type tbl) (watermark sid (tabs (ctl w))) r →
       covered (pk_type tbl) (watermark sid (tabs (ctl w'))) r).
Proof.
  intros Hwf Hsrc Ht. destruct (RunOnce_run w) as (n & err & r & w' & E & Hr & _ & _ & _ & _ & Heff).
  destruct (poll_covers cfg _ _ _ tbl Hwf Hsrc Ht _ _ _ Heff) as (Hev & _ & Hcov & Hmono).
  exists n, err, r, w'. auto 10.
Qed.

(** C13: no source row is lost while the writers keep the contract of the bias. In every
    run from a fresh source (no watermark yet), of polls with any failures, the rest of the
    system working on the queue and deleting settled jobs, and writers changing the source,
    a row that is behind the watermark has, or once had, its job in the queue, unless it
    cannot be rendered. What the run takes for granted: a row that becomes visible, or
    visible with a new timestamp, is stamped later than NOW() - bias ([source_moves]; a row
    committed later than that may be passed over), and nothing but this sniffer writes
    its watermark. The keys are those a watermark can carry ([source_wf]): any BIGINT, and
    any non-empty TEXT in any collation. *)
Theorem sniffer_never_loses_rows s s' :
  fresh s → rtc run_step s s' → ∃ tbl,
    src_tables (source (world s')) !! q_Table q = Some tbl ∧
    ∀ r, r ∈ rows tbl → covered (pk_type tbl) (watermark sid (tabs (ctl (world s')))) r → ever_queued s' tbl r.
Proof.
  intros Hf Hst. destruct (fresh_inv s Hf) as [tbl0 Hi].
  destruct (runs_inv _ _ _ Hi Hst) as [tbl [_ Ht _ _ Hc]]. eauto.
Qed.

(** Polls make progress: when nothing fails and the batch size is between 1 and
    13107, [k] polls succeed and leave the job of every row that was waiting in the
    queue, as soon as [k] pages hold them; then no row is waiting. *)
Theorem polls_drain k w tbl :
  healthy w tbl → quiet → 0 < q_BatchSize q <= 13107 →
  (length (pending (tabs (ctl w)) (src_now (source w)) tbl) <= k * Z.to_nat (q_BatchSize q))%nat →
  ∃ l w', polls k w = (Ret l, w') ∧ length l = k ∧ Forall (λ p, snd p = None) l ∧
    pending (tabs (ctl w')) (src_now (source w')) tbl = [] ∧
    ∀ r, r ∈ pending (tabs (ctl w)) (src_now (source w)) tbl → queued cfg tbl (tabs (ctl w')) r.
Proof.
  intros Hh Hqu Hb Hk. destruct (polls_run k w tbl Hh Hqu Hb) as (l & w' & E & Hf & _ & _ & Hl & Hq).
  assert (pending (tabs (ctl w')) (src_now (source w')) tbl = []) as Hnil
    by (apply length_zero_iff_nil; lia).
  exists l, w'. split_and!; try done.
  - clear -E. revert l w w' E. induction k as [|k IH]; intros l w w' E; [by injection E as <- <-|].
    simpl in E. run_cases. simpl. f_equal. by eapply IH.
  - intros r Hr. destruct (Hq r Hr) as [?|Hin]; [done|]. rewrite Hnil in Hin. by apply not_elem_of_nil in Hin.
Qed.

(** A page of more than 13107 renderable rows can never be enqueued: its INSERT has
    more than 65535 parameters, the poll fails, neither the queue nor the watermark
    changes, and so every later poll fails the same way. *)
Theorem oversized_page_stalls w tbl c :
  healthy w tbl → 0 < q_BatchSize q → cursor (pk_type tbl) (watermark sid (tabs (ctl w))) = Some c →
  max_params < 5 * Z.of_nat (length (omap (render_row cfg)
    (image q tbl <$> window q tbl c (src_now (source w))))) →
  ∃ err w', runOnceImpl cfg w = (Ret (0, Some err), w') ∧ tabs (ctl w') = tabs (ctl w) ∧ healthy w' tbl.
Proof.
  intros Hh Hb Hc Hbig. pose proof Hh as [_ Hs Hss Ht _ Hq _ _].
  destruct w as [cw sw hw]. simpl in *. unfold runOnceImpl.
  assert (Load sid cw = (Ret (inr (watermark sid (tabs cw))), cw)) as E1.
  { unfold Load. erewrite bind_run; [|by apply exec_ok]. simpl. by destruct cw. }
  rewrite (bind_run _ _ _ _ _ (zoom_run (W := sworld K) _ (Build_sworld K cw sw hw) _ _ E1)). simpl.
  set (xs := image q tbl <$> window q tbl c (src_now sw)) in *.
  assert (Fetch q (watermark sid (tabs cw)) sw = (Ret (inr xs), sw)) as E2.
  { unfold Fetch. rewrite (proj2 (Z.leb_gt _ _) Hb), Hss.
    rewrite (run_query_ok _ _ _ tbl c) by done. simpl. destruct sw; simpl in *. by subst. }
  rewrite (bind_run _ _ _ _ _ (zoom_run (S := srcdb) _ (Build_sworld K cw sw hw) _ _ E2)). simpl.
  destruct (last xs) as [lst|] eqn:Hl; [|apply last_None in Hl; rewrite Hl in Hbig; done].
  destruct (batch_run (omap (render_row cfg) xs) cw) as (o & s2 & E3 & He3 & Hx3 & Hcase).
  rewrite (bind_run _ _ _ _ _ (zoom_run (S := pg) _ (Build_sworld K cw sw hw) _ _ E3)). simpl.
  destruct Hcase as [(n & _ & Hle & _)|(Htab & e & ->)]; [lia|].
  eexists _, _. split; [done|]. split; [done|].
  assert (script s2 = []) as Hs2.
  { unfold EnqueueBatch in E3. destruct (omap (render_row cfg) xs) as [|j l]; [by simplify_eq|].
    destruct (exec_run (insert_text_stmt (batch_sql (j :: l)) (batch_args (j :: l))) cw)
      as (o' & s' & E' & _ & _ & Hs' & _).
    rewrite (bind_run _ _ _ _ _ E') in E3. injection E3 as _ <-. by rewrite Hs', Hs. }
  destruct Hh as [H1 H2 H3 H4 H5 H6 H7 H8]. simpl in *. split; simpl; try done; by rewrite Htab.
Qed.

End Runs.

(** ** Batches and names *)

Section BatchProps.
Context `{ScanOrder}.

(** [Enqueue] on each specification in turn; how many were inserted. *)
Fixpoint enqueue_each (specs : list JobSpec) : M pg (error + Z) :=
  match specs with
  | [] => mret (inr 0)
  | j :: specs' =>
      o ← sniffer_Enqueue j;
      match o with
      | inl err => mret (inl err)
      | inr b =>
          r ← enqueue_each specs';
          mret match r with inl err => inl err | inr n => inr (if b : bool then n + 1 else n) end
      end
  end.

Lemma enqueue_each_ok specs s : script s = [] → forallb pg_text (batch_args specs) = true →
  enqueue_each specs s = (Ret (inr (insert_all (now (env s)) specs (tabs s)).1),
                          with_tabs (insert_all (now (env s)) specs (tabs s)).2 s).
Proof.
  revert s. induction specs as [|j specs IH]; intros s Hs Hok; cbn [enqueue_each insert_all]; [by destruct s|].
  change (batch_args (j :: specs)) with (spec_args j ++ batch_args specs) in Hok.
  rewrite forallb_app in Hok. apply andb_true_iff in Hok as [Hj Hok].
  destruct (insert_spec (now (env s)) j (tabs s)) as [o t1] eqn:E1.
  assert (sniffer_Enqueue j s = (Ret (inr (match o with Some _ => true | None => false end)), with_tabs t1 s)) as E.
  { unfold sniffer_Enqueue.
    assert (enqueue_one_stmt j (env s) (tabs s)
      = (inr (match o with Some _ => true | None => false end), t1)) as Eq
      by (unfold enqueue_one_stmt; by rewrite Hj, E1).
    by rewrite (bind_run _ _ _ _ _ (exec_ok _ _ _ _ Hs Eq)). }
  run_bind E. pose proof (IH (with_tabs t1 s) Hs Hok) as E2. run_bind E2.
  destruct (insert_all (now (env s)) specs t1) as [n t2]. simpl. by destruct o.
Qed.

(** The batch insert is the row-by-row enqueue: on a page that fits in one statement and
    whose texts the columns take
    it leaves the same tables and reports the number of rows that the single calls
    would have inserted; under failures it is all or nothing, and every key of the
    batch is taken afterwards when it succeeds. *)
Theorem EnqueueBatch_is_Enqueue specs s :
  wf (tabs s) →
  (script s = [] → Z.of_nat (length specs) * 5 <= max_params → forallb pg_text (batch_args specs) = true →
     EnqueueBatch specs s = enqueue_each specs s) ∧
  ∃ o s', EnqueueBatch specs s = (Ret o, s') ∧ tx s' = tx s ∧ evolves (tabs s) (tabs s') ∧
    (tabs s' = tabs s ∨ tabs s' = (insert_all (now (env s)) specs (tabs s)).2) ∧
    ∀ n, o = inr n → (∀ j, j ∈ specs → has_key (tabs s') (spec_key j)) ∧
      Z.of_nat (size (jobs (tabs s'))) = Z.of_nat (size (jobs (tabs s))) + n.
Proof.
  intros Hwf. split.
  { intros Hs Hf Hok. by rewrite (batch_ok specs s Hs Hf Hok), enqueue_each_ok. }
  destruct (batch_run specs s) as (o & s' & E & He & Hx & Hc). exists o, s'.
  split; [done|]. split; [done|]. destruct Hc as [(n & Hi & _ & Ho)|[-> [e ->]]].
  - destruct (insert_all_run _ _ _ _ _ Hwf Hi) as (Hev & _ & Hk & _ & Hz).
    split_and!; [done|right; by rewrite Hi|]. intros m ->. by destruct Ho as [[= ->]|[? ?]].
  - split_and!; [reflexivity|by left|done].
Qed.

End BatchProps.

(** Trace ids identify source rows: for non-negative keys, two rows have the same
    trace id only when they are the same key of the same table, so deduplication on
    (trace_id, dst) never merges two different rows. *)
Theorem TraceID_unique tbl1 tbl2 pk1 pk2 :
  0 <= pk1 → 0 <= pk2 →
  TraceID tbl1 (itoa pk1) = TraceID tbl2 (itoa pk2) ↔ tbl1 = tbl2 ∧ pk1 = pk2.
Proof.
  intros H1 H2. split; [|by intros [-> ->]]. unfold TraceID. intros E.
  change ("-"%string +:+ itoa pk1) with (String "-" (itoa pk1)) in E.
  change ("-"%string +:+ itoa pk2) with (String "-" (itoa pk2)) in E.
  apply split_last in E as [-> Ei];
    [|by apply (all_chars_mono is_digit _ _ (λ a, digit_not "-"%char a eq_refl)), itoa_digits..].
  split; [done|]. by apply (inj pretty).
Qed.
