(* ===== verification/SnifferSamples.v ===== *)
(** * Sample sources for the sniffer

    A template engine for patterns made of text and field references, a source
    table, a configuration, and the claims of the sniffer at these inputs. *)

From Stdlib Require Import Ascii.
From S2P Require Import Prelude GoLang ErrDetail GoText Store Worker Invariant Spec Jobs.
From S2P Require Import BatchSql SourceKeys SnifferQuery FetchSql Sniffer SnifferProps SnifferRuns.

Local Open Scope Z_scope.

(** ** Patterns of field references *)

Inductive piece := Text (s : string) | Field (name : string).

(** ["{{.name}}"] is a reference, everything else is text. *)
Fixpoint pieces (in_action : bool) (acc s : string) : error + list piece :=
  let snoc a := acc +:+ String a EmptyString in
  match s with
  | EmptyString =>
      if in_action then inl (EOpaque "unclosed action") else inr [Text acc]
  | String a s' =>
      match in_action, s' with
      | false, String b s'' =>
          if bool_decide (a = "{"%char) && bool_decide (b = "{"%char) then
            match pieces true EmptyString s'' with
            | inl e => inl e
            | inr l => inr (Text acc :: l)
            end
          else pieces false (snoc a) s'
      | true, String b s'' =>
          if bool_decide (a = "}"%char) && bool_decide (b = "}"%char) then
            match GoLang.strip_prefix "." acc, pieces false EmptyString s'' with
            | Some f, inr l => inr (Field f :: l)
            | None, _ => inl (EOpaque "not a field reference")
            | _, inl e => inl e
            end
          else pieces true (snoc a) s'
      | _, _ => pieces in_action (snoc a) s'
      end
  end.

Fixpoint fill (l : list piece) (fields : gmap string string) : error + string :=
  match l with
  | [] => inr EmptyString
  | Text s :: l' =>
      match fill l' fields with inl e => inl e | inr out => inr (s +:+ out) end
  | Field f :: l' =>
      match fields !! f, fill l' fields with
      | None, _ => inl (EOpaque ("map has no entry for key " +:+ quote f))
      | _, inl e => inl e
      | Some v, inr out => inr (v +:+ out)
      end
  end.

#[export] Instance field_engine : TemplateEngine :=
  {| template := list piece; template_parse := pieces false EmptyString; template_execute := fill |}.

Example fill_sample :
  Render {| Pattern := "ftp://h/{{.day}}/{{.id}}.png"; Shadow := true |}
    (<["id" := "7"]> (<["day" := "mon"]> ∅))%string = inr "ftp://h/mon/7.png.imgsync_shadow_v1"%string.
Proof. vm_compute. reflexivity. Qed.

Example missing_field_sample :
  ∃ e, Render {| Pattern := "{{.none}}"; Shadow := false |} (<["id" := "7"]> ∅)%string = inl e.
Proof. eexists. vm_compute. reflexivity. Qed.

(** ** A source *)

Definition img_row (pk ts : Z) (name : string) : source_row :=
  {| sr_pk := KInt pk; sr_ts := Some ts; sr_cols := <["name" := CText name]>%string ∅ |}.

Definition images : source_table := {|
  pk_column := "id"; pk_type := BigintKey; ts_column := "updated_at"; columns := ["id"; "updated_at"; "name"];
  rows := [img_row 10 500 "b"; img_row 9 500 "a"; img_row 3 900 "c"]
|}.

Definition sample_query : Query := {|
  q_Table := "images"; q_PKColumn := "id"; q_TSColumn := "updated_at"; q_ExtraColumns := ["name"%string];
  q_BatchSize := 2; q_BiasDuration := 0; q_QueryTimeout := 30 * Second
|}.

Definition sample_cfg : Config (list Z) := {|
  c_SourceID := "cam"; c_Query := sample_query;
  c_Dst := {| Pattern := "ftp://h/{{.name}}.png"; Shadow := false |};
  c_SrcPattern := "/data/{{.id}}.png"; c_SrcProtocol := "localfs"; c_DstProtocol := "ftp";
  c_OnEnqueue := Some (λ _ n l, (Ret tt, n :: l)); c_OnError := None
|}.

Definition sample_source : srcdb := {|
  src_tables := <["images" := images]>%string ∅; src_now := 1000; src_script := []
|}.

Definition sample_world : sworld (list Z) := {| ctl := sample_pg; source := sample_source; hooks := [] |}.

Lemma images_wf : source_wf images.
Proof.
  split.
  - by apply (bool_decide_unpack _).
  - intros r Hr. repeat (apply elem_of_cons in Hr as [->|Hr]; [done|]). by apply not_elem_of_nil in Hr.
Qed.

(** The rendered texts of a table, evaluated. *)
Definition texts_of {K} (cfg : Config K) (tbl : source_table) : bool :=
  forallb (λ r, match render_row cfg (image (c_Query cfg) tbl r) with
                | Some j => forallb pg_text (spec_args j)
                | None => true
                end) (rows tbl).

Lemma texts_ok {K} (cfg : Config K) tbl : texts_of cfg tbl = true →
  ∀ r j, r ∈ rows tbl → render_row cfg (image (c_Query cfg) tbl r) = Some j →
    forallb pg_text (spec_args j) = true.
Proof.
  unfold texts_of. rewrite forallb_forall. intros Hall r j Hr%list_elem_of_In Hj.
  specialize (Hall r Hr). simpl in Hall. by rewrite Hj in Hall.
Qed.

Lemma sample_healthy : healthy sample_cfg sample_world images.
Proof.
  split; try done; [exact wf_empty_tables|exact images_wf|].
  by apply (texts_ok sample_cfg images).
Qed.

Lemma sample_fresh : fresh sample_cfg {| world := sample_world; trail := [] |}.
Proof.
  split; [exact wf_empty_tables|]. split; [done|]. split; [by apply Z.leb_le|].
  exists images. split; [done|]. split; [exact images_wf|].
  intros r ts Hr Hts. repeat (apply elem_of_cons in Hr as [->|Hr]; [injection Hts as <-; by apply Z.ltb_lt|]).
  by apply not_elem_of_nil in Hr.
Qed.

(** ** Witnesses *)

Lemma RunOnce_spec_witness : ∃ n err r w',
  RunOnce sample_cfg sample_world = (r, w') ∧ r = Ret (2, None) ∧
  poll_effect sample_cfg 1000 sample_source empty_tables (tabs (ctl w')) n err.
Proof.
  destruct (RunOnce_spec sample_cfg sample_world images wf_empty_tables images_wf eq_refl)
    as (n & err & r & w' & E & _ & Heff & _).
  exists n, err, r, w'. split; [done|]. split; [|exact Heff].
  apply (f_equal fst) in E. vm_compute in E. by subst r.
Defined.

(** After one poll both rows stamped 500 are behind the watermark. *)
Lemma sniffer_never_loses_rows_witness : ∃ s',
  rtc (run_step sample_cfg) {| world := sample_world; trail := [] |} s' ∧
  LastRunTS (watermark "cam" (tabs (ctl (world s')))) = 500 ∧
  ever_queued sample_cfg s' images (img_row 9 500 "a").
Proof.
  set (w' := (RunOnce sample_cfg sample_world).2).
  assert (RunOnce sample_cfg sample_world = (Ret (2, None), w')) as E by (vm_compute; reflexivity).
  set (s' := {| world := w'; trail := [tabs (ctl sample_world)] |}).
  assert (rtc (run_step sample_cfg) {| world := sample_world; trail := [] |} s') as Hst.
  { apply rtc_once. by apply (rs_poll sample_cfg sample_world [] (Ret (2, None)) w'). }
  exists s'. split; [exact Hst|]. split; [vm_compute; reflexivity|].
  destruct (sniffer_never_loses_rows sample_cfg _ s' sample_fresh Hst) as (tbl & Ht & Hall).
  assert (tbl = images) as -> by (vm_compute in Ht; by injection Ht as <-).
  apply Hall; [vm_compute; right; left|].
  exists (500, Some (KInt 10)), 500. by split_and!; vm_compute.
Defined.

Lemma polls_drain_witness : ∃ l w',
  polls sample_cfg 2 sample_world = (Ret l, w') ∧ l = [(2, None); (1, None)] ∧
  pending sample_cfg (tabs (ctl w')) (src_now (source w')) images = [].
Proof.
  destruct (polls_drain sample_cfg 2 sample_world images sample_healthy) as (l & w' & E & _ & _ & Hp & _).
  - intros f [= <-] n k. by eexists.
  - by split; apply Z.leb_le || apply Z.ltb_lt.
  - vm_compute. lia.
  - exists l, w'. split; [done|]. split; [|done].
    apply (f_equal fst) in E. vm_compute in E. by injection E as <-.
Defined.

Lemma TraceID_unique_witness :
  TraceID "images" (itoa 12) = TraceID "images-1" (itoa 2) ↔ "images"%string = "images-1"%string ∧ 12 = 2.
Proof. by apply (TraceID_unique "images" "images-1" 12 2). Defined.

Definition sample_specs : list JobSpec :=
  let j t := {| js_TraceID := t; js_Src := "/s"; js_Dst := "/d"; js_SrcProtocol := "localfs";
                js_DstProtocol := "localfs" |} in
  [j "images-1"; j "images-2"; j "images-1"]%string.

Lemma EnqueueBatch_is_Enqueue_witness :
  EnqueueBatch sample_specs sample_pg = enqueue_each sample_specs sample_pg ∧
  fst (EnqueueBatch sample_specs sample_pg) = Ret (inr 2).
Proof.
  split; [|vm_compute; reflexivity].
  destruct (EnqueueBatch_is_Enqueue sample_specs sample_pg wf_empty_tables) as [Heq _].
  apply Heq; [reflexivity|by apply Z.leb_le|vm_compute; reflexivity].
Defined.

(** ** A page that is too big *)

Definition big_row (pk : Z) : source_row := {| sr_pk := KInt pk; sr_ts := Some 500; sr_cols := ∅ |}.

Definition big_table : source_table := {|
  pk_column := "id"; pk_type := BigintKey; ts_column := "updated_at"; columns := ["id"; "updated_at"];
  rows := big_row <$> seqZ 0 20000
|}.

Definition big_cfg : Config (list Z) := {|
  c_SourceID := "cam";
  c_Query := {| q_Table := "images"; q_PKColumn := "id"; q_TSColumn := "updated_at"; q_ExtraColumns := [];
                q_BatchSize := 20000; q_BiasDuration := 0; q_QueryTimeout := 0 |};
  c_Dst := {| Pattern := "x"; Shadow := false |};
  c_SrcPattern := "y"; c_SrcProtocol := "localfs"; c_DstProtocol := "ftp";
  c_OnEnqueue := None; c_OnError := None
|}.

Definition big_world : sworld (list Z) := {|
  ctl := sample_pg;
  source := {| src_tables := {["images"%string := big_table]}; src_now := 1000; src_script := [] |};
  hooks := []
|}.

Lemma big_table_wf : source_wf big_table.
Proof.
  split.
  - change (NoDup (sr_pk <$> (big_row <$> seqZ 0 20000))).
    rewrite <- list_fmap_compose. change (sr_pk ∘ big_row) with KInt.
    apply NoDup_fmap_2; [by intros ? ? [=]|apply NoDup_seqZ].
  - intros r (z & -> & Hz)%list_elem_of_fmap. apply elem_of_seqZ in Hz. unfold key_ok, in_int64. simpl.
    rewrite andb_true_r. apply andb_true_iff. split; [apply Z.leb_le|apply Z.ltb_lt]; lia.
Qed.

Lemma big_healthy : healthy big_cfg big_world big_table.
Proof.
  split; try done; [exact wf_empty_tables|exact big_table_wf|].
  apply texts_ok. vm_compute. reflexivity.
Qed.

(** Every row of the page can be rendered. *)
Lemma big_specs l : length (omap (render_row big_cfg) (image (c_Query big_cfg) big_table <$> l)) = length l.
Proof. induction l as [|r l IH]; [done|]. exact (f_equal S IH). Qed.

Lemma big_page :
  length (window (c_Query big_cfg) big_table (zero_time, None) 1000) = Z.to_nat 20000.
Proof.
  assert (∀ l : list Z, filter (λ r, selected BigintKey (zero_time, None) (bias_bound (c_Query big_cfg) 1000) r = true)
    (big_row <$> l : list source_row) = big_row <$> l) as Hall.
  { induction l as [|z l IH]; [done|]. rewrite fmap_cons, filter_cons, decide_True by done. by rewrite IH. }
  unfold window. rewrite length_take, merge_sort_Permutation.
  change (rows big_table) with (big_row <$> seqZ 0 20000). rewrite Hall, length_fmap, length_seqZ.
  change (q_BatchSize (c_Query big_cfg)) with 20000. lia.
Qed.

Lemma oversized_page_stalls_witness : ∃ err w',
  runOnceImpl big_cfg big_world = (Ret (0, Some err), w') ∧ tabs (ctl w') = empty_tables.
Proof.
  destruct (oversized_page_stalls big_cfg big_world big_table (zero_time, None) big_healthy)
    as (err & w' & E & Ht & _).
  - by apply Z.ltb_lt.
  - reflexivity.
  - rewrite big_specs. change (src_now (source big_world)) with 1000. rewrite big_page.
    unfold max_params. lia.
  - exists err, w'. split; [exact E|exact Ht].
Defined.

Lemma sample_query_plain : plain_query sample_query.
Proof.
  split; [vm_compute; reflexivity| |discriminate|by apply Z.ltb_lt].
  repeat constructor; vm_compute; reflexivity.
Qed.

(** After the row 9 stamped 500, the row 10 with the same stamp is next. *)
Lemma fetch_sql_means_witness : ∃ xs,
  run_query sample_query {| SourceID := "cam"; LastRunTS := 500; LastRunPK := "9" |} sample_source = inr xs ∧
  PK <$> xs = ["10"; "3"] ∧
  ∃ tbl l, select_text (fetch_sql sample_query {| SourceID := "cam"; LastRunTS := 500; LastRunPK := "9" |})
      (fetch_args sample_query {| SourceID := "cam"; LastRunTS := 500; LastRunPK := "9" |}) sample_source
    = Some (tbl, l) ∧ scan_rows sample_query tbl l = inr xs.
Proof.
  eexists. split; [vm_compute; reflexivity|]. split; [vm_compute; reflexivity|].
  apply (fetch_sql_means sample_query {| SourceID := "cam"; LastRunTS := 500; LastRunPK := "9" |} sample_source).
  - exact sample_query_plain.
  - vm_compute. reflexivity.
Defined.
