(* ===== verification/SnifferKeys.v ===== *)
(** * Polling tables whose keys are not numbers

    What becomes of a source whose primary key is a UUID or a TEXT: the watermark holds
    the text [Fetch] made of the last key, and the next poll sends that text back. *)

From S2P Require Import Prelude GoLang ErrDetail GoText Store Worker Invariant Spec Jobs.
From S2P Require Import BatchSql SourceKeys SnifferQuery FetchSql Sniffer SnifferProps SnifferRuns SnifferSamples.

Local Open Scope Z_scope.

(** ** A watermark that cannot be read back *)

Section Refused.
Context `{ScanOrder} `{TemplateEngine} {K : Type} (cfg : Config K).

Local Notation q := (c_Query cfg).
Local Notation sid := (c_SourceID cfg).
Local Notation mark w := (watermark sid (tabs (ctl w))).

(** The polled table exists and the server refuses the watermark as one of its keys. *)
Definition refused (w : sworld K) : Prop :=
  ∃ tbl, src_tables (source w) !! q_Table q = Some tbl ∧ cursor (pk_type tbl) (mark w) = None.

(** What may happen next: a poll, with whatever failures and callbacks; or anything else,
    in either database, that leaves the watermark and the type of the key alone. *)
Inductive next_step : sworld K → sworld K → Prop :=
| next_poll w r w' : RunOnce cfg w = (r, w') → next_step w w'
| next_other w w' tbl tbl' :
    sniffer_state (tabs (ctl w')) !! sid = sniffer_state (tabs (ctl w)) !! sid →
    src_tables (source w) !! q_Table q = Some tbl → src_tables (source w') !! q_Table q = Some tbl' →
    pk_type tbl' = pk_type tbl → next_step w w'.

(** A poll with a refused watermark fails and changes nothing. *)
Lemma refused_poll w r w' :
  refused w → RunOnce cfg w = (r, w') →
  (∀ v, r = Ret v → ∃ err, v = (0, Some err)) ∧ undone (tabs (ctl w)) (tabs (ctl w')) ∧
  mark w' = mark w ∧ refused w'.
Proof.
  intros (tbl & Ht & Hc) E.
  destruct (RunOnce_run cfg w) as (n & err & r1 & w1 & E1 & Hr & _ & _ & Hst & _ & Heff).
  rewrite E in E1. injection E1 as <- <-.
  assert (∀ xs, run_query q (mark w) (source w) ≠ inr xs) as Hno.
  { intros xs (tbl' & c & Ht' & _ & Hc' & _)%run_query_inr. congruence. }
  inversion Heff as [t' err' Hu|Hq|xs lst m t1 k err' Hq|xs lst m t1 o Hq]; subst;
    try (by destruct (Hno _ Hq)).
  pose proof (watermark_undone cfg _ _ Hu) as Ew.
  split_and!; [intros v Hv; eexists; by apply Hr|done..|].
  exists tbl. rewrite Hst, Ew. done.
Qed.

Lemma refused_later w w' : refused w → rtc next_step w w' → refused w' ∧ mark w' = mark w.
Proof.
  intros Hs Hl. induction Hl as [w|w w1 w' H1 _ IH]; [done|].
  assert (refused w1 ∧ mark w1 = mark w) as [Hs1 <-]; [|by apply IH].
  destruct H1 as [w r w1 E|w w1 tbl tbl' Hm Ht Ht' Hty]; [by destruct (refused_poll _ _ _ Hs E) as (_ & _ & ? & ?)|].
  assert (mark w1 = mark w) as Ew by (unfold watermark; by rewrite Hm).
  split; [|done]. destruct Hs as (tbl0 & Ht0 & Hc). exists tbl'. rewrite Hty, Ew.
  by simplify_eq.
Qed.

(** A poll that moved the watermark moved it to a row of the table. *)
Lemma moved_to w r w' tbl :
  wf (tabs (ctl w)) → src_tables (source w) !! q_Table q = Some tbl →
  RunOnce cfg w = (r, w') → mark w' ≠ mark w →
  ∃ y, y ∈ rows tbl ∧ LastRunPK (mark w') = key_text (sr_pk y) ∧
    src_tables (source w') = src_tables (source w).
Proof.
  intros Hwf Ht E Hne.
  destruct (RunOnce_run cfg w) as (n & err & r1 & w1 & E1 & _ & _ & _ & Hst & _ & Heff).
  rewrite E in E1. injection E1 as <- <-. revert Hne.
  destruct Heff as [t' err Hu|Hq|xs lst n t1 m err Hq Hl _ Hi _|xs lst n t1 o Hq Hl _ Hi]; intros Hne.
  - by rewrite (watermark_undone cfg _ _ Hu) in Hne.
  - done.
  - destruct (insert_all_run _ _ _ _ _ Hwf Hi) as (_ & Hs & _).
    destruct Hne. unfold watermark. by rewrite Hs.
  - destruct (run_query_inr _ _ _ _ Hq) as (tbl' & c & Ht' & _ & _ & ->). simplify_eq.
    destruct (page_last cfg _ _ _ _ Hl) as (y & _ & -> & Hin).
    exists y. split; [by eapply elem_of_window|]. split; [|done].
    unfold watermark, moved, state_row. simpl. rewrite lookup_insert_eq. simpl.
    by case_bool_decide; simpl in *.
Qed.

(** A table whose key is a UUID is polled for one page and never again: the text stored
    as the watermark is not one the server reads as a UUID, so once a poll has moved the
    watermark, whatever happens to the source and the queue, every later poll fails, and
    neither the queue nor the watermark changes. *)
Theorem uuid_source_stalls w r w1 w' tbl :
  wf (tabs (ctl w)) → src_tables (source w) !! q_Table q = Some tbl → pk_type tbl = UuidKey →
  (∀ x, x ∈ rows tbl → key_typed UuidKey (sr_pk x) = true) →
  RunOnce cfg w = (r, w1) → mark w1 ≠ mark w → rtc next_step w1 w' →
  mark w' = mark w1 ∧
  ∀ r' w2, RunOnce cfg w' = (r', w2) →
    (∀ v, r' = Ret v → ∃ err, v = (0, Some err)) ∧
    jobs (tabs (ctl w2)) = jobs (tabs (ctl w')) ∧ mark w2 = mark w'.
Proof.
  intros Hwf Ht Hty Hrows E Hne Hl.
  destruct (moved_to _ _ _ _ Hwf Ht E Hne) as (y & Hy & Hpk & Hst).
  assert (refused w1) as Hs.
  { exists tbl. rewrite Hst. split; [done|]. unfold cursor. rewrite Hpk, Hty.
    specialize (Hrows y Hy). destruct (sr_pk y) as [z|s|b]; try done.
    cbn [key_text key_in]. by rewrite uuid_in_text, bool_decide_false. }
  destruct (refused_later _ _ Hs Hl) as [Hs' Em]. split; [done|].
  intros r' w2 E'. destruct (refused_poll _ _ _ Hs' E') as (Hv & Hu & Ew & _).
  split_and!; [done|by apply undone_jobs|done].
Qed.

End Refused.

(** ** Tables with such keys *)

Definition keyed_row (k : key) (ts : Z) : source_row := {| sr_pk := k; sr_ts := Some ts; sr_cols := ∅ |}.

Definition keyed_table (ty : key_type) (l : list source_row) : source_table := {|
  pk_column := "id"; pk_type := ty; ts_column := "updated_at"; columns := ["id"; "updated_at"]; rows := l
|}.

Definition keyed_cfg (batch : Z) : Config (list Z) := {|
  c_SourceID := "cam";
  c_Query := {| q_Table := "images"; q_PKColumn := "id"; q_TSColumn := "updated_at"; q_ExtraColumns := [];
                q_BatchSize := batch; q_BiasDuration := 0; q_QueryTimeout := 0 |};
  c_Dst := {| Pattern := "ftp://h/{{.id}}.png"; Shadow := false |};
  c_SrcPattern := "/data/{{.id}}.png"; c_SrcProtocol := "localfs"; c_DstProtocol := "ftp";
  c_OnEnqueue := None; c_OnError := None
|}.

Definition keyed_world (tbl : source_table) : sworld (list Z) := {|
  ctl := sample_pg;
  source := {| src_tables := {["images"%string := tbl]}; src_now := 1000; src_script := [] |};
  hooks := []
|}.

(** The trace ids of the first jobs, in the order they were inserted. *)
Definition trace_ids (w : sworld (list Z)) : list string :=
  omap (λ i, trace_id <$> jobs (tabs (ctl w)) !! i) (seqZ 1 9).

Definition uuid_table : source_table :=
  keyed_table UuidKey [keyed_row (KUuid "0123456789ABCDEF") 500; keyed_row (KUuid "1123456789ABCDEF") 500].

(** The first row is queued; the second never is. *)
Lemma uuid_source_stalls_witness : ∃ w1 w2,
  RunOnce (keyed_cfg 1) (keyed_world uuid_table) = (Ret (1, None), w1) ∧
  RunOnce (keyed_cfg 1) w1 = (Ret (0, Some (wrapf "fetch: " (EOpaque "invalid input syntax for type uuid"))), w2) ∧
  jobs (tabs (ctl w2)) = jobs (tabs (ctl w1)).
Proof.
  set (w1 := (RunOnce (keyed_cfg 1) (keyed_world uuid_table)).2).
  set (w2 := (RunOnce (keyed_cfg 1) w1).2). exists w1, w2.
  assert (RunOnce (keyed_cfg 1) (keyed_world uuid_table) = (Ret (1, None), w1)) as E1
    by (vm_compute; reflexivity).
  assert (RunOnce (keyed_cfg 1) w1
    = (Ret (0, Some (wrapf "fetch: " (EOpaque "invalid input syntax for type uuid"))), w2)) as E2
    by (vm_compute; reflexivity).
  split; [exact E1|]. split; [exact E2|].
  destruct (uuid_source_stalls (keyed_cfg 1) (keyed_world uuid_table) (Ret (1, None)) w1 w1 uuid_table
    wf_empty_tables eq_refl eq_refl) as [_ Hp].
  - intros x Hx. repeat (apply elem_of_cons in Hx as [->|Hx]; [done|]). by apply not_elem_of_nil in Hx.
  - exact E1.
  - intros Heq. apply (f_equal LastRunPK) in Heq. vm_compute in Heq. discriminate.
  - apply rtc_refl.
  - by destruct (Hp _ _ E2) as (_ & Hj & _).
Defined.

(** TEXT keys in the collation "C" drain: "10" comes before "9". *)
Definition text_table : source_table :=
  keyed_table (TextKey c_collation)
    [keyed_row (KText "9") 500; keyed_row (KText "10") 500; keyed_row (KText "b") 400].

Lemma text_table_wf : source_wf text_table.
Proof.
  split.
  - by apply (bool_decide_unpack _).
  - intros r Hr. repeat (apply elem_of_cons in Hr as [->|Hr]; [done|]). by apply not_elem_of_nil in Hr.
Qed.

Example text_keys_drain :
  (polls (keyed_cfg 1) 4 (keyed_world text_table)).1 = Ret [(1, None); (1, None); (1, None); (0, None)] ∧
  trace_ids (polls (keyed_cfg 1) 4 (keyed_world text_table)).2 = ["images-b"; "images-10"; "images-9"]%string.
Proof. split; vm_compute; reflexivity. Qed.

(** The caveat of [Fetch]: the empty TEXT key is the sentinel, and the rows stamped like
    its row that did not fit in its page are passed over. *)
Definition empty_key_table : source_table :=
  keyed_table (TextKey c_collation) [keyed_row (KText EmptyString) 500; keyed_row (KText "a") 500].

Example empty_key_hides_rows :
  (polls (keyed_cfg 1) 2 (keyed_world empty_key_table)).1 = Ret [(1, None); (0, None)] ∧
  trace_ids (polls (keyed_cfg 1) 2 (keyed_world empty_key_table)).2 = ["images-"]%string.
Proof. split; vm_compute; reflexivity. Qed.
