(* ===== verification/E2e.v ===== *)
(** * The helpers of the end-to-end tests (e2e/helpers.go)

    The statements the cluster tests run against the control database: the reset, the
    bulk insert of numbered local jobs, the waits on the state of the queue and the
    recovery count, and the names and sizes of the source files. A call that ends the
    test ([t.Fatalf]) has the message as its error. What the helpers do on their own host
    is in E2eHost.v. *)

From Stdlib Require Import Ascii.
From S2P Require Import Prelude GoLang ErrDetail GoText GoUtf8 GoJson Store Worker Invariant Spec.
From S2P Require Import WorkerFacts Jobs Metrics BatchSql SnifferQuery Sniffer SnifferProps.

Local Open Scope Z_scope.

(** ** Numbered names *)

(** [%05d]: at least five digits. *)
Definition pad5 (i : Z) : string := zeros (5 - String.length (itoa i)) +:+ itoa i.

(** [lpad(i::text, 5, '0')]: exactly five characters. *)
Definition lpad5 (i : Z) : string := String.substring 0 5 (pad5 i).

Definition hostFsRoot : string := "/tmp/imgsync-e2e-localfs".

(** The file [seedFixtures] writes for a number, and the sizes of its writes. *)
Definition fixture_path (i : Z) : string := hostFsRoot +:+ "/src" +:+ "/file-" +:+ pad5 i +:+ ".bin".

Definition chunk_len : Z := 1024 * 1024.

Fixpoint fixture_writes (fuel : nat) (written sizeBytes : Z) : list Z :=
  match fuel with
  | O => []
  | S fuel' =>
      if written <? sizeBytes then
        let n := if sizeBytes <? written + chunk_len then sizeBytes - written else chunk_len in
        n :: fixture_writes fuel' (written + chunk_len) sizeBytes
      else []
  end.

(** ** Statements *)

(** [t.Fatalf("...: %v", err)]. *)
Definition fatal {A} (s : string) (r : error + A) : error + A :=
  match r with inl e => inl (wrapf s e) | inr a => inr a end.

(** [TRUNCATE transfer_jobs, transfer_events RESTART IDENTITY CASCADE]. *)
Definition truncated (t : tables) : tables := {|
  jobs := ∅; jobs_seq := 1; events := []; events_seq := 1; sniffer_state := sniffer_state t
|}.

Definition truncateJobs : M pg (error + unit) :=
  o ← exec (λ _ t, (inr tt, truncated t));
  mret (fatal "truncate: " o).

Definition truncateSnifferState : M pg (error + unit) :=
  o ← exec (λ _ t, (inr tt, set_sniffer_state ∅ t));
  mret (fatal "truncate sniffer_state: " o).

(** A row of the bulk insert; its other columns are the defaults of the schema. *)
Definition series_spec (prefix : string) (i : Z) : JobSpec := {|
  js_TraceID := prefix +:+ lpad5 i;
  js_Src := "/srv/imgsync/src/file-" +:+ lpad5 i +:+ ".bin";
  js_Dst := "/srv/imgsync/dst/file-" +:+ lpad5 i +:+ ".bin";
  js_SrcProtocol := "localfs"; js_DstProtocol := "localfs"
|}.

(** [generate_series(1, n)]. *)
Definition series (n : Z) : list Z := seqZ 1 n.

Section E2e.
Context `{ScanOrder}.

Definition bulk_insert (prefix : string) (n : Z) : stmt Z := λ e t,
  if pg_text prefix && in_int32 n then
    let '(k, t') := insert_all (now e) (series_spec prefix <$> series n) t in (inr k, t')
  else (inl (EOpaque "invalid input for a parameter"), t).

Definition enqueueLocalFSJobs (prefix : string) (n : Z) : M pg (error + unit) :=
  b ← begin_tx;
  match b with
  | Some err => mret (inl (wrapf "begin: " err))
  | None =>
      defer rollback_tx
        (o ← exec_tx (bulk_insert prefix n);
         match o with
         | inl err => mret (inl (wrapf "bulk insert: " err))
         | inr _ =>
             c ← commit_tx;
             match c with
             | Some err => mret (inl (wrapf "commit: " err))
             | None => mret (inr tt)
             end
         end)
  end.

(** [SELECT count( * ) FROM transfer_jobs WHERE status=$1]. *)
Definition countByStatus (st : job_status) : M pg (error + Z) :=
  o ← exec (λ _ t, (inr (rows_in st t), t));
  mret (fatal "countByStatus: " o).

(** What the select of [waitAllSucceeded] sees: the context, or a tick after the other
    sessions have worked for a while, with the time since the start. *)
Inductive wait_event := WCancelled | WTick (others : pg → pg) (elapsed : Z).

(** [waitAllSucceeded]: the duration, the end of the test, or still waiting when the
    events are over. [dt] is the text of a duration. *)
Fixpoint waitAllSucceeded (dt : Z → string) (expected budget : Z) (evs : list wait_event)
    : M pg (option (error + Z)) :=
  match evs with
  | [] => mret None
  | WCancelled :: _ => mret (Some (inl (EOpaque "ctx cancelled while waiting for jobs")))
  | WTick others elapsed :: evs' =>
      _ ← action (λ s, (Ret tt, others s));
      o ← countByStatus Succeeded;
      match o with
      | inl err => mret (Some (inl err))
      | inr n =>
          if expected <=? n then mret (Some (inr elapsed))
          else if budget <? elapsed then
            d ← countByStatus Dead;
            match d with
            | inl err => mret (Some (inl err))
            | inr dead =>
                l ← countByStatus Leased;
                match l with
                | inl err => mret (Some (inl err))
                | inr leased => mret (Some (inl (EOpaque
                    ("waitAllSucceeded: only " +:+ itoa n +:+ "/" +:+ itoa expected +:+ " succeeded after "
                     +:+ dt budget +:+ " (dead=" +:+ itoa dead +:+ ", leased=" +:+ itoa leased +:+ ")"))))
                end
            end
          else waitAllSucceeded dt expected budget evs'
      end
  end.

(** [waitForLeasedJob]: one look per 200 ms while the budget lasts. *)
Fixpoint waitForLeasedJob (dt : Z → string) (budget : Z) (looks : list ((pg → pg) * Z))
    : M pg (option (error + unit)) :=
  match looks with
  | [] => mret None
  | (others, elapsed) :: looks' =>
      _ ← action (λ s, (Ret tt, others s));
      if elapsed <? budget then
        o ← countByStatus Leased;
        match o with
        | inl err => mret (Some (inl err))
        | inr n => if 0 <? n then mret (Some (inr tt)) else waitForLeasedJob dt budget looks'
        end
      else mret (Some (inl (EOpaque ("no job entered 'leased' within " +:+ dt budget))))
  end.

(** The WHERE clause of [inspectSweeperRecovery]. *)
Definition recovered_row (t : tables) (r : transfer_job) : bool :=
  bool_decide (status r = Succeeded) && (attempts r =? 0)
  && existsb (λ e, bool_decide (ev_trace_id e = trace_id r) && bool_decide (ev_job_id e = id r)
                   && bool_decide (ev_status e = EvExpire)) (events t).

Definition inspectSweeperRecovery : M pg (error + Z) :=
  o ← exec (λ _ t, (inr (Z.of_nat (countb (recovered_row t) (map_to_list (jobs t)).*2)), t));
  mret (fatal "inspectSweeperRecovery: " o).

End E2e.

(** ** Lemmas: names *)

Lemma pretty_go_length k x s : (x < 10 ^ N.of_nat k)%N →
  (String.length (pretty.pretty_N_go x s) <= k + String.length s)%nat.
Proof.
  revert x s. induction k as [|k IH]; intros x s Hx.
  - assert (x = 0%N) as -> by (simpl in Hx; lia). by rewrite pretty.pretty_N_go_0.
  - assert (x = 0 ∨ 0 < x)%N as [-> | Hp] by lia; [rewrite pretty.pretty_N_go_0; lia|].
    rewrite pretty.pretty_N_go_step by done. etrans; [apply IH|simpl; lia].
    rewrite Nat2N.inj_succ, N.pow_succ_r' in Hx. apply N.Div0.div_lt_upper_bound. lia.
Qed.

Lemma itoa_length k i : 0 <= i < 10 ^ Z.of_nat k → (0 < k)%nat → (String.length (itoa i) <= k)%nat.
Proof.
  intros Hi Hk. destruct i as [|p|p]; [exact Hk| |lia].
  rewrite itoa_pos. etrans; [apply (pretty_go_length k)|simpl; lia].
  apply N2Z.inj_lt. rewrite N2Z.inj_pow, nat_N_Z. apply Hi.
Qed.

Lemma itoa_val i : 0 <= i → digits_val (itoa i) 0 = Some i.
Proof. destruct i as [|p|p]; [done| |lia]. intros _. rewrite itoa_pos. apply pretty_go_val. Qed.

Lemma zeros_val n s : digits_val (zeros n +:+ s) 0 = digits_val s 0.
Proof. induction n as [|n IH]; [done|]. exact IH. Qed.

Lemma zeros_length n s : String.length (zeros n +:+ s) = (n + String.length s)%nat.
Proof. induction n as [|n IH]; [done|]. simpl. by rewrite IH. Qed.

Lemma substring_all n s : (String.length s <= n)%nat → String.substring 0 n s = s.
Proof.
  revert n. induction s as [|a s IH]; intros [|n] Hn; simpl in *; try done; [lia|].
  rewrite IH by lia. done.
Qed.

(** Up to 99999 the two paddings agree and tell the numbers apart. *)
Lemma lpad5_pad5 i : 0 <= i <= 99999 → lpad5 i = pad5 i ∧ digits_val (lpad5 i) 0 = Some i.
Proof.
  intros Hi. pose proof (itoa_length 5 i ltac:(lia) ltac:(lia)) as Hl.
  assert (lpad5 i = pad5 i) as E.
  { apply substring_all. unfold pad5. rewrite zeros_length. lia. }
  split; [done|]. rewrite E. unfold pad5. rewrite zeros_val. apply itoa_val. lia.
Qed.

Lemma series_elem i n : i ∈ series n ↔ 1 <= i <= n.
Proof. unfold series. rewrite elem_of_seqZ. lia. Qed.

Lemma series_keys prefix n : n <= 99999 → NoDup (spec_key ∘ series_spec prefix <$> series n).
Proof.
  intros Hn. assert (∀ i, i ∈ series n → 0 <= i <= 99999) as Hr
    by (intros i ?%series_elem; lia).
  apply NoDup_fmap_2_strong; [|apply NoDup_seqZ].
  intros i j Hi Hj E. injection E as E _. apply (inj (String.append prefix)) in E.
  destruct (lpad5_pad5 i (Hr i Hi)) as [_ Ei], (lpad5_pad5 j (Hr j Hj)) as [_ Ej]. congruence.
Qed.

(** ** Lemmas: the bulk insert *)

Section Facts.
Context `{ScanOrder}.

Lemma insert_spec_fresh ts j t o t' : wf t → insert_spec ts j t = (o, t') → ¬ has_key t (spec_key j) →
  is_Some o ∧ ∀ k, has_key t' k → has_key t k ∨ k = spec_key j.
Proof.
  intros Hwf E Hk. unfold insert_spec in E.
  destruct (insert_job_cases _ _ _ _ _ _ _ _ _ _ _ E) as [_ [(-> & _ & r & Hf)|(-> & _ & Hj)]].
  - destruct Hk. apply find_key_Some in Hf as (i & Hi & Ht & Hd). exists i, r.
    unfold spec_key. by rewrite Ht, Hd.
  - split; [by eexists|]. intros k (i & r & Hi & Hr). rewrite Hj in Hi.
    apply lookup_insert_Some in Hi as [[_ <-]|[_ Hi]]; [right; by rewrite <- Hr|left; by exists i, r].
Qed.

(** Fresh and different keys are all inserted. *)
Lemma insert_all_fresh ts specs t n t' :
  wf t → insert_all ts specs t = (n, t') → NoDup (spec_key <$> specs) →
  (∀ j, j ∈ specs → ¬ has_key t (spec_key j)) → n = Z.of_nat (length specs).
Proof.
  revert t n t'. induction specs as [|j specs IH]; intros t n t' Hwf E Hnd Hk; cbn in E; [by simplify_eq|].
  destruct (insert_spec ts j t) as [o t1] eqn:E1.
  destruct (insert_all ts specs t1) as [m t2] eqn:E2. simplify_eq. rewrite fmap_cons in Hnd.
  apply NoDup_cons in Hnd as [Hj Hnd].
  destruct (insert_spec_fresh _ _ _ _ _ Hwf E1 (Hk j (list_elem_of_here _ _))) as [[i ->] Hnew].
  rewrite (IH t1 m t' (ev_wf _ _ (insert_spec_evolves _ _ _ _ _ E1 Hwf)) E2 Hnd); [simpl; lia|].
  intros j' Hj' [Hold|Heq]%Hnew; [by eapply Hk; [by right|]|].
  apply Hj. rewrite <- Heq. by apply list_elem_of_fmap_2.
Qed.

Lemma truncated_wf t : wf (truncated t).
Proof. split; intros *; simpl; try by intros ?%lookup_empty_Some. by intros ?%not_elem_of_nil. Qed.

(** The bulk insert into empty tables. *)
Lemma bulk_insert_run e prefix n t k t' :
  0 <= n <= 99999 → bulk_insert prefix n e (truncated t) = (inr k, t') →
  wf t' ∧ Z.of_nat (size (jobs t')) = n ∧
  ∀ i, 1 <= i <= n → has_key t' (spec_key (series_spec prefix i)).
Proof.
  intros Hn. unfold bulk_insert. case_match; [|done].
  destruct (insert_all _ _ _) as [m t1] eqn:E. intros [= -> <-].
  destruct (insert_all_run _ _ _ _ _ (truncated_wf t) E) as (Hev & _ & Hk & _ & Hz).
  specialize (Hev (truncated_wf t)). split; [apply Hev|]. split.
  - rewrite Hz. simpl. rewrite map_size_empty.
    rewrite (insert_all_fresh _ _ _ _ _ (truncated_wf t) E).
    + rewrite length_fmap. unfold series. rewrite length_seqZ. lia.
    + rewrite <- list_fmap_compose. apply series_keys. lia.
    + intros j _ (i & r & Hi & _). by apply (lookup_empty_Some i r) in Hi.
  - intros i Hi. apply Hk, list_elem_of_fmap_2. by apply series_elem.
Qed.

(** A call that does not end the test has committed the insert. *)
Lemma enqueueLocalFSJobs_run prefix n s u s' :
  enqueueLocalFSJobs prefix n s = (Ret (inr u), s') →
  ∃ k, bulk_insert prefix n (env s) (tabs s) = (inr k, tabs s').
Proof.
  unfold enqueueLocalFSJobs. destruct (begin_tx_run s) as (b & s1 & E1 & He1 & Ht1 & _ & Hc). run_bind E1.
  destruct Hc as [(-> & Hx1)|(_ & _ & err & ->)]; [|done].
  destruct (exec_tx_run (bulk_insert prefix n) s1 _ Hx1) as (o & s2 & E2 & He2 & Ht2 & _ & Hc2).
  unfold defer. run_bind E2. rewrite He1 in Hc2.
  destruct Hc2 as [(k & t & Eq & -> & Hx2)|[(_ & _ & err & ->)|(err & t & _ & -> & _)]];
    [|destruct (rollback_tx_run s2) as (sr & E & _); cbn; by rewrite E..].
  destruct (commit_tx_run s2 _ Hx2) as (c & s3 & E3 & He3 & Hx3 & _ & Hc3). run_bind E3.
  destruct Hc3 as [(-> & Ht3)|(_ & _ & err & ->)]; [|destruct (rollback_tx_run s3) as (sr & E & _); cbn; by rewrite E].
  unfold mret, M_ret. unfold rollback_tx. rewrite Hx3. intros [= <- <-]. exists k. by rewrite Ht3.
Qed.

(** ** Lemmas: the waits *)

Lemma countByStatus_run st s : ∃ r s',
  countByStatus st s = (Ret r, s') ∧ env s' = env s ∧ tabs s' = tabs s ∧ script s' = tail (script s) ∧
  (r = inr (rows_in st (tabs s)) ∨ (script s ≠ [] ∧ ∃ e, r = inl e)).
Proof.
  unfold countByStatus. destruct (exec_run (λ _ t, (inr (rows_in st t), t)) s)
    as (r & s' & E & He & _ & Hs & Hc). run_bind E.
  destruct Hc as [(a & [= <- Ht] & Hr)|[(Hf & Ht & e & ->)|(e & t' & [=] & _)]];
    eexists _, _; (split; [reflexivity|]); (split; [done|]); (split; [done|]); (split; [done|]).
  - destruct Hr as [-> | (Hf & e & ->)]; [by left|right; split; [done|by eexists]].
  - right. split; [done|]. by eexists.
Qed.

(** What the workers and the sweepers do to the queue while a test waits: steps of the
    queue that neither add nor delete a job. *)
Definition works (t t' : tables) : Prop := evolves t t' ∧ (wf t → dom (jobs t') = dom (jobs t)).

Lemma works_trans t1 t2 t3 : wf t1 → works t1 t2 → works t2 t3 → works t1 t3.
Proof.
  intros Hwf [He1 Hd1] [He2 Hd2]. split; [by transitivity t2|]. intros _.
  rewrite Hd2, Hd1; [done|done|by apply He1].
Qed.

Definition others_work (ev : wait_event) : Prop :=
  match ev with WCancelled => True | WTick others _ => ∀ s, works (tabs s) (tabs (others s)) end.

(** A wait that ends well ends in a state the workers produced, with enough successes. *)
Lemma waitAllSucceeded_ok dt expected budget evs s d s' :
  wf (tabs s) → Forall others_work evs →
  waitAllSucceeded dt expected budget evs s = (Ret (Some (inr d)), s') →
  works (tabs s) (tabs s') ∧ expected <= rows_in Succeeded (tabs s').
Proof.
  intros Hwf Hall. revert s Hwf. induction Hall as [|ev evs Hev Hall IH]; intros s Hwf; [done|].
  destruct ev as [|others el]; [done|]. cbn [waitAllSucceeded].
  rewrite (bind_run (action (λ s, (Ret tt, others s))) _ s (Ret tt) (others s) eq_refl). cbv beta iota.
  destruct (countByStatus_run Succeeded (others s)) as (r & s1 & E1 & _ & Ht & _ & Hc). run_bind E1.
  destruct Hc as [-> | (_ & e & ->)]; [|done].
  pose proof (Hev s) as Hw. destruct (expected <=? _) eqn:Hx; to_prop.
  { intros [= <- <-]. by rewrite Ht. }
  case_match; [|intros E; apply IH in E as [Hw2 Hn]; [|rewrite Ht; by apply Hw]].
  - destruct (countByStatus_run Dead s1) as (r2 & s2 & E2 & _). run_bind E2. destruct r2; [done|].
    destruct (countByStatus_run Leased s2) as (r3 & s3 & E3 & _). run_bind E3. by destruct r3.
  - split; [|done]. eapply works_trans; [done|exact Hw|]. by rewrite <- Ht.
Qed.

(** When as many rows satisfy a test as there are rows, all of them do. *)
Lemma countb_all {A} (p : A → bool) l : (length l <= countb p l)%nat → ∀ x, x ∈ l → p x = true.
Proof.
  assert (∀ k, countb p k <= length k)%nat as Hle
    by (induction k as [|y k IH]; simpl; [done|]; destruct (p y); lia).
  induction l as [|y l IH]; simpl; intros Hc x Hx; [by apply not_elem_of_nil in Hx|].
  pose proof (Hle l). destruct (p y) eqn:Hy; [|lia].
  apply elem_of_cons in Hx as [-> | Hx]; [done|]. apply IH; [lia|done].
Qed.

Lemma rows_in_all st t i r : Z.of_nat (size (jobs t)) <= rows_in st t → jobs t !! i = Some r → status r = st.
Proof.
  unfold rows_in. intros Hn Hi. assert (length (map_to_list (jobs t)).*2 = size (jobs t)) as Hl
    by (by rewrite length_fmap, length_map_to_list).
  assert (r ∈ (map_to_list (jobs t)).*2) as Hr.
  { apply list_elem_of_fmap. exists (i, r). split; [done|]. by apply elem_of_map_to_list. }
  pose proof (countb_all _ _ ltac:(rewrite Hl; apply Nat2Z.inj_le; exact Hn) r Hr) as Hp.
  by apply bool_decide_eq_true in Hp.
Qed.

(** ** Properties *)

(** The acceptance run is sound: after the reset and the bulk insert of at most 99999
    jobs, when only workers and sweepers touch the queue, a wait for that many
    successes that does not end the test leaves every numbered job succeeded, with its
    one success event. *)
Theorem acceptance_sound dt prefix n budget evs s s1 s2 s3 d :
  0 <= n <= 99999 → Forall others_work evs →
  truncateJobs s = (Ret (inr tt), s1) → enqueueLocalFSJobs prefix n s1 = (Ret (inr tt), s2) →
  waitAllSucceeded dt n budget evs s2 = (Ret (Some (inr d)), s3) →
  ∀ i, 1 <= i <= n → ∃ k r, jobs (tabs s3) !! k = Some r ∧ trace_id r = prefix +:+ lpad5 i ∧
    dst r = "/srv/imgsync/dst/file-" +:+ lpad5 i +:+ ".bin" ∧ status r = Succeeded ∧
    n_ev EvSuccess k (events (tabs s3)) = 1.
Proof.
  intros Hn Hall E1 E2 E3 i Hi.
  assert (tabs s1 = truncated (tabs s)) as Ht1.
  { unfold truncateJobs in E1. destruct (exec_run (λ _ t, (inr tt, truncated t)) s)
      as (r & s' & E & _ & _ & _ & Hc). rewrite (bind_run _ _ _ _ _ E) in E1.
    cbn in E1. injection E1 as Er <-.
    destruct Hc as [(a & [= _ Ht] & _)|[(_ & _ & e & ->)|(e & t & [=] & _)]]; done. }
  destruct (enqueueLocalFSJobs_run _ _ _ _ _ E2) as [k Eb]. rewrite Ht1 in Eb.
  destruct (bulk_insert_run _ _ _ _ _ _ Hn Eb) as (Hwf & Hsz & Hk).
  destruct (waitAllSucceeded_ok _ _ _ _ _ _ _ Hwf Hall E3) as [[Hev Hd] Hc].
  specialize (Hev Hwf). specialize (Hd Hwf).
  destruct (Hk i Hi) as (j & r & Hj & Hkey).
  assert (is_Some (jobs (tabs s3) !! j)) as [r3 Hj3]
    by (apply elem_of_dom; rewrite Hd; apply elem_of_dom; by exists r).
  destruct (ev_identity _ _ Hev j r r3 Hj Hj3) as (_ & Htr & _ & Hds & _).
  assert (size (jobs (tabs s3)) = size (jobs (tabs s2))) as Hsz3 by (by rewrite <- !size_dom, Hd).
  pose proof (rows_in_all _ _ j r3 ltac:(by rewrite Hsz3, Hsz) Hj3) as Hst.
  pose proof (wf_audit _ (ev_wf _ _ Hev) _ _ Hj3) as Ha.
  pose proof (rw_id _ _ (wf_rows _ (ev_wf _ _ Hev) _ _ Hj3)) as Hid.
  injection Hkey as Ek1 Ek2. exists j, r3. split; [done|]. rewrite Htr, Hds.
  split; [done|]. split; [done|]. split; [done|].
  rewrite <- Hid, (au_success _ _ Ha), Hst. done.
Qed.

(** In every well-formed state [inspectSweeperRecovery] counts exactly the succeeded
    jobs that a sweep took back and that never failed: recovery costs no attempt. *)
Theorem recovered_row_spec t i r :
  wf t → jobs t !! i = Some r →
  recovered_row t r = true ↔
  status r = Succeeded ∧ 0 < n_ev EvExpire i (events t) ∧ n_ev EvFail i (events t) = 0.
Proof.
  intros Hwf Hi. pose proof (wf_audit _ Hwf _ _ Hi) as [_ _ Hde Hat].
  pose proof (rw_id _ _ (wf_rows _ Hwf _ _ Hi)) as Hid. rewrite Hid in *.
  unfold recovered_row. rewrite !andb_true_iff, bool_decide_eq_true, Z.eqb_eq, existsb_exists.
  pose proof (n_ev_nonneg EvFail i (events t)) as Hf0. split.
  - intros [[Hs Ha] (e & He & Hx)]. rewrite Hs in Hde. simpl in Hde. split; [done|]. split; [|lia].
    to_prop. unfold n_ev. apply list_elem_of_In in He.
    enough (countb (is_ev EvExpire i) (events t) ≠ 0%nat) by lia. intros Hz.
    apply (list_elem_of_split) in He as (l1 & l2 & El). rewrite El, countb_app in Hz. simpl in Hz.
    unfold is_ev in Hz at 2. rewrite !bool_decide_true in Hz by congruence. simpl in Hz. lia.
  - intros (Hs & Hx & Hf). rewrite Hs in Hde. simpl in Hde. split; [split; [done|lia]|].
    destruct (decide (Exists (λ e, is_ev EvExpire i e = true) (events t))) as [He|He].
    + apply Exists_exists in He as (e & He & Hm). exists e. split; [by apply list_elem_of_In|].
      unfold is_ev in Hm. to_prop. destruct (wf_fk _ Hwf e He) as (r' & Hr' & Htr).
      rewrite !bool_decide_true; [done|congruence|congruence|]. simplify_eq. congruence.
    + rewrite <- Forall_not_Exists in He || apply not_Exists_Forall in He; [|tc_solve].
      unfold n_ev in Hx. rewrite countb_zero in Hx; [lia|].
      intros e He'. rewrite Forall_forall in He. specialize (He e He'). by apply not_true_is_false.
Qed.

End Facts.

(** The writes of a fixture add up to its size, none is empty or longer than the chunk,
    and a loop of one turn per chunk writes them all. *)
Theorem fixture_writes_total fuel w size :
  size - w <= Z.of_nat fuel * chunk_len →
  foldr Z.add 0 (fixture_writes fuel w size) = Z.max 0 (size - w) ∧
  Forall (λ n, 0 < n <= chunk_len) (fixture_writes fuel w size).
Proof.
  revert w. unfold chunk_len. induction fuel as [|fuel IH]; intros w Hf; cbn [fixture_writes].
  { split; [simpl; lia|constructor]. }
  destruct (w <? size) eqn:Hw; to_prop; [|split; [simpl; lia|constructor]].
  destruct (IH (w + chunk_len)) as [Hs Ha]; unfold chunk_len in *; [lia|].
  destruct (size <? w + 1024 * 1024) eqn:Hl; to_prop; cbn [foldr]; rewrite Hs;
    (split; [lia|constructor; [lia|exact Ha]]).
Qed.

(** Every job of the bulk insert has its fixture: up to 99999 the file a job names below
    the mount of the nodes is the file [seedFixtures] writes below the mount of the host.
    From 100000 on the insert cuts the number, and keys collide. *)
Theorem series_src_seeded prefix i :
  0 <= i <= 99999 →
  ∃ f, js_Src (series_spec prefix i) = "/srv/imgsync" +:+ f ∧ fixture_path i = hostFsRoot +:+ f.
Proof.
  intros Hi. destruct (lpad5_pad5 i Hi) as [E _]. exists ("/src/file-" +:+ pad5 i +:+ ".bin").
  unfold series_spec, fixture_path. simpl. by rewrite E.
Qed.

Lemma series_collision : lpad5 100000 = lpad5 10000 ∧ pad5 100000 ≠ pad5 10000.
Proof. split; [by vm_compute|by vm_compute]. Qed.

(** ** A run *)

(** What the other sessions did until the tick: both jobs succeeded. *)
Definition all_done (s : pg) : pg :=
  with_tabs (foldl (λ t i, match jobs t !! i with
    | Some r => push_event (now (env s)) (trace_id r) i EvSuccess (BObj ∅)
                  (set_jobs (<[i := settle_row Succeeded 0 0 (now (env s)) r]> (jobs t)) t)
    | None => t end) (tabs s) [1; 2]) s.

Example acceptance_runs :
  fst ((_ ← truncateJobs; _ ← enqueueLocalFSJobs "f5a-" 2;
        waitAllSucceeded itoa 2 100 [WTick (λ s, s) 1; WTick all_done 2]) sample_pg) = Ret (Some (inr 2)).
Proof. vm_compute. reflexivity. Qed.
