(* ===== verification/Pipeline.v ===== *)
(** * From the source table to settled jobs

    A sniffer and a worker share the control database and nothing else: polls fill the
    queue, turns of the worker empty it. Put after each other, every row that waited in
    the source ends as a settled job. *)

From S2P Require Import Prelude GoLang ErrDetail GoText Store Transfer Worker Invariant Spec.
From S2P Require Import WorkerFacts Backoff Jobs Samples WorkerProps Loop Sweeper Liveness.
From S2P Require Import BatchSql SourceKeys SnifferQuery Sniffer SnifferProps SnifferRuns SnifferSamples.

Local Open Scope Z_scope.

(** A part of a part. *)
#[export, refine] Instance lens_comp {W S T} (L1 : Lens W S) (L2 : Lens S T) : Lens W T | 100 := {|
  view := λ w, view (view (S := S) w);
  over := λ t w, over (over t (view (S := S) w)) w
|}.
Proof.
  - intros s w. by rewrite view_over, view_over.
  - intros w. by rewrite over_view, over_view.
  - intros s s' w. by rewrite view_over, over_over, over_over.
Defined.

(** ** The work a poll adds *)

Section Added.
Context `{ScanOrder}.

Lemma work_insert ts j t o t' : wf t → insert_spec ts j t = (o, t') → work t' <= work t + 5.
Proof.
  intros Hwf E. destruct (insert_job_cases _ _ _ _ _ _ _ _ _ _ _ E) as [_ [(_ & Hu & _)|(_ & _ & Ej)]].
  - unfold work. destruct (undone_jobs _ _ Hu) as [-> _]. lia.
  - unfold work. rewrite Ej, fold_work_insert.
    + unfold work_row. simpl. lia.
    + destruct (jobs t !! jobs_seq t) as [r|] eqn:Er; [|done]. apply (wf_seq _ Hwf) in Er. lia.
Qed.

Lemma work_insert_all ts specs t n t' :
  wf t → insert_all ts specs t = (n, t') → work t' <= work t + 5 * Z.of_nat (length specs).
Proof.
  revert t n t'. induction specs as [|j specs IH]; intros t n t' Hwf E; cbn in E.
  { simplify_eq. simpl. lia. }
  destruct (insert_spec ts j t) as [o t1] eqn:E1.
  destruct (insert_all ts specs t1) as [m t2] eqn:E2. simplify_eq.
  pose proof (work_insert _ _ _ _ _ Hwf E1).
  assert (wf t1) as Hwf1 by (by apply (insert_spec_evolves _ _ _ _ _ E1)).
  pose proof (IH _ _ _ Hwf1 E2). simpl. lia.
Qed.

Lemma length_omap_le {A B} (f : A → option B) (l : list A) : (length (omap f l) <= length l)%nat.
Proof. induction l as [|x l IH]; [done|]. cbn. destruct (f x); simpl; lia. Qed.

Context `{TemplateEngine} {K : Type} (cfg : Config K).

(** What a poll may add to the work: five attempts for every row of a page. *)
Definition page_work : Z := 5 * Z.of_nat (Z.to_nat (q_BatchSize (c_Query cfg))).

Lemma poll_work ts db t t' n err :
  wf t → poll_effect cfg ts db t t' n err → work t' <= work t + page_work.
Proof.
  intros Hwf Heff.
  assert (∀ xs lst m t1, run_query (c_Query cfg) (watermark (c_SourceID cfg) t) db = inr xs →
    last xs = Some lst → insert_all ts (omap (render_row cfg) xs) t = (m, t1) →
    work t1 <= work t + page_work) as Hpage.
  { intros xs lst m t1 Hq _ Hi. pose proof (work_insert_all _ _ _ _ _ Hwf Hi) as Hw.
    destruct (run_query_inr _ _ _ _ Hq) as (tbl & c & _ & _ & _ & ->).
    pose proof (length_omap_le (render_row cfg) (image (c_Query cfg) tbl <$> window (c_Query cfg) tbl c (src_now db))) as Hl.
    rewrite length_fmap in Hl.
    pose proof (page_length cfg tbl c (src_now db)). unfold page_work. lia. }
  destruct Heff as [t' err Hu|_|xs lst m t1 k err Hq Hl _ Hi _|xs lst m t1 o Hq Hl _ Hi].
  - unfold work. destruct (undone_jobs _ _ Hu) as [-> _]. unfold page_work. lia.
  - unfold page_work. lia.
  - by eapply Hpage.
  - change (work (moved cfg ts lst t1)) with (work t1). by eapply Hpage.
Qed.

Lemma polls_bound k w l w' :
  wf (tabs (ctl w)) → polls cfg k w = (Ret l, w') →
  evolves (tabs (ctl w)) (tabs (ctl w')) ∧
  work (tabs (ctl w')) <= work (tabs (ctl w)) + Z.of_nat k * page_work.
Proof.
  revert w l w'. induction k as [|k IH]; intros w l w' Hwf E; simpl in E.
  { injection E as <- <-. split; [done|lia]. }
  destruct (RunOnce_run cfg w) as (n & err & r & w1 & E1 & _ & _ & _ & _ & _ & Heff).
  unfold mbind at 1, M_bind at 1 in E. rewrite E1 in E. destruct r as [p|v]; [|done].
  unfold mbind, M_bind in E. destruct (polls cfg k w1) as [[l2|v] w2] eqn:E2; [|done].
  injection E as <- <-. pose proof (poll_evolves cfg _ _ _ _ _ _ Heff) as Hev.
  pose proof (poll_work _ _ _ _ _ _ Hwf Heff) as Hw.
  destruct (IH w1 l2 w2 (ev_wf _ _ (Hev Hwf)) E2) as [Hev2 Hw2].
  split; [by etrans|lia].
Qed.

End Added.

(** ** The pipeline *)

Section Pipeline.
Context `{ScanOrder} `{TemplateEngine} {K : Type} `{LK : Lens K Idle} (cfg : Config K).

Local Notation q := (c_Query cfg).

(** The schedule of the worker is in the part of the world the callbacks act on. *)
#[export] Instance sworld_idle : Lens (sworld K) Idle := lens_comp (hooks_lens K) LK.

#[export] Instance sworld_disjoint : Disjoint_lens (ctl_lens K) sworld_idle.
Proof. by intros s w. Qed.

(** A job of the row is settled. *)
Definition row_settled (tbl : source_table) (t : tables) (x : source_row) : Prop :=
  ∀ j, render_row cfg (image q tbl x) = Some j →
  ∃ i row, jobs t !! i = Some row ∧ trace_id row = js_TraceID j ∧ dst row = js_Dst j ∧
    (status row = Succeeded ∨ status row = Skipped ∨ status row = Dead).

(** C16: the whole pipeline makes progress when nothing fails. With a batch size of 1 to
    13107, rendered texts that a TEXT column takes ([healthy]), no job leased at the start,
    workers whose callbacks return and whose sources and transports report no NUL byte, and
    turns that each come late enough for some waiting job to be due ([able]): after as many
    polls as the waiting rows of the source have pages, and then as many turns as there
    are attempts over the jobs of the queue and of those pages, taken by any workers in any
    order, every waiting row the templates can render has a job in the queue that is
    succeeded, skipped or dead. *)
Theorem pipeline_settles k (l : team (W := sworld K)) w tbl :
  healthy cfg w tbl → quiet cfg → 0 < q_BatchSize q <= 13107 → unleased (tabs (ctl w)) →
  (length (pending cfg (tabs (ctl w)) (src_now (source w)) tbl) <= k * Z.to_nat (q_BatchSize q))%nat →
  able l →
  work (tabs (ctl w)) + Z.of_nat k * page_work cfg <= team_size l →
  ∃ w', (_ ← polls cfg k; team_turns l) w = (Ret tt, w') ∧
    ∀ x, x ∈ pending cfg (tabs (ctl w)) (src_now (source w)) tbl →
      row_settled tbl (tabs (ctl w')) x.
Proof.
  intros Hh Hqu Hb Hun Hk Hteam Hlen.
  destruct (polls_run cfg k w tbl Hh Hqu Hb) as (ps & w1 & E1 & _ & Hh1 & _ & Hl & Hq).
  destruct (polls_bound cfg k w ps w1 (he_wf _ _ _ Hh) E1) as [Hev Hw1]. specialize (Hev (he_wf _ _ _ Hh)).
  rewrite (bind_run _ _ _ _ _ E1).
  assert (unleased (tabs (ctl w1))) as Hun1
    by (intros i row Hi Hle; eapply Hun; [by eapply ev_leases|done]).
  destruct (team_turns_drain l w1 Hteam (he_wf _ _ _ Hh1) Hun1)
    as (w2 & E2 & Hwf2 & [Hd2 Hi2] & Hw2). cbn [view ctl_lens] in *.
  exists w2. split; [done|]. intros x Hx j Hj.
  destruct (Hq x Hx) as [Hqd|Hp].
  2: { assert (pending cfg (tabs (ctl w1)) (src_now (source w1)) tbl = []) as Hnil
         by (apply length_zero_iff_nil; lia). rewrite Hnil in Hp. by apply not_elem_of_nil in Hp. }
  destruct (Hqd j Hj) as (i & row & Hi & [= Htr Hds]).
  assert (is_Some (jobs (tabs (ctl w2)) !! i)) as [row' Hi']
    by (apply elem_of_dom; rewrite Hd2; apply elem_of_dom; eauto).
  destruct (Hi2 i row row' Hi Hi') as (_ & Ht' & _ & Hd' & _).
  exists i, row'. split_and!; [done|congruence..|].
  destruct (work_zero _ Hwf2) as [_ Hz]. specialize (Hz ltac:(lia) i row' Hi').
  destruct (status row'); eauto; done.
Qed.

End Pipeline.

(** ** Witnesses *)

(** The sample source, polled in pages of two; a worker whose sources all panic. *)
Definition pipe_cfg : Config Idle := {|
  c_SourceID := "cam"; c_Query := sample_query;
  c_Dst := {| Pattern := "ftp://h/{{.name}}.png"; Shadow := false |};
  c_SrcPattern := "/data/{{.id}}.png"; c_SrcProtocol := "localfs"; c_DstProtocol := "ftp";
  c_OnEnqueue := None; c_OnError := None
|}.

Definition pipe_world : sworld Idle :=
  {| ctl := sample_pg; source := sample_source; hooks := NewIdle sample_idle |}.

Lemma pipe_healthy : healthy pipe_cfg pipe_world images.
Proof.
  split; try done; [exact wf_empty_tables|exact images_wf|]. by apply (texts_ok pipe_cfg images).
Qed.

(** Two polls and twenty turns settle the three rows of the sample. *)
Lemma pipeline_settles_witness : ∃ w',
  (_ ← polls pipe_cfg 2; team_turns (two_workers 10)) pipe_world = (Ret tt, w') ∧
  row_settled pipe_cfg images (tabs (ctl w')) (img_row 9 500 "a").
Proof.
  destruct (pipeline_settles pipe_cfg 2 (two_workers 10) pipe_world images
    pipe_healthy) as (w' & E & Hall).
  - intros f [=].
  - by split; apply Z.leb_le || apply Z.ltb_lt.
  - intros i row Hi. vm_compute in Hi. discriminate Hi.
  - vm_compute. lia.
  - apply two_workers_able.
  - vm_compute. discriminate.
  - exists w'. split; [exact E|]. apply Hall. vm_compute. right. left.
Defined.
