(* ===== verification/Cli.v ===== *)
(** * The sniffer process (internal/cli/sniffer.go, RunSniffer)

    The poll loop around [Sniffer.RunOnce] with the metrics as its callbacks. *)

From S2P Require Import Prelude GoLang ErrDetail GoText Store Transfer Worker Invariant Spec Jobs.
From S2P Require Import Metrics BatchSql SnifferQuery Sniffer SnifferProps SnifferRuns SnifferSamples.
From S2P Require Import Settings.

Local Open Scope Z_scope.

Section Cli.
Context `{ScanOrder} `{TemplateEngine}.

(** The configuration [RunSniffer] builds. *)
Definition sniffer_config (c : SnifferConfig) (queryTimeout : Z) : Config Metrics := {|
  c_SourceID := sc_SourceID c;
  c_Query := {| q_Table := sc_Table c; q_PKColumn := sc_PKColumn c; q_TSColumn := sc_TSColumn c;
                q_ExtraColumns := sc_ExtraColumns c; q_BatchSize := sc_BatchSize c;
                q_BiasDuration := sc_BiasDuration c; q_QueryTimeout := queryTimeout |};
  c_Dst := {| Pattern := sc_DstPattern c; Shadow := sc_Shadow c |};
  c_SrcPattern := sc_SrcPattern c;
  c_SrcProtocol := sc_SrcProtocol c;
  c_DstProtocol := sc_DstProtocol c;
  c_OnEnqueue := Some OnSnifferEnqueue;
  c_OnError := Some OnSnifferError
|}.

(** One poll of the loop at clock [now]: an error is logged and that is all. *)
Definition poll_once (cfg : Config Metrics) (now : Z) : M (sworld Metrics) (Z * option error) :=
  p ← RunOnce cfg;
  match p with
  | (n, Some err) => mret (n, Some err)
  | (n, None) =>
      _ ← zoom (S := Metrics) (action (λ m, (Ret tt, OnSnifferRun now (c_SourceID cfg) m)));
      mret (n, None)
  end.

(** What the select sees: the context is done, or the ticker fired; the world may have
    changed in between, but not the metrics. *)
Inductive loop_event :=
| LDone
| LTick (now : Z) (ctl' : pg → pg) (source' : srcdb → srcdb).

Definition between (f : pg → pg) (g : srcdb → srcdb) (w : sworld Metrics) : sworld Metrics :=
  {| ctl := f (ctl w); source := g (source w); hooks := hooks w |}.

(** The polls of the loop, and whether it returned (with a nil error). *)
Fixpoint sniffer_loop (cfg : Config Metrics) (evs : list loop_event)
    : M (sworld Metrics) (list (Z * option error) * bool) :=
  match evs with
  | [] => mret ([], false)
  | LDone :: _ => mret ([], true)
  | LTick now f g :: evs' =>
      _ ← action (λ w, (Ret tt, between f g w));
      p ← poll_once cfg now;
      r ← sniffer_loop cfg evs';
      mret (p :: fst r, snd r)
  end.

(** [RunSniffer], after the DSNs, the listener and the ping were tried in this order;
    [time.NewTicker] panics on a period that is not positive. *)
Definition RunSniffer (c : SnifferConfig) (source_pool : error + Z * Z) (imgsync_err listen_err : option error)
    (now0 : Z) (evs : list loop_event) : M (sworld Metrics) (error + list (Z * option error) * bool) :=
  match source_pool with
  | inl err => mret (inl (wrapf "source pool: " err))
  | inr (_, timeout) =>
      match imgsync_err, listen_err with
      | Some err, _ => mret (inl (wrapf "imgsync pool: " err))
      | None, Some err => mret (inl (wrapf "sniffer health listen: " err))
      | None, None =>
          let cfg := sniffer_config c timeout in
          if duration (sc_IntervalSec c) Second <=? 0 then panic "non-positive interval for NewTicker" else
          p ← poll_once cfg now0;
          r ← sniffer_loop cfg evs;
          mret (inr (p :: fst r, snd r))
      end
  end.

(** ** Lemmas *)

Lemma insert_all_nonneg ts specs t : 0 <= (insert_all ts specs t).1.
Proof.
  revert t. induction specs as [|j specs IH]; intros t; cbn [insert_all]; [done|].
  destruct (insert_spec ts j t) as [o t1]. specialize (IH t1).
  destruct (insert_all ts specs t1) as [n t2]. simpl in *. destruct o; lia.
Qed.

Lemma poll_count_nonneg {K} (cfg : Config K) ts db t t' n err :
  poll_effect cfg ts db t t' n err → 0 <= n.
Proof.
  destruct 1 as [| |xs lst n t1 m err _ _ _ Hi Hm|xs lst n t1 o _ _ _ Hi]; try lia;
    pose proof (insert_all_nonneg ts (omap (render_row cfg) xs) t) as Hn; rewrite Hi in Hn; simpl in Hn; lia.
Qed.

(** The counters of the loop. *)
Definition failures (l : list (Z * option error)) : Z :=
  Z.of_nat (countb (λ p, match p.2 with Some _ => true | None => false end) l).

Definition enqueued_total (l : list (Z * option error)) : Z :=
  foldr (λ p acc, match p.2 with Some _ => acc | None => p.1 + acc end) 0 l.

(** One poll always returns, and moves exactly the counters of its source. *)
Lemma poll_once_run c timeout now w : ∃ p w',
  poll_once (sniffer_config c timeout) now w = (Ret p, w') ∧
  default 0 (snifferErr (hooks w') !! sc_SourceID c)
    = default 0 (snifferErr (hooks w) !! sc_SourceID c) + failures [p] ∧
  default 0 (snifferEnq (hooks w') !! sc_SourceID c)
    = default 0 (snifferEnq (hooks w) !! sc_SourceID c) + enqueued_total [p].
Proof.
  set (cfg := sniffer_config c timeout).
  destruct (runOnceImpl_run cfg w) as (n & err & w1 & E & _ & _ & _ & _ & Hh & Heff).
  pose proof (poll_count_nonneg _ _ _ _ _ _ _ Heff) as Hn.
  unfold poll_once, RunOnce, mbind, M_bind. rewrite E.
  destruct err as [err|]; cbn -[counter_inc counter_add failures enqueued_total].
  - eexists (n, Some err), _. split; [done|]. cbn. rewrite Hh. unfold counter_inc.
    rewrite lookup_insert_eq. cbn. unfold failures, enqueued_total; cbn. split; lia.
  - unfold OnSnifferEnqueue, counter_add. rewrite (proj2 (Z.ltb_ge n 0)) by done.
    eexists (n, None), _. split; [done|]. cbn. rewrite Hh, lookup_insert_eq. unfold failures, enqueued_total. cbn. split; lia.
Qed.

Lemma failures_cons p l : failures (p :: l) = failures [p] + failures l.
Proof. unfold failures. cbn. lia. Qed.

Lemma enqueued_cons p l : enqueued_total (p :: l) = enqueued_total [p] + enqueued_total l.
Proof. unfold enqueued_total. cbn. destruct (p.2); lia. Qed.

(** The number of ticks before the context is done. *)
Fixpoint ticks (evs : list loop_event) : nat :=
  match evs with
  | LTick _ _ _ :: evs' => S (ticks evs')
  | _ => O
  end.

Definition is_done (ev : loop_event) : bool := match ev with LDone => true | LTick _ _ _ => false end.

Lemma sniffer_loop_run c timeout evs w : ∃ l w',
  sniffer_loop (sniffer_config c timeout) evs w = (Ret (l, existsb is_done evs), w') ∧ length l = ticks evs ∧
  default 0 (snifferErr (hooks w') !! sc_SourceID c)
    = default 0 (snifferErr (hooks w) !! sc_SourceID c) + failures l ∧
  default 0 (snifferEnq (hooks w') !! sc_SourceID c)
    = default 0 (snifferEnq (hooks w) !! sc_SourceID c) + enqueued_total l.
Proof.
  revert w. induction evs as [|[|now f g] evs IH]; intros w; cbn [sniffer_loop].
  - eexists [], w. split; [done|]. split; [done|]. unfold failures, enqueued_total. cbn. split; lia.
  - eexists [], w. split; [done|]. split; [done|]. unfold failures, enqueued_total. cbn. split; lia.
  - destruct (poll_once_run c timeout now (between f g w)) as (p & w1 & E1 & He1 & Hq1).
    destruct (IH w1) as (l & w2 & E2 & Hl & He2 & Hq2).
    exists (p :: l), w2. split.
    { unfold action. unfold mbind at 1, M_bind at 1. cbv beta iota. run_bind E1. by run_bind E2. }
    split; [cbn; by rewrite Hl|].
    rewrite (failures_cons p l), (enqueued_cons p l). cbn [between hooks] in *. split; lia.
Qed.

(** ** Properties *)

(** C31: once its pools and its listener are up, the sniffer process keeps polling: a
    poll that fails, in any way, never ends the loop and no metrics callback panics;
    it polls once at the start and once per tick, returns exactly when the context is
    done, and its counters agree with the polls: one error per failed poll, and the
    rows of the successful ones. *)
Theorem RunSniffer_keeps_polling c nconns timeout now0 evs w :
  0 < sc_IntervalSec c <= 9223372036 → ∃ l w',
    RunSniffer c (inr (nconns, timeout)) None None now0 evs w = (Ret (inr (l, existsb is_done evs)), w') ∧
    length l = S (ticks evs) ∧
    default 0 (snifferErr (hooks w') !! sc_SourceID c)
      = default 0 (snifferErr (hooks w) !! sc_SourceID c) + failures l ∧
    default 0 (snifferEnq (hooks w') !! sc_SourceID c)
      = default 0 (snifferEnq (hooks w) !! sc_SourceID c) + enqueued_total l.
Proof.
  intros Hi. unfold RunSniffer.
  assert (duration (sc_IntervalSec c) Second <=? 0 = false) as ->.
  { apply Z.leb_gt. unfold duration, int64_wrap, Second. rewrite Z.mod_small by lia. lia. }
  destruct (poll_once_run c timeout now0 w) as (p & w1 & E1 & He1 & Hq1).
  destruct (sniffer_loop_run c timeout evs w1) as (l & w2 & E2 & Hl & He2 & Hq2).
  exists (p :: l), w2. split; [cbv zeta; run_bind E1; by run_bind E2|]. split; [cbn; by rewrite Hl|].
  rewrite (failures_cons p l), (enqueued_cons p l). split; lia.
Qed.

End Cli.

(** ** Witness *)

Definition sample_sniffer : SnifferConfig := {|
  sc_SourceID := "cam"; sc_SourceDSN := "src"; sc_ImgsyncDSN := "ctl"; sc_Table := "images";
  sc_PKColumn := "id"; sc_TSColumn := "updated_at"; sc_ExtraColumns := ["name"%string];
  sc_DstPattern := "ftp://h/{{.name}}.png"; sc_SrcPattern := "/data/{{.id}}.png";
  sc_SrcProtocol := "localfs"; sc_DstProtocol := "ftp"; sc_Shadow := false; sc_BatchSize := 2;
  sc_BiasDuration := 0; sc_IntervalSec := 60
|}.

Definition sample_metrics_world : sworld Metrics :=
  {| ctl := sample_pg; source := sample_source; hooks := New |}.

(** The second poll loses its request; the third finishes the page. *)
Definition sample_ticks : list loop_event :=
  [LTick 60 (λ s, {| env := env s; tabs := tabs s; tx := tx s;
                     script := [FLost (ESentinel ContextDeadlineExceeded)] |}) (λ s, s);
   LTick 120 (λ s, s) (λ s, s); LDone].

Lemma RunSniffer_keeps_polling_witness : ∃ l w',
  RunSniffer sample_sniffer (inr (4, 30 * Second)) None None 0 sample_ticks sample_metrics_world
    = (Ret (inr (l, true)), w') ∧
  length l = 3%nat ∧ default 0 (snifferErr (hooks w') !! "cam"%string) = failures l ∧
  (snifferEnq (hooks w') !! "cam"%string) = Some 3.
Proof.
  destruct (RunSniffer_keeps_polling sample_sniffer 4 (30 * Second) 0 sample_ticks sample_metrics_world)
    as (l & w' & E & Hl & He & _); [split; by vm_compute|].
  exists l, w'. split; [exact E|]. split; [exact Hl|]. split; [exact He|].
  apply (f_equal (λ p, snifferEnq (hooks p.2) !! "cam"%string)) in E. simpl in E. rewrite <- E.
  vm_compute. reflexivity.
Defined.
