(* ===== verification/Migrate.v ===== *)
(** * Schema migrations (internal/db/migrate.go)

    [ApplyMigrations] over any database whose migration files behave the way the
    [.up.sql] files of migrations/ do: each runs in one transaction and records its own
    version. Nothing is asked of the other files of the directory. *)

From Stdlib Require Import Ascii.
From stdpp Require Import sorting.
From S2P Require Import Prelude GoLang.

(** An entry of the directory; reading its file may fail. *)
Record dirent := { d_Name : string; d_IsDir : bool; d_Body : error + string }.

Definition migration_file (d : dirent) : bool := negb (d_IsDir d) && has_suffix (d_Name d) ".up.sql".

(** [sort.Strings]: byte order. *)
Definition string_le (a b : string) : Prop := String.leb a b = true.

#[export] Instance string_le_dec a b : Decision (string_le a b).
Proof. unfold string_le. apply _. Defined.

#[export] Instance string_le_total : Total string_le.
Proof. intros a b. unfold string_le. destruct (String.leb_total a b); auto. Qed.

Definition name_le (d1 d2 : dirent) : Prop := string_le (d_Name d1) (d_Name d2).

#[export] Instance name_le_dec d1 d2 : Decision (name_le d1 d2).
Proof. unfold name_le. apply _. Defined.

#[export] Instance name_le_total : Total name_le.
Proof. intros d1 d2. unfold name_le. apply string_le_total. Qed.

Definition version (d : dirent) : string := trim_suffix (d_Name d) ".up.sql".

(** The files to consider, in the order they are run. *)
Definition migrations (entries : list dirent) : list dirent :=
  merge_sort name_le (filter (λ d, migration_file d = true) entries).

(** How the steps before the loop went. *)
Record migrate_env := {
  readdir : error + list dirent;
  connect_err : option error;
  lock_err : option error;
  table_err : option error;
  versions_err : option error;
  scan_err : option error;
}.

Section Migrate.
(** The database: the versions in schema_migrations ([None]: the table does not exist),
    and what running a file does to it. *)
Context {S : Type} (versions : S → option (gset string)) (run_sql : string → S → option error * S).

(** The loop: what it returns, the database, and the files it ran. *)
Fixpoint apply_files (applied : gset string) (files : list dirent) (s : S)
    : option error * S * list dirent :=
  match files with
  | [] => (None, s, [])
  | d :: files' =>
      if bool_decide (version d ∈ applied) then apply_files applied files' s else
      match d_Body d with
      | inl err => (Some (wrapf ("read " +:+ d_Name d +:+ ": ") err), s, [])
      | inr body =>
          match run_sql body s with
          | (Some err, s') => (Some (wrapf ("apply " +:+ d_Name d +:+ ": ") err), s', [d])
          | (None, s') =>
              let '(r, s'', ran) := apply_files applied files' s' in (r, s'', d :: ran)
          end
      end
  end.

(** [hasTable(ctx, conn, schema_migrations)]. *)
Definition hasTable (e : migrate_env) (s : S) : error + bool :=
  match table_err e with
  | Some err => inl err
  | None => inr (bool_decide (is_Some (versions s)))
  end.

Definition ApplyMigrations (e : migrate_env) (s : S) : option error * S * list dirent :=
  match readdir e with
  | inl err => (Some (wrapf "read migrations dir: " err), s, [])
  | inr entries =>
      match connect_err e, lock_err e, hasTable e s with
      | Some err, _, _ => (Some (wrapf "connect: " err), s, [])
      | _, Some err, _ => (Some (wrapf "acquire migration advisory lock: " err), s, [])
      | _, _, inl err => (Some (wrapf "check schema_migrations existence: " err), s, [])
      | None, None, inr exists_ =>
          let v := if exists_ : bool then versions s else None in
          match v, versions_err e, scan_err e with
          | Some _, Some err, _ => (Some (wrapf "read schema_migrations: " err), s, [])
          | Some _, None, Some err => (Some err, s, [])
          | _, _, _ => apply_files (default ∅ v) (migrations entries) s
          end
      end
  end.

(** The convention of the [.up.sql] files of migrations/: a file that runs records its
    version in the same transaction. When the call fails, the transaction left the
    database as it was, or it committed and only the reply was lost. *)
Definition self_registering (entries : list dirent) : Prop :=
  ∀ d body s o s', d ∈ entries → migration_file d = true → d_Body d = inr body →
    run_sql body s = (o, s') →
    (is_Some o ∧ s' = s) ∨ versions s' = Some ({[version d]} ∪ default ∅ (versions s)).

(** ** Lemmas *)

Definition todo (applied : gset string) (files : list dirent) : list dirent :=
  filter (λ d, version d ∉ applied) files.

Lemma elem_of_migrations entries d : d ∈ migrations entries ↔ migration_file d = true ∧ d ∈ entries.
Proof. unfold migrations. by rewrite merge_sort_Permutation, list_elem_of_filter. Qed.

(** The loop runs the files that are not recorded, in order, up to the first that
    fails; what ran before is recorded, and of the one that failed nothing or all. *)
Lemma apply_files_run entries applied files s r s' ran :
  self_registering entries → (∀ d, d ∈ files → migration_file d = true ∧ d ∈ entries) →
  apply_files applied files s = (r, s', ran) →
  ∃ done rest, todo applied files = done ++ rest ∧
    (r = None → rest = [] ∧ ran = done) ∧
    (∀ err, r = Some err → ran = done ∨ ∃ d rest', rest = d :: rest' ∧ ran = done ++ [d]) ∧
    default ∅ (versions s') = list_to_set (version <$> done) ∪ default ∅ (versions s) ∧
    (done = [] → s' = s).
Proof.
  intros Hreg. revert s r s' ran. induction files as [|d files IH]; intros s r s' ran Hin E; simpl in E.
  { simplify_eq. exists [], []. split_and!; try done. set_solver. }
  assert (∀ d, d ∈ files → migration_file d = true ∧ d ∈ entries) as Hin' by (intros; apply Hin; by right).
  destruct (Hin d) as [Hm Hd]; [left|].
  unfold todo. rewrite filter_cons. case_bool_decide as Hv.
  { rewrite decide_False by (by intros ?). by apply IH. }
  rewrite decide_True by done. fold (todo applied files).
  destruct (d_Body d) as [err|body] eqn:Eb.
  { simplify_eq. exists [], (d :: todo applied files). split_and!; try done; [|set_solver].
    intros ? _. by left. }
  destruct (run_sql body s) as [[err|] s1] eqn:Er;
    destruct (Hreg _ _ _ _ _ Hd Hm Eb Er) as [[Ho ->]|Hs1]; try (by destruct Ho).
  { simplify_eq. exists [], (d :: todo applied files). split_and!; try done; [|set_solver].
    intros ? _. right. by eexists _, _. }
  { simplify_eq. exists [d], (todo applied files). split_and!; try done; [by left|].
    rewrite Hs1. simpl. set_solver. }
  destruct (apply_files applied files s1) as [[r1 s2] ran1] eqn:Ea. simplify_eq.
  destruct (IH _ _ _ _ Hin' Ea) as (done & rest & Ht & Hok & Herr & Hver & _).
  exists (d :: done), rest. split_and!; [by rewrite Ht|..].
  - intros Hr. destruct (Hok Hr) as [-> ->]. done.
  - intros err Hr. destruct (Herr err Hr) as [->|(d' & rest' & -> & ->)]; eauto.
  - rewrite Hver, Hs1. simpl. set_solver.
  - done.
Qed.

Lemma todo_done applied (l : list dirent) :
  (∀ d, d ∈ l → version d ∈ applied) → todo applied l = [].
Proof.
  intros Hall. unfold todo.
  induction l as [|d l IH]; [done|]. rewrite filter_cons, decide_False.
  - apply IH. intros; apply Hall; by right.
  - intros Hn. apply Hn, Hall. left.
Qed.

Lemma apply_files_nothing applied files s : todo applied files = [] → apply_files applied files s = (None, s, []).
Proof.
  induction files as [|d files IH]; [done|]. unfold todo. rewrite filter_cons. simpl.
  case_bool_decide as Hv.
  - rewrite decide_False by (by intros ?). apply IH.
  - by rewrite decide_True.
Qed.

Lemma todo_elem applied (l : list dirent) d : d ∈ todo applied l ↔ (version d ∉ applied) ∧ d ∈ l.
Proof. unfold todo. by rewrite list_elem_of_filter. Qed.

(** A call that got as far as the loop. *)
Definition clean (e : migrate_env) : Prop :=
  connect_err e = None ∧ lock_err e = None ∧ table_err e = None ∧ versions_err e = None ∧ scan_err e = None.

Lemma ApplyMigrations_cases e entries s r s' ran :
  readdir e = inr entries → ApplyMigrations e s = (r, s', ran) →
  (is_Some r ∧ s' = s ∧ ran = [])
  ∨ apply_files (default ∅ (versions s)) (migrations entries) s = (r, s', ran).
Proof.
  intros He E. unfold ApplyMigrations, hasTable in E. rewrite He in E.
  destruct (connect_err e), (lock_err e), (table_err e); simplify_eq; try (left; by eauto).
  cbv zeta in E. destruct (versions s), (versions_err e), (scan_err e); simplify_eq/=; eauto.
Qed.

(** ** Properties *)

(** C32: [ApplyMigrations], over a directory whose [.up.sql] files each record their own
    version in their transaction (whatever else the directory holds), runs only [.up.sql]
    files whose version is not recorded, in lexical order, stops at the first that fails,
    and never forgets a version; what it ran is recorded, but for the file that failed,
    which may or may not have committed, and nothing else is, so a call that failed can
    be repeated; when it succeeds it ran all of them and every version is recorded. *)
Theorem ApplyMigrations_spec e entries s r s' ran :
  readdir e = inr entries → self_registering entries → ApplyMigrations e s = (r, s', ran) →
  Sorted name_le (migrations entries) ∧
  (∃ rest, todo (default ∅ (versions s)) (migrations entries) = ran ++ rest) ∧
  (∀ d, d ∈ ran → version d ∈ default ∅ (versions s') ∨ (last ran = Some d ∧ is_Some r)) ∧
  (∀ d, d ∈ ran → migration_file d = true ∧ d ∈ entries ∧ version d ∉ default ∅ (versions s)) ∧
  default ∅ (versions s) ⊆ default ∅ (versions s') ∧
  default ∅ (versions s') ⊆ default ∅ (versions s) ∪ list_to_set (version <$> ran) ∧
  (r = None → ran = todo (default ∅ (versions s)) (migrations entries) ∧
     ∀ d, d ∈ entries → migration_file d = true → version d ∈ default ∅ (versions s')).
Proof.
  intros He Hreg E. split; [apply Sorted_merge_sort; apply _|].
  destruct (ApplyMigrations_cases _ _ _ _ _ _ He E) as [([err ->] & -> & ->)|Ea].
  { split_and!; [by eexists|by intros ? ?%not_elem_of_nil|by intros ? ?%not_elem_of_nil|done|set_solver|done]. }
  assert (∀ d, d ∈ migrations entries → migration_file d = true ∧ d ∈ entries) as Hin
    by (intros d; apply elem_of_migrations).
  destruct (apply_files_run _ _ _ _ _ _ _ Hreg Hin Ea) as (done & rest & Ht & Hok & Herr & Hver & _).
  assert (∃ rest, todo (default ∅ (versions s)) (migrations entries) = ran ++ rest) as Hpre.
  { destruct r as [err|].
    - destruct (Herr err eq_refl) as [->|(d & rest' & -> & ->)]; [by exists rest|].
      exists rest'. rewrite Ht. by rewrite <- (assoc (++)).
    - destruct (Hok eq_refl) as [-> ->]. by exists []. }
  assert (∀ d, d ∈ done → d ∈ ran) as Hsub.
  { intros d Hd. destruct r as [err|]; [|by destruct (Hok eq_refl) as [_ ->]].
    destruct (Herr err eq_refl) as [->|(d' & rest' & -> & ->)]; [done|]. apply elem_of_app. by left. }
  split; [done|]. split_and!.
  - assert (∀ d, d ∈ done → version d ∈ (default ∅ (versions s'))) as Hrec.
    { intros d Hd. rewrite Hver. apply elem_of_union. left.
      by apply elem_of_list_to_set, list_elem_of_fmap_2. }
    intros d Hd. destruct r as [err|]; [|destruct (Hok eq_refl) as [_ ->]; auto].
    destruct (Herr err eq_refl) as [->|(d' & rest' & -> & ->)]; [by auto|].
    apply elem_of_app in Hd as [Hd|Hd%list_elem_of_singleton]; [by auto|right].
    subst d'. by rewrite last_snoc.
  - intros d Hd. destruct Hpre as [rest' Hp].
    assert (d ∈ todo (default ∅ (versions s)) (migrations entries)) as Hdt
      by (rewrite Hp; apply elem_of_app; by left).
    apply todo_elem in Hdt as [Hn Hm]. apply elem_of_migrations in Hm as [? ?]. done.
  - rewrite Hver. set_solver.
  - rewrite Hver. intros v [Hv|Hv]%elem_of_union; [|by apply elem_of_union_l]. apply elem_of_union_r.
    apply elem_of_list_to_set, list_elem_of_fmap in Hv as (d & -> & Hd).
    by apply elem_of_list_to_set, list_elem_of_fmap_2, Hsub.
  - intros ->. destruct (Hok eq_refl) as [-> ->]. rewrite app_nil_r in Ht. split; [done|].
    intros d Hd Hm. rewrite Hver. apply elem_of_union.
    destruct (decide (version d ∈ (default ∅ (versions s)))) as [?|Hn]; [by right|left].
    apply elem_of_list_to_set, list_elem_of_fmap_2. rewrite <- Ht. apply todo_elem.
    split; [done|]. by apply elem_of_migrations.
Qed.

(** Migrating is idempotent: after a call that succeeded, another one on the same
    directory runs nothing, changes nothing and succeeds. *)
Theorem ApplyMigrations_idempotent e e' entries s s' ran :
  readdir e = inr entries → readdir e' = inr entries → clean e' → self_registering entries →
  ApplyMigrations e s = (None, s', ran) →
  ApplyMigrations e' s' = (None, s', []).
Proof.
  intros He He' (H1 & H2 & H3 & H4 & H5) Hreg E.
  destruct (ApplyMigrations_cases _ _ _ _ _ _ He E) as [([? ?] & _)|Ea]; [done|].
  assert (∀ d, d ∈ migrations entries → migration_file d = true ∧ d ∈ entries) as Hin
    by (intros d; apply elem_of_migrations).
  destruct (apply_files_run _ _ _ _ _ _ _ Hreg Hin Ea) as (done & rest & Ht & Hok & _ & Hver & _).
  destruct (Hok eq_refl) as [-> ->]. rewrite app_nil_r in Ht.
  unfold ApplyMigrations, hasTable. rewrite He', H1, H2, H3, H4, H5.
  assert (apply_files (default ∅ (versions s')) (migrations entries) s' = (None, s', [])) as Hn.
  { apply apply_files_nothing, todo_done. intros d Hd. rewrite Hver. apply elem_of_union.
    destruct (decide (version d ∈ (default ∅ (versions s)))) as [?|Hne]; [by right|left].
    apply elem_of_list_to_set, list_elem_of_fmap_2. rewrite <- Ht. by apply todo_elem. }
  by destruct (versions s').
Qed.

End Migrate.

(** ** Witnesses *)

(** A database that only knows its versions: a text records the version it names, or
    forgets it when it starts with a minus; the reply to one that starts with a question
    mark is lost after the commit. *)
Definition toy_versions (s : option (gset string)) : option (gset string) := s.

Definition toy_sql (body : string) (s : option (gset string)) : option error * option (gset string) :=
  match body with
  | String a v =>
      if Ascii.eqb a "-" then (None, Some (default ∅ s ∖ {[v]}))
      else if Ascii.eqb a "?" then (Some (EOpaque "connection reset"), Some ({[v]} ∪ default ∅ s))
      else (None, Some ({[body]} ∪ default ∅ s))
  | EmptyString => (Some (EOpaque "empty query"), s)
  end.

Definition toy_file (name body : string) : dirent := {| d_Name := name; d_IsDir := false; d_Body := inr body |}.

Definition toy_dir : list dirent :=
  [toy_file "0002_b.up.sql" "0002_b"; toy_file "0002_b.down.sql" "-0002_b";
   toy_file "0001_a.up.sql" "0001_a"; toy_file "README.md" "see docs"].

(** The same files as a session sees them whose reply to the second one is lost. *)
Definition lossy_dir : list dirent :=
  [toy_file "0002_b.up.sql" "?0002_b"; toy_file "0002_b.down.sql" "-0002_b";
   toy_file "0001_a.up.sql" "0001_a"; toy_file "README.md" "see docs"].

Definition toy_migrate : migrate_env := {|
  readdir := inr toy_dir; connect_err := None; lock_err := None; table_err := None; versions_err := None;
  scan_err := None
|}.

Lemma toy_self_registering : self_registering toy_versions toy_sql toy_dir.
Proof.
  intros d body s o s' Hd Hm Hb E. right. unfold toy_versions.
  repeat (apply elem_of_cons in Hd as [->|Hd];
    [first [discriminate Hm | injection Hb as <-; simpl in E; by injection E as _ <-]|]).
  by apply not_elem_of_nil in Hd.
Qed.

Lemma lossy_self_registering : self_registering toy_versions toy_sql lossy_dir.
Proof.
  intros d body s o s' Hd Hm Hb E. right. unfold toy_versions.
  repeat (apply elem_of_cons in Hd as [->|Hd];
    [first [discriminate Hm | injection Hb as <-; simpl in E; by injection E as _ <-]|]).
  by apply not_elem_of_nil in Hd.
Qed.

Definition toy_run := ApplyMigrations toy_versions toy_sql toy_migrate None.

Lemma toy_run_ok : toy_run = (None, snd (fst toy_run), snd toy_run).
Proof.
  assert (fst (fst toy_run) = None) as E by (vm_compute; reflexivity).
  destruct toy_run as [[r s'] ran]. simpl in *. by subst r.
Qed.

Lemma ApplyMigrations_spec_witness :
  d_Name <$> snd toy_run = ["0001_a.up.sql"; "0002_b.up.sql"]%string ∧
  ∃ rest, todo ∅ (migrations toy_dir) = snd toy_run ++ rest.
Proof.
  split; [vm_compute; reflexivity|].
  exact (proj1 (proj2 (ApplyMigrations_spec _ _ toy_migrate toy_dir _ _ _ _ eq_refl
    toy_self_registering toy_run_ok))).
Defined.

Lemma ApplyMigrations_idempotent_witness :
  ApplyMigrations toy_versions toy_sql toy_migrate (snd (fst toy_run)) = (None, snd (fst toy_run), []).
Proof.
  apply (ApplyMigrations_idempotent _ _ toy_migrate toy_migrate toy_dir None _ (snd toy_run));
    [reflexivity..|by split_and!|exact toy_self_registering|exact toy_run_ok].
Defined.
