(* ===== verification/MigrateRuns.v ===== *)
(** * Concurrent migration runs (internal/db/migrate.go)

    Every pod of a deployment may run [imgsync migrate]. The runs as sessions of one
    database: the session-level advisory lock, the reading of schema_migrations under it,
    and the files one statement at a time; a session that loses its connection loses the
    lock with it. The directories may differ from pod to pod. *)

From stdpp Require Import sorting.
From S2P Require Import Prelude GoLang Migrate.

Section Runs.
Context {S : Type} (versions : S → option (gset string)) (run_sql : string → S → option error * S).

(** Where a session is: waiting for the lock, holding it, in the loop with the versions
    it read and the files left, or over. *)
Inductive mpc :=
| MWait
| MLocked
| MRun (applied : gset string) (left : list dirent)
| MOver (r : option error).

(** The database, who holds the lock, the sessions, and the files that ran. *)
Record msys := MSys { m_db : S; m_lock : option nat; m_pc : gmap nat mpc; m_log : list (nat * dirent) }.

Definition goto (i : nat) (pc : mpc) (c : msys) : msys :=
  MSys (m_db c) (m_lock c) (<[i := pc]> (m_pc c)) (m_log c).

(** The session ends; the lock goes with its connection. *)
Definition over_with (i : nat) (r : option error) (c : msys) : msys :=
  MSys (m_db c) (if decide (m_lock c = Some i) then None else m_lock c) (<[i := MOver r]> (m_pc c)) (m_log c).

Definition recorded (s : S) : gset string := default ∅ (versions s).

(** A file went to the server, which is now in the state [s']; the log has the files that
    committed. *)
Definition ran_file (i : nat) (d : dirent) (pc : mpc) (s' : S) (c : msys) : msys :=
  MSys s' (m_lock c) (<[i := pc]> (m_pc c))
    (if decide (version d ∈ recorded s') then m_log c ++ [(i, d)] else m_log c).

Context (dirs : nat → list dirent).

Inductive mstep (c : msys) : msys → Prop :=
| ms_start i : m_pc c !! i = None → mstep c (goto i MWait c)
| ms_lock i : m_pc c !! i = Some MWait → m_lock c = None →
    mstep c (MSys (m_db c) (Some i) (<[i := MLocked]> (m_pc c)) (m_log c))
| ms_read i : m_pc c !! i = Some MLocked →
    mstep c (goto i (MRun (default ∅ (versions (m_db c))) (migrations (dirs i))) c)
| ms_skip i applied d files : m_pc c !! i = Some (MRun applied (d :: files)) → version d ∈ applied →
    mstep c (goto i (MRun applied files) c)
| ms_file i applied d files body s' : m_pc c !! i = Some (MRun applied (d :: files)) →
    version d ∉ applied → d_Body d = inr body → run_sql body (m_db c) = (None, s') →
    mstep c (ran_file i d (MRun applied files) s' c)
| ms_fail i applied d files body err s' : m_pc c !! i = Some (MRun applied (d :: files)) →
    version d ∉ applied → d_Body d = inr body → run_sql body (m_db c) = (Some err, s') →
    mstep c (over_with i (Some (wrapf ("apply " +:+ d_Name d +:+ ": ") err)) (ran_file i d (MRun applied files) s' c))
| ms_unreadable i applied d files err : m_pc c !! i = Some (MRun applied (d :: files)) →
    version d ∉ applied → d_Body d = inl err →
    mstep c (over_with i (Some (wrapf ("read " +:+ d_Name d +:+ ": ") err)) c)
| ms_done i applied : m_pc c !! i = Some (MRun applied []) → mstep c (over_with i None c)
(** The connection is lost, or a query before the loop fails. *)
| ms_lost i pc err : m_pc c !! i = Some pc → mstep c (over_with i (Some err) c).

Definition m_start (s : S) : msys := MSys s None ∅ [].

(** ** The invariant *)

Definition log_versions (c : msys) : list string := (λ x, version x.2) <$> m_log c.

(** What a session in the loop knows: no file it still has to run is recorded. *)
Record in_loop (i : nat) (applied : gset string) (files : list dirent) (s : S) : Prop := {
  il_sub : applied ⊆ recorded s;
  il_left : ∀ d, d ∈ files → (migration_file d = true ∧ d ∈ dirs i) ∧
    (version d ∉ applied → version d ∉ recorded s);
  il_nodup : NoDup (version <$> files);
  il_seen : ∀ d, d ∈ dirs i → migration_file d = true → d ∈ files ∨ version d ∈ recorded s;
}.

Record msys_inv (s0 : S) (c : msys) : Prop := {
  mi_lock : ∀ i pc, m_pc c !! i = Some pc →
    match pc with MLocked | MRun _ _ => m_lock c = Some i | _ => m_lock c ≠ Some i end;
  mi_pc : ∀ i, m_lock c = Some i → is_Some (m_pc c !! i);
  mi_loop : ∀ i applied files, m_pc c !! i = Some (MRun applied files) → in_loop i applied files (m_db c);
  mi_over : ∀ i, m_pc c !! i = Some (MOver None) →
    ∀ d, d ∈ dirs i → migration_file d = true → version d ∈ recorded (m_db c);
  mi_log : ∀ i d, (i, d) ∈ m_log c → migration_file d = true ∧ d ∈ dirs i ∧ version d ∉ recorded s0;
  mi_nodup : NoDup (log_versions c);
  mi_recorded : recorded (m_db c) = recorded s0 ∪ list_to_set (log_versions c);
}.

(** Each directory has a file name once, and its [.up.sql] files register themselves. *)
Context (Hdirs : ∀ i, NoDup (version <$> migrations (dirs i)))
  (Hreg : ∀ i, self_registering versions run_sql (dirs i)).

Lemma pc_lookup c i pc j pc' : <[i := pc]> (m_pc c) !! j = Some pc' →
  (j = i ∧ pc' = pc) ∨ (j ≠ i ∧ m_pc c !! j = Some pc').
Proof. rewrite lookup_insert_Some. naive_solver. Qed.

(** A step that leaves the database alone and moves one session. *)
Lemma goto_inv s0 c i pc0 pc :
  msys_inv s0 c → m_pc c !! i = Some pc0 →
  match pc0, pc with
  | MLocked, MRun _ _ | MRun _ _, MRun _ _ => True
  | _, _ => False
  end →
  (∀ applied files, pc = MRun applied files → in_loop i applied files (m_db c)) →
  msys_inv s0 (goto i pc c).
Proof.
  intros [Hl Hp Hlo Ho Hlg Hn Hrc] Hi Hpc Hloop. pose proof (Hl i pc0 Hi) as Hli. split; simpl; try done.
  - intros j pc' [[-> ->]|[Hne Hj]]%pc_lookup; [by destruct pc0, pc|by apply Hl].
  - intros j Hj. apply lookup_insert_is_Some. destruct (decide (i = j)); auto.
  - intros j ap fs [[-> <-]|[Hne Hj]]%pc_lookup; [by apply Hloop|by apply Hlo].
  - intros j [[-> E]|[Hne Hj]]%pc_lookup; [by subst pc; destruct pc0|by apply Ho].
Qed.

(** A session that ends. *)
Lemma over_inv s0 c i pc0 r :
  msys_inv s0 c → m_pc c !! i = Some pc0 →
  (r = None → ∀ d, d ∈ dirs i → migration_file d = true → version d ∈ recorded (m_db c)) →
  msys_inv s0 (over_with i r c).
Proof.
  intros [Hl Hp Hlo Ho Hlg Hn Hrc] Hi Hr. split; simpl; try done.
  - intros j pc' [[-> ->]|[Hne Hj]]%pc_lookup; [by case_decide|].
    specialize (Hl j pc' Hj). case_decide; destruct pc'; congruence.
  - intros j Hj. apply lookup_insert_is_Some. case_decide; [done|]. destruct (decide (i = j)); auto.
  - intros j ap fs [[-> ?]|[Hne Hj]]%pc_lookup; [done|by apply Hlo].
  - intros j [[-> E]|[Hne Hj]]%pc_lookup; [injection E as <-; by apply Hr|by apply Ho].
Qed.

(** Only the holder of the lock is in the loop. *)
Lemma loop_alone s0 c i j applied files applied' files' :
  msys_inv s0 c → m_pc c !! i = Some (MRun applied files) → m_pc c !! j = Some (MRun applied' files') → i = j.
Proof.
  intros Hinv Hi Hj. pose proof (mi_lock _ _ Hinv _ _ Hi) as E1. pose proof (mi_lock _ _ Hinv _ _ Hj) as E2.
  simpl in *. congruence.
Qed.

(** Reading schema_migrations under the lock. *)
Lemma read_in_loop i s : in_loop i (recorded s) (migrations (dirs i)) s.
Proof.
  split; [done| |apply Hdirs|].
  - intros d Hd%elem_of_migrations. by split.
  - intros d Hd Hm. left. by apply elem_of_migrations.
Qed.

Lemma in_loop_tail i applied d files s :
  in_loop i applied (d :: files) s → version d ∈ recorded s → in_loop i applied files s.
Proof.
  intros [H1 H2 [Hd Hn]%NoDup_cons H4] Hv. split; [done| |done|].
  - intros d' Hd'. apply H2. by right.
  - intros d' Hd' Hm. destruct (H4 d' Hd' Hm) as [[->|?]%elem_of_cons|?]; auto.
Qed.

(** Running a file records exactly its version. *)
Lemma in_loop_file i applied d files s s' :
  in_loop i applied (d :: files) s → recorded s' = {[version d]} ∪ recorded s → in_loop i applied files s'.
Proof.
  intros [H1 H2 [Hd Hn]%NoDup_cons H4] Hs. split; [set_solver| |done|].
  - intros d' Hd'. destruct (H2 d') as [Hin Hfresh]; [by right|]. split; [done|]. intros Hna.
    rewrite Hs. apply not_elem_of_union. split; [|by apply Hfresh].
    rewrite not_elem_of_singleton. intros E. apply Hd. rewrite <- E. by apply list_elem_of_fmap_2.
  - intros d' Hd' Hm. rewrite Hs. destruct (H4 d' Hd' Hm) as [[->|?]%elem_of_cons|?]; set_solver.
Qed.

(** A file that committed. *)
Lemma file_inv s0 c i applied d files s' :
  msys_inv s0 c → m_pc c !! i = Some (MRun applied (d :: files)) → version d ∉ applied →
  versions s' = Some ({[version d]} ∪ recorded (m_db c)) →
  msys_inv s0 (ran_file i d (MRun applied files) s' c).
Proof.
  intros Hinv Hi Hna Hv'. pose proof (mi_loop _ _ Hinv _ _ _ Hi) as Hloop.
  destruct (il_left _ _ _ _ Hloop d) as [[Hm Hd] Hfresh]; [left|]. specialize (Hfresh Hna).
  assert (recorded s' = {[version d]} ∪ recorded (m_db c)) as Hs by (unfold recorded; by rewrite Hv').
  unfold ran_file. rewrite decide_True by set_solver.
  pose proof (mi_lock _ _ Hinv _ _ Hi) as Hli. simpl in Hli.
  pose proof Hinv as [Hl Hp Hlo Ho Hlg Hn Hrc]. split; simpl.
  - intros j pc' [[-> ->]|[Hne Hj]]%pc_lookup; [done|by apply Hl].
  - intros j Hj. apply lookup_insert_is_Some. destruct (decide (i = j)); auto.
  - intros j ap fs [[-> [= -> ->]]|[Hne Hj]]%pc_lookup; [by eapply in_loop_file|].
    destruct Hne. symmetry. by eapply loop_alone.
  - intros j [[-> ?]|[Hne Hj]]%pc_lookup; [done|]. intros d' Hd' Hm'. rewrite Hs.
    apply elem_of_union_r. by eapply Ho.
  - intros j d' [Hin|[= -> ->]%list_elem_of_singleton]%elem_of_app; [by apply Hlg|].
    split_and!; [done..|]. rewrite Hrc in Hfresh. set_solver.
  - unfold log_versions. simpl. rewrite fmap_app. simpl. apply NoDup_app. split; [done|].
    split; [|apply NoDup_singleton]. intros v Hv ->%list_elem_of_singleton. apply Hfresh.
    rewrite Hrc. apply elem_of_union_r. by apply elem_of_list_to_set.
  - rewrite Hs, Hrc. unfold log_versions. simpl. rewrite fmap_app, list_to_set_app_L. simpl. set_solver.
Qed.

(** A file that failed: rolled back, or committed with its reply lost; either way the
    session ends. *)
Lemma failed_file_inv s0 c i applied d files s' err :
  msys_inv s0 c → m_pc c !! i = Some (MRun applied (d :: files)) → version d ∉ applied →
  s' = m_db c ∨ versions s' = Some ({[version d]} ∪ recorded (m_db c)) →
  msys_inv s0 (over_with i (Some err) (ran_file i d (MRun applied files) s' c)).
Proof.
  intros Hinv Hi Hna [->|Hs].
  - destruct (il_left _ _ _ _ (mi_loop _ _ Hinv _ _ _ Hi) d) as [_ Hfresh]; [left|].
    unfold ran_file, over_with. simpl. rewrite (decide_False (P := version d ∈ _)) by auto. rewrite insert_insert_eq.
    by eapply (over_inv s0 c i _ (Some err)).
  - eapply over_inv; [by eapply file_inv|apply lookup_insert_eq|done].
Qed.

Lemma mstep_inv s0 c c' : msys_inv s0 c → mstep c c' → msys_inv s0 c'.
Proof.
  intros Hinv Hs. destruct Hs as [i Hi|i Hi Hl|i Hi|i ap d fs Hi Hv|i ap d fs body s' Hi Hv Hb Hsql
    |i ap d fs body err s' Hi Hv Hb Hsql|i ap d fs err Hi Hv Hb|i ap Hi|i pc err Hi].
  - destruct Hinv as [Hl Hp Hlo Ho Hlg Hn Hrc]. split; simpl; try done.
    + intros j pc' [[-> ->]|[Hne Hj]]%pc_lookup; [|by apply Hl]. intros E. destruct (Hp _ E). congruence.
    + intros j Hj. apply lookup_insert_is_Some. destruct (decide (i = j)); auto.
    + intros j ap fs [[-> ?]|[Hne Hj]]%pc_lookup; [done|by apply Hlo].
    + intros j [[-> ?]|[Hne Hj]]%pc_lookup; [done|by apply Ho].
  - destruct Hinv as [Hlk Hp Hlo Ho Hlg Hn Hrc]. split; simpl; try done.
    + intros j pc' [[-> ->]|[Hne Hj]]%pc_lookup; [done|]. specialize (Hlk j pc' Hj).
      destruct pc'; congruence.
    + intros j [= <-]. apply lookup_insert_is_Some. by left.
    + intros j ap fs [[-> ?]|[Hne Hj]]%pc_lookup; [done|by apply Hlo].
    + intros j [[-> ?]|[Hne Hj]]%pc_lookup; [done|by apply Ho].
  - eapply goto_inv; [done|exact Hi|done|]. intros ? ? [= <- <-]. apply read_in_loop.
  - eapply goto_inv; [done|exact Hi|done|]. intros ? ? [= <- <-].
    pose proof (mi_loop _ _ Hinv _ _ _ Hi) as Hloop. eapply in_loop_tail; [done|]. by apply (il_sub _ _ _ _ Hloop).
  - destruct (il_left _ _ _ _ (mi_loop _ _ Hinv _ _ _ Hi) d) as [[Hm Hd] _]; [left|].
    destruct (Hreg i d body _ _ _ Hd Hm Hb Hsql) as [[[? ?] _]|E]; [done|]. by eapply file_inv.
  - destruct (il_left _ _ _ _ (mi_loop _ _ Hinv _ _ _ Hi) d) as [[Hm Hd] _]; [left|].
    eapply failed_file_inv; [done..|]. by destruct (Hreg i d body _ _ _ Hd Hm Hb Hsql) as [[_ ->]|E]; [left|right].
  - by eapply over_inv.
  - eapply over_inv; [done|exact Hi|]. intros _ d Hd Hm.
    by destruct (il_seen _ _ _ _ (mi_loop _ _ Hinv _ _ _ Hi) d Hd Hm) as [?%not_elem_of_nil|].
  - by eapply over_inv.
Qed.

Lemma mstep_reachable s0 c : rtc mstep (m_start s0) c → msys_inv s0 c.
Proof.
  apply rtc_ind_r; [|intros; by eapply mstep_inv]. split; simpl; try done.
  - by intros i d ?%not_elem_of_nil.
  - constructor.
  - set_solver.
Qed.

(** ** A session left to itself *)

Lemma loop_is_steps i applied files s r s' ran c :
  m_db c = s → m_pc c !! i = Some (MRun applied files) →
  apply_files run_sql applied files s = (r, s', ran) →
  ∃ c', rtc mstep c c' ∧ m_db c' = s' ∧ m_pc c' !! i = Some (MOver r).
Proof.
  revert s ran c. induction files as [|d files IH]; intros s ran c Hdb Hi E; simpl in E.
  { simplify_eq. eexists. split; [apply rtc_once; by apply (ms_done c i applied)|].
    split; [done|apply lookup_insert_eq]. }
  case_bool_decide as Hv.
  { destruct (IH _ _ (goto i (MRun applied files) c) Hdb (lookup_insert_eq _ _ _) E) as (c' & Hr & Hc').
    exists c'. split; [|done]. eapply rtc_l; [by eapply ms_skip|done]. }
  destruct (d_Body d) as [err|body] eqn:Eb.
  { simplify_eq. eexists. split; [apply rtc_once; by eapply (ms_unreadable c i applied d files)|].
    split; [done|apply lookup_insert_eq]. }
  subst s. destruct (run_sql body (m_db c)) as [[err|] s1] eqn:Er.
  { simplify_eq. eexists. split; [apply rtc_once; by eapply (ms_fail c i applied d files)|].
    split; [done|apply lookup_insert_eq]. }
  destruct (apply_files run_sql applied files s1) as [[r1 s2] ran1] eqn:Ea. simplify_eq.
  destruct (IH s1 ran1 (ran_file i d (MRun applied files) s1 c)
    eq_refl (lookup_insert_eq _ _ _) Ea) as (c' & Hr & Hc').
  exists c'. split; [|done]. eapply rtc_l; [by eapply ms_file|done].
Qed.

(** ** Properties *)

(** C33: migrations run once: however many sessions run [ApplyMigrations] at the same time,
    with equal or different directories whose [.up.sql] files each record their own version
    in their transaction, and wherever they fail or lose their connection (a file whose
    transaction committed but whose reply was lost included), every version commits at
    most once, none that was recorded before commits again, and schema_migrations holds
    exactly the versions recorded before and those that committed; a run that reports
    success has all versions of its directory recorded. A session that is left alone
    with the lock does exactly what [ApplyMigrations] says. *)
Theorem migrations_run_once s0 c : rtc mstep (m_start s0) c →
  NoDup (log_versions c) ∧
  (∀ i d, (i, d) ∈ m_log c → migration_file d = true ∧ d ∈ dirs i ∧ version d ∉ recorded s0) ∧
  recorded (m_db c) = recorded s0 ∪ list_to_set (log_versions c) ∧
  (∀ i, m_pc c !! i = Some (MOver None) →
     ∀ d, d ∈ dirs i → migration_file d = true → version d ∈ recorded (m_db c)) ∧
  (∀ i e r s' ran, m_pc c !! i = Some MLocked → readdir e = inr (dirs i) → clean e →
     ApplyMigrations versions run_sql e (m_db c) = (r, s', ran) →
     ∃ c', rtc mstep c c' ∧ m_db c' = s' ∧ m_pc c' !! i = Some (MOver r)).
Proof.
  intros Hr. destruct (mstep_reachable s0 c Hr) as [_ _ _ Ho Hlg Hn Hrc].
  split_and!; [done..|]. intros i e r s' ran Hi He (H1 & H2 & H3 & H4 & H5) E.
  unfold ApplyMigrations, hasTable in E. rewrite He, H1, H2, H3, H4, H5 in E.
  assert (apply_files run_sql (recorded (m_db c)) (migrations (dirs i)) (m_db c) = (r, s', ran)) as Ea
    by (unfold recorded; by destruct (versions (m_db c))).
  destruct (loop_is_steps i _ _ _ _ _ _ (goto i (MRun (recorded (m_db c)) (migrations (dirs i))) c)
    eq_refl (lookup_insert_eq _ _ _) Ea) as (c' & Hs & Hc').
  exists c'. split; [|done]. eapply rtc_l; [by apply ms_read|done].
Qed.

End Runs.

(** ** Witnesses *)

(** Session 0 loses the reply to its second file; session 1 comes after it. *)
Definition two_dirs (i : nat) : list dirent := if decide (i = 0) then lossy_dir else toy_dir.

Lemma two_dirs_nodup i : NoDup (version <$> migrations (two_dirs i)).
Proof. unfold two_dirs. case_decide; apply (bool_decide_unpack _); vm_compute; exact I. Qed.

Lemma two_dirs_registering i : self_registering toy_versions toy_sql (two_dirs i).
Proof. unfold two_dirs. case_decide; [apply lossy_self_registering|apply toy_self_registering]. Qed.

Notation toy_step := (mstep toy_versions toy_sql two_dirs).

(** Two sessions wait; the first gets the lock and runs both files, is told that the second
    failed, and ends; then the other gets the lock. *)
Lemma toy_two_sessions : ∃ c, rtc toy_step (m_start None) c ∧
  log_versions c = ["0001_a"; "0002_b"]%string ∧ m_pc c !! 1 = Some MLocked ∧
  m_db c = Some {["0001_a"; "0002_b"]}%string ∧ is_Some (m_pc c !! 0 ≫= λ pc, match pc with MOver r => r | _ => None end).
Proof.
  eexists. split.
  { eapply rtc_l; [by apply (ms_start _ _ _ _ 0)|].
    eapply rtc_l; [by apply (ms_start _ _ _ _ 1)|].
    eapply rtc_l; [by apply (ms_lock _ _ _ _ 0)|].
    eapply rtc_l; [by apply (ms_read _ _ _ _ 0)|].
    eapply rtc_l; [eapply (ms_file _ _ _ _ 0); [vm_compute; reflexivity|by vm_compute|reflexivity..]|].
    eapply rtc_l; [eapply (ms_fail _ _ _ _ 0); [vm_compute; reflexivity|by vm_compute|reflexivity..]|].
    eapply rtc_l; [by apply (ms_lock _ _ _ _ 1)|]. apply rtc_refl. }
  split_and!; vm_compute; try reflexivity. by eexists.
Qed.

Lemma migrations_run_once_witness : ∃ c c', rtc toy_step (m_start None) c ∧
  NoDup (log_versions c) ∧ length (log_versions c) = 2 ∧
  rtc toy_step c c' ∧ m_pc c' !! 1 = Some (MOver None) ∧ m_db c' = m_db c.
Proof.
  destruct toy_two_sessions as (c & Hr & Hl & H1 & Hdb & _).
  destruct (migrations_run_once toy_versions toy_sql two_dirs two_dirs_nodup
    two_dirs_registering None c Hr) as (Hn & _ & _ & _ & Hone).
  destruct (Hone 1 toy_migrate None (m_db c) [] H1 eq_refl) as (c' & Hs & Hd & Hp);
    [by split_and!|rewrite Hdb; vm_compute; reflexivity|].
  exists c, c'. rewrite Hl. split_and!; [exact Hr|rewrite <- Hl; exact Hn|reflexivity|exact Hs|exact Hp|exact Hd].
Defined.
