(* ===== verification/Commands.v ===== *)
(** * The commands (cmd/imgsync) and the metric registry

    What [imgsync enqueue], [migrate], [sniffer] and [worker] do between their flags and
    the operations they call, what they print and their exit status; and the
    registration of the collectors (internal/metrics/metrics.go, db_pool.go). *)

From S2P Require Import Prelude GoLang ErrDetail GoText Store Transfer Worker Invariant Spec Jobs Samples.
From S2P Require Import Hostcap FtpPool Health Metrics BatchSql SnifferQuery Sniffer SnifferProps Settings Cli Migrate.

Local Open Scope Z_scope.
Local Open Scope string_scope.

(** ** main.go *)

Definition newline : string := String (Ascii.ascii_of_nat 10) EmptyString.

(** What a process leaves: its exit status and what it wrote. *)
Record exit := Exit { ex_code : Z; ex_out : string; ex_err : string }.

(** [func main]: the error of the command goes to stderr and the status is 1. *)
Definition main_exit (r : option error) (out : string) : exit :=
  match r with
  | Some err => Exit 1 out (error_text err +:+ newline)
  | None => Exit 0 out EmptyString
  end.

Section Enqueue.
Context `{ScanOrder}.

(** ** enqueue.go *)

(** What pgx answers to [db.NewPool]: the parsed DSN, the pool, the ping. *)
Record pgx_answers := {
  pa_parse : string → error + pgx_config;
  pa_open : option error;
  pa_ping : option error;
}.

Definition open_pool (px : pgx_answers) (dsn : string) (maxConns : Z) : error + pgx_config :=
  db_NewPool (pa_parse px) (pa_open px) (pa_ping px) {| db_DSN := dsn; db_limits := conns maxConns |}.

(** The flags given on the command line. *)
Record enqueue_flags := {
  fl_trace_id : option string;
  fl_src : option string;
  fl_dst : option string;
  fl_src_protocol : option string;
  fl_dst_protocol : option string;
  fl_max_attempts : option Z;
}.

(** The flags with their defaults; cobra refuses the command when a required one is
    not given (its message also lists them). *)
Definition enqueue_args (f : enqueue_flags) : option EnqueueArgs :=
  traceID ← fl_trace_id f;
  src ← fl_src f;
  dst ← fl_dst f;
  srcProto ← fl_src_protocol f;
  dstProto ← fl_dst_protocol f;
  Some {| a_TraceID := traceID; a_Src := src; a_Dst := dst; a_SrcProtocol := srcProto;
          a_DstProtocol := dstProto; a_Payload := EmptyString;
          a_MaxAttempts := default 5 (fl_max_attempts f) |}.

Definition enqueued_line (id : Z) (traceID : string) : string :=
  "enqueued id=" +:+ itoa id +:+ " trace_id=" +:+ traceID +:+ newline.

Definition exists_line (id : Z) (traceID : string) : string :=
  "exists id=" +:+ itoa id +:+ " trace_id=" +:+ traceID +:+ " (no-op)" +:+ newline.

(** [RunE] of [newEnqueueCmd]. *)
Definition enqueue_RunE (e : environ) (px : pgx_answers) (a : EnqueueArgs) : M pg (option error * string) :=
  match require_dsn e with
  | Some err => mret (Some err, EmptyString)
  | None =>
      match open_pool px (e "IMGSYNC_DSN") 4 with
      | inl err => mret (Some err, EmptyString)
      | inr _ =>
          r ← Enqueue a;
          match r with
          | inl err => mret (Some err, EmptyString)
          | inr (id, true) => mret (None, enqueued_line id (a_TraceID a))
          | inr (id, false) => mret (None, exists_line id (a_TraceID a))
          end
      end
  end.

(** The process [imgsync enqueue ...]. *)
Definition enqueue_main (e : environ) (px : pgx_answers) (f : enqueue_flags) : M pg exit :=
  match enqueue_args f with
  | None => mret (main_exit (Some (EOpaque "required flag(s) not set")) EmptyString)
  | Some a =>
      r ← enqueue_RunE e px a;
      mret (main_exit (fst r) (snd r))
  end.

End Enqueue.

(** ** migrate.go *)

Definition migrate_dir (e : environ) (flag : option string) : string :=
  let dir := e "IMGSYNC_MIGRATIONS_DIR" in
  default (if bool_decide (dir = EmptyString) then "/etc/imgsync/migrations" else dir) flag.

(** [RunE] of [newMigrateCmd]; [me dir] is what the steps of [ApplyMigrations] meet in
    the directory. *)
Definition migrate_RunE {S} (versions : S → option (gset string)) (run_sql : string → S → option error * S)
    (me : string → migrate_env) (e : environ) (flag : option string) (s : S) : option error * string * S :=
  match require_dsn e with
  | Some err => (Some err, EmptyString, s)
  | None =>
      match ApplyMigrations versions run_sql (me (migrate_dir e flag)) s with
      | (Some err, s', _) => (Some err, EmptyString, s')
      | (None, s', _) => (None, "migrations applied" +:+ newline, s')
      end
  end.

(** ** sniffer.go *)

Section Sniffer.
Context `{ScanOrder} `{TemplateEngine}.

(** [RunE] of [newSnifferCmd]. *)
Definition sniffer_RunE (order : list string) (e : environ) (source_pool : SnifferConfig → error + Z * Z)
    (imgsync_err listen_err : option error) (now0 : Z) (evs : list loop_event)
    : M (sworld Metrics) (error + list (Z * option error) * bool) :=
  match ParseSnifferConfig order e with
  | (_, Some err) => mret (inl err)
  | (c, None) => RunSniffer c (source_pool c) imgsync_err listen_err now0 evs
  end.

End Sniffer.

(** ** worker.go *)

(** [newHostcapTransport]: its own pool, and the configuration of the wrapper. *)
Definition newHostcapTransport (px : pgx_answers) (dsn : string) (cfg : HostcapConfig)
    : error + HostcapConfig :=
  match open_pool px dsn (hostcap_conns (Cap cfg)) with
  | inl err => inl err
  | inr _ => inr (Wrap_config cfg)
  end.

Definition health_addr (e : environ) : string :=
  let a := e "IMGSYNC_HEALTH_ADDR" in if bool_decide (a = EmptyString) then ":8080" else a.

(** [RunE] of [newWorkerCmd] up to [r.Run]: the settings it runs with and the line it
    prints; [listen] is what [net.Listen] answers. *)
Definition worker_RunE (e : environ) (hostname : string) (px px_cap : pgx_answers)
    (listen : string → option error) : error + worker_settings * string :=
  match worker_config e hostname with
  | inl err => inl err
  | inr s =>
      match open_pool px (e "IMGSYNC_DSN") (ws_MaxConns s) with
      | inl err => inl err
      | inr _ =>
          match newHostcapTransport px_cap (e "IMGSYNC_DSN") (ws_cap s) with
          | inl err => inl err
          | inr _ =>
              match listen (health_addr e) with
              | Some err => inl err
              | None => inr (s, "imgsync worker starting: pod=" +:+ ws_PodName s +:+ " workers="
                                +:+ itoa (ws_Workers s) +:+ newline)
              end
          end
      end
  end.

(** ** The registry (internal/metrics/metrics.go, db_pool.go) *)

(** A descriptor: the name of the metric and its label names. *)
Record desc := Desc { d_metric : string; d_labels : list string }.

(** [newSnifferLagCollector]. *)
Definition snifferLag_desc : desc := Desc "imgsync_sniffer_watermark_lag_seconds" ["source"%string].

(** The collectors [New] registers, in its order. *)
Definition New_descs : list desc := [
  Desc "imgsync_lease_attempts_total" ["result"];
  Desc "imgsync_jobs_processed_total" ["src"; "dst"; "result"];
  Desc "imgsync_job_retries_total" ["src"; "dst"; "stage"];
  Desc "imgsync_job_duration_seconds" ["src"; "dst"; "result"];
  Desc "imgsync_sweep_cycles_total" [];
  Desc "imgsync_retention_rows_deleted_total" [];
  Desc "imgsync_ftp_pool_size" ["host"; "state"];
  Desc "imgsync_sniffer_enqueue_total" ["source"];
  Desc "imgsync_sniffer_run_errors_total" ["source"];
  Desc "imgsync_sniffer_last_run_timestamp" ["source"];
  Desc "imgsync_workers_active" ["pod"];
  snifferLag_desc
].

Definition queueDepth_desc : desc := Desc "imgsync_jobs_in_status" ["status"].
Definition dbPool_desc : desc := Desc "imgsync_db_pool_conns" ["state"].
Definition leaseLockAge_desc : desc := Desc "imgsync_lease_lock_age_seconds" [].
Definition oldestPending_desc : desc := Desc "imgsync_oldest_pending_age_seconds" [].

(** [reg.MustRegister] of one collector: it panics when the name is taken. *)
Definition MustRegister (d : desc) : M (list desc) unit := λ reg,
  if bool_decide (d_metric d ∈ (d_metric <$> reg))
  then (Panic "duplicate metrics collector registration attempted", reg)
  else (Ret tt, (reg ++ [d])%list).

Fixpoint register_all (ds : list desc) : M (list desc) unit :=
  match ds with
  | [] => mret tt
  | d :: ds' => _ ← MustRegister d; register_all ds'
  end.

(** [AttachQueueDepth], [AttachDBPool], [AttachLeaseLockAge], [AttachOldestPending]. *)
Definition AttachQueueDepth := MustRegister queueDepth_desc.
Definition AttachDBPool := MustRegister dbPool_desc.
Definition AttachLeaseLockAge := MustRegister leaseLockAge_desc.
Definition AttachOldestPending := MustRegister oldestPending_desc.

(** What the worker and the sniffer register on a fresh registry. *)
Definition worker_registry : M (list desc) unit :=
  _ ← register_all New_descs;
  _ ← AttachQueueDepth;
  _ ← AttachDBPool;
  _ ← AttachLeaseLockAge;
  AttachOldestPending.

Definition sniffer_registry : M (list desc) unit :=
  _ ← register_all New_descs;
  _ ← AttachQueueDepth;
  AttachDBPool.

(** [dbPoolCollector.Collect] of the statistics of a pool. *)
Definition db_pool_samples (acquired idle max : Z) : list (list string * Z) :=
  [(["in_use"], acquired); (["idle"], idle); (["max"], max)].

(** ** Lemmas *)

Section Facts.
Context `{ScanOrder}.

Lemma enqueue_main_run e px f a s :
  enqueue_args f = Some a → e "IMGSYNC_DSN" ≠ EmptyString → (∃ pc, open_pool px (e "IMGSYNC_DSN") 4 = inr pc) →
  enqueue_main e px f s =
    let '(r, s') := Enqueue a s in
    (match r with
     | Panic v => Panic v
     | Ret (inl err) => Ret (main_exit (Some err) EmptyString)
     | Ret (inr (i, true)) => Ret (main_exit None (enqueued_line i (a_TraceID a)))
     | Ret (inr (i, false)) => Ret (main_exit None (exists_line i (a_TraceID a)))
     end, s').
Proof.
  intros Ha Hd [pc Hp]. unfold enqueue_main, enqueue_RunE, require_dsn. rewrite Ha, bool_decide_false by done.
  rewrite Hp. unfold mbind, M_bind. by destruct (Enqueue a s) as [[[err|[i []]]|v] s'].
Qed.

(** ** Properties *)

(** The process [imgsync enqueue]: it always ends with status 0 or 1. Status 0 comes with
    one line on stdout, which says truthfully whether the row was inserted now or was
    there before, and its id; with status 1 nothing is printed on stdout, and either no
    table changed or, when only the reply of the commit was lost, exactly the new row
    and its event are there. *)
Theorem enqueue_main_spec e px f s : tx s = None → ∃ x s',
  enqueue_main e px f s = (Ret x, s') ∧ tx s' = None ∧
  ((ex_code x = 0 ∧ ex_err x = EmptyString ∧ ∃ a i b,
      enqueue_args f = Some a ∧ enqueue_effect (now (env s)) a (tabs s) (tabs s') (inr (i, b)) ∧
      ex_out x = (if b : bool then enqueued_line else exists_line) i (a_TraceID a)) ∨
   (ex_code x = 1 ∧ ex_out x = EmptyString ∧
      (s' = s ∨ ∃ a err, enqueue_args f = Some a ∧
         enqueue_effect (now (env s)) a (tabs s) (tabs s') (inl err)))).
Proof.
  intros Htx. unfold enqueue_main. destruct (enqueue_args f) as [a|] eqn:Ea;
    [|eexists _, s; split; [done|]; by auto 10].
  unfold enqueue_RunE. destruct (require_dsn e); [eexists _, s; split; [done|]; by auto 10|].
  destruct (open_pool _ _ _) as [err|pc]; [eexists _, s; split; [done|]; by auto 10|].
  destruct (enqueue_run a s Htx) as (r & s' & Er & _ & Hx & Heff & _).
  unfold mbind, M_bind. rewrite Er.
  destruct r as [err|[i b]]; [|destruct b]; (eexists _, s'; split; [done|]; split; [done|]).
  - right. split_and!; [done..|]. right. by exists a, err.
  - left. split_and!; [done..|]. by exists a, i, true.
  - left. split_and!; [done..|]. by exists a, i, false.
Qed.

(** C28: the command is idempotent on (trace_id, dst): once [imgsync enqueue] has ended with
    status 0, running it again with the same trace id and destination, whatever the
    other flags, ends with status 0, prints the same id with the note that the job
    exists, and changes no job and no event. *)
Theorem enqueue_main_repeatable e px f f' a' s x s1 :
  wf (tabs s) → tx s = None → enqueue_main e px f s = (Ret x, s1) → ex_code x = 0 → script s1 = [] →
  enqueue_args f' = Some a' → fl_trace_id f' = fl_trace_id f → fl_dst f' = fl_dst f →
  valid_args a' = true → encodable a' = true →
  ∃ i s2, (ex_out x = enqueued_line i (a_TraceID a') ∨ ex_out x = exists_line i (a_TraceID a')) ∧
    enqueue_main e px f' s1 = (Ret (Exit 0 (exists_line i (a_TraceID a')) EmptyString), s2) ∧
    jobs (tabs s2) = jobs (tabs s1) ∧ events (tabs s2) = events (tabs s1).
Proof.
  intros Hwf Htx E Hc Hs Ha' Ht Hd Hv Hm.
  unfold enqueue_main in E. destruct (enqueue_args f) as [a|] eqn:Ea; [|by injection E as <- _].
  unfold enqueue_RunE, mbind, M_bind in E.
  destruct (require_dsn e) eqn:Ed; [by injection E as <- _|].
  destruct (open_pool px (e "IMGSYNC_DSN") 4) as [err|pc] eqn:Ep; [by injection E as <- _|].
  destruct (Enqueue a s) as [[[err|[i b]]|v] s1'] eqn:En; [by injection E as <- _| |done].
  assert (s1' = s1) as -> by (by destruct b; injection E).
  assert (a_TraceID a' = a_TraceID a ∧ a_Dst a' = a_Dst a) as [Ht' Hd'].
  { unfold enqueue_args in Ea, Ha'. rewrite Ht, Hd in Ha'.
    destruct (fl_trace_id f), (fl_src f), (fl_dst f), (fl_src_protocol f), (fl_dst_protocol f); try done.
    destruct (fl_src f'), (fl_src_protocol f'), (fl_dst_protocol f'); try done.
    injection Ea as <-. injection Ha' as <-. done. }
  destruct (enqueue_again a a' s s1 i b Hwf Htx En Hs Ht' Hd' Hv Hm) as (s2 & E2 & Hj & Hev).
  exists i, s2. split; [by destruct b; injection E as <-; rewrite Ht'; auto|]. split; [|done].
  rewrite (enqueue_main_run e px f' a' s1 Ha'); [by rewrite E2| |by exists pc].
  unfold require_dsn in Ed. by case_bool_decide.
Qed.

End Facts.

(** The registrations of both processes succeed, every metric name is registered once,
    and attaching a collector a second time panics. *)
Theorem registries_distinct :
  (∃ reg, worker_registry [] = (Ret tt, reg) ∧ NoDup (d_metric <$> reg) ∧ length reg = 16%nat ∧
     fst (AttachQueueDepth reg) = Panic "duplicate metrics collector registration attempted") ∧
  (∃ reg, sniffer_registry [] = (Ret tt, reg) ∧ NoDup (d_metric <$> reg) ∧ length reg = 14%nat).
Proof.
  split; eexists; (split; [vm_compute; reflexivity|]).
  - split; [apply (bool_decide_unpack _); vm_compute; exact I|]. split; vm_compute; reflexivity.
  - split; [apply (bool_decide_unpack _); vm_compute; exact I|vm_compute; reflexivity].
Qed.

(** ** Witnesses *)

Definition sample_px : pgx_answers := {|
  pa_parse := λ _, inr (conns 10); pa_open := None; pa_ping := None
|}.

Definition sample_flags : enqueue_flags := {|
  fl_trace_id := Some "images-7"; fl_src := Some "/data/7.png"; fl_dst := Some "ftp://h/7.png";
  fl_src_protocol := Some "localfs"; fl_dst_protocol := Some "ftp"; fl_max_attempts := None
|}.

Definition sample_enqueued : res exit * pg := enqueue_main (λ _, "postgres://db") sample_px sample_flags sample_pg.

Lemma enqueue_main_repeatable_witness : ∃ s2,
  fst sample_enqueued = Ret (Exit 0 (enqueued_line 1 "images-7") EmptyString) ∧
  enqueue_main (λ _, "postgres://db") sample_px sample_flags (snd sample_enqueued)
  = (Ret (Exit 0 (exists_line 1 "images-7") EmptyString), s2).
Proof.
  assert (fst sample_enqueued = Ret (Exit 0 (enqueued_line 1 "images-7") EmptyString)) as E
    by (vm_compute; reflexivity).
  destruct (enqueue_args sample_flags) as [a|] eqn:Ea; [|done].
  destruct (enqueue_main_repeatable (λ _, "postgres://db") sample_px sample_flags sample_flags a sample_pg
    (Exit 0 (enqueued_line 1 "images-7") EmptyString) (snd sample_enqueued)) as (i & s2 & Hi & E2 & _);
    [exact wf_empty_tables|reflexivity|rewrite <- E; apply surjective_pairing|reflexivity
    |vm_compute; reflexivity|exact Ea|reflexivity|reflexivity|injection Ea as <-; vm_compute; reflexivity..|].
  exists s2. split; [exact E|]. assert (a_TraceID a = "images-7") as Ht by (by injection Ea as <-).
  rewrite Ht in *.
  assert (fst (enqueue_main (λ _, "postgres://db") sample_px sample_flags (snd sample_enqueued))
    = Ret (Exit 0 (exists_line 1 "images-7") EmptyString)) as E3 by (vm_compute; reflexivity).
  rewrite E2 in *. exact (f_equal (λ r, (r, s2)) E3).
Defined.
