(* ===== verification/System.v ===== *)
(** * The whole system

    Any number of workers, enqueuers, sniffers, sweepers and retention cycles over one
    control database, with lost requests, lost replies and crashes. Autocommit statements
    interleave one by one (a poll is three of them); an enqueue, a sweep and a retention
    cycle are transactions and one step each. The components' own functions are the
    steps; what holds in every reachable state, and the labelled refinement of the abstract
    queue, follow from the lemmas of the components. *)

From S2P Require Import Prelude GoLang GoFloat ErrDetail Store Transfer Worker Invariant Spec.
From S2P Require Import WorkerFacts Jobs Samples Sweeper Retention BatchSql SnifferQuery Sniffer.
From S2P Require Import SnifferProps SnifferRuns SnifferSamples.

Local Open Scope Z_scope.

(** ** State and steps *)

(** The database, and the job each worker goroutine is working on (its snapshot).
    Workers are named by their [lockedBy], unique per goroutine. *)
Record sys := { db : pg; busy : gmap string Job }.

Definition init : sys := {|
  db := {| env := {| now := 0; row_locks := ∅; adv_busy := λ _, false |};
           tabs := empty_tables; tx := None; script := [] |};
  busy := ∅
|}.

(** Who does what: the label of a step. *)
Inductive op : Type :=
| OpEnv
| OpEnqueue (a : EnqueueArgs)
| OpLease (w : string)
| OpWrite (w : string) (j : Job) (v : verdict)
| OpDone (w : string)
| OpDrain (w : string)
| OpSweep
| OpRetention
| OpLoad
| OpBatch (specs : list JobSpec)
| OpUpsert (st : State).

(** What a step may do to the abstract queue: an enqueue submits its own key, at most
    once; a lease takes at most one job, for its worker; an outcome write is at most
    the one action of its verdict, on its job and by its worker; a drain gives back
    only what its worker runs; sweeps only take jobs back, retention cycles only
    forget, a batch only submits the keys of its rows; and nothing else changes
    the queue. *)
Definition implements (o : op) : gmap Z ajob → gmap Z ajob → Prop :=
  match o with
  | OpEnv | OpDone _ | OpLoad | OpUpsert _ => eq
  | OpEnqueue a => once (λ l, ∃ i, l = ASubmit i (a_TraceID a, a_Dst a) (eff_max_attempts a))
  | OpLease w => once (λ l, ∃ i, l = ATake i w)
  | OpWrite w j v => once (λ l, l = verdict_action w j v)
  | OpDrain w => rtc (acts (λ l, ∃ i, l = AReclaim i w))
  | OpSweep => rtc (acts (λ l, ∃ i w, l = AReclaim i w))
  | OpRetention => rtc (acts (λ l, ∃ i, l = AForget i))
  | OpBatch specs => rtc (acts (λ l, ∃ i j, j ∈ specs ∧ l = ASubmit i (spec_key j) 5))
  end.

(** The runs of the abstract queue that match a sequence of labels. *)
Inductive queue_run : gmap Z ajob → list (op * gmap Z ajob) → Prop :=
| queue_run_nil q : queue_run q []
| queue_run_cons q o q' tr : implements o q q' → queue_run q' tr → queue_run q ((o, q') :: tr).

Lemma implements_astep o q q' : implements o q q' → rtc astep q q'.
Proof. destruct o; simpl; try (by intros ->); by (apply once_astep || apply acts_astep). Qed.

Lemma implements_refl o q : implements o q q.
Proof. destruct o; simpl; reflexivity. Qed.

Section System.
Context `{ScanOrder}.

Inductive sact (s : sys) : op → sys → Prop :=
(** Time passes, other sessions take and release locks, the network changes. *)
| s_env e fs :
    sact s OpEnv {| db := {| env := e; tabs := tabs (db s); tx := tx (db s); script := fs |};
                    busy := busy s |}
(** A client enqueues. *)
| s_enqueue a r d :
    Enqueue a (db s) = (Ret r, d) → sact s (OpEnqueue a) {| db := d; busy := busy s |}
(** An idle worker leases: it may get a job, or nothing. *)
| s_lease w j d :
    busy s !! w = None → LeaseJob w (db s) = (Ret (inr (Some j)), d) →
    sact s (OpLease w) {| db := d; busy := <[w := j]> (busy s) |}
| s_lease_none w o d :
    busy s !! w = None → LeaseJob w (db s) = (Ret o, d) → (∀ j, o ≠ inr (Some j)) →
    sact s (OpLease w) {| db := d; busy := busy s |}
(** A busy worker records a verdict on its job. *)
| s_write w j h v :
    busy s !! w = Some j →
    sact s (OpWrite w j v) {| db := snd (exec (verdict_stmt h w j v) (db s)); busy := busy s |}
(** A worker is done with its job, or crashes. *)
| s_done w :
    sact s (OpDone w) {| db := db s; busy := delete w (busy s) |}
(** A worker that left its loop drains. *)
| s_drain w r d :
    busy s !! w = None → drainLease w (db s) = (r, d) →
    sact s (OpDrain w) {| db := d; busy := busy s |}
(** The transactions of the housekeeping. *)
| s_sweep cfg r d :
    Sweep cfg (db s) = (Ret r, d) → sact s OpSweep {| db := d; busy := busy s |}
| s_retention cfg r d :
    RetentionSweep cfg (db s) = (Ret r, d) → sact s OpRetention {| db := d; busy := busy s |}
(** The statements of a poll, each committed by itself. *)
| s_load sid r d :
    Load sid (db s) = (r, d) → sact s OpLoad {| db := d; busy := busy s |}
| s_batch specs r d :
    EnqueueBatch specs (db s) = (r, d) → sact s (OpBatch specs) {| db := d; busy := busy s |}
| s_upsert st r d :
    Upsert st (db s) = (r, d) → sact s (OpUpsert st) {| db := d; busy := busy s |}.

Definition sstep (s s' : sys) : Prop := ∃ o, sact s o s'.

Definition reachable (s : sys) : Prop := rtc sstep init s.

(** A run: the labels and the states after them. *)
Inductive runs : sys → list (op * sys) → Prop :=
| runs_nil s : runs s []
| runs_cons s o s' tr : sact s o s' → runs s' tr → runs s ((o, s') :: tr).

(** ** The invariant *)

Record inv (s : sys) : Prop := {
  inv_tx : tx (db s) = None;
  inv_wf : wf (tabs (db s));
  inv_busy : ∀ w j, busy s !! w = Some j → coherent w j (tabs (db s));
}.

Lemma inv_init : inv init.
Proof. split; [done|apply wf_empty_tables|]. intros w j Hw. simpl in Hw. by rewrite lookup_empty in Hw. Qed.

Lemma drain_run w s r d :
  drainLease w s = (r, d) →
  tx d = tx s ∧ evolves_by (rtc (acts (λ l, ∃ i, l = AReclaim i w))) (tabs s) (tabs d).
Proof.
  unfold drainLease. intros E.
  destruct (exec_run (drain_stmt w) s) as (o & s1 & E1 & He & Hx & _ & Hc).
  rewrite (bind_run _ _ _ (Ret o) s1) in E by (apply (zoom_run (H := lens_id pg)); exact E1).
  simpl in E. injection E as _ <-. split; [done|].
  destruct Hc as [(u & [= _ Ht] & _)|[(_ & Ht & _)|(? & ? & [=] & _)]].
  - rewrite <- Ht.
    refine (evolves_mono _ _ _ _ _ (evolves_release_where (tabs s) (lease_guard w) (now (env s))
      (lease_guard_leased w))).
    intros q q' Hr. eapply rtc_acts_mono; [|exact Hr].
    intros l (i & r0 & _ & [_ Hl]%lease_guard_true & ->). rewrite Hl. by exists i.
  - rewrite Ht. by apply evolves_by_refl.
Qed.

(** The statements of a poll. *)
Lemma load_step sid s r d : Load sid s = (r, d) → tx d = tx s ∧ tabs d = tabs s.
Proof.
  intros E. unfold Load in E. destruct (exec_run (load_stmt sid) s) as (o & s1 & E1 & _ & Hx & _ & Hc).
  rewrite (bind_run _ _ _ _ _ E1) in E. simpl in E. injection E as _ <-. split; [done|].
  by destruct Hc as [(a & [= _ Ht] & _)|[(_ & Ht & _)|(? & ? & [=] & _)]].
Qed.

Lemma upsert_step st s r d :
  Upsert st s = (r, d) → tx d = tx s ∧ evolves_by eq (tabs s) (tabs d).
Proof.
  intros E. unfold Upsert in E. destruct (exec_run (upsert_stmt st) s) as (o & s1 & E1 & _ & Hx & _ & Hc).
  rewrite (bind_run _ _ _ _ _ E1) in E. simpl in E. injection E as _ <-. split; [done|].
  destruct Hc as [(a & [= _ Ht] & _)|[(_ & Ht & _)|(? & ? & [=] & _)]].
  - rewrite <- Ht. apply evolves_watermark, _.
  - rewrite Ht. by apply evolves_by_refl.
Qed.

Lemma batch_step specs s r d :
  EnqueueBatch specs s = (r, d) →
  tx d = tx s ∧ evolves_by (implements (OpBatch specs)) (tabs s) (tabs d).
Proof.
  intros E. destruct (batch_run specs s) as (o & s1 & E1 & _ & Hx & Hc).
  rewrite E1 in E. simplify_eq. split; [done|].
  destruct Hc as [(n & Hi & _)|[-> _]]; [by eapply insert_all_implements|].
  apply evolves_by_refl, implements_refl.
Qed.

(** Every step but the lease evolves the tables, within what its label allows. *)
Lemma sact_cases s o s' :
  inv s → sact s o s' →
  tx (db s') = None ∧
  ((evolves_by (implements o) (tabs (db s)) (tabs (db s')) ∧ busy s' ⊆ busy s)
   ∨ ∃ w r, o = OpLease w ∧ busy s !! w = None ∧ takes (env (db s)) (tabs (db s)) r ∧
       tabs (db s') = set_jobs (<[id r := lease_row w (now (env (db s))) r]> (jobs (tabs (db s))))
                        (tabs (db s)) ∧
       (busy s' = busy s ∨ busy s' = <[w := scan_job (lease_row w (now (env (db s))) r)]> (busy s))).
Proof.
  intros [Htx Hwf Hb] Hst. destruct Hst as
    [e fs|a r d E|w j d Hw E|w o d Hw E Hn|w j h v Hw|w|w r d Hw E|cfg r d E|cfg r d E
    |sid r d E|specs r d E|st r d E]; simpl.
  - split; [done|]. left. split; [by apply evolves_by_refl|done].
  - destruct (enqueue_run a (db s) Htx) as (r1 & s1 & E1 & _ & Hx & Heff & _).
    rewrite E in E1. simplify_eq. split; [done|]. left. split; [|done]. by eapply enqueue_implements.
  - destruct (lease_run w (db s) Hwf) as (o & s1 & E1 & _ & Hx & Hc).
    rewrite E in E1. simplify_eq. split; [congruence|].
    destruct Hc as [[_ Hn]|(r & Ht & Htab & Hj)]; [by destruct (Hn j)|].
    right. exists w, r. rewrite (Hj j eq_refl). eauto 10.
  - destruct (lease_run w (db s) Hwf) as (o1 & s1 & E1 & _ & Hx & Hc).
    rewrite E in E1. simplify_eq. split; [congruence|].
    destruct Hc as [[-> _]|(r & Ht & Htab & Hj)]; [left|right; exists w, r; eauto 10].
    split; [by apply evolves_by_refl|done].
  - destruct (verdict_effect h w j v (db s)) as (_ & Hx & _). split; [congruence|].
    left. split; [|done]. by apply verdict_implements, Hb.
  - split; [done|]. left. split; [by apply evolves_by_refl|apply delete_subseteq].
  - apply drain_run in E as [Hx He]. split; [congruence|]. by left.
  - destruct (sweep_run cfg (db s) Hwf Htx) as (r1 & s1 & E1 & _ & Hx & Heff & _).
    rewrite E in E1. simplify_eq. split; [done|]. left. split; [|done]. by eapply sweep_implements.
  - destruct (retention_run cfg (db s) Hwf Htx) as (r1 & s1 & E1 & _ & Hx & Heff & _).
    rewrite E in E1. simplify_eq. split; [done|]. left. split; [|done].
    destruct (rt_Window cfg <=? 0); [destruct Heff as [_ ->]; by apply evolves_by_refl|].
    by eapply retention_implements.
  - apply load_step in E as [Hx Ht]. split; [congruence|]. left. split; [|done].
    rewrite Ht. by apply evolves_by_refl.
  - apply batch_step in E as [Hx He]. split; [congruence|]. by left.
  - apply upsert_step in E as [Hx He]. split; [congruence|]. by left.
Qed.

(** A lease by [w] does not disturb what the other workers know. *)
Lemma coherent_lease w w' j t r ts :
  w ≠ w' → coherent w' j t → coherent w' j (set_jobs (<[id r := lease_row w ts r]> (jobs t)) t).
Proof.
  intros Hne Hco r' Hi Hg. simpl in Hi. apply lookup_insert_Some in Hi as [[_ <-]|[_ Hi]]; [|eauto].
  destruct Hg as [_ Hg]. simpl in Hg. congruence.
Qed.

Lemma coherent_leased w t r ts :
  coherent w (scan_job (lease_row w ts r)) (set_jobs (<[id r := lease_row w ts r]> (jobs t)) t).
Proof. intros r' Hi Hg. simpl in Hi. rewrite lookup_insert_eq in Hi. by simplify_eq. Qed.

Lemma sact_inv s o s' :
  inv s → sact s o s' → inv s' ∧ history_by (implements o) (tabs (db s)) (tabs (db s')).
Proof.
  intros Hinv Hst. pose proof Hinv as [Htx Hwf Hb].
  destruct (sact_cases s o s' Hinv Hst) as [Hx [[Hev Hsub]|(w & r & -> & Hw & Ht & Etab & Ebusy)]].
  - specialize (Hev Hwf) as He. split; [|by apply evolution_history].
    split; [done|apply He|]. intros w j Hw.
    apply (coherent_evolves w j (tabs (db s))); [done|apply Hb; by eapply lookup_weaken|].
    eapply evolves_mono, Hev. apply implements_astep.
  - assert (history_by (implements (OpLease w)) (tabs (db s)) (tabs (db s'))) as Hhi.
    { rewrite Etab. eapply history_mono, lease_history; [|done|apply Ht|by eapply takes_pending].
      intros q q' [->|Ha]; [by left|right]. eapply acts_mono; [|exact Ha]. intros l ->. eauto. }
    split; [|done]. split; [done|apply Hhi|]. rewrite Etab. intros w' j Hw'.
    assert (busy s !! w' = Some j ∨ (w' = w ∧ j = scan_job (lease_row w (now (env (db s))) r)))
      as [Hold|[-> ->]].
    { destruct Ebusy as [E|E]; rewrite E in Hw'; [by left|].
      apply lookup_insert_Some in Hw' as [[-> <-]|[_ Hw']]; auto. }
    + apply coherent_lease; [congruence|by apply Hb].
    + apply coherent_leased.
Qed.

Lemma sstep_inv s s' : inv s → sstep s s' → inv s' ∧ history (tabs (db s)) (tabs (db s')).
Proof.
  intros Hinv [o Ho]. destruct (sact_inv s o s' Hinv Ho) as [Hi Hh]. split; [done|].
  eapply history_mono, Hh. apply implements_astep.
Qed.

Lemma steps_inv s s' : inv s → rtc sstep s s' → inv s' ∧ history (tabs (db s)) (tabs (db s')).
Proof.
  intros Hinv Hst. induction Hst as [s|s s1 s' H1 _ IH].
  - split; [done|]. apply history_refl, Hinv.
  - destruct (sstep_inv s s1 Hinv H1) as [Hi1 Hh1]. destruct (IH Hi1) as [Hi2 Hh2].
    split; [done|]. eapply history_trans; [apply Hinv|done..].
Qed.

Lemma reachable_all s : reachable s → inv s ∧ history empty_tables (tabs (db s)).
Proof. intros Hr. apply (steps_inv init s inv_init Hr). Qed.

(** A run of the system is a run of the abstract queue with the same labels. *)
Lemma runs_refine s tr :
  inv s → runs s tr → queue_run (abs (tabs (db s))) (prod_map (λ o, o) (λ s, abs (tabs (db s))) <$> tr).
Proof.
  intros Hinv Hr. induction Hr as [s|s o s' tr Ho _ IH]; [constructor|].
  destruct (sact_inv s o s' Hinv Ho) as [Hi Hh]. simpl. constructor; [apply Hh|by apply IH].
Qed.

(** The writes of one worker as steps. *)
Lemma record_steps h w j vs s :
  busy s !! w = Some j →
  rtc sstep s {| db := record h w j vs (db s); busy := busy s |}.
Proof.
  revert s. induction vs as [|v vs IH]; intros s Hw.
  { destruct s. apply rtc_refl. }
  eapply rtc_l; [eexists; by apply (s_write s w j h v)|].
  by apply (IH {| db := snd (exec (verdict_stmt h w j v) (db s)); busy := busy s |}).
Qed.

(** A call of [processOne] as steps: its writes, then done. *)
Lemma processOne_steps {W} `{Lens W pg} h (r : Runner W) w j s (x : W) :
  framed_runner r → busy s !! w = Some j → view x = db s →
  rtc sstep s {| db := view (snd (processOne h r w j x)); busy := delete w (busy s) |}.
Proof.
  intros Hr Hw Hx. destruct (processOne_wrote h w j r Hr x) as (vs & _ & ->). rewrite Hx.
  eapply rtc_r; [by apply (record_steps h w j vs s)|].
  eexists. apply (s_done {| db := record h w j vs (db s); busy := busy s |} w).
Qed.

(** The calls whose effect on the control database is a sequence of steps. *)
Definition in_steps {W A} `{Lens W pg} (m : M W A) : Prop :=
  ∀ s x, view x = db s → rtc sstep s {| db := view (snd (m x)); busy := busy s |}.

Lemma in_steps_ret {W A} `{Lens W pg} (a : A) : in_steps (mret a : M W A).
Proof. intros s x Hx. simpl. rewrite Hx. by destruct s. Qed.

Lemma in_steps_bind {W A B} `{Lens W pg} (m : M W A) (f : A → M W B) :
  in_steps m → (∀ a, in_steps (f a)) → in_steps (m ≫= f).
Proof.
  intros Hm Hf s x Hx. specialize (Hm s x Hx). unfold mbind, M_bind.
  destruct (m x) as [[a|v] x1]; simpl in *; [|done..].
  etrans; [exact Hm|]. by apply (Hf a {| db := view x1; busy := busy s |} x1).
Qed.

(** What acts on another part of the world. *)
Lemma in_steps_aside {W S A} `{LP : Lens W pg} `{LS : Lens W S} (m : M S A) :
  (∀ d x, @view W pg LP (@over W S LS d x) = @view W pg LP x) → in_steps (zoom (S := S) m : M W A).
Proof.
  intros Hv s x Hx. unfold zoom. destruct (m (view x)) as [r d]. simpl. rewrite Hv, Hx. by destruct s.
Qed.

Lemma in_steps_zoom {W A} `{Lens W pg} (m : M pg A) :
  (∀ s d r, m (db s) = (r, d) → ∃ o, sact s o {| db := d; busy := busy s |}) →
  in_steps (zoom (S := pg) m : M W A).
Proof.
  intros Hm s x Hx. destruct (m (db s)) as [r d] eqn:E. apply rtc_once.
  unfold zoom. rewrite Hx, E. simpl. rewrite view_over. by eapply Hm.
Qed.

(** A poll, with callbacks of any kind, as steps. *)
Lemma RunOnce_steps `{TemplateEngine} {K} (cfg : Config K) : in_steps (RunOnce cfg).
Proof.
  unfold RunOnce, runOnceImpl. repeat first
    [ apply in_steps_bind; [|intros ?]
    | apply in_steps_ret
    | apply in_steps_zoom; intros ? ? ? ?; eexists;
      first [by eapply s_load|by eapply s_batch|by eapply s_upsert]
    | apply in_steps_aside; by intros
    | case_match ].
Qed.

(** ** Properties *)

(** C2: in every reachable state, however enqueues, polls, leases, outcome writes, crashes,
    drains, sweeps, retention cycles and lost messages interleave, the database is
    well formed: rows are locked exactly while leased, attempts never exceed the
    budget, keys are unique, every event belongs to its job, a settled job has
    exactly one success, skip or dead event and an unsettled one none, and attempts
    counts the fail and dead events. No transaction is left open, and the snapshot
    of a worker agrees with the row as long as the row is its own. *)
Theorem reachable_invariant s : reachable s → inv s.
Proof. intros Hr. by apply reachable_all. Qed.

(** C3: whatever the interleaving, what a job has become stays: from a reachable state
    on, a settled row is never changed until retention deletes it whole, an id is
    never reused, the identity columns of a row never change, and no event is lost
    while its job exists. *)
Theorem settled_is_final s s' :
  reachable s → rtc sstep s s' → history (tabs (db s)) (tabs (db s')).
Proof.
  intros Hr Hst. destruct (reachable_all s Hr) as [Hinv _]. by apply (steps_inv s s' Hinv Hst).
Qed.

(** C1: the system implements the abstract queue, step by step: along every run from the
    empty system, the abstract queues of the visited states form a run of the abstract
    queue in which each step does only what its label allows. An enqueue submits its own
    key at most once, a lease takes at most one queued job for its worker, an outcome
    write is at most the one succeed, skip, die or retry of its verdict, on the job of
    its worker and only while that worker runs it, a drain gives back only what its
    worker runs, a sweep only takes running jobs back, retention only forgets jobs
    that are done, a poll only submits the keys of its rows, and nothing else
    changes the queue. *)
Theorem system_refines_queue tr :
  runs init tr → queue_run ∅ (prod_map (λ o, o) (λ s, abs (tabs (db s))) <$> tr).
Proof.
  intros Hr. pose proof (runs_refine init tr inv_init Hr) as Hq.
  assert (abs (tabs (db init)) = ∅) as E by apply fmap_empty. by rewrite E in Hq.
Qed.

(** C4: the atomic steps the interleaving is made of are the worker's: a whole call of
    [processOne] on the worker's job, with any source, transport and callbacks that
    leave the control database alone, is a sequence of system steps of that worker,
    so everything proved of the steps holds of the call. *)
Theorem processOne_is_steps {W} `{Lens W pg} h (r : Runner W) w j s (x : W) :
  framed_runner r → busy s !! w = Some j → view x = db s →
  rtc sstep s {| db := view (snd (processOne h r w j x)); busy := delete w (busy s) |}.
Proof. apply processOne_steps. Qed.

End System.

(** ** Witnesses *)

(** A client enqueued and a worker leased the job. *)
Definition leased_sys : sys := {| db := sample_leased; busy := {[ sample_worker := sample_job ]} |}.

(** Time passes, the job is enqueued, the worker leases it. *)
Definition leased_run : list (op * sys) :=
  [ (OpEnv, {| db := {| env := sample_env; tabs := empty_tables; tx := None; script := [] |}; busy := ∅ |});
    (OpEnqueue sample_args, {| db := sample_queued; busy := ∅ |});
    (OpLease sample_worker, leased_sys) ].

Lemma leased_runs : runs init leased_run.
Proof.
  eapply runs_cons; [apply (s_env init sample_env [])|].
  eapply runs_cons; [apply (s_enqueue {| db := {| env := sample_env; tabs := empty_tables; tx := None;
    script := [] |}; busy := ∅ |} sample_args (inr (1, true)) sample_queued); vm_compute; reflexivity|].
  eapply runs_cons; [|constructor].
  apply (s_lease {| db := sample_queued; busy := ∅ |} sample_worker sample_job sample_leased);
    [reflexivity|vm_compute; reflexivity].
Qed.

Lemma runs_steps `{ScanOrder} s tr o s' : runs s (tr ++ [(o, s')]) → rtc sstep s s'.
Proof.
  revert s. induction tr as [|[o1 s1] tr IH]; intros s Hr; inversion Hr; subst; simpl in *.
  - apply rtc_once. by eexists.
  - eapply rtc_l; [by eexists|by apply IH].
Qed.

Lemma leased_reachable : reachable leased_sys.
Proof. exact (runs_steps init (take 2 leased_run) (OpLease sample_worker) leased_sys leased_runs). Qed.

(** The worker settled it. *)
Definition done_sys : sys :=
  {| db := sample_done; busy := delete sample_worker (busy leased_sys) |}.

Lemma reachable_invariant_witness : busy leased_sys !! sample_worker = Some sample_job ∧ inv leased_sys.
Proof. split; [reflexivity|]. apply (reachable_invariant leased_sys leased_reachable). Defined.

Lemma processOne_is_steps_witness :
  rtc sstep leased_sys done_sys ∧ status <$> jobs (tabs (db done_sys)) !! 1 = Some Succeeded.
Proof.
  split; [|vm_compute; reflexivity].
  exact (processOne_is_steps toy_host toy_runner sample_worker sample_job leased_sys toy_world
    toy_runner_framed eq_refl eq_refl).
Defined.

Lemma settled_is_final_witness : history (tabs (db leased_sys)) (tabs (db done_sys)).
Proof.
  apply (settled_is_final leased_sys done_sys leased_reachable).
  exact (processOne_steps toy_host toy_runner sample_worker sample_job leased_sys toy_world
    toy_runner_framed eq_refl eq_refl).
Defined.

Lemma system_refines_queue_witness :
  abs (tabs (db leased_sys)) !! 1
    = Some {| a_key := ("images-7", "ftp://h/7.png")%string; a_fails := 0; a_budget := 3;
              a_phase := Running sample_worker |} ∧
  queue_run ∅ (prod_map (λ o, o) (λ s, abs (tabs (db s))) <$> leased_run).
Proof. split; [vm_compute; reflexivity|]. apply (system_refines_queue leased_run leased_runs). Defined.
